(* ===== verification/_CoqProject ===== *)
-Q . S2P
Prelude.v
Platform.v
RustStr.v
RustStrLemmas.v
Utf8.v
Nvs.v
NvsMem.v
Record.v
SessionSlots.v
Lru.v
Flash.v
FlashSpec.v
FlashRecords.v
FlashBoot.v
FlashReset.v
FlashDevice.v
StoreInner.v
Store.v
FlashWorker.v
StoreRam.v
StoreInv.v
StoreOps.v
StoreSpec.v
StoreHistory.v
StoreOpen.v
StoreBoot.v
Concrete.v
StoreRace.v
FlashTheorems.v
StoreTheorems.v
StoreRamTheorems.v
Io.v
Streams.v
Ws.v
WsSpec.v
WsReference.v
WsTheorems.v
WsHandshake.v
HttpChunked.v
HttpChunkedSpec.v
HttpChunkedTheorems.v
HttpClient.v
HttpTheorems.v
HttpExchange.v
HttpStreaming.v
WsDuplex.v
Transport.v
TransportEvents.v
TransportWrites.v
TransportWitness.v
Json.v
Runtime.v
Executor.v
Crash.v
Metrics.v
DeviceStatus.v
Coordinator.v
Maintenance.v
MaintenanceTheorems.v
SendAdmission.v
Admin.v
AdminTheorems.v
AdminReplies.v
Firmware.v
FirmwareTheorems.v
Startup.v
StartupTheorems.v
Watchdog.v
Events.v
Demo.v
PsramAlloc.v
