(* ===== verification/Prelude.v ===== *)
(** * whatsapp-esp32: a verification library

    The program is the firmware of a WhatsApp companion device on an ESP32
    ([src/], crate [whatsapp_esp32]; file names below are relative to
    [src/src/]).  The WhatsApp protocol itself is the [whatsapp-rust] SDK's;
    what the repository adds is everything around it: a flash-backed
    credential store, a WebSocket transport and an HTTP client over TLS
    streams, a supervisor that runs one client after the other and the
    maintenance that ends in a reboot, a dashboard, and the runtime that
    carries all of it.

    ** How to read it

    A method is a function of the state it works on, in the state and error
    monad [M] of this file where it can fail; a Rust integer is a [Z] with its
    wrap-around or its range check written out; a [&[u8]] or a [String] is a
    list of bytes.  A component that shares state with other threads is a
    machine that makes one shared access or one awaited call a step, and its
    theorems quantify over every interleaving of such steps with everything
    else.  Code outside the repository is a class whose operations are its
    calls and whose laws are its documented behaviour ([Nvs], [Sha256],
    [Wacore], [Reader], [Writer], [SerdeJson], [HeapCaps], ...), or an argument
    of the step that asks for its answer (the clock, the SDK's answers).
    Instances of the classes ([NvsMem], [Concrete], and the ends of the
    theorem files) make the examples run and show that the laws can hold.

    ** Foundations

    [Prelude] bytes, slices, the monad and its weakest precondition, machine
    integers; [Platform] the board ([HAS_PSRAM], [by_ram] of [runtime.rs]);
    [RustStr], [RustStrLemmas], [Utf8] what the source uses of [str]; [Io]
    [std::io] with its contract; [Json] values of [serde_json].

    ** The store ([storage.rs], [storage/session_slots.rs])

    [Nvs] the partition and its laws, with faults at any call and a power loss
    between any two; [NvsMem] an instance.  [Record] the record codec, record
    names and limits; [SessionSlots] the cache of verified slots; [Flash] the
    worker's operations ([FlashNamespaces]), [FlashWorker] the thread that runs
    them for everyone, one at a time; [Lru], [StoreInner] the RAM
    mirrors and their caps; [Store] the methods of [NvsStore] behind the write
    gate; [StoreRam] the RAM-only traits; [StoreOpen] the boot replay.
    [FlashSpec], [FlashRecords], [FlashBoot], [FlashReset], [FlashDevice] prove
    each flash operation against the view of a namespace as a map from logical
    keys to values; [StoreInv], [StoreOps], [StoreSpec], [StoreHistory],
    [StoreBoot] carry the store's invariant and its coherence with flash
    through every method, outcome, sequence of calls and reboot.
    [FlashTheorems], [StoreTheorems], [StoreRamTheorems] state the results: the
    records are a map whatever fails, mirrors agree with flash, opening
    rebuilds the store, a factory reset is all or nothing across power loss, a
    sealed store is frozen, token merges converge.  [StoreRace] takes
    [get_session], which reads without the store's lock, apart.

    ** The network ([ws.rs], [http_chunked.rs], [http_client.rs],
    [transport.rs], [transport/write_completion.rs])

    [Streams] the TLS stream and the HTTP client's choice of stream, which meet
    the interface of [Io] that everything below is proved against.
    [Ws] the frame codec, resumable at any byte; [WsSpec] what it reads as one
    pass over the wire, [WsReference] an independent reading of RFC 6455 from
    the protocol's own tables, shown equal to it;
    [WsHandshake] the upgrade; [WsDuplex] that reading and sending do not
    disturb each other; [WsTheorems]: messages delivered are those of the
    wire, memory is bounded, frames sent decode.  [HttpChunked],
    [HttpChunkedSpec], [HttpChunkedTheorems] the chunked decoder against a
    reference; [HttpClient] the client; [HttpTheorems] that a request cannot be
    split; [HttpExchange], [HttpStreaming] that a response reported whole was
    whole.  [Transport] the socket thread, its job queue, its event channel and
    its users as one machine; [TransportEvents], [TransportWrites]: events are
    the wire's, sends are written in order and answered.

    ** The device ([supervisor.rs], [supervisor/message_log.rs], [admin.rs],
    [admin/send_admission.rs], [main.rs])

    [DeviceStatus] the status behind the dashboard; [Coordinator] and
    [Maintenance] the arbitration of reset, clear and reboot and the task that
    carries them out, [MaintenanceTheorems] that the gravest accepted request
    is applied before the reboot and that the task ends.  [SendAdmission] the
    quiet period and the task of [POST /send] against its handler; [Admin] the
    routes; [AdminTheorems] that without the token nothing is learnt or
    changed, and when a linking code is asked for; [AdminReplies] that every
    answer is an object of a known shape.  [Firmware] the exits of a
    client and the supervisor loop, the admin token; [FirmwareTheorems] that it
    keeps to what the server said, that one task at most erases and reboots
    for supervisor and dashboard together, none without the token or the
    server's word, and that authentication fails closed.  [Startup] is [main],
    from power-on to the supervisor, over the answers of the SDK;
    [StartupTheorems]: it stops safely wherever a call fails, and what it hands
    over starts the guarantees of the store and of the supervisor, so that from
    power-on nothing is erased without authority.  [Events] the event closure
    and the ping demo: messages are recorded and answered in order, and the
    closure gets done what the event asks for.  [Demo] the configuration of a client and the development
    build's scan of the pairing code.  [Watchdog] the feeder.

    ** The platform ([runtime.rs], [crash.rs], [metrics.rs], [psram_alloc.rs])

    [Runtime] the blocking worker: jobs run at most once, in order, and every call is
    answered.  [Executor] the spawning of threads, and the executor's queue,
    pump and tasks as a machine: what was spawned is run, and nothing else.
    [Crash] the panic hook as stores to RTC memory that a reset can cut short;
    [Metrics] what [/metrics] and the log say, from which the end of the last
    run reads back.  [PsramAlloc] the allocator over the SDK's heap: a block
    keeps what it holds.

    ** Fuel and bounds

    Recursion that is not structural takes fuel, and each use comes with a
    lemma that its fuel is enough: the loops over a stream ([Io.iterate]) a
    round for each byte to come and each time the stream may stall, the
    reference decoders the length of the wire ([WsSpec.next_fuel_enough],
    [WsReference.messages_read],
    [HttpChunkedSpec.decode_fuel_enough]), text functions the length of the
    text ([Utf8.utf8_valid_fuel_more]), [dec] the forty digits of a number
    below 10^40.  Machines have no fuel: termination is a decreasing measure
    ([MaintenanceTheorems], [TransportWrites], [Events.togo],
    [Runtime.remaining]).

    ** Not modelled

    [http_client/memory_gate.rs], an async mutex of a library in three lines
    (its users ask for the permit in a step of their own: [Events],
    [SendAdmission]); what the SDK does in the calls of [Startup], of the
    client builder and of [Streams] ([esp_tls], the socket, their timeouts);
    the order in which the third-party executor polls its tasks and how it
    parks, which is any sequence of events here; the timer; the dashboard's
    page and the text of JSON values, opaque; logging.  [Arc], mutexes and
    channels of the standard library are the atomicity of a step. *)

From stdpp Require Export prelude list gmap strings.
From Stdlib Require Export ZArith Lia.
From Stdlib Require Export Strings.Byte.

#[global] Open Scope Z_scope.
#[global] Set Default Proof Using "Type".

(** ** Bytes

    A Rust [u8] is [Byte.byte]; [&[u8]], [Vec<u8>], [Bytes], and the UTF-8
    bytes of a [&str]/[String] are all [list byte].  Arithmetic on a byte goes
    through its value in [Z], and [byte_of_Z] is the truncating cast [as u8]. *)

Abbreviation bytes := (list byte).

Definition Z_of_byte (b : byte) : Z := Z.of_N (Byte.to_N b).

Definition byte_of_Z (z : Z) : byte :=
  match Byte.of_N (Z.to_N (z mod 256)) with
  | Some b => b
  | None => x00
  end.

#[global] Instance byte_eq_dec : EqDecision byte := Byte.byte_eq_dec.

#[global] Program Instance byte_countable : Countable byte :=
  inj_countable Byte.to_N Byte.of_N _.
Next Obligation. intros b. apply Byte.of_to_N. Qed.

#[global] Instance byte_inhabited : Inhabited byte := populate x00.

(** A string literal as the bytes of a Rust [b".."] or [".."] literal. *)
Definition bs (s : string) : bytes := String.list_byte_of_string s.

(** ** Lengths and slices, with the index type [usize] as [Z] *)

Definition len {A} (l : list A) : Z := Z.of_nat (length l).
Definition ztake {A} (n : Z) (l : list A) : list A := take (Z.to_nat n) l.
Definition zdrop {A} (n : Z) (l : list A) : list A := drop (Z.to_nat n) l.
(** [&l[i..j]] *)
Definition slice {A} (i j : Z) (l : list A) : list A := ztake (j - i) (zdrop i l).
(** [l[i]], used only where the source's index is in bounds. *)
Definition byte_at (l : bytes) (i : Z) : byte := nth (Z.to_nat i) l x00.

(** ** Results and the state-and-error monad *)

Inductive result (E A : Type) : Type :=
| Ok (a : A)
| Err (e : E).
Arguments Ok {E A} a.
Arguments Err {E A} e.

(** A fallible computation over a mutable state: what it did to the state
    stays done when it returns an error, as with [?] in Rust. *)
Definition M (S E A : Type) : Type := S -> S * result E A.

Definition ret {S E A} (a : A) : M S E A := fun s => (s, Ok a).
Definition fail {S E A} (e : E) : M S E A := fun s => (s, Err e).
Definition bind {S E A B} (m : M S E A) (k : A -> M S E B) : M S E B :=
  fun s => match m s with
           | (s', Ok a) => k a s'
           | (s', Err e) => (s', Err e)
           end.
Definition get {S E} : M S E S := fun s => (s, Ok s).
Definition modify {S E} (f : S -> S) : M S E unit := fun s => (f s, Ok tt).
(** [r?] for a pure [Result]. *)
Definition lift {S E A} (r : result E A) : M S E A := fun s => (s, r).
(** [match m { r => .. }]: run [m] and hand its outcome over as a value. *)
Definition attempt {S E E' A} (m : M S E A) : M S E' (result E A) :=
  fun s => let '(s', r) := m s in (s', Ok r).
(** [m.map_err(f)] *)
Definition map_err {S E E' A} (f : E -> E') (m : M S E A) : M S E' A :=
  fun s => match m s with
           | (s', Ok a) => (s', Ok a)
           | (s', Err e) => (s', Err (f e))
           end.
Definition bind_res {E A B} (r : result E A) (k : A -> result E B) : result E B :=
  match r with Ok a => k a | Err e => Err e end.
(** Run a computation on the part of the state a record field holds. *)
Definition zoom {S T E A} (get : S -> T) (set : T -> S -> S) (m : M T E A) : M S E A :=
  fun s => let '(t', r) := m (get s) in (set t' s, r).

Declare Scope wa_scope.
Delimit Scope wa_scope with wa.
Notation "'let*' x := m 'in' k" := (bind m (fun x => k))
  (at level 10, x pattern, m at level 100, k at level 200) : wa_scope.
Notation "m ;;; k" := (bind m (fun _ => k))
  (at level 100, k at level 200, right associativity) : wa_scope.
Notation "'let?' x := r 'in' k" := (bind_res r (fun x => k))
  (at level 10, x pattern, r at level 100, k at level 200) : wa_scope.
#[global] Open Scope wa_scope.

(** ** A weakest-precondition reading of the monad

    [wp m Q s] says that from [s] the computation [m] ends in an outcome and a
    state that satisfy [Q]; it is total, as [m] is a function. *)

Definition wp {S E A} (m : M S E A) (Q : result E A -> S -> Prop) (s : S) : Prop :=
  let '(s', r) := m s in Q r s'.

(** [m] relates its initial and final states by [R], whatever its outcome. *)
Definition keeps {S E A} (R : S -> S -> Prop) (m : M S E A) : Prop :=
  forall s, R s (m s).1.

Definition is_ok {E A} (r : result E A) : bool := match r with Ok _ => true | Err _ => false end.

(** Remove the first element that satisfies [P]: [iter().position(P)] followed
    by [VecDeque::remove]. *)
Definition remove_first {A} (P : A -> Prop) `{!forall x, Decision (P x)} (l : list A) : list A :=
  match list_find P l with
  | Some (i, _) => delete i l
  | None => l
  end.

(** Integers of a fixed width: [wrap w z] is [z as u<w>]. *)
Definition wrap (w : Z) (z : Z) : Z := z mod 2 ^ w.
Definition fits (w : Z) (z : Z) : bool := (0 <=? z) && (z <? 2 ^ w).

(** [u16::to_le_bytes] and friends. *)
Fixpoint le_bytes (n : nat) (z : Z) : bytes :=
  match n with
  | O => []
  | S n => byte_of_Z z :: le_bytes n (z / 256)
  end.
Fixpoint le_value (l : bytes) : Z :=
  match l with
  | [] => 0
  | b :: l => Z_of_byte b + 256 * le_value l
  end.
Definition be_bytes (n : nat) (z : Z) : bytes := rev (le_bytes n z).
Definition be_value (l : bytes) : Z := le_value (rev l).

(** ** Bytes *)

Lemma Z_of_byte_range b : 0 <= Z_of_byte b < 256.
Proof.
  unfold Z_of_byte. pose proof (Byte.to_N_bounded b). lia.
Qed.

Lemma byte_of_Z_of_byte b : byte_of_Z (Z_of_byte b) = b.
Proof.
  unfold byte_of_Z. rewrite Z.mod_small by apply Z_of_byte_range.
  unfold Z_of_byte. rewrite N2Z.id, Byte.of_to_N. done.
Qed.

Lemma Z_of_byte_of_Z z : Z_of_byte (byte_of_Z z) = z mod 256.
Proof.
  unfold byte_of_Z, Z_of_byte.
  assert (Hb : 0 <= z mod 256 < 256) by (apply Z.mod_pos_bound; lia).
  destruct (Byte.of_N (Z.to_N (z mod 256))) as [b|] eqn:E.
  - apply Byte.to_of_N in E. rewrite E. lia.
  - apply Byte.of_N_None_iff in E. lia.
Qed.

Lemma Z_of_byte_inj b b' : Z_of_byte b = Z_of_byte b' -> b = b'.
Proof. intros H. rewrite <- (byte_of_Z_of_byte b), H. apply byte_of_Z_of_byte. Qed.

(** ** Lengths and slices *)

Lemma len_nil A : len (@nil A) = 0. Proof. done. Qed.
Lemma len_cons {A} (x : A) l : len (x :: l) = 1 + len l.
Proof. unfold len. cbn [length]. lia. Qed.
Lemma len_app {A} (l k : list A) : len (l ++ k) = len l + len k.
Proof. unfold len. rewrite length_app. lia. Qed.
Lemma len_nonneg {A} (l : list A) : 0 <= len l.
Proof. unfold len. lia. Qed.
Lemma len_rev {A} (l : list A) : len (rev l) = len l.
Proof. unfold len. rewrite length_rev. done. Qed.
Lemma len_map {A B} (f : A -> B) l : len (map f l) = len l.
Proof. unfold len. rewrite length_map. done. Qed.
Lemma len_fmap {A B} (f : A -> B) (l : list A) : len (f <$> l) = len l.
Proof. unfold len. rewrite length_fmap. done. Qed.
Lemma len_replicate {A} n (x : A) : len (replicate n x) = Z.of_nat n.
Proof. unfold len. rewrite length_replicate. done. Qed.
Lemma len_ztake {A} n (l : list A) : len (ztake n l) = Z.max 0 (Z.min n (len l)).
Proof. unfold len, ztake. rewrite length_take. lia. Qed.
Lemma len_zdrop {A} n (l : list A) : len (zdrop n l) = Z.max 0 (len l - Z.max 0 n).
Proof. unfold len, zdrop. rewrite length_drop. lia. Qed.
Lemma len_0_nil {A} (l : list A) : len l = 0 -> l = [].
Proof. destruct l; [done|]. rewrite len_cons. pose proof (len_nonneg l). lia. Qed.

Lemma ztake_app {A} n (l k : list A) : n = len l -> ztake n (l ++ k) = l.
Proof. intros ->. unfold ztake, len. rewrite Nat2Z.id. apply take_app_length. Qed.
Lemma zdrop_app {A} n (l k : list A) : n = len l -> zdrop n (l ++ k) = k.
Proof. intros ->. unfold zdrop, len. rewrite Nat2Z.id. apply drop_app_length. Qed.
Lemma ztake_zdrop {A} n (l : list A) : ztake n l ++ zdrop n l = l.
Proof. apply take_drop. Qed.
Lemma ztake_all {A} n (l : list A) : len l <= n -> ztake n l = l.
Proof. intros H. unfold ztake. apply take_ge. unfold len in H. lia. Qed.
Lemma ztake_nil {A} n (l : list A) : n <= 0 -> ztake n l = [].
Proof. intros H. unfold ztake. replace (Z.to_nat n) with O by lia. done. Qed.
Lemma zdrop_0 {A} n (l : list A) : n <= 0 -> zdrop n l = l.
Proof. intros H. unfold zdrop. replace (Z.to_nat n) with O by lia. done. Qed.
Lemma zdrop_all {A} n (l : list A) : len l <= n -> zdrop n l = [].
Proof. intros H. unfold zdrop. apply drop_ge. unfold len in H. lia. Qed.
Lemma zdrop_zdrop {A} n m (l : list A) :
  0 <= n -> 0 <= m -> zdrop n (zdrop m l) = zdrop (m + n) l.
Proof. intros. unfold zdrop. rewrite drop_drop. f_equal. lia. Qed.
Lemma ztake_app_l {A} n (l k : list A) : n <= len l -> ztake n (l ++ k) = ztake n l.
Proof. intros. unfold ztake. apply take_app_le. unfold len in *. lia. Qed.
Lemma zdrop_app_l {A} n (l k : list A) : n <= len l -> zdrop n (l ++ k) = zdrop n l ++ k.
Proof. intros. unfold zdrop. apply drop_app_le. unfold len in *. lia. Qed.
Lemma ztake_app_r {A} n (l k : list A) :
  len l <= n -> ztake n (l ++ k) = l ++ ztake (n - len l) k.
Proof.
  intros. unfold ztake, len in *. rewrite take_app_ge by lia.
  do 2 f_equal. lia.
Qed.
Lemma zdrop_app_r {A} n (l k : list A) : len l <= n -> zdrop n (l ++ k) = zdrop (n - len l) k.
Proof.
  intros. unfold zdrop, len in *. rewrite drop_app_ge by lia. f_equal. lia.
Qed.

Create Rewrite HintDb lens.
#[export] Hint Rewrite @len_nil @len_cons @len_app @len_rev @len_map @len_fmap
  @len_replicate @len_ztake @len_zdrop : lens.

(** Expand every list length and decide the arithmetic left over. *)
Ltac len_lia :=
  autorewrite with lens in *;
  repeat match goal with
    | l : list _ |- _ =>
        lazymatch goal with
        | H : 0 <= len l |- _ => fail
        | _ => pose proof (len_nonneg l)
        end
    end;
  lia.

(** Split on the integer comparisons of the goal, dropping the sides that
    arithmetic refutes. *)
Ltac zcase :=
  match goal with
  | |- context [?a <? ?b] => destruct (Z.ltb_spec a b)
  | |- context [?a <=? ?b] => destruct (Z.leb_spec a b)
  | |- context [?a >? ?b] => rewrite (Z.gtb_ltb a b); destruct (Z.ltb_spec b a)
  | |- context [?a >=? ?b] => rewrite (Z.geb_leb a b); destruct (Z.leb_spec b a)
  | |- context [?a =? ?b] => destruct (Z.eqb_spec a b)
  end; try (exfalso; len_lia); cbn [andb orb negb].

(** ** Little- and big-endian integers *)

Lemma len_le_bytes n z : len (le_bytes n z) = Z.of_nat n.
Proof. revert z. induction n as [|n IH]; intros z; [done|]. cbn. rewrite len_cons, IH. lia. Qed.

Lemma le_value_bytes n z : le_value (le_bytes n z) = z mod 256 ^ Z.of_nat n.
Proof.
  revert z. induction n as [|n IH]; intros z.
  - cbn. rewrite Z.mod_1_r. done.
  - cbn [le_bytes le_value]. rewrite IH, Z_of_byte_of_Z.
    rewrite Nat2Z.inj_succ, Z.pow_succ_r by lia.
    rewrite Z.rem_mul_r by (try apply Z.pow_nonzero; lia). done.
Qed.

Lemma le_value_range l : 0 <= le_value l < 256 ^ len l.
Proof.
  induction l as [|b l IH]; [rewrite len_nil; cbn; lia|].
  cbn [le_value]. rewrite len_cons, Z.pow_add_r by (pose proof (len_nonneg l); lia).
  change (256 ^ 1) with 256.
  pose proof (Z_of_byte_range b). lia.
Qed.

Lemma le_bytes_value l : le_bytes (length l) (le_value l) = l.
Proof.
  induction l as [|b l IH]; [done|]. cbn [length le_bytes le_value].
  pose proof (Z_of_byte_range b).
  f_equal.
  - apply Z_of_byte_inj. rewrite Z_of_byte_of_Z.
    rewrite Z.mul_comm, Z.mod_add by lia. apply Z.mod_small. done.
  - replace ((Z_of_byte b + 256 * le_value l) / 256) with (le_value l); [done|].
    apply (Z.div_unique_pos _ _ _ (Z_of_byte b)); lia.
Qed.

Lemma len_be_bytes n z : len (be_bytes n z) = Z.of_nat n.
Proof. unfold be_bytes. rewrite len_rev. apply len_le_bytes. Qed.

Lemma be_value_bytes n z : be_value (be_bytes n z) = z mod 256 ^ Z.of_nat n.
Proof. unfold be_value, be_bytes. rewrite rev_involutive. apply le_value_bytes. Qed.

Lemma be_value_range l : 0 <= be_value l < 256 ^ len l.
Proof. unfold be_value. rewrite <- (len_rev l). apply le_value_range. Qed.

Lemma be_bytes_value n l : length l = n -> be_bytes n (be_value l) = l.
Proof.
  intros <-. unfold be_bytes, be_value.
  rewrite <- (length_rev l), le_bytes_value. apply rev_involutive.
Qed.

Lemma le_value_app l k : le_value (l ++ k) = le_value l + 256 ^ len l * le_value k.
Proof.
  induction l as [|b l IH]; [rewrite len_nil; cbn; lia|].
  cbn [le_value app]. rewrite IH, len_cons, Z.pow_add_r by (pose proof (len_nonneg l); lia).
  change (256 ^ 1) with 256. lia.
Qed.

Lemma be_value_app l k : be_value (l ++ k) = be_value l * 256 ^ len k + be_value k.
Proof. unfold be_value. rewrite rev_app_distr, le_value_app, len_rev. lia. Qed.

#[export] Hint Rewrite len_le_bytes len_be_bytes : lens.

(** ** Weakest preconditions *)

Section Wp.
Context {S E : Type}.
Implicit Types (s : S).

Lemma wp_unfold {A} (m : M S E A) Q s : wp m Q s <-> Q (m s).2 (m s).1.
Proof. unfold wp. destruct (m s). done. Qed.

Lemma wp_result {A} (m : M S E A) Q s : wp m Q s -> Q (m s).2 (m s).1.
Proof. unfold wp. by destruct (m s). Qed.

Lemma wp_elim {A} (m : M S E A) Q s s' r : m s = (s', r) -> wp m Q s -> Q r s'.
Proof. unfold wp. intros ->. done. Qed.

Lemma wp_mono {A} (m : M S E A) (P Q : result E A -> S -> Prop) s :
  wp m P s -> (forall r s', P r s' -> Q r s') -> wp m Q s.
Proof. unfold wp. destruct (m s). auto. Qed.

Lemma wp_and {A} (m : M S E A) (P Q : result E A -> S -> Prop) s :
  wp m P s -> wp m Q s -> wp m (fun r s' => P r s' /\ Q r s') s.
Proof. unfold wp. destruct (m s). auto. Qed.

Lemma wp_bind {A B} (m : M S E A) (k : A -> M S E B) Q s :
  wp m (fun r s' => match r with Ok a => wp (k a) Q s' | Err e => Q (Err e) s' end) s ->
  wp (bind m k) Q s.
Proof. unfold wp, bind. destruct (m s) as [s' []]; auto. Qed.

Lemma wp_ret {A} (a : A) (Q : result E A -> S -> Prop) s : Q (Ok a) s -> wp (ret a) Q s.
Proof. done. Qed.

Lemma wp_fail {A} (e : E) (Q : result E A -> S -> Prop) s : Q (Err e) s -> wp (fail e) Q s.
Proof. done. Qed.

Lemma wp_lift {A} (r : result E A) Q s : Q r s -> wp (lift r) Q s.
Proof. done. Qed.

Lemma wp_get (Q : result E S -> S -> Prop) s : Q (Ok s) s -> wp get Q s.
Proof. done. Qed.

Lemma wp_modify f (Q : result E unit -> S -> Prop) s : Q (Ok tt) (f s) -> wp (modify f) Q s.
Proof. done. Qed.

Lemma wp_attempt {E' A} (m : M S E A) (Q : result E' (result E A) -> S -> Prop) s :
  wp m (fun r s' => Q (Ok r) s') s -> wp (attempt m) Q s.
Proof. unfold wp, attempt. destruct (m s). done. Qed.

Lemma wp_map_err {E' A} (f : E -> E') (m : M S E A) Q s :
  wp m (fun r s' => match r with Ok a => Q (Ok a) s' | Err e => Q (Err (f e)) s' end) s ->
  wp (map_err f m) Q s.
Proof. unfold wp, map_err. destruct (m s) as [s' []]; auto. Qed.

Lemma wp_zoom {T A} (g : S -> T) (p : T -> S -> S) (m : M T E A) Q s :
  wp m (fun r t => Q r (p t s)) (g s) -> wp (zoom g p m) Q s.
Proof. unfold wp, zoom. destruct (m (g s)). done. Qed.

Lemma keeps_wp {A} R (m : M S E A) s : keeps R m -> wp m (fun _ s' => R s s') s.
Proof. intros H. apply wp_unfold. apply H. Qed.

Lemma wp_keeps {A} (R : S -> S -> Prop) (m : M S E A) :
  (forall s, wp m (fun _ s' => R s s') s) -> keeps R m.
Proof. intros H s. specialize (H s). apply wp_unfold in H. done. Qed.

Lemma keeps_ret {A} (R : S -> S -> Prop) `{!Reflexive R} (a : A) : keeps (E:=E) R (ret a).
Proof. intros s. cbn. reflexivity. Qed.

Lemma keeps_fail {A} (R : S -> S -> Prop) `{!Reflexive R} (e : E) : keeps (A:=A) R (fail e).
Proof. intros s. cbn. reflexivity. Qed.

Lemma keeps_lift {A} (R : S -> S -> Prop) `{!Reflexive R} (r : result E A) : keeps R (lift r).
Proof. intros s. cbn. reflexivity. Qed.

Lemma keeps_bind {A B} (R : S -> S -> Prop) `{!Transitive R} (m : M S E A) (k : A -> M S E B) :
  keeps R m -> (forall a, keeps R (k a)) -> keeps R (bind m k).
Proof.
  intros Hm Hk s. unfold bind. specialize (Hm s).
  destruct (m s) as [s' [a|e]]; cbn in *; [|done].
  etrans; [done|]. apply Hk.
Qed.
End Wp.

Create HintDb keeps discriminated.
#[export] Hint Resolve keeps_ret keeps_fail keeps_lift : keeps.

(** One syntactic step of a weakest precondition. *)
Ltac wp_step :=
  lazymatch goal with
  | |- wp (bind _ _) _ _ => apply wp_bind
  | |- wp (ret _) _ _ => apply wp_ret
  | |- wp (fail _) _ _ => apply wp_fail
  | |- wp (lift _) _ _ => apply wp_lift
  | |- wp get _ _ => apply wp_get
  | |- wp (modify _) _ _ => apply wp_modify
  | |- wp (attempt _) _ _ => apply wp_attempt
  | |- wp (map_err _ _) _ _ => apply wp_map_err
  | |- wp (zoom _ _ _) _ _ => apply wp_zoom
  end; cbn beta iota.
Ltac wp_steps := repeat wp_step.
(** Use the specification [H] of the computation at the head of the goal. *)
Tactic Notation "wp_use" uconstr(H) :=
  eapply wp_mono; [eapply H|]; cbn beta iota.

(** ** First-match removal *)

Section RemoveFirst.
Context {A : Type} (P : A -> Prop) `{!forall x, Decision (P x)}.

Lemma remove_first_nil : remove_first P [] = [].
Proof. done. Qed.

Lemma remove_first_cons x l :
  remove_first P (x :: l) = if decide (P x) then l else x :: remove_first P l.
Proof.
  unfold remove_first. cbn. destruct (decide (P x)) as [|]; [done|].
  destruct (list_find P l) as [[i y]|]; done.
Qed.

Lemma remove_first_none l : Forall (fun x => ~ P x) l -> remove_first P l = l.
Proof.
  induction 1 as [|x l Hx _ IH]; [done|].
  rewrite remove_first_cons, decide_False by done. by rewrite IH.
Qed.

Lemma remove_first_sublist l : sublist (remove_first P l) l.
Proof.
  induction l as [|x l IH]; [done|]. rewrite remove_first_cons.
  case_decide; by constructor.
Qed.

Lemma elem_of_remove_first_inv l x : x ∈ remove_first P l -> x ∈ l.
Proof.
  induction l as [|y l IH]; [done|]. rewrite remove_first_cons, elem_of_cons.
  case_decide; [by right|]. rewrite elem_of_cons. intuition.
Qed.

Lemma remove_first_NoDup l : NoDup l -> NoDup (remove_first P l).
Proof. intros Hl. eapply sublist_NoDup; [done|]. apply remove_first_sublist. Qed.

Lemma length_remove_first l : (length (remove_first P l) <= length l)%nat.
Proof. apply sublist_length, remove_first_sublist. Qed.

Lemma length_remove_first_in l x :
  x ∈ l -> P x -> S (length (remove_first P l)) = length l.
Proof.
  induction l as [|y l IH]; intros Hin HP; [by apply not_elem_of_nil in Hin|].
  rewrite remove_first_cons. case_decide; [done|].
  apply elem_of_cons in Hin as [->|Hin]; [done|]. cbn. f_equal. by apply IH.
Qed.
End RemoveFirst.

Lemma elem_of_remove_first {A} `{!EqDecision A} (k x : A) l :
  NoDup l -> x ∈ remove_first (fun y => y = k) l <-> x ∈ l /\ x <> k.
Proof.
  induction 1 as [|y l Hy Hnd IH]; [set_solver|].
  rewrite remove_first_cons. case_decide; set_solver.
Qed.


(** ** Related lists *)

Lemma Forall2_elem_r {A B} (P : A -> B -> Prop) l k y :
  Forall2 P l k -> y ∈ k -> exists x, x ∈ l /\ P x y.
Proof.
  intros H (i & Hi)%list_elem_of_lookup. destruct (Forall2_lookup_r _ _ _ _ _ H Hi) as (x & Hx & HP).
  exists x. split; [|done]. by eapply list_elem_of_lookup_2.
Qed.

Lemma Forall2_elem_l {A B} (P : A -> B -> Prop) l k x :
  Forall2 P l k -> x ∈ l -> exists y, y ∈ k /\ P x y.
Proof.
  intros H (i & Hi)%list_elem_of_lookup. destruct (Forall2_lookup_l _ _ _ _ _ H Hi) as (y & Hy & HP).
  exists y. split; [|done]. by eapply list_elem_of_lookup_2.
Qed.

Lemma filter_all {A} (P : A -> Prop) `{!forall x, Decision (P x)} (l : list A) :
  (forall x, x ∈ l -> P x) -> filter P l = l.
Proof.
  induction l as [|x l IH]; intros Hall; [done|].
  rewrite filter_cons_True by (apply Hall; by left). f_equal. apply IH.
  intros y Hy. apply Hall. by right.
Qed.
