(* ===== verification/Platform.v ===== *)
(** * What the build decides ([src/runtime.rs])

    Whether the board has external RAM is a constant of its build; buffers,
    queues and stacks are sized by it. *)

From S2P Require Import Prelude.

(** [HAS_PSRAM] *)
Class Board := has_psram : bool.

Definition by_ram `{Board} (psram no_psram : Z) : Z := if has_psram then psram else no_psram.
