(* ===== verification/RustStr.v ===== *)
(** * Rust strings on their bytes

    What the source uses of [str] and [String], as executable functions on
    UTF-8 bytes: validation, boundaries, splitting, trimming, ASCII case,
    and the integer parsers of [FromStr]. *)

From S2P Require Import Prelude.
Section Classes.
Implicit Types b : byte.

Definition in_range (lo hi : Z) b : bool := (lo <=? Z_of_byte b) && (Z_of_byte b <=? hi).
Definition is_digit : byte -> bool := in_range 48 57.
Definition is_upper : byte -> bool := in_range 65 90.
Definition is_lower : byte -> bool := in_range 97 122.
Definition is_alphanumeric b : bool := is_digit b || is_upper b || is_lower b.
Definition is_hexdigit b : bool := is_digit b || in_range 65 70 b || in_range 97 102 b.
(** [u8::is_ascii_control]: 0x00-0x1F and 0x7F. *)
Definition is_control b : bool := in_range 0 31 b || in_range 127 127 b.
(** [u8::is_ascii_whitespace]: space, \t, \n, \x0C, \r. *)
Definition is_ascii_whitespace b : bool :=
  in_range 32 32 b || in_range 9 10 b || in_range 12 13 b.
Definition to_lower b : byte := if is_upper b then byte_of_Z (Z_of_byte b + 32) else b.
(** A UTF-8 continuation byte. *)
Definition is_cont : byte -> bool := in_range 128 191.
End Classes.

(** ** UTF-8 *)

(** The length of the well-formed scalar value at the head of the bytes, by
    the table of the Unicode standard; 0 when there is none. *)
Definition utf8_head (l : bytes) : nat :=
  match l with
  | [] => 0
  | b0 :: l =>
      if in_range 0 127 b0 then 1
      else match l with
      | [] => 0
      | b1 :: l =>
          if in_range 194 223 b0 && is_cont b1 then 2
          else match l with
          | [] => 0
          | b2 :: l =>
              if is_cont b2 &&
                 ((in_range 224 224 b0 && in_range 160 191 b1)
                  || ((in_range 225 236 b0 || in_range 238 239 b0) && is_cont b1)
                  || (in_range 237 237 b0 && in_range 128 159 b1)) then 3
              else match l with
              | [] => 0
              | b3 :: _ =>
                  if is_cont b2 && is_cont b3 &&
                     ((in_range 240 240 b0 && in_range 144 191 b1)
                      || (in_range 241 243 b0 && is_cont b1)
                      || (in_range 244 244 b0 && in_range 128 143 b1)) then 4
                  else 0
              end
          end
      end
  end%nat.

(** [str::from_utf8(..).is_ok()], with as much fuel as there are bytes. *)
Fixpoint utf8_valid_fuel (fuel : nat) (l : bytes) : bool :=
  match l, fuel with
  | [], _ => true
  | _, O => false
  | _, S fuel =>
      match utf8_head l with
      | O => false
      | S _ as n => utf8_valid_fuel fuel (drop n l)
      end
  end.
Definition utf8_valid (l : bytes) : bool := utf8_valid_fuel (length l) l.

(** [str::is_char_boundary] *)
Definition is_char_boundary (l : bytes) (i : Z) : bool :=
  (i =? 0) || (i =? len l)
  || ((0 <? i) && (i <? len l) && negb (is_cont (byte_at l i))).

(** ** Searching and splitting *)

(** [haystack.find(b)] for an ASCII [b]: the index of its first occurrence. *)
Definition find_byte (b : byte) (l : bytes) : option Z :=
  match list_find (fun x => x = b) l with
  | Some (i, _) => Some (Z.of_nat i)
  | None => None
  end.

Fixpoint strip_prefix (prefix l : bytes) : option bytes :=
  match prefix, l with
  | [], l => Some l
  | p :: prefix, b :: l => if bool_decide (p = b) then strip_prefix prefix l else None
  | _ :: _, [] => None
  end.
Definition starts_with (prefix l : bytes) : bool := bool_decide (is_Some (strip_prefix prefix l)).

(** [l.split(sep)] for a one-byte [sep]. *)
Fixpoint split_byte (sep : byte) (l : bytes) : list bytes :=
  match l with
  | [] => [[]]
  | b :: l =>
      if bool_decide (b = sep) then [] :: split_byte sep l
      else match split_byte sep l with
           | [] => [[b]]
           | piece :: pieces => (b :: piece) :: pieces
           end
  end.

(** [l.split("\r\n")] *)
Fixpoint split_crlf (l : bytes) : list bytes :=
  match l with
  | [] => [[]]
  | x0d :: x0a :: l => [] :: split_crlf l
  | b :: l =>
      match split_crlf l with
      | [] => [[b]]
      | piece :: pieces => (b :: piece) :: pieces
      end
  end.

(** [l.split_once(sep)] for a one-byte [sep]. *)
Definition split_once (sep : byte) (l : bytes) : option (bytes * bytes) :=
  match find_byte sep l with
  | Some i => Some (ztake i l, zdrop (i + 1) l)
  | None => None
  end.

(** [l.ends_with(suffix)] *)
Definition ends_with (suffix l : bytes) : bool :=
  bool_decide (zdrop (len l - len suffix) l = suffix) && (len suffix <=? len l).

(** [l.lines()]: pieces between [\n], each without one trailing [\r], and no
    empty piece after a final [\n]. *)
Definition strip_cr (l : bytes) : bytes :=
  if ends_with [x0d] l then ztake (len l - 1) l else l.
Definition lines (l : bytes) : list bytes :=
  match rev (split_byte x0a l) with
  | [] => []
  | [] :: front => map strip_cr (rev front)
  | last :: front => map strip_cr (rev front) ++ [last]
  end.

(** [buf.windows(4).position(|w| w == "\r\n\r\n")] *)
Fixpoint find_header_end (l : bytes) : option Z :=
  match l with
  | [] => None
  | b :: rest =>
      if starts_with [x0d; x0a; x0d; x0a] l then Some 0
      else option_map (Z.add 1) (find_header_end rest)
  end.

(** ** Whitespace *)

(** The UTF-8 encodings of the characters with [char::is_whitespace]. *)
Definition whitespace_encodings : list bytes :=
  [[x09]; [x0a]; [x0b]; [x0c]; [x0d]; [x20]; [xc2; x85]; [xc2; xa0]; [xe1; x9a; x80];
   [xe2; x80; x80]; [xe2; x80; x81]; [xe2; x80; x82]; [xe2; x80; x83]; [xe2; x80; x84];
   [xe2; x80; x85]; [xe2; x80; x86]; [xe2; x80; x87]; [xe2; x80; x88]; [xe2; x80; x89];
   [xe2; x80; x8a]; [xe2; x80; xa8]; [xe2; x80; xa9]; [xe2; x80; xaf]; [xe2; x81; x9f];
   [xe3; x80; x80]].

(** The length of the whitespace character at the head, 0 when there is none. *)
Definition ws_head (encodings : list bytes) (l : bytes) : nat :=
  match List.find (fun e => starts_with e l) encodings with
  | Some e => length e
  | None => 0
  end.

Fixpoint trim_start_fuel (encodings : list bytes) (fuel : nat) (l : bytes) : bytes :=
  match fuel with
  | O => l
  | S fuel =>
      match ws_head encodings l with
      | O => l
      | S _ as n => trim_start_fuel encodings fuel (drop n l)
      end
  end.
Definition trim_start (l : bytes) : bytes := trim_start_fuel whitespace_encodings (length l) l.
Definition trim_end (l : bytes) : bytes :=
  rev (trim_start_fuel (map (@rev byte) whitespace_encodings) (length l) (rev l)).
(** [str::trim] *)
Definition trim (l : bytes) : bytes := trim_end (trim_start l).

(** [str::split_whitespace]: the maximal runs of non-whitespace. *)
Fixpoint split_whitespace_fuel (fuel : nat) (l acc : bytes) : list bytes :=
  let flush := match acc with [] => [] | _ => [rev acc] end in
  match fuel, l with
  | O, _ | _, [] => flush
  | S fuel, b :: rest =>
      match ws_head whitespace_encodings l with
      | O => split_whitespace_fuel fuel rest (b :: acc)
      | S _ as n => flush ++ split_whitespace_fuel fuel (drop n l) []
      end
  end.
Definition split_whitespace (l : bytes) : list bytes := split_whitespace_fuel (length l) l [].

(** [eq_ignore_ascii_case] *)
Definition eq_ignore_case (a b : bytes) : bool :=
  bool_decide (map to_lower a = map to_lower b).

(** ** Integer parsing *)

(** The accumulating loop of [from_str_radix]: checked multiply, checked add. *)
Fixpoint digits_value (w radix : Z) (digit : byte -> option Z) (l : bytes) (acc : Z) : option Z :=
  match l with
  | [] => Some acc
  | b :: l =>
      match digit b with
      | None => None
      | Some d =>
          let acc := acc * radix + d in
          if fits w acc then digits_value w radix digit l acc else None
      end
  end.

Definition dec_digit (b : byte) : option Z :=
  if is_digit b then Some (Z_of_byte b - 48) else None.
Definition hex_digit (b : byte) : option Z :=
  if is_digit b then Some (Z_of_byte b - 48)
  else if in_range 65 70 b then Some (Z_of_byte b - 55)
  else if in_range 97 102 b then Some (Z_of_byte b - 87)
  else None.

(** [str::parse::<u<w>>] and [u<w>::from_str_radix]: one leading [+] is
    allowed, an empty digit string is not. *)
Definition parse_radix (w radix : Z) (digit : byte -> option Z) (l : bytes) : option Z :=
  let digits := match l with x2b :: (_ :: _) as rest => tail l | _ => l end in
  match digits with
  | [] => None
  | _ => digits_value w radix digit digits 0
  end.
Definition parse_uint (w : Z) (l : bytes) : option Z := parse_radix w 10 dec_digit l.
Definition parse_hex (w : Z) (l : bytes) : option Z := parse_radix w 16 hex_digit l.

(** [to_string] of an unsigned integer. *)
Fixpoint dec_fuel (fuel : nat) (z : Z) (acc : bytes) : bytes :=
  match fuel with
  | O => acc
  | S fuel =>
      let acc := byte_of_Z (48 + z mod 10) :: acc in
      if z <? 10 then acc else dec_fuel fuel (z / 10) acc
  end.
Definition dec (z : Z) : bytes := dec_fuel 40 z [].

(** ** Lossy decoding *)

(** The length of the ill-formed sequence at the head: a lead byte and the
    continuation bytes that could still have made a character. *)
Definition utf8_bad (l : bytes) : nat :=
  match l with
  | b0 :: b1 :: rest =>
      let second :=
        (in_range 224 224 b0 && in_range 160 191 b1)
        || ((in_range 225 236 b0 || in_range 238 239 b0) && is_cont b1)
        || (in_range 237 237 b0 && in_range 128 159 b1)
        || (in_range 240 240 b0 && in_range 144 191 b1)
        || (in_range 241 243 b0 && is_cont b1)
        || (in_range 244 244 b0 && in_range 128 143 b1) in
      if second then
        match rest with
        | b2 :: _ => if in_range 240 244 b0 && is_cont b2 then 3 else 2
        | [] => 2
        end
      else 1
  | _ => 1
  end%nat.

(** [String::from_utf8_lossy]: each ill-formed sequence becomes U+FFFD. *)
Fixpoint utf8_lossy_fuel (fuel : nat) (l : bytes) : bytes :=
  match l, fuel with
  | [], _ | _, O => []
  | _, S fuel =>
      match utf8_head l with
      | O => [xef; xbf; xbd] ++ utf8_lossy_fuel fuel (drop (utf8_bad l) l)
      | S _ as n => take n l ++ utf8_lossy_fuel fuel (drop n l)
      end
  end.
Definition utf8_lossy (l : bytes) : bytes := utf8_lossy_fuel (length l) l.
