(* ===== verification/RustStrLemmas.v ===== *)
(** * Lemmas on the byte-string functions of [RustStr] *)

From S2P Require Import Prelude RustStr.
Lemma strip_prefix_Some p l rest : strip_prefix p l = Some rest <-> l = p ++ rest.
Proof.
  revert l. induction p as [|x p IH]; intros l; cbn.
  - naive_solver.
  - destruct l as [|y l]; [naive_solver|]. case_bool_decide as E.
    + subst y. rewrite IH. split; [by intros ->|]. by intros [= ->].
    + split; [done|]. intros [= -> _]. done.
Qed.

Lemma starts_with_true p l : starts_with p l = true <-> exists rest, l = p ++ rest.
Proof.
  unfold starts_with. rewrite bool_decide_eq_true. unfold is_Some.
  by setoid_rewrite strip_prefix_Some.
Qed.

Lemma starts_with_app p l : starts_with p (p ++ l) = true.
Proof. apply starts_with_true. by exists l. Qed.

(** ** The blank line that ends a header *)

Lemma find_header_end_bounds l e : find_header_end l = Some e -> 0 <= e /\ e + 4 <= len l.
Proof.
  revert e. induction l as [|b l IH]; intros e; [done|]. cbn [find_header_end].
  destruct (starts_with _ (b :: l)) eqn:E.
  - intros [= <-]. apply starts_with_true in E as [rest ->]. rewrite len_app. pose proof (len_nonneg rest).
    change (len [x0d; x0a; x0d; x0a]) with 4 in *. lia.
  - destruct (find_header_end l) as [e'|]; [|done]. cbn. intros [= <-].
    destruct (IH e' eq_refl). rewrite len_cons. lia.
Qed.

Lemma starts_with_more p l k : starts_with p l = true -> starts_with p (l ++ k) = true.
Proof.
  rewrite !starts_with_true. intros [rest ->]. exists (rest ++ k). by rewrite (assoc_L (++)).
Qed.

Lemma starts_with_shorter p l k :
  len p <= len l -> starts_with p (l ++ k) = true -> starts_with p l = true.
Proof.
  rewrite !starts_with_true. intros Hl [rest E]. exists (zdrop (len p) l).
  assert (H : ztake (len p) (l ++ k) = p) by (rewrite E; by apply ztake_app).
  rewrite ztake_app_l in H by lia. rewrite <- H at 1. by rewrite ztake_zdrop.
Qed.

Lemma find_header_end_more l k e : find_header_end l = Some e -> find_header_end (l ++ k) = Some e.
Proof.
  revert e. induction l as [|b l IH]; intros e; [done|]. cbn [find_header_end app].
  destruct (starts_with _ (b :: l)) eqn:E.
  - intros [= <-]. rewrite app_comm_cons. by rewrite (starts_with_more _ (b :: l) k E).
  - destruct (find_header_end l) as [e'|] eqn:F; [|done]. cbn. intros [= <-].
    rewrite (IH e' eq_refl). destruct (starts_with _ (b :: l ++ k)) eqn:G; [|done].
    rewrite app_comm_cons in G. apply starts_with_shorter in G; [by rewrite G in E|].
    apply find_header_end_bounds in F. rewrite (len_cons b). change (len [x0d; x0a; x0d; x0a]) with 4 in *. lia.
Qed.

Lemma find_header_end_fewer l k e : find_header_end (l ++ k) = Some e -> e + 4 <= len l -> find_header_end l = Some e.
Proof.
  destruct (find_header_end l) as [e'|] eqn:E; [apply (find_header_end_more _ k) in E; congruence|].
  revert e E. induction l as [|b l IH]; intros e E Hl He.
  { apply find_header_end_bounds in Hl. rewrite len_nil in He. lia. }
  cbn [find_header_end app] in *. destruct (starts_with _ (b :: l)) eqn:F; [done|].
  destruct (find_header_end l) as [e1|] eqn:E1; [done|]. destruct (starts_with _ (b :: l ++ k)) eqn:G.
  - injection Hl as <-. rewrite app_comm_cons in G. apply starts_with_shorter in G; [congruence|].
    change (len [x0d; x0a; x0d; x0a]) with 4. lia.
  - destruct (find_header_end (l ++ k)) as [e2|] eqn:E2; [|done]. injection Hl as <-. rewrite len_cons in He.
    specialize (IH e2 eq_refl eq_refl ltac:(lia)). done.
Qed.

Lemma find_header_end_split l e : find_header_end l = Some e ->
  l = ztake e l ++ [x0d; x0a; x0d; x0a] ++ zdrop (e + 4) l.
Proof.
  revert e. induction l as [|b l IH]; intros e; [done|]. cbn [find_header_end].
  destruct (starts_with _ (b :: l)) eqn:E.
  - intros [= <-]. apply starts_with_true in E as [rest ->]. done.
  - destruct (find_header_end l) as [e'|] eqn:F; [|done]. cbn [option_map]. intros [= <-].
    apply find_header_end_bounds in F. unfold ztake, zdrop.
    replace (Z.to_nat (1 + e')) with (S (Z.to_nat e')) by lia.
    replace (Z.to_nat (1 + e' + 4)) with (S (Z.to_nat (e' + 4))) by lia. cbn [take drop].
    cbn [app]. f_equal. apply (IH e' eq_refl).
Qed.

(** ** The first occurrence of a byte *)

Lemma find_byte_Some b l i : find_byte b l = Some i ->
  0 <= i < len l /\ ztake (i + 1) l = ztake i l ++ [b] /\ ~ b ∈ ztake i l.
Proof.
  unfold find_byte. destruct (list_find _ l) as [[j x]|] eqn:E; [|done]. intros [= <-].
  apply list_find_Some in E as (Hj & -> & Hmin). pose proof (lookup_lt_Some _ _ _ Hj).
  split; [unfold len; lia|]. split.
  - unfold ztake. replace (Z.to_nat (Z.of_nat j + 1)) with (S j) by lia. rewrite Nat2Z.id.
    by apply take_S_r.
  - unfold ztake. rewrite Nat2Z.id. intros (k & Hk)%list_elem_of_lookup.
    apply lookup_take_Some in Hk as [Hk Hlt]. by apply (Hmin k b Hk Hlt).
Qed.

Lemma find_byte_split b l i : find_byte b l = Some i ->
  exists pre post, l = pre ++ b :: post /\ len pre = i /\ ~ b ∈ pre.
Proof.
  intros E. apply find_byte_Some in E as (Hi & Ht & Hn). exists (ztake i l), (zdrop (i + 1) l).
  split_and!; [|rewrite len_ztake; lia|done].
  rewrite <- (ztake_zdrop (i + 1) l) at 1. by rewrite Ht, <- (assoc_L (++)).
Qed.

Lemma find_byte_None b l : find_byte b l = None <-> ~ b ∈ l.
Proof.
  unfold find_byte. destruct (list_find _ l) as [[j x]|] eqn:E.
  - apply list_find_Some in E as (Hj & -> & _). split; [done|]. intros H. exfalso. apply H.
    by eapply list_elem_of_lookup_2.
  - apply list_find_None in E. split; [|done]. intros _ Hb. rewrite Forall_forall in E. by apply (E b Hb).
Qed.

Lemma find_byte_first b l k : ~ b ∈ l -> find_byte b (l ++ b :: k) = Some (len l).
Proof.
  intros H. unfold find_byte.
  rewrite (proj2 (list_find_Some _ _ (length l) b)); [done|]. split_and!.
  - rewrite lookup_app_r by lia. by rewrite Nat.sub_diag.
  - done.
  - intros j y Hj Hlt ->. rewrite lookup_app_l in Hj by done. apply H. by eapply list_elem_of_lookup_2.
Qed.

Lemma split_byte_first sep l k : ~ sep ∈ l -> k = [] \/ (exists k', k = sep :: k') ->
  hd_error (split_byte sep (l ++ k)) = Some l.
Proof.
  intros Hl Hk. induction l as [|b l IH].
  - destruct Hk as [->|[k' ->]]; [done|]. cbn. by rewrite bool_decide_true.
  - cbn. rewrite bool_decide_false by (intros ->; apply Hl; by left).
    assert (H : hd_error (split_byte sep (l ++ k)) = Some l) by (apply IH; intros H; apply Hl; by right).
    destruct (split_byte sep (l ++ k)); [done|]. cbn in H |- *. by injection H as ->.
Qed.

Lemma split_byte_one sep l : ~ sep ∈ l -> split_byte sep l = [l].
Proof.
  induction l as [|b l IH]; intros H; [done|]. cbn.
  rewrite bool_decide_false by (intros ->; apply H; by left).
  rewrite IH; [done|]. intros Hin. apply H. by right.
Qed.

Lemma split_byte_app sep l k : ~ sep ∈ l -> split_byte sep (l ++ sep :: k) = l :: split_byte sep k.
Proof.
  induction l as [|b l IH]; intros H; cbn; [by rewrite bool_decide_true|].
  rewrite bool_decide_false by (intros ->; apply H; by left).
  rewrite IH; [done|]. intros Hin. apply H. by right.
Qed.

Lemma split_once_app sep l k : ~ sep ∈ l -> split_once sep (l ++ sep :: k) = Some (l, k).
Proof.
  intros H. unfold split_once. rewrite find_byte_first by done. rewrite ztake_app by done.
  rewrite (cons_middle sep), (assoc_L (++)), zdrop_app; [done|]. by rewrite len_app.
Qed.

(** ** Lines ended by CRLF *)

Lemma split_crlf_other b l : b <> x0d ->
  split_crlf (b :: l) = match split_crlf l with [] => [[b]] | piece :: pieces => (b :: piece) :: pieces end.
Proof. intros H. by destruct b. Qed.

Lemma split_crlf_one l : ~ x0d ∈ l -> split_crlf l = [l].
Proof.
  induction l as [|b l IH]; intros H; [done|]. rewrite split_crlf_other by (intros ->; apply H; by left).
  rewrite IH; [done|]. intros Hin. apply H. by right.
Qed.

Lemma split_crlf_app l k : ~ x0d ∈ l -> split_crlf (l ++ [x0d; x0a] ++ k) = l :: split_crlf k.
Proof.
  induction l as [|b l IH]; intros H; [done|]. cbn [app].
  rewrite split_crlf_other by (intros ->; apply H; by left).
  change (x0d :: x0a :: k) with ([x0d; x0a] ++ k).
  rewrite IH; [done|]. intros Hin. apply H. by right.
Qed.

Lemma starts_with_head p b l : starts_with (b :: p) l = true -> exists rest, l = b :: rest.
Proof. intros [rest ->]%starts_with_true. by exists (p ++ rest). Qed.

Lemma find_header_end_skip l k : ~ x0d ∈ l ->
  find_header_end (l ++ k) = option_map (Z.add (len l)) (find_header_end k).
Proof.
  induction l as [|b l IH]; intros H; cbn [app].
  - rewrite len_nil. by destruct (find_header_end k).
  - cbn [find_header_end]. destruct (starts_with _ _) eqn:E.
    { apply starts_with_head in E as [rest [= -> _]]. exfalso. apply H. by left. }
    rewrite IH by (intros Hin; apply H; by right). rewrite len_cons.
    destruct (find_header_end k); [|done]. cbn. f_equal. lia.
Qed.

(** A line that does not end the header. *)
Lemma find_header_end_line l b k : ~ x0d ∈ l -> b <> x0d ->
  find_header_end (l ++ [x0d; x0a] ++ b :: k) =
  option_map (Z.add (len l + 2)) (find_header_end (b :: k)).
Proof.
  intros Hl Hb. rewrite find_header_end_skip by done.
  assert (E : find_header_end ([x0d; x0a] ++ b :: k) = option_map (Z.add 2) (find_header_end (b :: k))).
  { assert (H1 : starts_with [x0d; x0a; x0d; x0a] (x0d :: x0a :: b :: k) = false).
    { apply not_true_iff_false. intros [rest [= E _]]%starts_with_true. done. }
    assert (H2 : starts_with [x0d; x0a; x0d; x0a] (x0a :: b :: k) = false).
    { apply not_true_iff_false. intros [rest [=]]%starts_with_true. }
    generalize dependent (b :: k). intros w H1 H2. cbn [app find_header_end]. rewrite H1, H2.
    destruct (find_header_end w) as [e|]; [|done]. cbn. f_equal. lia. }
  rewrite E. destruct (find_header_end (b :: k)); [|done]. cbn. f_equal. lia.
Qed.

Lemma find_header_end_last l k : ~ x0d ∈ l -> find_header_end (l ++ [x0d; x0a; x0d; x0a] ++ k) = Some (len l).
Proof.
  intros H. rewrite find_header_end_skip by done.
  assert (E : find_header_end ([x0d; x0a; x0d; x0a] ++ k) = Some 0) by done.
  rewrite E. cbn [option_map]. f_equal. lia.
Qed.

(** ** Numbers *)

Lemma digits_value_range w radix digit l acc v :
  0 <= acc -> digits_value w radix digit l acc = Some v -> 0 <= v.
Proof.
  revert acc. induction l as [|b l IH]; intros acc Ha; cbn; [by intros [= <-]|].
  destruct (digit b) as [d|]; [|done]. destruct (fits w _) eqn:E; [|done]. apply IH.
  unfold fits in E. apply andb_true_iff in E as [E _]. by apply Z.leb_le.
Qed.

Lemma digits_value_fits w radix digit l : forall acc v,
  acc < 2 ^ w -> digits_value w radix digit l acc = Some v -> v < 2 ^ w.
Proof.
  induction l as [|b l IH]; intros acc v Ha; cbn [digits_value]; [by intros [= <-]|].
  destruct (digit b) as [d|]; [|done]. destruct (fits w (acc * radix + d)) eqn:F; [|done]. apply IH.
  unfold fits in F. rewrite andb_true_iff, Z.ltb_lt in F. apply F.
Qed.

Lemma parse_uint_range w l v : 0 <= w -> parse_uint w l = Some v -> 0 <= v < 2 ^ w.
Proof.
  intros Hw. unfold parse_uint, parse_radix.
  destruct (match l with x2b :: (_ :: _) as rest => tail l | _ => l end) as [|b k]; [done|]. intros E. split.
  - by eapply digits_value_range; [|exact E].
  - eapply digits_value_fits; [|exact E]. by apply Z.pow_pos_nonneg.
Qed.

Lemma digits_value_snoc w radix digit l b acc :
  digits_value w radix digit (l ++ [b]) acc =
  match digits_value w radix digit l acc with
  | Some v => match digit b with
              | Some d => if fits w (v * radix + d) then Some (v * radix + d) else None
              | None => None
              end
  | None => None
  end.
Proof.
  revert acc. induction l as [|x l IH]; intros acc; cbn; [done|].
  destruct (digit x) as [d|]; [|done]. destruct (fits w _); [apply IH|done].
Qed.

Lemma dec_digit_ok d : 0 <= d < 10 ->
  dec_digit (byte_of_Z (48 + d)) = Some d /\ is_digit (byte_of_Z (48 + d)) = true.
Proof.
  intros Hd.
  assert (H : forallb (fun d => bool_decide (dec_digit (byte_of_Z (48 + Z.of_nat d)) = Some (Z.of_nat d)) &&
    is_digit (byte_of_Z (48 + Z.of_nat d))) (seq 0 10) = true) by by vm_compute.
  rewrite forallb_forall in H. specialize (H (Z.to_nat d)).
  rewrite Z2Nat.id, andb_true_iff, bool_decide_eq_true in H by lia. apply H, in_seq. lia.
Qed.

Lemma dec_fuel_acc fuel : forall z acc, dec_fuel fuel z acc = dec_fuel fuel z [] ++ acc.
Proof.
  induction fuel as [|fuel IH]; intros z acc; [done|]. cbn [dec_fuel].
  destruct (z <? 10); [done|]. rewrite (IH _ (_ :: acc)), (IH _ [_]). by rewrite <- (assoc_L (++)).
Qed.

Lemma dec_fuel_value w fuel : forall z, 0 <= z < 10 ^ Z.of_nat fuel -> z < 2 ^ w ->
  digits_value w 10 dec_digit (dec_fuel fuel z []) 0 = Some z /\
  forallb is_digit (dec_fuel fuel z []) = true /\ (fuel <> O -> dec_fuel fuel z [] <> []).
Proof.
  induction fuel as [|fuel IH]; intros z Hz Hw; [cbn in *; assert (z = 0) as -> by lia; done|].
  cbn [dec_fuel]. rewrite Nat2Z.inj_succ, Z.pow_succ_r in Hz by lia.
  pose proof (Z.mod_pos_bound z 10 ltac:(lia)) as Hm. destruct (dec_digit_ok (z mod 10) Hm) as [H1 H2].
  assert (Hfit : fits w z = true) by (unfold fits; rewrite andb_true_iff, Z.leb_le, Z.ltb_lt; lia).
  pose proof (Z.div_mod z 10 ltac:(lia)) as Hd. zcase.
  - cbn [digits_value forallb]. rewrite H1, H2. rewrite Z.mod_small by lia. by rewrite Z.add_0_l, Hfit.
  - assert (Hq : z / 10 < z) by (apply Z.div_lt; lia).
    destruct (IH (z / 10)) as (I1 & I2 & _); [split; [apply Z.div_pos; lia|apply Z.div_lt_upper_bound; lia]|lia|].
    rewrite dec_fuel_acc, digits_value_snoc, I1, H1, forallb_app, I2. cbn [forallb]. rewrite H2.
    replace (z / 10 * 10 + z mod 10) with z by lia. rewrite Hfit. split_and!; try done.
    intros _ E. by apply app_eq_nil in E as [_ E].
Qed.

(** A number prints as digits, and the digits parse back. *)
Lemma parse_uint_dec w z : 0 <= z < 10 ^ 40 -> z < 2 ^ w -> parse_uint w (dec z) = Some z.
Proof.
  intros Hz Hw. destruct (dec_fuel_value w 40 z Hz Hw) as (H1 & H2 & H3). fold (dec z) in *.
  unfold parse_uint, parse_radix. destruct (dec z) as [|b l] eqn:E; [by destruct H3|].
  destruct b; try done; exact H1.
Qed.

Lemma dec_digits z : 0 <= z < 10 ^ 40 -> forallb is_digit (dec z) = true.
Proof.
  intros Hz. destruct (dec_fuel_value 160 40 z Hz) as (_ & H & _); [|done].
  transitivity (10 ^ 40); [lia|done].
Qed.
