(* ===== verification/Utf8.v ===== *)
(** * UTF-8 text

    [utf8_valid] by characters: valid text is cut at a character boundary into
    valid texts, and glued back into valid text. *)

From S2P Require Import Prelude RustStr.

Lemma in_range_spec lo hi b : in_range lo hi b = true <-> lo <= Z_of_byte b <= hi.
Proof. unfold in_range. rewrite andb_true_iff, !Z.leb_le. done. Qed.

Lemma in_range_weaken lo hi lo' hi' b : lo' <= lo -> hi <= hi' ->
  in_range lo hi b = true -> in_range lo' hi' b = true.
Proof. rewrite !in_range_spec. lia. Qed.

(** The shape of the character at the head. *)
Inductive head_char : bytes -> nat -> Prop :=
| Head1 b0 l : utf8_head (b0 :: l) = 1%nat -> head_char (b0 :: l) 1
| Head2 b0 b1 l : is_cont b1 = true -> head_char (b0 :: b1 :: l) 2
| Head3 b0 b1 b2 l : is_cont b1 = true -> is_cont b2 = true -> head_char (b0 :: b1 :: b2 :: l) 3
| Head4 b0 b1 b2 b3 l : is_cont b1 = true -> is_cont b2 = true -> is_cont b3 = true ->
    head_char (b0 :: b1 :: b2 :: b3 :: l) 4.

Lemma second_cont lo hi b : 128 <= lo -> hi <= 191 -> in_range lo hi b = true -> is_cont b = true.
Proof. apply in_range_weaken. Qed.

Lemma utf8_head_char l n : utf8_head l = S n -> head_char l (S n).
Proof.
  destruct l as [|b0 l]; [done|]. intros H. assert (H0 := H). cbn [utf8_head] in H.
  destruct (in_range 0 127 b0); [injection H as <-; by constructor|].
  destruct l as [|b1 l]; [done|]. destruct (in_range 194 223 b0 && is_cont b1) eqn:E2.
  { injection H as <-. apply andb_true_iff in E2 as [_ ?]. by constructor. }
  destruct l as [|b2 l]; [done|]. destruct (is_cont b2 && _) eqn:E3.
  { injection H as <-. apply andb_true_iff in E3 as [? E3]. constructor; [|done].
    rewrite !orb_true_iff, !andb_true_iff in E3.
    destruct E3 as [[[_ E]|[_ E]]|[_ E]]; [by eapply second_cont in E|done|by eapply second_cont in E]. }
  destruct l as [|b3 l]; [done|]. destruct (is_cont b2 && is_cont b3 && _) eqn:E4; [|done].
  injection H as <-. rewrite !andb_true_iff in E4. destruct E4 as [[? ?] E4]. constructor; [|done|done].
  rewrite !orb_true_iff, !andb_true_iff in E4.
  destruct E4 as [[[_ E]|[_ E]]|[_ E]]; [by eapply second_cont in E|done|by eapply second_cont in E].
Qed.

Lemma utf8_head_length l : (utf8_head l <= length l)%nat.
Proof. destruct (utf8_head l) as [|n] eqn:E; [lia|]. destruct (utf8_head_char _ _ E); cbn; lia. Qed.

(** The head is decided by its own bytes. *)
Lemma utf8_head_take l k n : utf8_head l = S n -> utf8_head (take (S n) l ++ k) = S n.
Proof.
  intros H. destruct (utf8_head_char _ _ H); cbn [take app].
  - revert H. cbn [utf8_head]. destruct (in_range 0 127 b0); [done|].
    destruct l as [|b1 l]; [done|]. destruct (in_range 194 223 b0 && is_cont b1); [done|].
    destruct l as [|b2 l]; [done|]. destruct (is_cont b2 && _); [done|].
    destruct l as [|b3 l]; [done|]. by destruct (is_cont b2 && is_cont b3 && _).
  - revert H. cbn [utf8_head]. destruct (in_range 0 127 b0); [done|].
    destruct (in_range 194 223 b0 && is_cont b1); [done|].
    destruct l as [|b2 l]; [done|]. destruct (is_cont b2 && _); [done|].
    destruct l as [|b3 l]; [done|]. by destruct (is_cont b2 && is_cont b3 && _).
  - revert H. cbn [utf8_head]. destruct (in_range 0 127 b0); [done|].
    destruct (in_range 194 223 b0 && is_cont b1); [done|]. destruct (is_cont b2 && _); [done|].
    destruct l as [|b3 l]; [done|]. by destruct (is_cont b2 && is_cont b3 && _).
  - revert H. cbn [utf8_head]. destruct (in_range 0 127 b0); [done|].
    destruct (in_range 194 223 b0 && is_cont b1); [done|]. by destruct (is_cont b2 && (_ || _)).
Qed.

(** Bytes inside a character continue it. *)
Lemma utf8_head_cont l n i : utf8_head l = S n -> (0 < i < S n)%nat -> is_cont (nth i l x00) = true.
Proof.
  intros H Hi. destruct (utf8_head_char _ _ H).
  - lia.
  - by replace i with 1%nat by lia.
  - destruct i as [|[|[|i]]]; done || lia.
  - destruct i as [|[|[|[|i]]]]; done || lia.
Qed.

Lemma utf8_valid_fuel_more fuel : forall fuel' l, (length l <= fuel)%nat -> (length l <= fuel')%nat ->
  utf8_valid_fuel fuel l = utf8_valid_fuel fuel' l.
Proof.
  induction fuel as [|fuel IH]; intros [|fuel'] [|b l] H H'; try done; cbn in H, H'; try lia.
  cbn [utf8_valid_fuel]. destruct (utf8_head (b :: l)) as [|n]; [done|].
  apply IH; rewrite length_drop; cbn; lia.
Qed.

(** One character, and then text. *)
Lemma utf8_valid_step l : l <> [] ->
  utf8_valid l = match utf8_head l with O => false | S n => utf8_valid (drop (S n) l) end.
Proof.
  destruct l as [|b l]; [done|]. intros _. unfold utf8_valid. cbn [length utf8_valid_fuel].
  destruct (utf8_head (b :: l)) as [|n]; [done|]. apply utf8_valid_fuel_more; rewrite length_drop; cbn; lia.
Qed.

Lemma utf8_valid_ind (P : bytes -> Prop) :
  P [] ->
  (forall l n, utf8_head l = S n -> utf8_valid (drop (S n) l) = true -> P (drop (S n) l) -> P l) ->
  forall l, utf8_valid l = true -> P l.
Proof.
  intros P0 PS l. remember (length l) as m eqn:Em. revert l Em.
  induction m as [m IH] using lt_wf_ind. intros l -> Hl.
  destruct l as [|b l]; [done|]. rewrite utf8_valid_step in Hl by done.
  destruct (utf8_head (b :: l)) as [|n] eqn:E; [done|]. apply (PS _ n); [done|done|].
  eapply IH; [|reflexivity|done]. rewrite length_drop. cbn. lia.
Qed.

Lemma utf8_valid_app l k : utf8_valid l = true -> utf8_valid k = true -> utf8_valid (l ++ k) = true.
Proof.
  intros Hl Hk. revert Hl. apply (utf8_valid_ind (fun l => utf8_valid (l ++ k) = true)); [done|].
  clear l. intros l n E _ IH. pose proof (utf8_head_length l) as Hn. rewrite E in Hn.
  rewrite utf8_valid_step by (destruct l; [cbn in Hn; lia|done]).
  assert (E' : utf8_head (l ++ k) = S n).
  { rewrite <- (take_drop (S n) l), <- (assoc_L (++)). by apply utf8_head_take. }
  rewrite E', drop_app_le by lia. done.
Qed.

(** Text cut at a character boundary is text. *)
Lemma utf8_valid_boundary l : utf8_valid l = true -> forall i, (i <= length l)%nat ->
  is_char_boundary l (Z.of_nat i) = true -> utf8_valid (take i l) = true.
Proof.
  apply (utf8_valid_ind (fun l => forall i, (i <= length l)%nat ->
    is_char_boundary l (Z.of_nat i) = true -> utf8_valid (take i l) = true)).
  { intros i _ _. by rewrite take_nil. }
  clear l. intros l n E _ IH i Hi Hb. pose proof (utf8_head_length l) as Hn. rewrite E in Hn.
  destruct (decide (i = 0%nat)) as [->|Hi0]; [done|].
  destruct (decide (S n <= i)%nat) as [Hle|Hlt].
  - assert (Hd : utf8_valid (take (i - S n) (drop (S n) l)) = true).
    { apply IH; [rewrite length_drop; lia|]. revert Hb. unfold is_char_boundary, len. rewrite length_drop.
      destruct (decide (i = S n)) as [->|Hne]; [by rewrite Nat.sub_diag|].
      destruct (decide (i = length l)) as [->|Hnl].
      { intros _. rewrite Z.eqb_refl. by rewrite orb_true_r. }
      rewrite !(proj2 (Z.eqb_neq _ _)) by lia. cbn [orb]. unfold byte_at. rewrite !Nat2Z.id.
      rewrite !(proj2 (Z.ltb_lt _ _)) by lia. cbn [andb].
      rewrite <- (firstn_skipn (S n) l) at 1. rewrite app_nth2; rewrite length_firstn; [|lia].
      replace (i - Nat.min (S n) (length l))%nat with (i - S n)%nat by lia. done. }
    assert (Et : take i l = take (S n) l ++ take (i - S n) (drop (S n) l)).
    { rewrite <- (take_drop (S n) l) at 1. rewrite take_app_ge by (rewrite length_take; lia).
      rewrite length_take. do 2 f_equal. lia. }
    rewrite Et, utf8_valid_step.
    + assert (E' : utf8_head (take (S n) l ++ take (i - S n) (drop (S n) l)) = S n) by by apply utf8_head_take.
      rewrite E'. rewrite drop_app_length'; [done|]. rewrite length_take. lia.
    + destruct l; [cbn in Hn; lia|done].
  - exfalso. assert (Hc : is_cont (nth i l x00) = true) by (eapply utf8_head_cont; [done|lia]).
    revert Hb. unfold is_char_boundary, byte_at, len. rewrite Nat2Z.id, Hc.
    rewrite !(proj2 (Z.eqb_neq _ _)) by lia. by rewrite andb_false_r.
Qed.

(** No character starts with a continuation byte. *)
Lemma utf8_head_lead b l n : utf8_head (b :: l) = S n -> is_cont b = false.
Proof.
  intros H. destruct (is_cont b) eqn:Ec; [exfalso|done]. apply in_range_spec in Ec.
  assert (Hr : forall lo hi, in_range lo hi b = true -> lo <= 191 /\ 128 <= hi) by (intros lo hi ?%in_range_spec; lia).
  assert (Hf : forall lo hi, (191 <? lo) || (hi <? 128) = true -> in_range lo hi b = false).
  { intros lo hi Hlh. destruct (in_range lo hi b) eqn:E; [|done]. apply Hr in E.
    rewrite orb_true_iff, !Z.ltb_lt in Hlh. lia. }
  cbn [utf8_head] in H. rewrite !Hf in H by done. cbn [andb orb] in H.
  destruct l as [|b1 [|b2 [|b3 l]]]; rewrite ?andb_false_r in H; done.
Qed.

(** A boundary of the rest is a boundary of the whole. *)
Lemma boundary_drop l n i : utf8_head l = S n -> utf8_valid (drop (S n) l) = true -> (i <= length l - S n)%nat ->
  is_char_boundary (drop (S n) l) (Z.of_nat i) = true -> is_char_boundary l (Z.of_nat (S n + i)) = true.
Proof.
  intros E Hv Hi Hb. pose proof (utf8_head_length l) as Hn. rewrite E in Hn.
  unfold is_char_boundary, len in *. rewrite length_drop in Hb.
  destruct (decide (i = length l - S n)%nat) as [->|Hne].
  { replace (S n + (length l - S n))%nat with (length l) by lia. rewrite Z.eqb_refl. by rewrite orb_true_r. }
  assert (Hnth : nth (S n + i) l x00 = nth i (drop (S n) l) x00).
  { rewrite <- (firstn_skipn (S n) l) at 1. rewrite app_nth2; rewrite length_firstn; [|lia].
    f_equal. lia. }
  assert (Hc : is_cont (nth i (drop (S n) l) x00) = false).
  { destruct (decide (i = 0)%nat) as [->|Hi0].
    - destruct (drop (S n) l) as [|b k] eqn:Ed.
      { apply (f_equal length) in Ed. rewrite length_drop in Ed. cbn in Ed. lia. }
      rewrite utf8_valid_step in Hv by done. destruct (utf8_head (b :: k)) as [|m] eqn:Eh; [done|].
      by apply utf8_head_lead in Eh.
    - revert Hb. rewrite !(proj2 (Z.eqb_neq _ _)) by lia. cbn [orb].
      unfold byte_at. rewrite Nat2Z.id, andb_true_iff, negb_true_iff. by intros [_ ?]. }
  unfold byte_at. rewrite Nat2Z.id, Hnth, Hc. rewrite !(proj2 (Z.ltb_lt _ _)) by lia. by rewrite orb_true_r.
Qed.

(** In text, a boundary is at most three bytes away. *)
Lemma boundary_near l : utf8_valid l = true -> forall n, (n <= length l)%nat ->
  exists i, (i <= n < i + 4)%nat /\ is_char_boundary l (Z.of_nat i) = true.
Proof.
  apply (utf8_valid_ind (fun l => forall n, (n <= length l)%nat ->
    exists i, (i <= n < i + 4)%nat /\ is_char_boundary l (Z.of_nat i) = true)).
  { intros n Hn. exists 0%nat. cbn in Hn. split; [lia|done]. }
  clear l. intros l m E Hv IH n Hn. pose proof (utf8_head_length l) as Hm. rewrite E in Hm.
  assert (H4 : (S m <= 4)%nat) by (destruct (utf8_head_char _ _ E); lia).
  destruct (decide (n < S m)%nat) as [Hlt|Hge]; [exists 0%nat; split; [lia|done]|].
  destruct (IH (n - S m)%nat) as (i & Hi & Hb); [rewrite length_drop; lia|].
  exists (S m + i)%nat. split; [lia|]. apply boundary_drop; [done|done|lia|done].
Qed.
