(* ===== verification/Nvs.v ===== *)
(** * The NVS partition, as the store uses it

    ESP-IDF's non-volatile storage is outside the repository: it is the class
    [Nvs] (the calls [src/storage.rs] makes) with the laws [NvsLaws] (their
    documented behaviour).  A partition holds, per namespace, blobs named by
    short strings.  [flash] is what a read through an open handle sees,
    [durable] is what a reboot would find; they differ between a write and
    its [nvs_commit].  Every call may fail, and a failed write may or may not
    have reached the medium (ESP_ERR_NVS_REMOVE_FAILED is such a case). *)

From S2P Require Import Prelude.
(** The eight namespaces of the [wa_store] partition ([FlashNamespaces]).
    Distinct namespaces have distinct handles. *)
Inductive ns : Type :=
| NsControl | NsDevice | NsIdentities | NsSessions
| NsPrekeys | NsSignedPrekeys | NsSenderKeys | NsSyncKeys.

#[global] Instance ns_eq_dec : EqDecision ns.
Proof. solve_decision. Defined.

Definition all_ns : list ns :=
  [NsControl; NsDevice; NsIdentities; NsSessions; NsPrekeys; NsSignedPrekeys; NsSenderKeys; NsSyncKeys].

(** An [EspError] is its code. *)
Abbreviation esp_err := Z.

Class Nvs (W : Type) := {
  flash : W -> ns -> gmap bytes bytes;
  durable : W -> ns -> gmap bytes bytes;
  (** [EspNvs::keys(Some(NvsDataType::Blob))], iterated to its end. *)
  nvs_keys : ns -> M W esp_err (list bytes);
  nvs_blob_len : ns -> bytes -> M W esp_err (option Z);
  (** [get_blob(name, buf)] with a buffer of the given length. *)
  nvs_get_blob : ns -> bytes -> Z -> M W esp_err (option bytes);
  nvs_set_blob : ns -> bytes -> bytes -> M W esp_err unit;
  nvs_commit : ns -> M W esp_err unit;
  nvs_remove : ns -> bytes -> M W esp_err bool;
  nvs_erase_all : ns -> M W esp_err unit;
  (** [nvs_flash_init_partition], then taking the partition and opening its
      namespaces. *)
  nvs_init_partition : M W esp_err unit;
  nvs_open_namespaces : M W esp_err unit;
  (** [Vec::try_reserve_exact] on the device heap. *)
  try_reserve : Z -> M W unit unit;
}.

(** ** Views of a partition *)

Definition view : Type := ns -> gmap bytes bytes.

(** The view in which namespace [n] holds [m] and the others are as in [v]. *)
Definition upd_view (v : view) (n : ns) (m : gmap bytes bytes) : view :=
  fun n' => if decide (n' = n) then m else v n'.

Section Views.
Context {W : Type} `{!Nvs W}.

(** The two partitions hold the same blobs, both to readers and durably. *)
Definition same_views (w w' : W) : Prop :=
  forall n, flash w' n = flash w n /\ durable w' n = durable w n.

(** Nothing outside namespace [n] differs. *)
Definition same_but (n : ns) (w w' : W) : Prop :=
  forall n', n' <> n -> flash w' n' = flash w n' /\ durable w' n' = durable w n'.

Record set_blob_post (n : ns) (k v : bytes) (w : W) (r : result esp_err unit) (w' : W) : Prop := {
  sb_other : same_but n w w';
  sb_flash : flash w' n = <[k := v]> (flash w n) \/ (is_ok r = false /\ flash w' n = flash w n);
  sb_durable : durable w' n = durable w n \/ durable w' n = <[k := v]> (durable w n);
}.

Record commit_post (n : ns) (w : W) (r : result esp_err unit) (w' : W) : Prop := {
  cm_other : same_but n w w';
  cm_flash : flash w' n = flash w n;
  cm_ok : is_ok r = true -> durable w' n = flash w n;
  cm_durable : forall k, durable w' n !! k = durable w n !! k \/ durable w' n !! k = flash w n !! k;
}.

Record remove_post (n : ns) (k : bytes) (w : W) (r : result esp_err bool) (w' : W) : Prop := {
  rm_other : same_but n w w';
  rm_flash : flash w' n = delete k (flash w n) \/ (is_ok r = false /\ flash w' n = flash w n);
  rm_durable : durable w' n = durable w n \/ durable w' n = delete k (durable w n);
}.

Record erase_post (n : ns) (w : W) (r : result esp_err unit) (w' : W) : Prop := {
  er_other : same_but n w w';
  er_flash : flash w' n ⊆ flash w n;
  er_durable : durable w' n ⊆ durable w n;
  (** [nvs_erase_all] followed by its commit. *)
  er_ok : is_ok r = true -> durable w' n = flash w' n;
}.
End Views.

Class NvsLaws (W : Type) `{!Nvs W} : Prop := {
  law_keys n w :
    wp (nvs_keys n) (fun r w' => same_views w w' /\
      forall ks, r = Ok ks -> ks ≡ₚ (map_to_list (flash w n)).*1) w;
  law_blob_len n k w :
    wp (nvs_blob_len n k) (fun r w' => same_views w w' /\
      forall o, r = Ok o -> o = len <$> flash w n !! k) w;
  law_get_blob n k buf w :
    wp (nvs_get_blob n k buf) (fun r w' => same_views w w' /\
      forall o, r = Ok o -> o = flash w n !! k) w;
  law_set_blob n k v w : wp (nvs_set_blob n k v) (set_blob_post n k v w) w;
  law_commit n w : wp (nvs_commit n) (commit_post n w) w;
  law_remove n k w : wp (nvs_remove n k) (remove_post n k w) w;
  law_erase_all n w : wp (nvs_erase_all n) (erase_post n w) w;
  law_init w :
    wp nvs_init_partition (fun r w' => forall n,
      durable w' n = durable w n /\ (r = Ok tt -> flash w' n = durable w n)) w;
  law_open w : wp nvs_open_namespaces (fun _ w' => same_views w w') w;
  law_reserve l w : wp (try_reserve l) (fun _ w' => same_views w w') w;
}.

(** A partition on which no call fails: what the reopening theorem assumes of
    a healthy medium with enough heap. *)
Class NvsReliable (W : Type) `{!Nvs W} : Prop := {
  rel_keys n w : is_ok (nvs_keys n w).2 = true;
  rel_blob_len n k w : is_ok (nvs_blob_len n k w).2 = true;
  rel_get_blob n k buf w :
    (forall v, flash w n !! k = Some v -> len v <= buf) -> is_ok (nvs_get_blob n k buf w).2 = true;
  rel_init w : is_ok (nvs_init_partition w).2 = true;
  rel_open w : is_ok (nvs_open_namespaces w).2 = true;
  rel_reserve l w : is_ok (try_reserve l w).2 = true;
}.

Section ViewLemmas.
Context {W : Type} `{!Nvs W}.

#[global] Instance same_views_equiv : Equivalence (same_views (W:=W)).
Proof.
  split.
  - intros w n. done.
  - intros w w' H n. destruct (H n). done.
  - intros w1 w2 w3 H H' n. destruct (H' n) as [-> ->]. apply H.
Qed.

#[global] Instance same_but_equiv n : Equivalence (same_but (W:=W) n).
Proof.
  split.
  - intros w n' _. done.
  - intros w w' H n' Hn. destruct (H n' Hn). done.
  - intros w1 w2 w3 H H' n' Hn. destruct (H' n' Hn) as [-> ->]. by apply H.
Qed.

Lemma same_views_but n (w w' : W) : same_views w w' -> same_but n w w'.
Proof. intros H n' _. apply H. Qed.

Lemma same_views_flash n (w w' : W) : same_views w w' -> flash w' n = flash w n.
Proof. intros H. apply H. Qed.

Lemma same_views_durable n (w w' : W) : same_views w w' -> durable w' n = durable w n.
Proof. intros H. apply H. Qed.

Lemma upd_view_eq v n m : upd_view v n m n = m.
Proof. unfold upd_view. by rewrite decide_True. Qed.

Lemma upd_view_ne v n m n' : n' <> n -> upd_view v n m n' = v n'.
Proof. intros. unfold upd_view. by rewrite decide_False. Qed.
End ViewLemmas.
