(* ===== verification/NvsMem.v ===== *)
(** * An in-memory partition with scripted faults

    A concrete instance of the class [Nvs]: the partition is a pair of maps,
    and a script says how the next calls behave.  It discharges [NvsLaws], so
    the laws are satisfiable, and it lets the examples run: a fault-free
    script is a healthy board, a script that fails from some call on is a
    board that loses power at that call. *)

From S2P Require Import Prelude Nvs.
(** How a call behaves: it works, it fails and changes nothing, or it fails
    after having changed the medium. *)
Inductive fault := Works | FailsBefore | FailsAfter.

Record mem := Mem {
  mem_flash : view;
  mem_durable : view;
  (** The behaviour of the next calls; past its end every call behaves as
      [mem_last]. *)
  mem_script : list fault;
  mem_last : fault;
}.

Definition mem_next (m : mem) : fault * mem :=
  match mem_script m with
  | [] => (mem_last m, m)
  | f :: fs => (f, Mem (mem_flash m) (mem_durable m) fs (mem_last m))
  end.

Definition mem_fault_code : esp_err := 4357.

(** A call that reads. *)
Definition mem_read {A} (f : mem -> A) : M mem esp_err A := fun m =>
  let '(x, m) := mem_next m in
  match x with Works => (m, Ok (f m)) | _ => (m, Err mem_fault_code) end.

(** A call that changes the partition and answers [a]. *)
Definition mem_write {A} (upd : mem -> mem) (a : mem -> A) : M mem esp_err A := fun m =>
  let '(x, m) := mem_next m in
  match x with
  | Works => (upd m, Ok (a m))
  | FailsBefore => (m, Err mem_fault_code)
  | FailsAfter => (upd m, Err mem_fault_code)
  end.

Definition mem_set_ns (n : ns) (g : gmap bytes bytes -> gmap bytes bytes) (m : mem) : mem :=
  Mem (upd_view (mem_flash m) n (g (mem_flash m n))) (mem_durable m) (mem_script m) (mem_last m).
Definition mem_sync_ns (n : ns) (m : mem) : mem :=
  Mem (mem_flash m) (upd_view (mem_durable m) n (mem_flash m n)) (mem_script m) (mem_last m).
Definition mem_reboot (m : mem) : mem :=
  Mem (mem_durable m) (mem_durable m) (mem_script m) (mem_last m).

#[global] Instance mem_nvs : Nvs mem := {
  flash := mem_flash;
  durable := mem_durable;
  nvs_keys n := mem_read (fun m => (map_to_list (mem_flash m n)).*1);
  nvs_blob_len n k := mem_read (fun m => len <$> mem_flash m n !! k);
  nvs_get_blob n k _ := mem_read (fun m => mem_flash m n !! k);
  nvs_set_blob n k v := mem_write (mem_set_ns n (insert k v)) (fun _ => tt);
  nvs_commit n := mem_write (mem_sync_ns n) (fun _ => tt);
  nvs_remove n k := mem_write (mem_set_ns n (delete k)) (fun m => bool_decide (is_Some (mem_flash m n !! k)));
  nvs_erase_all n := mem_write (fun m => mem_sync_ns n (mem_set_ns n (fun _ => ∅) m)) (fun _ => tt);
  nvs_init_partition := mem_write mem_reboot (fun _ => tt);
  nvs_open_namespaces := mem_read (fun _ => tt);
  try_reserve _ := map_err (fun _ => tt) (mem_read (fun _ => tt));
}.

(** A blank healthy partition, and one that fails as [script] says. *)
Definition mem_of (v : view) (script : list fault) (last : fault) : mem := Mem v v script last.
Definition mem_blank : mem := mem_of (fun _ => ∅) [] Works.

Lemma mem_next_views m : mem_flash (mem_next m).2 = mem_flash m /\ mem_durable (mem_next m).2 = mem_durable m.
Proof. unfold mem_next. by destruct (mem_script m). Qed.

Lemma mem_read_spec {A} (f : mem -> A) (g : view -> A) m :
  (forall m, f m = g (mem_flash m)) ->
  wp (mem_read f) (fun r m' => same_views m m' /\ forall a, r = Ok a -> a = g (mem_flash m)) m.
Proof.
  intros Hf. unfold mem_read, wp. destruct (mem_next_views m) as [Hv Hd].
  destruct (mem_next m) as [x m']. cbn in Hv, Hd.
  assert (same_views m m') by (intros n; cbn; by rewrite Hv, Hd).
  destruct x; cbn; split; try done; intros a Ha; simplify_eq.
  by rewrite Hf, Hv.
Qed.

Lemma mem_write_spec {A} upd (a : mem -> A) (Q : result esp_err A -> mem -> Prop) m :
  (forall m', mem_flash m' = mem_flash m -> mem_durable m' = mem_durable m ->
     (Q (Ok (a m')) (upd m')) /\ (forall e, Q (Err e) m') /\ (forall e, Q (Err e) (upd m'))) ->
  wp (mem_write upd a) Q m.
Proof.
  intros H. unfold mem_write, wp. destruct (mem_next_views m) as [Hv Hd].
  destruct (mem_next m) as [x m']. cbn in Hv, Hd.
  destruct (H m' Hv Hd) as (Hok & He & Hu).
  destruct x; cbn; auto.
Qed.

Lemma mem_set_ns_but n g m m' :
  mem_flash m' = mem_flash m -> mem_durable m' = mem_durable m ->
  same_but n m (mem_set_ns n g m').
Proof. intros Hv Hd n' Hn. cbn. by rewrite upd_view_ne, Hv, Hd. Qed.

Lemma same_views_of (m m' : mem) :
  mem_flash m' = mem_flash m -> mem_durable m' = mem_durable m -> same_views m m'.
Proof. intros Hv Hd n. cbn. by rewrite Hv, Hd. Qed.

#[global] Instance mem_laws : NvsLaws mem.
Proof.
  split.
  - intros n w. cbn. wp_use (mem_read_spec _ (fun v => (map_to_list (v n)).*1) w); [done|].
    intros r w' [Hs Hr]. split; [done|]. intros ks ->. by rewrite (Hr ks).
  - intros n k w. cbn. wp_use (mem_read_spec _ (fun v => len <$> v n !! k) w); done.
  - intros n k buf w. cbn. wp_use (mem_read_spec _ (fun v => v n !! k) w); done.
  - intros n k v w. cbn. apply mem_write_spec. intros m' Hv Hd.
    split_and!; try intros e; split; cbn; rewrite ?upd_view_eq, ?Hv, ?Hd; auto using mem_set_ns_but;
      by apply same_views_but, same_views_of.
  - intros n w. cbn. apply mem_write_spec. intros m' Hv Hd.
    split_and!; try intros e; split; cbn; rewrite ?upd_view_eq, ?Hv, ?Hd; auto;
      try (intros n' Hn; cbn; rewrite ?upd_view_ne by done; by rewrite Hv, Hd); done.
  - intros n k w. cbn. apply mem_write_spec. intros m' Hv Hd.
    split_and!; try intros e; split; cbn; rewrite ?upd_view_eq, ?Hv, ?Hd; auto using mem_set_ns_but;
      by apply same_views_but, same_views_of.
  - intros n w. cbn. apply mem_write_spec. intros m' Hv Hd.
    split_and!; try intros e; split; cbn; rewrite ?upd_view_eq, ?Hv, ?Hd; auto;
      try (intros n' Hn; cbn; rewrite ?upd_view_ne by done; by rewrite Hv, Hd);
      try apply map_empty_subseteq; done.
  - intros w. cbn. apply mem_write_spec. intros m' Hv Hd.
    split_and!; intros; cbn; rewrite ?Hv, ?Hd; done.
  - intros w. cbn. wp_use (mem_read_spec _ (fun _ => tt) w); naive_solver.
  - intros l w. cbn. wp_step. wp_use (mem_read_spec _ (fun _ => tt) w); [done|].
    intros [] w' [Hs _]; done.
Qed.
