(* ===== verification/Record.v ===== *)
(** * Flash records ([src/storage.rs])

    The errors of the store, the limits of its namespaces, and the codec of
    one record: a five-byte header ("WA1" and the length of the logical key,
    little-endian), the logical key, the value.  A record is stored under a
    name of fifteen base32 characters taken from the SHA-256 of its key. *)

From S2P Require Import Prelude.
(** ** Errors: [StoreError], with one constructor per message *)

Inductive validation : Type :=
| DeviceWrongKey
| TooManyRecords (label : string) (n max : Z)
| DisappearedAtStartup (label : string) (name : bytes)
| MismatchedKey (label : string) (name : bytes)
| RecordTooLarge (label : string) (name : bytes) (n : Z)
| LoadedTooLarge (name : bytes) (n : Z)
| ValueTooLarge (label : string) (n : Z)
| KeyTooLong (n : Z)
| KeyCollision (label : string) (name : bytes)
| LatestWrongKey
| SyncKeyIdTooLong (n : Z)
| InvalidRecordName
| BlobTooLarge (name : bytes) (n : Z)
| BlobDisappeared (name : bytes)
| InvalidHeader
| InvalidKeyLength
| InvalidStringKey (label : string)
| InvalidNumericKey (label : string) (n : Z)
| LimitReached (label : string) (max : Z)
| SealedForMaintenance
(* The boot replay's own messages ([anyhow::bail!] in [open]). *)
| IdentityLength (address : bytes) (n : Z)
| DuplicateRecord (label : string)
| InvalidSyncKeyRecord.

Inductive io_error : Type :=
| EspNvsError (code : Z)
| OutOfMemory
| WorkerStopped
| EraseFailed (label : string).

Inductive StoreError : Type :=
| Validation (v : validation)
| Io (e : io_error)
| Serialization.

(** ** Limits *)

Definition RECORD_MAGIC : bytes := bs "WA1".
Definition RECORD_HEADER_LEN : Z := 5.
Definition MAX_LOGICAL_KEY_LEN : Z := 512.
Definition MAX_DEVICE_LEN : Z := 64 * 1024.
Definition MAX_SIGNAL_RECORD_LEN : Z := 64 * 1024.
Definition MAX_IDENTITIES : Z := 2048.
Definition MAX_SESSIONS : Z := 2048.
Definition MAX_PREKEYS : Z := 256.
Definition MAX_SIGNED_PREKEYS : Z := 16.
Definition MAX_SENDER_KEYS : Z := 2048.
Definition MAX_SYNC_KEYS : Z := 256.

(** ** The codec *)

(** The bytes [encode_record] writes once its buffer is reserved. *)
Definition record_bytes (logical_key value : bytes) : bytes :=
  RECORD_MAGIC ++ le_bytes 2 (wrap 16 (len logical_key)) ++ logical_key ++ value.

(** [encode_record]; [reserve] is [Vec::try_reserve_exact], and [usize] is
    32 bits wide. *)
Definition encode_record {S} (reserve : Z -> M S StoreError unit) (logical_key value : bytes)
    : M S StoreError bytes :=
  if len logical_key >? MAX_LOGICAL_KEY_LEN then
    fail (Validation (KeyTooLong (len logical_key)))
  else
    let total := RECORD_HEADER_LEN + len logical_key + len value in
    if negb (fits 32 total) then fail (Io OutOfMemory)
    else
      reserve total ;;;
      ret (record_bytes logical_key value).

Definition decode_record (record : bytes) : result StoreError (bytes * bytes) :=
  if (len record <? RECORD_HEADER_LEN) || negb (bool_decide (slice 0 3 record = RECORD_MAGIC)) then
    Err (Validation InvalidHeader)
  else
    let key_len := le_value [byte_at record 3; byte_at record 4] in
    if (key_len >? MAX_LOGICAL_KEY_LEN) || (key_len >? len record - RECORD_HEADER_LEN) then
      Err (Validation InvalidKeyLength)
    else
      let value_offset := RECORD_HEADER_LEN + key_len in
      Ok (slice RECORD_HEADER_LEN value_offset record, zdrop value_offset record).

(** ** Names *)

(** The [sha2] crate's SHA-256. *)
Class Sha256 := sha256 : bytes -> bytes.
Class Sha256Len `{!Sha256} : Prop := sha256_len k : len (sha256 k) = 32.

Definition ALPHABET : bytes := bs "abcdefghijklmnopqrstuvwxyz234567".

(** The five bits of [digest] that the [index]-th character of a name shows,
    computed on bytes as the source does: [<<] and [|] on [u8]. *)
Definition name_index (digest : bytes) (index : Z) : Z :=
  let bit := index * 5 in
  let byte := bit / 8 in
  let shift := bit mod 8 in
  let value := wrap 8 (Z.shiftl (Z_of_byte (byte_at digest byte)) shift) in
  let value :=
    if shift >? 3 then
      Z.lor value (Z.shiftr (Z_of_byte (byte_at digest (byte + 1))) (8 - shift))
    else value in
  Z.shiftr value 3.

Definition record_name `{!Sha256} (logical_key : bytes) : bytes :=
  let digest := sha256 logical_key in
  map (fun index => byte_at ALPHABET (name_index digest (Z.of_nat index))) (seq 0 15).

(** ** Decoding keys *)

Definition decode_u32_key (key : bytes) (label : string) : result StoreError Z :=
  if bool_decide (length key = 4%nat) then Ok (le_value key)
  else Err (Validation (InvalidNumericKey label (len key))).

Definition ensure_insert_capacity (exists_ : bool) (n max : Z) (label : string)
    : result StoreError unit :=
  if negb exists_ && (n >=? max) then Err (Validation (LimitReached label max)) else Ok tt.

(** ** Lemmas *)

#[global] Arguments record_name : simpl never.
#[global] Arguments record_bytes : simpl never.
#[global] Arguments decode_record : simpl never.
#[global] Arguments encode_record : simpl never.

Lemma len_magic : len RECORD_MAGIC = 3.
Proof. done. Qed.

Lemma len_record_bytes k v : len (record_bytes k v) = 5 + len k + len v.
Proof. unfold record_bytes. rewrite len_app, len_magic. len_lia. Qed.
#[export] Hint Rewrite len_magic len_record_bytes : lens.

Lemma record_bytes_split k v :
  len k <= MAX_LOGICAL_KEY_LEN ->
  record_bytes k v = (RECORD_MAGIC ++ le_bytes 2 (len k)) ++ k ++ v.
Proof.
  intros Hk. unfold record_bytes, wrap. rewrite Z.mod_small; [by rewrite <- app_assoc|].
  unfold MAX_LOGICAL_KEY_LEN in Hk. pose proof (len_nonneg k). lia.
Qed.

Lemma record_bytes_eq k v :
  len k <= 512 -> record_bytes k v = bs "WA1" ++ le_bytes 2 (len k) ++ k ++ v.
Proof. intros Hk. rewrite record_bytes_split by done. by rewrite <- app_assoc. Qed.

Lemma slice_app_mid {A} (i j : Z) (l k m : list A) :
  i = len l -> j = len l + len k -> slice i j (l ++ k ++ m) = k.
Proof.
  intros -> ->. unfold slice. rewrite zdrop_app by done. apply ztake_app. lia.
Qed.

Lemma decode_record_bytes k v :
  len k <= MAX_LOGICAL_KEY_LEN -> decode_record (record_bytes k v) = Ok (k, v).
Proof.
  intros Hk. unfold decode_record. rewrite record_bytes_split by done.
  unfold MAX_LOGICAL_KEY_LEN, RECORD_HEADER_LEN in *.
  set (h := le_bytes 2 (len k)).
  assert (Hl : len h = 2) by (unfold h; len_lia).
  assert (Hh : le_value h = len k).
  { unfold h. rewrite le_value_bytes. apply Z.mod_small. pose proof (len_nonneg k). cbn; lia. }
  set (r := (RECORD_MAGIC ++ h) ++ k ++ v).
  assert (Hb : [byte_at r 3; byte_at r 4] = h).
  { destruct h as [|h0 [|h1 [|h2 h]]]; try (exfalso; len_lia). done. }
  assert (Hm : slice 0 3 r = RECORD_MAGIC).
  { unfold r. rewrite <- app_assoc. apply (slice_app_mid 0 3 [] RECORD_MAGIC); done. }
  assert (Hr : len r = 5 + len k + len v) by (unfold r; len_lia).
  rewrite Hb, Hh, Hm, Hr, bool_decide_true by done.
  repeat zcase. do 2 f_equal.
  - apply slice_app_mid; len_lia.
  - unfold r. rewrite app_assoc. apply zdrop_app. len_lia.
Qed.

(** What a successful decode says about the bytes: it accepts nothing but the
    encodings. *)
Lemma decode_record_inv r k v :
  decode_record r = Ok (k, v) -> len k <= MAX_LOGICAL_KEY_LEN /\ r = record_bytes k v.
Proof.
  unfold decode_record, MAX_LOGICAL_KEY_LEN, RECORD_HEADER_LEN.
  zcase; [done|]. cbn [orb].
  destruct (bool_decide_reflect (slice 0 3 r = RECORD_MAGIC)) as [Hm|]; [cbn [negb]|done].
  destruct r as [|m0 [|m1 [|m2 [|h0 [|h1 r]]]]]; try (exfalso; len_lia).
  change (byte_at (m0 :: m1 :: m2 :: h0 :: h1 :: r) 3) with h0.
  change (byte_at (m0 :: m1 :: m2 :: h0 :: h1 :: r) 4) with h1.
  change (slice 0 3 (m0 :: m1 :: m2 :: h0 :: h1 :: r)) with [m0; m1; m2] in Hm.
  set (n := le_value [h0; h1]).
  assert (Hn : 0 <= n < 65536) by apply (le_value_range [h0; h1]).
  repeat zcase; try done. intros [= <- <-].
  assert (Hk : len (slice 5 (5 + n) (m0 :: m1 :: m2 :: h0 :: h1 :: r)) = n).
  { unfold slice. len_lia. }
  split; [lia|]. rewrite record_bytes_split by (unfold MAX_LOGICAL_KEY_LEN; lia).
  rewrite Hk, <- Hm. pose proof (le_bytes_value [h0; h1]) as Hle.
  cbn [length] in Hle. fold n in Hle. rewrite Hle. cbn [app].
  do 5 f_equal.
  rewrite <- (zdrop_zdrop n 5) by lia. unfold slice.
  change (zdrop 5 (m0 :: m1 :: m2 :: h0 :: h1 :: r)) with r.
  replace (5 + n - 5) with n by lia. by rewrite ztake_zdrop.
Qed.

Lemma record_bytes_inj k v k' v' :
  len k <= MAX_LOGICAL_KEY_LEN -> len k' <= MAX_LOGICAL_KEY_LEN ->
  record_bytes k v = record_bytes k' v' -> k = k' /\ v = v'.
Proof.
  intros Hk Hk' E. pose proof (decode_record_bytes k v Hk) as D.
  rewrite E, decode_record_bytes in D by done. by simplify_eq.
Qed.

Lemma len_record_name `{!Sha256} k : len (record_name k) = 15.
Proof. done. Qed.

(** ** The name of a record is the first 75 bits of the digest *)

(** The reference reading: bits [5i, 5i+5) of the digest taken as one 256-bit
    big-endian number. *)
Definition digest_bits (digest : bytes) (index : Z) : Z :=
  be_value digest / 2 ^ (256 - 5 * (index + 1)) mod 32.

(** The two bytes a five-bit group can straddle. *)
Definition group_of_bytes (shift x y : Z) : Z :=
  Z.shiftr (let v := wrap 8 (Z.shiftl x shift) in
            if shift >? 3 then Z.lor v (Z.shiftr y (8 - shift)) else v) 3.

Lemma testbit_byte_high x m : 0 <= x < 256 -> 8 <= m -> Z.testbit x m = false.
Proof.
  intros Hx Hm. rewrite <- (Z.mod_small x (2 ^ 8)) by lia.
  apply Z.mod_pow2_bits_high. lia.
Qed.

Lemma testbit_pair x y m :
  0 <= y < 256 -> 0 <= m ->
  Z.testbit (x * 256 + y) m = if m <? 8 then Z.testbit y m else Z.testbit x (m - 8).
Proof.
  intros Hy Hm. zcase.
  - rewrite <- (Z.mod_pow2_bits_low _ 8) by done. change (2 ^ 8) with 256.
    rewrite Z.add_comm, Z.mod_add by lia. rewrite Z.mod_small by lia. done.
  - replace m with (m - 8 + 8) at 1 by lia. rewrite <- Z.div_pow2_bits by lia.
    change (2 ^ 8) with 256. rewrite Z.div_add_l, Z.div_small by lia. by rewrite Z.add_0_r.
Qed.

Lemma group_of_bytes_eq s x y :
  0 <= s < 8 -> 0 <= x < 256 -> 0 <= y < 256 ->
  group_of_bytes s x y = (x * 256 + y) / 2 ^ (11 - s) mod 32.
Proof.
  intros Hs Hx Hy. unfold group_of_bytes, wrap. change 32 with (2 ^ 5).
  apply Z.bits_inj'. intros n Hn. rewrite Z.shiftr_spec by done.
  transitivity (if n <? 5 then Z.testbit (x * 256 + y) (n + (11 - s)) else false).
  - assert (Hw : Z.testbit (Z.shiftl x s mod 2 ^ 8) (n + 3) =
                 if n <? 5 then Z.testbit x (n + 3 - s) else false).
    { zcase; [|apply Z.mod_pow2_bits_high; lia].
      rewrite Z.mod_pow2_bits_low by lia. apply Z.shiftl_spec. lia. }
    assert (Hp : (n <? 5) = true -> Z.testbit (x * 256 + y) (n + (11 - s)) =
        Z.testbit x (n + 3 - s) || (if s >? 3 then Z.testbit y (n + 3 + (8 - s)) else false)).
    { intros _. rewrite testbit_pair by lia. replace (n + (11 - s)) with (n + 3 + (8 - s)) by lia.
      replace (n + 3 + (8 - s) - 8) with (n + 3 - s) by lia.
      repeat zcase; rewrite ?orb_false_r; try done.
      - by rewrite (Z.testbit_neg_r x) by lia.
      - by rewrite (testbit_byte_high y), orb_false_r by lia. }
    destruct (Z.ltb_spec n 5) as [Hn5|Hn5].
    + rewrite Hp by done. destruct (s >? 3); [|by rewrite Hw, orb_false_r].
      rewrite Z.lor_spec, Z.shiftr_spec, Hw by lia. done.
    + destruct (s >? 3); [|by rewrite Hw].
      rewrite Z.lor_spec, Z.shiftr_spec, Hw by lia. apply testbit_byte_high; lia.
  - zcase.
    + rewrite Z.mod_pow2_bits_low, Z.div_pow2_bits by lia. done.
    + by rewrite Z.mod_pow2_bits_high by lia.
Qed.

Lemma split_pair (d : bytes) (i : Z) :
  0 <= i -> i + 1 < len d ->
  d = ztake i d ++ [byte_at d i; byte_at d (i + 1)] ++ zdrop (i + 2) d.
Proof.
  intros Hi Hl. rewrite <- (ztake_zdrop i d) at 1. f_equal.
  unfold zdrop, byte_at, len in *.
  assert (Hd : forall (l : bytes) j, (j < length l)%nat -> drop j l = nth j l x00 :: drop (S j) l).
  { induction l as [|b l IH]; intros [|j] Hj; cbn in *; try lia; [done|]. apply IH. lia. }
  rewrite Hd by lia. cbn [app]. f_equal.
  replace (Z.to_nat (i + 1)) with (S (Z.to_nat i)) by lia.
  rewrite Hd by lia. do 2 f_equal. lia.
Qed.

Lemma name_index_bits d i :
  len d = 32 -> 0 <= i < 15 -> name_index d i = digest_bits d i.
Proof.
  intros Hd Hi. unfold name_index, digest_bits.
  set (b := i * 5 / 8). set (s := i * 5 mod 8).
  assert (Hs : 0 <= s < 8) by (apply Z.mod_pos_bound; lia).
  assert (Hb : i * 5 = 8 * b + s) by (apply Z.div_mod; lia).
  pose proof (Z_of_byte_range (byte_at d b)) as Hx.
  pose proof (Z_of_byte_range (byte_at d (b + 1))) as Hy.
  set (x := Z_of_byte (byte_at d b)) in *. set (y := Z_of_byte (byte_at d (b + 1))) in *.
  change (group_of_bytes s x y =
          be_value d / 2 ^ (256 - 5 * (i + 1)) mod 32).
  rewrite group_of_bytes_eq by done.
  rewrite (split_pair d b) by lia. rewrite !be_value_app.
  set (pre := be_value (ztake b d)). set (post := zdrop (b + 2) d).
  assert (Hp : len post = 30 - b) by (unfold post; len_lia).
  change (be_value [byte_at d b; byte_at d (b + 1)]) with (y + 256 * (x + 256 * 0)).
  rewrite len_app, Hp. change (len [byte_at d b; byte_at d (b + 1)]) with 2.
  pose proof (be_value_range post) as Hpost. rewrite Hp in Hpost.
  replace (256 - 5 * (i + 1)) with (8 * (30 - b) + (11 - s)) by lia.
  rewrite (Z.pow_add_r 2 (8 * (30 - b))), <- Z.div_div
    by (try apply Z.pow_nonzero; try apply Z.pow_pos_nonneg; lia).
  rewrite (Z.pow_mul_r 2 8) by lia. change (2 ^ 8) with 256.
  replace (pre * 256 ^ (2 + (30 - b)) + ((y + 256 * (x + 256 * 0)) * 256 ^ (30 - b) + be_value post))
    with (be_value post + (pre * 256 ^ 2 + x * 256 + y) * 256 ^ (30 - b))
    by (rewrite (Z.pow_add_r 256 2) by lia; lia).
  rewrite Z.div_add, (Z.div_small (be_value post)) by (try apply Z.pow_nonzero; lia).
  rewrite Z.add_0_l. change (256 ^ 2) with 65536.
  replace (pre * 65536 + x * 256 + y) with (x * 256 + y + pre * 2 ^ (s + 5) * 2 ^ (11 - s)).
  2: { rewrite <- Z.mul_assoc, <- Z.pow_add_r by lia. replace (s + 5 + (11 - s)) with 16 by lia. lia. }
  rewrite Z.div_add by (apply Z.pow_nonzero; lia).
  rewrite (Z.pow_add_r 2 s 5), (Z.mul_assoc pre) by lia. change (2 ^ 5) with 32.
  rewrite Z.mod_add by lia. done.
Qed.

(** A record's name is the base32 rendering of the first 75 bits of the
    SHA-256 of its logical key: the byte-wise shifts of the source read, for
    each of the fifteen characters, exactly bits 5i to 5i+4 of the digest. *)
Theorem record_name_is_base32_prefix `{!Sha256, !Sha256Len} k :
  record_name k =
  map (fun i => byte_at ALPHABET (digest_bits (sha256 k) (Z.of_nat i))) (seq 0 15).
Proof.
  unfold record_name. apply map_ext_in. intros i [_ Hi]%in_seq.
  f_equal. apply name_index_bits; [apply sha256_len|lia].
Qed.
