(* ===== verification/SessionSlots.v ===== *)
(** * Bounded mirrors' metadata ([src/storage/session_slots.rs], [LruOrder])

    [SessionSlots] remembers up to eight record names whose flash slot was
    read and validated in this process, with the logical key found there.
    [LruOrder] is the use order of a capped RAM mirror. *)

From S2P Require Import Prelude.
(** ** SessionSlots: the [VecDeque<(String, Vec<u8>)>] *)

Module SessionSlots.

Abbreviation t := (list (bytes * bytes)).

Definition new : t := [].

Definition matches (name key : bytes) (slots : t) : option bool :=
match list_find (fun slot => slot.1 = name) slots with
| Some (_, (_, stored_key)) => Some (bool_decide (stored_key = key))
| None => None
end.

Definition remember (name key : bytes) (slots : t) : t :=
let slots := remove_first (fun slot => slot.1 = name) slots in
let slots := if bool_decide (length slots = 8%nat) then tail slots else slots in
slots ++ [(name, key)].

Definition clear (_ : t) : t := [].

(** The queue never holds more than eight slots, nor two slots for a name. *)
Record wf (slots : t) : Prop := {
wf_len : (length slots <= 8)%nat;
wf_names : NoDup slots.*1;
}.

Lemma remove_name_names name (slots : t) :
(remove_first (fun slot => slot.1 = name) slots).*1 =
remove_first (fun n => n = name) slots.*1.
Proof.
induction slots as [|[n k] slots IH]; [done|].
rewrite fmap_cons, !remove_first_cons. cbn.
case_decide; [done|]. by rewrite fmap_cons, IH.
Qed.

Lemma tail_names (slots : t) : (tail slots).*1 = tail slots.*1.
Proof. by destruct slots. Qed.

Lemma NoDup_tail {A} (l : list A) : NoDup l -> NoDup (tail l).
Proof. destruct 1; [constructor|done]. Qed.

Lemma elem_of_tail_inv {A} (l : list A) x : x ∈ tail l -> x ∈ l.
Proof. destruct l; [done|]. by right. Qed.

Lemma wf_new : wf new.
Proof. split; [cbn; lia|constructor]. Qed.

Lemma remember_wf name key slots : wf slots -> wf (remember name key slots).
Proof.
intros [Hl Hn]. unfold remember.
set (rest := remove_first _ slots).
assert (Hr : (length rest <= 8)%nat).
{ etrans; [apply length_remove_first|done]. }
assert (Hrn : NoDup rest.*1 /\ name ∉ rest.*1).
{ unfold rest. rewrite remove_name_names. split; [by apply remove_first_NoDup|].
  intros Hin. apply elem_of_remove_first in Hin; [|done]. by destruct Hin. }
split.
- rewrite length_app. cbn. case_bool_decide as H8; [|lia].
  destruct rest; cbn in *; lia.
- rewrite fmap_app. apply NoDup_app. cbn.
  assert (Ht : forall P : bool, NoDup (if P then tail rest else rest).*1 /\
      name ∉ (if P then tail rest else rest).*1).
  { intros []; [|done]. rewrite tail_names. split; [apply NoDup_tail, Hrn|].
    intros H%elem_of_tail_inv. naive_solver. }
  destruct (Ht (bool_decide (length rest = 8%nat))) as [H1 H2].
  split_and!; [done| |apply NoDup_singleton].
  intros x Hx ->%list_elem_of_singleton. done.
Qed.

Lemma remember_inv name key slots slot :
slot ∈ remember name key slots -> slot = (name, key) \/ slot ∈ slots.
Proof.
unfold remember. rewrite elem_of_app, list_elem_of_singleton.
intros [H|H]; [right|by left].
assert (slot ∈ remove_first (fun slot => slot.1 = name) slots).
{ case_bool_decide; [by apply elem_of_tail_inv|done]. }
by eapply elem_of_remove_first_inv.
Qed.

Lemma NoDup_fmap_fst_inj {A B} (l : list (A * B)) x y y' :
NoDup l.*1 -> (x, y) ∈ l -> (x, y') ∈ l -> y = y'.
Proof.
induction l as [|[a b] l IH]; intros Hn; [by intros ?%not_elem_of_nil|].
rewrite fmap_cons in Hn. apply NoDup_cons in Hn as [Ha Hn].
rewrite !elem_of_cons. intros [E|H] [E'|H']; simplify_eq; auto.
- destruct Ha. apply list_elem_of_fmap. by exists (a, y').
- destruct Ha. apply list_elem_of_fmap. by exists (a, y).
Qed.

Lemma matches_Some name key slots b :
matches name key slots = Some b ->
exists stored, (name, stored) ∈ slots /\ b = bool_decide (stored = key).
Proof.
unfold matches. destruct (list_find _ slots) as [[i [n k]]|] eqn:F; [|done].
apply list_find_Some in F as (Hi & Hn & _). cbn in Hn. subst n.
intros [= <-]. exists k. split; [|done]. by eapply list_elem_of_lookup_2.
Qed.

Lemma matches_iff name key slots b :
wf slots ->
matches name key slots = Some b <->
exists stored, (name, stored) ∈ slots /\ b = bool_decide (stored = key).
Proof.
intros [_ Hn]. split; [apply matches_Some|]. intros (stored & Hin & ->).
unfold matches. destruct (list_find _ slots) as [[i [n k]]|] eqn:F.
- apply list_find_Some in F as (Hi & Hnm & _). cbn in Hnm. subst n.
  apply list_elem_of_lookup_2 in Hi.
  assert (k = stored) as ->; [|done].
  eapply NoDup_fmap_fst_inj; eauto.
- apply list_find_None in F. rewrite Forall_forall in F.
  by destruct (F _ Hin).
Qed.

(** The slot cache is bounded, names are unique in it, and a lookup after
  [remember] answers for the key it was given: a cached name validates its
  own logical key and never another one, and no other name's answer
  changes unless its slot was evicted. *)
Theorem remember_bounded_and_exact name key slots :
wf slots ->
wf (remember name key slots) /\
(forall key', matches name key' (remember name key slots) = Some (bool_decide (key = key'))) /\
(forall other k b, other <> name -> matches other k (remember name key slots) = Some b ->
  matches other k slots = Some b).
Proof.
intros Hw. pose proof (remember_wf name key slots Hw) as Hw'.
split_and!; [done| |].
- intros key'. apply matches_iff; [done|]. exists key. split; [|done].
  unfold remember. apply elem_of_app. right. by apply list_elem_of_singleton.
- intros other k b Hne (stored & Hin & ->)%matches_Some.
  apply matches_iff; [done|]. exists stored. split; [|done].
  destruct (remember_inv _ _ _ _ Hin); naive_solver.
Qed.

End SessionSlots.
