(* ===== verification/Lru.v ===== *)
(** * Use order of the capped RAM mirrors ([LruOrder] in [src/storage.rs])

    Without PSRAM a mirror map is an evicting cache; [LruOrder] keeps its keys
    from the least to the most recently used.  The invariant [mirrors] ties
    the order to the map. *)

From S2P Require Import Prelude.
Section Lru.
Context {K : Type} `{!EqDecision K}.

Definition touched (key : K) (order : list K) : list K :=
  remove_first (fun k => k = key) order ++ [key].

Definition removed (key : K) (order : list K) : list K :=
  remove_first (fun k => k = key) order.

(** Oldest-first keys to drop so that [n] entries fit [cap]. *)
Definition overflow (order : list K) (n cap : Z) : list K :=
  if n >? cap then ztake (n - cap) order else [].

Context `{!Countable K} {V : Type}.

(** The eviction loop of the [enforce_*_cap] methods. *)
Definition evict (keys : list K) (m : gmap K V) (order : list K) : gmap K V * list K :=
  foldl (fun '(m, order) key => (delete key m, removed key order)) (m, order) keys.

(** The order lists each key of the map once and nothing else. *)
Record mirrors (order : list K) (m : gmap K V) : Prop := {
  mr_nodup : NoDup order;
  mr_dom : forall k, k ∈ order <-> is_Some (m !! k);
}.

Lemma elem_of_touched k x order : NoDup order -> x ∈ touched k order <-> x = k \/ x ∈ order.
Proof.
  intros Hn. unfold touched.
  rewrite elem_of_app, list_elem_of_singleton, elem_of_remove_first by done.
  destruct (decide (x = k)); naive_solver.
Qed.

Lemma touched_NoDup k order : NoDup order -> NoDup (touched k order).
Proof.
  intros Hn. unfold touched. apply NoDup_app. split_and!.
  - by apply remove_first_NoDup.
  - intros x Hx ->%list_elem_of_singleton. apply elem_of_remove_first in Hx; naive_solver.
  - apply NoDup_singleton.
Qed.

Lemma mirrors_nil : mirrors [] (∅ : gmap K V).
Proof.
  split; [constructor|]. intros k. rewrite lookup_empty. split.
  - by intros ?%not_elem_of_nil.
  - by intros [? [=]].
Qed.

Lemma mirrors_insert k v order m :
  mirrors order m -> mirrors (touched k order) (<[k := v]> m).
Proof.
  intros [Hn Hd]. split; [by apply touched_NoDup|]. intros x.
  rewrite elem_of_touched by done. rewrite lookup_insert_is_Some, Hd.
  destruct (decide (k = x)); naive_solver.
Qed.

Lemma mirrors_touch k order m :
  mirrors order m -> is_Some (m !! k) -> mirrors (touched k order) m.
Proof.
  intros [Hn Hd] Hk. split; [by apply touched_NoDup|]. intros x.
  rewrite elem_of_touched by done. rewrite Hd. naive_solver.
Qed.

Lemma mirrors_delete k order m :
  mirrors order m -> mirrors (removed k order) (delete k m).
Proof.
  intros [Hn Hd]. split; [by apply remove_first_NoDup|]. intros x. unfold removed.
  rewrite elem_of_remove_first by done. rewrite lookup_delete_is_Some, Hd. naive_solver.
Qed.

Lemma mirrors_size order m : mirrors order m -> len order = Z.of_nat (size m).
Proof.
  intros [Hn Hd]. unfold len. rewrite <- (size_list_to_set (C := gset K) order) by done.
  rewrite <- (size_dom m). do 2 f_equal. apply set_eq. intros k.
  rewrite elem_of_list_to_set, elem_of_dom. apply Hd.
Qed.

Lemma evict_mirrors keys order m :
  mirrors order m -> mirrors (evict keys m order).2 (evict keys m order).1.
Proof.
  unfold evict. revert order m. induction keys as [|k keys IH]; intros order m H; [done|].
  cbn. apply IH. by apply mirrors_delete.
Qed.

Lemma evict_lookup keys order m k :
  (evict keys m order).1 !! k = if decide (k ∈ keys) then None else m !! k.
Proof.
  unfold evict. revert order m. induction keys as [|k' keys IH]; intros order m; cbn.
  - rewrite decide_False; [done|]. by intros ?%not_elem_of_nil.
  - rewrite IH. destruct (decide (k = k')) as [->|Hne].
    + rewrite lookup_delete_eq. rewrite (decide_True (P := k' ∈ k' :: keys)) by by left.
      by case_decide.
    + rewrite lookup_delete_ne by done.
      destruct (decide (k ∈ keys)) as [Hk|Hk].
      * rewrite decide_True; [done|by right].
      * rewrite decide_False; [done|]. intros [?|?]%elem_of_cons; done.
Qed.

Lemma evict_size_NoDup keys order m :
  NoDup keys -> (forall k, k ∈ keys -> is_Some (m !! k)) ->
  Z.of_nat (size (evict keys m order).1) = Z.of_nat (size m) - len keys.
Proof.
  unfold evict. revert order m. induction keys as [|k keys IH]; intros order m Hn Hd; cbn.
  - rewrite len_nil. lia.
  - apply NoDup_cons in Hn as [Hk Hn].
    rewrite IH; [|done|].
    + rewrite len_cons.
      destruct (Hd k) as [v Hv]; [by left|].
      pose proof (map_size_delete_Some k m (mk_is_Some _ _ Hv)) as Hs. rewrite Hs.
      assert (size m <> 0)%nat.
      { intros ->%map_size_empty_iff. by rewrite lookup_empty in Hv. }
      lia.
    + intros x Hx. rewrite lookup_delete_ne by (intros ->; done). apply Hd. by right.
Qed.

(** Evicting what [overflow] names brings the mirror down to its cap. *)
Lemma evict_overflow_size order m cap :
  mirrors order m -> 0 <= cap ->
  Z.of_nat (size (evict (overflow order (Z.of_nat (size m)) cap) m order).1) =
  Z.min cap (Z.of_nat (size m)).
Proof.
  intros H Hc. pose proof (mirrors_size _ _ H) as Hs.
  unfold overflow. zcase; [|cbn; lia].
  rewrite evict_size_NoDup.
  - len_lia.
  - eapply sublist_NoDup; [apply H|]. unfold ztake. apply sublist_take.
  - intros k Hk. apply H. unfold ztake in Hk.
    apply list_elem_of_lookup in Hk as [i [Hi _]%lookup_take_Some].
    by eapply list_elem_of_lookup_2.
Qed.
End Lru.
