(* ===== verification/Flash.v ===== *)
(** * Durable records: [FlashNamespaces] of [src/storage.rs]

    Every operation the [wa-nvs] worker runs on the partition, in the state
    and error monad over [fstate]: the partition and the cache of validated
    session slots.  An operation that fails keeps what it already did. *)

From S2P Require Import Prelude RustStr Nvs Record SessionSlots.
Record fstate (W : Type) := FState { fs_nvs : W; fs_slots : SessionSlots.t }.
Arguments FState {W} _ _.
Arguments fs_nvs {W} _.
Arguments fs_slots {W} _.

Definition set_nvs {W} (w : W) (s : fstate W) : fstate W := FState w (fs_slots s).

(** [serde_json] on one type: what it writes and reads back. *)
Class Serde (A : Type) := {
  to_vec : A -> option bytes;
  from_slice : bytes -> option A;
}.
Class SerdeLaws (A : Type) `{!Serde A} : Prop :=
  from_to_vec (a : A) b : to_vec a = Some b -> from_slice b = Some a.

Section Flash.
Context {W : Type} `{!Nvs W, !Sha256}.

Abbreviation F A := (M (fstate W) StoreError A).

(** [.map_err(nvs_error)?] on a call of the partition. *)
Definition nvs_error (code : esp_err) : StoreError := Io (EspNvsError code).
Definition nvs {A} (m : M W esp_err A) : F A :=
  zoom fs_nvs set_nvs (map_err nvs_error m).
Definition reserve (n : Z) : F unit :=
  zoom fs_nvs set_nvs (map_err (fun _ => Io OutOfMemory) (try_reserve n)).
Definition slots {A} (f : SessionSlots.t -> A) : F A :=
  fun s => (s, Ok (f (fs_slots s))).
Definition set_slots (f : SessionSlots.t -> SessionSlots.t) : F unit :=
  modify (fun s => FState (fs_nvs s) (f (fs_slots s))).

Definition commit (namespace : ns) : F unit := nvs (nvs_commit namespace).

(** [CString::new] refuses an interior NUL. *)
Definition set_blob (namespace : ns) (name value : bytes) : F unit :=
  if bool_decide (x00 ∈ name) then fail (Validation InvalidRecordName)
  else
    nvs (nvs_set_blob namespace name value) ;;;
    commit namespace.

Definition remove_blob (namespace : ns) (name : bytes) : F unit :=
  let* present := nvs (nvs_blob_len namespace name) in
  match present with
  | None => ret tt
  | Some _ =>
      nvs (nvs_remove namespace name) ;;;
      commit namespace
  end.

Definition record_names (namespace : ns) : F (list bytes) := nvs (nvs_keys namespace).
Definition record_count (namespace : ns) : F Z :=
  let* names := nvs (nvs_keys namespace) in ret (len names).

(** One erase attempt: erase, then read the names back. *)
Definition erase_attempt (namespace : ns) : F bool :=
  let* erased := attempt (nvs (nvs_erase_all namespace)) in
  match erased with
  | Err _ => ret false
  | Ok _ =>
      let* names := attempt (record_names namespace) in
      match names with
      | Ok [] => ret true
      | _ => ret false
      end
  end.

Fixpoint erase_attempts (attempts : nat) (namespace : ns) (label : string) : F unit :=
  match attempts with
  | O => fail (Io (EraseFailed label))
  | S attempts =>
      let* verified := erase_attempt namespace in
      if verified then ret tt else erase_attempts attempts namespace label
  end.

Definition erase_namespace : ns -> string -> F unit := erase_attempts 3.

Definition read_blob (namespace : ns) (name : bytes) (max_len : Z) : F (option bytes) :=
  let* stored := nvs (nvs_blob_len namespace name) in
  match stored with
  | None => ret None
  | Some n =>
      if n >? max_len then fail (Validation (BlobTooLarge name n))
      else
        reserve n ;;;
        let* data := nvs (nvs_get_blob namespace name n) in
        match data with
        | None => fail (Validation (BlobDisappeared name))
        | Some data => ret (Some data)
        end
  end.

Definition max_record_len (max_value_len : Z) : Z :=
  RECORD_HEADER_LEN + MAX_LOGICAL_KEY_LEN + max_value_len.

(** The logical key of every record, one record at a time. *)
Fixpoint addresses_of (namespace : ns) (label : string) (names : list bytes) : F (list bytes) :=
  match names with
  | [] => ret []
  | name :: names =>
      let* record := read_blob namespace name (max_record_len MAX_SIGNAL_RECORD_LEN) in
      match record with
      | None => addresses_of namespace label names
      | Some record =>
          let* (key, _) := lift (decode_record record) in
          if utf8_valid key then
            let* rest := addresses_of namespace label names in ret (key :: rest)
          else fail (Validation (InvalidStringKey label))
      end
  end.
Definition namespace_addresses (namespace : ns) (label : string) : F (list bytes) :=
  let* names := record_names namespace in addresses_of namespace label names.

Definition remember_session_slot (namespace : ns) (name key : bytes) : F unit :=
  if bool_decide (namespace = NsSessions) then set_slots (SessionSlots.remember name key)
  else ret tt.

(** [load_device] and [save_device], over the serialiser of [Device]. *)
Definition load_device {Device} `{!Serde Device} : F (option Device) :=
  let* record := read_blob NsDevice (bs "current") (RECORD_HEADER_LEN + 6 + MAX_DEVICE_LEN) in
  match record with
  | None => ret None
  | Some record =>
      let* (logical_key, payload) := lift (decode_record record) in
      if bool_decide (logical_key = bs "device") then
        match from_slice payload with
        | Some device => ret (Some device)
        | None => fail Serialization
        end
      else fail (Validation DeviceWrongKey)
  end.

Definition save_device {Device} `{!Serde Device} (device : Device) : F unit :=
  match to_vec device with
  | None => fail Serialization
  | Some payload =>
      if len payload >? MAX_DEVICE_LEN then
        fail (Validation (ValueTooLarge "device" (len payload)))
      else
        let* record := encode_record reserve (bs "device") payload in
        set_blob NsDevice (bs "current") record
  end.

(** One record of the boot walk: read, decode, check its name and size. *)
Definition read_record (namespace : ns) (label : string) (max_value_len : Z) (name : bytes)
    : F (bytes * bytes) :=
  let* stored := read_blob namespace name (max_record_len max_value_len) in
  match stored with
  | None => fail (Validation (DisappearedAtStartup label name))
  | Some record =>
      let* (logical_key, value) := lift (decode_record record) in
      if negb (bool_decide (record_name logical_key = name)) then
        fail (Validation (MismatchedKey label name))
      else if len value >? max_value_len then
        fail (Validation (RecordTooLarge label name (len value)))
      else ret (logical_key, value)
  end.

Fixpoint read_records (namespace : ns) (label : string) (max_value_len : Z) (names : list bytes)
    : F (list (bytes * bytes)) :=
  match names with
  | [] => ret []
  | name :: names =>
      let* record := read_record namespace label max_value_len name in
      let* rest := read_records namespace label max_value_len names in
      ret (record :: rest)
  end.

Definition load_records (namespace : ns) (label : string) (max_entries max_value_len : Z)
    : F (list (bytes * bytes)) :=
  let* names := record_names namespace in
  if len names >? max_entries then
    fail (Validation (TooManyRecords label (len names) max_entries))
  else read_records namespace label max_value_len names.

(** [visit_records]: the closure's captured state is threaded as [acc]. *)
Fixpoint visit_names {A} (namespace : ns) (label : string) (max_value_len : Z)
    (visit : A -> bytes -> bytes -> result StoreError A) (names : list bytes) (acc : A) : F A :=
  match names with
  | [] => ret acc
  | name :: names =>
      let* (logical_key, value) := read_record namespace label max_value_len name in
      let* acc := lift (visit acc logical_key value) in
      visit_names namespace label max_value_len visit names acc
  end.

Definition visit_records {A} (namespace : ns) (label : string) (max_entries max_value_len : Z)
    (visit : A -> bytes -> bytes -> result StoreError A) (acc : A) : F A :=
  let* names := record_names namespace in
  if len names >? max_entries then
    fail (Validation (TooManyRecords label (len names) max_entries))
  else visit_names namespace label max_value_len visit names acc.

Definition load_record (namespace : ns) (logical_key : bytes) (max_value_len : Z)
    : F (option bytes) :=
  let name := record_name logical_key in
  let* stored := read_blob namespace name (max_record_len max_value_len) in
  match stored with
  | None => ret None
  | Some record =>
      let* (stored_key, value) := lift (decode_record record) in
      if negb (bool_decide (stored_key = logical_key)) then ret None
      else if len value >? max_value_len then
        fail (Validation (LoadedTooLarge name (len value)))
      else
        remember_session_slot namespace name logical_key ;;;
        (* [copy_within], [truncate]: the payload moves to the front of the
           buffer that held the record. *)
        let payload_len := len value in
        let payload_start := len record - payload_len in
        ret (Some (ztake payload_len (zdrop payload_start record)))
  end.

Definition load_sync_key {Key} `{!Serde Key} (key_id : bytes) : F (option Key) :=
  let* value := load_record NsSyncKeys key_id MAX_SIGNAL_RECORD_LEN in
  match value with
  | None => ret None
  | Some value =>
      match from_slice value with
      | Some key => ret (Some key)
      | None => fail Serialization
      end
  end.

Definition check_record_slot (namespace : ns) (logical_key : bytes) (value_len : Z)
    (label : string) (max_entries : Z) : F bytes :=
  if value_len >? MAX_SIGNAL_RECORD_LEN then
    fail (Validation (ValueTooLarge label value_len))
  else if len logical_key >? MAX_LOGICAL_KEY_LEN then
    fail (Validation (KeyTooLong (len logical_key)))
  else
    let name := record_name logical_key in
    let* cached :=
      (if bool_decide (namespace = NsSessions) then slots (SessionSlots.matches name logical_key)
       else ret None) in
    match cached with
    | Some matches =>
        if negb matches then fail (Validation (KeyCollision label name)) else ret name
    | None =>
        let* existing := read_blob namespace name (max_record_len MAX_SIGNAL_RECORD_LEN) in
        match existing with
        | Some existing =>
            let* (stored_key, _) := lift (decode_record existing) in
            if negb (bool_decide (stored_key = logical_key)) then
              fail (Validation (KeyCollision label name))
            else
              remember_session_slot namespace name logical_key ;;;
              ret name
        | None =>
            let* count := record_count namespace in
            let* _ := lift (ensure_insert_capacity false count max_entries label) in
            ret name
        end
    end.

Definition prepare_record (namespace : ns) (logical_key value : bytes) (label : string)
    (max_entries : Z) : F (bytes * bytes) :=
  let* name := check_record_slot namespace logical_key (len value) label max_entries in
  let* record := encode_record reserve logical_key value in
  ret (name, record).

Definition put_record (namespace : ns) (logical_key value : bytes) (label : string)
    (max_entries : Z) : F unit :=
  let* (name, record) := prepare_record namespace logical_key value label max_entries in
  set_blob namespace name record.

Definition delete_record (namespace : ns) (logical_key : bytes) (label : string) : F unit :=
  (if bool_decide (namespace = NsSessions) then set_slots SessionSlots.clear else ret tt) ;;;
  let name := record_name logical_key in
  let* stored := read_blob namespace name (max_record_len MAX_SIGNAL_RECORD_LEN) in
  match stored with
  | None => ret tt
  | Some existing =>
      let* (stored_key, _) := lift (decode_record existing) in
      if negb (bool_decide (stored_key = logical_key)) then
        fail (Validation (KeyCollision label name))
      else
        nvs (nvs_remove namespace name) ;;;
        commit namespace
  end.

Definition signal_namespaces : list ns :=
  [NsIdentities; NsSessions; NsPrekeys; NsSignedPrekeys; NsSenderKeys; NsSyncKeys].

Fixpoint any_records (namespaces : list ns) : F bool :=
  match namespaces with
  | [] => ret false
  | namespace :: namespaces =>
      let* names := record_names namespace in
      match names with
      | [] => any_records namespaces
      | _ :: _ => ret true
      end
  end.
Definition has_signal_records : F bool := any_records signal_namespaces.

Definition erase_signal : F unit :=
  set_slots SessionSlots.clear ;;;
  remove_blob NsControl (bs "latestsync") ;;;
  erase_namespace NsIdentities "identity" ;;;
  erase_namespace NsSessions "session" ;;;
  erase_namespace NsPrekeys "prekey" ;;;
  erase_namespace NsSignedPrekeys "signed prekey" ;;;
  erase_namespace NsSenderKeys "sender key" ;;;
  erase_namespace NsSyncKeys "sync key".

Definition erase_all : F unit :=
  erase_namespace NsDevice "device" ;;;
  erase_signal.

Definition load_latest_sync_key_id : F (option bytes) :=
  let* stored := read_blob NsControl (bs "latestsync") (RECORD_HEADER_LEN + 10 + MAX_LOGICAL_KEY_LEN) in
  match stored with
  | None => ret None
  | Some record =>
      let* (logical_key, payload) := lift (decode_record record) in
      if bool_decide (logical_key = bs "latestsync") then ret (Some payload)
      else fail (Validation LatestWrongKey)
  end.

Definition save_latest_sync_key_id (key_id : bytes) : F unit :=
  if len key_id >? MAX_LOGICAL_KEY_LEN then
    fail (Validation (SyncKeyIdTooLong (len key_id)))
  else
    let* record := encode_record reserve (bs "latestsync") key_id in
    set_blob NsControl (bs "latestsync") record.

Definition reset_pending : F bool :=
  let* marker := read_blob NsControl (bs "reset") 1 in
  ret (bool_decide (is_Some marker)).

Definition complete_reset : F unit :=
  erase_all ;;;
  remove_blob NsControl (bs "reset").

Definition reset_all : F unit :=
  set_blob NsControl (bs "reset") (bs "1") ;;;
  complete_reset.
End Flash.
