(* ===== verification/FlashSpec.v ===== *)
(** * Specifications of the flash primitives

    The weakest-precondition specifications of the building blocks of
    [Flash.v] on any partition that satisfies [NvsLaws], the logical view of
    a namespace as a map from logical keys to values, and the invariant of
    the partition together with its cache of validated session slots. *)

From S2P Require Import Prelude Nvs Record SessionSlots Flash.
(** The blobs of a namespace, to readers and to a reboot. *)
Abbreviation fl s n := (flash (fs_nvs s) n).
Abbreviation du s n := (durable (fs_nvs s) n).

(** Errors of the medium or the heap, as opposed to refusals. *)
Definition is_io (e : StoreError) : Prop := exists i, e = Io i.

#[local] Set Default Proof Using "Type*".

Section Frames.
Context {W : Type} `{nvsW : !Nvs W}.
Implicit Types (s t : fstate W) (n : ns).

(** ** Frames *)

(** Nothing a reader, a reboot or the slot cache can see differs. *)
Definition quiet s t : Prop :=
  same_views (fs_nvs s) (fs_nvs t) /\ fs_slots t = fs_slots s.

(** The partition looks the same; the slot cache may have learnt a slot. *)
Definition unchanged s t : Prop := same_views (fs_nvs s) (fs_nvs t).

(** Only namespace [n] may differ. *)
Definition only n s t : Prop := same_but n (fs_nvs s) (fs_nvs t).

#[global] Instance quiet_equiv : Equivalence quiet.
Proof.
  split.
  - intros s. split; reflexivity.
  - intros s t [H1 H2]. split; by symmetry.
  - intros s t u [H1 H2] [H3 H4]. split; by etrans.
Qed.

#[global] Instance unchanged_equiv : Equivalence unchanged.
Proof.
  split.
  - intros s. red. reflexivity.
  - intros s t H. red. by symmetry.
  - intros s t u H H'. red. by etrans.
Qed.

#[global] Instance only_equiv n : Equivalence (only n).
Proof.
  split.
  - intros s. red. reflexivity.
  - intros s t H. red. by symmetry.
  - intros s t u H H'. red. by etrans.
Qed.

Lemma quiet_unchanged s t : quiet s t -> unchanged s t.
Proof. by intros []. Qed.
Lemma unchanged_only n s t : unchanged s t -> only n s t.
Proof. apply same_views_but. Qed.


Lemma unchanged_flash n s t : unchanged s t -> fl t n = fl s n.
Proof. apply same_views_flash. Qed.
Lemma unchanged_durable n s t : unchanged s t -> du t n = du s n.
Proof. apply same_views_durable. Qed.
Lemma only_flash n n' s t : only n s t -> n' <> n -> fl t n' = fl s n'.
Proof. intros H Hn. by apply H. Qed.
Lemma only_durable n n' s t : only n s t -> n' <> n -> du t n' = du s n'.
Proof. intros H Hn. by apply H. Qed.

End Frames.

Section Spec.
Context {W : Type} `{nvsW : !Nvs W, lawsW : !NvsLaws W}.
Implicit Types (s t : fstate W) (n : ns).


(** ** Partition calls *)

Lemma wp_nvs {A} (m : M W esp_err A) (Q : result StoreError A -> fstate W -> Prop) s :
  wp m (fun r w => match r with
                   | Ok a => Q (Ok a) (set_nvs w s)
                   | Err e => forall i, Q (Err (Io i)) (set_nvs w s)
                   end) (fs_nvs s) ->
  wp (nvs m) Q s.
Proof.
  intros H. unfold nvs. wp_steps. eapply wp_mono; [exact H|].
  intros [a|e] w Hw; [done|]. apply Hw.
Qed.

Lemma quiet_set_nvs s w : same_views (fs_nvs s) w -> quiet s (set_nvs w s).
Proof. done. Qed.

Lemma reserve_spec l s :
  wp (reserve l) (fun r t => quiet s t /\ forall e, r = Err e -> is_io e) s.
Proof.
  unfold reserve. wp_steps. wp_use law_reserve. intros [[]|[]] w Hw.
  - split; [done|]. intros e [=].
  - split; [done|]. intros e [= <-]. by eexists.
Qed.

Lemma record_names_spec n s :
  wp (record_names n) (fun r t => quiet s t /\
    match r with Ok ks => ks ≡ₚ (map_to_list (fl s n)).*1 | Err e => is_io e end) s.
Proof.
  unfold record_names. apply wp_nvs. wp_use law_keys. intros [ks|e] w [Hv Hk].
  - split; [done|]. by apply Hk.
  - intros i. split; [done|]. by eexists.
Qed.

Lemma len_names (m : gmap bytes bytes) ks :
  ks ≡ₚ (map_to_list m).*1 -> len ks = Z.of_nat (size m).
Proof.
  intros H. unfold len. rewrite (Permutation_length H), length_fmap. by rewrite length_map_to_list.
Qed.

Lemma record_count_spec n s :
  wp (record_count n) (fun r t => quiet s t /\
    match r with Ok c => c = Z.of_nat (size (fl s n)) | Err e => is_io e end) s.
Proof.
  unfold record_count. wp_step. wp_use record_names_spec. intros [ks|e] t [Hq Hk]; [|done].
  wp_step. split; [done|]. by apply len_names.
Qed.

(** [read_blob] returns the blob of that name, or refuses an oversized one. *)
Lemma read_blob_spec n k max s :
  wp (read_blob n k max) (fun r t => quiet s t /\
    match r with
    | Ok o => o = fl s n !! k /\ (forall b, o = Some b -> len b <= max)
    | Err e => is_io e \/
        exists b, fl s n !! k = Some b /\ len b > max /\ e = Validation (BlobTooLarge k (len b))
    end) s.
Proof.
  unfold read_blob. wp_step. apply wp_nvs. wp_use law_blob_len.
  intros [stored|e] w [Hv Ho]; [|intros i; split; [done|]; left; by eexists].
  specialize (Ho _ eq_refl). rewrite Ho. apply quiet_set_nvs in Hv.
  destruct (fl s n !! k) as [b|] eqn:Hb; cbn [fmap option_fmap option_map]; [|by wp_step].
  zcase; [|].
  - wp_step. split; [done|]. right. exists b. split_and!; [done|lia|done].
  - wp_step. wp_use reserve_spec. intros [u|e] t [Hq Hr].
    2: { split; [by etrans|]. left. by apply Hr. }
    wp_step. apply wp_nvs. wp_use law_get_blob.
    assert (Hqs : quiet s t) by (by etrans).       assert (Ht : fl t n = fl s n) by (apply unchanged_flash; apply Hqs).
    intros [data|e] w' [Hv' Hd].
    + specialize (Hd _ eq_refl). rewrite Hd, Ht, Hb. wp_step.
      split; [|by split; intros; simplify_eq]. etrans; [done|]. by apply quiet_set_nvs.
    + intros i. split; [|left; by eexists]. etrans; [done|]. by apply quiet_set_nvs.
Qed.

Lemma commit_spec n s :
  wp (commit n) (fun r t => commit_post n (fs_nvs s)
      (match r with Ok tt => Ok tt | Err _ => Err 0 end) (fs_nvs t) /\
    fs_slots t = fs_slots s /\ forall e, r = Err e -> is_io e) s.
Proof.
  unfold commit. apply wp_nvs. wp_use law_commit. intros [[]|e] w Hw.
  - by split_and!.
  - intros i. split_and!; [|done|intros ? [= <-]; by eexists].
    destruct Hw as [? ? Hok ?]. split; try done.
Qed.

(** The blobs of [n] after a write of [v] under [k] that reported [ok]. *)
Record written n k v s (ok : bool) t : Prop := {
  wr_only : only n s t;
  wr_slots : fs_slots t = fs_slots s;
  wr_flash : fl t n = <[k := v]> (fl s n) \/ (ok = false /\ fl t n = fl s n);
  wr_ok : ok = true -> du t n = fl t n;
  wr_durable : forall k', du t n !! k' = du s n !! k' \/ du t n !! k' = fl s n !! k' \/
    (k' = k /\ du t n !! k' = Some v);
}.

Lemma insert_case (k k' v : bytes) (m : gmap bytes bytes) (o : option bytes) :
  o = <[k := v]> m !! k' -> o = m !! k' \/ (k' = k /\ o = Some v).
Proof.
  intros ->. destruct (decide (k' = k)) as [->|Hne].
  - rewrite lookup_insert_eq. auto.
  - rewrite lookup_insert_ne by done. auto.
Qed.

Lemma set_blob_spec n k v s :
  x00 ∉ k ->
  wp (set_blob n k v) (fun r t => written n k v s (is_ok r) t /\
    forall e, r = Err e -> is_io e) s.
Proof.
  intros Hk. unfold set_blob. rewrite bool_decide_false by done. wp_step.
  apply wp_nvs. wp_use law_set_blob. intros [[]|e] w [Ho Hf Hd].
  - destruct Hf as [Hf|[[=] _]]. wp_use commit_spec. intros r t (Hc & Hs & Hr).
    split; [|done]. destruct Hc as [Co Cf Cok Cd]. cbn in *. split.
    + red. etrans; [exact Ho|exact Co].
    + done.
    + left. by rewrite Cf, Hf.
    + intros Hok. rewrite Cok, Cf; [done|]. by destruct r as [[]|].
    + intros k'. destruct (Cd k') as [->| ->].
      * destruct Hd as [->| ->]; [by left|].
        destruct (insert_case k k' v (du s n) _ eq_refl) as [?|?]; auto.
      * rewrite Hf. destruct (insert_case k k' v (fl s n) _ eq_refl) as [?|?]; auto.
  - intros i. split; [|intros ? [= <-]; by eexists]. split; cbn; try done.
    intros k'. destruct Hd as [->| ->]; [by left|].
    destruct (insert_case k k' v (du s n) _ eq_refl) as [?|?]; auto.
Qed.

(** The blobs of [n] after removing [k]. *)
Record unwritten n k s (ok : bool) t : Prop := {
  uw_only : only n s t;
  uw_slots : fs_slots t = fs_slots s;
  uw_flash : fl t n = delete k (fl s n) \/ (ok = false /\ fl t n = fl s n);
  uw_ok : ok = true -> du t n = fl t n;
  uw_durable : forall k', du t n !! k' = du s n !! k' \/ du t n !! k' = fl s n !! k' \/
    (k' = k /\ du t n !! k' = None);
}.

Lemma delete_case (k k' : bytes) (m : gmap bytes bytes) (o : option bytes) :
  o = delete k m !! k' -> o = m !! k' \/ (k' = k /\ o = None).
Proof.
  intros ->. destruct (decide (k' = k)) as [->|Hne].
  - rewrite lookup_delete_eq. auto.
  - rewrite lookup_delete_ne by done. auto.
Qed.

Lemma remove_commit_spec n k s :
  wp (let* _ := nvs (nvs_remove n k) in commit n)
    (fun r t => unwritten n k s (is_ok r) t /\ forall e, r = Err e -> is_io e) s.
Proof.
  wp_step. apply wp_nvs. wp_use law_remove. intros [b|e] w [Ho Hf Hd].
  - destruct Hf as [Hf|[[=] _]]. wp_use commit_spec. intros r t (Hc & Hs & Hr).
    split; [|done]. destruct Hc as [Co Cf Cok Cd]. cbn in *. split.
    + red. etrans; [exact Ho|exact Co].
    + done.
    + left. by rewrite Cf, Hf.
    + intros Hok. rewrite Cok, Cf; [done|]. by destruct r as [[]|].
    + intros k'. destruct (Cd k') as [->| ->].
      * destruct Hd as [->| ->]; [by left|].
        destruct (delete_case k k' (du s n) _ eq_refl) as [?|?]; auto.
      * rewrite Hf. destruct (delete_case k k' (fl s n) _ eq_refl) as [?|?]; auto.
  - intros i. split; [|intros ? [= <-]; by eexists]. split; cbn; try done.
    intros k'. destruct Hd as [->| ->]; [by left|].
      destruct (delete_case k k' (du s n) _ eq_refl) as [?|?]; auto.
Qed.

Lemma remove_blob_spec n k s :
  wp (remove_blob n k) (fun r t =>
    (fl s n !! k = None /\ quiet s t \/ unwritten n k s (is_ok r) t) /\
    (is_ok r = true -> fl t n !! k = None) /\ forall e, r = Err e -> is_io e) s.
Proof.
  unfold remove_blob. wp_step. apply wp_nvs. wp_use law_blob_len.
  intros [stored|e] w [Hv Ho].
  2: { intros i. split_and!; [right|done|intros ? [= <-]; by eexists].
       destruct (Hv n) as [Ef Ed]. split; cbn; rewrite ?Ef, ?Ed; auto; try done.
       by apply same_views_but. }
  rewrite (Ho _ eq_refl). destruct (fl s n !! k) as [b|] eqn:Hb; cbn [fmap option_fmap option_map].
  - wp_use remove_commit_spec. intros r t [Hu Hr].
    assert (Hu' : unwritten n k s (is_ok r) t).
    { destruct Hu as [Uo Us Uf Uok Ud]. destruct (Hv n) as [Ef Ed]. cbn in *.
      rewrite Ef, ?Ed in *. split; try done.
      etrans; [|exact Uo]. by apply same_views_but. }
    split_and!; [by right| |done]. intros Hok.
    destruct Hu' as [_ _ [->|[Hf _]] _ _]; [apply lookup_delete_eq|by rewrite Hok in Hf].
  - wp_step. split_and!; [by left|intros _|by intros ? [=]].
    cbn. by rewrite (proj1 (Hv n)).
Qed.
End Spec.
