(* ===== verification/FlashRecords.v ===== *)
(** * The namespaces as maps from logical keys to values

    [logical] reads a namespace as the store's callers do, by logical key;
    [finv] is the invariant every operation of [Flash.v] keeps: each blob of
    a Signal namespace is the encoding of a record under the name of its own
    key, in the limits, and each remembered session slot tells the truth. *)

From S2P Require Import Prelude Nvs Record SessionSlots Flash FlashSpec.
#[local] Set Default Proof Using "Type*".

(** What the callers of the store put in a namespace: the store's operations
    instantiate it with the shape of each namespace's keys and values. *)
Class Contents := content_ok : ns -> bytes -> bytes -> Prop.

Section Logical.
Context `{shaW : !Sha256, conW : !Contents}.
Implicit Types (m : gmap bytes bytes) (n : ns) (k v : bytes).

(** The value namespace contents [m] hold for logical key [k]. *)
Definition logical m k : option bytes :=
  match m !! record_name k with
  | Some r =>
      match decode_record r with
      | Ok (k', v) => if bool_decide (k' = k) then Some v else None
      | Err _ => None
      end
  | None => None
  end.

Definition record_wf n (name r : bytes) : Prop :=
  exists k v, r = record_bytes k v /\ name = record_name k /\
    len k <= MAX_LOGICAL_KEY_LEN /\ len v <= MAX_SIGNAL_RECORD_LEN /\ content_ok n k v.

Definition ns_wf n m : Prop := forall name r, m !! name = Some r -> record_wf n name r.

(** [l] lists the records of [m], each once. *)
Record lists m (l : list (bytes * bytes)) : Prop := {
  li_nodup : NoDup l.*1;
  li_elem : forall k v, (k, v) ∈ l <-> logical m k = Some v;
  li_len : len l = Z.of_nat (size m);
}.

Lemma record_wf_intro n k v :
  len k <= MAX_LOGICAL_KEY_LEN -> len v <= MAX_SIGNAL_RECORD_LEN -> content_ok n k v ->
  record_wf n (record_name k) (record_bytes k v).
Proof. intros. by exists k, v. Qed.

Lemma logical_Some n m k v :
  ns_wf n m ->
  logical m k = Some v <-> m !! record_name k = Some (record_bytes k v) /\
    len k <= MAX_LOGICAL_KEY_LEN /\ len v <= MAX_SIGNAL_RECORD_LEN /\ content_ok n k v.
Proof.
  intros Hwf. unfold logical. split.
  - destruct (m !! record_name k) as [r|] eqn:E; [|done].
    destruct (Hwf _ _ E) as (k' & v' & -> & Hn & Hk & Hv & Hc).
    rewrite decode_record_bytes by done. case_bool_decide; [|done]. intros [= <-]. by subst.
  - intros (-> & Hk & Hv & _). rewrite decode_record_bytes by done.
    by rewrite bool_decide_true.
Qed.

Lemma ns_wf_at n m k r :
  ns_wf n m -> m !! record_name k = Some r ->
  exists k' v, r = record_bytes k' v /\ record_name k' = record_name k /\
    decode_record r = Ok (k', v) /\
    len k' <= MAX_LOGICAL_KEY_LEN /\ len v <= MAX_SIGNAL_RECORD_LEN /\ content_ok n k' v.
Proof.
  intros Hwf E. destruct (Hwf _ _ E) as (k' & v & -> & Hn & Hk & Hv & Hc).
  exists k', v. split_and!; try done. by apply decode_record_bytes.
Qed.

Lemma logical_at m k k' v :
  m !! record_name k = Some (record_bytes k' v) -> len k' <= MAX_LOGICAL_KEY_LEN ->
  logical m k = if bool_decide (k' = k) then Some v else None.
Proof. intros E Hk. unfold logical. by rewrite E, decode_record_bytes. Qed.

Lemma logical_absent m k : m !! record_name k = None -> logical m k = None.
Proof. unfold logical. by intros ->. Qed.

Lemma logical_ext m m' k :
  m' !! record_name k = m !! record_name k -> logical m' k = logical m k.
Proof. unfold logical. by intros ->. Qed.

End Logical.

Lemma name_index_range d i : 0 <= i -> 0 <= name_index d i < 32.
Proof.
  intros Hi. set (b := i * 5 / 8). set (s := i * 5 mod 8).
  assert (Hs : 0 <= s < 8) by (apply Z.mod_pos_bound; lia).
  change (0 <= group_of_bytes s (Z_of_byte (byte_at d b)) (Z_of_byte (byte_at d (b + 1))) < 32).
  rewrite group_of_bytes_eq by (try done; apply Z_of_byte_range).
  apply Z.mod_pos_bound. lia.
Qed.

Lemma alphabet_no_nul i : 0 <= i < 32 -> byte_at ALPHABET i <> x00.
Proof.
  intros Hi. unfold byte_at. apply (Forall_nth (fun b => b <> x00)).
  - by apply (bool_decide_unpack _).
  - change (length ALPHABET) with 32%nat. lia.
Qed.

(** [CString::new] accepts every record name. *)
Lemma record_name_no_nul `{!Sha256} k : x00 ∉ record_name k.
Proof.
  unfold record_name. intros (i & Hi & _)%list_elem_of_In%in_map_iff.
  revert Hi. apply alphabet_no_nul, name_index_range. lia.
Qed.
#[export] Hint Resolve record_name_no_nul record_wf_intro : core.

(** ** The invariant *)

Section Inv.
Context {W : Type} `{nvsW : !Nvs W, shaW : !Sha256, conW : !Contents}.
Implicit Types (s t : fstate W) (n : ns) (k v : bytes).


(** A remembered slot names a record of the sessions namespace that holds
    the remembered key. *)
Definition slot_true (m : gmap bytes bytes) (slot : bytes * bytes) : Prop :=
  slot.1 = record_name slot.2 /\ len slot.2 <= MAX_LOGICAL_KEY_LEN /\
  exists v, m !! slot.1 = Some (record_bytes slot.2 v).

Record finv s : Prop := {
  fi_flash : forall n, n ∈ signal_namespaces -> ns_wf n (fl s n);
  fi_durable : forall n, n ∈ signal_namespaces -> ns_wf n (du s n);
  fi_slots : SessionSlots.wf (fs_slots s);
  fi_true : Forall (slot_true (fl s NsSessions)) (fs_slots s);
}.

Lemma finv_unchanged s t :
  finv s -> unchanged s t -> SessionSlots.wf (fs_slots t) ->
  Forall (slot_true (fl s NsSessions)) (fs_slots t) -> finv t.
Proof.
  intros [If Id _ _] Hu Hs Ht. split; [| |done|].
  - intros n Hn. rewrite (unchanged_flash n s t Hu). auto.
  - intros n Hn. rewrite (unchanged_durable n s t Hu). auto.
  - by rewrite (unchanged_flash _ s t Hu).
Qed.

Lemma finv_quiet s t : finv s -> quiet s t -> finv t.
Proof.
  intros Hi [Hv Hs]. apply (finv_unchanged s); rewrite ?Hs; try done; apply Hi.
Qed.

(** A step confined to a namespace outside the Signal ones. *)
Lemma finv_outside n s t :
  finv s -> only n s t -> n ∉ signal_namespaces -> fs_slots t = fs_slots s -> finv t.
Proof.
  intros [If Id Is It] Ho Hn Hs.
  assert (Hne : forall n', n' ∈ signal_namespaces -> n' <> n) by (by intros ? ? ->).
  split; rewrite ?Hs; [| |done|].
  - intros n' Hn'. rewrite (only_flash n n' s t) by auto. auto.
  - intros n' Hn'. rewrite (only_durable n n' s t) by auto. auto.
  - rewrite (only_flash n _ s t); [done..|]. apply Hne. unfold signal_namespaces. set_solver.
Qed.

(** A step confined to a Signal namespace. *)
Lemma finv_inside n s t :
  finv s -> only n s t -> ns_wf n (fl t n) -> ns_wf n (du t n) ->
  SessionSlots.wf (fs_slots t) ->
  Forall (slot_true (fl t NsSessions)) (fs_slots t) -> finv t.
Proof.
  intros [If Id Is It] Ho Hf Hd Hs Ht. split; [| |done..].
  - intros n' Hn'. destruct (decide (n' = n)) as [->|Hne]; [done|].
    rewrite (only_flash n n' s t) by done. auto.
  - intros n' Hn'. destruct (decide (n' = n)) as [->|Hne]; [done|].
    rewrite (only_durable n n' s t) by done. auto.
Qed.
End Inv.

(** ** Reading *)

Section Read.
Context {W : Type} `{nvsW : !Nvs W, lawsW : !NvsLaws W, shaW : !Sha256, conW : !Contents}.
Implicit Types (s t : fstate W) (n : ns) (k v : bytes).

Lemma max_record_signal k v max :
  len k <= MAX_LOGICAL_KEY_LEN -> len v <= max ->
  len (record_bytes k v) <= max_record_len max.
Proof. intros. unfold max_record_len, RECORD_HEADER_LEN. len_lia. Qed.

(** A limit the values of [n] respect: the length limit of every record, or
    a tighter one that its contents imply. *)
Definition limit_ok n (max : Z) : Prop :=
  max = MAX_SIGNAL_RECORD_LEN \/ forall k v, content_ok n k v -> len v <= max.

Lemma limit_ok_len n max k v :
  limit_ok n max -> len v <= MAX_SIGNAL_RECORD_LEN -> content_ok n k v -> len v <= max.
Proof. intros [->|H] Hv Hc; [done|]. by eapply H. Qed.

(** In a Signal namespace every blob is readable. *)
Lemma read_signal_blob n name max s :
  ns_wf n (fl s n) -> limit_ok n max ->
  wp (read_blob n name (max_record_len max)) (fun r t => quiet s t /\
    match r with Ok o => o = fl s n !! name | Err e => is_io e end) s.
Proof.
  intros Hwf Hl. wp_use read_blob_spec. intros [o|e] t [Hq Hr]; (split; [done|]).
  - apply Hr.
  - destruct Hr as [?|(b & Hb & Hlen & _)]; [done|].
    destruct (Hwf _ _ Hb) as (k & v & -> & _ & Hk & Hv & Hc).
    pose proof (max_record_signal k v max Hk (limit_ok_len _ _ _ _ Hl Hv Hc)). lia.
Qed.

Lemma remember_session_slot_spec n k v s :
  finv s -> fl s n !! record_name k = Some (record_bytes k v) -> len k <= MAX_LOGICAL_KEY_LEN ->
  wp (remember_session_slot n (record_name k) k) (fun r t => r = Ok tt /\ unchanged s t /\ finv t) s.
Proof.
  intros Hi Hf Hk. unfold remember_session_slot, set_slots. case_bool_decide as Hn; [|by wp_step].
  wp_step. split_and!; [done|done|]. apply (finv_unchanged s); [done..| |].
  - apply SessionSlots.remember_wf, Hi.
  - apply Forall_forall. intros slot [->|Hin]%SessionSlots.remember_inv.
    + split_and!; [done|done|]. exists v. cbn. by rewrite <- Hn.
    + pose proof (fi_true _ Hi) as Ht. rewrite Forall_forall in Ht. auto.
Qed.

(** The payload [load_record] moves to the front of its buffer. *)
Lemma payload_of_record k v :
  ztake (len v) (zdrop (len (record_bytes k v) - len v) (record_bytes k v)) = v.
Proof.
  unfold record_bytes. rewrite !app_assoc. rewrite zdrop_app by len_lia. by apply ztake_all.
Qed.

Lemma load_record_spec n k max s :
  finv s -> n ∈ signal_namespaces -> limit_ok n max ->
  wp (load_record n k max) (fun r t => unchanged s t /\ finv t /\
    match r with Ok o => o = logical (fl s n) k | Err e => is_io e end) s.
Proof.
  intros Hi Hn Hl. pose proof (fi_flash _ Hi n Hn) as Hwf.
  unfold load_record. wp_step. wp_use read_signal_blob; [done..|].
  intros [o|e] t [Hq Ho]; [|split_and!; [apply Hq|by eapply finv_quiet|done]]. subst o.
  assert (Hit : finv t) by by eapply finv_quiet.
  destruct (fl s n !! record_name k) as [r|] eqn:E.
  2: { wp_step. split_and!; [apply Hq|done|]. by rewrite logical_absent. }
  destruct (ns_wf_at _ _ _ _ Hwf E) as (k' & v & -> & Hnm & -> & Hk & Hv & Hc).
  wp_steps. rewrite (logical_at _ _ _ _ E) by done.
  case_bool_decide as Hkk; cbn [negb]; [subst k'|wp_step; by split_and!; [apply Hq| |]].
  pose proof (limit_ok_len _ _ _ _ Hl Hv Hc). zcase. wp_step.
  assert (Ht : fl t n = fl s n) by (apply unchanged_flash, Hq).
  wp_use (remember_session_slot_spec n k v); [done|by rewrite Ht|done|].
  intros r u (-> & Hu & Hiu). wp_step. split_and!; [|done|].
  - etrans; [apply Hq|done].
  - by rewrite payload_of_record.
Qed.

(** ** The slot check, with and without the cache *)

(** What the check answers from the namespace's contents alone. *)
Definition slot_verdict (m : gmap bytes bytes) k (value_len : Z) (label : string) (max_entries : Z)
    : result StoreError bytes :=
  if value_len >? MAX_SIGNAL_RECORD_LEN then Err (Validation (ValueTooLarge label value_len))
  else if len k >? MAX_LOGICAL_KEY_LEN then Err (Validation (KeyTooLong (len k)))
  else match m !! record_name k with
       | Some r =>
           match decode_record r with
           | Ok (k', _) =>
               if bool_decide (k' = k) then Ok (record_name k)
               else Err (Validation (KeyCollision label (record_name k)))
           | Err e => Err e
           end
       | None =>
           if Z.of_nat (size m) >=? max_entries then Err (Validation (LimitReached label max_entries))
           else Ok (record_name k)
       end.

Lemma slot_cache_verdict s k b :
  finv s -> SessionSlots.matches (record_name k) k (fs_slots s) = Some b ->
  exists k' v, fl s NsSessions !! record_name k = Some (record_bytes k' v) /\
    len k' <= MAX_LOGICAL_KEY_LEN /\ b = bool_decide (k' = k).
Proof.
  intros Hi (k' & Hin & ->)%SessionSlots.matches_Some.
  pose proof (fi_true _ Hi) as Ht. rewrite Forall_forall in Ht.
  destruct (Ht _ Hin) as (_ & Hk & v & Hv). by exists k', v.
Qed.

Lemma check_uncached n k l label max s :
  finv s -> n ∈ signal_namespaces -> l <= MAX_SIGNAL_RECORD_LEN -> len k <= MAX_LOGICAL_KEY_LEN ->
  wp (let* existing := read_blob n (record_name k) (max_record_len MAX_SIGNAL_RECORD_LEN) in
      match existing with
      | Some existing =>
          let* (stored_key, _) := lift (decode_record existing) in
          if negb (bool_decide (stored_key = k)) then
            fail (Validation (KeyCollision label (record_name k)))
          else
            remember_session_slot n (record_name k) k ;;;
            ret (record_name k)
      | None =>
          let* count := record_count n in
          let* _ := lift (ensure_insert_capacity false count max label) in
          ret (record_name k)
      end) (fun r t => unchanged s t /\ finv t /\
    (r = slot_verdict (fl s n) k l label max \/ exists e, r = Err e /\ is_io e)) s.
Proof.
  intros Hi Hn Hl Hlk. pose proof (fi_flash _ Hi n Hn) as Hwf.
  wp_step. wp_use read_signal_blob; [done|by left|].
  intros [o|e] t [Hq Ho].
  2: { split_and!; [apply Hq|by eapply finv_quiet|]. right. by eexists. }
  subst o. assert (Hit : finv t) by by eapply finv_quiet.
  assert (Ht : fl t n = fl s n) by (apply unchanged_flash, Hq).
  unfold slot_verdict. zcase. zcase.
  destruct (fl s n !! record_name k) as [r|] eqn:E.
  - destruct (ns_wf_at _ _ _ _ Hwf E) as (k' & v & -> & Hnm & -> & Hk & Hv & Hc). wp_steps.
    case_bool_decide as Hkk; cbn [negb].
    + subst k'. wp_step. wp_use (remember_session_slot_spec n k v); [done|by rewrite Ht|done|].
      intros r u (-> & Hu & Hiu). wp_step. split_and!; [|done|by left]. etrans; [apply Hq|done].
    + wp_step. split_and!; [apply Hq|done|by left].
  - wp_step. wp_use record_count_spec. intros [c|e] u [Hqu Hc].
    2: { split_and!; [etrans; [apply Hq|apply Hqu]|by eapply finv_quiet|right; by eexists]. }
    subst c. rewrite Ht. wp_steps. unfold ensure_insert_capacity. cbn [negb andb].
    assert (unchanged s u) by (etrans; [apply Hq|apply Hqu]).
    assert (finv u) by by eapply finv_quiet.
    zcase; [|wp_step]; by split_and!; [| |left].
Qed.

Lemma check_record_slot_spec n k l label max s :
  finv s -> n ∈ signal_namespaces ->
  wp (check_record_slot n k l label max) (fun r t => unchanged s t /\ finv t /\
    (r = slot_verdict (fl s n) k l label max \/ exists e, r = Err e /\ is_io e)) s.
Proof.
  intros Hi Hn. unfold check_record_slot.
  destruct (l >? MAX_SIGNAL_RECORD_LEN) eqn:Hl.
  { wp_step. split_and!; [done..|]. left. unfold slot_verdict. by rewrite Hl. }
  destruct (len k >? MAX_LOGICAL_KEY_LEN) eqn:Hk.
  { wp_step. split_and!; [done..|]. left. unfold slot_verdict. by rewrite Hl, Hk. }
  rewrite Z.gtb_ltb, Z.ltb_ge in Hl, Hk. wp_step.
  case_bool_decide as Hns; [|wp_step; by apply check_uncached].
  unfold slots, wp at 1.
  destruct (SessionSlots.matches _ _ _) as [b|] eqn:Em; [|by apply check_uncached].
  destruct (slot_cache_verdict _ _ _ Hi Em) as (k' & v & E & Hk' & ->).
  unfold slot_verdict. zcase. zcase. subst n. rewrite E, decode_record_bytes by done.
  case_bool_decide; cbn [negb]; wp_step; by split_and!; [| |left].
Qed.
End Read.

(** ** Writing *)

Section Write.
Context {W : Type} `{nvsW : !Nvs W, lawsW : !NvsLaws W, shaW : !Sha256, conW : !Contents}.
Implicit Types (s t : fstate W) (n : ns) (k v : bytes).

Lemma encode_record_spec k v s :
  len k <= MAX_LOGICAL_KEY_LEN -> len v <= MAX_SIGNAL_RECORD_LEN ->
  wp (encode_record reserve k v) (fun r t => quiet s t /\
    match r with Ok b => b = record_bytes k v | Err e => is_io e end) s.
Proof.
  intros Hk Hv. unfold encode_record. zcase.
  unfold MAX_LOGICAL_KEY_LEN, MAX_SIGNAL_RECORD_LEN, RECORD_HEADER_LEN in *.
  assert (fits 32 (5 + len k + len v) = true) as ->.
  { unfold fits. pose proof (len_nonneg k). pose proof (len_nonneg v).
    change (2 ^ 32) with 4294967296. repeat zcase. done. }
  cbn [negb]. wp_step. wp_use reserve_spec. intros [u|e] t [Hq Hr].
  - by wp_step.
  - split; [done|]. by apply Hr.
Qed.

(** What a positive verdict says about the slot. *)
Lemma slot_verdict_ok n m k l label max name :
  ns_wf n m -> slot_verdict m k l label max = Ok name ->
  name = record_name k /\ l <= MAX_SIGNAL_RECORD_LEN /\ len k <= MAX_LOGICAL_KEY_LEN /\
  ((m !! name = None /\ Z.of_nat (size m) < max) \/
   exists v, m !! name = Some (record_bytes k v)).
Proof.
  intros Hwf. unfold slot_verdict. zcase; [done|]. zcase; [done|].
  destruct (m !! record_name k) as [r|] eqn:E.
  - destruct (ns_wf_at _ _ _ _ Hwf E) as (k' & v & -> & _ & -> & _).
    case_bool_decide; [|done]. intros [= <-]. subst k'. rewrite E. split_and!; [done..|]. right. by exists v.
  - zcase; [done|]. intros [= <-]. rewrite E. split_and!; [done..|]. by left.
Qed.

Lemma slot_verdict_validation n m k l label max e :
  slot_verdict m k l label max = Err e -> ns_wf n m -> ~ is_io e.
Proof.
  unfold slot_verdict. intros H Hwf [i ->]. revert H.
  zcase; [done|]. zcase; [done|].
  destruct (m !! record_name k) as [r|] eqn:E; [|by zcase].
  destruct (ns_wf_at _ _ _ _ Hwf E) as (k' & v & -> & _ & -> & _). by case_bool_decide.
Qed.

(** The contents of a namespace after storing [v] under [k]'s name. *)
Lemma ns_wf_written n k v s ok t :
  ns_wf n (fl s n) -> ns_wf n (du s n) -> record_wf n (record_name k) v ->
  written n (record_name k) v s ok t -> ns_wf n (fl t n) /\ ns_wf n (du t n).
Proof.
  intros Hf Hd Hv [_ _ Wf _ Wd]. split; intros name r Hr.
  - destruct Wf as [Wf|[_ Wf]]; rewrite Wf in Hr; [|by apply Hf].
    apply lookup_insert_Some in Hr as [[<- <-]|[_ Hr]]; [done|by apply Hf].
  - destruct (Wd name) as [E|[E|[-> E]]]; rewrite E in Hr; [by apply Hd|by apply Hf|].
    by simplify_eq.
Qed.

Record put_post n k v label max s (r : result StoreError unit) t : Prop := {
  pp_inv : finv t;
  pp_only : only n s t;
  pp_other k' : k' <> k -> logical (fl t n) k' = logical (fl s n) k';
  pp_ok : r = Ok tt -> logical (fl t n) k = Some v /\ du t n = fl t n;
  pp_err e : r = Err e -> logical (fl t n) k = logical (fl s n) k \/
    (is_io e /\ logical (fl t n) k = Some v);
  pp_refused x : r = Err (Validation x) ->
    unchanged s t /\ slot_verdict (fl s n) k (len v) label max = Err (Validation x);
  pp_verdict : r = Ok tt -> is_ok (slot_verdict (fl s n) k (len v) label max) = true;
  pp_size : Z.of_nat (size (fl s n)) <= max -> Z.of_nat (size (fl t n)) <= max;
}.

Lemma put_post_unchanged n k v label max s e t :
  unchanged s t -> finv t ->
  (forall x, e = Validation x -> slot_verdict (fl s n) k (len v) label max = Err e) ->
  put_post n k v label max s (Err e) t.
Proof.
  intros Hu Hi Hx. pose proof (unchanged_flash n s t Hu) as Hf.
  split; rewrite ?Hf; try done; [by apply unchanged_only|auto|].
  intros x [= ->]. split; [done|]. by eapply Hx.
Qed.

Lemma logical_written n k v s ok t :
  written n (record_name k) (record_bytes k v) s ok t -> len k <= MAX_LOGICAL_KEY_LEN ->
  (fl s n !! record_name k = None \/ exists v0, fl s n !! record_name k = Some (record_bytes k v0)) ->
  (forall k', k' <> k -> logical (fl t n) k' = logical (fl s n) k') /\
  (logical (fl t n) k = Some v \/ ok = false /\ logical (fl t n) k = logical (fl s n) k).
Proof.
  intros [_ _ Wf _ _] Hk Hs. destruct Wf as [Wf|[-> Wf]]; rewrite Wf; [|by auto].
  split.
  - intros k' Hne. destruct (decide (record_name k' = record_name k)) as [E|E].
    + rewrite (logical_at _ _ k v) by (try done; by rewrite E, lookup_insert_eq).
      rewrite bool_decide_false by done. symmetry.
      destruct Hs as [Hs|[v0 Hs]]; rewrite <- E in Hs; [by apply logical_absent|].
      rewrite (logical_at _ _ _ _ Hs) by done. by rewrite bool_decide_false.
    + apply logical_ext. by rewrite lookup_insert_ne.
  - left. rewrite (logical_at _ _ k v) by (try done; by rewrite lookup_insert_eq).
    by rewrite bool_decide_true.
Qed.

Lemma size_written n name v s ok t max :
  written n name v s ok t ->
  (fl s n !! name = None /\ Z.of_nat (size (fl s n)) < max) \/ is_Some (fl s n !! name) ->
  Z.of_nat (size (fl s n)) <= max -> Z.of_nat (size (fl t n)) <= max.
Proof.
  intros [_ _ Wf _ _] Hs Hm. destruct Wf as [->|[_ ->]]; [|done].
  destruct Hs as [[Hs Hl]|Hs].
  - rewrite map_size_insert_None by done. lia.
  - by rewrite map_size_insert_Some.
Qed.

Lemma slots_true_written n k v s ok t :
  Forall (slot_true (fl s NsSessions)) (fs_slots s) ->
  written n (record_name k) (record_bytes k v) s ok t ->
  (fl s n !! record_name k = None \/ exists v0, fl s n !! record_name k = Some (record_bytes k v0)) ->
  len k <= MAX_LOGICAL_KEY_LEN ->
  Forall (slot_true (fl t NsSessions)) (fs_slots t).
Proof.
  intros Ht [Wo -> Wf _ _] Hs Hk. destruct (decide (NsSessions = n)) as [<-|Hne].
  - eapply Forall_impl; [exact Ht|]. intros [name k'] (Hn & Hk' & v' & Hv'). cbn in *.
    split_and!; [done..|]. cbn. destruct Wf as [->|[_ ->]]; [|by eauto].
    destruct (decide (name = record_name k)) as [->|Hne]; [|rewrite lookup_insert_ne by done; eauto].
    rewrite lookup_insert_eq. exists v. f_equal. f_equal.
    destruct Hs as [Hs|[v0 Hs]]; rewrite Hs in Hv'; [done|].
    assert (E : record_bytes k v0 = record_bytes k' v') by congruence.
    by apply record_bytes_inj in E as [-> _].
  - by rewrite (only_flash n _ s t).
Qed.

(** Checking the slot and building the record change nothing. *)
Lemma prepare_record_spec n k v label max s :
  finv s -> n ∈ signal_namespaces ->
  wp (prepare_record n k v label max) (fun r t => unchanged s t /\ finv t /\
    match r with
    | Ok (name, b) => name = record_name k /\ b = record_bytes k v /\
        slot_verdict (fl s n) k (len v) label max = Ok name
    | Err e => forall x, e = Validation x -> slot_verdict (fl s n) k (len v) label max = Err e
    end) s.
Proof.
  intros Hi Hn. unfold prepare_record. wp_step.
  wp_use check_record_slot_spec; [done..|]. intros r t (Hu & Hit & Hr).
  pose proof (fi_flash _ Hi n Hn) as Hwf.
  destruct r as [name|e].
  2: { split_and!; [done..|]. intros x ->. destruct Hr as [Hr|(e & [= <-] & [i [=]])]. done. }
  destruct Hr as [Hr|(e & [=] & _)]. symmetry in Hr.
  destruct (slot_verdict_ok _ _ _ _ _ _ _ Hwf Hr) as (-> & Hv & Hk & _).
  wp_step. wp_use encode_record_spec; [done..|]. intros [b|e] u [Hq Hb].
  - wp_step. split_and!; [|by eapply finv_quiet|done..]. etrans; [done|apply Hq].
  - split_and!; [|by eapply finv_quiet|].
    + etrans; [done|apply Hq].
    + intros x ->. by destruct Hb.
Qed.

(** Writing a record whose slot was checked. *)
Lemma set_record_spec n k v label max s u :
  finv u -> n ∈ signal_namespaces -> content_ok n k v -> unchanged s u ->
  slot_verdict (fl s n) k (len v) label max = Ok (record_name k) ->
  wp (set_blob n (record_name k) (record_bytes k v)) (put_post n k v label max s) u.
Proof.
  intros Hiu Hn Hcon Hsu Hr. pose proof (unchanged_flash n s u Hsu) as Hfu.
  pose proof (fi_flash _ Hiu n Hn) as Hwf. rewrite <- Hfu in Hr.
  destruct (slot_verdict_ok _ _ _ _ _ _ _ Hwf Hr) as (_ & Hv & Hk & Hslot).
  wp_use set_blob_spec; [auto|]. intros r w [Hw Hio].
  assert (Hslot' : fl u n !! record_name k = None \/
    exists v0, fl u n !! record_name k = Some (record_bytes k v0)) by (destruct Hslot as [[]|]; auto).
  destruct (logical_written _ _ _ _ _ _ Hw Hk Hslot') as [Hoth Hown].
  destruct (ns_wf_written _ _ _ _ _ _ (fi_flash _ Hiu _ Hn) (fi_durable _ Hiu _ Hn)
    (record_wf_intro n k v Hk Hv Hcon) Hw) as [Hwf' Hwd'].
  split; rewrite <- ?Hfu.
  - apply (finv_inside n u); try done; [apply Hw| |by eapply slots_true_written; eauto; apply Hiu].
    rewrite (wr_slots _ _ _ _ _ _ Hw). apply Hiu.
  - etrans; [by apply unchanged_only|apply Hw].
  - done.
  - intros ->. destruct Hown as [Hown|[[=] _]]. split; [done|]. by apply (wr_ok _ _ _ _ _ _ Hw).
  - intros e ->. destruct Hown as [Hown|[_ Hown]]; [right|by left]. split; [by apply Hio|done].
  - intros x ->. by destruct (Hio _ eq_refl).
  - intros _. by rewrite Hr.
  - eapply size_written; [done|]. destruct Hslot as [?|[v0 Hv0]]; [by left|right; by eexists].
Qed.

Lemma put_record_spec n k v label max s :
  finv s -> n ∈ signal_namespaces -> content_ok n k v ->
  wp (put_record n k v label max) (put_post n k v label max s) s.
Proof.
  intros Hi Hn Hcon. unfold put_record. wp_step.
  wp_use prepare_record_spec; [done..|]. intros [[name b]|e] t (Hu & Hit & Hr).
  - destruct Hr as (-> & -> & Hr). by apply set_record_spec.
  - by apply put_post_unchanged.
Qed.

(** Deleting. *)
Record delete_post n k s (r : result StoreError unit) t : Prop := {
  dp_inv : finv t;
  dp_only : only n s t;
  dp_other k' : k' <> k -> logical (fl t n) k' = logical (fl s n) k';
  dp_ok : r = Ok tt -> logical (fl t n) k = None /\ (du s n = fl s n -> du t n = fl t n);
  dp_err e : r = Err e -> logical (fl t n) k = logical (fl s n) k \/
    (is_io e /\ logical (fl t n) k = None);
  dp_absent : fl s n !! record_name k = None -> unchanged s t;
  dp_size : (size (fl t n) <= size (fl s n))%nat;
  dp_slots : n = NsSessions -> fs_slots t = [];
}.

Lemma logical_unwritten n k s ok t v0 :
  unwritten n (record_name k) s ok t -> fl s n !! record_name k = Some (record_bytes k v0) ->
  len k <= MAX_LOGICAL_KEY_LEN ->
  (forall k', k' <> k -> logical (fl t n) k' = logical (fl s n) k') /\
  (logical (fl t n) k = None \/ ok = false /\ logical (fl t n) k = logical (fl s n) k).
Proof.
  intros [_ _ Uf _ _] Hs Hk. destruct Uf as [Uf|[-> Uf]]; rewrite Uf; [|by auto]. split.
  - intros k' Hne. destruct (decide (record_name k' = record_name k)) as [E|E].
    + rewrite logical_absent by by rewrite E, lookup_delete_eq.
      rewrite <- E in Hs. by rewrite (logical_at _ _ _ _ Hs), bool_decide_false.
    + apply logical_ext. by rewrite lookup_delete_ne.
  - left. apply logical_absent. by rewrite lookup_delete_eq.
Qed.

Lemma ns_wf_unwritten n k s ok t :
  ns_wf n (fl s n) -> ns_wf n (du s n) -> unwritten n k s ok t ->
  ns_wf n (fl t n) /\ ns_wf n (du t n).
Proof.
  intros Hf Hd [_ _ Uf _ Ud]. split; intros name r Hr.
  - destruct Uf as [Uf|[_ Uf]]; rewrite Uf in Hr; [|by apply Hf].
    apply lookup_delete_Some in Hr as [_ Hr]. by apply Hf.
  - destruct (Ud name) as [E|[E|[-> E]]]; rewrite E in Hr; [by apply Hd|by apply Hf|done].
Qed.

Lemma finv_clear s : finv s -> finv (FState (fs_nvs s) (SessionSlots.clear (fs_slots s))).
Proof. intros [If Id Is It]. split; cbn; auto using SessionSlots.wf_new. Qed.

(** The slots the deletion of a record of [n] starts from. *)
Lemma clear_sessions_slots n s :
  finv s ->
  wp (if bool_decide (n = NsSessions) then set_slots SessionSlots.clear else ret tt)
    (fun r t => r = Ok tt /\ finv t /\ fs_nvs t = fs_nvs s /\
      (n = NsSessions -> fs_slots t = [])) s.
Proof.
  intros Hi. case_bool_decide as Hn; [|by wp_step].
  unfold set_slots. wp_step. split_and!; [done|by apply finv_clear|done|done].
Qed.

Lemma delete_record_spec n k label s :
  finv s -> n ∈ signal_namespaces ->
  wp (delete_record n k label) (delete_post n k s) s.
Proof.
  intros Hi Hn. unfold delete_record. wp_step.
  wp_use clear_sessions_slots; [done|]. intros r0 t0 (-> & Hi0 & Hnv & Hsl).
  pose proof (fi_flash _ Hi0 n Hn) as Hwf.
  assert (Hunch : forall t r, quiet t0 t ->
    (forall e, r = Err e -> True) -> (r = Ok tt -> logical (fl s n) k = None) ->
    delete_post n k s r t).
  { intros t r Hq _ Hr. assert (Hu : unchanged s t) by (red; rewrite <- Hnv; apply Hq).
    pose proof (unchanged_flash n s t Hu) as Hf. pose proof (unchanged_durable n s t Hu) as Hd.
    split; rewrite ?Hf, ?Hd; auto; try done.
    - by eapply finv_quiet.
    - by apply unchanged_only.
    - intros Hs. rewrite (proj2 Hq). auto. }
  wp_step. wp_use read_signal_blob; [done|by left|]. intros [o|e] t [Hq Ho]; [|by apply Hunch].
  subst o. rewrite Hnv in Hwf |- *. destruct (fl s n !! record_name k) as [r|] eqn:E.
  2: { wp_step. apply Hunch; [done..|]. intros _. by apply logical_absent. }
  destruct (ns_wf_at _ _ _ _ Hwf E) as (k' & v & -> & Hnm & -> & Hk & Hv & Hc). wp_steps.
  case_bool_decide as Hkk; cbn [negb]; [|wp_step; by apply Hunch]. subst k'.
  wp_use remove_commit_spec. intros r u [Hw Hio].
  assert (Hit : finv t) by by eapply finv_quiet.
  assert (Hut : unchanged s t) by (red; rewrite <- Hnv; apply Hq).
  pose proof (unchanged_flash n s t Hut) as Hf. rewrite <- Hf in E.
  destruct (logical_unwritten _ _ _ _ _ _ Hw E Hk) as [Hoth Hown].
  destruct (ns_wf_unwritten _ _ _ _ _ (fi_flash _ Hit _ Hn) (fi_durable _ Hit _ Hn) Hw) as [Hwf' Hwd'].
  assert (Hslots : n = NsSessions -> fs_slots u = []).
  { intros Hs. rewrite (uw_slots _ _ _ _ _ Hw), (proj2 Hq). auto. }
  split; rewrite <- ?Hf; try done.
  - apply (finv_inside n t); try done; [apply Hw|rewrite (uw_slots _ _ _ _ _ Hw); apply Hit|].
    destruct (decide (NsSessions = n)) as [<-|Hne]; [by rewrite Hslots|].
    rewrite (only_flash n _ t u) by (try done; apply Hw).
    rewrite (uw_slots _ _ _ _ _ Hw). apply Hit.
  - etrans; [by apply unchanged_only|apply Hw].
  - intros ->. destruct Hown as [Hown|[[=] _]]. split; [done|]. intros _. by apply (uw_ok _ _ _ _ _ Hw).
  - intros e ->. destruct Hown as [Hown|[_ Hown]]; [right|by left]. split; [by apply Hio|done].
  - by rewrite E.
  - destruct (uw_flash _ _ _ _ _ Hw) as [->|[_ ->]]; [|done].
    rewrite map_size_delete, E. cbn. lia.
Qed.
End Write.
