(* ===== verification/FlashBoot.v ===== *)
(** * Walking, erasing and resetting the partition

    The boot-time walks list a namespace's records, each once; an erasure
    that reports success left its namespace empty for readers and for a
    reboot; a factory reset is all or nothing across a power loss, because
    its marker is written first and removed last. *)

From S2P Require Import Prelude RustStr Nvs Record SessionSlots Flash FlashSpec FlashRecords.
#[local] Set Default Proof Using "Type*".

Section Walk.
Context {W : Type} `{nvsW : !Nvs W, lawsW : !NvsLaws W, shaW : !Sha256, conW : !Contents}.
Implicit Types (s t : fstate W) (n : ns) (k v : bytes).

(** The record a name stands for. *)
Definition stored_as (m : gmap bytes bytes) (name : bytes) (kv : bytes * bytes) : Prop :=
  m !! name = Some (record_bytes kv.1 kv.2) /\ name = record_name kv.1.

Lemma stored_logical n m name kv :
  ns_wf n m -> stored_as m name kv -> len kv.1 <= MAX_LOGICAL_KEY_LEN ->
  logical m kv.1 = Some kv.2.
Proof.
  intros Hwf [E ->] Hk. rewrite (logical_at _ _ _ _ E) by done. by rewrite bool_decide_true.
Qed.

Lemma read_record_spec n label max name s :
  ns_wf n (fl s n) -> limit_ok n max -> is_Some (fl s n !! name) ->
  wp (read_record n label max name) (fun r t => quiet s t /\
    match r with
    | Ok kv => stored_as (fl s n) name kv /\ len kv.1 <= MAX_LOGICAL_KEY_LEN
    | Err e => is_io e
    end) s.
Proof.
  intros Hwf Hl [r E]. unfold read_record. wp_step.
  wp_use read_signal_blob; [done..|]. intros [o|e] t [Hq Ho]; [|done]. subst o. rewrite E.
  destruct (Hwf _ _ E) as (k & v & -> & -> & Hk & Hv & Hc).
  rewrite decode_record_bytes by done. wp_steps. rewrite bool_decide_true by done. cbn [negb].
  pose proof (limit_ok_len _ _ _ _ Hl Hv Hc). zcase. by wp_step.
Qed.

Lemma read_records_spec n label max names s :
  ns_wf n (fl s n) -> limit_ok n max -> Forall (fun name => is_Some (fl s n !! name)) names ->
  wp (read_records n label max names) (fun r t => quiet s t /\
    match r with
    | Ok l => Forall2 (stored_as (fl s n)) names l /\ Forall (fun kv => len kv.1 <= MAX_LOGICAL_KEY_LEN) l
    | Err e => is_io e
    end) s.
Proof.
  intros Hwf Hl Hn. revert s Hwf Hn. induction names as [|name names IH]; intros s Hwf Hn; cbn [read_records].
  - wp_step. by repeat constructor.
  - apply Forall_cons in Hn as [Hname Hn]. wp_step. wp_use read_record_spec; [done..|].
    intros [kv|e] t [Hq Hkv]; [|done]. wp_step.
    assert (Hf : fl t n = fl s n) by (apply unchanged_flash, Hq).
    wp_use IH; [by rewrite Hf..|]. rewrite Hf. intros [l|e] u [Hq' Hr].
    + wp_step. split; [by etrans|]. destruct Hkv, Hr. split; by constructor.
    + split; [by etrans|done].
Qed.

(** A walk over the names of a well-formed namespace lists its records. *)
Lemma lists_of_names n m names l :
  ns_wf n m -> names ≡ₚ (map_to_list m).*1 ->
  Forall2 (stored_as m) names l -> Forall (fun kv => len kv.1 <= MAX_LOGICAL_KEY_LEN) l ->
  lists m l.
Proof.
  intros Hwf Hp Hs Hk. rewrite Forall_forall in Hk.
  assert (Hnm : names = record_name <$> l.*1).
  { clear Hp Hk. induction Hs as [|name kv names l [_ E] _ IH]; [done|]. cbn. by rewrite <- E, <- IH. }
  assert (Hnd : NoDup names) by (rewrite Hp; apply NoDup_fst_map_to_list).
  rewrite Hnm in Hnd. split.
  - by eapply NoDup_fmap_1.
  - intros k v. split.
    + intros Hin. pose proof (Hk _ Hin). apply (Forall2_elem_r _ _ _ _ Hs) in Hin as (name & _ & Hst).
      by apply (stored_logical n m name (k, v)).
    + intros Hlog. apply (logical_Some n) in Hlog as (E & Hlk & _); [|done].
      assert (Hin : record_name k ∈ names).
      { rewrite Hp. apply list_elem_of_fmap. exists (record_name k, record_bytes k v).
        split; [done|]. by apply elem_of_map_to_list. }
      destruct (Forall2_elem_l _ _ _ _ Hs Hin) as ([k' v'] & Hin' & [E' Hn']).
      cbn in *. rewrite E in E'. assert (Hb : record_bytes k v = record_bytes k' v') by congruence.
      pose proof (Hk _ Hin') as Hk'. cbn in Hk'.
      by apply record_bytes_inj in Hb as [-> ->].
  - rewrite <- (len_names m names Hp), Hnm. by rewrite !len_fmap.
Qed.

Lemma names_present (m : gmap bytes bytes) names :
  names ≡ₚ (map_to_list m).*1 -> Forall (fun name => is_Some (m !! name)) names.
Proof.
  intros Hp. apply Forall_forall. intros name. rewrite Hp.
  intros ([k r] & -> & Hin)%list_elem_of_fmap. apply elem_of_map_to_list in Hin. by eexists.
Qed.

Lemma load_records_spec n label max_entries max s :
  ns_wf n (fl s n) -> limit_ok n max ->
  wp (load_records n label max_entries max) (fun r t => quiet s t /\
    match r with
    | Ok l => lists (fl s n) l
    | Err e => is_io e \/ Z.of_nat (size (fl s n)) > max_entries
    end) s.
Proof.
  intros Hwf Hl. unfold load_records. wp_step. wp_use record_names_spec.
  intros [names|e] t [Hq Hp]; [|by auto]. zcase.
  { wp_step. split; [done|]. right. rewrite <- (len_names _ _ Hp). lia. }
  assert (Hf : fl t n = fl s n) by (apply unchanged_flash, Hq).
  wp_use read_records_spec; [by rewrite Hf|done|rewrite Hf; by apply names_present|].
  rewrite Hf. intros [l|e] u [Hq' Hr]; (split; [by etrans|]); [|by left].
  destruct Hr. by eapply lists_of_names.
Qed.

(** The closure of [visit_records] run over a list of records. *)
Definition visit_all {A} (visit : A -> bytes -> bytes -> result StoreError A)
    (l : list (bytes * bytes)) (acc : A) : result StoreError A :=
  foldl (fun r kv => let? acc := r in visit acc kv.1 kv.2) (Ok acc) l.

Lemma visit_all_err {A} (visit : A -> bytes -> bytes -> result StoreError A) l e :
  foldl (fun r kv => let? acc := r in visit acc kv.1 kv.2) (Err e) l = Err e.
Proof. by induction l. Qed.

Lemma visit_all_cons {A} (visit : A -> bytes -> bytes -> result StoreError A) k v l acc :
  visit_all visit ((k, v) :: l) acc = let? acc := visit acc k v in visit_all visit l acc.
Proof. unfold visit_all. cbn. destruct (visit acc k v); [done|]. apply visit_all_err. Qed.

(** An invariant of the closure, over the records visited so far. *)
Lemma visit_all_inv {A} (P : list (bytes * bytes) -> A -> Prop)
    (visit : A -> bytes -> bytes -> result StoreError A) l acc :
  NoDup l.*1 -> P [] acc ->
  (forall seen k v acc, P seen acc -> (k, v) ∈ l -> k ∉ seen.*1 ->
    exists acc', visit acc k v = Ok acc' /\ P (seen ++ [(k, v)]) acc') ->
  exists acc', visit_all visit l acc = Ok acc' /\ P l acc'.
Proof.
  intros Hnd H0 Hstep.
  enough (H : forall seen rest acc, l = seen ++ rest -> P seen acc ->
    exists acc', visit_all visit rest acc = Ok acc' /\ P l acc').
  { by apply (H [] l). }
  intros seen rest. revert seen. induction rest as [|[k v] rest IH]; intros seen a E HP.
  - exists a. rewrite E, app_nil_r. done.
  - destruct (Hstep seen k v a HP) as (a' & Hv & HP').
    + rewrite E. apply elem_of_app. right. by left.
    + rewrite E, fmap_app in Hnd. apply NoDup_app in Hnd as (_ & Hd & _).
      intros Hin. apply (Hd _ Hin). rewrite fmap_cons. by left.
    + rewrite visit_all_cons, Hv. cbn. apply (IH (seen ++ [(k, v)])); [|done].
      by rewrite <- app_assoc.
Qed.

(** Every name of a well-formed namespace stands for a record. *)
Lemma stored_exists n m names :
  ns_wf n m -> Forall (fun name => is_Some (m !! name)) names ->
  exists l, Forall2 (stored_as m) names l /\ Forall (fun kv => len kv.1 <= MAX_LOGICAL_KEY_LEN) l.
Proof.
  intros Hwf. induction 1 as [|name names [r E] _ (l & Hs & Hk)].
  - exists []. by split.
  - destruct (Hwf _ _ E) as (k & v & -> & -> & Hlk & _ & _).
    exists ((k, v) :: l). split; by constructor.
Qed.

(** Streaming a namespace through a closure is loading it and folding. *)
Lemma visit_names_spec {A} n label max (visit : A -> bytes -> bytes -> result StoreError A) names acc s :
  ns_wf n (fl s n) -> limit_ok n max -> Forall (fun name => is_Some (fl s n !! name)) names ->
  wp (visit_names n label max visit names acc) (fun r t => quiet s t /\
    ((exists l, Forall2 (stored_as (fl s n)) names l /\
        Forall (fun kv => len kv.1 <= MAX_LOGICAL_KEY_LEN) l /\ r = visit_all visit l acc) \/
     exists e, r = Err e /\ is_io e)) s.
Proof.
  intros Hwf Hl Hn. revert s acc Hwf Hn.
  induction names as [|name names IH]; intros s acc Hwf Hn; cbn [visit_names].
  - wp_step. split; [done|]. left. by exists [].
  - apply Forall_cons in Hn as [Hname Hn]. wp_step. wp_use read_record_spec; [done..|].
    intros [[k v]|e] t [Hq Hkv]; [|split; [done|right; by eauto]]. wp_steps.
    assert (Hf : fl t n = fl s n) by (apply unchanged_flash, Hq).
    destruct (visit acc k v) as [acc'|e] eqn:Hvis.
    2: { split; [done|]. left. destruct (stored_exists n _ names Hwf Hn) as (l & Hs & Hk).
         exists ((k, v) :: l). destruct Hkv. split_and!; [by constructor..|].
         by rewrite visit_all_cons, Hvis. }
    wp_use IH; [by rewrite Hf..|]. rewrite Hf. intros r u [Hq' Hr].
    split; [by etrans|]. destruct Hr as [(l & Hs & Hk & ->)|Hr]; [left|by right].
    exists ((k, v) :: l). destruct Hkv. split_and!; [by constructor..|].
    by rewrite visit_all_cons, Hvis.
Qed.

Lemma visit_records_spec {A} n label max_entries max
    (visit : A -> bytes -> bytes -> result StoreError A) acc s :
  ns_wf n (fl s n) -> limit_ok n max ->
  wp (visit_records n label max_entries max visit acc) (fun r t => quiet s t /\
    ((exists l, lists (fl s n) l /\ r = visit_all visit l acc) \/
     exists e, r = Err e /\ (is_io e \/ Z.of_nat (size (fl s n)) > max_entries))) s.
Proof.
  intros Hwf Hl. unfold visit_records. wp_step. wp_use record_names_spec.
  intros [names|e] t [Hq Hp]; [|split; [done|right; by eauto]]. zcase.
  { wp_step. split; [done|]. right. eexists. split; [done|]. right.
    rewrite <- (len_names _ _ Hp). lia. }
  assert (Hf : fl t n = fl s n) by (apply unchanged_flash, Hq).
  wp_use visit_names_spec; [by rewrite Hf|done|rewrite Hf; by apply names_present|].
  rewrite Hf. intros r u [Hq' Hr]. split; [by etrans|].
  destruct Hr as [(l & Hs & Hk & ->)|(e & -> & He)]; [left|right].
  - exists l. split; [|done]. by eapply lists_of_names.
  - exists e. by auto.
Qed.

(** The addresses of a namespace whose keys are strings. *)
Lemma addresses_of_spec n label names s :
  ns_wf n (fl s n) -> (forall k v, content_ok n k v -> utf8_valid k = true) ->
  Forall (fun name => is_Some (fl s n !! name)) names ->
  wp (addresses_of n label names) (fun r t => quiet s t /\
    match r with
    | Ok ks => exists l, ks = l.*1 /\ Forall2 (stored_as (fl s n)) names l /\
        Forall (fun kv => len kv.1 <= MAX_LOGICAL_KEY_LEN) l
    | Err e => is_io e
    end) s.
Proof.
  intros Hwf Hu Hn. revert s Hwf Hn.
  induction names as [|name names IH]; intros s Hwf Hn; cbn [addresses_of].
  - wp_step. split; [done|]. by exists [].
  - apply Forall_cons in Hn as [[r E] Hn]. wp_step. wp_use read_signal_blob; [done|by left|].
    intros [o|e] t [Hq Ho]; [|done]. subst o. rewrite E.
    destruct (Hwf _ _ E) as (k & v & -> & -> & Hk & Hv & Hc).
    rewrite decode_record_bytes by done. wp_steps. rewrite (Hu _ _ Hc). wp_step.
    assert (Hf : fl t n = fl s n) by (apply unchanged_flash, Hq).
    wp_use IH; [by rewrite Hf..|]. rewrite Hf. intros [ks|e] u [Hq' Hr].
    + wp_step. split; [by etrans|]. destruct Hr as (l & -> & Hs & Hlk).
      exists ((k, v) :: l). split_and!; [done| |]; constructor; done.
    + split; [by etrans|done].
Qed.

Lemma namespace_addresses_spec n label s :
  ns_wf n (fl s n) -> (forall k v, content_ok n k v -> utf8_valid k = true) ->
  wp (namespace_addresses n label) (fun r t => quiet s t /\
    match r with
    | Ok ks => exists l, ks = l.*1 /\ lists (fl s n) l
    | Err e => is_io e
    end) s.
Proof.
  intros Hwf Hu. unfold namespace_addresses. wp_step. wp_use record_names_spec.
  intros [names|e] t [Hq Hp]; [|done].
  assert (Hf : fl t n = fl s n) by (apply unchanged_flash, Hq).
  wp_use addresses_of_spec; [by rewrite Hf|done|rewrite Hf; by apply names_present|].
  rewrite Hf. intros [ks|e] u [Hq' Hr]; (split; [by etrans|]); [|done].
  destruct Hr as (l & -> & Hs & Hk). exists l. split; [done|]. by eapply lists_of_names.
Qed.
End Walk.
