(* ===== verification/FlashReset.v ===== *)
(** * Erasing and resetting the partition

    An erasure that reports success left its namespace empty for readers and
    for a reboot; a factory reset is all or nothing across a power loss,
    because its marker is written first and removed last. *)

From S2P Require Import Prelude RustStr Nvs Record SessionSlots Flash FlashSpec FlashRecords.
#[local] Set Default Proof Using "Type*".

Section Shrink.
Context {W : Type} `{nvsW : !Nvs W}.
Implicit Types (s t : fstate W) (n : ns).

Definition blank n t : Prop := fl t n = ∅ /\ du t n = ∅.

(** Only namespaces in [N] differ, and those only lost blobs. *)
Definition shrinks (N : list ns) s t : Prop := forall n,
  (n ∈ N -> fl t n ⊆ fl s n /\ du t n ⊆ du s n) /\
  (n ∉ N -> fl t n = fl s n /\ du t n = du s n).

#[global] Instance shrinks_preorder N : PreOrder (shrinks N).
Proof.
  split.
  - intros s n. done.
  - intros s t u H H' n. destruct (H n) as [H1 H2], (H' n) as [H3 H4]. split; intros Hn.
    + destruct (H1 Hn), (H3 Hn). split; by etrans.
    + destruct (H2 Hn) as [<- <-]. auto.
Qed.

Lemma shrinks_blank N s t n : shrinks N s t -> blank n s -> blank n t.
Proof.
  intros H [Hf Hd]. destruct (H n) as [H1 H2]. destruct (decide (n ∈ N)) as [Hn|Hn].
  - destruct (H1 Hn) as [H3 H4]. rewrite Hf in H3. rewrite Hd in H4.
    split; apply (anti_symm (⊆)); try apply map_empty_subseteq; done.
  - destruct (H2 Hn) as [E1 E2]. split; congruence.
Qed.

Lemma shrinks_outside N s t n : shrinks N s t -> n ∉ N -> fl t n = fl s n /\ du t n = du s n.
Proof. intros H. apply H. Qed.
End Shrink.

Section Erase.
Context {W : Type} `{nvsW : !Nvs W, lawsW : !NvsLaws W}.
Implicit Types (s t : fstate W) (n : ns).

Lemma erase_attempt_spec n N s :
  n ∈ N ->
  wp (erase_attempt n) (fun r t => shrinks N s t /\ fs_slots t = fs_slots s /\
    exists b, r = Ok b /\ (b = true -> blank n t)) s.
Proof.
  intros HN. unfold erase_attempt. do 2 wp_step. apply wp_nvs. wp_use law_erase_all.
  intros [u|e] w [Ho Hf Hd Hok].
  - assert (Hs : shrinks N s (set_nvs w s)).
    { intros n'. destruct (decide (n' = n)) as [->|Hne]; [done|].
      destruct (Ho n' Hne) as [E1 E2]. cbn. rewrite E1, E2. done. }
    do 2 wp_step. wp_use record_names_spec. intros r t [[Hv Hsl] Hr].
    assert (Ht : shrinks N s t).
    { etrans; [exact Hs|]. intros n'. destruct (Hv n') as [-> ->]. done. }
    destruct r as [[|name names]|e]; wp_step; (split_and!; [done|done|]); eexists; (split; [done|]); try done.
    intros _. destruct (Hv n) as [E1 E2]. unfold blank. rewrite E1, E2. cbn in *.
    symmetry in Hr. apply Permutation_nil_r, fmap_nil_inv, map_to_list_empty_iff in Hr.
    by rewrite Hok, Hr.
  - intros i. wp_step. split_and!; [|done|by exists false].
    intros n'. destruct (decide (n' = n)) as [->|Hne]; [done|].
    destruct (Ho n' Hne) as [E1 E2]. cbn. rewrite E1, E2. done.
Qed.

(** An erasure that reports success left nothing behind, not even for a
    reboot, and one that fails touched no other namespace. *)
Lemma erase_attempts_spec k n N label s :
  n ∈ N ->
  wp (erase_attempts k n label) (fun r t => shrinks N s t /\ fs_slots t = fs_slots s /\
    (r = Ok tt -> blank n t) /\ forall e, r = Err e -> e = Io (EraseFailed label)) s.
Proof.
  intros HN. revert s. induction k as [|k IH]; intros s; cbn [erase_attempts].
  - wp_step. split_and!; [done..|]. by intros e [= <-].
  - wp_step. wp_use erase_attempt_spec; [done|]. intros r t (Hs & Hsl & b & -> & Hb).
    destruct b.
    + wp_step. split_and!; [done..| |done]. auto.
    + wp_use IH. intros r u (Hs' & Hsl' & Hr). split_and!; [by etrans|congruence|apply Hr..].
Qed.

Lemma erase_namespace_spec n N label s :
  n ∈ N ->
  wp (erase_namespace n label) (fun r t => shrinks N s t /\ fs_slots t = fs_slots s /\
    (r = Ok tt -> blank n t) /\ forall e, r = Err e -> is_io e) s.
Proof.
  intros HN. wp_use erase_attempts_spec; [done|]. intros r t (H1 & H2 & H3 & H4).
  split_and!; try done. intros e ->. eexists. auto.
Qed.

(** The six erasures of [erase_signal], one after the other. *)
Fixpoint erase_list (l : list (ns * string)) : M (fstate W) StoreError unit :=
  match l with
  | [] => ret tt
  | [(n, label)] => erase_namespace n label
  | (n, label) :: l => erase_namespace n label ;;; erase_list l
  end.

Lemma erase_list_spec l N s :
  Forall (fun x => x.1 ∈ N) l ->
  wp (erase_list l) (fun r t => shrinks N s t /\ fs_slots t = fs_slots s /\
    (r = Ok tt -> forall n, n ∈ l.*1 -> blank n t) /\ forall e, r = Err e -> is_io e) s.
Proof.
  intros Hl. revert s. induction Hl as [|[n label] l Hn _ IH]; intros s.
  - cbn [erase_list]. wp_step. split_and!; try done. intros _ n ?%not_elem_of_nil. done.
  - destruct l as [|x l].
    { cbn [erase_list]. wp_use erase_namespace_spec; [exact Hn|]. intros r t (Hs & Hsl & Hok & He).
      split_and!; [done..| |done]. intros -> n' ->%list_elem_of_singleton. by apply Hok. }
    set (l' := x :: l) in *. change (erase_list ((n, label) :: l'))
      with (erase_namespace n label ;;; erase_list l'). wp_step. wp_use erase_namespace_spec; [exact Hn|]. intros [[]|e] t (Hs & Hsl & Hok & He).
    2: { split_and!; [done..|]. auto. }
    wp_use IH. intros r u (Hs' & Hsl' & Hok' & He').
    split_and!; [by etrans|congruence| |done].
    intros -> n' [->|Hn']%elem_of_cons; [|by apply Hok'].
    eapply shrinks_blank; [done|]. by apply Hok.
Qed.
End Erase.

Lemma signal_ne n : n ∈ signal_namespaces -> n <> NsControl /\ n <> NsDevice.
Proof. unfold signal_namespaces. set_solver. Qed.

Section Reset.
Context {W : Type} `{nvsW : !Nvs W, lawsW : !NvsLaws W, shaW : !Sha256, conW : !Contents}.
Implicit Types (s t : fstate W) (n : ns) (k v : bytes).

(** The namespaces a reset erases: the device's and the Signal ones. *)
Definition reset_namespaces : list ns := NsDevice :: signal_namespaces.

(** Losing records behind an empty slot cache keeps the invariant. *)
Lemma finv_shrinks s t :
  finv s -> fs_slots t = [] ->
  (forall n, n ∈ signal_namespaces -> fl t n ⊆ fl s n /\ du t n ⊆ du s n) -> finv t.
Proof.
  intros [If Id Is It] Ht Hs. split; rewrite ?Ht.
  - intros n Hn name r Hr. destruct (Hs n Hn) as [Hf _].
    apply (If n Hn). by eapply lookup_weaken.
  - intros n Hn name r Hr. destruct (Hs n Hn) as [_ Hd].
    apply (Id n Hn). by eapply lookup_weaken.
  - apply SessionSlots.wf_new.
  - constructor.
Qed.

(** What removing the latest-key marker, or the reset marker, may do. *)
Record control_only (k : bytes) s t : Prop := {
  co_only : only NsControl s t;
  co_slots : fs_slots t = fs_slots s;
  co_flash k' : k' <> k -> fl t NsControl !! k' = fl s NsControl !! k';
  co_durable k' : k' <> k ->
    du t NsControl !! k' = du s NsControl !! k' \/ du t NsControl !! k' = fl s NsControl !! k';
  co_self : du t NsControl !! k = du s NsControl !! k \/ du t NsControl !! k = fl s NsControl !! k \/
    du t NsControl !! k = None;
}.

Lemma remove_control_spec k s :
  wp (remove_blob NsControl k) (fun r t => control_only k s t /\
    (r = Ok tt -> fl t NsControl !! k = None) /\ forall e, r = Err e -> is_io e) s.
Proof.
  wp_use remove_blob_spec. intros r t (Hc & Hok & He). split_and!; [|by intros ->; apply Hok|done].
  destruct Hc as [[_ [Hv Hs]]|[Uo Us Uf _ Ud]].
  - destruct (Hv NsControl) as [E1 E2].
    split; [by apply same_views_but|done|..]; rewrite ?E1, ?E2; auto.
  - split; [done..| | |destruct (Ud k) as [?|[?|[_ ?]]]; auto].
    + intros k' Hk. destruct Uf as [->|[_ ->]]; [by rewrite lookup_delete_ne|done].
    + intros k' Hk. destruct (Ud k') as [?|[?|[? _]]]; auto. done.
Qed.

(** The post-state of the erasures of [erase_signal] and [erase_all]. *)
Record signal_erased (N : list ns) s (ok : bool) t : Prop := {
  se_slots : fs_slots t = [];
  se_reset : fl t NsControl !! bs "reset" = fl s NsControl !! bs "reset";
  se_durable : du t NsControl !! bs "reset" = du s NsControl !! bs "reset" \/
    du t NsControl !! bs "reset" = fl s NsControl !! bs "reset";
  se_in n : n ∈ N -> fl t n ⊆ fl s n /\ du t n ⊆ du s n;
  se_out n : n ∉ N -> n <> NsControl -> fl t n = fl s n /\ du t n = du s n;
  se_ok : ok = true -> (forall n, n ∈ N -> blank n t) /\ fl t NsControl !! bs "latestsync" = None;
}.

Lemma erase_signal_spec s :
  wp erase_signal (fun r t => signal_erased signal_namespaces s (is_ok r) t /\
    forall e, r = Err e -> is_io e) s.
Proof.
  unfold erase_signal, set_slots. wp_steps.
  set (s0 := FState (fs_nvs s) _). wp_use remove_control_spec.
  intros [[]|e] t (Hc & Hok & He); destruct Hc as [Co Cs Cf Cd];
    change (only NsControl s t) in Co.
  2: { split; [|done]. split; [done|by apply Cf|by apply Cd|..]; try done.
       - intros n Hn. destruct (Co n) as [-> ->]; [|done].
         intros ->. unfold signal_namespaces in Hn. set_solver.
       - intros n _ Hn. by apply Co. }
  match goal with |- wp ?m _ _ => change m with (erase_list (zip signal_namespaces
    ["identity"; "session"; "prekey"; "signed prekey"; "sender key"; "sync key"])) end.
  wp_use (erase_list_spec _ signal_namespaces).
  { apply Forall_forall. intros x Hx. unfold signal_namespaces in *. cbn in Hx. set_solver. }
  intros r u (Hs & Hsl & Hok' & He'). split; [|done].
  assert (Hne : forall n, n ∈ signal_namespaces -> n <> NsControl).
  { intros n Hn ->. unfold signal_namespaces in Hn. set_solver. }
  destruct (shrinks_outside _ _ _ NsControl Hs) as [Ef Ed].
  { intros Hn. by apply (Hne NsControl). }
  split; rewrite ?Ef, ?Ed.
  - by rewrite Hsl, Cs.
  - by apply Cf.
  - by apply Cd.
  - intros n Hn. destruct (Hs n) as [Hin _]. destruct (Hin Hn).
    destruct (Co n) as [E1 E2]; [auto|]. by rewrite <- E1, <- E2.
  - intros n Hn Hn'. destruct (shrinks_outside _ _ _ n Hs Hn) as [-> ->]. by apply Co.
  - intros Hr. split; [|by apply Hok]. intros n Hn. apply Hok'; [by destruct r as [[]|]|].
    unfold signal_namespaces in *. cbn. done.
Qed.
Lemma finv_signal_erased N s ok t :
  finv s -> signal_erased N s ok t -> signal_namespaces ⊆ N -> finv t.
Proof.
  intros Hi [Es _ _ Ein _ _] HN. apply (finv_shrinks s); [done..|]. intros n Hn. apply Ein. by apply HN.
Qed.

(** [erase_all], whatever its outcome: the device goes first, so Signal
    records are only ever gone when the device is. *)
Record all_erased s (ok : bool) t : Prop := {
  ae_inv : finv s -> finv t;
  ae_sub n : n ∈ reset_namespaces -> fl t n ⊆ fl s n /\ du t n ⊆ du s n;
  ae_reset : fl t NsControl !! bs "reset" = fl s NsControl !! bs "reset";
  ae_durable : du t NsControl !! bs "reset" = du s NsControl !! bs "reset" \/
    du t NsControl !! bs "reset" = fl s NsControl !! bs "reset";
  ae_device_first : blank NsDevice t \/
    forall n, n ∈ signal_namespaces -> fl t n = fl s n /\ du t n = du s n;
  ae_ok : ok = true ->
    (forall n, n ∈ reset_namespaces -> blank n t) /\ fl t NsControl !! bs "latestsync" = None;
}.

Lemma erase_all_spec s :
  wp erase_all (fun r t => all_erased s (is_ok r) t /\ forall e, r = Err e -> is_io e) s.
Proof.
  unfold erase_all. wp_step. wp_use (erase_namespace_spec NsDevice [NsDevice]); [by left|].
  intros r t (Hs & Hsl & Hok & He).
  assert (Hout : forall n, n <> NsDevice -> fl t n = fl s n /\ du t n = du s n).
  { intros n Hn. apply (shrinks_outside _ _ _ n Hs). by intros ->%list_elem_of_singleton. }
  assert (Hsig : forall n, n ∈ signal_namespaces -> fl t n = fl s n /\ du t n = du s n).
  { intros n Hn. apply Hout. by apply signal_ne. }
  assert (Hit : finv s -> finv t).
  { intros [If Id Is It]. split; rewrite ?Hsl; [| |done|].
    - intros n Hn. destruct (Hsig n Hn) as [-> _]. auto.
    - intros n Hn. destruct (Hsig n Hn) as [_ ->]. auto.
    - destruct (Hsig NsSessions) as [-> _]; [unfold signal_namespaces; set_solver|done]. }
  destruct (Hout NsControl) as [Ec Ed]; [done|].
  assert (Hsub : forall n, n ∈ reset_namespaces -> fl t n ⊆ fl s n /\ du t n ⊆ du s n).
  { intros n [->|Hn]%elem_of_cons; [apply (Hs NsDevice); by left|].
    by destruct (Hsig n Hn) as [-> ->]. }
  destruct r as [[]|e].
  2: { split; [|done]. split; rewrite ?Ec, ?Ed; auto. done. }
  specialize (Hok eq_refl). wp_use erase_signal_spec. intros r u [Hu Hr]. split; [|done].
  assert (Hdev : blank NsDevice u).
  { destruct Hok as [Hf Hd]. destruct (se_out _ _ _ _ Hu NsDevice) as [E1 E2]; [|done|].
    - intros Hn. by apply signal_ne in Hn as [].
    - split; congruence. }
  split.
  - intros Hi. eapply finv_signal_erased; [by apply Hit|done|done].
  - intros n [->|Hn]%elem_of_cons.
    + destruct Hdev as [-> ->]. split; apply map_empty_subseteq.
    + destruct (se_in _ _ _ _ Hu n Hn), (Hsig n Hn) as [<- <-]. done.
  - rewrite (se_reset _ _ _ _ Hu). by rewrite Ec.
  - rewrite <- Ec, <- Ed. apply Hu.
  - by left.
  - intros Ho. destruct (se_ok _ _ _ _ Hu Ho) as [Hb Hl]. split; [|done].
    intros n [->|Hn]%elem_of_cons; [done|]. by apply Hb.
Qed.

Abbreviation marker := (bs "reset").

(** [complete_reset] keeps the marker until everything is gone. *)
Record reset_completed s (ok : bool) t : Prop := {
  rc_inv : finv s -> finv t;
  rc_sub n : n ∈ reset_namespaces -> fl t n ⊆ fl s n /\ du t n ⊆ du s n;
  rc_ok : ok = true -> (forall n, n ∈ reset_namespaces -> blank n t) /\
    fl t NsControl !! marker = None /\ fl t NsControl !! bs "latestsync" = None;
  rc_durable : du t NsControl !! marker = du s NsControl !! marker \/
    du t NsControl !! marker = fl s NsControl !! marker \/ du t NsControl !! marker = None;
  rc_marker : (forall n, n ∈ reset_namespaces -> blank n t) \/
    (fl t NsControl !! marker = fl s NsControl !! marker /\
     (du t NsControl !! marker = du s NsControl !! marker \/
      du t NsControl !! marker = fl s NsControl !! marker));
}.

Lemma complete_reset_spec s :
  wp complete_reset (fun r t => reset_completed s (is_ok r) t /\ forall e, r = Err e -> is_io e) s.
Proof.
  unfold complete_reset. wp_step. wp_use erase_all_spec. intros [[]|e] t [Ht He].
  2: { split; [|done]. split; [apply Ht|apply Ht|done| |right; split; apply Ht].
       destruct (ae_durable _ _ _ Ht); auto. }
  destruct (ae_ok _ _ _ Ht eq_refl) as [Hb Hl].
  wp_use remove_control_spec. intros r u (Hc & Hok & He'). split; [|done].
  assert (Hb' : forall n, n ∈ reset_namespaces -> blank n u).
  { intros n Hn. destruct (Hb n Hn). destruct (co_only _ _ _ Hc n) as [E1 E2].
    - apply elem_of_cons in Hn as [->|Hn]; [done|]. by apply signal_ne.
    - split; congruence. }
  split; [| |intros Ho; split_and!| |by left]; try done.
  5: { destruct (co_self _ _ _ Hc) as [->|[->|?]]; [|rewrite (ae_reset _ _ _ Ht)|]; auto.
       destruct (ae_durable _ _ _ Ht); auto. }
  2: { intros n Hn. destruct (Hb' n Hn) as [-> ->]. split; apply map_empty_subseteq. }
  - intros Hi. eapply (finv_outside NsControl); [by apply Ht|apply Hc| |apply Hc].
    intros Hn. by apply signal_ne in Hn as [].
  - apply Hok. by destruct r as [[]|].
  - by rewrite (co_flash _ _ _ Hc).
Qed.

(** What a reset leaves, for a reboot above all: either nothing was erased,
    or the marker that makes the next boot finish the job is durable, or
    everything is gone. *)
Record reset_outcome s (ok : bool) t : Prop := {
  ro_inv : finv s -> finv t;
  ro_sub n : n ∈ reset_namespaces -> fl t n ⊆ fl s n /\ du t n ⊆ du s n;
  ro_ok : ok = true -> (forall n, n ∈ reset_namespaces -> blank n t) /\
    fl t NsControl !! marker = None /\ fl t NsControl !! bs "latestsync" = None;
  (** The only durable marker a reset can leave, besides an older one. *)
  ro_durable b : du t NsControl !! marker = Some b ->
    b = bs "1" \/ du s NsControl !! marker = Some b \/ fl s NsControl !! marker = Some b;
  ro_crash :
    (forall n, n ∈ reset_namespaces -> fl t n = fl s n /\ du t n = du s n) \/
    du t NsControl !! marker = Some (bs "1") \/
    (forall n, n ∈ reset_namespaces -> blank n t);
}.

Lemma reset_all_spec s :
  wp reset_all (fun r t => reset_outcome s (is_ok r) t /\ forall e, r = Err e -> is_io e) s.
Proof.
  assert (Hns : forall n, n ∈ reset_namespaces -> n <> NsControl).
  { intros n [->|Hn]%elem_of_cons; [done|]. by apply signal_ne. }
  unfold reset_all. wp_step. wp_use set_blob_spec; [by apply (bool_decide_unpack _)|].
  intros r t [Hw He]. pose proof (wr_only _ _ _ _ _ _ Hw) as Ho.
  assert (Hit : finv s -> finv t).
  { intros Hi. apply (finv_outside NsControl s); [done..| |apply Hw].
    intros Hn. by apply signal_ne in Hn as []. }
  destruct r as [[]|e].
  2: { split; [|done]. split; [done| |done| |].
       - intros n Hn. destruct (Ho n) as [-> ->]; [by apply Hns|done].
       - intros b Hb. destruct (wr_durable _ _ _ _ _ _ Hw marker) as [E|[E|[_ E]]]; rewrite E in Hb; auto.
         left. congruence.
       - left. intros n Hn. apply Ho. auto. }
  wp_use complete_reset_spec. intros r u [Hu He']. split; [|done].
  destruct (wr_flash _ _ _ _ _ _ Hw) as [Hf|[[=] _]].
  pose proof (wr_ok _ _ _ _ _ _ Hw eq_refl) as Hd.
  assert (Hm1 : fl t NsControl !! marker = Some (bs "1")) by by rewrite Hf, lookup_insert_eq.
  assert (Hm2 : du t NsControl !! marker = Some (bs "1")) by by rewrite Hd.
  split; [intros Hi; by apply Hu, Hit| |apply Hu| |].
  2: { intros b Hb. left. destruct (rc_durable _ _ _ Hu) as [E|[E|E]]; congruence. }
  { intros n Hn. destruct (rc_sub _ _ _ Hu n Hn). destruct (Ho n) as [<- <-]; [by apply Hns|done]. }
  right.
  destruct (rc_marker _ _ _ Hu) as [?|[_ Hm]]; [by right|left].
  rewrite Hd in Hm. rewrite Hf, lookup_insert_eq in Hm. by destruct Hm.
Qed.
End Reset.
