(* ===== verification/FlashDevice.v ===== *)
(** * The device record and the latest sync-key marker

    Two fixed names: "current" in the device namespace holds the linked
    device, "latestsync" in the control namespace the id of the sync key that
    was written last. *)

From S2P Require Import Prelude RustStr Nvs Record SessionSlots Flash FlashSpec FlashRecords.
#[local] Set Default Proof Using "Type*".

Section Device.
Context {W : Type} `{nvsW : !Nvs W, lawsW : !NvsLaws W}.
Context {Device : Type} `{serdeD : !Serde Device, lawsD : !SerdeLaws Device}.
Implicit Types (s t : fstate W) (m : gmap bytes bytes).

Definition device_of m : option Device :=
  match m !! bs "current" with
  | Some r =>
      match decode_record r with
      | Ok (k, p) => if bool_decide (k = bs "device") then from_slice p else None
      | Err _ => None
      end
  | None => None
  end.

Definition device_wf m : Prop := forall r, m !! bs "current" = Some r ->
  exists d p, r = record_bytes (bs "device") p /\ from_slice p = Some (d : Device) /\
    len p <= MAX_DEVICE_LEN.

Lemma device_wf_of m d p :
  m !! bs "current" = Some (record_bytes (bs "device") p) -> from_slice p = Some d ->
  device_of m = Some d.
Proof. unfold device_of. intros -> Hd. by rewrite decode_record_bytes, bool_decide_true. Qed.

Lemma load_device_spec s :
  device_wf (fl s NsDevice) ->
  wp (load_device (Device := Device)) (fun r t => quiet s t /\
    match r with Ok o => o = device_of (fl s NsDevice) | Err e => is_io e end) s.
Proof.
  intros Hwf. unfold load_device. wp_step. wp_use read_blob_spec.
  intros [o|e] t [Hq Ho]; [destruct Ho as [-> _]|].
  - destruct (fl s NsDevice !! bs "current") as [r|] eqn:E.
    + destruct (Hwf _ E) as (d & p & -> & Hd & Hp). rewrite (device_wf_of _ d p) by done.
      rewrite decode_record_bytes by done. wp_steps. rewrite bool_decide_true by done.
      rewrite Hd. by wp_step.
    + wp_step. split; [done|]. unfold device_of. by rewrite E.
  - split; [done|]. destruct Ho as [?|(r & E & Hr & _)]; [done|].
    destruct (Hwf _ E) as (d & p & -> & Hd & Hp). exfalso. unfold MAX_DEVICE_LEN, RECORD_HEADER_LEN in *.
    rewrite len_record_bytes in Hr. change (len (bs "device")) with 6 in Hr. lia.
Qed.

Lemma device_wf_insert m p d :
  from_slice p = Some d -> len p <= MAX_DEVICE_LEN ->
  device_wf (<[bs "current" := record_bytes (bs "device") p]> m).
Proof. intros Hd Hp r. rewrite lookup_insert_eq. intros [= <-]. by exists d, p. Qed.

Record device_saved (d : Device) s (r : result StoreError unit) t : Prop := {
  ds_only : only NsDevice s t;
  ds_slots : fs_slots t = fs_slots s;
  ds_wf : device_wf (fl s NsDevice) -> device_wf (du s NsDevice) ->
    device_wf (fl t NsDevice) /\ device_wf (du t NsDevice);
  ds_ok : r = Ok tt -> device_of (fl t NsDevice) = Some d /\ du t NsDevice = fl t NsDevice;
  ds_err e : r = Err e -> device_of (fl t NsDevice) = device_of (fl s NsDevice) \/
    (is_io e /\ device_of (fl t NsDevice) = Some d);
  ds_refused e : r = Err e -> is_io e \/ unchanged s t;
}.

Lemma device_saved_unchanged d s e t :
  quiet s t -> device_saved d s (Err e) t.
Proof.
  intros [Hv Hs]. destruct (Hv NsDevice) as [E1 E2].
  split; rewrite ?E1, ?E2; auto; try done. by apply same_views_but.
Qed.

Lemma save_device_spec d s : wp (save_device d) (device_saved d s) s.
Proof.
  unfold save_device. destruct (to_vec d) as [p|] eqn:Hp; [|wp_step; by apply device_saved_unchanged].
  apply from_to_vec in Hp. destruct (len p >? MAX_DEVICE_LEN) eqn:Hl.
  { wp_step. by apply device_saved_unchanged. }
  rewrite Z.gtb_ltb, Z.ltb_ge in Hl. wp_step.
  wp_use encode_record_spec; [done|done|]. intros [b|e] t [Hq Hb].
  2: { by apply device_saved_unchanged. }
  subst b. destruct Hq as [Hv Hs]. destruct (Hv NsDevice) as [E1 E2].
  wp_use set_blob_spec; [by apply (bool_decide_unpack _)|]. intros r u [[Wo Ws Wf Wok Wd] Hio].
  rewrite ?E1, ?E2 in *. split.
  - etrans; [|exact Wo]. by apply same_views_but.
  - congruence.
  - intros Hf Hd. split.
    + destruct Wf as [->|[_ ->]]; [by eapply device_wf_insert|done].
    + intros x Hx. destruct (Wd (bs "current")) as [E|[E|[_ E]]]; rewrite E in Hx.
      * by apply Hd.
      * by apply Hf.
      * injection Hx as <-. by exists d, p.
  - intros ->. destruct Wf as [Wf|[[=] _]]. split; [|by apply Wok]. rewrite Wf.
    eapply device_wf_of; [|done]. by rewrite lookup_insert_eq.
  - intros e ->. destruct Wf as [Wf|[_ Wf]]; rewrite Wf; [right|by left].
    split; [by apply Hio|]. eapply device_wf_of; [|done]. by rewrite lookup_insert_eq.
  - intros e ->. left. by apply Hio.
Qed.
End Device.

Section Latest.
Context {W : Type} `{nvsW : !Nvs W, lawsW : !NvsLaws W}.
Implicit Types (s t : fstate W) (m : gmap bytes bytes).

(** The id the marker names, if it is one the boot would believe. *)
Definition latest_of m : option bytes :=
  match m !! bs "latestsync" with
  | Some r =>
      match decode_record r with
      | Ok (k, p) => if bool_decide (k = bs "latestsync") then Some p else None
      | Err _ => None
      end
  | None => None
  end.

Lemma latest_of_record m k :
  m !! bs "latestsync" = Some (record_bytes (bs "latestsync") k) -> latest_of m = Some k.
Proof. unfold latest_of. intros ->. by rewrite decode_record_bytes, bool_decide_true. Qed.

(** Writing the marker touches no other namespace, nor the reset marker. *)
Record latest_saved (k : bytes) s (r : result StoreError unit) t : Prop := {
  ls_only : only NsControl s t;
  ls_slots : fs_slots t = fs_slots s;
  ls_reset : fl t NsControl !! bs "reset" = fl s NsControl !! bs "reset";
  ls_ok : r = Ok tt -> latest_of (fl t NsControl) = Some k /\ du t NsControl = fl t NsControl /\
    len k <= MAX_LOGICAL_KEY_LEN;
}.

Lemma save_latest_sync_key_id_spec k s :
  wp (save_latest_sync_key_id k) (latest_saved k s) s.
Proof.
  assert (Hsame : forall t e, quiet s t -> latest_saved k s (Err e) t).
  { intros t e [Hv Hs]. destruct (Hv NsControl) as [E1 E2].
    split; rewrite ?E1; try done. by apply same_views_but. }
  unfold save_latest_sync_key_id. destruct (len k >? MAX_LOGICAL_KEY_LEN) eqn:Hl.
  { wp_step. by apply Hsame. }
  rewrite Z.gtb_ltb, Z.ltb_ge in Hl. wp_step.
  wp_use encode_record_spec; [done| |].
  { unfold MAX_LOGICAL_KEY_LEN, MAX_SIGNAL_RECORD_LEN in *. lia. }
  intros [b|e] t [Hq Hb]; [|by apply Hsame]. subst b.
  destruct Hq as [Hv Hs]. destruct (Hv NsControl) as [E1 E2].
  wp_use set_blob_spec; [by apply (bool_decide_unpack _)|]. intros r u [[Wo Ws Wf Wok Wd] Hio].
  rewrite ?E1, ?E2 in *. split.
  - etrans; [|exact Wo]. by apply same_views_but.
  - congruence.
  - destruct Wf as [->|[_ ->]]; [by rewrite lookup_insert_ne|done].
  - intros ->. destruct Wf as [Wf|[[=] _]]. split_and!; [|by apply Wok|done]. rewrite Wf.
    apply latest_of_record. by rewrite lookup_insert_eq.
Qed.

(** Reading it back. *)
Lemma load_latest_sync_key_id_spec s :
  wp load_latest_sync_key_id (fun r t => quiet s t /\
    match r with
    | Ok o => o = latest_of (fl s NsControl)
    | Err e => is_io e \/ latest_of (fl s NsControl) = None \/
        exists b, fl s NsControl !! bs "latestsync" = Some b /\ len b > 527
    end) s.
Proof.
  unfold load_latest_sync_key_id. wp_step. wp_use read_blob_spec.
  intros [o|e] t [Hq Ho]; [destruct Ho as [-> Hlen]|].
  - unfold latest_of. destruct (fl s NsControl !! bs "latestsync") as [r|] eqn:E; [|by wp_step].
    wp_steps. destruct (decode_record r) as [[k p]|e]; [|by auto].
    case_bool_decide; wp_step; by auto.
  - split; [done|]. destruct Ho as [?|(r & E & Hr & _)]; [by left|right; right].
    exists r. split; [done|exact Hr].
Qed.
End Latest.
