(* ===== verification/StoreInner.v ===== *)
(** * The store's RAM state ([StoreInner] of [src/storage.rs])

    The types of the [wacore] crate the store holds are outside the
    repository: they are the fields of the class [Wacore], with the two
    retention merges and [serde_json] on the two types the store serialises.
    A [HashMap] is a [gmap]; its iteration order, unspecified in the source,
    never matters to a theorem. *)

From S2P Require Import Prelude Platform RustStr Record Lru Flash.
Class Wacore := {
  Device : Type;
  AppStateSyncKey : Type;
  (** [AppStateSyncKey::timestamp] *)
  sync_timestamp : AppStateSyncKey -> Z;
  HashState : Type;
  LidPnMappingEntry : Type;
  (** [LidPnMappingEntry::{lid, phone_number}] *)
  lid : LidPnMappingEntry -> bytes;
  phone_number : LidPnMappingEntry -> bytes;
  DeviceListRecord : Type;
  (** [DeviceListRecord::user] *)
  user : DeviceListRecord -> bytes;
  merge_msg_secret_expiry : Z -> Z -> Z;
  merge_msg_secret_message_ts : Z -> Z -> Z;
  #[global] device_serde :: Serde Device;
  #[global] sync_key_serde :: Serde AppStateSyncKey;
}.

Record TcTokenEntry := TcToken {
  token : bytes;
  token_timestamp : Z;
  sender_timestamp : option Z;
}.

Record AppStateMutationMAC := MutationMAC {
  index_mac : bytes;
  value_mac : bytes;
}.

Record MsgSecretEntry := MsgSecret {
  ms_chat : bytes;
  ms_sender : bytes;
  ms_msg_id : bytes;
  ms_secret : bytes;
  ms_expires_at : Z;
  ms_message_ts : Z;
}.

Record StoreInner `{Wacore} := Inner {
  device : option Device;
  device_id_counter : Z;
  identities : gmap bytes bytes;
  sessions : gmap bytes bytes;
  prekeys : gmap Z bytes;
  signed_prekeys : gmap Z bytes;
  sender_keys : gmap bytes bytes;
  identity_order : list bytes;
  session_order : list bytes;
  sync_keys : gmap bytes AppStateSyncKey;
  latest_sync_key_id : option bytes;
  sync_key_order : list bytes;
  versions : gmap bytes HashState;
  mutation_macs : gmap bytes (gmap bytes bytes);
  sender_key_devices : gmap bytes (list (bytes * bool));
  lid_mappings : gmap bytes LidPnMappingEntry;
  pn_mappings : gmap bytes bytes;
  base_keys : gmap bytes bytes;
  device_lists : gmap bytes DeviceListRecord;
  tc_tokens : gmap bytes TcTokenEntry;
  sent_messages : gmap bytes (bytes * Z);
  msg_secrets : gmap (bytes * bytes * bytes) (bytes * Z * Z);
}.


(** [StoreInner::default()] *)
Definition inner_default `{Wacore} : StoreInner := {|
  device := None;
  device_id_counter := 0;
  identities := ∅;
  sessions := ∅;
  prekeys := ∅;
  signed_prekeys := ∅;
  sender_keys := ∅;
  identity_order := [];
  session_order := [];
  sync_keys := ∅;
  latest_sync_key_id := None;
  sync_key_order := [];
  versions := ∅;
  mutation_macs := ∅;
  sender_key_devices := ∅;
  lid_mappings := ∅;
  pn_mappings := ∅;
  base_keys := ∅;
  device_lists := ∅;
  tc_tokens := ∅;
  sent_messages := ∅;
  msg_secrets := ∅
|}.

(** Assignments to one field. *)
Definition set_device `{Wacore} (x : option Device) (s : StoreInner) : StoreInner :=
  Inner _ x (device_id_counter s) (identities s) (sessions s) (prekeys s) (signed_prekeys s) (sender_keys s) (identity_order s) (session_order s) (sync_keys s) (latest_sync_key_id s) (sync_key_order s) (versions s) (mutation_macs s) (sender_key_devices s) (lid_mappings s) (pn_mappings s) (base_keys s) (device_lists s) (tc_tokens s) (sent_messages s) (msg_secrets s).
Definition set_device_id_counter `{Wacore} (x : Z) (s : StoreInner) : StoreInner :=
  Inner _ (device s) x (identities s) (sessions s) (prekeys s) (signed_prekeys s) (sender_keys s) (identity_order s) (session_order s) (sync_keys s) (latest_sync_key_id s) (sync_key_order s) (versions s) (mutation_macs s) (sender_key_devices s) (lid_mappings s) (pn_mappings s) (base_keys s) (device_lists s) (tc_tokens s) (sent_messages s) (msg_secrets s).
Definition set_identities `{Wacore} (x : gmap bytes bytes) (s : StoreInner) : StoreInner :=
  Inner _ (device s) (device_id_counter s) x (sessions s) (prekeys s) (signed_prekeys s) (sender_keys s) (identity_order s) (session_order s) (sync_keys s) (latest_sync_key_id s) (sync_key_order s) (versions s) (mutation_macs s) (sender_key_devices s) (lid_mappings s) (pn_mappings s) (base_keys s) (device_lists s) (tc_tokens s) (sent_messages s) (msg_secrets s).
Definition set_sessions `{Wacore} (x : gmap bytes bytes) (s : StoreInner) : StoreInner :=
  Inner _ (device s) (device_id_counter s) (identities s) x (prekeys s) (signed_prekeys s) (sender_keys s) (identity_order s) (session_order s) (sync_keys s) (latest_sync_key_id s) (sync_key_order s) (versions s) (mutation_macs s) (sender_key_devices s) (lid_mappings s) (pn_mappings s) (base_keys s) (device_lists s) (tc_tokens s) (sent_messages s) (msg_secrets s).
Definition set_prekeys `{Wacore} (x : gmap Z bytes) (s : StoreInner) : StoreInner :=
  Inner _ (device s) (device_id_counter s) (identities s) (sessions s) x (signed_prekeys s) (sender_keys s) (identity_order s) (session_order s) (sync_keys s) (latest_sync_key_id s) (sync_key_order s) (versions s) (mutation_macs s) (sender_key_devices s) (lid_mappings s) (pn_mappings s) (base_keys s) (device_lists s) (tc_tokens s) (sent_messages s) (msg_secrets s).
Definition set_signed_prekeys `{Wacore} (x : gmap Z bytes) (s : StoreInner) : StoreInner :=
  Inner _ (device s) (device_id_counter s) (identities s) (sessions s) (prekeys s) x (sender_keys s) (identity_order s) (session_order s) (sync_keys s) (latest_sync_key_id s) (sync_key_order s) (versions s) (mutation_macs s) (sender_key_devices s) (lid_mappings s) (pn_mappings s) (base_keys s) (device_lists s) (tc_tokens s) (sent_messages s) (msg_secrets s).
Definition set_sender_keys `{Wacore} (x : gmap bytes bytes) (s : StoreInner) : StoreInner :=
  Inner _ (device s) (device_id_counter s) (identities s) (sessions s) (prekeys s) (signed_prekeys s) x (identity_order s) (session_order s) (sync_keys s) (latest_sync_key_id s) (sync_key_order s) (versions s) (mutation_macs s) (sender_key_devices s) (lid_mappings s) (pn_mappings s) (base_keys s) (device_lists s) (tc_tokens s) (sent_messages s) (msg_secrets s).
Definition set_identity_order `{Wacore} (x : list bytes) (s : StoreInner) : StoreInner :=
  Inner _ (device s) (device_id_counter s) (identities s) (sessions s) (prekeys s) (signed_prekeys s) (sender_keys s) x (session_order s) (sync_keys s) (latest_sync_key_id s) (sync_key_order s) (versions s) (mutation_macs s) (sender_key_devices s) (lid_mappings s) (pn_mappings s) (base_keys s) (device_lists s) (tc_tokens s) (sent_messages s) (msg_secrets s).
Definition set_session_order `{Wacore} (x : list bytes) (s : StoreInner) : StoreInner :=
  Inner _ (device s) (device_id_counter s) (identities s) (sessions s) (prekeys s) (signed_prekeys s) (sender_keys s) (identity_order s) x (sync_keys s) (latest_sync_key_id s) (sync_key_order s) (versions s) (mutation_macs s) (sender_key_devices s) (lid_mappings s) (pn_mappings s) (base_keys s) (device_lists s) (tc_tokens s) (sent_messages s) (msg_secrets s).
Definition set_sync_keys `{Wacore} (x : gmap bytes AppStateSyncKey) (s : StoreInner) : StoreInner :=
  Inner _ (device s) (device_id_counter s) (identities s) (sessions s) (prekeys s) (signed_prekeys s) (sender_keys s) (identity_order s) (session_order s) x (latest_sync_key_id s) (sync_key_order s) (versions s) (mutation_macs s) (sender_key_devices s) (lid_mappings s) (pn_mappings s) (base_keys s) (device_lists s) (tc_tokens s) (sent_messages s) (msg_secrets s).
Definition set_latest_sync_key_id `{Wacore} (x : option bytes) (s : StoreInner) : StoreInner :=
  Inner _ (device s) (device_id_counter s) (identities s) (sessions s) (prekeys s) (signed_prekeys s) (sender_keys s) (identity_order s) (session_order s) (sync_keys s) x (sync_key_order s) (versions s) (mutation_macs s) (sender_key_devices s) (lid_mappings s) (pn_mappings s) (base_keys s) (device_lists s) (tc_tokens s) (sent_messages s) (msg_secrets s).
Definition set_sync_key_order `{Wacore} (x : list bytes) (s : StoreInner) : StoreInner :=
  Inner _ (device s) (device_id_counter s) (identities s) (sessions s) (prekeys s) (signed_prekeys s) (sender_keys s) (identity_order s) (session_order s) (sync_keys s) (latest_sync_key_id s) x (versions s) (mutation_macs s) (sender_key_devices s) (lid_mappings s) (pn_mappings s) (base_keys s) (device_lists s) (tc_tokens s) (sent_messages s) (msg_secrets s).
Definition set_versions `{Wacore} (x : gmap bytes HashState) (s : StoreInner) : StoreInner :=
  Inner _ (device s) (device_id_counter s) (identities s) (sessions s) (prekeys s) (signed_prekeys s) (sender_keys s) (identity_order s) (session_order s) (sync_keys s) (latest_sync_key_id s) (sync_key_order s) x (mutation_macs s) (sender_key_devices s) (lid_mappings s) (pn_mappings s) (base_keys s) (device_lists s) (tc_tokens s) (sent_messages s) (msg_secrets s).
Definition set_mutation_macs `{Wacore} (x : gmap bytes (gmap bytes bytes)) (s : StoreInner) : StoreInner :=
  Inner _ (device s) (device_id_counter s) (identities s) (sessions s) (prekeys s) (signed_prekeys s) (sender_keys s) (identity_order s) (session_order s) (sync_keys s) (latest_sync_key_id s) (sync_key_order s) (versions s) x (sender_key_devices s) (lid_mappings s) (pn_mappings s) (base_keys s) (device_lists s) (tc_tokens s) (sent_messages s) (msg_secrets s).
Definition set_sender_key_devices `{Wacore} (x : gmap bytes (list (bytes * bool))) (s : StoreInner) : StoreInner :=
  Inner _ (device s) (device_id_counter s) (identities s) (sessions s) (prekeys s) (signed_prekeys s) (sender_keys s) (identity_order s) (session_order s) (sync_keys s) (latest_sync_key_id s) (sync_key_order s) (versions s) (mutation_macs s) x (lid_mappings s) (pn_mappings s) (base_keys s) (device_lists s) (tc_tokens s) (sent_messages s) (msg_secrets s).
Definition set_lid_mappings `{Wacore} (x : gmap bytes LidPnMappingEntry) (s : StoreInner) : StoreInner :=
  Inner _ (device s) (device_id_counter s) (identities s) (sessions s) (prekeys s) (signed_prekeys s) (sender_keys s) (identity_order s) (session_order s) (sync_keys s) (latest_sync_key_id s) (sync_key_order s) (versions s) (mutation_macs s) (sender_key_devices s) x (pn_mappings s) (base_keys s) (device_lists s) (tc_tokens s) (sent_messages s) (msg_secrets s).
Definition set_pn_mappings `{Wacore} (x : gmap bytes bytes) (s : StoreInner) : StoreInner :=
  Inner _ (device s) (device_id_counter s) (identities s) (sessions s) (prekeys s) (signed_prekeys s) (sender_keys s) (identity_order s) (session_order s) (sync_keys s) (latest_sync_key_id s) (sync_key_order s) (versions s) (mutation_macs s) (sender_key_devices s) (lid_mappings s) x (base_keys s) (device_lists s) (tc_tokens s) (sent_messages s) (msg_secrets s).
Definition set_base_keys `{Wacore} (x : gmap bytes bytes) (s : StoreInner) : StoreInner :=
  Inner _ (device s) (device_id_counter s) (identities s) (sessions s) (prekeys s) (signed_prekeys s) (sender_keys s) (identity_order s) (session_order s) (sync_keys s) (latest_sync_key_id s) (sync_key_order s) (versions s) (mutation_macs s) (sender_key_devices s) (lid_mappings s) (pn_mappings s) x (device_lists s) (tc_tokens s) (sent_messages s) (msg_secrets s).
Definition set_device_lists `{Wacore} (x : gmap bytes DeviceListRecord) (s : StoreInner) : StoreInner :=
  Inner _ (device s) (device_id_counter s) (identities s) (sessions s) (prekeys s) (signed_prekeys s) (sender_keys s) (identity_order s) (session_order s) (sync_keys s) (latest_sync_key_id s) (sync_key_order s) (versions s) (mutation_macs s) (sender_key_devices s) (lid_mappings s) (pn_mappings s) (base_keys s) x (tc_tokens s) (sent_messages s) (msg_secrets s).
Definition set_tc_tokens `{Wacore} (x : gmap bytes TcTokenEntry) (s : StoreInner) : StoreInner :=
  Inner _ (device s) (device_id_counter s) (identities s) (sessions s) (prekeys s) (signed_prekeys s) (sender_keys s) (identity_order s) (session_order s) (sync_keys s) (latest_sync_key_id s) (sync_key_order s) (versions s) (mutation_macs s) (sender_key_devices s) (lid_mappings s) (pn_mappings s) (base_keys s) (device_lists s) x (sent_messages s) (msg_secrets s).
Definition set_sent_messages `{Wacore} (x : gmap bytes (bytes * Z)) (s : StoreInner) : StoreInner :=
  Inner _ (device s) (device_id_counter s) (identities s) (sessions s) (prekeys s) (signed_prekeys s) (sender_keys s) (identity_order s) (session_order s) (sync_keys s) (latest_sync_key_id s) (sync_key_order s) (versions s) (mutation_macs s) (sender_key_devices s) (lid_mappings s) (pn_mappings s) (base_keys s) (device_lists s) (tc_tokens s) x (msg_secrets s).
Definition set_msg_secrets `{Wacore} (x : gmap (bytes * bytes * bytes) (bytes * Z * Z)) (s : StoreInner) : StoreInner :=
  Inner _ (device s) (device_id_counter s) (identities s) (sessions s) (prekeys s) (signed_prekeys s) (sender_keys s) (identity_order s) (session_order s) (sync_keys s) (latest_sync_key_id s) (sync_key_order s) (versions s) (mutation_macs s) (sender_key_devices s) (lid_mappings s) (pn_mappings s) (base_keys s) (device_lists s) (tc_tokens s) (sent_messages s) x.

(** ** Capped mirrors

    Without PSRAM three of the maps are caches over flash. *)

Section Caps.
Context `{wacore : Wacore, board : Board}.

Definition enforce_identities_cap (s : StoreInner) : StoreInner :=
  if has_psram then s
  else
    let '(m, o) :=
      evict (overflow (identity_order s) (Z.of_nat (size (identities s))) 8)
            (identities s) (identity_order s) in
    set_identities m (set_identity_order o s).

Definition enforce_sessions_cap (s : StoreInner) : StoreInner :=
  if has_psram then s
  else
    let '(m, o) :=
      evict (overflow (session_order s) (Z.of_nat (size (sessions s))) 0)
            (sessions s) (session_order s) in
    set_sessions m (set_session_order o s).

(** Oldest first, but never the protected key. *)
Definition sync_keys_to_remove (protected : option bytes) (order : list bytes) (n : Z) : list bytes :=
  ztake (n - 8)
    (filter (fun k => ~ protected = Some k) (overflow order n 8)).

Definition enforce_sync_keys_cap_except (protected : option bytes) (s : StoreInner) : StoreInner :=
  if has_psram then s
  else
    let '(m, o) :=
      evict (sync_keys_to_remove protected (sync_key_order s) (Z.of_nat (size (sync_keys s))))
            (sync_keys s) (sync_key_order s) in
    set_sync_keys m (set_sync_key_order o s).

Definition enforce_sync_keys_cap (s : StoreInner) : StoreInner :=
  enforce_sync_keys_cap_except (latest_sync_key_id s) s.

(** [insert], [touched], [enforce_*_cap]: how an entry enters a capped
    mirror. *)
Definition mirror_identity (address key : bytes) (s : StoreInner) : StoreInner :=
  enforce_identities_cap
    (set_identity_order (touched address (identity_order s))
      (set_identities (<[address := key]> (identities s)) s)).

Definition mirror_session (address session : bytes) (s : StoreInner) : StoreInner :=
  enforce_sessions_cap
    (set_session_order (touched address (session_order s))
      (set_sessions (<[address := session]> (sessions s)) s)).

Definition mirror_sync_key (key_id : bytes) (key : AppStateSyncKey) (s : StoreInner) : StoreInner :=
  set_sync_key_order (touched key_id (sync_key_order s))
    (set_sync_keys (<[key_id := key]> (sync_keys s)) s).
End Caps.
