(* ===== verification/Store.v ===== *)
(** * The store ([NvsStore] of [src/storage.rs])

    The state of a store is the worker's flash state, the RAM state behind
    the [inner] mutex, and the two flags of its lifetime.  Every method of the
    five store traits is a computation in the state and error monad.  The
    [async] methods never await, so on the executor that runs them each is
    one step; the [operation] and [inner] mutexes are what makes a method a
    step for the other threads, and they have no state of their own here. *)

From S2P Require Import Prelude RustStr Nvs Record SessionSlots Lru Flash Platform StoreInner.
Record store (W : Type) `{Wacore} := Store {
  flash_state : fstate W;
  inner : StoreInner;
  accepting_writes : bool;
  (** The [wa-nvs] thread is there to take jobs. *)
  worker : bool;
}.
Arguments Store {W _} _ _ _ _.
Arguments flash_state {W _} _.
Arguments inner {W _} _.
Arguments accepting_writes {W _} _.
Arguments worker {W _} _.

Record StoreStats := Stats {
  stats_sessions : Z;
  stats_identities : Z;
  stats_prekeys : Z;
  stats_sender_keys : Z;
  stats_device_exists : bool;
}.

Section Store.
Context {W : Type} `{nvsW : !Nvs W, shaW : !Sha256, wacore : Wacore, board : Board}.

Abbreviation S A := (M (store W) StoreError A).

Definition set_flash_state (f : fstate W) (s : store W) : store W :=
  Store f (inner s) (accepting_writes s) (worker s).
Definition set_inner (i : StoreInner) (s : store W) : store W :=
  Store (flash_state s) i (accepting_writes s) (worker s).

(** [FlashWorker::run]: a job on the worker thread, and a reply. *)
Definition run {A} (job : M (fstate W) StoreError A) : S A := fun s =>
  if worker s then zoom flash_state set_flash_state job s
  else (s, Err (Io WorkerStopped)).

(** Work on the caller's thread that allocates from the same heap. *)
Definition here {A} (job : M (fstate W) StoreError A) : S A :=
  zoom flash_state set_flash_state job.

(** [self.lock()] for reading and for writing. *)
Definition look {A} (f : StoreInner -> A) : S A := fun s => (s, Ok (f (inner s))).
Definition update (f : StoreInner -> StoreInner) : S unit :=
  modify (fun s => set_inner (f (inner s)) s).

Definition write_operation : S unit := fun s =>
  if accepting_writes s then (s, Ok tt) else (s, Err (Validation SealedForMaintenance)).

Definition seal_writes : S unit :=
  modify (fun s => Store (flash_state s) (inner s) false (worker s)).

(** [ensure_insert_capacity] on a mirror. *)
Definition mirror_capacity {K V} `{Countable K} (f : StoreInner -> gmap K V) (key : K)
    (max : Z) (label : string) : S unit :=
  let* m := look f in
  lift (ensure_insert_capacity (bool_decide (is_Some (m !! key))) (Z.of_nat (size m)) max label).

(** ** Whole-store operations *)

Definition reset : S unit :=
  run reset_all ;;;
  update (fun _ => inner_default).

Definition clear_sessions : S Z :=
  let* count :=
    run (let* count := record_count NsSessions in
         set_slots SessionSlots.clear ;;;
         erase_namespace NsSessions "session" ;;;
         ret count) in
  update (fun s => set_session_order [] (set_sessions ∅ s)) ;;;
  ret count.

Definition list_sessions : S (list bytes) :=
  if has_psram then look (fun s => (map_to_list (sessions s)).*1)
  else run (namespace_addresses NsSessions "session").

(** [run(..).unwrap_or(default)] *)
Definition count_or (namespace : ns) (default : Z) : S Z :=
  let* r := attempt (run (record_count namespace)) in
  ret (match r with Ok n => n | Err _ => default end).

Definition stats : S StoreStats :=
  let* s := look (fun s => s) in
  let* (n_sessions, n_identities) :=
    (if has_psram then ret (Z.of_nat (size (sessions s)), Z.of_nat (size (identities s)))
     else
       let* n_sessions := count_or NsSessions (Z.of_nat (size (sessions s))) in
       let* n_identities := count_or NsIdentities (Z.of_nat (size (identities s))) in
       ret (n_sessions, n_identities)) in
  ret (Stats n_sessions n_identities (Z.of_nat (size (prekeys s)))
         (Z.of_nat (size (sender_keys s))) (bool_decide (is_Some (device s)))).

(** ** [SignalStore] *)

(** The body shared by [put_identity] and each round of
    [put_identities_batch]. *)
Definition put_one_identity (address key : bytes) : S unit :=
  mirror_capacity identities address MAX_IDENTITIES "identity" ;;;
  run (put_record NsIdentities address key "identity" MAX_IDENTITIES) ;;;
  update (mirror_identity address key).

Definition put_identity (address key : bytes) : S unit :=
  write_operation ;;;
  put_one_identity address key.

Fixpoint put_each {A} (put : A -> S unit) (l : list A) : S unit :=
  match l with
  | [] => ret tt
  | x :: l => put x ;;; put_each put l
  end.

Definition put_identities_batch (entries : list (bytes * bytes)) : S unit :=
  match entries with
  | [] => ret tt
  | _ => write_operation ;;; put_each (fun e => put_one_identity e.1 e.2) entries
  end.

Definition load_identity (address : bytes) : S (option bytes) :=
  let* mirrored := look (fun s => identities s !! address) in
  match mirrored with
  | Some key =>
      update (fun s => set_identity_order (touched address (identity_order s)) s) ;;;
      ret (Some key)
  | None =>
      let* payload := run (load_record NsIdentities address 32) in
      match payload with
      | Some key =>
          if bool_decide (length key = 32%nat) then
            update (mirror_identity address key) ;;;
            ret (Some key)
          else ret None
      | None => ret None
      end
  end.

Definition delete_identity (address : bytes) : S unit :=
  write_operation ;;;
  run (delete_record NsIdentities address "identity") ;;;
  update (fun s => set_identity_order (removed address (identity_order s))
                     (set_identities (delete address (identities s)) s)).

Definition get_session (address : bytes) : S (option bytes) :=
  let* mirrored := look (fun s => sessions s !! address) in
  match mirrored with
  | Some session =>
      update (fun s => set_session_order (touched address (session_order s)) s) ;;;
      ret (Some session)
  | None =>
      let* payload := run (load_record NsSessions address MAX_SIGNAL_RECORD_LEN) in
      match payload with
      | Some session =>
          update (mirror_session address session) ;;;
          ret (Some session)
      | None => ret None
      end
  end.

Definition put_session (address session : bytes) : S unit :=
  if len session >? MAX_SIGNAL_RECORD_LEN then
    fail (Validation (ValueTooLarge "session" (len session)))
  else
    write_operation ;;;
    mirror_capacity sessions address MAX_SESSIONS "session" ;;;
    let* name :=
      run (check_record_slot NsSessions address (len session) "session" MAX_SESSIONS) in
    let* record := here (encode_record reserve address session) in
    let mirrored := zdrop (RECORD_HEADER_LEN + len address) record in
    run (set_blob NsSessions name record) ;;;
    update (mirror_session address mirrored).

Definition put_one_session (address session : bytes) : S unit :=
  mirror_capacity sessions address MAX_SESSIONS "session" ;;;
  run (put_record NsSessions address session "session" MAX_SESSIONS) ;;;
  update (mirror_session address session).

Definition put_sessions_batch (entries : list (bytes * bytes)) : S unit :=
  match entries with
  | [] => ret tt
  | _ => write_operation ;;; put_each (fun e => put_one_session e.1 e.2) entries
  end.

Definition delete_session (address : bytes) : S unit :=
  write_operation ;;;
  run (delete_record NsSessions address "session") ;;;
  update (fun s => set_session_order (removed address (session_order s))
                     (set_sessions (delete address (sessions s)) s)).

(** The local function of [has_signal_state_for_user]. *)
Definition address_matches (address user : bytes) : bool :=
  match strip_prefix user address with
  | Some rest => starts_with (bs "@") rest || starts_with (bs ":") rest
  | None => false
  end.

Definition has_signal_state_for_user (user : bytes) : S bool :=
  let any (addresses : list bytes) := existsb (fun a => address_matches a user) addresses in
  let* mirrored := look (fun s => any (map_to_list (sessions s)).*1 || any (map_to_list (identities s)).*1) in
  if mirrored then ret true
  else if has_psram then ret false
  else
    let* addresses :=
      run (let* addresses := namespace_addresses NsSessions "session" in
           let* more := namespace_addresses NsIdentities "identity" in
           ret (addresses ++ more)) in
    ret (any addresses).

(** [u32::to_le_bytes] *)
Definition id_key (id : Z) : bytes := le_bytes 4 id.

Definition store_prekey (id : Z) (record : bytes) : S unit :=
  write_operation ;;;
  mirror_capacity prekeys id MAX_PREKEYS "prekey" ;;;
  run (put_record NsPrekeys (id_key id) record "prekey" MAX_PREKEYS) ;;;
  update (fun s => set_prekeys (<[id := record]> (prekeys s)) s).

Definition load_prekey (id : Z) : S (option bytes) := look (fun s => prekeys s !! id).

Definition remove_prekey (id : Z) : S unit :=
  write_operation ;;;
  run (delete_record NsPrekeys (id_key id) "prekey") ;;;
  update (fun s => set_prekeys (delete id (prekeys s)) s).

Definition get_max_prekey_id : S Z :=
  look (fun s => foldr Z.max 0 (map_to_list (prekeys s)).*1).

Definition mark_prekeys_uploaded (_ : list Z) : S unit := ret tt.

Definition store_signed_prekey (id : Z) (record : bytes) : S unit :=
  write_operation ;;;
  mirror_capacity signed_prekeys id MAX_SIGNED_PREKEYS "signed prekey" ;;;
  run (put_record NsSignedPrekeys (id_key id) record "signed prekey" MAX_SIGNED_PREKEYS) ;;;
  update (fun s => set_signed_prekeys (<[id := record]> (signed_prekeys s)) s).

Definition load_signed_prekey (id : Z) : S (option bytes) := look (fun s => signed_prekeys s !! id).

Definition load_all_signed_prekeys : S (list (Z * bytes)) :=
  look (fun s => map_to_list (signed_prekeys s)).

Definition remove_signed_prekey (id : Z) : S unit :=
  write_operation ;;;
  run (delete_record NsSignedPrekeys (id_key id) "signed prekey") ;;;
  update (fun s => set_signed_prekeys (delete id (signed_prekeys s)) s).

Definition put_sender_key (address record : bytes) : S unit :=
  write_operation ;;;
  mirror_capacity sender_keys address MAX_SENDER_KEYS "sender key" ;;;
  run (put_record NsSenderKeys address record "sender key" MAX_SENDER_KEYS) ;;;
  update (fun s => set_sender_keys (<[address := record]> (sender_keys s)) s).

Definition get_sender_key (address : bytes) : S (option bytes) :=
  look (fun s => sender_keys s !! address).

Definition delete_sender_key (address : bytes) : S unit :=
  write_operation ;;;
  run (delete_record NsSenderKeys address "sender key") ;;;
  update (fun s => set_sender_keys (delete address (sender_keys s)) s).

(** ** [AppSyncStore] *)

Definition get_sync_key (key_id : bytes) : S (option AppStateSyncKey) :=
  let* mirrored := look (fun s => sync_keys s !! key_id) in
  match mirrored with
  | Some key =>
      update (fun s => set_sync_key_order (touched key_id (sync_key_order s)) s) ;;;
      ret (Some key)
  | None =>
      let* payload := run (load_sync_key key_id) in
      match payload with
      | Some key =>
          update (fun s => enforce_sync_keys_cap (mirror_sync_key key_id key s)) ;;;
          ret (Some key)
      | None => ret None
      end
  end.

(** The worker's job of [set_sync_key]: the marker goes before the key. *)
Definition write_sync_key (key_id payload : bytes) : M (fstate W) StoreError unit :=
  let* (name, record) := prepare_record NsSyncKeys key_id payload "sync key" MAX_SYNC_KEYS in
  save_latest_sync_key_id key_id ;;;
  set_blob NsSyncKeys name record.

Definition set_sync_key (key_id : bytes) (key : AppStateSyncKey) : S unit :=
  write_operation ;;;
  mirror_capacity sync_keys key_id MAX_SYNC_KEYS "sync key" ;;;
  match to_vec key with
  | None => fail Serialization
  | Some payload =>
      run (write_sync_key key_id payload) ;;;
      update (fun s =>
        enforce_sync_keys_cap
          (mirror_sync_key key_id key (set_latest_sync_key_id (Some key_id) s)))
  end.

Definition get_version (name : bytes) : S (option HashState) := look (fun s => versions s !! name).
Definition delete_version (name : bytes) : S unit :=
  update (fun s => set_versions (delete name (versions s)) s).
Definition set_version (name : bytes) (state : HashState) : S unit :=
  update (fun s => set_versions (<[name := state]> (versions s)) s).

(** [entry(name).or_default()] *)
Definition entry_macs (name : bytes) (s : StoreInner) : gmap bytes bytes :=
  default ∅ (mutation_macs s !! name).
Definition insert_macs (mutations : list AppStateMutationMAC) (m : gmap bytes bytes) : gmap bytes bytes :=
  foldl (fun m x => <[index_mac x := value_mac x]> m) m mutations.
Definition remove_macs (indices : list bytes) (m : gmap bytes bytes) : gmap bytes bytes :=
  foldl (fun m index => delete index m) m indices.

Definition put_mutation_macs (name : bytes) (_version : Z) (mutations : list AppStateMutationMAC) : S unit :=
  update (fun s => set_mutation_macs
    (<[name := insert_macs mutations (entry_macs name s)]> (mutation_macs s)) s).

Definition commit_patch (name : bytes) (state : HashState) (removed_index_macs : list bytes)
    (added : list AppStateMutationMAC) : S unit :=
  update (fun s =>
    let map := entry_macs name s in
    let map := remove_macs removed_index_macs map in
    let map := insert_macs added map in
    let s := set_mutation_macs (<[name := map]> (mutation_macs s)) s in
    set_versions (<[name := state]> (versions s)) s).

Definition get_mutation_mac (name index : bytes) : S (option bytes) :=
  look (fun s => m ← mutation_macs s !! name; m !! index).

Definition delete_mutation_macs (name : bytes) (index_macs : list bytes) : S unit :=
  update (fun s =>
    match mutation_macs s !! name with
    | Some map => set_mutation_macs (<[name := remove_macs index_macs map]> (mutation_macs s)) s
    | None => s
    end).

Definition clear_mutation_macs (name : bytes) : S unit :=
  update (fun s => set_mutation_macs (delete name (mutation_macs s)) s).

Definition get_latest_sync_key_id : S (option bytes) := look latest_sync_key_id.

(** ** [DeviceStore] *)

Definition save (d : Device) : S unit :=
  write_operation ;;;
  run (save_device d) ;;;
  update (set_device (Some d)).

Definition load : S (option Device) := look device.
Definition exists_ : S bool := look (fun s => bool_decide (is_Some (device s))).

(** [i32] addition wraps in the release profile. *)
Definition wrap_i32 (z : Z) : Z := (z + 2 ^ 31) mod 2 ^ 32 - 2 ^ 31.

Definition create : S Z :=
  write_operation ;;;
  update (fun s => set_device_id_counter (wrap_i32 (device_id_counter s + 1)) s) ;;;
  look device_id_counter.
End Store.
