(* ===== verification/FlashWorker.v ===== *)
(** * The flash worker ([FlashWorker] of [src/storage.rs])

    Every thread that wants something of the flash hands its job to the one
    thread that holds the namespaces, and waits for the answer.  A machine of
    one channel operation a step: the calls of [run], the one-slot queue, the
    worker, and the rendezvous over which an answer goes back.  It implements
    what [Store.run] says: each job is one step on the namespaces. *)

From stdpp Require Import functions.
From S2P Require Import Prelude Nvs Record SessionSlots Lru Flash Platform StoreInner Store.

Section Worker.
(** The namespaces, the answers of jobs, and what the job of each call does. *)
Context {F A : Type} (job : nat -> F -> F * A).

(** A call of [run].  [Stopped]: the job could not be sent.  [Dropped]: the
    worker was gone before it answered. *)
Inductive flash_call := NotYet | Sending | Waiting | Answered (a : A) | Stopped | Dropped.

Inductive flash_thread := Receiving | Has (j : nat) | Replying (j : nat) (a : A) | Ended.

(** [jobs_sent] and [jobs_done] are history, in order. *)
Record flash_world := FlashWorld {
  calls : nat -> flash_call;
  jobs : option nat;
  nvs_thread : flash_thread;
  namespaces : F;
  jobs_sent : list nat;
  jobs_done : list nat;
}.

(** [FlashWorker::start] *)
Definition start (flash : F) : flash_world := FlashWorld (fun _ => NotYet) None Receiving flash [] [].

Definition set_call (j : nat) (c : flash_call) (w : flash_world) : flash_world :=
  FlashWorld (<[j := c]> (calls w)) (jobs w) (nvs_thread w) (namespaces w) (jobs_sent w) (jobs_done w).
Definition set_nvs_thread (t : flash_thread) (w : flash_world) : flash_world :=
  FlashWorld (calls w) (jobs w) t (namespaces w) (jobs_sent w) (jobs_done w).

Inductive flash_event :=
| CallRun (j : nat) | SendJob (j : nat) | ReceiveAnswer (j : nat) | Turn | Panic (flash : F).

(** The job, and with it the sender of its answer, is in the queue or with the
    worker. *)
Definition outstanding (j : nat) (w : flash_world) : bool :=
  bool_decide (jobs w = Some j) ||
  match nvs_thread w with Has i | Replying i _ => Nat.eqb i j | Receiving | Ended => false end.

(** [self.jobs.send], which waits for room. *)
Definition send_job (j : nat) (w : flash_world) : option flash_world :=
  match nvs_thread w, jobs w with
  | Ended, _ => Some (set_call j Stopped w)
  | _, None =>
      Some (FlashWorld (<[j := Waiting]> (calls w)) (Some j) (nvs_thread w) (namespaces w) (jobs_sent w ++ [j]) (jobs_done w))
  | _, Some _ => None
  end.

(** [result_rx.recv]: the worker's send and the receipt are one step. *)
Definition receive_answer (j : nat) (w : flash_world) : option flash_world :=
  match nvs_thread w with
  | Replying i a => if Nat.eqb i j then Some (set_call j (Answered a) (set_nvs_thread Receiving w)) else None
  | _ => if outstanding j w then None else Some (set_call j Dropped w)
  end.

(** The loop of the thread: a job is received, and it is run. *)
Definition nvs_turn (w : flash_world) : option flash_world :=
  match nvs_thread w with
  | Receiving =>
      match jobs w with
      | Some j => Some (FlashWorld (calls w) None (Has j) (namespaces w) (jobs_sent w) (jobs_done w))
      | None => None
      end
  | Has j =>
      let '(flash, a) := job j (namespaces w) in
      Some (FlashWorld (calls w) (jobs w) (Replying j a) flash (jobs_sent w) (jobs_done w ++ [j]))
  | Replying _ _ | Ended => None
  end.

(** [Panic]: a job panics, where that does not end the process, and leaves the
    flash as it is by then; the thread drops the queue. *)
Definition fwstep (e : flash_event) (w : flash_world) : option flash_world :=
  match e with
  | CallRun j => match calls w j with NotYet => Some (set_call j Sending w) | _ => None end
  | SendJob j => match calls w j with Sending => send_job j w | _ => None end
  | ReceiveAnswer j => match calls w j with Waiting => receive_answer j w | _ => None end
  | Turn => nvs_turn w
  | Panic flash =>
      match nvs_thread w with
      | Has _ => Some (FlashWorld (calls w) None Ended flash (jobs_sent w) (jobs_done w))
      | _ => None
      end
  end.

Inductive fwsteps : flash_world -> flash_world -> Prop :=
| fwsteps_refl w : fwsteps w w
| fwsteps_next w e w1 w2 : fwstep e w = Some w1 -> fwsteps w1 w2 -> fwsteps w w2.

(** The specification: jobs on the namespaces one after the other. *)
Definition run_jobs (js : list nat) (flash : F) : F := foldl (fun f j => (job j f).1) flash js.

(** ** The invariant *)

Definition live (w : flash_world) : bool := match nvs_thread w with Ended => false | _ => true end.
Definition called (c : flash_call) : bool := match c with NotYet | Sending | Stopped => false | _ => true end.
Definition taken (w : flash_world) : list nat := match nvs_thread w with Has j => [j] | _ => [] end.

(** What a sequential run of the jobs that were done answers to [j]. *)
Definition answers_in_order (flash : F) (js : list nat) (j : nat) (a : A) : Prop :=
  exists pre post, js = pre ++ j :: post /\ a = (job j (run_jobs pre flash)).2.

Record fwinv (flash : F) (w : flash_world) : Prop := {
  fw_once : NoDup (jobs_sent w);
  fw_called j : j ∈ jobs_sent w <-> called (calls w j) = true;
  fw_order : live w = true -> jobs_sent w = jobs_done w ++ taken w ++ option_list (jobs w);
  fw_prefix : jobs_done w `prefix_of` jobs_sent w;
  fw_flash : live w = true -> namespaces w = run_jobs (jobs_done w) flash;
  fw_replying j a : nvs_thread w = Replying j a -> calls w j = Waiting /\ answers_in_order flash (jobs_done w) j a;
  fw_answered j a : calls w j = Answered a -> answers_in_order flash (jobs_done w) j a;
  fw_waiting j : live w = true -> calls w j = Waiting -> outstanding j w = true;
  fw_failed j : calls w j = Stopped \/ calls w j = Dropped -> live w = false;
  fw_ended : live w = false -> jobs w = None;
}.

Lemma answers_more flash js js' j a : answers_in_order flash js j a -> answers_in_order flash (js ++ js') j a.
Proof. intros (pre & post & -> & ->). exists pre, (post ++ js'). by rewrite <- (assoc_L (++)). Qed.

Lemma answers_last flash js j : answers_in_order flash (js ++ [j]) j (job j (run_jobs js flash)).2.
Proof. by exists js, []. Qed.

Lemma run_jobs_snoc flash js j : run_jobs (js ++ [j]) flash = (job j (run_jobs js flash)).1.
Proof. unfold run_jobs. by rewrite foldl_app. Qed.

Lemma fwinv_start flash : fwinv flash (start flash).
Proof. split; cbn; try done; [constructor|intros j; by rewrite elem_of_nil|by intros j [?|?]]. Qed.

(** A call that moves on without its job being sent or answered. *)
Lemma fwinv_set_call flash j c w : fwinv flash w ->
  called (calls w j) = called c -> c <> Waiting -> (forall a, c <> Answered a) -> (c = Stopped \/ c = Dropped -> live w = false) ->
  (forall a, nvs_thread w <> Replying j a) ->
  fwinv flash (set_call j c w).
Proof.
  intros [H1 H2 H3 H4 H5 H6 H7 H8 H9 H10] Hc Hw Ha Hl Hr. split; cbn; try done.
  - intros i. rewrite H2. destruct (decide (i = j)) as [->|]; [by rewrite fn_lookup_insert, Hc|by rewrite fn_lookup_insert_ne].
  - intros i a Hi. destruct (decide (i = j)) as [->|]; [by destruct (Hr a)|rewrite fn_lookup_insert_ne by done; eauto].
  - intros i a. destruct (decide (i = j)) as [->|]; [rewrite fn_lookup_insert|rewrite fn_lookup_insert_ne by done; auto].
    intros ->. by destruct (Ha a).
  - intros i Hv. destruct (decide (i = j)) as [->|]; [by rewrite fn_lookup_insert|rewrite fn_lookup_insert_ne by done].
    by apply H8.
  - intros i. destruct (decide (i = j)) as [->|]; [by rewrite fn_lookup_insert|rewrite fn_lookup_insert_ne by done]. apply H9.
Qed.

Lemma fwinv_send flash j w w' : fwinv flash w -> calls w j = Sending -> send_job j w = Some w' -> fwinv flash w'.
Proof.
  intros Hi Hc. unfold send_job. destruct (live w) eqn:El.
  2: { assert (nvs_thread w = Ended) as Et by (unfold live in El; by destruct (nvs_thread w)). rewrite Et. intros [= <-].
       apply fwinv_set_call; try done; [by rewrite Hc|by intros a; rewrite Et]. }
  destruct (jobs w) as [i|] eqn:Eq; [unfold live in El; by destruct (nvs_thread w)|].
  destruct Hi as [H1 H2 H3 H4 H5 H6 H7 H8 H9 H10]. specialize (H3 El). rewrite Eq in H3. cbn in H3. rewrite app_nil_r in H3.
  assert (Hn : j ∉ jobs_sent w) by (rewrite H2, Hc; done).
  intros Hs. assert (w' = FlashWorld (<[j := Waiting]> (calls w)) (Some j) (nvs_thread w) (namespaces w) (jobs_sent w ++ [j]) (jobs_done w))
    as -> by (unfold live in El; destruct (nvs_thread w); by simplify_eq).
  split; cbn; try done.
  - apply NoDup_app. split_and!; [done| |apply NoDup_singleton]. intros i Hi ->%list_elem_of_singleton. done.
  - intros i. rewrite elem_of_app, list_elem_of_singleton, H2.
    destruct (decide (i = j)) as [->|]; [rewrite fn_lookup_insert; naive_solver|rewrite fn_lookup_insert_ne by done; naive_solver].
  - intros _. unfold taken in *. cbn. by rewrite H3, <- (assoc_L (++)).
  - by apply prefix_app_r.
  - intros i a Hi. destruct (H6 i a Hi) as [Hw ?]. split; [|done].
    destruct (decide (i = j)) as [->|]; [by rewrite fn_lookup_insert|by rewrite fn_lookup_insert_ne].
  - intros i a. destruct (decide (i = j)) as [->|]; [by rewrite fn_lookup_insert|rewrite fn_lookup_insert_ne by done; auto].
  - intros i Hv. unfold outstanding. cbn. destruct (decide (i = j)) as [->|]; [by rewrite bool_decide_true|].
    rewrite fn_lookup_insert_ne by done. intros Hw. specialize (H8 i El Hw). unfold outstanding in H8.
    rewrite Eq, bool_decide_false in H8 by done. cbn in H8. rewrite H8. apply orb_true_r.
  - intros i. destruct (decide (i = j)) as [->|]; [rewrite fn_lookup_insert; by intros [?|?]|rewrite fn_lookup_insert_ne by done; apply H9].
  - intros Hl. unfold live in *. cbn in Hl. congruence.
Qed.

Lemma fwinv_receive flash j w w' : fwinv flash w -> calls w j = Waiting -> receive_answer j w = Some w' -> fwinv flash w'.
Proof.
  intros Hi Hc. unfold receive_answer.
  assert (Hd : outstanding j w = false -> forall v, v = set_call j Dropped w -> fwinv flash v).
  { intros Ho v ->. apply fwinv_set_call; try done; [by rewrite Hc| |].
    - intros _. destruct (live w) eqn:El; [|done]. by rewrite (fw_waiting _ _ Hi j El Hc) in Ho.
    - intros a Ht. unfold outstanding in Ho. rewrite Ht, Nat.eqb_refl in Ho. by rewrite orb_true_r in Ho. }
  destruct (nvs_thread w) as [|i|i a|] eqn:Et; try (destruct (outstanding j w) eqn:Eo; [done|]; intros [= <-]; by apply Hd).
  destruct (Nat.eqb_spec i j) as [->|]; [|done]. intros [= <-]. clear Hd.
  assert (El : live w = true) by (unfold live; by rewrite Et).
  destruct Hi as [H1 H2 H3 H4 H5 H6 H7 H8 H9 H10]. split; cbn; try done.
  - intros i. rewrite H2. destruct (decide (i = j)) as [->|]; [by rewrite fn_lookup_insert, Hc|by rewrite fn_lookup_insert_ne].
  - intros _. rewrite (H3 El). unfold taken. cbn. by rewrite Et.
  - intros _. by apply H5.
  - intros i b. destruct (decide (i = j)) as [->|]; [rewrite fn_lookup_insert; intros [= <-]; by apply H6|].
    rewrite fn_lookup_insert_ne by done. auto.
  - intros i _. destruct (decide (i = j)) as [->|Hn]; [by rewrite fn_lookup_insert|]. rewrite fn_lookup_insert_ne by done.
    intros Hw. specialize (H8 i El Hw). unfold outstanding in *. cbn. rewrite Et in H8.
    destruct (Nat.eqb_spec j i); [congruence|]. done.
  - intros i. destruct (decide (i = j)) as [->|]; [rewrite fn_lookup_insert; by intros [?|?]|rewrite fn_lookup_insert_ne by done].
    intros Hf. apply H9 in Hf. congruence.
Qed.

Lemma fwinv_turn flash w w' : fwinv flash w -> nvs_turn w = Some w' -> fwinv flash w'.
Proof.
  intros [H1 H2 H3 H4 H5 H6 H7 H8 H9 H10]. unfold nvs_turn.
  destruct (nvs_thread w) as [|j|j a|] eqn:Et; try done; (assert (El : live w = true) by (unfold live; by rewrite Et));
    specialize (H3 El); unfold taken in H3; rewrite Et in H3.
  - destruct (jobs w) as [j|] eqn:Eq; [|done]. intros [= <-]. split; cbn; try done.
    + intros _. by apply H5.
    + intros i _ Hw. specialize (H8 i El Hw). unfold outstanding in *. cbn. rewrite Et, Eq, orb_false_r, bool_decide_eq_true in H8.
      injection H8 as ->. rewrite Nat.eqb_refl. apply orb_true_r.
    + intros i Hf. apply H9 in Hf. congruence.
  - destruct (job j (namespaces w)) as [f a] eqn:Ej. rewrite (H5 El) in Ej.
    assert (Ha : answers_in_order flash (jobs_done w ++ [j]) j a) by (pose proof (answers_last flash (jobs_done w) j) as H; by rewrite Ej in H).
    intros [= <-]. split; cbn; try done.
    + intros _. rewrite H3. unfold taken. cbn. by rewrite <- (assoc_L (++)).
    + rewrite H3, (assoc_L (++)). by apply prefix_app_r.
    + intros _. symmetry. etrans; [apply run_jobs_snoc|by rewrite Ej].
    + intros i b [= <- <-]. split; [|done]. assert (Hj : called (calls w j) = true) by (apply H2; rewrite H3; set_solver).
      destruct (calls w j) as [| | |b| |] eqn:Ec; try done.
      * apply H7 in Ec as (pre & post & E & _). rewrite H3, E in H1. exfalso. clear -H1.
        rewrite <- (assoc_L (++)) in H1. apply NoDup_app in H1 as (_ & _ & H1). cbn in H1. apply NoDup_cons in H1 as [H1 _]. set_solver.
      * exfalso. assert (live w = false) by (apply (H9 j); by right). congruence.
    + intros i b Hb. by apply answers_more, H7.
    + intros i _ Hw. specialize (H8 i El Hw). unfold outstanding in *. cbn. by rewrite Et in H8.
    + intros i Hf. apply H9 in Hf. congruence.
Qed.

Lemma fwinv_step flash e w w' : fwinv flash w -> fwstep e w = Some w' -> fwinv flash w'.
Proof.
  intros Hi. destruct e as [j|j|j| |left_]; cbn [fwstep].
  - destruct (calls w j) eqn:Ec; try done. intros [= <-]. apply fwinv_set_call; try done; [by rewrite Ec|by intros [?|?]|].
    intros a Ht. destruct (fw_replying _ _ Hi j a Ht). congruence.
  - destruct (calls w j) eqn:Ec; try done. by apply fwinv_send.
  - destruct (calls w j) eqn:Ec; try done. by apply fwinv_receive.
  - by apply fwinv_turn.
  - destruct (nvs_thread w) as [|j| |] eqn:Et; try done. intros [= <-].
    destruct Hi as [H1 H2 H3 H4 H5 H6 H7 H8 H9 H10]. by split.
Qed.

Lemma fwinv_steps flash w w' : fwsteps w w' -> fwinv flash w -> fwinv flash w'.
Proof. induction 1 as [|w e w1 w2 Hw _ IH]; intros Hi; [done|]. eapply IH, fwinv_step, Hw. exact Hi. Qed.

Lemma fwinv_reachable flash w : fwsteps (start flash) w -> fwinv flash w.
Proof. intros Hs. eapply fwinv_steps, fwinv_start. exact Hs. Qed.

(** The order of the jobs that were done is never revised. *)
Lemma done_grows_step e w w' : fwstep e w = Some w' -> jobs_done w `prefix_of` jobs_done w'.
Proof.
  destruct e as [j|j|j| |f]; cbn [fwstep].
  - destruct (calls w j); try done. by intros [= <-].
  - destruct (calls w j); try done. unfold send_job. by destruct (nvs_thread w), (jobs w); intros [= <-].
  - destruct (calls w j); try done. unfold receive_answer.
    destruct (nvs_thread w) as [|i|i a|]; [..|destruct (outstanding j w); by intros [= <-]].
    + destruct (outstanding j w); by intros [= <-].
    + destruct (outstanding j w); by intros [= <-].
    + destruct (Nat.eqb i j); by intros [= <-].
  - unfold nvs_turn. destruct (nvs_thread w) as [|j| |]; try done.
    + destruct (jobs w); by intros [= <-].
    + destruct (job j (namespaces w)). intros [= <-]. cbn. by apply prefix_app_r.
  - destruct (nvs_thread w); by intros [= <-].
Qed.

Lemma done_grows w w' : fwsteps w w' -> jobs_done w `prefix_of` jobs_done w'.
Proof. induction 1 as [|w e w1 w2 Hw _ IH]; [done|]. etrans; [by eapply done_grows_step|done]. Qed.

(** ** Every call is answered *)

Definition progress (w : flash_world) : option flash_world :=
  match nvs_thread w with Replying j _ => fwstep (ReceiveAnswer j) w | _ => fwstep Turn w end.
Definition drive (w : flash_world) : flash_world := default w (progress w).
Definition to_do (w : flash_world) : nat :=
  (3 * length (option_list (jobs w)) + match nvs_thread w with Has _ => 2 | Replying _ _ => 1 | _ => 0 end)%nat.

Lemma drive_steps n w : fwsteps w (Nat.iter n drive w).
Proof.
  revert w. induction n as [|n IH]; intros w; [apply fwsteps_refl|]. rewrite Nat.iter_succ_r.
  unfold drive at 2. destruct (progress w) as [w1|] eqn:E; [|apply IH].
  unfold progress in E. destruct (nvs_thread w); by eapply fwsteps_next.
Qed.

Lemma drive_progress flash w : fwinv flash w -> live w = true ->
  live (drive w) = true /\ (to_do (drive w) <= to_do w - 1)%nat /\
  (forall j, calls w j = Waiting -> calls (drive w) j = Waiting \/ exists a, calls (drive w) j = Answered a) /\
  (forall j a, calls w j = Answered a -> calls (drive w) j = Answered a) /\
  (forall j, calls w j = Sending -> calls (drive w) j = Sending).
Proof.
  intros Hi Hl. unfold drive, progress, to_do. destruct (nvs_thread w) as [|j|j a|] eqn:Et; cbn [fwstep].
  - unfold nvs_turn. rewrite Et. destruct (jobs w) eqn:Eq; cbn; [by split_and!; [done|lia|auto..]|].
    rewrite Et, Eq. cbn. by split_and!; auto.
  - unfold nvs_turn. rewrite Et. destruct (job j (namespaces w)). cbn. split_and!; [done|lia|auto..].
  - destruct (fw_replying _ _ Hi j a Et) as [Hw _]. rewrite Hw. unfold receive_answer. rewrite Et, Nat.eqb_refl. cbn.
    split_and!; [done|lia|..].
    all: intros i; try intros b; destruct (decide (i = j)) as [->|]; rewrite ?fn_lookup_insert, ?fn_lookup_insert_ne by done; eauto; congruence.
  - unfold live in Hl. by rewrite Et in Hl.
Qed.

Lemma drives_progress flash n : forall w, fwinv flash w -> live w = true ->
  live (Nat.iter n drive w) = true /\ (to_do (Nat.iter n drive w) <= to_do w - n)%nat /\
  (forall j, calls w j = Waiting \/ (exists a, calls w j = Answered a) ->
    calls (Nat.iter n drive w) j = Waiting \/ exists a, calls (Nat.iter n drive w) j = Answered a) /\
  (forall j, calls w j = Sending -> calls (Nat.iter n drive w) j = Sending).
Proof.
  induction n as [|n IH]; intros w Hi Hl; [cbn; split_and!; auto; lia|]. rewrite Nat.iter_succ_r.
  destruct (drive_progress flash w Hi Hl) as (H1 & H2 & H3 & H4 & H5).
  assert (Hd : fwinv flash (drive w)) by apply (fwinv_steps _ _ _ (drive_steps 1 w) Hi).
  destruct (IH _ Hd H1) as (G1 & G2 & G3 & G4). split_and!; [done|lia| |auto].
  intros j [Hj|[a Hj]]; apply G3; [auto|right; eauto].
Qed.

Lemma to_do_bound w : (to_do w <= 5)%nat.
Proof. unfold to_do. destruct (jobs w), (nvs_thread w); cbn; lia. Qed.

(** A worker with nothing to do: nobody waits, and a job that is being sent
    gets in. *)
Lemma idle_answers flash w : fwinv flash w -> live w = true -> to_do w = 0%nat ->
  forall j, calls w j <> Waiting /\ (calls w j = Sending -> exists w', fwstep (SendJob j) w = Some w' /\ calls w' j = Waiting).
Proof.
  intros Hi Hl H0 j. unfold to_do in H0. assert (Eq : jobs w = None) by by destruct (jobs w).
  assert (Et : nvs_thread w = Receiving) by (unfold live in Hl; rewrite Eq in H0; by destruct (nvs_thread w)).
  split.
  - intros Hw. assert (Ho := fw_waiting _ _ Hi j Hl Hw). unfold outstanding in Ho. by rewrite Eq, Et in Ho.
  - intros Hs. cbn [fwstep]. rewrite Hs. unfold send_job. rewrite Et, Eq. eexists. split; [done|]. apply fn_lookup_insert.
Qed.
End Worker.

(** C15. The flash worker makes every job one step.  However many threads call
    it and however their calls interleave: the jobs are run one at a time, in
    the order they were sent, on the namespaces that the one before left, and
    none twice; a call gets the answer that this sequence gives its job; a
    call that begins after another was answered comes after it; a call comes
    back without an answer only if the worker is gone; and while it is there,
    five of its turns answer everyone who waits and make room for everyone
    who sends. *)
Theorem flash_calls_are_sequential {F A} (job : nat -> F -> F * A) flash w w' :
  fwsteps job (start flash) w -> fwsteps job w w' ->
  (live w = true -> namespaces w = run_jobs job (jobs_done w) flash) /\
  NoDup (jobs_sent w) /\ jobs_done w `prefix_of` jobs_sent w /\
  (forall j a, calls w j = Answered a -> answers_in_order job flash (jobs_done w) j a) /\
  (forall i j a, calls w i = Answered a -> calls w j = NotYet ->
    exists later, jobs_done w' = jobs_done w ++ later /\ i ∈ jobs_done w /\ j ∉ jobs_done w) /\
  (forall j, calls w j = Stopped \/ calls w j = Dropped -> live w = false) /\
  (live w = true -> exists w2, w2 = Nat.iter 5 (drive job) w /\ fwsteps job w w2 /\
    forall j, (calls w j = Waiting -> exists a, calls w2 j = Answered a) /\
      (calls w j = Sending -> exists w3, fwstep job (SendJob j) w2 = Some w3 /\ calls w3 j = Waiting)).
Proof.
  intros Hr Hs. assert (Hi := fwinv_reachable job flash w Hr). split_and!.
  - apply (fw_flash _ _ _ Hi).
  - apply (fw_once _ _ _ Hi).
  - apply (fw_prefix _ _ _ Hi).
  - apply (fw_answered _ _ _ Hi).
  - intros i j a Ha Hj. destruct (done_grows job w w' Hs) as [later Hl]. exists later. split_and!; [done|..].
    + apply (fw_answered _ _ _ Hi) in Ha as (pre & post & -> & _). set_solver.
    + intros Hd. destruct (fw_prefix _ _ _ Hi) as [k Hk].
      assert (Hc : called (calls w j) = true) by (apply (fw_called _ _ _ Hi); rewrite Hk; set_solver). by rewrite Hj in Hc.
  - apply (fw_failed _ _ _ Hi).
  - intros Hl. exists (Nat.iter 5 (drive job) w). split; [done|]. assert (Hd := drive_steps job 5 w). split; [done|].
    destruct (drives_progress job flash 5 w Hi Hl) as (H1 & H2 & H3 & H4). assert (Hb := to_do_bound w).
    assert (Hi2 := fwinv_steps job _ _ _ Hd Hi).
    intros j. destruct (idle_answers job flash _ Hi2 H1 ltac:(lia) j) as [G1 G2]. split; [|auto].
    intros Hj. by destruct (H3 j (or_introl Hj)).
Qed.

(** ** [Store.run] is a call *)

Section Run.
Context {W : Type} `{nvsW : !Nvs W, wacore : Wacore}.

Fixpoint fwrun {F A} (job : nat -> F -> F * A) (es : list flash_event) (w : flash_world) : option (flash_world (F := F) (A := A)) :=
  match es with [] => Some w | e :: es => match fwstep job e w with Some w => fwrun job es w | None => None end end.

Lemma fwrun_fwsteps {F A} (job : nat -> F -> F * A) es : forall w w', fwrun job es w = Some w' -> fwsteps job w w'.
Proof.
  induction es as [|e es IH]; intros w w'; cbn; [intros [= <-]; apply fwsteps_refl|].
  destruct (fwstep job e w) eqn:E; [|done]. intros Hr. eapply fwsteps_next; [exact E|by apply IH].
Qed.

(** With the worker free, a call of [run] is what [Store.run] does to the
    store in one step; with the worker gone, it is refused. *)
Lemma run_is_a_call {A} (m : M (fstate W) StoreError A) (s : store W) (w : flash_world) j :
  calls w j = NotYet ->
  (worker s = true -> nvs_thread w = Receiving -> jobs w = None -> namespaces w = flash_state s ->
    exists w' r, fwrun (fun _ => m) [CallRun j; SendJob j; Turn; Turn; ReceiveAnswer j] w = Some w' /\
      calls w' j = Answered r /\ run m s = (set_flash_state (namespaces w') s, r)) /\
  (worker s = false -> nvs_thread w = Ended ->
    exists w', fwrun (fun _ => m) [CallRun j; SendJob j] w = Some w' /\
      calls w' j = Stopped /\ run m s = (s, Err (Io WorkerStopped))).
Proof.
  intros Hj. split.
  - intros Hw Et Eq En. cbn [fwrun fwstep]. rewrite Hj. cbn [set_call calls]. rewrite fn_lookup_insert.
    unfold send_job. cbn [set_call nvs_thread jobs]. rewrite Et, Eq. cbn [nvs_turn nvs_thread jobs namespaces set_call]. rewrite En.
    unfold run. rewrite Hw. unfold zoom. destruct (m (flash_state s)) as [f r]. cbn [calls].
    rewrite !fn_lookup_insert. unfold receive_answer. cbn [nvs_thread]. rewrite Nat.eqb_refl.
    eexists _, r. split; [done|]. cbn. by rewrite fn_lookup_insert.
  - intros Hw Et. cbn [fwrun fwstep]. rewrite Hj. cbn [set_call calls]. rewrite fn_lookup_insert.
    unfold send_job. cbn [set_call nvs_thread]. rewrite Et. eexists. split; [done|]. cbn. rewrite fn_lookup_insert.
    unfold run. by rewrite Hw.
Qed.
End Run.

(** Two threads add to a counter; the second waits while the first's job is
    run. *)
Definition adds (j : nat) (n : Z) : Z * Z := (n + Z.of_nat j, n).
Definition two_adds : list (flash_event (F := Z)) := [CallRun 3; SendJob 3; CallRun 4; Turn; SendJob 4; Turn; ReceiveAnswer 3; CallRun 5].
Definition after_adds : flash_world (F := Z) (A := Z) := default (start 10) (fwrun adds two_adds (start 10)).

Lemma flash_calls_are_sequential_witness :
  namespaces after_adds = 13 /\ calls after_adds 3%nat = Answered 10 /\
  exists a, calls (Nat.iter 5 (drive adds) after_adds) 4%nat = Answered a.
Proof.
  assert (Hr : fwsteps adds (start 10) after_adds) by by apply (fwrun_fwsteps adds two_adds).
  destruct (flash_calls_are_sequential adds 10 after_adds after_adds Hr (fwsteps_refl _ _)) as (H1 & _ & _ & _ & _ & _ & H2).
  split_and!; [by rewrite H1|done|]. destruct (H2 eq_refl) as (w2 & -> & _ & H). by apply (H 4%nat).
Defined.
