(* ===== verification/StoreRam.v ===== *)
(** * The store's RAM-only traits ([ProtocolStore], [MsgSecretStore])

    Caches the protocol can rebuild: they never touch flash, never fail, and
    each method is one critical section of the [inner] mutex. *)

From S2P Require Import Prelude RustStr Nvs Record Lru Flash Platform StoreInner Store.
(** [format!("{a}:{b}")] *)
Definition composite_key (a b : bytes) : bytes := a ++ bs ":" ++ b.

Definition msg_secret_key (chat sender msg_id : bytes) : bytes * bytes * bytes :=
  (chat, sender, msg_id).

(** ** The map updates *)

(** [set_sender_key_status] on one row. *)
Fixpoint set_status (jid : bytes) (status : bool) (devices : list (bytes * bool)) : list (bytes * bool) :=
  match devices with
  | [] => [(jid, status)]
  | (j, st) :: devices =>
      if bool_decide (j = jid) then (j, status) :: devices
      else (j, st) :: set_status jid status devices
  end.

Definition set_statuses (entries : list (bytes * bool)) (devices : list (bytes * bool)) :=
  foldl (fun devices e => set_status e.1 e.2 devices) devices entries.

Definition keep_tc_token (token_cutoff sender_cutoff : Z) (v : TcTokenEntry) : bool :=
  let token_live := negb (bool_decide (token v = [])) && (token_timestamp v >=? token_cutoff) in
  let sender_live := match sender_timestamp v with Some ts => ts >=? sender_cutoff | None => false end in
  token_live || sender_live.

Definition touch_entry (ts : Z) (o : option TcTokenEntry) : TcTokenEntry :=
  match o with
  | Some e => TcToken (token e) (token_timestamp e)
      (Some (match sender_timestamp e with Some e => Z.max e ts | None => ts end))
  | None => TcToken [] ts (Some ts)
  end.

Definition receive_entry (tok : bytes) (ts : Z) (o : option TcTokenEntry) : TcTokenEntry :=
  match o with
  | Some e =>
      if negb (bool_decide (token e = [])) && (ts <? token_timestamp e) then e
      else TcToken tok ts (sender_timestamp e)
  | None => TcToken tok ts None
  end.

Section Ram.
Context {W : Type} `{wacore : Wacore}.

Abbreviation S A := (M (store W) StoreError A).

(** Entries of [m] that [keep] rejects, counted [as u32]. *)
Definition retained {K V} `{Countable K} (keep : V -> bool) (m : gmap K V) : gmap K V :=
  filter (fun kv => keep kv.2 = true) m.
Definition dropped {K V} `{Countable K} (keep : V -> bool) (m : gmap K V) : Z :=
  wrap 32 (Z.of_nat (size m) - Z.of_nat (size (retained keep m))).

Definition get_sender_key_devices (group_jid : bytes) : S (list (bytes * bool)) :=
  look (fun s => default [] (sender_key_devices s !! group_jid)).

Definition set_sender_key_status (group_jid : bytes) (entries : list (bytes * bool)) : S unit :=
  update (fun s =>
    let devices := default [] (sender_key_devices s !! group_jid) in
    set_sender_key_devices (<[group_jid := set_statuses entries devices]> (sender_key_devices s)) s).

Definition clear_sender_key_devices (group_jid : bytes) : S unit :=
  update (fun s => set_sender_key_devices (delete group_jid (sender_key_devices s)) s).

Definition clear_all_sender_key_devices : S unit := update (set_sender_key_devices ∅).

Definition delete_sender_key_device_rows (device_jids : list bytes) : S unit :=
  update (fun s => set_sender_key_devices
    (filter (fun row => ~ row.1 ∈ device_jids) <$> sender_key_devices s) s).

Definition get_lid_mapping (l : bytes) : S (option LidPnMappingEntry) :=
  look (fun s => lid_mappings s !! l).

Definition get_pn_mapping (phone : bytes) : S (option LidPnMappingEntry) :=
  look (fun s => l ← pn_mappings s !! phone; lid_mappings s !! l).

Definition put_lid_mapping (entry : LidPnMappingEntry) : S unit :=
  update (fun s =>
    let s := set_pn_mappings (<[phone_number entry := lid entry]> (pn_mappings s)) s in
    set_lid_mappings (<[lid entry := entry]> (lid_mappings s)) s).

Definition get_all_lid_mappings : S (list LidPnMappingEntry) :=
  look (fun s => (map_to_list (lid_mappings s)).*2).

Definition save_base_key (address message_id base_key : bytes) : S unit :=
  update (fun s => set_base_keys (<[composite_key address message_id := base_key]> (base_keys s)) s).

Definition has_same_base_key (address message_id current_base_key : bytes) : S bool :=
  look (fun s => bool_decide (base_keys s !! composite_key address message_id = Some current_base_key)).

Definition delete_base_key (address message_id : bytes) : S unit :=
  update (fun s => set_base_keys (delete (composite_key address message_id) (base_keys s)) s).

Definition update_device_list (record : DeviceListRecord) : S unit :=
  update (fun s => set_device_lists (<[user record := record]> (device_lists s)) s).

Definition get_devices (u : bytes) : S (option DeviceListRecord) := look (fun s => device_lists s !! u).
Definition delete_devices (u : bytes) : S unit :=
  update (fun s => set_device_lists (delete u (device_lists s)) s).

Definition get_tc_token (jid : bytes) : S (option TcTokenEntry) := look (fun s => tc_tokens s !! jid).
Definition put_tc_token (jid : bytes) (entry : TcTokenEntry) : S unit :=
  update (fun s => set_tc_tokens (<[jid := entry]> (tc_tokens s)) s).
Definition delete_tc_token (jid : bytes) : S unit :=
  update (fun s => set_tc_tokens (delete jid (tc_tokens s)) s).
Definition get_all_tc_token_jids : S (list bytes) := look (fun s => (map_to_list (tc_tokens s)).*1).

Definition delete_expired_tc_tokens (token_cutoff sender_cutoff : Z) : S Z :=
  let keep := keep_tc_token token_cutoff sender_cutoff in
  let* before := look tc_tokens in
  update (fun s => set_tc_tokens (retained keep (tc_tokens s)) s) ;;;
  ret (dropped keep before).

Definition touch_tc_token_sender_timestamp (jid : bytes) (ts : Z) : S unit :=
  update (fun s => set_tc_tokens (<[jid := touch_entry ts (tc_tokens s !! jid)]> (tc_tokens s)) s).

Definition store_received_tc_token (jid tok : bytes) (ts : Z) : S unit :=
  update (fun s => set_tc_tokens (<[jid := receive_entry tok ts (tc_tokens s !! jid)]> (tc_tokens s)) s).

(** [now] is the wall clock in seconds since the epoch, 0 before it. *)
Definition store_sent_message (now : Z) (chat_jid message_id payload : bytes) : S unit :=
  update (fun s => set_sent_messages
    (<[composite_key chat_jid message_id := (payload, now)]> (sent_messages s)) s).

Definition take_sent_message (chat_jid message_id : bytes) : S (option bytes) :=
  let key := composite_key chat_jid message_id in
  let* taken := look (fun s => sent_messages s !! key) in
  update (fun s => set_sent_messages (delete key (sent_messages s)) s) ;;;
  ret (fst <$> taken).

Definition delete_expired_sent_messages (cutoff : Z) : S Z :=
  let keep (v : bytes * Z) := v.2 >=? cutoff in
  let* before := look sent_messages in
  update (fun s => set_sent_messages (retained keep (sent_messages s)) s) ;;;
  ret (dropped keep before).

(** One entry of [put_msg_secrets]. *)
Definition merge_msg_secret (e : MsgSecretEntry) (o : option (bytes * Z * Z)) : bytes * Z * Z :=
  match o with
  | Some (_, expires_at, message_ts) =>
      (ms_secret e,
       merge_msg_secret_expiry expires_at (ms_expires_at e),
       merge_msg_secret_message_ts message_ts (ms_message_ts e))
  | None => (ms_secret e, ms_expires_at e, ms_message_ts e)
  end.
Definition put_msg_secret (e : MsgSecretEntry) (m : gmap (bytes * bytes * bytes) (bytes * Z * Z)) :=
  let key := (ms_chat e, ms_sender e, ms_msg_id e) in
  <[key := merge_msg_secret e (m !! key)]> m.

Definition put_msg_secrets (entries : list MsgSecretEntry) : S Z :=
  update (fun s => set_msg_secrets (foldl (fun m e => put_msg_secret e m) (msg_secrets s) entries) s) ;;;
  ret (len entries).

(** The secret and the message timestamp of [StoredMessageSecret::new]. *)
Definition get_stored_msg_secret (chat sender msg_id : bytes) : S (option (bytes * Z)) :=
  look (fun s =>
    (fun '(secret, _, ts) => (secret, ts)) <$> msg_secrets s !! msg_secret_key chat sender msg_id).

Definition keep_msg_secret (cutoff : Z) (v : bytes * Z * Z) : bool :=
  let '(_, expires_at, _) := v in (expires_at =? 0) || (expires_at >? cutoff).

Definition delete_expired_msg_secrets (cutoff : Z) : S Z :=
  let keep := keep_msg_secret cutoff in
  let* before := look msg_secrets in
  update (fun s => set_msg_secrets (retained keep (msg_secrets s)) s) ;;;
  ret (dropped keep before).
End Ram.
