(* ===== verification/StoreInv.v ===== *)
(** * The store's invariant

    What holds between calls of the store's methods, whatever failed before:
    the partition's contents have the shape the boot replay expects, within
    the durable limits, and the capped mirrors respect their caps and their
    use orders.  [agrees] is the coherence of a mirror with flash at one
    key, which a failed write can break at that key alone. *)

From S2P Require Import Prelude RustStr Nvs Record SessionSlots Lru Flash FlashSpec FlashRecords Platform StoreInner Store.
#[local] Set Default Proof Using "Type*".

(** ** The shape of each namespace *)

Definition limit (n : ns) : Z :=
  match n with
  | NsIdentities => MAX_IDENTITIES
  | NsSessions => MAX_SESSIONS
  | NsPrekeys => MAX_PREKEYS
  | NsSignedPrekeys => MAX_SIGNED_PREKEYS
  | NsSenderKeys => MAX_SENDER_KEYS
  | NsSyncKeys => MAX_SYNC_KEYS
  | NsControl | NsDevice => 0
  end.

(** Keys and values of each namespace, as the methods write them and the
    boot replay reads them. *)
#[global] Instance store_contents `{Wacore} : Contents := fun n k v =>
  match n with
  | NsIdentities => utf8_valid k = true /\ len v = 32
  | NsSessions | NsSenderKeys => utf8_valid k = true
  | NsPrekeys | NsSignedPrekeys => length k = 4%nat
  | NsSyncKeys => is_Some (from_slice (A := AppStateSyncKey) v)
  | NsControl | NsDevice => True
  end.

Lemma limit_ok_identity `{Wacore} : limit_ok NsIdentities 32.
Proof. right. intros k v [_ Hv]. lia. Qed.
Lemma limit_ok_signal `{Contents} n : limit_ok n MAX_SIGNAL_RECORD_LEN.
Proof. by left. Qed.
#[export] Hint Resolve limit_ok_identity limit_ok_signal : core.

(** ** Caps of the mirrors *)

Section Caps.
Context `{wacore : Wacore, board : Board}.
Implicit Types (i : StoreInner).

Record caps i : Prop := {
  cap_identity_order : mirrors (identity_order i) (identities i);
  cap_session_order : mirrors (session_order i) (sessions i);
  cap_sync_order : mirrors (sync_key_order i) (sync_keys i);
  cap_identities : has_psram = false -> Z.of_nat (size (identities i)) <= 8;
  cap_sessions : has_psram = false -> sessions i = ∅;
  cap_sync : has_psram = false -> Z.of_nat (size (sync_keys i)) <= 9;
}.

Lemma caps_default : caps inner_default.
Proof. split; cbn; try apply mirrors_nil; try done; intros _; rewrite map_size_empty; lia. Qed.

Lemma enforce_identities_cap_eq i :
  enforce_identities_cap i =
  let e := evict (overflow (identity_order i) (Z.of_nat (size (identities i))) 8)
             (identities i) (identity_order i) in
  if has_psram then i else set_identities e.1 (set_identity_order e.2 i).
Proof. unfold enforce_identities_cap. destruct has_psram; [done|]. by destruct (evict _ _ _). Qed.

Lemma enforce_sessions_cap_eq i :
  enforce_sessions_cap i =
  let e := evict (overflow (session_order i) (Z.of_nat (size (sessions i))) 0)
             (sessions i) (session_order i) in
  if has_psram then i else set_sessions e.1 (set_session_order e.2 i).
Proof. unfold enforce_sessions_cap. destruct has_psram; [done|]. by destruct (evict _ _ _). Qed.

Lemma enforce_sync_keys_cap_except_eq p i :
  enforce_sync_keys_cap_except p i =
  let e := evict (sync_keys_to_remove p (sync_key_order i) (Z.of_nat (size (sync_keys i))))
             (sync_keys i) (sync_key_order i) in
  if has_psram then i else set_sync_keys e.1 (set_sync_key_order e.2 i).
Proof. unfold enforce_sync_keys_cap_except. destruct has_psram; [done|]. by destruct (evict _ _ _). Qed.

Lemma evict_sub {V} (keys : list bytes) (m : gmap bytes V) order k v :
  (evict keys m order).1 !! k = Some v -> m !! k = Some v.
Proof. rewrite evict_lookup. by case_decide. Qed.

(** A mirror after an entry was put in and the cap enforced: nothing but
    that entry is new, and with PSRAM nothing is lost. *)
Record entered {V} (k : bytes) (v : V) (m m' : gmap bytes V) : Prop := {
  en_sub k' v' : m' !! k' = Some v' -> <[k := v]> m !! k' = Some v';
  en_psram : has_psram = true -> m' = <[k := v]> m;
}.

Lemma mirror_identity_entered a k i :
  entered a k (identities i) (identities (mirror_identity a k i)).
Proof.
  unfold mirror_identity. rewrite enforce_identities_cap_eq. destruct has_psram eqn:P; cbn zeta.
  - done.
  - split; [|congruence]. intros k' v'. apply evict_sub.
Qed.

Lemma mirror_session_entered a k i :
  entered a k (sessions i) (sessions (mirror_session a k i)).
Proof.
  unfold mirror_session. rewrite enforce_sessions_cap_eq. destruct has_psram eqn:P; cbn zeta.
  - done.
  - split; [|congruence]. intros k' v'. apply evict_sub.
Qed.

Lemma mirror_sync_key_entered p k key i :
  entered k key (sync_keys i) (sync_keys (enforce_sync_keys_cap_except p (mirror_sync_key k key i))).
Proof.
  rewrite enforce_sync_keys_cap_except_eq. unfold mirror_sync_key. destruct has_psram eqn:P; cbn zeta.
  - done.
  - split; [|congruence]. intros k' v'. apply evict_sub.
Qed.

Lemma caps_mirror_identity a k i : caps i -> caps (mirror_identity a k i).
Proof.
  intros [Hi Hs Hy Ci Cs Cy]. unfold mirror_identity. rewrite enforce_identities_cap_eq.
  set (m := <[a := k]> (identities i)). set (o := touched a (identity_order i)).
  assert (Hm : mirrors o m) by by apply mirrors_insert.
  destruct has_psram eqn:P; cbn zeta; split; cbn -[evict overflow]; rewrite ?P; try done.
  - by apply evict_mirrors.
  - intros _. rewrite evict_overflow_size by (done || lia). lia.
Qed.

Lemma caps_mirror_session a k i : caps i -> caps (mirror_session a k i).
Proof.
  intros [Hi Hs Hy Ci Cs Cy]. unfold mirror_session. rewrite enforce_sessions_cap_eq.
  set (m := <[a := k]> (sessions i)). set (o := touched a (session_order i)).
  assert (Hm : mirrors o m) by by apply mirrors_insert.
  destruct has_psram eqn:P; cbn zeta; split; cbn -[evict overflow]; rewrite ?P; try done.
  - by apply evict_mirrors.
  - intros _. apply map_size_empty_iff.
    pose proof (evict_overflow_size o m 0 Hm). fold m o. lia.
Qed.

(** The overflow of a sync-key mirror of at most ten keys: at least all of
    it but the protected key is dropped. *)
Lemma sync_keys_to_remove_len p order n :
  len order = n -> NoDup order ->
  n - 8 - 1 <= len (sync_keys_to_remove p order n) <= Z.max 0 (n - 8).
Proof.
  intros Hl Hn. unfold sync_keys_to_remove, overflow. zcase.
  2: { rewrite ztake_nil by lia. rewrite len_nil. lia. }
  set (l := ztake (n - 8) order). assert (Hll : len l = n - 8) by (unfold l; len_lia).
  assert (Hnl : NoDup l) by (eapply sublist_NoDup; [exact Hn|apply sublist_take]).
  assert (Hf : len l - 1 <= len (filter (fun k => ~ p = Some k) l)).
  { clear -Hnl. destruct p as [p|].
    2: { rewrite filter_all; [lia|]. intros. congruence. }
    induction Hnl as [|x l Hx Hnl IH]; [cbn; lia|]. rewrite filter_cons, len_cons.
    case_decide as Hd; [rewrite len_cons; lia|].
    assert (p = x) as -> by (destruct (decide (p = x)); congruence).
    rewrite filter_all; [lia|]. intros y Hy [= ->]. done. }
  len_lia.
Qed.

Lemma sync_keys_to_remove_sub p order n : sublist (sync_keys_to_remove p order n) order.
Proof.
  unfold sync_keys_to_remove. etrans; [apply sublist_take|]. etrans; [apply sublist_filter|].
  unfold overflow. zcase; [apply sublist_take|apply sublist_nil_l].
Qed.

Lemma caps_mirror_sync_key p k key i :
  caps i -> caps (enforce_sync_keys_cap_except p (mirror_sync_key k key i)).
Proof.
  intros [Hi Hs Hy Ci Cs Cy]. rewrite enforce_sync_keys_cap_except_eq. unfold mirror_sync_key.
  set (m := <[k := key]> (sync_keys i)). set (o := touched k (sync_key_order i)).
  assert (Hm : mirrors o m) by by apply mirrors_insert.
  destruct has_psram eqn:P; cbn zeta; split; cbn -[evict sync_keys_to_remove]; rewrite ?P; try done.
  - by apply evict_mirrors.
  - intros _. fold m o. pose proof (mirrors_size _ _ Hm) as Hsz.
    pose proof (sync_keys_to_remove_len p o _ Hsz (mr_nodup _ _ Hm)) as Hl.
    rewrite evict_size_NoDup.
    + assert (Z.of_nat (size m) <= 10); [|lia]. specialize (Cy eq_refl).
      unfold m. rewrite map_size_insert. destruct (sync_keys i !! k); cbn -[Z.of_nat]; lia.
    + eapply sublist_NoDup; [apply Hm|apply sync_keys_to_remove_sub].
    + intros x Hx. apply Hm. eapply elem_of_sublist; [exact Hx|apply sync_keys_to_remove_sub].
Qed.
End Caps.
