(* ===== verification/StoreOps.v ===== *)
(** * The store's operations, one type

    [op] lists the methods of [NvsStore] that can change its state, [exec]
    runs one.  Coherence of the RAM state with flash is stated key by key:
    [agree] says that a mirror answers for one key what flash holds. *)

From S2P Require Import Prelude RustStr Nvs Record SessionSlots Lru Flash FlashSpec FlashRecords FlashReset FlashDevice Platform StoreInner Store StoreRam StoreInv.
#[local] Set Default Proof Using "Type*".

(** [serde_json] reads back what it wrote, for the two types the store
    serialises. *)
Class WacoreLaws `{wacore : Wacore} : Prop := {
  #[global] device_serde_laws :: SerdeLaws Device;
  #[global] sync_key_serde_laws :: SerdeLaws AppStateSyncKey;
}.

(** ** Coherence at one key *)

Section Agree.
Context `{wacore : Wacore, board : Board}.
Implicit Types (i : StoreInner) (k v : bytes).

(** A mirror entry [m] for a flash entry [o]: the same when the mirror is
    complete, and nothing else than it when the mirror is a cache. *)
Definition answers {V} (complete : bool) (m o : option V) : Prop :=
  if complete then m = o else forall x, m = Some x -> o = Some x.

Definition agree i (L : ns -> bytes -> option bytes) (D : option Device) (n : ns) k : Prop :=
  match n with
  | NsControl => True
  | NsDevice => device i = D
  | NsIdentities => answers has_psram (identities i !! k) (L n k)
  | NsSessions => answers has_psram (sessions i !! k) (L n k)
  | NsPrekeys => length k = 4%nat -> prekeys i !! le_value k = L n k
  | NsSignedPrekeys => length k = 4%nat -> signed_prekeys i !! le_value k = L n k
  | NsSenderKeys => sender_keys i !! k = L n k
  | NsSyncKeys => answers has_psram (sync_keys i !! k) (L n k ≫= from_slice)
  end.

(** What a put and a delete do to the RAM state, per namespace. *)
Definition mput (n : ns) k v i : StoreInner :=
  match n with
  | NsIdentities => mirror_identity k v i
  | NsSessions => mirror_session k v i
  | NsPrekeys => set_prekeys (<[le_value k := v]> (prekeys i)) i
  | NsSignedPrekeys => set_signed_prekeys (<[le_value k := v]> (signed_prekeys i)) i
  | NsSenderKeys => set_sender_keys (<[k := v]> (sender_keys i)) i
  | _ => i
  end.

Definition mdel (n : ns) k i : StoreInner :=
  match n with
  | NsIdentities => set_identity_order (removed k (identity_order i)) (set_identities (delete k (identities i)) i)
  | NsSessions => set_session_order (removed k (session_order i)) (set_sessions (delete k (sessions i)) i)
  | NsPrekeys => set_prekeys (delete (le_value k) (prekeys i)) i
  | NsSignedPrekeys => set_signed_prekeys (delete (le_value k) (signed_prekeys i)) i
  | NsSenderKeys => set_sender_keys (delete k (sender_keys i)) i
  | _ => i
  end.

(** The namespaces [mput] and [mdel] handle. *)
Definition plain (n : ns) : Prop :=
  n ∈ [NsIdentities; NsSessions; NsPrekeys; NsSignedPrekeys; NsSenderKeys].

Lemma plain_signal n : plain n -> n ∈ signal_namespaces.
Proof. unfold plain, signal_namespaces. set_solver. Qed.

Lemma le_value_inj k k' : length k = length k' -> le_value k = le_value k' -> k = k'.
Proof. intros Hl E. rewrite <- (le_bytes_value k), <- (le_bytes_value k'). by rewrite Hl, E. Qed.

Lemma answers_entered {V} k (v : V) m m' (o : option V) k' :
  entered k v m m' -> k' <> k -> answers has_psram (m !! k') o -> answers has_psram (m' !! k') o.
Proof.
  intros [Hs Hp] Hne. unfold answers. destruct has_psram.
  - intros <-. rewrite Hp by done. by rewrite lookup_insert_ne.
  - intros H v' Hv'. apply H. apply Hs in Hv'. by rewrite lookup_insert_ne in Hv'.
Qed.

Lemma answers_entered_self {V} k (v : V) m m' :
  entered k v m m' -> answers has_psram (m' !! k) (Some v).
Proof.
  intros [Hs Hp]. unfold answers. destruct has_psram.
  - rewrite Hp by done. by rewrite lookup_insert_eq.
  - intros v' Hv'. apply Hs in Hv'. by rewrite lookup_insert_eq in Hv'.
Qed.

Lemma answers_delete {V} k k' (m : gmap bytes V) (o : option V) :
  k' <> k -> answers has_psram (m !! k') o -> answers has_psram (delete k m !! k') o.
Proof. intros Hne. by rewrite lookup_delete_ne. Qed.

Lemma answers_None {V} (m : gmap bytes V) k : answers has_psram (delete k m !! k) None.
Proof. rewrite lookup_delete_eq. unfold answers. by destruct has_psram. Qed.

(** The fields an insertion into a capped mirror leaves alone. *)
Definition other_fields_identity i i' : Prop :=
  i' = set_identities (identities i') (set_identity_order (identity_order i') i).
Definition other_fields_session i i' : Prop :=
  i' = set_sessions (sessions i') (set_session_order (session_order i') i).

Lemma mirror_identity_other a v i : other_fields_identity i (mirror_identity a v i).
Proof.
  unfold other_fields_identity, mirror_identity. rewrite enforce_identities_cap_eq.
  by destruct has_psram.
Qed.
Lemma mirror_session_other a v i : other_fields_session i (mirror_session a v i).
Proof.
  unfold other_fields_session, mirror_session. rewrite enforce_sessions_cap_eq.
  by destruct has_psram.
Qed.

Lemma caps_mput n k v i : caps i -> caps (mput n k v i).
Proof.
  intros Hc. destruct n; cbn; try done; [by apply caps_mirror_identity|by apply caps_mirror_session|..];
    by destruct Hc.
Qed.

Lemma size_delete_le {K V} `{Countable K} (m : gmap K V) x c :
  Z.of_nat (size m) <= c -> Z.of_nat (size (delete x m)) <= c.
Proof. rewrite map_size_delete. destruct (m !! x); cbn -[Z.of_nat]; lia. Qed.

Lemma caps_mdel n k i : caps i -> caps (mdel n k i).
Proof.
  intros [Hi Hs Hy Ci Cs Cy]. destruct n; cbn; try done; (split; cbn; try done).
  - by apply mirrors_delete.
  - intros P. by apply size_delete_le, Ci.
  - by apply mirrors_delete.
  - intros P. rewrite Cs by done. apply delete_empty.
Qed.
Variables (L L' : ns -> bytes -> option bytes) (D : option Device) (n : ns) (k : bytes).
Hypothesis Hother : forall n' k', (n', k') <> (n, k) -> L' n' k' = L n' k'.

(** Flash changed at one key and the RAM state did not. *)
Lemma agree_flash i n' k' :
  (n', k') <> (n, k) -> agree i L D n' k' -> agree i L' D n' k'.
Proof using Hother. intros Hne. unfold agree. by rewrite Hother. Qed.

Lemma agree_mput v i n' k' :
  plain n -> L' n k = Some v -> (n = NsPrekeys \/ n = NsSignedPrekeys -> length k = 4%nat) ->
  ((n', k') = (n, k) \/ agree i L D n' k') -> agree (mput n k v i) L' D n' k'.
Proof using Hother.
  intros Hp HL Hk Ha. destruct (decide ((n', k') = (n, k))) as [E|Hne].
  - injection E as -> ->. clear Ha. unfold agree, mput.
    destruct n; rewrite ?HL; try (by unfold plain in Hp; set_solver).
    + eapply answers_entered_self, mirror_identity_entered.
    + eapply answers_entered_self, mirror_session_entered.
    + intros _. cbn. by rewrite lookup_insert_eq.
    + intros _. cbn. by rewrite lookup_insert_eq.
    + cbn. by rewrite lookup_insert_eq.
  - destruct Ha as [?|Ha]; [done|]. apply (agree_flash i n' k' Hne) in Ha. revert Ha.
    assert (Hk' : n' = n -> k' <> k) by (intros -> ->; done).
    unfold mput. destruct n; try done.
    + rewrite (mirror_identity_other k v i). destruct n'; cbn; auto.
      eapply answers_entered; [apply mirror_identity_entered|auto].
    + rewrite (mirror_session_other k v i). destruct n'; cbn; auto.
      eapply answers_entered; [apply mirror_session_entered|auto].
    + destruct n'; cbn; auto. intros Ha Hl. rewrite lookup_insert_ne; [auto|].
      intros E. apply Hk'; [done|]. apply le_value_inj; [|done]. rewrite Hk; auto.
    + destruct n'; cbn; auto. intros Ha Hl. rewrite lookup_insert_ne; [auto|].
      intros E. apply Hk'; [done|]. apply le_value_inj; [|done]. rewrite Hk; auto.
    + destruct n'; cbn; auto. rewrite lookup_insert_ne; [done|]. intros ->. by apply Hk'.
Qed.

Lemma agree_mdel i n' k' :
  plain n -> L' n k = None -> (n = NsPrekeys \/ n = NsSignedPrekeys -> length k = 4%nat) ->
  ((n', k') = (n, k) \/ agree i L D n' k') -> agree (mdel n k i) L' D n' k'.
Proof using Hother.
  intros Hp HL Hk Ha. destruct (decide ((n', k') = (n, k))) as [E|Hne].
  - injection E as -> ->. clear Ha. unfold agree, mdel.
    destruct n; rewrite ?HL; try (by unfold plain in Hp; set_solver); cbn;
      try apply answers_None; intros; by rewrite lookup_delete_eq.
  - destruct Ha as [?|Ha]; [done|]. apply (agree_flash i n' k' Hne) in Ha. revert Ha.
    assert (Hk' : n' = n -> k' <> k) by (intros -> ->; done).
    unfold mdel. destruct n, n'; cbn; auto using answers_delete.
    + intros Ha Hl. rewrite lookup_delete_ne; [auto|].
      intros E. apply Hk'; [done|]. apply le_value_inj; [|done]. rewrite Hk; auto.
    + intros Ha Hl. rewrite lookup_delete_ne; [auto|].
      intros E. apply Hk'; [done|]. apply le_value_inj; [|done]. rewrite Hk; auto.
    + rewrite lookup_delete_ne; [done|]. intros ->. by apply Hk'.
Qed.
End Agree.

(** ** The invariant, and what an operation may do *)

Section Post.
Context {W : Type} `{nvsW : !Nvs W, shaW : !Sha256, wacore : Wacore, board : Board}.
Implicit Types (s t : store W) (n : ns) (k v : bytes).

Definition flv s n : gmap bytes bytes := flash (fs_nvs (flash_state s)) n.
Definition duv s n : gmap bytes bytes := durable (fs_nvs (flash_state s)) n.

Record sinv s : Prop := {
  si_flash : finv (flash_state s);
  si_size n : n ∈ signal_namespaces -> Z.of_nat (size (flv s n)) <= limit n;
  si_device : device_wf (Device := Device) (flv s NsDevice) /\
    device_wf (Device := Device) (duv s NsDevice);
  si_caps : caps (inner s);
}.

Definition agrees s n k : Prop :=
  agree (inner s) (fun n k => logical (flv s n) k) (device_of (flv s NsDevice)) n k.

(** The outcome of an operation that may write the keys in [T]. *)
Record op_post (T : ns -> bytes -> Prop) s (r : result StoreError unit) t : Prop := {
  op_inv : sinv t;
  (** A key that was not written, or whose write was refused before it was
      tried, stays coherent. *)
  op_frame n k : (~ T n k \/ exists x, r = Err (Validation x)) -> agrees s n k -> agrees t n k;
  (** A success makes the keys it wrote coherent. *)
  op_done n k : r = Ok tt -> T n k \/ agrees s n k -> agrees t n k;
}.

Lemma op_post_refused T s x : sinv s -> op_post T s (Err (Validation x)) s.
Proof. intros Hi. by split. Qed.

Lemma op_post_same T s e : sinv s -> op_post T s (Err e) s.
Proof. intros Hi. by split. Qed.

Lemma op_post_trans T1 T2 s t r u :
  op_post T1 s (Ok tt) t -> op_post T2 t r u ->
  op_post (fun n k => T1 n k \/ T2 n k) s r u.
Proof.
  intros [I1 F1 D1] [I2 F2 D2]. split; [done|..]; intros n k H Ha.
  - apply F2; [|by apply D1; auto]. destruct H; auto.
  - destruct Ha as [[Ha|Ha]|Ha]; (apply D2; [done|]); auto.
Qed.

Lemma op_post_weaken (T T' : ns -> bytes -> Prop) s r t :
  (forall n k, T n k <-> T' n k) -> op_post T s r t -> op_post T' s r t.
Proof.
  intros H [I F D]. split; [done|..]; intros n k; [|]; specialize (H n k); intros.
  - apply F; [|done]. intuition.
  - apply D; [done|]. intuition.
Qed.

(** A computation that leaves the state alone and fails only by refusing. *)
Definition guard {A} (m : M (store W) StoreError A) : Prop :=
  forall s, (m s).1 = s /\ forall e, (m s).2 = Err e -> exists x, e = Validation x.

Lemma guard_spec {A} (m : M (store W) StoreError A) s :
  guard m -> wp m (fun r t => t = s /\ forall e, r = Err e -> exists x, e = Validation x) s.
Proof. intros H. apply wp_unfold. apply H. Qed.

Lemma guard_write_operation : guard write_operation.
Proof. intros s. unfold write_operation. destruct (accepting_writes s); split; naive_solver. Qed.

Lemma guard_capacity {K V} `{Countable K} (f : StoreInner -> gmap K V) key max label :
  guard (mirror_capacity (W := W) f key max label).
Proof.
  intros s. split; [done|]. intros e. unfold mirror_capacity, look, bind, lift, ensure_insert_capacity. cbn.
  case_match; naive_solver.
Qed.

Lemma wp_guard {A B} (m : M (store W) StoreError A) (k : A -> M (store W) StoreError B) Q s :
  guard m -> (forall x, Q (Err (Validation x)) s) -> (forall a, wp (k a) Q s) -> wp (bind m k) Q s.
Proof.
  intros Hg He Hk. wp_step. wp_use guard_spec; [done|]. intros [a|e] t [-> Hv]; [done|].
  destruct (Hv e eq_refl) as [x ->]. done.
Qed.

Lemma wp_run {A} (job : M (fstate W) StoreError A) Q s :
  (worker s = false -> Q (Err (Io WorkerStopped)) s) ->
  wp job (fun r f => Q r (set_flash_state f s)) (flash_state s) -> wp (run job) Q s.
Proof.
  intros Hd Hj. unfold wp, run. destruct (worker s); [|auto].
  unfold zoom. unfold wp in Hj. by destruct (job (flash_state s)).
Qed.

Lemma wp_here {A} (job : M (fstate W) StoreError A) Q s :
  wp job (fun r f => Q r (set_flash_state f s)) (flash_state s) -> wp (here job) Q s.
Proof. unfold here. intros H. by apply wp_zoom. Qed.

Lemma wp_update f (Q : result StoreError unit -> store W -> Prop) s :
  Q (Ok tt) (set_inner (f (inner s)) s) -> wp (update f) Q s.
Proof. done. Qed.

Lemma wp_look {A} (f : StoreInner -> A) (Q : result StoreError A -> store W -> Prop) s :
  Q (Ok (f (inner s))) s -> wp (look f) Q s.
Proof. done. Qed.

(** Flash changed in one Signal namespace. *)
Lemma sinv_flash n s f :
  sinv s -> n ∈ signal_namespaces -> finv f -> only n (flash_state s) f ->
  (Z.of_nat (size (flv s n)) <= limit n -> Z.of_nat (size (fl f n)) <= limit n) ->
  sinv (set_flash_state f s).
Proof.
  intros [If Is Id Ic] Hn Hf Ho Hs. split; [done|..|done].
  - intros n' Hn'. destruct (decide (n' = n)) as [->|Hne]; [by apply Hs, Is|].
    unfold flv. cbn. rewrite (only_flash _ _ _ _ Ho Hne). by apply Is.
  - unfold flv, duv. cbn. apply signal_ne in Hn as [_ Hn].
    rewrite (only_flash _ _ _ _ Ho), (only_durable _ _ _ _ Ho) by done. done.
Qed.

(** Nothing a reader sees changed. *)
Lemma sinv_unchanged s f :
  sinv s -> finv f -> unchanged (flash_state s) f -> sinv (set_flash_state f s).
Proof.
  intros [If Is Id Ic] Hf Hu. split; [done|..|done]; unfold flv, duv; cbn.
  - intros n Hn. rewrite (unchanged_flash n _ _ Hu). by apply Is.
  - by rewrite (unchanged_flash _ _ _ Hu), (unchanged_durable _ _ _ Hu).
Qed.

Lemma agrees_unchanged s f n k :
  unchanged (flash_state s) f -> agrees s n k -> agrees (set_flash_state f s) n k.
Proof.
  intros Hu. unfold agrees, flv. cbn. rewrite (unchanged_flash NsDevice _ _ Hu).
  unfold agree. destruct n; rewrite ?(unchanged_flash _ _ _ Hu); done.
Qed.

Lemma sinv_inner s i : sinv s -> caps i -> sinv (set_inner i s).
Proof. intros [If Is Id Ic] Hc. by split. Qed.

(** The other keys of a flash state that changed at one record. *)
Lemma logical_other n k s f :
  only n (flash_state s) f ->
  (forall k', k' <> k -> logical (fl f n) k' = logical (flv s n) k') ->
  forall n' k', (n', k') <> (n, k) -> logical (fl f n') k' = logical (flv s n') k'.
Proof.
  intros Ho Hk n' k' Hne. destruct (decide (n' = n)) as [->|Hn].
  - apply Hk. by intros ->.
  - unfold flv. by rewrite (only_flash _ _ _ _ Ho Hn).
Qed.
End Post.

Section PutDelete.
Context {W : Type} `{nvsW : !Nvs W, lawsW : !NvsLaws W, shaW : !Sha256, wacore : Wacore, board : Board}.
Implicit Types (s t : store W) (n : ns) (k v : bytes).

Lemma key_shape n k v : content_ok n k v -> n = NsPrekeys \/ n = NsSignedPrekeys -> length k = 4%nat.
Proof. intros Hc [-> | ->]; exact Hc. Qed.

Definition at_key (n : ns) k : ns -> bytes -> Prop := fun n' k' => (n', k') = (n, k).

Lemma device_other n s f :
  n ∈ signal_namespaces -> only n (flash_state s) f ->
  device_of (Device := Device) (fl f NsDevice) = device_of (flv s NsDevice).
Proof. intros Hn Ho. unfold flv. rewrite (only_flash _ _ _ _ Ho); [done|]. by apply signal_ne in Hn as [_ ?]. Qed.

(** A put: flash first, then the mirror. *)
Lemma put_one_spec n k v label s :
  sinv s -> plain n -> content_ok n k v ->
  wp (run (put_record n k v label (limit n)) ;;; update (mput n k v)) (op_post (at_key n k) s) s.
Proof.
  intros Hi Hp Hc. pose proof (plain_signal n Hp) as Hn. wp_step.
  apply wp_run; [intros _; by apply op_post_same|].
  wp_use put_record_spec; [apply Hi|done|done|]. intros r f Hf.
  assert (Hs : sinv (set_flash_state f s)).
  { apply (sinv_flash n); [done|done|apply Hf..]. }
  pose proof (logical_other n k s f (pp_only _ _ _ _ _ _ _ _ Hf) (pp_other _ _ _ _ _ _ _ _ Hf)) as Hother.
  pose proof (device_other n s f Hn (pp_only _ _ _ _ _ _ _ _ Hf)) as Hdev.
  destruct r as [[]|e].
  - apply wp_update. destruct (pp_ok _ _ _ _ _ _ _ _ Hf eq_refl) as [Hv _].
    assert (Hag : forall n' k', (n', k') = (n, k) \/ agrees s n' k' ->
      agrees (set_inner (mput n k v (inner (set_flash_state f s))) (set_flash_state f s)) n' k').
    { intros n' k' Ha. unfold agrees, flv. cbn. rewrite Hdev.
      eapply (agree_mput (fun n k => logical (flv s n) k)); eauto using key_shape. }
    split; [by apply sinv_inner, caps_mput, Hi|..].
    + intros n' k' _ Ha. apply Hag. by right.
    + intros n' k' _ Ha. by apply Hag.
  - split; [done| |done]. intros n' k' Hna Ha. unfold agrees, flv. cbn. rewrite Hdev.
    destruct Hna as [Hna|[x [= ->]]].
    + eapply (agree_flash (fun n k => logical (flv s n) k)); [exact Hother|exact Hna|done].
    + destruct (pp_refused _ _ _ _ _ _ _ _ Hf x eq_refl) as [Hu _].
      apply (agrees_unchanged _ f) in Ha; [|done]. unfold agrees, flv in Ha. cbn in Ha.
      by rewrite Hdev in Ha.
Qed.

Lemma delete_one_spec n k label s :
  sinv s -> plain n -> (n = NsPrekeys \/ n = NsSignedPrekeys -> length k = 4%nat) ->
  wp (run (delete_record n k label) ;;; update (mdel n k)) (op_post (at_key n k) s) s.
Proof.
  intros Hi Hp Hk. pose proof (plain_signal n Hp) as Hn. wp_step.
  apply wp_run; [intros _; by apply op_post_same|].
  wp_use delete_record_spec; [apply Hi|done|]. intros r f Hf.
  assert (Hs : sinv (set_flash_state f s)).
  { apply (sinv_flash n); [done|done|apply Hf..|]. pose proof (dp_size _ _ _ _ _ Hf). unfold flv. lia. }
  pose proof (logical_other n k s f (dp_only _ _ _ _ _ Hf) (dp_other _ _ _ _ _ Hf)) as Hother.
  pose proof (device_other n s f Hn (dp_only _ _ _ _ _ Hf)) as Hdev.
  destruct r as [[]|e].
  - apply wp_update. destruct (dp_ok _ _ _ _ _ Hf eq_refl) as [Hv _].
    assert (Hag : forall n' k', (n', k') = (n, k) \/ agrees s n' k' ->
      agrees (set_inner (mdel n k (inner (set_flash_state f s))) (set_flash_state f s)) n' k').
    { intros n' k' Ha. unfold agrees, flv. cbn. rewrite Hdev.
      eapply (agree_mdel (fun n k => logical (flv s n) k)); eauto. }
    split; [by apply sinv_inner, caps_mdel, Hi|..].
    + intros n' k' _ Ha. apply Hag. by right.
    + intros n' k' _ Ha. by apply Hag.
  - split; [done| |done]. intros n' k' Hna Ha. unfold agrees, flv. cbn. rewrite Hdev.
    destruct (decide ((n', k') = (n, k))) as [E|Hne].
    2: { eapply (agree_flash (fun n k => logical (flv s n) k)); [exact Hother|exact Hne|done]. }
    destruct Hna as [Hna|[x [= ->]]]; [by destruct Hna|].
    destruct (dp_err _ _ _ _ _ Hf _ eq_refl) as [El|[[i [=]] _]].
    injection E as -> ->. unfold agrees, agree in Ha |- *. unfold flv in *.
    destruct n; rewrite ?El; try done; by unfold plain in Hp; set_solver.
Qed.

(** Batches: the prefix before a failure stays written. *)
Lemma put_each_spec {A} (put : A -> M (store W) StoreError unit) (T : A -> ns -> bytes -> Prop) l s :
  (forall x s, x ∈ l -> sinv s -> wp (put x) (op_post (T x) s) s) -> sinv s ->
  wp (put_each put l) (op_post (fun n k => exists x, x ∈ l /\ T x n k) s) s.
Proof.
  intros Hput. revert s. induction l as [|x l IH]; intros s Hi; cbn [put_each].
  - wp_step. split; [done|naive_solver|]. intros n k _ [(x & Hx & _)|?]; [by apply not_elem_of_nil in Hx|done].
  - wp_step. wp_use Hput; [by left|done|]. intros [[]|e] t Ht.
    + wp_use IH; [|by apply Ht|].
      { intros y u Hy. apply Hput. by right. }
      intros r u Hu. eapply op_post_weaken; [|by eapply op_post_trans].
      intros n k. cbn. setoid_rewrite elem_of_cons. naive_solver.
    + destruct Ht as [I F D]. split; [done| |done]. intros n k Hna. apply F.
      destruct Hna as [Hna|?]; [left|by right]. intros HT. apply Hna. exists x. split; [by left|done].
Qed.
End PutDelete.
