(* ===== verification/StoreSpec.v ===== *)
(** * Every operation of the store

    [exec] runs one method; the theorems of this file hold of every method
    and every outcome, so of every sequence of calls. *)

From S2P Require Import Prelude RustStr Nvs NvsMem Record SessionSlots Lru Flash FlashSpec FlashRecords FlashBoot FlashReset FlashDevice Platform StoreInner Store StoreRam StoreInv StoreOps.
#[local] Set Default Proof Using "Type*".

(** ** The methods *)

(** The methods that only touch RAM. *)
Inductive ram_op `{Wacore} : Type :=
| SetVersion (name : bytes) (state : HashState) | DeleteVersion (name : bytes)
| PutMutationMacs (name : bytes) (version : Z) (mutations : list AppStateMutationMAC)
| CommitPatch (name : bytes) (state : HashState) (removed : list bytes) (added : list AppStateMutationMAC)
| DeleteMutationMacs (name : bytes) (macs : list bytes) | ClearMutationMacs (name : bytes)
| SetSenderKeyStatus (group : bytes) (entries : list (bytes * bool))
| ClearSenderKeyDevices (group : bytes) | ClearAllSenderKeyDevices
| DeleteSenderKeyDeviceRows (jids : list bytes)
| PutLidMapping (entry : LidPnMappingEntry)
| SaveBaseKey (address message_id key : bytes) | DeleteBaseKey (address message_id : bytes)
| UpdateDeviceList (record : DeviceListRecord) | DeleteDevices (u : bytes)
| PutTcToken (jid : bytes) (entry : TcTokenEntry) | DeleteTcToken (jid : bytes)
| DeleteExpiredTcTokens (token_cutoff sender_cutoff : Z)
| TouchTcToken (jid : bytes) (ts : Z) | StoreReceivedTcToken (jid tok : bytes) (ts : Z)
| StoreSentMessage (now : Z) (chat message_id payload : bytes) | TakeSentMessage (chat message_id : bytes)
| DeleteExpiredSentMessages (cutoff : Z)
| PutMsgSecrets (entries : list MsgSecretEntry) | DeleteExpiredMsgSecrets (cutoff : Z).

Inductive op `{Wacore} : Type :=
| Ram (r : ram_op)
| PutIdentity (address key : bytes) | PutIdentitiesBatch (entries : list (bytes * bytes))
| LoadIdentity (address : bytes) | DeleteIdentity (address : bytes)
| GetSession (address : bytes) | PutSession (address session : bytes)
| PutSessionsBatch (entries : list (bytes * bytes)) | DeleteSession (address : bytes)
| HasSignalState (u : bytes)
| StorePrekey (id : Z) (record : bytes) | RemovePrekey (id : Z)
| StoreSignedPrekey (id : Z) (record : bytes) | RemoveSignedPrekey (id : Z)
| PutSenderKey (address record : bytes) | DeleteSenderKey (address : bytes)
| GetSyncKey (key_id : bytes) | SetSyncKey (key_id : bytes) (key : AppStateSyncKey)
| SaveDevice (d : Device) | CreateDevice
| ClearSessions | ListSessions | StatsOp | ResetOp | SealWrites.

(** Run an operation for its effect. *)
Definition discard {S E A} (m : M S E A) : M S E unit := let* _ := m in ret tt.

Section Exec.
Context {W : Type} `{nvsW : !Nvs W, shaW : !Sha256, wacore : Wacore, board : Board}.

Definition exec_ram (r : ram_op) : M (store W) StoreError unit :=
  match r with
  | SetVersion name state => set_version name state
  | DeleteVersion name => delete_version name
  | PutMutationMacs name version mutations => put_mutation_macs name version mutations
  | CommitPatch name state removed added => commit_patch name state removed added
  | DeleteMutationMacs name macs => delete_mutation_macs name macs
  | ClearMutationMacs name => clear_mutation_macs name
  | SetSenderKeyStatus group entries => set_sender_key_status group entries
  | ClearSenderKeyDevices group => clear_sender_key_devices group
  | ClearAllSenderKeyDevices => clear_all_sender_key_devices
  | DeleteSenderKeyDeviceRows jids => delete_sender_key_device_rows jids
  | PutLidMapping entry => put_lid_mapping entry
  | SaveBaseKey address message_id key => save_base_key address message_id key
  | DeleteBaseKey address message_id => delete_base_key address message_id
  | UpdateDeviceList record => update_device_list record
  | DeleteDevices u => delete_devices u
  | PutTcToken jid entry => put_tc_token jid entry
  | DeleteTcToken jid => delete_tc_token jid
  | DeleteExpiredTcTokens tc sc => discard (delete_expired_tc_tokens tc sc)
  | TouchTcToken jid ts => touch_tc_token_sender_timestamp jid ts
  | StoreReceivedTcToken jid tok ts => store_received_tc_token jid tok ts
  | StoreSentMessage now chat message_id payload => store_sent_message now chat message_id payload
  | TakeSentMessage chat message_id => discard (take_sent_message chat message_id)
  | DeleteExpiredSentMessages cutoff => discard (delete_expired_sent_messages cutoff)
  | PutMsgSecrets entries => discard (put_msg_secrets entries)
  | DeleteExpiredMsgSecrets cutoff => discard (delete_expired_msg_secrets cutoff)
  end.

Definition exec (o : op) : M (store W) StoreError unit :=
  match o with
  | Ram r => exec_ram r
  | PutIdentity a k => put_identity a k
  | PutIdentitiesBatch l => put_identities_batch l
  | LoadIdentity a => discard (load_identity a)
  | DeleteIdentity a => delete_identity a
  | GetSession a => discard (get_session a)
  | PutSession a v => put_session a v
  | PutSessionsBatch l => put_sessions_batch l
  | DeleteSession a => delete_session a
  | HasSignalState u => discard (has_signal_state_for_user u)
  | StorePrekey id r => store_prekey id r
  | RemovePrekey id => remove_prekey id
  | StoreSignedPrekey id r => store_signed_prekey id r
  | RemoveSignedPrekey id => remove_signed_prekey id
  | PutSenderKey a r => put_sender_key a r
  | DeleteSenderKey a => delete_sender_key a
  | GetSyncKey k => discard (get_sync_key k)
  | SetSyncKey k key => set_sync_key k key
  | SaveDevice d => save d
  | CreateDevice => discard create
  | ClearSessions => discard clear_sessions
  | ListSessions => discard list_sessions
  | StatsOp => discard stats
  | ResetOp => reset
  | SealWrites => seal_writes
  end.

(** What the types of the arguments guarantee: a [&str] is UTF-8, an
    identity key is [[u8; 32]], an id is a [u32]. *)
Definition op_ok (o : op) : Prop :=
  match o with
  | PutIdentity a k => utf8_valid a = true /\ len k = 32
  | PutIdentitiesBatch l => Forall (fun e => utf8_valid e.1 = true /\ len e.2 = 32) l
  | PutSession a _ | PutSenderKey a _ => utf8_valid a = true
  | PutSessionsBatch l => Forall (fun e => utf8_valid e.1 = true) l
  | StorePrekey id _ | RemovePrekey id | StoreSignedPrekey id _ | RemoveSignedPrekey id =>
      fits 32 id = true
  | _ => True
  end.

(** The records an operation may write. *)
Definition writes (o : op) (n : ns) (k : bytes) : Prop :=
  match o with
  | PutIdentity a _ | DeleteIdentity a => at_key NsIdentities a n k
  | PutIdentitiesBatch l => exists e, e ∈ l /\ at_key NsIdentities e.1 n k
  | PutSession a _ | DeleteSession a => at_key NsSessions a n k
  | PutSessionsBatch l => exists e, e ∈ l /\ at_key NsSessions e.1 n k
  | StorePrekey id _ | RemovePrekey id => at_key NsPrekeys (id_key id) n k
  | StoreSignedPrekey id _ | RemoveSignedPrekey id => at_key NsSignedPrekeys (id_key id) n k
  | PutSenderKey a _ | DeleteSenderKey a => at_key NsSenderKeys a n k
  | SetSyncKey key_id _ => at_key NsSyncKeys key_id n k
  | SaveDevice _ => n = NsDevice
  | ClearSessions => n = NsSessions
  | ResetOp => True
  | _ => False
  end.
End Exec.

Lemma sync_signal : NsSyncKeys ∈ signal_namespaces.
Proof. unfold signal_namespaces. set_solver. Qed.

(** ** One operation at a time *)

Section Ops.
Context {W : Type} `{nvsW : !Nvs W, lawsW : !NvsLaws W, shaW : !Sha256, wacore : Wacore,
  lawsC : !WacoreLaws, board : Board}.
Implicit Types (s t : store W) (n : ns) (k v : bytes).

Abbreviation nothing := (fun (_ : ns) (_ : bytes) => False).

Lemma op_post_frame s r t :
  sinv t -> (forall n k, agrees s n k -> agrees t n k) -> op_post nothing s r t.
Proof. intros Hi Ha. split; [done|auto|]. intros n k _ [[]|?]. auto. Qed.

(** A method that writes nothing. *)
Definition read_post s (r : result StoreError unit) t : Prop :=
  op_post nothing s r t /\ unchanged (flash_state s) (flash_state t).

Lemma read_frame s r t :
  sinv t -> (forall n k, agrees s n k -> agrees t n k) -> unchanged (flash_state s) (flash_state t) ->
  read_post s r t.
Proof. intros Hi Ha Hu. split; [by apply op_post_frame|done]. Qed.

Lemma wp_discard {A} (m : M (store W) StoreError A) Q s :
  wp m (fun r t => Q (match r with Ok _ => Ok tt | Err e => Err e end) t) s ->
  wp (discard m) Q s.
Proof. intros H. unfold discard. wp_step. wp_use H. by intros []. Qed.

(** The RAM fields [agree] and [caps] look at. *)
Definition persisted (i : StoreInner) :=
  (device i, identities i, sessions i, prekeys i, signed_prekeys i, sender_keys i, sync_keys i,
   identity_order i, session_order i, sync_key_order i).

Lemma agree_persisted i i' L D n k : persisted i = persisted i' -> agree i L D n k -> agree i' L D n k.
Proof.
  unfold persisted. intros [= E1 E2 E3 E4 E5 E6 E7 _ _ _]. unfold agree.
  by rewrite E1, E2, E3, E4, E5, E6, E7.
Qed.

Lemma exec_ram_persisted (r : ram_op) s :
  wp (exec_ram r) (fun _ t => flash_state t = flash_state s /\
    persisted (inner t) = persisted (inner s)) s.
Proof.
  destruct r; try done. apply wp_update. cbn. by destruct (mutation_macs (inner s) !! name).
Qed.
Lemma caps_persisted i i' : persisted i' = persisted i -> caps i -> caps i'.
Proof.
  unfold persisted. intros [= _ E2 E3 _ _ _ E7 E8 E9 E10] [Hi Hs Hy Ci Cs Cy].
  split; by rewrite ?E2, ?E3, ?E7, ?E8, ?E9, ?E10.
Qed.

(** A read of flash that leaves the RAM state alone, through the worker. *)
Lemma reading_spec {A} (job : M (fstate W) StoreError A) (P : A -> Prop) (Q : result StoreError A -> store W -> Prop) s :
  sinv s ->
  wp job (fun r f => unchanged (flash_state s) f /\ finv f /\
    match r with Ok a => P a | Err e => is_io e end) (flash_state s) ->
  (forall r t, match r with Ok a => P a | Err e => is_io e end ->
     sinv t -> (forall n k, agrees s n k -> agrees t n k) -> inner t = inner s ->
     unchanged (flash_state s) (flash_state t) -> Q r t) ->
  wp (run job) Q s.
Proof.
  intros Hi Hj HQ. apply wp_run; [intros _; apply HQ; try done; by eexists|].
  wp_use Hj. intros r f (Hu & Hf & HP).
  assert (Hs : sinv (set_flash_state f s)) by by apply sinv_unchanged.
  assert (Ha : forall n k, agrees s n k -> agrees (set_flash_state f s) n k).
  { intros n k. by apply agrees_unchanged. }
  by apply HQ.
Qed.

Lemma finv_of_quiet {A} (job : M (fstate W) StoreError A) (P : result StoreError A -> Prop) f :
  finv f -> wp job (fun r g => quiet f g /\ P r) f ->
  wp job (fun r g => unchanged f g /\ finv g /\ P r) f.
Proof. intros Hf Hj. wp_use Hj. intros r g [Hq Hr]. split_and!; [apply Hq|by eapply finv_quiet|done]. Qed.

Lemma wf_at s n : sinv s -> n ∈ signal_namespaces -> ns_wf n (fl (flash_state s) n).
Proof. intros Hi Hn. by apply Hi. Qed.

(** Entering in a mirror what flash holds. *)
Lemma agrees_load n k v s t :
  plain n -> (n = NsPrekeys \/ n = NsSignedPrekeys -> length k = 4%nat) ->
  inner t = inner s -> logical (flv t n) k = Some v ->
  (forall n' k', agrees s n' k' -> agrees t n' k') ->
  forall n' k', agrees s n' k' -> agrees (set_inner (mput n k v (inner t)) t) n' k'.
Proof.
  intros Hp Hk Hin HL Ha n' k' Hag. apply Ha in Hag. unfold agrees in *.
  change (flv (set_inner (mput n k v (inner t)) t)) with (flv t). cbn.
  eapply (agree_mput (fun n k => logical (flv t n) k)); eauto.
Qed.

Lemma limit_ok_session : limit_ok NsSessions MAX_SIGNAL_RECORD_LEN.
Proof. by left. Qed.

Lemma touch_identity_caps a i :
  caps i -> is_Some (identities i !! a) -> caps (set_identity_order (touched a (identity_order i)) i).
Proof. intros [Hi Hs Hy Ci Cs Cy] Ha. split; cbn; try done. by apply mirrors_touch. Qed.
Lemma touch_session_caps a i :
  caps i -> is_Some (sessions i !! a) -> caps (set_session_order (touched a (session_order i)) i).
Proof. intros [Hi Hs Hy Ci Cs Cy] Ha. split; cbn; try done. by apply mirrors_touch. Qed.
Lemma touch_sync_caps a i :
  caps i -> is_Some (sync_keys i !! a) -> caps (set_sync_key_order (touched a (sync_key_order i)) i).
Proof. intros [Hi Hs Hy Ci Cs Cy] Ha. split; cbn; try done. by apply mirrors_touch. Qed.

(** What a caller of a loading method learns. *)
Record load_post {A} n k (o : option A) s (r : result StoreError (option A)) t : Prop := {
  lp_inv : sinv t;
  lp_agrees n' k' : agrees s n' k' -> agrees t n' k';
  lp_flash : unchanged (flash_state s) (flash_state t);
  lp_err e : r = Err e -> is_io e;
  lp_value a : agrees s n k -> r = Ok a -> a = o;
}.

Lemma load_identity_spec a s :
  sinv s ->
  wp (load_identity a) (load_post NsIdentities a (logical (flv s NsIdentities) a) s) s.
Proof.
  intros Hi. unfold load_identity. wp_step. apply wp_look.
  destruct (identities (inner s) !! a) as [key|] eqn:E.
  - wp_step. apply wp_update. wp_step. split.
    + apply sinv_inner; [done|]. apply touch_identity_caps; [apply Hi|by rewrite E].
    + done.
    + done.
    + done.
    + intros o Hag [= <-]. unfold agrees, agree, answers in Hag. rewrite E in Hag.
      destruct has_psram; [done|by rewrite (Hag key)].
  - wp_step. eapply (reading_spec _ (fun o => o = logical (flv s NsIdentities) a)); [done|..].
    + wp_use load_record_spec; [apply Hi|by apply plain_signal; unfold plain; set_solver|auto|].
      intros r f (Hu & Hf & Hr). split_and!; done.
    + intros [o|e] t HP Ht Ha Hin Hu; [subst o|split; try done; by intros ? [= <-]]. destruct (logical (flv s NsIdentities) a) as [key|] eqn:El.
      2: { wp_step. split; try done. by intros o _ [= <-]. }
      assert (Hwf := wf_at s NsIdentities Hi ltac:(unfold signal_namespaces; set_solver)).
      pose proof El as Hlog. apply (logical_Some _ _ _ _ Hwf) in Hlog as (_ & _ & _ & _ & Hlen).
      rewrite bool_decide_true by (unfold len in Hlen; lia).
      wp_step. apply wp_update. wp_step. split.
      * apply sinv_inner; [done|]. apply caps_mirror_identity, Ht.
      * intros n' k'. apply (agrees_load NsIdentities); try done.
        -- unfold plain. set_solver.
        -- naive_solver.
        -- unfold flv. by rewrite (unchanged_flash _ _ _ Hu).
      * done.
      * done.
      * by intros o _ [= <-].
Qed.

Lemma get_session_spec a s :
  sinv s ->
  wp (get_session a) (load_post NsSessions a (logical (flv s NsSessions) a) s) s.
Proof.
  intros Hi. unfold get_session. wp_step. apply wp_look.
  destruct (sessions (inner s) !! a) as [v|] eqn:E.
  - wp_step. apply wp_update. wp_step. split.
    + apply sinv_inner; [done|]. apply touch_session_caps; [apply Hi|by rewrite E].
    + done.
    + done.
    + done.
    + intros o Hag [= <-]. unfold agrees, agree, answers in Hag. rewrite E in Hag.
      destruct has_psram; [done|by rewrite (Hag v)].
  - wp_step. eapply (reading_spec _ (fun o => o = logical (flv s NsSessions) a)); [done|..].
    + wp_use load_record_spec; [apply Hi|by apply plain_signal; unfold plain; set_solver|auto|].
      intros r f (Hu & Hf & Hr). split_and!; done.
    + intros [o|e] t HP Ht Ha Hin Hu; [subst o|split; try done; by intros ? [= <-]]. destruct (logical (flv s NsSessions) a) as [v|] eqn:El.
      2: { wp_step. split; try done. by intros o _ [= <-]. }
      wp_step. apply wp_update. wp_step. split.
      * apply sinv_inner; [done|]. apply caps_mirror_session, Ht.
      * intros n' k'. apply (agrees_load NsSessions); try done.
        -- unfold plain. set_solver.
        -- naive_solver.
        -- unfold flv. by rewrite (unchanged_flash _ _ _ Hu).
      * done.
      * done.
      * by intros o _ [= <-].
Qed.
(** ** Sync keys *)

(** The job of [set_sync_key], whatever its outcome. *)
Record sync_written k v (f : fstate W) (r : result StoreError unit) (g : fstate W) : Prop := {
  sw_inv : finv g;
  sw_frame n : n <> NsControl -> n <> NsSyncKeys -> fl g n = fl f n /\ du g n = du f n;
  sw_other k' : k' <> k -> logical (fl g NsSyncKeys) k' = logical (fl f NsSyncKeys) k';
  sw_ok : r = Ok tt -> logical (fl g NsSyncKeys) k = Some v /\
    latest_of (fl g NsControl) = Some k /\
    du g NsSyncKeys = fl g NsSyncKeys /\ du g NsControl = fl g NsControl;
  sw_err e : r = Err e -> logical (fl g NsSyncKeys) k = logical (fl f NsSyncKeys) k \/ is_io e;
  sw_size : Z.of_nat (size (fl f NsSyncKeys)) <= MAX_SYNC_KEYS ->
    Z.of_nat (size (fl g NsSyncKeys)) <= MAX_SYNC_KEYS;
  (** The key's record is only ever touched behind a durable marker. *)
  sw_marker_first :
    (fl g NsSyncKeys = fl f NsSyncKeys /\ du g NsSyncKeys = du f NsSyncKeys) \/
    (latest_of (du g NsControl) = Some k /\ latest_of (fl g NsControl) = Some k);
  sw_reset : fl g NsControl !! bs "reset" = fl f NsControl !! bs "reset";
}.

Lemma write_sync_key_spec k v (f : fstate W) :
  finv f -> content_ok NsSyncKeys k v ->
  wp (write_sync_key k v) (sync_written k v f) f.
Proof.
  intros Hi Hc. unfold write_sync_key. wp_step.
  wp_use prepare_record_spec; [done|exact sync_signal|]. intros [[name b]|e] g (Hu & Hig & Hr).
  2: { pose proof (unchanged_flash NsSyncKeys f g Hu) as E1.
       split; rewrite ?E1; try done.
       - by left.
       - left. split; [done|apply Hu].
       - by rewrite (unchanged_flash _ _ _ Hu). }
  destruct Hr as (-> & -> & Hr). wp_step.
  wp_use save_latest_sync_key_id_spec. intros [[]|e] h Hh; pose proof (ls_only _ _ _ _ Hh) as Ho.
  2: { assert (E : forall n, n <> NsControl -> fl h n = fl f n /\ du h n = du f n).
       { intros n Hn. destruct (Ho n Hn) as [-> ->]. apply Hu. }
       destruct (E NsSyncKeys) as [E1 E2]; [done|]. split; rewrite ?E1, ?E2; auto; try done.
       - eapply (finv_outside NsControl); [exact Hig|done| |apply Hh]. by intros [Hn _]%signal_ne.
       - rewrite (ls_reset _ _ _ _ Hh). by rewrite (unchanged_flash _ _ _ Hu). }
  destruct (ls_ok _ _ _ _ Hh eq_refl) as (Hl & Hd & Hlk).
  assert (E : forall n, n <> NsControl -> fl h n = fl f n /\ du h n = du f n).
  { intros n Hn. destruct (Ho n Hn) as [-> ->]. apply Hu. }
  assert (Hih : finv h).
  { eapply (finv_outside NsControl); [exact Hig|done| |apply Hh]. by intros [Hn _]%signal_ne. }
  destruct (E NsSyncKeys) as [E1 E2]; [done|].
  wp_use (set_record_spec NsSyncKeys k v "sync key" MAX_SYNC_KEYS h h);
    [done|exact sync_signal|done|done|by rewrite E1|].
  intros r q Hq. pose proof (pp_only _ _ _ _ _ _ _ _ Hq) as Hoq.
  destruct (Hoq NsControl) as [C1 C2]; [done|].
  split; rewrite <- ?E1, ?C1, ?C2.
  - apply Hq.
  - intros n Hn1 Hn2. destruct (Hoq n Hn2) as [-> ->]. by apply E.
  - apply Hq.
  - intros Hok. destruct (pp_ok _ _ _ _ _ _ _ _ Hq Hok). by split_and!.
  - intros e He. destruct (pp_err _ _ _ _ _ _ _ _ Hq e He) as [?|[? _]]; auto.
  - apply Hq.
  - right. by rewrite Hd.
  - rewrite (ls_reset _ _ _ _ Hh). by rewrite (unchanged_flash _ _ _ Hu).
Qed.

Definition other_fields_sync (i i' : StoreInner) : Prop :=
  i' = set_sync_keys (sync_keys i') (set_sync_key_order (sync_key_order i') i).

Lemma mirror_sync_other p k key i :
  other_fields_sync i (enforce_sync_keys_cap_except p (mirror_sync_key k key i)).
Proof using Type.
  unfold other_fields_sync, mirror_sync_key. rewrite enforce_sync_keys_cap_except_eq.
  by destruct has_psram.
Qed.

Lemma agree_sync_mirror p k key v i (L L' : ns -> bytes -> option bytes) D n' k' :
  (forall n' k', (n', k') <> (NsSyncKeys, k) -> L' n' k' = L n' k') ->
  L' NsSyncKeys k = Some v -> from_slice v = Some key ->
  ((n', k') = (NsSyncKeys, k) \/ agree i L D n' k') ->
  agree (enforce_sync_keys_cap_except p (mirror_sync_key k key i)) L' D n' k'.
Proof using Type.
  intros Hother HL Hv Ha. destruct (decide ((n', k') = (NsSyncKeys, k))) as [E|Hne].
  - injection E as -> ->. unfold agree. rewrite HL. cbn. rewrite Hv.
    eapply answers_entered_self, mirror_sync_key_entered.
  - destruct Ha as [?|Ha]; [done|]. apply (agree_flash L L' D NsSyncKeys k Hother i n' k' Hne) in Ha.
    revert Ha. rewrite (mirror_sync_other p k key i). destruct n'; cbn; auto.
    eapply answers_entered; [apply mirror_sync_key_entered|]. congruence.
Qed.

Lemma load_sync_key_spec k (f : fstate W) :
  finv f ->
  wp (load_sync_key (Key := AppStateSyncKey) k) (fun r g => unchanged f g /\ finv g /\
    match r with
    | Ok o => o = logical (fl f NsSyncKeys) k ≫= from_slice
    | Err e => is_io e
    end) f.
Proof.
  intros Hi. unfold load_sync_key. wp_step.
  wp_use load_record_spec; [done|exact sync_signal|auto|]. intros [o|e] g (Hu & Hg & Hr); [|done].
  subst o. destruct (logical (fl f NsSyncKeys) k) as [v|] eqn:E; [|by wp_step].
  assert (Hwf := fi_flash _ Hi NsSyncKeys sync_signal).
  apply (logical_Some _ _ _ _ Hwf) in E as (_ & _ & _ & [key Hkey]).
  cbn. rewrite Hkey. by wp_step.
Qed.

Lemma get_sync_key_spec k s :
  sinv s ->
  wp (get_sync_key k) (load_post NsSyncKeys k (logical (flv s NsSyncKeys) k ≫= from_slice) s) s.
Proof.
  intros Hi. unfold get_sync_key. wp_step. apply wp_look.
  destruct (sync_keys (inner s) !! k) as [v|] eqn:E.
  - wp_step. apply wp_update. wp_step. split.
    + apply sinv_inner; [done|]. apply touch_sync_caps; [apply Hi|by rewrite E].
    + done.
    + done.
    + done.
    + intros o Hag [= <-]. unfold agrees, agree, answers in Hag. rewrite E in Hag.
      destruct has_psram; [done|by rewrite (Hag v)].
  - wp_step. eapply (reading_spec _ (fun o => o = logical (flv s NsSyncKeys) k ≫= from_slice)); [done|..].
    + wp_use load_sync_key_spec; [apply Hi|].
      intros r f (Hu & Hf & Hr). split_and!; done.
    + intros [o|e] t HP Ht Ha Hin Hu; [subst o|split; try done; by intros ? [= <-]]. destruct (logical (flv s NsSyncKeys) k ≫= from_slice) as [key|] eqn:El.
      2: { wp_step. split; try done. by intros o _ [= <-]. }
      wp_step. apply wp_update. wp_step.
      destruct (logical (flv s NsSyncKeys) k) as [v|] eqn:Ev; [|done]. cbn in El. split.
      * apply sinv_inner; [done|]. apply caps_mirror_sync_key, Ht.
      * intros n' k' Hag'. apply Ha in Hag'. unfold agrees in *.
        eapply (agree_sync_mirror _ k key v); [done| |done|right; exact Hag'].
        unfold flv. cbn. rewrite (unchanged_flash _ _ _ Hu). exact Ev.
      * done.
      * done.
      * by intros o _ [= <-].
Qed.

Lemma set_sync_key_spec k key s :
  sinv s -> wp (set_sync_key k key) (op_post (at_key NsSyncKeys k) s) s.
Proof.
  intros Hi. unfold set_sync_key. apply wp_guard; [apply guard_write_operation|intros x; by apply op_post_refused|].
  intros _. apply wp_guard; [apply guard_capacity|intros x; by apply op_post_refused|]. intros _.
  destruct (to_vec key) as [v|] eqn:Hv; [|wp_step; by apply op_post_same].
  apply from_to_vec in Hv. wp_step. apply wp_run; [intros _; by apply op_post_same|].
  wp_use (write_sync_key_spec k v); [apply Hi|by exists key|]. intros r f Hf.
  assert (Hdev : flv (set_flash_state f s) NsDevice = flv s NsDevice) by by apply (sw_frame _ _ _ _ _ Hf).
  assert (Hs : sinv (set_flash_state f s)).
  { split; [apply Hf| | |apply Hi].
    - intros n Hn. destruct (decide (n = NsSyncKeys)) as [->|Hne].
      + apply Hf. apply (si_size _ Hi NsSyncKeys Hn).
      + unfold flv. cbn. destruct (sw_frame _ _ _ _ _ Hf n) as [-> _]; [by apply signal_ne|done|].
        by apply (si_size _ Hi n).
    - rewrite Hdev. unfold duv. cbn. destruct (sw_frame _ _ _ _ _ Hf NsDevice) as [_ ->]; [done..|].
      apply Hi. }
  assert (Hother : forall n' k', n' <> NsControl -> (n', k') <> (NsSyncKeys, k) ->
    logical (fl f n') k' = logical (flv s n') k').
  { intros n' k' Hn Hne. destruct (decide (n' = NsSyncKeys)) as [->|Hn'].
    - apply Hf. by intros ->.
    - by destruct (sw_frame _ _ _ _ _ Hf n') as [-> _]. }
  assert (Hflash : forall n' k', (n', k') <> (NsSyncKeys, k) -> agrees s n' k' -> agrees (set_flash_state f s) n' k').
  { intros n' k' Hne. unfold agrees. rewrite Hdev. cbn. destruct n'; cbn; try done;
      unfold flv at 2; cbn; by rewrite Hother. }
  destruct r as [[]|e].
  - destruct (sw_ok _ _ _ _ _ Hf eq_refl) as (HL & _). apply wp_update.
    set (t := set_inner _ _).
    assert (Hag : forall n' k', at_key NsSyncKeys k n' k' \/ agrees s n' k' -> agrees t n' k').
    { intros n' k' Ha. unfold agrees.
      eapply (agree_sync_mirror _ k key v); [done|exact HL|done|].
      destruct (decide ((n', k') = (NsSyncKeys, k))) as [?|Hne]; [by left|right].
      destruct Ha as [?|Ha]; [done|]. apply (Hflash n' k' Hne) in Ha.
      unfold agrees in Ha. unfold agree in *. by destruct n'. }
    split; [|by intros; apply Hag; auto|by intros; apply Hag].
    apply sinv_inner; [done|]. apply caps_mirror_sync_key. by destruct (si_caps _ Hi).
  - split; [done| |done]. intros n' k' Hna Ha.
    destruct (decide ((n', k') = (NsSyncKeys, k))) as [E|Hne]; [|by apply Hflash].
    destruct Hna as [Hna|[x [= ->]]]; [by destruct Hna|]. injection E as -> ->.
    destruct (sw_err _ _ _ _ _ Hf _ eq_refl) as [El|[i [=]]].
    unfold agrees, agree, flv in *. cbn in *. by rewrite El.
Qed.
(** ** The device, and whole-store operations *)

Lemma save_spec d s : sinv s -> wp (save d) (op_post (fun n _ => n = NsDevice) s) s.
Proof.
  intros Hi. unfold save. apply wp_guard; [apply guard_write_operation|intros x; by apply op_post_refused|].
  intros _. wp_step. apply wp_run; [intros _; by apply op_post_same|].
  wp_use save_device_spec. intros r f Hf. pose proof (ds_only _ _ _ _ Hf) as Ho.
  destruct (si_device _ Hi) as [D1 D2].
  assert (Hsig : forall n, n ∈ signal_namespaces -> fl f n = flv s n).
  { intros n [_ Hn]%signal_ne. by apply Ho. }
  assert (Hs : sinv (set_flash_state f s)).
  { split; [| |by apply Hf|apply Hi].
    - eapply (finv_outside NsDevice); [apply Hi|done| |apply Hf]. by intros [_ Hn]%signal_ne.
    - intros n Hn. unfold flv. cbn. rewrite (Hsig n Hn). by apply (si_size _ Hi). }
  assert (Hother : forall n k, n <> NsDevice -> agrees s n k -> agrees (set_flash_state f s) n k).
  { intros n k Hn. unfold agrees, agree. destruct n; try done; unfold flv at 2; cbn;
      by rewrite Hsig by (unfold signal_namespaces; set_solver). }
  destruct r as [[]|e].
  - apply wp_update. destruct (ds_ok _ _ _ _ Hf eq_refl) as [Hd _]. set (t := set_inner _ _).
    assert (Hag : forall n k, n = NsDevice \/ agrees s n k -> agrees t n k).
    { intros n k Ha. destruct (decide (n = NsDevice)) as [->|Hn].
      - symmetry. exact Hd.
      - destruct Ha as [?|Ha]; [done|]. apply (Hother n k Hn) in Ha. by destruct n. }
    split; [apply sinv_inner; [done|]; by destruct (si_caps _ Hi)| |]; intros; apply Hag; auto.
  - split; [done| |done]. intros n k Hna Ha.
    destruct (decide (n = NsDevice)) as [->|Hn]; [|by apply Hother].
    destruct Hna as [?|[x [= ->]]]; [done|].
    destruct (ds_err _ _ _ _ Hf _ eq_refl) as [El|[[i [=]] _]].
    unfold agrees, agree, flv in *. cbn in *. by rewrite El.
Qed.

Lemma blank_logical n k (f : fstate W) : blank n f -> logical (fl f n) k = None.
Proof. intros [Hf _]. apply logical_absent. by rewrite Hf, lookup_empty. Qed.

Lemma reset_spec s :
  sinv s ->
  wp reset (fun r t => op_post (fun _ _ => True) s r t /\
    (r = Ok tt -> inner t = inner_default /\ forall n, n ∈ reset_namespaces -> flv t n = ∅ /\ duv t n = ∅)) s.
Proof.
  intros Hi. unfold reset. wp_step. apply wp_run.
  { intros _. split; [by apply op_post_same|done]. }
  wp_use reset_all_spec. intros r f [Hf He].
  destruct r as [[]|e].
  - apply wp_update. destruct (ro_ok _ _ _ Hf eq_refl) as (Hb & _). split; [|by split].
    assert (Hag : forall n k, agrees (set_inner inner_default (set_flash_state f s)) n k).
    { intros n k. assert (Hl : n ∈ signal_namespaces -> logical (fl f n) k = None).
      { intros Hn. apply blank_logical, Hb. by right. }
      unfold agrees, flv, agree, answers. cbn.
      destruct n; try done; try (rewrite Hl by (unfold signal_namespaces; set_solver));
        try (by destruct has_psram); try (intros _; apply lookup_empty); try apply lookup_empty.
      destruct (Hb NsDevice) as [-> _]; [by left|]. done. }
    split; try done. apply sinv_inner; [|apply caps_default].
    split; [apply Hf, Hi| | |apply Hi].
    + intros n Hn. unfold flv. cbn. destruct (Hb n) as [-> _]; [by right|]. rewrite map_size_empty.
      unfold limit. destruct n; done.
    + unfold flv, duv, device_wf. cbn. destruct (Hb NsDevice) as [-> ->]; [by left|].
      split; intros x; by rewrite lookup_empty.
  - assert (exists i, e = Io i) as [i ->] by by apply He.
    split; [|done]. split; [|intros n k [?|[x [=]]]; done|done].
    split; [apply Hf, Hi| | |apply Hi].
    + intros n Hn. destruct (ro_sub _ _ _ Hf n) as [Hsub _]; [by right|].
      apply subseteq_dom, subseteq_size in Hsub. rewrite !size_dom in Hsub.
      pose proof (si_size _ Hi n Hn). unfold flv in *. cbn in *. lia.
    + destruct (ro_sub _ _ _ Hf NsDevice) as [S1 S2]; [by left|].
      destruct (si_device _ Hi) as [D1 D2]. unfold flv, duv, device_wf in *.
      split; intros x Hx; [apply D1|apply D2]; by eapply lookup_weaken.
Qed.

Lemma clear_sessions_spec s :
  sinv s ->
  wp clear_sessions (fun r t =>
    op_post (fun n _ => n = NsSessions) s (match r with Ok _ => Ok tt | Err e => Err e end) t) s.
Proof.
  intros Hi. unfold clear_sessions. wp_step. apply wp_run; [intros _; by apply op_post_same|].
  assert (Hn : NsSessions ∈ signal_namespaces) by (unfold signal_namespaces; set_solver).
  wp_step. wp_use record_count_spec. intros [c|e] f [Hq Hc].
  2: { split; [apply sinv_unchanged; [done|by eapply finv_quiet; [apply Hi|]|apply Hq]| |done].
       intros n k _. by apply agrees_unchanged, Hq. }
  unfold set_slots. wp_step. wp_step. wp_step.
  set (f0 := FState (fs_nvs f) _). wp_use (erase_namespace_spec NsSessions [NsSessions]); [by left|].
  intros r g (Hs & Hsl & Hok & He).
  assert (Hsub : forall n, n ∈ signal_namespaces -> fl g n ⊆ flv s n /\ du g n ⊆ duv s n).
  { intros n Hn'. unfold flv, duv.
    rewrite <- (unchanged_flash n _ _ (proj1 Hq)), <- (unchanged_durable n _ _ (proj1 Hq)).
    destruct (decide (n = NsSessions)) as [->|Hne]; [apply (Hs NsSessions); by left|].
    destruct (shrinks_outside _ _ _ n Hs) as [-> ->]; [|done]. by intros ->%list_elem_of_singleton. }
  assert (Hsame : forall n, n <> NsSessions -> fl g n = flv s n /\ du g n = duv s n).
  { intros n Hne. unfold flv, duv.
    rewrite <- (unchanged_flash n _ _ (proj1 Hq)), <- (unchanged_durable n _ _ (proj1 Hq)).
    apply (shrinks_outside _ _ _ n Hs). by intros ->%list_elem_of_singleton. }
  assert (Hsg : sinv (set_flash_state g s)).
  { split; [| | |apply Hi].
    - apply (finv_shrinks (flash_state s)); [apply Hi|done|apply Hsub].
    - intros n Hn'. destruct (Hsub n Hn') as [Hsb _].
      apply subseteq_dom, subseteq_size in Hsb. rewrite !size_dom in Hsb.
      pose proof (si_size _ Hi n Hn'). unfold flv in *. cbn in *. lia.
    - unfold flv, duv. cbn. destruct (Hsame NsDevice) as [-> ->]; [done|]. apply Hi. }
  assert (Hag : forall n k, n <> NsSessions -> agrees s n k -> agrees (set_flash_state g s) n k).
  { intros n k Hne. unfold agrees, agree, flv. cbn. destruct (Hsame NsDevice) as [-> _]; [done|].
    destruct n; try done; by rewrite (proj1 (Hsame _ Hne)). }
  destruct r as [[]|e].
  - wp_step. wp_step. apply wp_update. wp_step. set (t := set_inner _ _).
    assert (Hagt : forall n k, n = NsSessions \/ agrees s n k -> agrees t n k).
    { intros n k Ha. destruct (decide (n = NsSessions)) as [->|Hne].
      - unfold agrees, agree, answers, flv. cbn. rewrite blank_logical by by apply Hok.
        rewrite lookup_empty. by destruct has_psram.
      - destruct Ha as [?|Ha]; [done|]. apply (Hag n k Hne) in Ha. by destruct n. }
    split; [|by intros; apply Hagt; auto|by intros; apply Hagt].
    apply sinv_inner; [done|]. destruct (si_caps _ Hi). split; try done. apply mirrors_nil.
  - split; [done| |done]. intros n k Hna. apply Hag. destruct Hna as [Hna|[x [= ->]]]; [done|].
    by destruct (He _ eq_refl).
Qed.

(** A job that only reads, whatever it answers. *)
Lemma counting_spec {A} (job : M (fstate W) StoreError A) (Q : result StoreError A -> store W -> Prop) s :
  sinv s -> wp job (fun r f => quiet (flash_state s) f) (flash_state s) ->
  (forall r t, sinv t -> (forall n k, agrees s n k -> agrees t n k) ->
     unchanged (flash_state s) (flash_state t) -> Q r t) ->
  wp (run job) Q s.
Proof.
  intros Hi Hj HQ. apply wp_run; [intros _; by apply HQ|]. wp_use Hj. intros r f Hf. apply HQ.
  - apply sinv_unchanged; [done|by eapply finv_quiet; [apply Hi|]|apply Hf].
  - intros n k. apply agrees_unchanged, Hf.
  - apply Hf.
Qed.

Lemma string_keys n k v : n = NsSessions \/ n = NsIdentities -> content_ok n k v -> utf8_valid k = true.
Proof using Type. intros [-> | ->]; [done|]. by intros [? _]. Qed.

Lemma addresses_quiet n label (f : fstate W) :
  finv f -> n = NsSessions \/ n = NsIdentities ->
  wp (namespace_addresses n label) (fun r g => quiet f g) f.
Proof.
  intros Hi Hn. wp_use namespace_addresses_spec.
  - apply Hi. unfold signal_namespaces. set_solver.
  - intros k v. by apply string_keys.
  - by intros r g [Hq _].
Qed.

Lemma list_sessions_spec s : sinv s -> wp (discard list_sessions) (read_post s) s.
Proof.
  intros Hi. apply wp_discard. unfold list_sessions. destruct has_psram.
  - apply wp_look. by apply read_frame.
  - apply counting_spec; [done|apply addresses_quiet; [apply Hi|by left]|].
    intros r t Ht Ha Hu. by apply read_frame.
Qed.

Lemma has_signal_spec u s : sinv s -> wp (discard (has_signal_state_for_user u)) (read_post s) s.
Proof.
  intros Hi. apply wp_discard. unfold has_signal_state_for_user. wp_step. apply wp_look.
  destruct (_ || _); [wp_step; by apply read_frame|].
  destruct has_psram; [wp_step; by apply read_frame|]. wp_step.
  apply counting_spec; [done| |].
  - wp_step. wp_use addresses_quiet; [apply Hi|by left|]. intros [a|e] f Hf; [|done].
    wp_step. wp_use addresses_quiet; [by eapply finv_quiet; [apply Hi|]|by right|].
    intros [b|e] g Hg; [wp_step|]; by etrans.
  - intros r t Ht Ha Hu. destruct r; [wp_step|]; by apply read_frame.
Qed.

Lemma count_or_spec n c (Q : result StoreError Z -> store W -> Prop) s :
  sinv s ->
  (forall z t, sinv t -> (forall n k, agrees s n k -> agrees t n k) ->
     unchanged (flash_state s) (flash_state t) -> Q (Ok z) t) ->
  wp (count_or n c) Q s.
Proof.
  intros Hi HQ. unfold count_or. wp_step. wp_step. apply counting_spec; [done| |].
  - wp_use record_count_spec. by intros r g [Hq _].
  - intros r t Ht Ha Hu. wp_step. by apply HQ.
Qed.

Lemma stats_spec s : sinv s -> wp (discard stats) (read_post s) s.
Proof.
  intros Hi. apply wp_discard. unfold stats. wp_step. apply wp_look. wp_step.
  destruct has_psram; [do 2 wp_step; by apply read_frame|]. wp_step.
  apply count_or_spec; [done|]. intros a t Ht Hat Htu. wp_step.
  apply count_or_spec; [done|]. intros b u Hu Hau Hut. do 2 wp_step.
  apply read_frame; [done|auto|]. by etrans.
Qed.

Lemma load_discard {A} (m : M (store W) StoreError (option A)) n k o s :
  wp m (load_post n k o s) s -> wp (discard m) (read_post s) s.
Proof.
  intros H. apply wp_discard. wp_use H. intros r t [Hi Ha Hu _ _]. by apply read_frame.
Qed.

Lemma read_op m s : wp m (read_post s) s -> wp m (op_post nothing s) s.
Proof using Type. intros H. wp_use H. by intros r t [Hr _]. Qed.

(** ** [put_session] and a batch of one *)

Lemma encode_record_ok {S} (rsv : Z -> M S StoreError unit) k v (x y : S) b :
  encode_record rsv k v x = (y, Ok b) -> b = record_bytes k v.
Proof using Type.
  unfold encode_record. case_match; [done|]. case_match; [done|].
  unfold bind, ret. destruct (rsv _ x) as [? []]; congruence.
Qed.

Lemma mirrored_payload k v :
  zdrop (RECORD_HEADER_LEN + len k) (record_bytes k v) = v.
Proof using Type.
  unfold record_bytes, RECORD_HEADER_LEN. rewrite !app_assoc. apply zdrop_app. len_lia.
Qed.

Lemma bind_ok_tt {S E} (m : M S E unit) x : bind m (fun _ => ret tt) x = m x.
Proof using Type. unfold bind. by destruct (m x) as [? [[]|]]. Qed.

Lemma put_session_eq a v s :
  len v <= MAX_SIGNAL_RECORD_LEN ->
  put_session a v s = (write_operation ;;; put_one_session a v) s.
Proof using Type.
  intros Hv. unfold put_session, put_one_session. zcase.
  unfold put_record, prepare_record, run, here, zoom, bind.
  destruct (write_operation s) as [s1 [[]|e]]; [|done].
  destruct (mirror_capacity _ _ _ _ s1) as [s2 [[]|e]]; [|done].
  destruct (worker s2) eqn:Hw; [|done].
  destruct (check_record_slot _ _ _ _ _ _) as [f [name|e]]; [|done]. cbn.
  destruct (encode_record _ _ _ f) as [g [b|e]] eqn:He; [|done].
  apply encode_record_ok in He. subst b. rewrite mirrored_payload. cbn. rewrite Hw.
  unfold ret. cbn. by destruct (set_blob _ _ _ g) as [h [[]|]].
Qed.
(** ** All operations *)

(** A put behind the write gate and a capacity check. *)
Lemma gated_spec {K V} `{Countable K} (f : StoreInner -> gmap K V) key max label
    (m : M (store W) StoreError unit) T s :
  sinv s -> wp m (op_post T s) s ->
  wp (write_operation ;;; mirror_capacity f key max label ;;; m) (op_post T s) s.
Proof using Type.
  intros Hi Hm. apply wp_guard; [apply guard_write_operation|intros; by apply op_post_refused|]. intros _.
  apply wp_guard; [apply guard_capacity|intros; by apply op_post_refused|]. by intros _.
Qed.

Lemma sealed_spec (m : M (store W) StoreError unit) T s :
  sinv s -> wp m (op_post T s) s -> wp (write_operation ;;; m) (op_post T s) s.
Proof using Type.
  intros Hi Hm. apply wp_guard; [apply guard_write_operation|intros; by apply op_post_refused|]. by intros _.
Qed.

Lemma capacity_spec {K V} `{Countable K} (f : StoreInner -> gmap K V) key max label
    (m : M (store W) StoreError unit) T s :
  sinv s -> wp m (op_post T s) s -> wp (mirror_capacity f key max label ;;; m) (op_post T s) s.
Proof using Type.
  intros Hi Hm. apply wp_guard; [apply guard_capacity|intros; by apply op_post_refused|]. by intros _.
Qed.

Lemma id_key_length id : length (id_key id) = 4%nat.
Proof using Type. done. Qed.

Lemma le_value_id id : fits 32 id = true -> le_value (id_key id) = id.
Proof using Type.
  unfold fits, id_key. intros [H1%Z.leb_le H2%Z.ltb_lt]%andb_true_iff.
  rewrite le_value_bytes. by apply Z.mod_small.
Qed.

Lemma op_post_empty T s : sinv s -> (forall n k, ~ T n k) -> op_post T s (Ok tt) s.
Proof using Type. intros Hi HT. split; [done|done|]. intros n k _ [?|?]; [by destruct (HT n k)|done]. Qed.

(** *** The kinds of methods *)

#[local] Ltac plain_ns := unfold plain; set_solver.

Lemma ram_spec r s : sinv s -> wp (exec_ram r) (op_post nothing s) s.
Proof.
  intros Hi. wp_use exec_ram_persisted. intros q t [Hf Hp]. apply op_post_frame.
  - destruct Hi; split; unfold flv, duv in *; rewrite ?Hf; try done. by eapply caps_persisted.
  - intros n k. unfold agrees, flv. rewrite Hf. by apply agree_persisted.
Qed.

(** A batch: nothing for an empty one, and otherwise one after the other. *)
Lemma batch_spec n (put : bytes * bytes -> M (store W) StoreError unit) l s :
  sinv s ->
  (forall x t, x ∈ l -> sinv t -> wp (put x) (op_post (at_key n x.1) t) t) ->
  wp (match l with [] => ret tt | _ => write_operation ;;; put_each put l end)
    (op_post (fun n' k => exists e, e ∈ l /\ at_key n e.1 n' k) s) s.
Proof.
  intros Hi Hput. destruct l as [|e l].
  - apply op_post_empty; [done|]. intros n' k (e & He & _). by apply not_elem_of_nil in He.
  - apply sealed_spec; [done|]. by apply put_each_spec.
Qed.

Lemma put_session_spec a v s : sinv s -> utf8_valid a = true ->
  wp (put_session a v) (op_post (at_key NsSessions a) s) s.
Proof.
  intros Hi Hu. destruct (Z.leb_spec (len v) MAX_SIGNAL_RECORD_LEN) as [Hl|Hl].
  - unfold wp. rewrite put_session_eq by done.
    apply gated_spec; [done|]. by apply (put_one_spec NsSessions); [|plain_ns|].
  - unfold put_session. zcase. wp_step. by apply op_post_refused.
Qed.

Lemma store_prekey_spec id record s : sinv s -> fits 32 id = true ->
  wp (store_prekey id record) (op_post (at_key NsPrekeys (id_key id)) s) s.
Proof.
  intros Hi Hid. apply gated_spec; [done|]. pose proof (put_one_spec NsPrekeys (id_key id) record) as Hput.
  unfold mput in Hput. rewrite le_value_id in Hput by done. apply Hput; [done|plain_ns|apply id_key_length].
Qed.
Lemma store_signed_prekey_spec id record s : sinv s -> fits 32 id = true ->
  wp (store_signed_prekey id record) (op_post (at_key NsSignedPrekeys (id_key id)) s) s.
Proof.
  intros Hi Hid. apply gated_spec; [done|]. pose proof (put_one_spec NsSignedPrekeys (id_key id) record) as Hput.
  unfold mput in Hput. rewrite le_value_id in Hput by done. apply Hput; [done|plain_ns|apply id_key_length].
Qed.
Lemma remove_prekey_spec id s : sinv s -> fits 32 id = true ->
  wp (remove_prekey id) (op_post (at_key NsPrekeys (id_key id)) s) s.
Proof.
  intros Hi Hid. apply sealed_spec; [done|]. pose proof (delete_one_spec NsPrekeys (id_key id)) as Hdel.
  unfold mdel in Hdel. rewrite le_value_id in Hdel by done. apply Hdel; [done|plain_ns|by intros _].
Qed.
Lemma remove_signed_prekey_spec id s : sinv s -> fits 32 id = true ->
  wp (remove_signed_prekey id) (op_post (at_key NsSignedPrekeys (id_key id)) s) s.
Proof.
  intros Hi Hid. apply sealed_spec; [done|]. pose proof (delete_one_spec NsSignedPrekeys (id_key id)) as Hdel.
  unfold mdel in Hdel. rewrite le_value_id in Hdel by done. apply Hdel; [done|plain_ns|by intros _].
Qed.

Lemma create_spec s : sinv s -> wp (discard create) (op_post nothing s) s.
Proof.
  intros Hi. apply wp_discard. unfold create.
  apply wp_guard; [apply guard_write_operation|intros; by apply op_post_refused|].
  intros _. wp_step. apply wp_update. apply wp_look. apply op_post_frame; [|by intros [] ?].
  apply sinv_inner; [done|]. by destruct (si_caps _ Hi).
Qed.

Lemma exec_spec (o : op) s : sinv s -> op_ok o -> wp (exec o) (op_post (writes o) s) s.
Proof.
  intros Hi Hok. destruct o; cbn [exec writes op_ok] in *.
  - by apply ram_spec.
  - destruct Hok. apply gated_spec; [done|]. by apply (put_one_spec NsIdentities); [|plain_ns|].
  - apply batch_spec; [done|]. intros x t Hx Ht. rewrite Forall_forall in Hok. destruct (Hok _ Hx).
    apply capacity_spec; [done|]. by apply (put_one_spec NsIdentities); [|plain_ns|].
  - by eapply read_op, load_discard, load_identity_spec.
  - apply sealed_spec; [done|]. apply (delete_one_spec NsIdentities); [done|plain_ns|naive_solver].
  - by eapply read_op, load_discard, get_session_spec.
  - by apply put_session_spec.
  - apply batch_spec; [done|]. intros x t Hx Ht. rewrite Forall_forall in Hok. specialize (Hok _ Hx).
    apply capacity_spec; [done|]. by apply (put_one_spec NsSessions); [|plain_ns|].
  - apply sealed_spec; [done|]. apply (delete_one_spec NsSessions); [done|plain_ns|naive_solver].
  - by apply read_op, has_signal_spec.
  - by apply store_prekey_spec.
  - by apply remove_prekey_spec.
  - by apply store_signed_prekey_spec.
  - by apply remove_signed_prekey_spec.
  - apply gated_spec; [done|]. by apply (put_one_spec NsSenderKeys); [|plain_ns|].
  - apply sealed_spec; [done|]. apply (delete_one_spec NsSenderKeys); [done|plain_ns|naive_solver].
  - by eapply read_op, load_discard, get_sync_key_spec.
  - by apply set_sync_key_spec.
  - by apply save_spec.
  - by apply create_spec.
  - apply wp_discard. wp_use clear_sessions_spec; [done|]. by intros [] t.
  - by apply read_op, list_sessions_spec.
  - by apply read_op, stats_spec.
  - wp_use reset_spec; [done|]. by intros r t [Hr _].
  - unfold seal_writes. wp_step. apply op_post_frame; [|done]. by destruct Hi.
Qed.
End Ops.
