(* ===== verification/StoreHistory.v ===== *)
(** * Histories of the store

    Sequences of the store's methods: what each step keeps, which methods the
    write gate guards, and that a sealed store is frozen. *)

From S2P Require Import Prelude RustStr RustStrLemmas Nvs Record SessionSlots Lru Flash FlashSpec FlashRecords FlashBoot FlashReset FlashDevice Platform StoreInner Store StoreRam StoreInv StoreOps StoreSpec.
#[local] Set Default Proof Using "Type*".

Create HintDb store_ops.

(** ** Histories *)

Section History.
Context {W : Type} `{nvsW : !Nvs W, shaW : !Sha256, wacore : Wacore, board : Board}.

Definition step (s : store W) (o : op) : store W := (exec o s).1.
Definition run_ops (os : list op) (s : store W) : store W := foldl step s os.

(** No operation of the history that writes the record failed on the
    medium or the heap: it succeeded or it was refused. *)
Fixpoint unharmed (n : ns) (k : bytes) (os : list op) (s : store W) : Prop :=
  match os with
  | [] => True
  | o :: os =>
      (writes o n k -> (exec o s).2 = Ok tt \/ exists x, (exec o s).2 = Err (Validation x)) /\
      unharmed n k os (step s o)
  end.

(** The methods behind [write_operation]. *)
Definition gated (o : op) : bool :=
  match o with
  | PutIdentity _ _ | PutIdentitiesBatch (_ :: _) | DeleteIdentity _ | PutSession _ _
  | PutSessionsBatch (_ :: _) | DeleteSession _ | StorePrekey _ _ | RemovePrekey _
  | StoreSignedPrekey _ _ | RemoveSignedPrekey _ | PutSenderKey _ _ | DeleteSenderKey _
  | SetSyncKey _ _ | SaveDevice _ | CreateDevice => true
  | _ => false
  end.

(** The maintenance operations, the only ones that may write once the store
    is sealed. *)
Definition maintenance (o : op) : bool :=
  match o with ResetOp | ClearSessions => true | _ => false end.
End History.

Section Lemmas.
Context {W : Type} `{nvsW : !Nvs W, lawsW : !NvsLaws W, shaW : !Sha256, wacore : Wacore,
  lawsC : !WacoreLaws, board : Board}.
Implicit Types (s t : store W) (n : ns) (k v : bytes).

Lemma step_post (o : op) s : sinv s -> op_ok o -> op_post (writes o) s (exec o s).2 (step s o).
Proof. intros Hi Ho. apply (wp_unfold (exec o) (op_post (writes o) s)). by apply exec_spec. Qed.

Lemma run_ops_sinv os s : Forall op_ok os -> sinv s -> sinv (run_ops os s).
Proof.
  intros Ho. revert s. induction Ho as [|o os Ho _ IH]; intros s Hi; [done|].
  cbn. apply IH. by eapply op_inv, step_post.
Qed.

Lemma not_writes_or_ok (o : op) n k s :
  (writes o n k -> (exec o s).2 = Ok tt \/ exists x, (exec o s).2 = Err (Validation x)) ->
  sinv s -> op_ok o -> agrees s n k -> agrees (step s o) n k.
Proof.
  intros Hw Hi Ho Ha. destruct (step_post o s Hi Ho) as [_ Hf Hd].
  destruct ((exec o s).2) as [[]|e] eqn:E; [apply Hd; auto|]. apply Hf; [|done].
  destruct e as [x|i|]; [right; by eexists|left..];
    intros HT; destruct (Hw HT) as [[=]|[y [=]]].
Qed.

Lemma run_ops_agrees os s n k :
  Forall op_ok os -> sinv s -> agrees s n k -> unharmed n k os s -> agrees (run_ops os s) n k.
Proof.
  intros Ho. revert s. induction Ho as [|o os Ho _ IH]; intros s Hi Ha; [done|]. cbn. intros [Hw Hu].
  apply IH; [by eapply op_inv, step_post|by apply not_writes_or_ok|done].
Qed.

(** The value of a put that succeeded. *)
Lemma put_one_value n k v label s :
  sinv s -> plain n -> content_ok n k v ->
  wp (run (put_record n k v label (limit n)) ;;; update (mput n k v)) (fun r t =>
    r = Ok tt -> logical (flv t n) k = Some v /\ logical (duv t n) k = Some v) s.
Proof.
  intros Hi Hp Hc. wp_step. apply wp_run; [done|].
  wp_use put_record_spec; [apply Hi|by apply plain_signal|done|]. intros [u|e] f Hf; [|done].
  apply wp_update. intros _. destruct u. destruct (pp_ok _ _ _ _ _ _ _ _ Hf eq_refl) as [Hv Hd].
  unfold flv, duv. cbn. by rewrite Hd.
Qed.

Lemma guarded {K V} `{Countable K} (f : StoreInner -> gmap K V) key max label
    (m : M (store W) StoreError unit) (Q : result StoreError unit -> store W -> Prop) s :
  wp m Q s -> (forall x, Q (Err (Validation x)) s) ->
  wp (write_operation ;;; mirror_capacity f key max label ;;; m) Q s.
Proof.
  intros Hm He. apply wp_guard; [apply guard_write_operation|done|]. intros _.
  apply wp_guard; [apply guard_capacity|done|]. by intros _.
Qed.

(** A gated method on a sealed store does nothing. *)
Lemma gated_sealed (o : op) s :
  accepting_writes s = false -> gated o = true ->
  (exec o s).1 = s /\ exists x, (exec o s).2 = Err (Validation x).
Proof using Type.
  intros Ha Hg.
  assert (Hw : forall B (m : M (store W) StoreError B),
    (write_operation ;;; m) s = (s, Err (Validation SealedForMaintenance))).
  { intros B m. unfold bind, write_operation. by rewrite Ha. }
  assert (Hw' : forall m : M (store W) StoreError unit, ((write_operation ;;; m) s).1 = s /\
    exists x, ((write_operation ;;; m) s).2 = Err (Validation x)).
  { intros m. rewrite Hw. by eauto. }
  destruct o; try done; try apply Hw'.
  - destruct entries; [done|apply Hw'].
  - cbn [exec]. unfold put_session. destruct (len session >? MAX_SIGNAL_RECORD_LEN); [split; [done|by eexists]|apply Hw'].
  - destruct entries; [done|apply Hw'].
  - cbn [exec]. unfold discard, create, bind, write_operation. rewrite Ha. split; [done|by eexists].
Qed.

Lemma seal_accepting s : accepting_writes (step s SealWrites) = false.
Proof using Type. done. Qed.
(** ** Nothing but [seal_writes] touches the gate *)

Definition same_gate s t : Prop := accepting_writes t = accepting_writes s.

#[local] Instance same_gate_preorder : PreOrder same_gate.
Proof using Type. split; [done|]. intros s t u H1 H2. unfold same_gate in *. congruence. Qed.

Lemma gate_run {A} (job : M (fstate W) StoreError A) : keeps same_gate (run job).
Proof using Type.
  intros s. unfold run, zoom, same_gate. destruct (worker s); [|done]. by destruct (job (flash_state s)).
Qed.
Lemma gate_here {A} (job : M (fstate W) StoreError A) : keeps same_gate (here job).
Proof using Type. intros s. unfold here, zoom, same_gate. by destruct (job (flash_state s)). Qed.
Lemma gate_update f : keeps same_gate (update (W := W) f).
Proof using Type. intros s. red. done. Qed.
Lemma gate_look {A} (f : StoreInner -> A) : keeps same_gate (look (W := W) f).
Proof using Type. intros s. red. done. Qed.
Lemma gate_write : keeps same_gate (write_operation (W := W)).
Proof using Type. intros s. unfold write_operation, same_gate. destruct (accepting_writes s) eqn:E; exact E. Qed.
Lemma gate_attempt {A} (m : M (store W) StoreError A) :
  keeps same_gate m -> keeps same_gate (attempt (E' := StoreError) m).
Proof using Type. intros Hm s. unfold attempt. specialize (Hm s). by destruct (m s). Qed.
Lemma gate_put_each {A} (put : A -> M (store W) StoreError unit) l :
  (forall x, keeps same_gate (put x)) -> keeps same_gate (put_each put l).
Proof using Type.
  intros Hp. induction l as [|x l IH]; cbn; [by apply keeps_ret, _|]. apply keeps_bind; [apply _|done|done].
Qed.

#[local] Hint Resolve gate_run gate_here gate_update gate_look gate_write gate_attempt gate_put_each : keeps.
#[local] Hint Extern 1 (keeps _ (bind _ _)) => apply keeps_bind; [apply _| |intros ?] : keeps.
#[local] Hint Extern 1 (keeps _ (ret _)) => apply keeps_ret, _ : keeps.
#[local] Hint Extern 1 (keeps _ (fail _)) => apply keeps_fail, _ : keeps.
#[local] Hint Extern 1 (keeps _ (lift _)) => apply keeps_lift, _ : keeps.
#[local] Hint Extern 2 (keeps _ (if ?b then _ else _)) => destruct b : keeps.
#[local] Hint Extern 2 (keeps _ (match ?x with _ => _ end)) => destruct x : keeps.

#[local] Hint Unfold set_version delete_version put_mutation_macs commit_patch delete_mutation_macs
  clear_mutation_macs set_sender_key_status clear_sender_key_devices clear_all_sender_key_devices
  delete_sender_key_device_rows put_lid_mapping save_base_key delete_base_key update_device_list
  delete_devices put_tc_token delete_tc_token delete_expired_tc_tokens touch_tc_token_sender_timestamp
  store_received_tc_token store_sent_message take_sent_message delete_expired_sent_messages
  put_msg_secrets delete_expired_msg_secrets discard put_identity put_one_identity put_identities_batch
  load_identity delete_identity get_session put_session put_one_session put_sessions_batch
  delete_session has_signal_state_for_user store_prekey remove_prekey store_signed_prekey
  remove_signed_prekey put_sender_key delete_sender_key get_sync_key set_sync_key save create
  clear_sessions list_sessions stats count_or reset mirror_capacity : store_ops.

Lemma exec_gate (o : op) : o <> SealWrites -> keeps same_gate (exec o).
Proof using Type.
  intros Hne. destruct o; try done; cbn [exec]; [destruct r; cbn [exec_ram]|..];
    autounfold with store_ops; auto 20 with keeps nocore.
Qed.

(** Any gated or reading method of a sealed store leaves the partition as it
    was. *)
Lemma step_frozen (o : op) s :
  sinv s -> accepting_writes s = false -> maintenance o = false ->
  unchanged (flash_state s) (flash_state (step s o)) /\ accepting_writes (step s o) = false.
Proof.
  intros Hi Ha Hm. destruct (gated o) eqn:Hg.
  { unfold step. destruct (gated_sealed o s Ha Hg) as [-> _]. by split. }
  split.
  - assert (Hr : forall m : M (store W) StoreError unit, wp m (read_post s) s ->
      unchanged (flash_state s) (flash_state (m s).1)).
    { intros m Hw. apply wp_unfold in Hw. by destruct Hw. }
    unfold step. destruct o; try done; cbn [exec].
    + assert (Hx := exec_ram_persisted r s). apply wp_unfold in Hx. by destruct Hx as [-> _].
    + by destruct entries.
    + by eapply Hr, load_discard, load_identity_spec.
    + by eapply Hr, load_discard, get_session_spec.
    + by destruct entries.
    + by apply Hr, has_signal_spec.
    + by eapply Hr, load_discard, get_sync_key_spec.
    + by apply Hr, list_sessions_spec.
    + by apply Hr, stats_spec.
  - assert (Hs : o = SealWrites \/ o <> SealWrites) by (destruct o; auto; by right).
    destruct Hs as [->|Hs]; [done|]. transitivity (accepting_writes s); [|done]. by apply exec_gate.
Qed.

Lemma run_ops_frozen os s :
  Forall op_ok os -> Forall (fun o => maintenance o = false) os -> sinv s ->
  accepting_writes s = false -> unchanged (flash_state s) (flash_state (run_ops os s)).
Proof.
  intros Ho Hm. revert s. induction Ho as [|o os Ho _ IH]; intros s Hi Ha; [done|].
  apply Forall_cons in Hm as [Hmo Hm]. destruct (step_frozen o s Hi Ha Hmo) as [Hu Hacc].
  etrans; [exact Hu|]. apply IH; [done| |done]. by eapply op_inv, step_post.
Qed.
End Lemmas.
