(* ===== verification/StoreOpen.v ===== *)
(** * Opening the store ([NvsStore::open] of [src/storage.rs])

    The boot replay: finish an interrupted reset, load the device, and, when
    there is one, rebuild the RAM mirrors from flash; without a device the
    Signal records are orphans and are erased. *)

From S2P Require Import Prelude RustStr Nvs Record SessionSlots Lru Flash FlashSpec FlashRecords FlashBoot FlashReset FlashDevice Platform StoreInner Store StoreInv StoreOps.
(** ** The replay *)

Section Open.
Context {W : Type} `{nvsW : !Nvs W, shaW : !Sha256, wacore : Wacore, board : Board}.

Definition decode_string_key (key : bytes) (label : string) : result StoreError bytes :=
  if utf8_valid key then Ok key else Err (Validation (InvalidStringKey label)).

Definition duplicate (label : string) : StoreError := Validation (DuplicateRecord label).

(** The closure over the identities. *)
Definition visit_identity (i : StoreInner) (key value : bytes) : result StoreError StoreInner :=
  let? address := decode_string_key key "identity" in
  if bool_decide (length value = 32%nat) then
    if bool_decide (is_Some (identities i !! address)) then Err (duplicate "identity")
    else Ok (mirror_identity address value i)
  else Err (Validation (IdentityLength address (len value))).

Definition visit_session (i : StoreInner) (key value : bytes) : result StoreError StoreInner :=
  let? address := decode_string_key key "session" in
  if bool_decide (is_Some (sessions i !! address)) then Err (duplicate "session")
  else Ok (mirror_session address value i).

(** The loops over the namespaces loaded at once. *)
Definition visit_prekey (i : StoreInner) (key value : bytes) : result StoreError StoreInner :=
  let? id := decode_u32_key key "prekey" in
  if bool_decide (is_Some (prekeys i !! id)) then Err (duplicate "prekey")
  else Ok (set_prekeys (<[id := value]> (prekeys i)) i).

Definition visit_signed_prekey (i : StoreInner) (key value : bytes) : result StoreError StoreInner :=
  let? id := decode_u32_key key "signed prekey" in
  if bool_decide (is_Some (signed_prekeys i !! id)) then Err (duplicate "signed prekey")
  else Ok (set_signed_prekeys (<[id := value]> (signed_prekeys i)) i).

Definition visit_sender_key (i : StoreInner) (key value : bytes) : result StoreError StoreInner :=
  let? address := decode_string_key key "sender key" in
  if bool_decide (is_Some (sender_keys i !! address)) then Err (duplicate "sender key")
  else Ok (set_sender_keys (<[address := value]> (sender_keys i)) i).

(** The closure over the sync keys; its captures are the store and
    [timestamp_latest]. *)
Definition visit_sync_key (acc : StoreInner * option bytes) (key_id value : bytes)
    : result StoreError (StoreInner * option bytes) :=
  let '(i, timestamp_latest) := acc in
  match from_slice value with
  | None => Err (Validation InvalidSyncKeyRecord)
  | Some key =>
      let newer :=
        match id ← timestamp_latest; sync_keys i !! id with
        | None => true
        | Some latest => sync_timestamp key >=? sync_timestamp latest
        end in
      let timestamp_latest := if newer then Some key_id else timestamp_latest in
      if bool_decide (is_Some (sync_keys i !! key_id)) then Err (duplicate "sync key")
      else Ok (enforce_sync_keys_cap_except timestamp_latest (mirror_sync_key key_id key i),
               timestamp_latest)
  end.

Definition fold_records {A} (visit : A -> bytes -> bytes -> result StoreError A)
    (records : list (bytes * bytes)) (acc : A) : result StoreError A :=
  visit_all visit records acc.

(** The recorded latest id, if its key is on flash and in no mirror yet,
    brings that key into the mirror. *)
Definition load_recorded (recorded : option bytes) (i : StoreInner)
    : M (fstate W) StoreError StoreInner :=
  match recorded with
  | Some id =>
      if bool_decide (is_Some (sync_keys i !! id)) then ret i
      else
        let* loaded := attempt (load_sync_key id) in
        match loaded with
        | Ok (Some key) => ret (mirror_sync_key id key i)
        | _ => ret i
        end
  | None => ret i
  end.

(** [recorded.filter(..).or(timestamp_latest)] *)
Definition resolve_latest (recorded timestamp_latest : option bytes) (i : StoreInner) : option bytes :=
  match recorded with
  | Some id => if bool_decide (is_Some (sync_keys i !! id)) then Some id else timestamp_latest
  | None => timestamp_latest
  end.

(** Without PSRAM, more than eight sync keys shrink to the latest one. *)
Definition retain_latest (i : StoreInner) : StoreInner :=
  if negb has_psram && (Z.of_nat (size (sync_keys i)) >? 8) then
    let latest := latest_sync_key_id i in
    let i := set_sync_keys (filter (fun kv => Some kv.1 = latest) (sync_keys i)) i in
    let i := set_sync_key_order [] i in
    match latest with
    | Some latest => set_sync_key_order (touched latest (sync_key_order i)) i
    | None => i
    end
  else i.

Definition replay (i : StoreInner) : M (fstate W) StoreError StoreInner :=
  let* i := visit_records NsIdentities "identity" MAX_IDENTITIES 32 visit_identity i in
  let* i := visit_records NsSessions "session" MAX_SESSIONS MAX_SIGNAL_RECORD_LEN visit_session i in
  let* records := load_records NsPrekeys "prekey" MAX_PREKEYS MAX_SIGNAL_RECORD_LEN in
  let* i := lift (fold_records visit_prekey records i) in
  let* records := load_records NsSignedPrekeys "signed prekey" MAX_SIGNED_PREKEYS MAX_SIGNAL_RECORD_LEN in
  let* i := lift (fold_records visit_signed_prekey records i) in
  let* records := load_records NsSenderKeys "sender key" MAX_SENDER_KEYS MAX_SIGNAL_RECORD_LEN in
  let* i := lift (fold_records visit_sender_key records i) in
  let* (i, timestamp_latest) :=
    visit_records NsSyncKeys "sync key" MAX_SYNC_KEYS MAX_SIGNAL_RECORD_LEN visit_sync_key (i, None) in
  let* recorded := attempt load_latest_sync_key_id in
  let recorded := match recorded with Ok recorded => recorded | Err _ => None end in
  let* i := load_recorded recorded i in
  let i := set_latest_sync_key_id (resolve_latest recorded timestamp_latest i) i in
  ret (retain_latest i).

(** [open], up to starting the worker. *)
Definition open_flash : M (fstate W) StoreError StoreInner :=
  nvs nvs_init_partition ;;;
  nvs nvs_open_namespaces ;;;
  let* pending := reset_pending in
  (if pending then complete_reset else ret tt) ;;;
  let* d := load_device in
  let i := set_device d inner_default in
  match d with
  | Some _ => replay i
  | None =>
      let* orphans := has_signal_records in
      (if orphans then erase_signal else ret tt) ;;;
      ret i
  end.

(** A boot on partition [w]; [spawned] is whether the worker thread could
    be created. *)
Definition open (spawned : bool) (w : W) : W * result StoreError (store W) :=
  match open_flash (FState w SessionSlots.new) with
  | (f, Ok i) =>
      if spawned then (fs_nvs f, Ok (Store f i true true)) else (fs_nvs f, Err (Io WorkerStopped))
  | (f, Err e) => (fs_nvs f, Err e)
  end.
End Open.
