(* ===== verification/StoreBoot.v ===== *)
(** * The boot replay rebuilds the store

    On a partition whose contents have the shape the store's own operations
    write, [open] fails only when the medium or the heap does, and what it
    returns satisfies the store's invariant and is coherent with flash at
    every key. *)

From S2P Require Import Prelude RustStr Nvs Record SessionSlots Lru Flash FlashSpec FlashRecords FlashBoot FlashReset FlashDevice Platform StoreInner Store StoreInv StoreOps StoreSpec StoreOpen.
#[local] Set Default Proof Using "Type*".

Section Replay.
Context `{shaW : !Sha256, wacore : Wacore, board : Board}.
Implicit Types (i : StoreInner) (k v : bytes).

(** A mirror that holds the records [seen], or some of them when it is
    capped. *)
Record mirrored {V} (dec : bytes -> option V) (seen : list (bytes * bytes)) (m : gmap bytes V) : Prop := {
  mi_sub k x : m !! k = Some x -> exists v, (k, v) ∈ seen /\ dec v = Some x;
  mi_full : has_psram = true -> forall k v, (k, v) ∈ seen -> m !! k = dec v;
}.

(** The same for a complete map keyed by a [u32]. *)
Record numbered (seen : list (bytes * bytes)) (m : gmap Z bytes) : Prop := {
  nu_sub id x : m !! id = Some x -> exists k, (k, x) ∈ seen /\ le_value k = id;
  nu_full k v : (k, v) ∈ seen -> m !! le_value k = Some v;
}.

Record named (seen : list (bytes * bytes)) (m : gmap bytes bytes) : Prop := {
  na_sub k x : m !! k = Some x -> (k, x) ∈ seen;
  na_full k v : (k, v) ∈ seen -> m !! k = Some v;
}.

Lemma elem_of_fst {A B} (k : A) (v : B) l : (k, v) ∈ l -> k ∈ l.*1.
Proof using Type. intros H. apply list_elem_of_fmap. by exists (k, v). Qed.

Lemma mirrored_nil {V} (dec : bytes -> option V) : mirrored dec [] ∅.
Proof using Type.
  split; [intros k x; by rewrite lookup_empty|]. by intros _ k v ?%not_elem_of_nil.
Qed.
Lemma numbered_nil : numbered [] ∅.
Proof using Type. split; [intros k x; by rewrite lookup_empty|]. by intros k v ?%not_elem_of_nil. Qed.
Lemma named_nil : named [] ∅.
Proof using Type. split; [intros k x; by rewrite lookup_empty|]. by intros k v ?%not_elem_of_nil. Qed.

Lemma mirrored_absent {V} (dec : bytes -> option V) seen m k :
  mirrored dec seen m -> k ∉ seen.*1 -> m !! k = None.
Proof using Type.
  intros [Hs _] Hk. destruct (m !! k) as [x|] eqn:E; [|done].
  destruct (Hs _ _ E) as (v & Hin & _). by apply elem_of_fst in Hin.
Qed.

Lemma mirrored_step {V} (dec : bytes -> option V) seen m m' k v x :
  mirrored dec seen m -> k ∉ seen.*1 -> dec v = Some x -> entered k x m m' ->
  mirrored dec (seen ++ [(k, v)]) m'.
Proof using Type.
  intros [Hs Hf] Hk Hd [Es Ef]. split.
  - intros k' x' Hx. apply Es in Hx. apply lookup_insert_Some in Hx as [[<- <-]|[_ Hx]].
    + exists v. split; [|done]. apply elem_of_app. right. by left.
    + destruct (Hs _ _ Hx) as (v' & Hin & Hd'). exists v'. split; [|done]. apply elem_of_app. by left.
  - intros P k' v' Hin. rewrite Ef by done.
    apply elem_of_app in Hin as [Hin|Hin%list_elem_of_singleton].
    + rewrite lookup_insert_ne; [by apply Hf|]. intros ->. by apply elem_of_fst in Hin.
    + injection Hin as -> ->. by rewrite lookup_insert_eq.
Qed.

Lemma named_absent seen m k : named seen m -> k ∉ seen.*1 -> m !! k = None.
Proof using Type.
  intros [Hs _] Hk. destruct (m !! k) as [x|] eqn:E; [|done].
  pose proof (Hs _ _ E) as Hin. by apply elem_of_fst in Hin.
Qed.

Lemma named_step seen m k v :
  named seen m -> k ∉ seen.*1 -> named (seen ++ [(k, v)]) (<[k := v]> m).
Proof using Type.
  intros [Hs Hf] Hk. split; intros k' v'.
  - intros [[<- <-]|[_ Hx]]%lookup_insert_Some; apply elem_of_app; [right; by left|left; by apply Hs].
  - intros [Hin|Hin%list_elem_of_singleton]%elem_of_app.
    + rewrite lookup_insert_ne; [by apply Hf|]. intros ->. by apply elem_of_fst in Hin.
    + injection Hin as -> ->. by rewrite lookup_insert_eq.
Qed.

Definition four (l : list (bytes * bytes)) : Prop := Forall (fun kv => length kv.1 = 4%nat) l.

Lemma numbered_absent seen m k :
  numbered seen m -> four seen -> length k = 4%nat -> k ∉ seen.*1 -> m !! le_value k = None.
Proof using Type.
  intros [Hs _] H4 Hl Hk. destruct (m !! le_value k) as [x|] eqn:E; [|done].
  destruct (Hs _ _ E) as (k' & Hin & Hv). unfold four in H4. rewrite Forall_forall in H4.
  pose proof (H4 _ Hin) as Hl'. cbn in Hl'.
  apply le_value_inj in Hv; [|congruence]. subst k'. by apply elem_of_fst in Hin.
Qed.

Lemma numbered_step seen m k v :
  numbered seen m -> four seen -> length k = 4%nat -> k ∉ seen.*1 ->
  numbered (seen ++ [(k, v)]) (<[le_value k := v]> m).
Proof using Type.
  intros [Hs Hf] H4 Hl Hk. split.
  - intros id x [[<- <-]|[_ Hx]]%lookup_insert_Some.
    + exists k. split; [|done]. apply elem_of_app. right. by left.
    + destruct (Hs _ _ Hx) as (k' & Hin & Hv). exists k'. split; [|done]. apply elem_of_app. by left.
  - intros k' v' [Hin|Hin%list_elem_of_singleton]%elem_of_app.
    + rewrite lookup_insert_ne; [by apply Hf|]. intros Hv. unfold four in H4. rewrite Forall_forall in H4.
      pose proof (H4 _ Hin) as Hl'. cbn in Hl'. apply le_value_inj in Hv; [|congruence]. subst k'.
      by apply elem_of_fst in Hin.
    + injection Hin as -> ->. by rewrite lookup_insert_eq.
Qed.

(** ** What the replay of one namespace establishes *)

(** The mirror of namespace [n] holds the records [seen]. *)
Definition seen_at (n : ns) (seen : list (bytes * bytes)) i : Prop :=
  match n with
  | NsIdentities => mirrored Some seen (identities i)
  | NsSessions => mirrored Some seen (sessions i)
  | NsPrekeys => numbered seen (prekeys i) /\ four seen
  | NsSignedPrekeys => numbered seen (signed_prekeys i) /\ four seen
  | NsSenderKeys => named seen (sender_keys i)
  | NsSyncKeys => mirrored from_slice seen (sync_keys i)
  | NsControl | NsDevice => True
  end.

(** After the namespaces before [n] were replayed, and [seen] of [n]. *)
Record stage (T : ns -> list (bytes * bytes)) (d : option Device) i : Prop := {
  sg_caps : caps i;
  sg_device : device i = d;
  sg_seen n : seen_at n (T n) i;
}.

Definition upd_seen (n : ns) (l : list (bytes * bytes)) (T : ns -> list (bytes * bytes)) :=
  fun n' => if decide (n' = n) then l else T n'.

Lemma upd_seen_id n T : forall n', upd_seen n (T n) T n' = T n'.
Proof using Type. intros n'. unfold upd_seen. by case_decide; subst. Qed.

Lemma stage_nil d : stage (fun _ => []) d (set_device d inner_default).
Proof using Type.
  split; [by destruct caps_default|done|]. intros []; cbn; try done;
    first [apply mirrored_nil|apply named_nil|split; [apply numbered_nil|by apply Forall_nil]].
Qed.

(** Replacing the mirror of [n] alone. *)
Lemma stage_step n seen T d i i' :
  stage T d i -> caps i' -> device i' = device i ->
  (forall n' l, n' <> n -> seen_at n' l i -> seen_at n' l i') ->
  seen_at n seen i' -> stage (upd_seen n seen T) d i'.
Proof using Type.
  intros [Hc Hd Hs] Hc' Hd' Ho Hn. split; [done|congruence|]. intros n'. unfold upd_seen.
  destruct (decide (n' = n)) as [->|Hne]; [done|]. by apply Ho.
Qed.

Lemma upd_upd n l l' T : forall n', upd_seen n l' (upd_seen n l T) n' = upd_seen n l' T n'.
Proof using Type. intros n'. unfold upd_seen. by case_decide. Qed.

Lemma stage_ext T T' d i : (forall n, T n = T' n) -> stage T d i -> stage T' d i.
Proof using Type. intros E [Hc Hd Hs]. split; [done..|]. intros n. by rewrite <- E. Qed.

Lemma visit_identity_step T d i seen k v :
  stage (upd_seen NsIdentities seen T) d i -> k ∉ seen.*1 -> content_ok NsIdentities k v ->
  exists i', visit_identity i k v = Ok i' /\ stage (upd_seen NsIdentities (seen ++ [(k, v)]) T) d i'.
Proof using Type.
  intros Hst Hk [Hu Hl]. pose proof (sg_seen _ _ _ Hst NsIdentities) as Hs.
  unfold upd_seen in Hs. rewrite decide_True in Hs by done.
  unfold visit_identity, decode_string_key. rewrite Hu. cbn.
  rewrite bool_decide_true by (unfold len in Hl; lia).
  rewrite bool_decide_false by (rewrite (mirrored_absent _ _ _ _ Hs Hk); by intros []).
  eexists. split; [done|]. eapply stage_ext; [apply upd_upd|].
  apply (stage_step _ _ _ _ i); [done|by apply caps_mirror_identity, Hst|..].
  - by rewrite (mirror_identity_other k v i).
  - intros n' l Hne. rewrite (mirror_identity_other k v i). by destruct n'.
  - eapply mirrored_step; [exact Hs|done|done|apply mirror_identity_entered].
Qed.

Lemma visit_session_step T d i seen k v :
  stage (upd_seen NsSessions seen T) d i -> k ∉ seen.*1 -> content_ok NsSessions k v ->
  exists i', visit_session i k v = Ok i' /\ stage (upd_seen NsSessions (seen ++ [(k, v)]) T) d i'.
Proof using Type.
  intros Hst Hk Hu. pose proof (sg_seen _ _ _ Hst NsSessions) as Hs.
  unfold upd_seen in Hs. rewrite decide_True in Hs by done.
  unfold visit_session, decode_string_key. unfold content_ok, store_contents in Hu. rewrite Hu. cbn.
  rewrite bool_decide_false by (rewrite (mirrored_absent _ _ _ _ Hs Hk); by intros []).
  eexists. split; [done|]. eapply stage_ext; [apply upd_upd|].
  apply (stage_step _ _ _ _ i); [done|by apply caps_mirror_session, Hst|..].
  - by rewrite (mirror_session_other k v i).
  - intros n' l Hne. rewrite (mirror_session_other k v i). by destruct n'.
  - eapply mirrored_step; [exact Hs|done|done|apply mirror_session_entered].
Qed.

Lemma visit_prekey_step T d i seen k v :
  stage (upd_seen NsPrekeys seen T) d i -> k ∉ seen.*1 -> content_ok NsPrekeys k v ->
  exists i', visit_prekey i k v = Ok i' /\ stage (upd_seen NsPrekeys (seen ++ [(k, v)]) T) d i'.
Proof using Type.
  intros Hst Hk Hl. pose proof (sg_seen _ _ _ Hst NsPrekeys) as Hs.
  unfold upd_seen in Hs. rewrite decide_True in Hs by done. destruct Hs as [Hs H4].
  unfold visit_prekey, decode_u32_key. rewrite bool_decide_true by done. cbn.
  rewrite bool_decide_false by (rewrite (numbered_absent _ _ _ Hs H4 Hl Hk); by intros []).
  eexists. split; [done|]. eapply stage_ext; [apply upd_upd|].
  apply (stage_step _ _ _ _ i); [done|by destruct (sg_caps _ _ _ Hst)|done|..].
  - intros n' l Hne. by destruct n'.
  - split; [by apply numbered_step|]. unfold four in *. apply Forall_app. split; [done|]. by constructor.
Qed.

Lemma visit_signed_prekey_step T d i seen k v :
  stage (upd_seen NsSignedPrekeys seen T) d i -> k ∉ seen.*1 -> content_ok NsSignedPrekeys k v ->
  exists i', visit_signed_prekey i k v = Ok i' /\
    stage (upd_seen NsSignedPrekeys (seen ++ [(k, v)]) T) d i'.
Proof using Type.
  intros Hst Hk Hl. pose proof (sg_seen _ _ _ Hst NsSignedPrekeys) as Hs.
  unfold upd_seen in Hs. rewrite decide_True in Hs by done. destruct Hs as [Hs H4].
  unfold visit_signed_prekey, decode_u32_key. rewrite bool_decide_true by done. cbn.
  rewrite bool_decide_false by (rewrite (numbered_absent _ _ _ Hs H4 Hl Hk); by intros []).
  eexists. split; [done|]. eapply stage_ext; [apply upd_upd|].
  apply (stage_step _ _ _ _ i); [done|by destruct (sg_caps _ _ _ Hst)|done|..].
  - intros n' l Hne. by destruct n'.
  - split; [by apply numbered_step|]. unfold four in *. apply Forall_app. split; [done|]. by constructor.
Qed.

Lemma visit_sender_key_step T d i seen k v :
  stage (upd_seen NsSenderKeys seen T) d i -> k ∉ seen.*1 -> content_ok NsSenderKeys k v ->
  exists i', visit_sender_key i k v = Ok i' /\ stage (upd_seen NsSenderKeys (seen ++ [(k, v)]) T) d i'.
Proof using Type.
  intros Hst Hk Hu. pose proof (sg_seen _ _ _ Hst NsSenderKeys) as Hs.
  unfold upd_seen in Hs. rewrite decide_True in Hs by done.
  unfold visit_sender_key, decode_string_key. unfold content_ok, store_contents in Hu. rewrite Hu. cbn.
  rewrite bool_decide_false by (rewrite (named_absent _ _ _ Hs Hk); by intros []).
  eexists. split; [done|]. eapply stage_ext; [apply upd_upd|].
  apply (stage_step _ _ _ _ i); [done|by destruct (sg_caps _ _ _ Hst)|done|..].
  - intros n' l Hne. by destruct n'.
  - by apply named_step.
Qed.
(** ** Sync keys *)

Definition present i (o : option bytes) : Prop :=
  forall id, o = Some id -> is_Some (sync_keys i !! id).

Lemma enforce_keeps p i :
  is_Some (sync_keys i !! p) -> is_Some (sync_keys (enforce_sync_keys_cap_except (Some p) i) !! p).
Proof using Type.
  intros Hp. rewrite enforce_sync_keys_cap_except_eq. destruct has_psram; [done|]. cbn -[evict].
  rewrite evict_lookup. rewrite decide_False; [done|]. intros Hin.
  unfold sync_keys_to_remove, ztake in Hin. apply list_elem_of_lookup in Hin as [j [Hj _]%lookup_take_Some].
  apply list_elem_of_lookup_2, list_elem_of_filter in Hj as [Hne _]. by apply Hne.
Qed.

Lemma mirror_sync_present k key i : is_Some (sync_keys (mirror_sync_key k key i) !! k).
Proof using Type. cbn. by rewrite lookup_insert_eq. Qed.

(** What holds of the closure's captures. *)
Definition sync_stage T d (acc : StoreInner * option bytes) : Prop :=
  stage T d acc.1 /\ present acc.1 acc.2.

Lemma visit_sync_key_step T d acc seen k v :
  sync_stage (upd_seen NsSyncKeys seen T) d acc -> k ∉ seen.*1 -> content_ok NsSyncKeys k v ->
  exists acc', visit_sync_key acc k v = Ok acc' /\ sync_stage (upd_seen NsSyncKeys (seen ++ [(k, v)]) T) d acc'.
Proof using Type.
  destruct acc as [i tl]. intros [Hst Htl] Hk [key Hkey]. cbn [fst snd] in Hst, Htl.
  pose proof (sg_seen _ _ _ Hst NsSyncKeys) as Hs.
  unfold upd_seen in Hs. rewrite decide_True in Hs by done.
  unfold visit_sync_key. rewrite Hkey. set (newer := match _ with Some _ => _ | None => _ end).
  rewrite bool_decide_false by (rewrite (mirrored_absent _ _ _ _ Hs Hk); by intros []).
  eexists. split; [done|]. set (tl' := if newer then Some k else tl). split; cbn [fst snd].
  - eapply stage_ext; [apply upd_upd|].
    apply (stage_step _ _ _ _ i); [done|by apply caps_mirror_sync_key, Hst|..].
    + by rewrite (mirror_sync_other tl' k key i).
    + intros n' l Hne. rewrite (mirror_sync_other tl' k key i). by destruct n'.
    + eapply mirrored_step; [exact Hs|done|done|apply mirror_sync_key_entered].
  - intros id E. rewrite E. apply enforce_keeps. unfold tl' in E. destruct newer.
    + injection E as <-. apply mirror_sync_present.
    + cbn. apply lookup_insert_is_Some'. right. by apply Htl.
Qed.

Lemma filter_latest {V} (m : gmap bytes V) id :
  is_Some (m !! id) ->
  (forall k, is_Some (filter (fun kv : bytes * V => Some kv.1 = Some id) m !! k) <-> k = id) /\
  size (filter (fun kv : bytes * V => Some kv.1 = Some id) m) = 1%nat.
Proof using Type.
  intros [x Hx]. assert (E : filter (fun kv : bytes * V => Some kv.1 = Some id) m = {[id := x]}).
  { apply map_eq. intros k. rewrite map_lookup_filter.
    destruct (decide (k = id)) as [->|Hne].
    - rewrite Hx, lookup_singleton_eq. cbn. by case_guard.
    - rewrite lookup_singleton_ne by done. destruct (m !! k); cbn; [|done]. case_guard; [congruence|done]. }
  rewrite E. split; [|apply map_size_singleton]. intros k. rewrite lookup_singleton_is_Some. naive_solver.
Qed.

Lemma filter_none {V} (P : bytes * V -> Prop) `{!forall x, Decision (P x)} (m : gmap bytes V) :
  (forall x, ~ P x) -> filter P m = ∅.
Proof using Type.
  intros HP. apply map_empty. intros k. apply map_lookup_filter_None. right. intros x _. apply HP.
Qed.

(** The mirror of sync keys before its last shrinking: over its cap by the
    recorded key at most. *)
Lemma retain_latest_stage T d i :
  device i = d ->
  mirrors (identity_order i) (identities i) -> mirrors (session_order i) (sessions i) ->
  mirrors (sync_key_order i) (sync_keys i) ->
  (has_psram = false -> Z.of_nat (size (identities i)) <= 8) ->
  (has_psram = false -> sessions i = ∅) ->
  (forall n, seen_at n (T n) i) -> present i (latest_sync_key_id i) ->
  stage T d (retain_latest i) /\ present (retain_latest i) (latest_sync_key_id (retain_latest i)).
Proof using Type.
  intros Hd Mi Ms My Ci Cs Hs Hp. unfold retain_latest.
  destruct has_psram eqn:P; cbn [negb andb].
  { split; [|done]. split; [|done|done]. split; rewrite ?P; done. }
  zcase; cbn zeta.
  2: { split; [|done]. split; [|done|done]. split; rewrite ?P; try done. intros _. lia. }
  destruct (latest_sync_key_id i) as [id|] eqn:El.
  - destruct (filter_latest (sync_keys i) id (Hp id eq_refl)) as [Hdom Hsz].
    split; [split; [split| |]|]; cbn -[filter]; rewrite ?P; try done.
    + split; [apply NoDup_singleton|]. intros k. rewrite Hdom. apply list_elem_of_singleton.
    + intros _. rewrite Hsz. lia.
    + intros n. specialize (Hs n). destruct n; cbn -[filter] in *; try done.
      destruct Hs as [Hsub Hfull]. split; [|congruence].
      intros k x [Hx _]%map_lookup_filter_Some. by apply Hsub.
    + intros id'. cbn -[filter]. rewrite El. intros [= <-]. by apply Hdom.
  - split; [split; [split| |]|]; cbn -[filter]; rewrite ?P; try done.
    + rewrite filter_none by done. apply mirrors_nil.
    + intros _. rewrite filter_none, map_size_empty by done. lia.
    + intros n. specialize (Hs n). destruct n; cbn -[filter] in *; try done.
      destruct Hs as [Hsub Hfull]. split; [|congruence].
      intros k x [Hx _]%map_lookup_filter_Some. by apply Hsub.
    + intros id. cbn -[filter]. by rewrite El.
Qed.
End Replay.

(** ** The replay on a partition *)

Section Boot.
Context {W : Type} `{nvsW : !Nvs W, lawsW : !NvsLaws W, shaW : !Sha256, wacore : Wacore,
  lawsC : !WacoreLaws, board : Board}.
Implicit Types (f g : fstate W) (n : ns) (k v : bytes) (i : StoreInner).

Lemma listed_content n f l k v :
  ns_wf n (fl f n) -> lists (fl f n) l -> (k, v) ∈ l -> content_ok n k v.
Proof using Type. intros Hwf [_ He _] Hin. apply He, (logical_Some n) in Hin; [|done]. tauto. Qed.

Lemma replay_visit {A} n label max_entries max (visit : A -> bytes -> bytes -> result StoreError A)
    (P : list (bytes * bytes) -> A -> Prop) acc f :
  ns_wf n (fl f n) -> limit_ok n max -> Z.of_nat (size (fl f n)) <= max_entries -> P [] acc ->
  (forall seen k v acc, P seen acc -> k ∉ seen.*1 -> content_ok n k v ->
    exists acc', visit acc k v = Ok acc' /\ P (seen ++ [(k, v)]) acc') ->
  wp (visit_records n label max_entries max visit acc) (fun r g => quiet f g /\
    match r with Ok acc' => exists l, lists (fl f n) l /\ P l acc' | Err e => is_io e end) f.
Proof.
  intros Hwf Hl Hs H0 Hstep. wp_use visit_records_spec; [done..|].
  intros r g [Hq [(l & Hli & ->)|(e & -> & [He|He])]]; (split; [done|]); [|done|lia].
  destruct (visit_all_inv P visit l acc) as (acc' & -> & HP); [apply Hli|done| |by eauto].
  intros seen k v a Ha Hin Hk. apply Hstep; [done..|]. by eapply listed_content.
Qed.

Lemma replay_load {A} n label max_entries (visit : A -> bytes -> bytes -> result StoreError A)
    (P : list (bytes * bytes) -> A -> Prop) acc f :
  ns_wf n (fl f n) -> Z.of_nat (size (fl f n)) <= max_entries -> P [] acc ->
  (forall seen k v acc, P seen acc -> k ∉ seen.*1 -> content_ok n k v ->
    exists acc', visit acc k v = Ok acc' /\ P (seen ++ [(k, v)]) acc') ->
  wp (let* records := load_records n label max_entries MAX_SIGNAL_RECORD_LEN in
      lift (fold_records visit records acc)) (fun r g => quiet f g /\
    match r with Ok acc' => exists l, lists (fl f n) l /\ P l acc' | Err e => is_io e end) f.
Proof.
  intros Hwf Hs H0 Hstep. wp_step. wp_use load_records_spec; [done|by left|].
  intros [l|e] g [Hq Hr]; [|split; [done|]; destruct Hr; [done|lia]]. wp_step. split; [done|].
  destruct (visit_all_inv P visit l acc) as (acc' & Hv & HP); [apply Hr|done| |].
  - intros seen k v a Ha Hin Hk. apply Hstep; [done..|]. by eapply listed_content.
  - unfold fold_records. rewrite Hv. by eauto.
Qed.

(** The last lines of the replay: the recorded latest key. *)
Definition finish (recorded timestamp_latest : option bytes) i : M (fstate W) StoreError StoreInner :=
  let* i := load_recorded recorded i in
  let i := set_latest_sync_key_id (resolve_latest recorded timestamp_latest i) i in
  ret (retain_latest i).

Lemma resolve_present recorded tl i :
  present i tl -> present i (resolve_latest recorded tl i).
Proof using Type.
  intros Htl id. unfold resolve_latest. destruct recorded as [r|]; [|by apply Htl].
  case_bool_decide; [intros [= <-]; done|by apply Htl].
Qed.

Lemma finish_spec T d recorded tl i f :
  finv f -> lists (fl f NsSyncKeys) (T NsSyncKeys) -> stage T d i -> present i tl ->
  wp (finish recorded tl i) (fun r g => unchanged f g /\ finv g /\
    exists i', r = Ok i' /\ stage T d i' /\ present i' (latest_sync_key_id i')) f.
Proof.
  intros Hf Hl [[Mi Ms My Ci Cs Cy] Hd Hs] Htl. unfold finish. wp_step.
  assert (Hsame : forall g, unchanged f g -> finv g ->
    wp (let i := set_latest_sync_key_id (resolve_latest recorded tl i) i in ret (retain_latest i))
      (fun (r : result StoreError StoreInner) g => unchanged f g /\ finv g /\
        exists i', r = Ok i' /\ stage T d i' /\ present i' (latest_sync_key_id i')) g).
  { intros g Hu Hg. cbn zeta. wp_step. split_and!; [done..|]. eexists. split; [done|].
    apply retain_latest_stage; try done.
    intros id Hid. by eapply (resolve_present recorded tl i Htl). }
  unfold load_recorded. destruct recorded as [id|]; [|wp_step; by apply Hsame].
  case_bool_decide as Hid; [wp_step; by apply Hsame|]. wp_step. wp_step.
  wp_use load_sync_key_spec; [done|]. intros [[key|]|e] g (Hu & Hg & Hr); [|wp_step; by apply Hsame..].
  wp_step. cbn zeta. wp_step. split_and!; [done..|]. eexists. split; [done|].
  destruct (logical (fl f NsSyncKeys) id) as [v|] eqn:Ev; [|done]. cbn in Hr.
  assert (Hin : (id, v) ∈ T NsSyncKeys) by by apply Hl.
  set (i' := mirror_sync_key id key i).
  assert (Hp : present i' tl).
  { intros x Hx. cbn. apply lookup_insert_is_Some'. right. by apply Htl. }
  apply retain_latest_stage; cbn; try done.
  - by apply mirrors_insert.
  - intros n. pose proof (Hs n) as Hn. destruct n; cbn in *; try done. destruct Hn as [Hsub Hfull]. split.
    + intros k x [[<- <-]|[_ Hx]]%lookup_insert_Some; [by exists v|by apply Hsub].
    + intros P k w Hw. destruct (decide (k = id)) as [->|Hne].
      * rewrite <- (Hfull P id w Hw). destruct Hid. rewrite (Hfull P id v Hin). by exists key.
      * rewrite lookup_insert_ne by done. by apply Hfull.
  - intros x Hx. by eapply (resolve_present (Some id) tl i' Hp).
Qed.

(** Every record of flash is where the replayed store looks for it. *)
Lemma stage_agree (m : ns -> gmap bytes bytes) T d i :
  (forall n, n ∈ signal_namespaces -> lists (m n) (T n)) -> stage T d i ->
  forall n k, agree i (fun n k => logical (m n) k) d n k.
Proof using Type.
  intros Hl [_ Hd Hs] n k. specialize (Hs n).
  assert (Hn : n ∈ signal_namespaces \/ n = NsControl \/ n = NsDevice).
  { unfold signal_namespaces. destruct n; auto; left; repeat constructor. }
  destruct Hn as [Hn|[-> | ->]]; [|done|done]. destruct (Hl n Hn) as [Hnd He _].
  assert (Hans : forall V (dec : bytes -> option V) mm, mirrored dec (T n) mm ->
    answers has_psram (mm !! k) (logical (m n) k ≫= dec)).
  { intros V dec mm [Hsub Hfull]. unfold answers. destruct has_psram eqn:P.
    - destruct (logical (m n) k) as [v|] eqn:E; cbn.
      + rewrite (Hfull eq_refl k v); [done|]. by apply He.
      + destruct (mm !! k) as [x|] eqn:Ex; [|done]. destruct (Hsub _ _ Ex) as (v & Hin & _).
        apply He in Hin. congruence.
    - intros x Hx. destruct (Hsub _ _ Hx) as (v & Hin & Hv). apply He in Hin. by rewrite Hin. }
  assert (Hnum : forall mm, numbered (T n) mm -> four (T n) -> length k = 4%nat ->
    mm !! le_value k = logical (m n) k).
  { intros mm [Hsub Hfull] H4 Hk. destruct (logical (m n) k) as [v|] eqn:E.
    - apply Hfull. by apply He.
    - destruct (mm !! le_value k) as [x|] eqn:Ex; [|done]. destruct (Hsub _ _ Ex) as (k' & Hin & Hv).
      unfold four in H4. rewrite Forall_forall in H4. pose proof (H4 _ Hin) as Hk'. cbn in Hk'.
      apply le_value_inj in Hv; [|congruence]. subst k'. apply He in Hin. congruence. }
  destruct n; cbn in Hs |- *; try done.
  - specialize (Hans _ _ _ Hs). by destruct (logical (m NsIdentities) k).
  - specialize (Hans _ _ _ Hs). by destruct (logical (m NsSessions) k).
  - destruct Hs. auto.
  - destruct Hs. auto.
  - destruct Hs as [Hsub Hfull]. destruct (logical (m NsSenderKeys) k) as [v|] eqn:E.
    + apply Hfull. by apply He.
    + destruct (sender_keys i !! k) as [x|] eqn:Ex; [|done]. apply Hsub, He in Ex. congruence.
  - by apply Hans.
Qed.
(** What a namespace needs for the replay to accept it. *)
Definition bootable f : Prop :=
  finv f /\ forall n, n ∈ signal_namespaces -> Z.of_nat (size (fl f n)) <= limit n.

Lemma bootable_unchanged f g : bootable f -> unchanged f g -> finv g -> bootable g.
Proof using Type.
  intros [Hf Hs] Hu Hg. split; [done|]. intros n Hn. rewrite (unchanged_flash n _ _ Hu). auto.
Qed.

Lemma bootable_quiet f g : bootable f -> quiet f g -> bootable g.
Proof using Type.
  intros Hb Hq. eapply bootable_unchanged; [done|apply Hq|]. by eapply finv_quiet; [apply Hb|].
Qed.

(** One streamed namespace of the replay. *)
Lemma stage_visit n label max visit T d i f :
  bootable f -> n ∈ signal_namespaces -> limit_ok n max -> stage T d i -> T n = [] ->
  (forall seen k v i, stage (upd_seen n seen T) d i -> k ∉ seen.*1 -> content_ok n k v ->
    exists i', visit i k v = Ok i' /\ stage (upd_seen n (seen ++ [(k, v)]) T) d i') ->
  wp (visit_records n label (limit n) max visit i) (fun r g => quiet f g /\
    match r with
    | Ok i' => exists l, lists (fl f n) l /\ stage (upd_seen n l T) d i'
    | Err e => is_io e
    end) f.
Proof.
  intros [Hf Hs] Hn Hl Hst HT Hstep.
  apply (replay_visit n label (limit n) max visit (fun seen i => stage (upd_seen n seen T) d i));
    [by apply Hf|done|by apply Hs| |exact Hstep].
  eapply stage_ext; [|exact Hst]. intros n'. rewrite <- HT. by rewrite upd_seen_id.
Qed.

Lemma stage_load n label visit T d i f :
  bootable f -> n ∈ signal_namespaces -> stage T d i -> T n = [] ->
  (forall seen k v i, stage (upd_seen n seen T) d i -> k ∉ seen.*1 -> content_ok n k v ->
    exists i', visit i k v = Ok i' /\ stage (upd_seen n (seen ++ [(k, v)]) T) d i') ->
  wp (let* records := load_records n label (limit n) MAX_SIGNAL_RECORD_LEN in
      lift (fold_records visit records i)) (fun r g => quiet f g /\
    match r with
    | Ok i' => exists l, lists (fl f n) l /\ stage (upd_seen n l T) d i'
    | Err e => is_io e
    end) f.
Proof.
  intros [Hf Hs] Hn Hst HT Hstep.
  apply (replay_load n label (limit n) visit (fun seen i => stage (upd_seen n seen T) d i));
    [by apply Hf|by apply Hs| |exact Hstep].
  eapply stage_ext; [|exact Hst]. intros n'. rewrite <- HT. by rewrite upd_seen_id.
Qed.

(** Sequencing a load with the rest of the replay. *)
Lemma wp_load_then {A B} (load : M (fstate W) StoreError (list (bytes * bytes)))
    (fold : list (bytes * bytes) -> result StoreError A) (k : A -> M (fstate W) StoreError B) Q f :
  wp (let* records := load in lift (fold records))
    (fun r g => match r with Ok a => wp (k a) Q g | Err e => Q (Err e) g end) f ->
  wp (let* records := load in let* a := lift (fold records) in k a) Q f.
Proof using Type.
  unfold wp, bind, lift. destruct (load f) as [g [l|e]]; [|done]. by destruct (fold l).
Qed.

Definition replayed (d : option Device) f (r : result StoreError StoreInner) g : Prop :=
  unchanged f g /\ finv g /\
  match r with
  | Ok i => caps i /\ present i (latest_sync_key_id i) /\
      forall n k, agree i (fun n k => logical (fl f n) k) d n k
  | Err e => is_io e
  end.

Lemma replayed_err d f e g : is_io e -> finv f -> quiet f g -> replayed d f (Err e) g.
Proof using Type. intros He Hf Hq. split_and!; [apply Hq|by eapply finv_quiet|done]. Qed.

Lemma replayed_trans d f g r h : quiet f g -> replayed d g r h -> replayed d f r h.
Proof using Type.
  intros Hq (Hu & Hh & Hr). split_and!; [|done|].
  - etrans; [apply Hq|done].
  - destruct r as [i|e]; [|done]. destruct Hr as (Hc & Hp & Ha). split_and!; [done..|].
    intros n k. specialize (Ha n k). unfold agree in *.
    by destruct n; rewrite ?(unchanged_flash _ _ _ (proj1 Hq)) in Ha.
Qed.

(** The tail of the replay: the sync keys. *)
Lemma replay_sync_spec T d i f :
  bootable f -> T NsSyncKeys = [] -> stage T d i ->
  (forall n, n ∈ signal_namespaces -> n <> NsSyncKeys -> lists (fl f n) (T n)) ->
  wp (let* (i, timestamp_latest) :=
        visit_records NsSyncKeys "sync key" MAX_SYNC_KEYS MAX_SIGNAL_RECORD_LEN visit_sync_key (i, None) in
      let* recorded := attempt load_latest_sync_key_id in
      let recorded := match recorded with Ok recorded => recorded | Err _ => None end in
      finish recorded timestamp_latest i) (replayed d f) f.
Proof.
  intros Hb HT Hst Hl. destruct Hb as [Hf Hs]. wp_step.
  wp_use (replay_visit NsSyncKeys "sync key" MAX_SYNC_KEYS MAX_SIGNAL_RECORD_LEN visit_sync_key
    (fun seen acc => sync_stage (upd_seen NsSyncKeys seen T) d acc)).
  - apply Hf, sync_signal.
  - auto.
  - apply (Hs NsSyncKeys sync_signal).
  - split; [|done]. eapply stage_ext; [|exact Hst]. intros n'. rewrite <- HT. by rewrite upd_seen_id.
  - intros. by apply visit_sync_key_step.
  - intros [[j tl]|e] g [Hq Hr]; [|by apply replayed_err].
    destruct Hr as (l & Hli & Hst' & Htl). cbn [fst snd] in *.
    assert (Hg : finv g) by by eapply finv_quiet.
    do 2 wp_step. wp_use load_latest_sync_key_id_spec. intros r h [Hqh _].
    assert (Hh : finv h) by by eapply finv_quiet.
    assert (Hqf : quiet f h) by (by etrans).
    assert (Hfl : fl h NsSyncKeys = fl f NsSyncKeys) by apply (unchanged_flash _ _ _ (proj1 Hqf)).
    cbn zeta. wp_use finish_spec; [exact Hh| |exact Hst'|exact Htl|].
    { unfold upd_seen. rewrite decide_True by done. by rewrite Hfl. }
    intros r' u (Hu & Hiu & i' & -> & Hst'' & Hp). split_and!; [|done|apply Hst''|done|].
    + etrans; [apply Hqf|done].
    + apply (stage_agree _ (upd_seen NsSyncKeys l T)); [|done].
      intros n Hn. unfold upd_seen. case_decide as En; [by subst|by apply Hl].
Qed.

Lemma replay_spec d f :
  bootable f -> wp (replay (set_device d inner_default)) (replayed d f) f.
Proof.
  intros Hb. unfold replay. wp_step.
  assert (Hsig : forall n, n ∈ [NsIdentities; NsSessions; NsPrekeys; NsSignedPrekeys; NsSenderKeys; NsSyncKeys] ->
    n ∈ signal_namespaces) by done.
  wp_use (stage_visit NsIdentities); [done|apply Hsig; set_solver|auto|apply stage_nil|reflexivity| |].
  { intros. by apply visit_identity_step. }
  intros [i1|e] f1 [Q1 H1]; [destruct H1 as (l1 & L1 & S1)|by apply replayed_err; [|apply Hb|]].
  assert (B1 : bootable f1) by by eapply bootable_quiet.
  wp_step. wp_use (stage_visit NsSessions); [done|apply Hsig; set_solver|auto|exact S1|reflexivity| |].
  { intros. by apply visit_session_step. }
  intros [i2|e] f2 [Q2 H2]; [destruct H2 as (l2 & L2 & S2)|
    by eapply replayed_trans; [|apply replayed_err; [|apply B1|]]].
  assert (B2 : bootable f2) by by eapply bootable_quiet.
  apply wp_load_then. wp_use (stage_load NsPrekeys); [done|apply Hsig; set_solver|exact S2|reflexivity| |].
  { intros. by apply visit_prekey_step. }
  assert (Q12 : quiet f f2) by (by etrans).
  intros [i3|e] f3 [Q3 H3]; [destruct H3 as (l3 & L3 & S3)|
    by eapply replayed_trans; [|apply replayed_err; [|apply B2|]]].
  assert (B3 : bootable f3) by by eapply bootable_quiet.
  assert (Q13 : quiet f f3) by (by etrans).
  apply wp_load_then. wp_use (stage_load NsSignedPrekeys); [done|apply Hsig; set_solver|exact S3|reflexivity| |].
  { intros. by apply visit_signed_prekey_step. }
  intros [i4|e] f4 [Q4 H4]; [destruct H4 as (l4 & L4 & S4)|
    by eapply replayed_trans; [|apply replayed_err; [|apply B3|]]].
  assert (B4 : bootable f4) by by eapply bootable_quiet.
  assert (Q14 : quiet f f4) by (by etrans).
  apply wp_load_then. wp_use (stage_load NsSenderKeys); [done|apply Hsig; set_solver|exact S4|reflexivity| |].
  { intros. by apply visit_sender_key_step. }
  intros [i5|e] f5 [Q5 H5]; [destruct H5 as (l5 & L5 & S5)|
    by eapply replayed_trans; [|apply replayed_err; [|apply B4|]]].
  assert (B5 : bootable f5) by by eapply bootable_quiet.
  assert (Q15 : quiet f f5) by (by etrans).
  wp_use (replay_sync_spec _ d i5 f5 B5 eq_refl S5).
  - intros n Hn Hne. rewrite (unchanged_flash n _ _ (proj1 Q15)).
    assert (E1 := unchanged_flash n _ _ (proj1 Q1)). assert (E2 := unchanged_flash n _ _ (proj1 Q12)).
    assert (E3 := unchanged_flash n _ _ (proj1 Q13)). assert (E4 := unchanged_flash n _ _ (proj1 Q14)).
    unfold signal_namespaces in Hn. rewrite !elem_of_cons in Hn.
    destruct Hn as [->|[->|[->|[->|[->|[->|Hn]]]]]]; [exact L1|..|done|by apply not_elem_of_nil in Hn].
    + rewrite <- E1. exact L2.
    + rewrite <- E2. exact L3.
    + rewrite <- E3. exact L4.
    + rewrite <- E4. exact L5.
  - intros r g Hr. by eapply replayed_trans.
Qed.
End Boot.

(** ** Opening *)

Section Opening.
Context {W : Type} `{nvsW : !Nvs W, lawsW : !NvsLaws W, shaW : !Sha256, wacore : Wacore,
  lawsC : !WacoreLaws, board : Board}.
Implicit Types (f g : fstate W) (n : ns) (k v : bytes) (i : StoreInner).

Abbreviation reset_marker := (bs "reset").

(** A durable image the store's own operations could have left. *)
Record image_ok (m : view) : Prop := {
  im_wf n : n ∈ signal_namespaces -> ns_wf n (m n);
  im_size n : n ∈ signal_namespaces -> Z.of_nat (size (m n)) <= limit n;
  im_device : device_wf (Device := Device) (m NsDevice);
  im_marker b : m NsControl !! reset_marker = Some b -> len b <= 1;
}.

(** What a boot from image [m] yields. *)
Record opened (m : view) g i : Prop := {
  on_inv : sinv (Store g i true true);
  on_agrees n k : agrees (Store g i true true) n k;
  on_latest : present i (latest_sync_key_id i);
  (** A linked device keeps everything that was durable. *)
  on_kept : m NsControl !! reset_marker = None -> device_of (Device := Device) (m NsDevice) <> None ->
    forall n, fl g n = m n;
  (** An interrupted reset is finished. *)
  on_reset : is_Some (m NsControl !! reset_marker) -> i = inner_default /\
    (forall n, n ∈ reset_namespaces -> blank n g) /\ fl g NsControl !! reset_marker = None;
  (** Without a device no Signal record survives. *)
  on_orphans : m NsControl !! reset_marker = None -> device_of (Device := Device) (m NsDevice) = None ->
    i = inner_default /\ forall n, n ∈ signal_namespaces -> fl g n = ∅;
}.

Lemma any_records_spec l f :
  wp (any_records l) (fun r g => quiet f g /\
    match r with Ok b => b = false -> forall n, n ∈ l -> fl f n = ∅ | Err e => is_io e end) f.
Proof.
  revert f. induction l as [|n l IH]; intros f; cbn [any_records].
  - wp_step. split; [done|]. by intros _ n ?%not_elem_of_nil.
  - wp_step. wp_use record_names_spec. intros [[|x names]|e] g [Hq Hp]; [| |done].
    + wp_use IH. intros [b|e] h [Hqh Hr]; (split; [by etrans|]); [|done].
      intros Hb n' [->|Hn]%elem_of_cons.
      * symmetry in Hp. by apply Permutation_nil_r, fmap_nil_inv, map_to_list_empty_iff in Hp.
      * rewrite <- (unchanged_flash n' _ _ (proj1 Hq)). by apply Hr.
    + by wp_step.
Qed.

(** The reading half of a boot: mount, and find flash as it is durably. *)
Lemma mount_spec (w : W) :
  wp (nvs nvs_init_partition ;;; nvs nvs_open_namespaces) (fun r f => fs_slots f = [] /\
    match r with
    | Ok _ => forall n, fl f n = durable w n /\ du f n = durable w n
    | Err e => is_io e
    end) (FState w SessionSlots.new).
Proof.
  wp_step. apply wp_nvs. wp_use law_init. intros [u|e] w1 H1; [|intros i; split; [done|]; by eexists].
  destruct u. apply wp_nvs. wp_use law_open. intros [u|e] w2 H2.
  - split; [done|]. intros n. cbn. destruct (H1 n) as [E1 E2], (H2 n) as [E3 E4].
    cbn in E3, E4. by rewrite E3, E4, E1, E2.
  - intros i. split; [done|]. by eexists.
Qed.

Lemma image_bootable m f :
  image_ok m -> fs_slots f = [] -> (forall n, fl f n = m n /\ du f n = m n) -> bootable f.
Proof using Type.
  intros Hm Hs Hf. split.
  - split; rewrite ?Hs.
    + intros n Hn. destruct (Hf n) as [-> _]. by apply Hm.
    + intros n Hn. destruct (Hf n) as [_ ->]. by apply Hm.
    + apply SessionSlots.wf_new.
    + constructor.
  - intros n Hn. destruct (Hf n) as [-> _]. by apply Hm.
Qed.

Lemma default_agrees f n k :
  (forall n, n ∈ signal_namespaces -> fl f n = ∅) -> device_of (Device := Device) (fl f NsDevice) = None ->
  agrees (Store f inner_default true true) n k.
Proof using Type.
  intros Hb Hd. assert (Hl : n ∈ signal_namespaces -> logical (fl f n) k = None).
  { intros Hn. apply logical_absent. by rewrite Hb, lookup_empty. }
  unfold agrees, flv, agree, answers. cbn. rewrite Hd.
  destruct n; try done; rewrite Hl by (unfold signal_namespaces; repeat constructor);
    by destruct has_psram.
Qed.

Lemma default_inv f :
  finv f -> (forall n, n ∈ signal_namespaces -> fl f n = ∅) ->
  device_wf (Device := Device) (fl f NsDevice) -> device_wf (Device := Device) (du f NsDevice) ->
  sinv (Store f inner_default true true).
Proof using Type.
  intros Hf Hb Hd1 Hd2. split; [done| |by split|apply caps_default].
  intros n Hn. unfold flv. cbn. rewrite Hb by done. rewrite map_size_empty. by destruct n.
Qed.

Lemma set_device_none : set_device None inner_default = inner_default.
Proof using Type. done. Qed.
(** The second half of [open_flash]. *)
Definition load_phase : M (fstate W) StoreError StoreInner :=
  let* d := load_device in
  let i := set_device d inner_default in
  match d with
  | Some _ => replay i
  | None =>
      let* orphans := has_signal_records in
      (if orphans then erase_signal else ret tt) ;;;
      ret i
  end.

Record loaded f g i : Prop := {
  ld_inv : sinv (Store g i true true);
  ld_agrees n k : agrees (Store g i true true) n k;
  ld_latest : present i (latest_sync_key_id i);
  ld_kept : device_of (Device := Device) (fl f NsDevice) <> None -> unchanged f g;
  ld_orphans : device_of (Device := Device) (fl f NsDevice) = None ->
    i = inner_default /\ (forall n, n ∈ signal_namespaces -> fl g n = ∅ /\ (blank n f -> blank n g)) /\
    fl g NsDevice = fl f NsDevice /\ du g NsDevice = du f NsDevice /\
    fl g NsControl !! reset_marker = fl f NsControl !! reset_marker;
}.

(** A boot with a device record: what the replay built. *)
Lemma loaded_replayed d f g h i :
  bootable f -> device_wf (Device := Device) (fl f NsDevice) -> device_wf (Device := Device) (du f NsDevice) ->
  quiet f g -> device_of (fl f NsDevice) = Some d -> replayed (Some d) g (Ok i) h -> loaded f h i.
Proof.
  intros Hb Hd1 Hd2 Hq Hd (Hu & Hh & Hc & Hp & Ha).
  assert (Hfh : unchanged f h) by (etrans; [apply Hq|done]).
  split; try (rewrite Hd; done); try done.
  - split; [done| |split|done]; unfold flv, duv; cbn.
    + intros n Hn. rewrite (unchanged_flash n _ _ Hfh). by apply Hb.
    + by rewrite (unchanged_flash _ _ _ Hfh).
    + by rewrite (unchanged_durable _ _ _ Hfh).
  - intros n k. specialize (Ha n k). unfold agrees, flv. cbn.
    rewrite (unchanged_flash NsDevice _ _ Hfh), Hd. unfold agree in *.
    by destruct n; rewrite ?(unchanged_flash _ _ _ Hu).
Qed.

(** A boot without one: a partition without Signal records, the rest as it
    was. *)
Lemma loaded_fresh f u :
  device_wf (Device := Device) (fl f NsDevice) -> device_wf (Device := Device) (du f NsDevice) ->
  device_of (Device := Device) (fl f NsDevice) = None -> finv u ->
  (forall n, n ∈ signal_namespaces -> fl u n = ∅ /\ (blank n f -> blank n u)) ->
  fl u NsDevice = fl f NsDevice -> du u NsDevice = du f NsDevice ->
  fl u NsControl !! reset_marker = fl f NsControl !! reset_marker ->
  loaded f u (set_device None inner_default).
Proof.
  intros Hd1 Hd2 Hd Hu Hs E1 E2 Ec. rewrite set_device_none. split.
  - apply default_inv; [done|by intros n Hn; destruct (Hs n Hn)|by rewrite E1|by rewrite E2].
  - intros n k. apply default_agrees; [by intros m Hm; destruct (Hs m Hm)|by rewrite E1].
  - done.
  - by rewrite Hd.
  - intros _. by split_and!.
Qed.

Lemma load_phase_spec f :
  bootable f -> device_wf (Device := Device) (fl f NsDevice) -> device_wf (Device := Device) (du f NsDevice) ->
  wp load_phase (fun r g => match r with Ok i => loaded f g i | Err e => is_io e end) f.
Proof.
  intros Hb Hd1 Hd2. unfold load_phase. wp_step. wp_use load_device_spec; [done|].
  intros [d|e] g [Hq Hr]; [|done]. subst d. cbn zeta.
  assert (Hbg : bootable g) by by eapply bootable_quiet.
  destruct (device_of (fl f NsDevice)) as [d|] eqn:Hd.
  - wp_use replay_spec; [done|]. intros [i|e] h Hr; [by eapply loaded_replayed|apply Hr].
  - wp_step. wp_use any_records_spec. intros [b|e] h [Hqh Hr]; [|done].
    assert (Hfh : quiet f h) by (by etrans). destruct Hfh as [Hv Hfh].
    assert (Hih : finv h) by by eapply finv_quiet; [apply Hbg|].
    destruct (Hv NsDevice) as [F1 F2], (Hv NsControl) as [F3 _]. destruct b.
    + wp_step. wp_use erase_signal_spec. intros [[]|e] u [Hu He]; [|by apply He].
      wp_step. destruct (se_ok _ _ _ _ Hu eq_refl) as [Hbl _].
      destruct (se_out _ _ _ _ Hu NsDevice) as [E1 E2]; [by intros [_ Hn]%signal_ne|done|].
      apply loaded_fresh; try done; try congruence.
      * by eapply finv_signal_erased.
      * intros n Hn. split; [|intros _]; by apply Hbl.
      * rewrite (se_reset _ _ _ _ Hu). by rewrite F3.
    + do 2 wp_step. apply loaded_fresh; try done; try congruence.
      intros n Hn. destruct (Hv n) as [G1 G2]. split; [rewrite (unchanged_flash n _ _ (proj1 Hqh)); by apply Hr|].
      intros [B1 B2]. split; congruence.
Qed.

Lemma wp_bind2 {A B C} (a : M (fstate W) StoreError A) (b : M (fstate W) StoreError B)
    (c : M (fstate W) StoreError C) Q f :
  wp (a ;;; b) (fun r g => match r with Ok _ => wp c Q g | Err e => Q (Err e) g end) f ->
  wp (a ;;; b ;;; c) Q f.
Proof using Type. unfold wp, bind. destruct (a f) as [g []]; [|done]. by destruct (b g) as [h []]. Qed.

Lemma open_flash_spec (w : W) :
  image_ok (durable w) ->
  wp open_flash (fun r g => match r with Ok i => opened (durable w) g i | Err e => is_io e end)
    (FState w SessionSlots.new).
Proof.
  intros Hm. unfold open_flash. apply wp_bind2. wp_use mount_spec.
  intros [u|e] f [Hs Hf]; [|done]. clear u.
  assert (Hb : bootable f) by by eapply image_bootable.
  assert (Hd : device_wf (Device := Device) (fl f NsDevice) /\ device_wf (Device := Device) (du f NsDevice)).
  { destruct (Hf NsDevice) as [-> ->]. split; apply Hm. }
  destruct Hd as [Hd1 Hd2]. change (wp (let* pending := reset_pending in
    (if pending then complete_reset else ret tt) ;;; load_phase)
    (fun r g => match r with Ok i => opened (durable w) g i | Err e => is_io e end) f).
  wp_step. unfold reset_pending. wp_step. wp_use read_blob_spec. intros [o|e] g [Hq Ho].
  2: { destruct Ho as [?|(b & Eb & Hl & _)]; [done|]. destruct (Hf NsControl) as [E _].
       rewrite E in Eb. pose proof (im_marker _ Hm b Eb). lia. }
  destruct Ho as [-> _]. destruct (Hf NsControl) as [E _]. rewrite E. wp_step.
  assert (Hbg : bootable g) by by eapply bootable_quiet.
  assert (Hfg : forall n, fl g n = durable w n /\ du g n = durable w n).
  { intros n. destruct (proj1 Hq n) as [-> ->]. apply Hf. }
  case_bool_decide as Hmk; wp_step.
  - wp_use complete_reset_spec. intros [[]|e] h [Hh He]; [|by apply He].
    destruct (rc_ok _ _ _ Hh eq_refl) as (Hbl & Hmark & _).
    assert (Hih : finv h) by by apply Hh, Hbg.
    destruct (Hbl NsDevice) as [B1 B2]; [by left|].
    wp_use load_phase_spec.
    + split; [done|]. intros n Hn. destruct (Hbl n) as [-> _]; [by right|]. rewrite map_size_empty. by destruct n.
    + rewrite B1. intros r. by rewrite lookup_empty.
    + rewrite B2. intros r. by rewrite lookup_empty.
    + intros [i|e] u Hu; [|done]. destruct Hu as [L1 L2 L3 L4 L5].
      destruct L5 as (-> & Le & Ld1 & Ld2 & Lc); [unfold device_of; by rewrite B1, lookup_empty|].
      split; [done..| | |].
      * intros Hn. by rewrite Hn in Hmk; destruct Hmk.
      * intros _. split_and!; [done| |by rewrite Lc].
        intros n [->|Hn]%elem_of_cons; [split; congruence|]. apply Le; [done|]. apply Hbl. by right.
      * intros Hn. by rewrite Hn in Hmk; destruct Hmk.
  - wp_step. destruct (Hfg NsDevice) as [D1 D2].
    wp_use load_phase_spec; [done|rewrite D1; apply (im_device _ Hm)|rewrite D2; apply (im_device _ Hm)|].
    intros [i|e] u Hu; [|done]. destruct Hu as [L1 L2 L3 L4 L5]. rewrite D1 in *. split; [done..| | |].
    + intros _ Hdev n. rewrite (unchanged_flash n _ _ (L4 Hdev)). apply Hfg.
    + done.
    + intros _ Hdev. destruct (L5 Hdev) as (-> & Le & _). split; [done|]. intros n Hn. by destruct (Le n Hn).
Qed.
End Opening.
