(* ===== verification/Concrete.v ===== *)
(** * Concrete instances of the model's parameters

    Executable stand-ins for the code outside the repository, so that the
    examples run and the hypotheses of the theorems are seen to hold
    somewhere: a stand-in hash, byte strings for the [wacore] types, and the
    in-memory partition of [NvsMem]. *)

From S2P Require Import Prelude RustStr Nvs NvsMem Record SessionSlots Flash FlashSpec FlashRecords FlashReset FlashDevice Platform StoreInner Store StoreInv StoreOps StoreOpen StoreBoot.
(** The key, padded: enough to name short keys apart. *)
Definition pad_sha : Sha256 := fun k => take 32 (k ++ replicate 32 x00).

Lemma pad_sha_len : @Sha256Len pad_sha.
Proof.
  intros k. unfold sha256, pad_sha, len. rewrite length_take, length_app, length_replicate. lia.
Qed.

(** A hash under which every two keys collide. *)
Definition flat_sha : Sha256 := fun _ => replicate 32 x00.

Definition bytes_serde : Serde bytes := {| to_vec b := Some b; from_slice b := Some b |}.

Lemma bytes_serde_laws : @SerdeLaws bytes bytes_serde.
Proof. intros a b. by intros [= <-]. Qed.

(** Byte strings for every [wacore] type; a sync key's timestamp is its first
    byte, an expiry of zero means never. *)
Definition plain_wacore : Wacore := {|
  Device := bytes;
  AppStateSyncKey := bytes;
  sync_timestamp k := match k with [] => 0 | b :: _ => Z_of_byte b end;
  HashState := Z;
  LidPnMappingEntry := bytes * bytes;
  lid := fst;
  phone_number := snd;
  DeviceListRecord := bytes;
  user := fun r => r;
  merge_msg_secret_expiry a b := if (a =? 0) || (b =? 0) then 0 else Z.max a b;
  merge_msg_secret_message_ts a b := if a =? 0 then b else a;
  device_serde := bytes_serde;
  sync_key_serde := bytes_serde;
|}.

Lemma plain_laws : @WacoreLaws plain_wacore.
Proof. split; apply bytes_serde_laws. Qed.

(** A freshly formatted board. *)
Definition blank_flash : fstate mem := FState mem_blank [].

Lemma blank_finv `{!Sha256, !Contents} script last :
  finv (FState (mem_of (fun _ => ∅) script last) []).
Proof.
  split; cbn; try (intros n _ name r; by rewrite lookup_empty); [apply SessionSlots.wf_new|constructor].
Qed.

(** A store on it. *)
Definition blank_store `{Wacore} script last : store mem :=
  Store (FState (mem_of (fun _ => ∅) script last) []) inner_default true true.

Lemma blank_sinv `{!Sha256, !Wacore, !Board} script last : sinv (blank_store script last).
Proof.
  split.
  - apply blank_finv.
  - intros n _. cbn. rewrite map_size_empty. by destruct n.
  - split; intros r; cbn; by rewrite lookup_empty.
  - apply caps_default.
Qed.

Lemma blank_agrees `{!Sha256, !Wacore, !Board} script last n k : agrees (blank_store script last) n k.
Proof.
  unfold agrees, agree, answers, flv, blank_store, logical, device_of. cbn.
  destruct n; try done; by destruct has_psram.
Qed.

#[global] Arguments pad_sha : simpl never.
