(* ===== verification/StoreRace.v ===== *)
(** * [get_session] a shared access at a time ([src/storage.rs])

    The reading methods do not take the store's [operation] lock, so that
    another thread's method can come between their accesses.  What keeps the
    mirror coherent then, and what breaks it. *)

From S2P Require Import Prelude RustStr Nvs NvsMem Record SessionSlots Lru Flash FlashSpec FlashRecords FlashReset FlashDevice Platform StoreInner Store StoreRam StoreInv StoreOps StoreSpec StoreOpen StoreBoot Concrete.
#[local] Set Default Proof Using "Type*".

Section Race.
Context {W : Type} `{nvsW : !Nvs W, lawsW : !NvsLaws W, shaW : !Sha256, wacore : Wacore,
  lawsC : !WacoreLaws, board : Board}.
Notation S := (M (store W) StoreError).
Implicit Types (s t : store W).

(** The mirror, the worker's job, and the entry of what it read. *)
Definition get_session_peek (address : bytes) : S (option bytes) :=
  let* mirrored := look (fun i => sessions i !! address) in
  match mirrored with
  | Some session =>
      update (fun i => set_session_order (touched address (session_order i)) i) ;;;
      ret (Some session)
  | None => ret None
  end.
Definition get_session_load (address : bytes) : S (option bytes) :=
  run (load_record NsSessions address MAX_SIGNAL_RECORD_LEN).
Definition get_session_fill (address session : bytes) : S unit := update (mirror_session address session).

(** With nothing in between they are [get_session]. *)
Lemma get_session_pieces a s :
  get_session a s =
  (let* mirrored := get_session_peek a in
   match mirrored with
   | Some session => ret (Some session)
   | None =>
       let* payload := get_session_load a in
       match payload with
       | Some session => get_session_fill a session ;;; ret (Some session)
       | None => ret None
       end
   end) s.
Proof.
  unfold get_session, get_session_peek, get_session_load, get_session_fill, bind, look, ret.
  by destruct (sessions (inner s) !! a).
Qed.

(** Whatever happened since the load: the entry keeps every mirror coherent if
    flash still holds what was read. *)
Lemma late_fill_coherent a v s : logical (flv s NsSessions) a = Some v ->
  forall n k, agrees s n k -> agrees (get_session_fill a v s).1 n k.
Proof.
  intros Hv n k Ha. cbn. apply (agrees_load NsSessions a v s s); try done.
  - unfold plain. set_solver.
  - naive_solver.
Qed.
End Race.

(** A second thread stores a session twice, once before the load and once
    after it: the mirror answers with the first, which flash no longer
    holds. *)
Section Stale.
#[local] Existing Instance pad_sha.
#[local] Existing Instance plain_wacore.
#[local] Existing Instance plain_laws.
#[local] Instance psram : Board := true.

Definition put_then (v : string) (s : store mem) : store mem := (put_session (bs "bob@s") (bs v) s).1.
Definition raced : store mem :=
  let s := blank_store [] Works in
  let '(s, _) := get_session_peek (bs "bob@s") s in
  let s := put_then "v1" s in
  let '(s, r) := get_session_load (bs "bob@s") s in
  let s := put_then "v2" s in
  match r with Ok (Some v) => (get_session_fill (bs "bob@s") v s).1 | _ => s end.

Example raced_reader_leaves_a_stale_mirror :
  (get_session (bs "bob@s") raced).2 = Ok (Some (bs "v1")) /\
  logical (fl (flash_state raced) NsSessions) (bs "bob@s") = Some (bs "v2").
Proof. split; by vm_compute. Qed.
End Stale.
