(* ===== verification/FlashTheorems.v ===== *)
(** * What the flash layer guarantees

    The properties of [Flash.v], each on any partition that satisfies the
    documented behaviour of NVS ([NvsLaws]): whatever call fails, and whether
    or not a failed write reached the medium. *)

From S2P Require Import Prelude RustStr Nvs NvsMem Record SessionSlots Flash FlashSpec FlashRecords FlashBoot FlashReset FlashDevice Platform StoreInner StoreInv Concrete.
#[local] Set Default Proof Using "Type*".

(** C34. The record codec loses and invents nothing.  A record is the three
    bytes "WA1", the length of the logical key in two bytes, little-endian,
    the key of at most 512 bytes, and the value.  [encode_record] writes
    exactly that of the key and value it is given, and [decode_record] gives
    them back; it fails only for a key that is too long, a record of 2^32
    bytes or more, or when the heap refuses the buffer.  [decode_record]
    accepts any record of this shape and nothing else: from whatever it
    accepts, [encode_record] makes the same bytes again. *)
Theorem record_codec_exact {S} (rsv : Z -> M S StoreError unit) s :
  (forall k v s' b, encode_record rsv k v s = (s', Ok b) ->
     b = bs "WA1" ++ le_bytes 2 (len k) ++ k ++ v /\ decode_record b = Ok (k, v)) /\
  (forall k v s' e, encode_record rsv k v s = (s', Err e) ->
     512 < len k \/ 2 ^ 32 <= 5 + len k + len v \/ (rsv (5 + len k + len v) s).2 = Err e) /\
  (forall b k v, decode_record b = Ok (k, v) <-> len k <= 512 /\ b = bs "WA1" ++ le_bytes 2 (len k) ++ k ++ v) /\
  (forall b k v, decode_record b = Ok (k, v) -> len b < 2 ^ 32 -> is_ok (rsv (len b) s).2 = true ->
     (encode_record rsv k v s).2 = Ok b).
Proof.
  assert (Hdec : forall b k v, decode_record b = Ok (k, v) <-> len k <= 512 /\ b = bs "WA1" ++ le_bytes 2 (len k) ++ k ++ v).
  { intros b k v. split.
    - intros [Hk ->]%decode_record_inv. rewrite record_bytes_split, <- app_assoc by done. by split.
    - intros [Hk ->]. rewrite <- (decode_record_bytes k v), record_bytes_split, <- app_assoc by done. done. }
  assert (Henc : forall k v, encode_record rsv k v s =
    if 512 <? len k then (s, Err (Validation (KeyTooLong (len k))))
    else if 2 ^ 32 <=? 5 + len k + len v then (s, Err (Io OutOfMemory))
    else match rsv (5 + len k + len v) s with
         | (t, Ok _) => (t, Ok (bs "WA1" ++ le_bytes 2 (len k) ++ k ++ v))
         | (t, Err e) => (t, Err e)
         end).
  { intros k v. unfold encode_record. rewrite Z.gtb_ltb. change MAX_LOGICAL_KEY_LEN with 512. zcase; [done|].
    rewrite <- record_bytes_eq by done. unfold fits, RECORD_HEADER_LEN. pose proof (len_nonneg k). pose proof (len_nonneg v).
    repeat zcase; cbn [negb andb]; try lia; [|done]. unfold bind, ret. by destruct (rsv _ s) as [t [[]|e]]. }
  split_and!; [| |done|].
  - intros k v s' b. rewrite Henc. repeat zcase; try done. destruct (rsv _ s) as [t [u|e]]; [|done]. intros [= _ <-].
    split; [done|]. by apply Hdec.
  - intros k v s' e. rewrite Henc. repeat zcase; [by left|by right; left|]. intros He. right; right.
    destruct (rsv _ s) as [t [u|e']]; [done|]. cbn. congruence.
  - intros b k v [Hk ->]%Hdec Hb Hr. rewrite Henc. rewrite !len_app, len_le_bytes in *. change (len (bs "WA1")) with 3 in *.
    repeat zcase; try lia. replace (3 + (Z.of_nat 2 + (len k + len v))) with (5 + len k + len v) in Hr by lia.
    by destruct (rsv _ s) as [t [u|e]].
Qed.

Lemma record_codec_exact_witness :
  decode_record (record_bytes (bs "15550001@s.whatsapp.net") (bs "identity")) =
    Ok (bs "15550001@s.whatsapp.net", bs "identity") /\
  decode_record (bs "WA2") = Err (Validation InvalidHeader).
Proof.
  split; [|by vm_compute].
  destruct (record_codec_exact (fun _ => ret (S := unit) (E := StoreError) tt) tt) as (H & _).
  exact (proj2 (H (bs "15550001@s.whatsapp.net") (bs "identity") _ _ eq_refl)).
Defined.

Section Records.
Context {W : Type} `{nvsW : !Nvs W, lawsW : !NvsLaws W, shaW : !Sha256, conW : !Contents}.
Implicit Types (s t : fstate W) (n : ns) (k v : bytes).

(** C20. A put is a map insertion.  From a state that satisfies the
    invariant, [put_record] keeps it, touches no other namespace and no other
    key of its own, and stays within the namespace's limit; a success means
    the key maps to the value, durably; a failure means the old value is
    still there or, when it was the medium that failed, the new one; and a
    refusal (a value or key too long, a name collision, a full namespace)
    changed nothing and is the one the contents call for. *)
Theorem put_record_is_insert n k v label max s :
  finv s -> n ∈ signal_namespaces -> content_ok n k v ->
  wp (put_record n k v label max) (fun r t =>
    finv t /\ only n s t /\
    (forall k', k' <> k -> logical (fl t n) k' = logical (fl s n) k') /\
    (r = Ok tt -> logical (fl t n) k = Some v /\ logical (du t n) k = Some v) /\
    (forall e, r = Err e -> logical (fl t n) k = logical (fl s n) k \/
       (is_io e /\ logical (fl t n) k = Some v)) /\
    (forall x, r = Err (Validation x) -> unchanged s t /\
       slot_verdict (fl s n) k (len v) label max = Err (Validation x)) /\
    (Z.of_nat (size (fl s n)) <= max -> Z.of_nat (size (fl t n)) <= max)) s.
Proof.
  intros Hi Hn Hc. wp_use put_record_spec; [done..|]. intros r t [P1 P2 P3 P4 P5 P6 _ P8].
  split_and!; try done. intros Hr. destruct (P4 Hr) as [? Hd]. by rewrite Hd.
Qed.

(** A load is a map lookup: on a partition that satisfies the invariant
    [load_record] returns exactly what its namespace holds for the key, it
    fails only when the medium or the heap does, and it changes nothing. *)
Theorem load_record_is_lookup n k max s :
  finv s -> n ∈ signal_namespaces -> limit_ok n max ->
  wp (load_record n k max) (fun r t => unchanged s t /\ finv t /\
    match r with Ok o => o = logical (fl s n) k | Err e => is_io e end) s.
Proof. apply load_record_spec. Qed.

(** The session-slot cache never changes an answer: with any cache the
    invariant allows, [check_record_slot] answers what the namespace's
    contents call for, which is what it answers with an empty cache, unless
    the medium fails; it writes nothing, and the cache it leaves is one the
    invariant allows. *)
Theorem slot_cache_is_transparent n k value_len label max s :
  finv s -> n ∈ signal_namespaces ->
  let verdict := slot_verdict (fl s n) k value_len label max in
  wp (check_record_slot n k value_len label max) (fun r t => unchanged s t /\ finv t /\
    (r = verdict \/ exists e, r = Err e /\ is_io e)) s /\
  wp (check_record_slot n k value_len label max) (fun r t =>
    r = verdict \/ exists e, r = Err e /\ is_io e) (FState (fs_nvs s) SessionSlots.new).
Proof.
  intros Hi Hn. split; [by apply check_record_slot_spec|].
  wp_use (check_record_slot_spec n k value_len label max (FState (fs_nvs s) SessionSlots.new));
    [by apply finv_clear|done|]. by intros r t (_ & _ & Hr).
Qed.

(** An erasure that reports success is verified: the namespace is empty
    for readers and for a reboot.  One that fails says so after three
    attempts, and either way no other namespace is touched and nothing is
    added. *)
Theorem erase_is_verified n label s :
  wp (erase_namespace n label) (fun r t =>
    only n s t /\ fl t n ⊆ fl s n /\ du t n ⊆ du s n /\
    (r = Ok tt -> fl t n = ∅ /\ du t n = ∅) /\
    (forall e, r = Err e -> e = Io (EraseFailed label))) s.
Proof.
  wp_use (erase_attempts_spec 3 n [n] label s); [by left|]. intros r t (Hs & _ & Hok & He).
  destruct (Hs n) as [Hin _]. destruct Hin as [Hf Hd]; [by left|].
  split_and!; try done. intros n' Hn. destruct (Hs n') as [_ Hout].
  apply Hout. by intros ->%list_elem_of_singleton.
Qed.
End Records.

(** The witnesses: a blank board with working NVS. *)
Section Witnesses.
#[local] Existing Instance pad_sha.
#[local] Existing Instance plain_wacore.

Lemma put_record_is_insert_witness :
  let '(t, r) := put_record NsSessions (bs "alice") (bs "ratchet") "session" 2048 blank_flash in
  r = Ok tt /\ logical (fl t NsSessions) (bs "alice") = Some (bs "ratchet").
Proof.
  assert (H := put_record_is_insert NsSessions (bs "alice") (bs "ratchet") "session" 2048 blank_flash
    (blank_finv [] Works) ltac:(by apply (bool_decide_unpack _)) eq_refl).
  unfold wp in H. destruct (put_record _ _ _ _ _ blank_flash) as [t r] eqn:E.
  assert (r = Ok tt) as ->.
  { change r with (t, r).2. rewrite <- E. by vm_compute. }
  destruct H as (_ & _ & _ & H & _). split; [done|]. by apply H.
Defined.

Lemma load_record_is_lookup_witness :
  let '(t, r) := load_record NsSessions (bs "alice") MAX_SIGNAL_RECORD_LEN blank_flash in
  r = Ok None.
Proof.
  assert (H := load_record_is_lookup NsSessions (bs "alice") MAX_SIGNAL_RECORD_LEN blank_flash
    (blank_finv [] Works) ltac:(by apply (bool_decide_unpack _)) (or_introl eq_refl)).
  unfold wp in H. destruct (load_record _ _ _ blank_flash) as [t [o|e]] eqn:E.
  - destruct H as (_ & _ & ->). by vm_compute.
  - exfalso. change (Err e) with (t, @Err StoreError (option bytes) e).2 in *.
    assert (H' : (load_record NsSessions (bs "alice") MAX_SIGNAL_RECORD_LEN blank_flash).2 = Ok None)
      by by vm_compute.
    by rewrite E in H'.
Defined.

Lemma slot_cache_is_transparent_witness :
  (check_record_slot NsSessions (bs "alice") 7 "session" 2048 blank_flash).2 =
    Ok (record_name (bs "alice")).
Proof.
  destruct (slot_cache_is_transparent NsSessions (bs "alice") 7 "session" 2048 blank_flash
    (blank_finv [] Works) ltac:(by apply (bool_decide_unpack _))) as [H _].
  apply wp_unfold in H. destruct H as (_ & _ & [->|(e & He & _)]); [by vm_compute|].
  exfalso. revert He. by vm_compute.
Defined.

Lemma erase_is_verified_witness :
  let '(t, r) := erase_namespace NsSessions "session" blank_flash in
  r = Ok tt /\ fl t NsSessions = ∅.
Proof.
  assert (H := erase_is_verified NsSessions "session" blank_flash).
  unfold wp in H. destruct (erase_namespace _ _ blank_flash) as [t r] eqn:E.
  assert (r = Ok tt) as ->.
  { change r with (t, r).2. rewrite <- E. by vm_compute. }
  destruct H as (_ & _ & _ & H & _). split; [done|]. by apply H.
Defined.
End Witnesses.

Lemma record_name_is_base32_prefix_witness :
  @record_name pad_sha (bs "alice") =
  map (fun i => byte_at ALPHABET (digest_bits (pad_sha (bs "alice")) (Z.of_nat i))) (seq 0 15).
Proof. exact (@record_name_is_base32_prefix pad_sha pad_sha_len (bs "alice")). Defined.

Lemma remember_bounded_and_exact_witness :
  SessionSlots.matches (bs "n1") (bs "mallory")
    (SessionSlots.remember (bs "n1") (bs "alice") SessionSlots.new) = Some false.
Proof.
  destruct (SessionSlots.remember_bounded_and_exact (bs "n1") (bs "alice") SessionSlots.new
    SessionSlots.wf_new) as (_ & H & _).
  rewrite H. by vm_compute.
Defined.

(** ** The device record *)

Section DeviceRecord.
Context {W : Type} `{nvsW : !Nvs W, lawsW : !NvsLaws W}.
Context {Device : Type} `{serdeD : !Serde Device, lawsD : !SerdeLaws Device}.
Implicit Types (s t : fstate W).

(** The linked device survives.  A save that succeeds is durable, and a
    load after it gives the device that was saved; whatever fails in
    between, the partition holds the old device or the new one, never a part
    of either, and a failure that is not the medium's leaves everything
    alone. *)
Theorem saved_device_is_loaded (d : Device) s :
  device_wf (Device := Device) (fl s NsDevice) -> device_wf (Device := Device) (du s NsDevice) ->
  wp (save_device d ;;; load_device (Device := Device)) (fun r t =>
    (device_of (fl t NsDevice) = device_of (Device := Device) (fl s NsDevice) \/
     device_of (fl t NsDevice) = Some d) /\
    match r with
    | Ok o => o = Some d /\ device_of (du t NsDevice) = Some d
    | Err e => is_io e \/ unchanged s t
    end) s.
Proof.
  intros Hf Hd. wp_step. wp_use save_device_spec. intros [[]|e] t [So Ss Sw Sok Se Sr].
  - destruct (Sw Hf Hd) as [Hf' Hd']. destruct (Sok eq_refl) as [Hv Hdu].
    wp_use (load_device_spec (Device := Device) t Hf'). intros r u [[Hq _] Hr].
    destruct (Hq NsDevice) as [E1 E2]. rewrite E1, E2, Hdu, Hv. split; [by right|].
    destruct r as [o|e]; [|by left]. by rewrite Hr.
  - destruct (Se e eq_refl) as [E|[Hio E]]; (split; [by auto|by apply Sr]).
Qed.
End DeviceRecord.

#[local] Existing Instance bytes_serde.

Lemma saved_device_is_loaded_witness :
  ((save_device (Device := bytes) (bs "device") ;;; load_device) blank_flash).2 = Ok (Some (bs "device")).
Proof.
  assert (H0 : device_wf (Device := bytes) (fl blank_flash NsDevice)) by done.
  pose proof (@saved_device_is_loaded mem _ _ bytes bytes_serde bytes_serde_laws (bs "device") blank_flash H0 H0) as H.
  apply wp_result in H. destruct H as [_ H].
  assert (E : exists o, ((save_device (Device := bytes) (bs "device") ;;; load_device) blank_flash).2 = Ok o)
    by (eexists; vm_compute; reflexivity).
  destruct E as [o E]. rewrite E in H |- *. by destruct H as [-> _].
Defined.
