(* ===== verification/StoreTheorems.v ===== *)
(** * What the store guarantees

    The properties of [NvsStore], over every sequence of its methods and
    every behaviour of the partition [NvsLaws] allows. *)

From S2P Require Import Prelude RustStr RustStrLemmas Nvs NvsMem Record SessionSlots Lru Flash FlashSpec FlashRecords FlashBoot FlashReset FlashDevice Platform StoreInner Store StoreRam StoreInv StoreOps StoreSpec StoreHistory StoreOpen StoreBoot Concrete.
#[local] Set Default Proof Using "Type*".

(** ** The properties *)

Section Theorems.
Context {W : Type} `{nvsW : !Nvs W, lawsW : !NvsLaws W, shaW : !Sha256, wacore : Wacore,
  lawsC : !WacoreLaws, board : Board}.
Implicit Types (s t : store W) (n : ns) (k v : bytes).

(** C1. The store's invariant holds after every sequence of its methods,
    whatever failed on the way: each namespace holds well-formed records
    only and stays within its durable limit, the session-slot cache is
    truthful, and without PSRAM the mirrors respect their caps, eight
    identities, no session, and nine sync keys (eight, and the latest key
    when it is also among the least recently used). *)
Theorem store_invariant_always os s :
  Forall op_ok os -> sinv s ->
  let t := run_ops os s in
  sinv t /\
  (forall n, n ∈ signal_namespaces -> ns_wf n (flv t n) /\ Z.of_nat (size (flv t n)) <= limit n) /\
  (has_psram = false ->
     Z.of_nat (size (identities (inner t))) <= 8 /\ sessions (inner t) = ∅ /\
     Z.of_nat (size (sync_keys (inner t))) <= 9).
Proof.
  intros Ho Hi. assert (Ht := run_ops_sinv os s Ho Hi). cbn zeta. split_and!; [done|..].
  - intros n Hn. split; [by apply Ht|by apply (si_size _ Ht)].
  - intros P. destruct (si_caps _ Ht). auto.
Qed.

(** C4. Flash and RAM stay coherent.  A record that no failed write touched
    is answered by its mirror exactly as flash holds it, after every sequence
    of methods (with PSRAM the mirrors are complete; without, a mirror entry
    is flash's or absent), and a single success repairs the records it
    wrote whatever happened before. *)
Theorem mirrors_coherent_always os s n k :
  Forall op_ok os -> sinv s ->
  (agrees s n k -> unharmed n k os s -> agrees (run_ops os s) n k) /\
  (forall o, op_ok o -> writes o n k ->
     (exec o (run_ops os s)).2 = Ok tt -> agrees (step (run_ops os s) o) n k).
Proof.
  intros Ho Hi. split; [by apply run_ops_agrees|].
  intros o Hok Hw He. assert (Ht := run_ops_sinv os s Ho Hi).
  destruct (step_post o _ Ht Hok) as [_ _ Hd]. apply Hd; auto.
Qed.

(** A session that was put is the session a later get returns, and it
    survives a reboot: after a successful [put_session] the record is on
    flash, durably, and [get_session] returns those bytes or fails with an
    error of the medium or the heap, never another session or none. *)
Theorem session_read_your_write a v s :
  sinv s -> utf8_valid a = true ->
  wp (put_session a v) (fun r t => r = Ok tt ->
    logical (duv t NsSessions) a = Some v /\
    wp (get_session a) (fun r' _ =>
      match r' with Ok o => o = Some v | Err e => is_io e end) t) s.
Proof.
  intros Hi Hu. assert (Hx := exec_spec (PutSession a v) s Hi Hu). cbn [exec] in Hx.
  assert (Hv : wp (put_session a v) (fun r t => r = Ok tt ->
    logical (flv t NsSessions) a = Some v /\ logical (duv t NsSessions) a = Some v) s).
  { destruct (Z.leb_spec (len v) MAX_SIGNAL_RECORD_LEN) as [Hl|Hl].
    2: { unfold put_session. zcase. by wp_step. }
    unfold wp. rewrite put_session_eq by done. apply guarded; [|done].
    apply (put_one_value NsSessions); [done|unfold plain; set_solver|done]. }
  wp_use (wp_and _ _ _ _ Hx Hv). intros r t [[Ht _ Hd] Hval] Hr. destruct (Hval Hr) as [Hf Hdu].
  split; [done|]. assert (Hag : agrees t NsSessions a) by (apply Hd; [done|by left]).
  wp_use get_session_spec; [done|]. intros r' u [_ _ _ He Ho].
  destruct r' as [o|e]; [|by apply He]. rewrite (Ho o Hag eq_refl). done.
Qed.

(** C32. Once [seal_writes] has run, no method but the two maintenance
    operations can change the partition, in any sequence, and every gated
    method is refused and changes nothing at all: no stale flush recreates a
    record before the reboot. *)
Theorem sealed_store_is_frozen os s :
  Forall op_ok os -> Forall (fun o => maintenance o = false) os -> sinv s ->
  let sealed := step s SealWrites in
  unchanged (flash_state sealed) (flash_state (run_ops os sealed)) /\
  forall o, gated o = true ->
    (exec o sealed).1 = sealed /\ exists x, (exec o sealed).2 = Err (Validation x).
Proof.
  intros Ho Hm Hi. cbn zeta. split.
  - apply run_ops_frozen; try done. by eapply op_inv, (step_post SealWrites).
  - intros o Hg. by apply gated_sealed.
Qed.

(** [set_sync_key] commits the latest-key marker before it touches the
    key's record: whatever fails, and wherever power is lost, either the
    record is untouched for readers and for a reboot, or the durable marker
    names this key.  A success leaves key and marker durable. *)
Theorem sync_key_marker_first k v (f : fstate W) :
  finv f -> is_Some (from_slice (A := AppStateSyncKey) v) ->
  wp (write_sync_key k v) (fun r g =>
    ((fl g NsSyncKeys = fl f NsSyncKeys /\ du g NsSyncKeys = du f NsSyncKeys) \/
     latest_of (du g NsControl) = Some k) /\
    (r = Ok tt -> logical (du g NsSyncKeys) k = Some v /\ latest_of (du g NsControl) = Some k) /\
    (forall k', k' <> k -> logical (fl g NsSyncKeys) k' = logical (fl f NsSyncKeys) k')) f.
Proof.
  intros Hf Hv. wp_use write_sync_key_spec; [done|done|]. intros r g [S1 S2 S3 S4 S5 S6 S7 S8].
  split_and!; [|intros Hr|done].
  - destruct S7 as [?|[? _]]; auto.
  - destruct (S4 Hr) as (H1 & H2 & H3 & H4). by rewrite H3, H4.
Qed.

(** C2. A boot rebuilds the store.  From any durable image of the shape the
    store's own writes have, [open] fails only when the medium, the heap or
    the worker thread does: it never refuses its own data.  The store it
    returns satisfies the invariant, is coherent with flash at every key, and
    knows a latest sync key only if it holds that key; with a linked device
    and no pending reset nothing that was durable is lost, and without a
    device no Signal record survives. *)
Theorem open_rebuilds_store spawned (w w' : W) r :
  image_ok (durable w) -> open spawned w = (w', r) ->
  match r with
  | Err e => is_io e
  | Ok s =>
      sinv s /\ (forall n k, agrees s n k) /\ accepting_writes s = true /\
      (forall id, latest_sync_key_id (inner s) = Some id -> is_Some (sync_keys (inner s) !! id)) /\
      (durable w NsControl !! bs "reset" = None ->
         match device_of (Device := Device) (durable w NsDevice) with
         | Some d => device (inner s) = Some d /\ forall n, flv s n = durable w n
         | None => inner s = inner_default /\ forall n, n ∈ signal_namespaces -> flv s n = ∅
         end)
  end.
Proof.
  intros Hm. unfold open. pose proof (open_flash_spec w Hm) as Ho. unfold wp in Ho.
  destruct (open_flash _) as [g [i|e]]; [|by intros [= <- <-]].
  destruct spawned; [|by intros [= <- <-]; eexists]. intros [= <- <-].
  destruct Ho as [I A L K _ O]. split_and!; [done..|]. intros Hn.
  destruct (device_of (durable w NsDevice)) as [d|] eqn:Hd.
  - assert (Hk : forall n, fl g n = durable w n) by (apply K; congruence).
    split; [|done]. specialize (A NsDevice []). unfold agrees, agree, flv in A. cbn in A.
    cbn. by rewrite A, Hk.
  - by apply O.
Qed.

(** The durable image of a state whose namespaces are all committed. *)
Lemma synced_image s :
  sinv s -> (forall n, duv s n = flv s n) ->
  (forall b, flv s NsControl !! bs "reset" = Some b -> len b <= 1) ->
  image_ok (durable (fs_nvs (flash_state s))).
Proof using Type.
  intros Hi Hs Hb. change (durable (fs_nvs (flash_state s))) with (duv s). split.
  - intros n Hn. rewrite Hs. by apply Hi.
  - intros n Hn. rewrite Hs. by apply Hi.
  - apply Hi.
  - intros b. rewrite Hs. apply Hb.
Qed.

(** A reboot is the identity on a linked device's data: if every
    namespace is committed and no reset is pending, the store a later boot
    opens holds for every key of every Signal namespace exactly what the
    store before it held, and the same device. *)
Theorem reboot_preserves_data s d w' s' :
  sinv s -> (forall n, duv s n = flv s n) -> flv s NsControl !! bs "reset" = None ->
  device_of (flv s NsDevice) = Some d ->
  open true (fs_nvs (flash_state s)) = (w', Ok s') ->
  device (inner s') = Some d /\ sinv s' /\
  forall n k, logical (flv s' n) k = logical (flv s n) k /\ agrees s' n k.
Proof.
  intros Hi Hs Hr Hd Ho.
  assert (Hm : image_ok (durable (fs_nvs (flash_state s)))).
  { apply synced_image; [done..|]. intros b. by rewrite Hr. }
  unfold open in Ho. pose proof (open_flash_spec _ Hm) as Hspec. unfold wp in Hspec.
  destruct (open_flash _) as [g [i|e]]; [|done]. injection Ho as <- <-.
  destruct Hspec as [I A L K _ _].
  assert (Hk : forall n, fl g n = flv s n).
  { intros n. rewrite <- Hs. apply K; [change (duv s NsControl !! bs "reset" = None); by rewrite Hs|].
    change (device_of (Device := Device) (duv s NsDevice) <> None). rewrite Hs. congruence. }
  split_and!; [|done|].
  - specialize (A NsDevice []). unfold agrees, agree, flv in A. cbn in A.
    cbn. by rewrite A, Hk.
  - intros n k. split; [|done]. unfold flv at 1. cbn. by rewrite Hk.
Qed.

(** C3. A factory reset is all or nothing across a power loss.  Wherever
    [reset_all] stops, because it finished, failed, or lost power, the next
    successful boot starts either from a blank device (nothing of the device
    or of Signal is left) or from everything that was durable before the
    reset; after a reset that reported success it is always the blank one. *)
Theorem factory_reset_is_atomic (f : fstate W) :
  finv f -> image_ok (durable (fs_nvs f)) -> du f NsControl !! bs "reset" = None ->
  (forall b, fl f NsControl !! bs "reset" = Some b -> len b <= 1) ->
  wp reset_all (fun r g => forall h i,
    open_flash (FState (fs_nvs g) SessionSlots.new) = (h, Ok i) ->
    (i = inner_default /\ (forall n, n ∈ signal_namespaces -> fl h n = ∅)) \/
    (is_ok r = false /\ forall n, n ∈ reset_namespaces -> fl h n = du f n)) f.
Proof.
  intros Hf Hm Hnm Hfm. wp_use reset_all_spec. intros r g [Hg _] h i Ho.
  assert (Hsub := ro_sub _ _ _ Hg).
  assert (Him : image_ok (durable (fs_nvs g))).
  { split.
    - intros n Hn. by apply (fi_durable _ (ro_inv _ _ _ Hg Hf) n Hn).
    - intros n Hn. destruct (Hsub n) as [_ Hd]; [by right|].
      apply subseteq_dom, subseteq_size in Hd. rewrite !size_dom in Hd.
      pose proof (im_size _ Hm n Hn). lia.
    - destruct (Hsub NsDevice) as [_ Hd]; [by left|]. intros x Hx. apply (im_device _ Hm).
      by eapply lookup_weaken.
    - intros b Hb. destruct (ro_durable _ _ _ Hg b Hb) as [->|[E|E]]; [done|congruence|by apply Hfm]. }
  pose proof (open_flash_spec _ Him) as Hspec. unfold wp in Hspec. rewrite Ho in Hspec.
  destruct Hspec as [_ _ _ K R O].
  assert (Hblank : (forall n, n ∈ reset_namespaces -> blank n h) ->
    forall n, n ∈ signal_namespaces -> fl h n = ∅).
  { intros Hb n Hn. apply Hb. by right. }
  destruct (durable (fs_nvs g) NsControl !! bs "reset") as [b|] eqn:Emark.
  { destruct R as (-> & Hb & _); [by eexists|]. left. split; [done|by apply Hblank]. }
  destruct (device_of (durable (fs_nvs g) NsDevice)) as [d|] eqn:Ed.
  2: { destruct O as [-> Hb]; [done..|]. by left. }
  assert (Hk : forall n, fl h n = du g n) by (apply K; congruence).
  assert (Hnb : ~ blank NsDevice g).
  { intros [_ Hd]. unfold device_of in Ed. change (durable (fs_nvs g) NsDevice) with (du g NsDevice) in Ed.
    by rewrite Hd, lookup_empty in Ed. }
  assert (HnotOk : is_ok r = false).
  { destruct (is_ok r) eqn:Er; [|done]. destruct (ro_ok _ _ _ Hg eq_refl) as (Hb & _).
    destruct Hnb. apply Hb. by left. }
  right. split; [done|]. intros n Hn. rewrite Hk.
  destruct (ro_crash _ _ _ Hg) as [Hc|[Hc|Hc]].
  - by apply Hc.
  - congruence.
  - destruct Hnb. apply Hc. by left.
Qed.

(** ** Listings *)

Lemma string_ns n : n = NsSessions \/ n = NsIdentities -> n ∈ signal_namespaces.
Proof using Type. unfold signal_namespaces. intros [-> | ->]; repeat constructor. Qed.

(** [list_sessions] lists the persisted sessions: each address that has
    a session on flash, once, and no other, whether or not the mirror holds
    it; with a coherent store it fails only with the medium. *)
Theorem list_sessions_is_persisted s :
  sinv s -> (forall a, agrees s NsSessions a) ->
  wp list_sessions (fun r t =>
    match r with
    | Ok l => NoDup l /\ forall a, a ∈ l <-> is_Some (logical (flv s NsSessions) a)
    | Err e => is_io e
    end) s.
Proof.
  intros Hi Ha. unfold list_sessions. destruct has_psram eqn:P.
  - apply wp_look. split; [apply NoDup_fst_map_to_list|]. intros a. specialize (Ha a).
    unfold agrees, agree, answers in Ha. rewrite P in Ha. rewrite <- Ha.
    rewrite list_elem_of_fmap. split.
    + intros ([k v] & -> & Hin). apply elem_of_map_to_list in Hin. by eexists.
    + intros [v Hv]. exists (a, v). split; [done|]. by apply elem_of_map_to_list.
  - apply wp_run; [by eexists|].
    wp_use namespace_addresses_spec; [apply Hi, string_ns; auto|by intros k v; apply string_keys; left|].
    intros [l|e] f [_ Hr]; [|done]. destruct Hr as (rs & -> & Hl). split; [apply Hl|].
    intros a. rewrite list_elem_of_fmap. split.
    + intros ([k v] & -> & Hin). apply Hl in Hin. by eexists.
    + intros [v Hv]. exists (a, v). split; [done|]. by apply Hl.
Qed.

(** [user@server] and [user:device@server]. *)
Definition address_of (u a : bytes) : Prop :=
  exists rest, a = u ++ bs "@" ++ rest \/ a = u ++ bs ":" ++ rest.

Lemma address_matches_true a u : address_matches a u = true <-> address_of u a.
Proof using Type.
  unfold address_matches, address_of. destruct (strip_prefix u a) as [rest|] eqn:E.
  - apply strip_prefix_Some in E. subst a. rewrite orb_true_iff, !starts_with_true.
    split; intros H; [destruct H as [[r ->]|[r ->]]; eauto|].
    destruct H as [r [H|H]]; apply app_inv_head in H; subst rest; eauto.
  - split; [done|]. intros [rest [-> | ->]].
    + assert (H : strip_prefix u (u ++ bs "@" ++ rest) = Some (bs "@" ++ rest)) by by apply strip_prefix_Some.
      congruence.
    + assert (H : strip_prefix u (u ++ bs ":" ++ rest) = Some (bs ":" ++ rest)) by by apply strip_prefix_Some.
      congruence.
Qed.

Lemma any_address l u :
  existsb (fun a => address_matches a u) l = true <-> exists a, a ∈ l /\ address_of u a.
Proof using Type.
  rewrite existsb_exists. setoid_rewrite address_matches_true. by setoid_rewrite <- list_elem_of_In.
Qed.

(** A user has Signal state: a persisted session or identity under one of
    the user's addresses. *)
Definition has_state s (u : bytes) : Prop := exists n a,
  (n = NsSessions \/ n = NsIdentities) /\ address_of u a /\ is_Some (logical (flv s n) a).

Lemma mirrored_state {V} (m : gmap bytes V) n u s :
  (n = NsSessions \/ n = NsIdentities) ->
  (forall a, is_Some (m !! a) -> is_Some (logical (flv s n) a)) ->
  existsb (fun a => address_matches a u) (map_to_list m).*1 = true -> has_state s u.
Proof using Type.
  intros Hn Hm (a & Hin & Ha)%any_address. exists n, a. split_and!; [done..|]. apply Hm.
  apply list_elem_of_fmap in Hin as ([k v] & -> & Hin). apply elem_of_map_to_list in Hin. by eexists.
Qed.

Lemma unmirrored_state {V} (m : gmap bytes V) a u :
  is_Some (m !! a) -> address_of u a -> existsb (fun a => address_matches a u) (map_to_list m).*1 = true.
Proof using Type.
  intros [v Hv] Ha. apply any_address. exists a. split; [|done]. apply list_elem_of_fmap.
  exists (a, v). split; [done|]. by apply elem_of_map_to_list.
Qed.

(** [has_signal_state_for_user] is exact: on a coherent store it
    answers whether flash holds a session or an identity under an address of
    that user ([user@..] or [user:..], so no longer user id with the same
    prefix counts), even for records the mirrors have evicted. *)
Theorem has_signal_state_is_exact u s :
  sinv s -> (forall n a, agrees s n a) ->
  wp (has_signal_state_for_user u) (fun r t =>
    match r with Ok b => b = true <-> has_state s u | Err e => is_io e end) s.
Proof.
  intros Hi Ha. unfold has_signal_state_for_user. wp_step. apply wp_look.
  assert (HS := fun a => Ha NsSessions a). assert (HI := fun a => Ha NsIdentities a).
  unfold agrees, agree, answers in HS, HI.
  destruct (existsb _ (map_to_list (sessions _)).*1) eqn:E1; cbn [orb].
  { wp_step. split; [intros _|done]. eapply (mirrored_state _ NsSessions); [by left| |exact E1].
    intros a [v Hv]. specialize (HS a). destruct has_psram; [by rewrite <- HS, Hv|].
    by rewrite (HS v Hv). }
  destruct (existsb _ (map_to_list (identities _)).*1) eqn:E2.
  { wp_step. split; [intros _|done]. eapply (mirrored_state _ NsIdentities); [by right| |exact E2].
    intros a [v Hv]. specialize (HI a). destruct has_psram; [by rewrite <- HI, Hv|].
    by rewrite (HI v Hv). }
  destruct has_psram eqn:P.
  { wp_step. split; [done|]. intros (n & a & [-> | ->] & Hu & Hl).
    - rewrite <- HS in Hl. by rewrite (unmirrored_state _ a u Hl Hu) in E1.
    - rewrite <- HI in Hl. by rewrite (unmirrored_state _ a u Hl Hu) in E2. }
  wp_step. apply wp_run; [by eexists|]. wp_step.
  wp_use namespace_addresses_spec; [apply Hi, string_ns; auto|by intros k v; apply string_keys; left|].
  intros [l1|e] f [Hq H1]; [|done]. destruct H1 as (r1 & -> & Hl1). wp_step.
  assert (Hf : fl f NsIdentities = flv s NsIdentities) by apply (unchanged_flash _ _ _ (proj1 Hq)).
  wp_use namespace_addresses_spec; [rewrite Hf; apply Hi, string_ns; auto|by intros k v; apply string_keys; right|].
  intros [l2|e] g [_ H2]; [|done]. destruct H2 as (r2 & -> & Hl2). rewrite Hf in Hl2.
  do 2 wp_step. rewrite any_address. split.
  - intros (a & [Hin|Hin]%elem_of_app & Hu); apply list_elem_of_fmap in Hin as ([k v] & -> & Hin).
    + exists NsSessions, k. apply Hl1 in Hin. split_and!; [by left|done|by eexists].
    + exists NsIdentities, k. apply Hl2 in Hin. split_and!; [by right|done|by eexists].
  - intros (n & a & [-> | ->] & Hu & [v Hv]); exists a; (split; [|done]); apply elem_of_app.
    + left. apply list_elem_of_fmap. exists (a, v). split; [done|]. by apply Hl1.
    + right. apply list_elem_of_fmap. exists (a, v). split; [done|]. by apply Hl2.
Qed.
End Theorems.

(** ** Witnesses: a board without PSRAM and a working partition *)

Section Witnesses.
#[local] Existing Instance pad_sha.
#[local] Existing Instance plain_wacore.
#[local] Existing Instance plain_laws.
#[local] Instance no_psram : Board := false.

(** A day of use: pairing writes, then messages. *)
Definition day : list op :=
  [SaveDevice (bs "device"); PutIdentity (bs "alice@s") (replicate 32 x41);
   PutSession (bs "alice@s") (bs "ratchet"); StorePrekey 7 (bs "pk");
   SetSyncKey (bs "k1") (bs "1"); GetSession (bs "alice@s"); LoadIdentity (bs "bob@s");
   DeleteSession (bs "carol@s")].

Lemma day_ok : Forall op_ok day.
Proof. repeat constructor. Qed.

Definition used : store mem := run_ops day (blank_store [] Works).

Lemma day_unharmed n k : unharmed n k day (blank_store [] Works).
Proof. cbn [day unharmed]. repeat (split; [intros _; left; by vm_compute|]). done. Qed.

Lemma used_agrees n k : agrees used n k.
Proof.
  exact (run_ops_agrees day (blank_store [] Works) n k day_ok (blank_sinv _ _) (blank_agrees _ _ _ _)
    (day_unharmed n k)).
Qed.

Lemma used_sinv : sinv used.
Proof. apply run_ops_sinv; [exact day_ok|apply blank_sinv]. Qed.

Lemma store_invariant_always_witness :
  sessions (inner used) = ∅ /\ Z.of_nat (size (flv used NsSessions)) = 1.
Proof.
  destruct (store_invariant_always day (blank_store [] Works) day_ok (blank_sinv _ _)) as (_ & _ & H).
  split; [by apply H|by vm_compute].
Defined.

Lemma mirrors_coherent_always_witness :
  agrees used NsIdentities (bs "alice@s") /\
  logical (flv used NsIdentities) (bs "alice@s") = Some (replicate 32 x41).
Proof.
  split; [|by vm_compute].
  destruct (mirrors_coherent_always day (blank_store [] Works) NsIdentities (bs "alice@s") day_ok
    (blank_sinv _ _)) as [H _].
  exact (H (blank_agrees _ _ _ _) (day_unharmed _ _)).
Defined.

Lemma session_read_your_write_witness :
  (put_session (bs "bob@s") (bs "v2") used).2 = Ok tt /\
  logical (duv (put_session (bs "bob@s") (bs "v2") used).1 NsSessions) (bs "bob@s") = Some (bs "v2").
Proof.
  assert (H := session_read_your_write (bs "bob@s") (bs "v2") used used_sinv eq_refl).
  apply wp_result in H. split; [by vm_compute|]. apply H. by vm_compute.
Defined.

Lemma sealed_store_is_frozen_witness :
  let sealed := step used SealWrites in
  unchanged (flash_state sealed) (flash_state (run_ops [DeleteSession (bs "alice@s")] sealed)).
Proof.
  apply (sealed_store_is_frozen [DeleteSession (bs "alice@s")] used);
    [by repeat constructor|by repeat constructor|exact used_sinv].
Defined.

Lemma sync_key_marker_first_witness :
  latest_of (du (write_sync_key (bs "k2") (bs "2") (flash_state used)).1 NsControl) = Some (bs "k2").
Proof.
  assert (H := sync_key_marker_first (bs "k2") (bs "2") (flash_state used) (si_flash _ used_sinv)
    ltac:(by eexists)).
  apply wp_result in H. destruct H as (_ & H & _). apply H. by vm_compute.
Defined.

Lemma used_synced n : duv used n = flv used n.
Proof. destruct n; apply (bool_decide_unpack _); by vm_compute. Qed.

Lemma used_image : image_ok (durable (fs_nvs (flash_state used))).
Proof. apply (synced_image used); [exact used_sinv|exact used_synced|]. intros b. by vm_compute. Qed.

Lemma open_rebuilds_store_witness :
  match (open true (fs_nvs (flash_state used))).2 with
  | Ok s => sinv s /\ device (inner s) = Some (bs "device")
  | Err _ => False
  end.
Proof.
  assert (Him := used_image).
  destruct (open true (fs_nvs (flash_state used))) as [w' r] eqn:E.
  assert (H := open_rebuilds_store true (fs_nvs (flash_state used)) w' r Him E).
  assert (Hr : is_ok (open true (fs_nvs (flash_state used))).2 = true) by by vm_compute.
  rewrite E in Hr. destruct r as [s|e]; [|done]. destruct H as (H1 & _ & _ & _ & H2).
  split; [done|]. assert (Hd : device_of (Device := Device) (durable (fs_nvs (flash_state used)) NsDevice) = Some (bs "device"))
    by by vm_compute. rewrite Hd in H2. apply H2. by vm_compute.
Defined.

Lemma reboot_preserves_data_witness :
  match (open true (fs_nvs (flash_state used))).2 with
  | Ok s => logical (flv s NsSessions) (bs "alice@s") = Some (bs "ratchet")
  | Err _ => False
  end.
Proof.
  destruct (open true (fs_nvs (flash_state used))) as [w' [s|e]] eqn:E.
  - destruct (reboot_preserves_data used (bs "device") w' s used_sinv used_synced) as (_ & _ & H);
      [by vm_compute|by vm_compute|done|].
    change (logical (flv s NsSessions) (bs "alice@s") = Some (bs "ratchet")).
    destruct (H NsSessions (bs "alice@s")) as [-> _]. by vm_compute.
  - assert (Hr : is_ok (open true (fs_nvs (flash_state used))).2 = true) by by vm_compute.
    by rewrite E in Hr.
Defined.

(** Power is lost after the marker and the device are gone, before the
    sessions are. *)
Definition dying_from (f : fstate mem) : fstate mem :=
  FState (Mem (mem_flash (fs_nvs f)) (mem_durable (fs_nvs f)) (replicate 4 Works ++ [FailsBefore]) Works) [].
Definition dying : fstate mem := dying_from (flash_state used).

Lemma dying_from_finv f : finv f -> finv (dying_from f).
Proof. intros [Hf Hd _ _]. split; [exact Hf|exact Hd|apply SessionSlots.wf_new|constructor]. Qed.

Lemma dying_from_image f : image_ok (durable (fs_nvs f)) -> image_ok (durable (fs_nvs (dying_from f))).
Proof. done. Qed.

Lemma factory_reset_is_atomic_witness :
  let f := (reset_all dying).1 in
  is_ok (reset_all dying).2 = false /\ size (fl f NsSessions) = 1%nat /\
  match open_flash (FState (fs_nvs f) SessionSlots.new) with
  | (h, Ok i) => fl h NsSessions = ∅
  | _ => False
  end.
Proof.
  assert (H := factory_reset_is_atomic dying (dying_from_finv _ (si_flash _ used_sinv))
    (dying_from_image _ used_image)
    ltac:(by vm_compute) ltac:(intros b; by vm_compute)).
  apply wp_result in H. cbn zeta. split; [by vm_compute|]. split; [by vm_compute|].
  assert (Ho : is_ok (open_flash (FState (fs_nvs (reset_all dying).1) SessionSlots.new)).2 = true)
    by by vm_compute.
  assert (Hd : size (fl (open_flash (FState (fs_nvs (reset_all dying).1) SessionSlots.new)).1 NsDevice) = 0%nat)
    by by vm_compute.
  destruct (open_flash (FState (fs_nvs (reset_all dying).1) SessionSlots.new)) as [h [i|e]] eqn:E; [|done].
  destruct (H h i eq_refl) as [[_ Hb]|[_ Hk]].
  - apply Hb. apply (bool_decide_unpack _). by vm_compute.
  - cbn in Hd. rewrite Hk in Hd by by left. exfalso. revert Hd. by vm_compute.
Defined.

Lemma list_sessions_is_persisted_witness :
  match (list_sessions used).2 with Ok l => bs "alice@s" ∈ l | Err _ => False end.
Proof.
  assert (H := list_sessions_is_persisted used used_sinv). apply wp_result in H.
  - assert (Hr : is_ok (list_sessions used).2 = true) by by vm_compute.
    destruct ((list_sessions used).2) as [l|e]; [|done]. apply H. exists (bs "ratchet"). by vm_compute.
  - intros a. apply used_agrees.
Defined.

Lemma has_signal_state_is_exact_witness :
  (has_signal_state_for_user (bs "alice") used).2 = Ok true /\ has_state used (bs "alice").
Proof.
  assert (H := has_signal_state_is_exact (bs "alice") used used_sinv used_agrees). apply wp_result in H.
  assert (Hr : (has_signal_state_for_user (bs "alice") used).2 = Ok true) by by vm_compute.
  split; [done|]. rewrite Hr in H. by apply H.
Defined.
End Witnesses.
