(* ===== verification/StoreRamTheorems.v ===== *)
(** * What the RAM-only traits guarantee *)

From S2P Require Import Prelude RustStr Nvs NvsMem Record Lru Flash Platform StoreInner Store StoreRam Concrete.
(** ** Trusted-contact tokens *)

(** The two writers of a token row: issuance moves the sender bucket, a
    notification delivers a token. *)
Inductive tc_event : Type :=
| Touch (ts : Z)
| Receive (tok : bytes) (ts : Z).

#[global] Instance tc_event_eq_dec : EqDecision tc_event.
Proof. solve_decision. Defined.

Definition tc_apply (o : option TcTokenEntry) (e : tc_event) : option TcTokenEntry :=
  match e with
  | Touch ts => Some (touch_entry ts o)
  | Receive tok ts => Some (receive_entry tok ts o)
  end.

(** What the row says: the token held, if any, with its time, and the sender
    bucket. *)
Definition tc_view (o : option TcTokenEntry) : option (bytes * Z) * option Z :=
  match o with
  | Some e => (if bool_decide (token e = []) then None else Some (token e, token_timestamp e),
               sender_timestamp e)
  | None => (None, None)
  end.

Definition max_opt (o : option Z) (ts : Z) : option Z :=
  Some (match o with Some x => Z.max x ts | None => ts end).
Definition newer (o : option (bytes * Z)) (tok : bytes) (ts : Z) : option (bytes * Z) :=
  match o with
  | Some (t, x) => if ts <? x then Some (t, x) else Some (tok, ts)
  | None => Some (tok, ts)
  end.
Definition tc_step (v : option (bytes * Z) * option Z) (e : tc_event) : option (bytes * Z) * option Z :=
  match e with
  | Touch ts => (v.1, max_opt v.2 ts)
  | Receive tok ts => (newer v.1 tok ts, v.2)
  end.

Definition real_token (e : tc_event) : Prop :=
  match e with Touch _ => True | Receive tok _ => tok <> [] end.

Lemma tc_view_apply o e : real_token e -> tc_view (tc_apply o e) = tc_step (tc_view o) e.
Proof.
  destruct e as [ts|tok ts]; intros He; cbn [tc_apply tc_step tc_view real_token] in *.
  - destruct o as [e|]; cbn; [|done]. unfold max_opt. by destruct (sender_timestamp e).
  - destruct o as [e|]; cbn.
    + unfold receive_entry. destruct (bool_decide_reflect (token e = [])) as [Ht|Ht]; cbn [negb andb].
      * cbn. by rewrite (bool_decide_false (tok = [])).
      * unfold newer. destruct (ts <? token_timestamp e) eqn:E; cbn.
        -- by rewrite (bool_decide_false (token e = [])).
        -- by rewrite (bool_decide_false (tok = [])).
    + by rewrite (bool_decide_false (tok = [])).
Qed.

Lemma tc_view_fold es o :
  Forall real_token es -> tc_view (foldl tc_apply o es) = foldl tc_step (tc_view o) es.
Proof.
  intros H. revert o. induction H as [|e es He _ IH]; intros o; [done|]. cbn.
  by rewrite IH, tc_view_apply.
Qed.

(** Two deliveries at the same instant carry the same token. *)
Definition tc_compatible (e1 e2 : tc_event) : Prop :=
  match e1, e2 with
  | Receive tok1 ts1, Receive tok2 ts2 => ts1 = ts2 -> tok1 = tok2
  | _, _ => True
  end.

Lemma newer_comm o t1 x1 t2 x2 :
  (x1 = x2 -> t1 = t2) -> newer (newer o t1 x1) t2 x2 = newer (newer o t2 x2) t1 x1.
Proof.
  intros H. unfold newer. destruct o as [[t x]|]; repeat zcase; try done; try lia;
    (assert (x1 = x2) as E by lia; by rewrite (H E), E).
Qed.

Lemma max_opt_comm o a b : max_opt (max_opt o a) b = max_opt (max_opt o b) a.
Proof. unfold max_opt. destruct o; f_equal; lia. Qed.

Lemma tc_step_comm v e1 e2 :
  tc_compatible e1 e2 -> tc_step (tc_step v e1) e2 = tc_step (tc_step v e2) e1.
Proof.
  destruct e1, e2; cbn; intros H; try done.
  - by rewrite max_opt_comm.
  - by rewrite newer_comm.
Qed.

Lemma tc_fold_perm es es' v :
  es ≡ₚ es' -> (forall e1 e2, e1 ∈ es -> e2 ∈ es -> tc_compatible e1 e2) ->
  foldl tc_step v es = foldl tc_step v es'.
Proof.
  intros Hp. revert v. induction Hp as [|e es es' Hp IH|e1 e2 es|es1 es2 es3 H1 IH1 H2 IH2]; intros v Hc.
  - done.
  - cbn. apply IH. intros. apply Hc; by right.
  - cbn. rewrite tc_step_comm; [done|]. apply Hc; [by left|right; by left].
  - rewrite IH1 by done. apply IH2. intros. apply Hc; by rewrite H1.
Qed.

(** ** What the row says after any events: the newest of the tokens and the
    latest of the buckets, those of the row before among them. *)

Definition received (o : option (bytes * Z)) (es : list tc_event) (tok : bytes) (ts : Z) : Prop :=
  o = Some (tok, ts) \/ Receive tok ts ∈ es.
Definition touched (o : option Z) (es : list tc_event) (ts : Z) : Prop := o = Some ts \/ Touch ts ∈ es.

Definition newest (o : option (bytes * Z)) (es : list tc_event) (r : option (bytes * Z)) : Prop :=
  match r with
  | None => forall tok ts, ~ received o es tok ts
  | Some (tok, ts) => received o es tok ts /\ forall tok' ts', received o es tok' ts' -> ts' <= ts
  end.
Definition latest (o : option Z) (es : list tc_event) (r : option Z) : Prop :=
  match r with
  | None => forall ts, ~ touched o es ts
  | Some ts => touched o es ts /\ forall ts', touched o es ts' -> ts' <= ts
  end.

Lemma received_snoc o es e tok ts : received o (es ++ [e]) tok ts <-> received o es tok ts \/ e = Receive tok ts.
Proof. unfold received. rewrite elem_of_app, list_elem_of_singleton. naive_solver. Qed.
Lemma touched_snoc o es e ts : touched o (es ++ [e]) ts <-> touched o es ts \/ e = Touch ts.
Proof. unfold touched. rewrite elem_of_app, list_elem_of_singleton. naive_solver. Qed.

Lemma newest_nil o : newest o [] o.
Proof.
  destruct o as [[t x]|]; [split; [by left|]|]; intros t' x' [Ho|H%elem_of_nil]; try done. by injection Ho as -> ->.
Qed.
Lemma latest_nil o : latest o [] o.
Proof. destruct o as [x|]; [split; [by left|]|]; intros x' [Ho|H%elem_of_nil]; try done. by injection Ho as ->. Qed.

Lemma newest_snoc o es r e : newest o es r ->
  newest o (es ++ [e]) (match e with Receive tok ts => newer r tok ts | Touch _ => r end).
Proof.
  unfold newest. intros Hr. destruct e as [u|tok u], r as [[t x]|]; cbn [newer]; try zcase;
    setoid_rewrite received_snoc; try naive_solver.
  - destruct Hr as [Hr Hm]. split; [auto|]. intros t' x' [Ho|[= -> ->]]; [by eapply Hm|lia].
  - destruct Hr as [Hr Hm]. split; [auto|]. intros t' x' [Ho|[= -> ->]]; [apply Hm in Ho|]; lia.
Qed.

Lemma latest_snoc o es r e : latest o es r ->
  latest o (es ++ [e]) (match e with Touch ts => max_opt r ts | Receive _ _ => r end).
Proof.
  unfold latest. intros Hr. destruct e as [u|tok u], r as [x|]; cbn [max_opt]; setoid_rewrite touched_snoc; try naive_solver.
  - destruct Hr as [Hr Hm]. split; [destruct (Z.max_spec x u) as [[_ ->]|[_ ->]]; auto|].
    intros x' [Ho|[= ->]]; [apply Hm in Ho|]; lia.
Qed.

Lemma tc_fold_extremes v es : newest v.1 es (foldl tc_step v es).1 /\ latest v.2 es (foldl tc_step v es).2.
Proof.
  induction es as [|e es [IH1 IH2]] using rev_ind.
  - split; [apply newest_nil|apply latest_nil].
  - rewrite foldl_app. cbn [foldl]. apply (newest_snoc _ _ _ e) in IH1. apply (latest_snoc _ _ _ e) in IH2.
    by destruct e.
Qed.

Section Tokens.
Context {W : Type} `{wacore : Wacore}.
Implicit Types (s : store W).

(** The methods of the store, for one contact. *)
Definition tc_method (jid : bytes) (e : tc_event) : M (store W) StoreError unit :=
  match e with
  | Touch ts => touch_tc_token_sender_timestamp jid ts
  | Receive tok ts => store_received_tc_token jid tok ts
  end.
Definition tc_run (jid : bytes) (es : list tc_event) s : store W := foldl (fun s e => (tc_method jid e s).1) s es.
Definition tc_row (jid : bytes) s : option (bytes * Z) * option Z := tc_view (tc_tokens (inner s) !! jid).

Lemma tc_run_row jid es : forall s, tc_tokens (inner (tc_run jid es s)) !! jid = foldl tc_apply (tc_tokens (inner s) !! jid) es.
Proof.
  induction es as [|e es IH]; intros s; [done|]. unfold tc_run in *. cbn [foldl]. rewrite IH. f_equal.
  destruct e; cbn; apply lookup_insert_eq.
Qed.
Lemma tc_run_other jid k es : jid <> k -> forall s, tc_tokens (inner (tc_run jid es s)) !! k = tc_tokens (inner s) !! k.
Proof.
  intros Hn. induction es as [|e es IH]; intros s; [done|]. unfold tc_run in *. cbn [foldl]. rewrite IH.
  destruct e; cbn; by apply lookup_insert_ne.
Qed.

(** C35. Trusted-contact tokens converge to the newest.  Issuance and
    notifications may arrive in any order.  After any calls of
    [touch_tc_token_sender_timestamp] and [store_received_tc_token] for a
    contact, with real tokens: the row holds the newest of the tokens received
    (the one it had before among them) with its time, and the latest of the
    sender buckets, and has one only if there was one; neither method drops
    what the other wrote; no other contact's row changes; and if no two
    tokens of an instant differ, any other order of the same calls leaves the
    same row. *)
Theorem tc_tokens_converge jid es s :
  Forall real_token es ->
  let before := tc_row jid s in
  let after := tc_row jid (tc_run jid es s) in
  newest before.1 es after.1 /\ latest before.2 es after.2 /\
  (forall k, jid <> k -> tc_tokens (inner (tc_run jid es s)) !! k = tc_tokens (inner s) !! k) /\
  (forall es', es ≡ₚ es' -> (forall e1 e2, e1 ∈ es -> e2 ∈ es -> tc_compatible e1 e2) ->
     tc_row jid (tc_run jid es' s) = after).
Proof.
  intros Hr before after. subst before after. unfold tc_row. rewrite tc_run_row, tc_view_fold by done.
  destruct (tc_fold_extremes (tc_view (tc_tokens (inner s) !! jid)) es) as [Hn Hl]. split_and!; [done|done| |].
  - intros k Hk. by apply tc_run_other.
  - intros es' Hp Hc. rewrite tc_run_row, tc_view_fold by by rewrite <- Hp. symmetry. by apply tc_fold_perm.
Qed.
End Tokens.

Lemma tc_tokens_converge_witness :
  let s0 := @blank_store plain_wacore [] Works in
  let es := [Touch 5; Receive (bs "new") 9; Touch 3; Receive (bs "old") 7] in
  tc_row (bs "them") (tc_run (bs "them") es s0) = (Some (bs "new", 9), Some 5) /\
  tc_row (bs "them") (tc_run (bs "them") [Receive (bs "old") 7; Touch 3; Touch 5; Receive (bs "new") 9] s0) =
  tc_row (bs "them") (tc_run (bs "them") es s0).
Proof.
  intros s0 es. split; [by vm_compute|]. subst es.
  refine (proj2 (proj2 (proj2 (tc_tokens_converge (bs "them") _ s0 _))) _ _ _).
  - by repeat constructor.
  - by apply (bool_decide_unpack _).
  - intros e1 e2 H1 H2. rewrite !elem_of_cons in H1, H2.
    destruct H1 as [->|[->|[->|[->|H1]]]], H2 as [->|[->|[->|[->|H2]]]]; try done;
      by apply not_elem_of_nil in H1 || apply not_elem_of_nil in H2.
Defined.

(** ** Sent messages *)

Lemma app_sep_inj (c : byte) (a1 b1 a2 b2 : bytes) :
  ~ c ∈ b1 -> ~ c ∈ b2 -> a1 ++ c :: b1 = a2 ++ c :: b2 -> a1 = a2 /\ b1 = b2.
Proof.
  intros H1 H2. revert a2. induction a1 as [|x a1 IH]; intros [|y a2] E; cbn in E; simplify_eq.
  - done.
  - set_solver.
  - set_solver.
  - destruct (IH a2) as [-> ->]; done.
Qed.

Lemma composite_key_inj a1 b1 a2 b2 :
  ~ x3a ∈ b1 -> ~ x3a ∈ b2 -> composite_key a1 b1 = composite_key a2 b2 -> a1 = a2 /\ b1 = b2.
Proof. unfold composite_key. cbn. apply app_sep_inj. Qed.

(** Methods that touch the sent messages. *)
Inductive sent_op : Type :=
| StoreSent (now : Z) (chat_jid message_id payload : bytes)
| TakeSent (chat_jid message_id : bytes).

(** [o] is about another message than [(chat_jid, message_id)]; message ids
    hold no colon, chat JIDs may. *)
Definition about_other (chat_jid message_id : bytes) (o : sent_op) : Prop :=
  match o with
  | StoreSent _ c m _ | TakeSent c m => ~ x3a ∈ m /\ (c, m) <> (chat_jid, message_id)
  end.

Section Sent.
Context {W : Type} `{wacore : Wacore}.
Implicit Types (s : store W).

Definition sent_step s (o : sent_op) : store W :=
  match o with
  | StoreSent now c m p => (store_sent_message now c m p s).1
  | TakeSent c m => (take_sent_message c m s).1
  end.
Definition sent_run (os : list sent_op) s : store W := foldl sent_step s os.

Definition sent_at s (chat_jid message_id : bytes) : option (bytes * Z) :=
  sent_messages (inner s) !! composite_key chat_jid message_id.

Lemma take_sent_result s c m : (take_sent_message c m s).2 = Ok (fst <$> sent_at s c m).
Proof. done. Qed.

Lemma take_sent_at s c m : sent_at (take_sent_message c m s).1 c m = None.
Proof. unfold sent_at. cbn. apply lookup_delete_eq. Qed.

Lemma store_sent_at s now c m p : sent_at (store_sent_message now c m p s).1 c m = Some (p, now).
Proof. unfold sent_at. cbn. apply lookup_insert_eq. Qed.

Lemma sent_run_other os s c m :
  ~ x3a ∈ m -> Forall (about_other c m) os -> sent_at (sent_run os s) c m = sent_at s c m.
Proof.
  intros Hm H. revert s. induction H as [|o os Ho _ IH]; intros s; [done|].
  unfold sent_run in *. cbn. rewrite IH. unfold sent_at.
  destruct o as [now c' m' p|c' m']; destruct Ho as [Hm' Hne]; cbn;
    (rewrite lookup_insert_ne || rewrite lookup_delete_ne); try done;
    intros E; apply Hne; destruct (composite_key_inj c' m' c m) as [-> ->]; done.
Qed.

(** A sent message is retried from exactly once.  Whatever happens to
    other messages in between, [take_sent_message] gives the payload that
    was stored for this chat and id; a second take, again whatever happens
    to other messages, finds nothing.  The joined key
    ["chat:id"] keeps messages apart because an id holds no colon. *)
Theorem sent_message_taken_once os1 os2 s now chat_jid message_id payload :
  ~ x3a ∈ message_id ->
  Forall (about_other chat_jid message_id) os1 -> Forall (about_other chat_jid message_id) os2 ->
  let s1 := sent_run os1 (store_sent_message now chat_jid message_id payload s).1 in
  (take_sent_message chat_jid message_id s1).2 = Ok (Some payload) /\
  (take_sent_message chat_jid message_id
     (sent_run os2 (take_sent_message chat_jid message_id s1).1)).2 = Ok None.
Proof.
  intros Hm H1 H2 s1. rewrite !take_sent_result. subst s1.
  rewrite !sent_run_other, store_sent_at, take_sent_at by done. done.
Qed.
End Sent.

Lemma sent_message_taken_once_witness :
  let s0 := @blank_store plain_wacore [] Works in
  let s1 := sent_run [StoreSent 9 (bs "1:2@s") (bs "B") (bs "other"); TakeSent (bs "1") (bs "A")]
              (store_sent_message 7 (bs "1:2@s") (bs "A") (bs "hello") s0).1 in
  (take_sent_message (bs "1:2@s") (bs "A") s1).2 = Ok (Some (bs "hello")).
Proof.
  pose (os := [StoreSent 9 (bs "1:2@s") (bs "B") (bs "other"); TakeSent (bs "1") (bs "A")]).
  assert (Hos : Forall (about_other (bs "1:2@s") (bs "A")) os).
  { repeat constructor; (by apply (bool_decide_unpack _)) || done. }
  assert (Hc : ~ x3a ∈ bs "A") by by apply (bool_decide_unpack _).
  intros s0 s1.
  destruct (@sent_message_taken_once mem plain_wacore os [] s0 7 _ _ (bs "hello") Hc Hos (Forall_nil_2 _)) as [H _].
  exact H.
Defined.
