(* ===== verification/Io.v ===== *)
(** * [std::io] as the network code uses it

    [Read] and [Write] as classes over the stream's own state, with their
    documented contract as laws, the loops the client code builds on them,
    and a scripted peer as a concrete instance. *)

From S2P Require Import Prelude.
(** [io::ErrorKind], as far as the source tells kinds apart. *)
Inductive ErrorKind := WouldBlock | TimedOut | Interrupted | UnexpectedEof | InvalidData | OtherKind.
#[global] Instance error_kind_eq_dec : EqDecision ErrorKind.
Proof. solve_decision. Defined.

Record io_error := IoError {
  error_kind : ErrorKind;
  error_text : bytes;
}.

(** [Read::read] into a buffer of [n] bytes: the bytes it wrote there. *)
Class Reader (R : Type) := read : Z -> M R io_error bytes.

(** [Write::write_all] and [Write::flush]. *)
Class Writer (W : Type) := {
  write_all : bytes -> M W io_error unit;
  flush : M W io_error unit;
}.

(** What [Read] promises.  [wire r] is everything reads of [r] will still
    deliver: a read takes at most what the buffer holds off its front, an
    error delivers nothing, and zero bytes mean the end. *)
Class ReaderLaws (R : Type) `{!Reader R} := {
  wire : R -> bytes;
  read_law : forall n r, 0 < n ->
    wp (read n) (fun o r' =>
      match o with
      | Ok [] => wire r = [] /\ wire r' = []
      | Ok b => len b <= n /\ wire r = b ++ wire r'
      | Err _ => wire r' = wire r
      end) r;
}.

(** What [Write] promises.  [sent w] is everything handed to the peer so far:
    a failed [write_all] may have handed over a part of its argument. *)
Class WriterLaws (W : Type) `{!Writer W} := {
  sent : W -> bytes;
  write_all_law : forall b w,
    wp (write_all b) (fun o w' =>
      match o with
      | Ok _ => sent w' = sent w ++ b
      | Err _ => exists p, p `prefix_of` b /\ sent w' = sent w ++ p
      end) w;
  flush_law : forall w, wp flush (fun _ w' => sent w' = sent w) w;
}.

(** A reader is interrupted finitely often: [stalls r] bounds how many times
    from here on. *)
Class Patient (R : Type) `{!Reader R} := {
  stalls : R -> nat;
  stall_law : forall n r,
    wp (read n) (fun o r' =>
      match o with
      | Err e => error_kind e = Interrupted -> (stalls r' < stalls r)%nat
      | Ok _ => (stalls r' <= stalls r)%nat
      end) r;
}.

(** The two directions of a socket do not disturb each other. *)
Class DuplexLaws (S : Type) `{!Reader S, !Writer S, !ReaderLaws S, !WriterLaws S} := {
  read_keeps_sent : forall n s, sent (read n s).1 = sent s;
  write_keeps_wire : forall b s, wire (write_all b s).1 = wire s;
  flush_keeps_wire : forall s, wire (flush s).1 = wire s;
}.

(** ** Loops *)

(** [loop { body }], for at most [fuel] rounds: [body] answers [Some] to leave
    the loop, and the answer [None] is that the fuel ran out. *)
Fixpoint iterate {S E A} (fuel : nat) (body : M S E (option A)) : M S E (option A) :=
  match fuel with
  | O => ret None
  | S fuel =>
      let* r := body in
      match r with
      | Some a => ret (Some a)
      | None => iterate fuel body
      end
  end.

(** [while have < target { have += fill(&mut buf[have..target])? }], where a
    [fill] that succeeds makes progress: [target - have] rounds always do. *)
Fixpoint fill_loop {S} (fuel : nat) (fill : Z -> M S io_error bytes) (put : bytes -> S -> S)
    (target have : Z) : M S io_error unit :=
  match fuel with
  | O => ret tt
  | S fuel =>
      if have <? target then
        let* b := fill (target - have) in
        modify (put b) ;;;
        fill_loop fuel fill put target (have + len b)
      else ret tt
  end.
Definition fill_to {S} (fill : Z -> M S io_error bytes) (put : bytes -> S -> S) (target have : Z) :
    M S io_error unit :=
  fill_loop (Z.to_nat (target - have)) fill put target have.

(** An invariant and a measure that drops while the loop goes round. *)
Lemma iterate_spec {S E A} (body : M S E (option A)) (I : S -> Prop) (measure : S -> nat)
    (Q : result E A -> S -> Prop) :
  (forall s, I s -> wp body (fun r s' =>
     match r with
     | Ok (Some a) => Q (Ok a) s'
     | Ok None => I s' /\ (measure s' < measure s)%nat
     | Err e => Q (Err e) s'
     end) s) ->
  forall fuel s, I s -> (measure s < fuel)%nat ->
  wp (iterate fuel body) (fun r s' =>
     match r with Ok (Some a) => Q (Ok a) s' | Ok None => False | Err e => Q (Err e) s' end) s.
Proof.
  intros Hb fuel. induction fuel as [|fuel IH]; intros s Hi Hm; [lia|].
  cbn [iterate]. apply wp_bind. eapply wp_mono; [by apply Hb|]. cbn beta.
  intros [[a|]|e] s' Hr; [by apply wp_ret| |done]. destruct Hr as [Hi' Hm'].
  apply IH; [done|lia].
Qed.

(** The loop over a [fill] that takes a piece off the front of [rest]: [same]
    relates the states before and after [b] was put. *)
Lemma fill_loop_spec {S} (fill : Z -> M S io_error bytes) (put : bytes -> S -> S)
    (I : S -> Prop) (rest : S -> bytes) (same : S -> bytes -> S -> Prop) (bad : io_error -> S -> Prop) :
  (forall s, same s [] s) ->
  (forall n s, 0 < n -> I s -> wp (fill n) (fun o s' =>
     match o with
     | Ok b => 0 < len b <= n /\ rest s = b ++ rest (put b s') /\ same s b (put b s') /\ I (put b s')
     | Err e => rest s' = rest s /\ same s [] s' /\ I s' /\ bad e s'
     end) s) ->
  (forall s b s' b' s'', same s b s' -> same s' b' s'' -> same s (b ++ b') s'') ->
  forall fuel target have s, I s -> target - have <= Z.of_nat fuel ->
  wp (fill_loop fuel fill put target have) (fun o s' =>
    exists b, rest s = b ++ rest s' /\ same s b s' /\ I s' /\
      match o with
      | Ok _ => len b = Z.max 0 (target - have)
      | Err e => len b < target - have /\ bad e s'
      end) s.
Proof.
  intros Hrefl Hfill Htrans fuel.
  induction fuel as [|fuel IH]; intros target have s Hi Hf; cbn [fill_loop].
  - apply wp_ret. exists []. rewrite len_nil. split_and!; [done|done|done|lia].
  - zcase; [|apply wp_ret; exists []; rewrite len_nil; split_and!; [done|done|done|lia]].
    assert (Hn : 0 < target - have) by lia. pose proof (Hfill _ s Hn Hi) as Hstep.
    apply wp_bind. unfold wp in *. destruct (fill (target - have) s) as [s' [b|e]] eqn:E.
    + destruct Hstep as (Hb & Hr & Hs & Hi').
      change (wp (modify (put b) ;;; fill_loop fuel fill put target (have + len b))
        (fun o s' => exists b, rest s = b ++ rest s' /\ same s b s' /\ I s' /\
          match o with
          | Ok _ => len b = Z.max 0 (target - have)
          | Err e => len b < target - have /\ bad e s'
          end) s').
      wp_steps. eapply wp_mono; [apply IH; [done|lia]|]. cbn beta.
      intros o s'' (b' & Hr' & Hs' & Hi'' & Ho). exists (b ++ b'). rewrite len_app.
      split_and!; [by rewrite Hr, Hr', (assoc_L (++))|by eapply Htrans|done|].
      destruct o as [u|e]; [lia|]. destruct Ho as [Hl Ho]. split; [lia|done].
    + destruct Hstep as (Hr & Hs & Hi' & He). exists []. rewrite len_nil.
      split_and!; [done|done|done|lia|done].
Qed.

(** ** A scripted peer *)

(** What the next reads find: a piece of data, or an error. *)
Inductive event := Data (b : bytes) | Fault (k : ErrorKind).

Record script := Script {
  inbound : list event;
  outbound : bytes;
  write_err : option ErrorKind;
}.

(** Past the script's end every read answers zero bytes. *)
Definition script_read (n : Z) : M script io_error bytes := fun s =>
  match inbound s with
  | [] => (s, Ok [])
  | Data b :: es =>
      let es := match zdrop n b with [] => es | rest => Data rest :: es end in
      (Script (match b with [] => [] | _ => es end) (outbound s) (write_err s), Ok (ztake n b))
  | Fault k :: es => (Script es (outbound s) (write_err s), Err (IoError k []))
  end.

#[global] Instance script_reader : Reader script := script_read.
#[global] Instance script_writer : Writer script := {
  write_all b := fun s =>
    match write_err s with
    | Some k => (s, Err (IoError k []))
    | None => (Script (inbound s) (outbound s ++ b) (write_err s), Ok tt)
    end;
  flush := ret tt;
}.

Fixpoint script_wire (es : list event) : bytes :=
  match es with
  | [] | Data [] :: _ => []
  | Data b :: es => b ++ script_wire es
  | Fault _ :: es => script_wire es
  end.

#[global] Program Instance script_reader_laws : ReaderLaws script := {
  wire s := script_wire (inbound s);
}.
Next Obligation.
  intros n [es out w] Hn. unfold wp, read, script_reader, script_read. cbn.
  destruct es as [|[b|k] es]; cbn; [done| |done].
  destruct b as [|x b]; cbn [script_wire].
  { unfold ztake. by rewrite take_nil. }
  assert (Hw : (x :: b) ++ script_wire es =
    ztake n (x :: b) ++ script_wire (match zdrop n (x :: b) with [] => es | rest => Data rest :: es end)).
  { rewrite <- (ztake_zdrop n (x :: b)) at 1. rewrite <- (assoc_L (++)). f_equal.
    by destruct (zdrop n (x :: b)). }
  assert (Hl : 0 < len (ztake n (x :: b)) <= n).
  { rewrite len_ztake, len_cons. pose proof (len_nonneg b). lia. }
  destruct (ztake n (x :: b)) as [|y t]; [rewrite len_nil in Hl; lia|]. split; [lia|done].
Qed.

#[global] Program Instance script_writer_laws : WriterLaws script := { sent := outbound }.
Next Obligation.
  intros b [es out [k|]]; unfold wp; cbn; [|done].
  exists []. split; [apply prefix_nil|]. by rewrite app_nil_r.
Qed.
Next Obligation. done. Qed.

#[global] Program Instance script_duplex_laws : DuplexLaws script.
Next Obligation. intros n [[|[b|k] es] out w]; done. Qed.
Next Obligation. intros b [es out [k|]]; done. Qed.
Next Obligation. done. Qed.

Fixpoint faults (es : list event) : nat :=
  match es with
  | [] => 0
  | Fault _ :: es => S (faults es)
  | Data _ :: es => faults es
  end.

#[global] Program Instance script_patient : Patient script := { stalls s := faults (inbound s) }.
Next Obligation.
  intros n [[|[b|k] es] out w]; unfold wp; cbn; [done| |lia].
  destruct b as [|x b]; [cbn; lia|]. destruct (zdrop n (x :: b)); cbn; lia.
Qed.

(** ** Byte slices

    [impl Read for &[u8]]: reads the front off, never fails. *)
#[global] Instance slice_reader : Reader bytes := fun n b => (zdrop n b, Ok (ztake n b)).

#[global] Program Instance slice_reader_laws : ReaderLaws bytes := { wire b := b }.
Next Obligation.
  intros n b Hn. unfold wp, read, slice_reader. destruct (ztake n b) as [|x t] eqn:E.
  - destruct b as [|x b]; [unfold zdrop; by rewrite drop_nil|].
    exfalso. assert (Hl : len (ztake n (x :: b)) = 0) by by rewrite E.
    rewrite len_ztake, len_cons in Hl. pose proof (len_nonneg b). lia.
  - rewrite <- E, len_ztake, ztake_zdrop. pose proof (len_nonneg b). split; [lia|done].
Qed.

#[global] Program Instance slice_patient : Patient bytes := { stalls _ := O }.
Next Obligation. intros n r. unfold wp. cbn. lia. Qed.
