(* ===== verification/Streams.v ===== *)
(** * The network streams ([EspTlsStream] of [src/transport.rs], [HttpStream] of
      [src/http_client.rs])

    A TLS stream over ESP-IDF's [esp_tls], and the HTTP client's choice of it
    or plain TCP.  The SDK's calls and the operating system's socket are
    classes with their documented laws; here the streams are shown to satisfy
    the interface of [Io] that the WebSocket and HTTP theorems are proved
    against.  [write_all] is the default method of [std::io::Write]. *)

From S2P Require Import Prelude RustStr RustStrLemmas Io.

(** ** [Write::write_all] over [Write::write] *)

(** [Write::write]: how many bytes it took. *)
Class RawWriter (W : Type) := write : bytes -> M W io_error Z.

(** [handed w] is what the peer was handed so far; [hiccups w] bounds how many
    more times a write is interrupted.  An interrupted write took nothing. *)
Class RawWriterLaws (W : Type) `{!RawWriter W} := {
  handed : W -> bytes;
  hiccups : W -> nat;
  write_law : forall b w, b <> [] ->
    wp (write b) (fun o w' =>
      match o with
      | Ok n => 0 <= n <= len b /\ handed w' = handed w ++ ztake n b /\ (hiccups w' <= hiccups w)%nat
      | Err e => exists p, p `prefix_of` b /\ handed w' = handed w ++ p /\
          (error_kind e = Interrupted -> p = [] /\ (hiccups w' < hiccups w)%nat)
      end) w;
}.

Section WriteAll.
Context {W : Type} `{!RawWriter W}.

(** A round of its loop, over the bytes still to write. *)
Definition write_round : M (W * bytes) io_error (option unit) := fun '(w, rest) =>
  match rest with
  | [] => ((w, rest), Ok (Some tt))
  | _ =>
      let '(w, r) := write rest w in
      match r with
      | Ok n =>
          if n =? 0 then ((w, rest), Err (IoError OtherKind (bs "failed to write whole buffer")))
          else ((w, zdrop n rest), Ok None)
      | Err e => if bool_decide (error_kind e = Interrupted) then ((w, rest), Ok None) else ((w, rest), Err e)
      end
  end.

Definition write_whole (fuel : nat) (b : bytes) : M W io_error (option unit) := fun w =>
  let '((w, _), r) := iterate fuel write_round (w, b) in (w, r).

Context `{!RawWriterLaws W}.

(** What is written so far, and what is left. *)
Definition writing (w0 : W) (b : bytes) (x : W * bytes) : Prop :=
  exists p, b = p ++ x.2 /\ handed x.1 = handed w0 ++ p.

Lemma write_round_spec w0 b x : writing w0 b x ->
  wp write_round (fun r x' =>
    match r with
    | Ok (Some _) => handed x'.1 = handed w0 ++ b
    | Ok None => writing w0 b x' /\ (length x'.2 + hiccups x'.1 < length x.2 + hiccups x.1)%nat
    | Err _ => exists p, p `prefix_of` b /\ handed x'.1 = handed w0 ++ p
    end) x.
Proof using All.
  destruct x as [w rest]. intros (p & -> & Hh). cbn [fst snd] in *. unfold wp, write_round.
  destruct rest as [|c rest]; [cbn; by rewrite app_nil_r|]. set (rest' := c :: rest) in *.
  pose proof (write_law rest' w ltac:(done)) as Hw. unfold wp in Hw. destruct (write rest' w) as [w' [n|e]].
  - destruct Hw as (Hn & Hw & Hc). destruct (Z.eqb_spec n 0) as [->|Hz].
    + exists p. cbn. split; [by apply prefix_app_r|]. by rewrite Hw, Hh, app_nil_r.
    + split.
      * exists (p ++ ztake n rest'). cbn [fst snd]. by rewrite Hw, Hh, <- !(assoc_L (++)), ztake_zdrop.
      * cbn [fst snd]. assert (Hl := len_zdrop n rest'). unfold len in *. lia.
  - destruct Hw as (q & Hq & Hw & Hc). case_bool_decide as Hi.
    + destruct (Hc Hi) as [-> Hlt]. rewrite app_nil_r in Hw. split; [exists p; by rewrite <- Hh|cbn [fst snd]; lia].
    + exists (p ++ q). cbn. split; [by apply prefix_app|]. by rewrite Hw, Hh, (assoc_L (++)).
Qed.

(** With a round for every byte and every interruption, [write_all] ends. *)
Lemma write_whole_spec fuel b w : (length b + hiccups w < fuel)%nat ->
  wp (write_whole fuel b) (fun r w' =>
    match r with
    | Ok (Some _) => handed w' = handed w ++ b
    | Ok None => False
    | Err _ => exists p, p `prefix_of` b /\ handed w' = handed w ++ p
    end) w.
Proof using All.
  intros Hf. pose proof (iterate_spec write_round (writing w b) (fun x => length x.2 + hiccups x.1)%nat
    (fun r x' => match r with
      | Ok _ => handed x'.1 = handed w ++ b
      | Err _ => exists p, p `prefix_of` b /\ handed x'.1 = handed w ++ p end)) as Hs.
  unfold wp, write_whole. specialize (Hs ltac:(intros; eapply wp_mono; [by apply write_round_spec|by intros [[]|]])).
  specialize (Hs fuel (w, b)). unfold wp in Hs. destruct (iterate fuel write_round (w, b)) as [[w' rest] r].
  assert (H0 : writing w b (w, b)) by (exists []; by rewrite app_nil_r). specialize (Hs H0 Hf).
  by destruct r as [[]|].
Qed.

(** The [Write] that the clients use: [write_all] as above, and a [flush] that
    has nothing to do. *)
#[global] Instance raw_writer : Writer W := {
  write_all b := fun w =>
    let '(w', r) := write_whole (length b + hiccups w + 1) b w in
    (w', match r with Ok _ => Ok tt | Err e => Err e end);
  flush := ret tt;
}.

Lemma write_all_whole b w : wp (write_all b) (fun o w' =>
  match o with
  | Ok _ => handed w' = handed w ++ b
  | Err _ => exists p, p `prefix_of` b /\ handed w' = handed w ++ p
  end) w.
Proof using All.
  pose proof (write_whole_spec (length b + hiccups w + 1) b w ltac:(lia)) as Hs. unfold wp in *. cbn.
  destruct (write_whole _ b w) as [w' [[]|]]; done.
Qed.

#[global] Instance raw_writer_laws : WriterLaws W.
Proof using All. refine (Build_WriterLaws W _ handed _ _); [apply write_all_whole|done]. Defined.
End WriteAll.

(** ** ESP-IDF's TLS connections *)

(** [esp_tls_conn_read] answers a count, negative for an error, and what is in
    the buffer; [esp_tls_conn_write] a count alone. *)
Class EspTls (T : Type) := {
  conn_read : Z -> T -> T * (Z * bytes);
  conn_write : bytes -> T -> T * Z;
}.

Class EspTlsLaws (T : Type) `{!EspTls T} := {
  incoming : T -> bytes;
  outgoing : T -> bytes;
  conn_read_keeps : forall n t, outgoing (conn_read n t).1 = outgoing t;
  conn_read_law : forall n t, 0 < n ->
    let '(t', (r, buf)) := conn_read n t in
    (r < 0 /\ incoming t' = incoming t \/
     r = 0 /\ incoming t = [] /\ incoming t' = [] \/
     0 < r <= n /\ r <= len buf /\ incoming t = ztake r buf ++ incoming t');
  conn_write_law : forall b t,
    let '(t', r) := conn_write b t in
    incoming t' = incoming t /\
    (r < 0 /\ (exists p, p `prefix_of` b /\ outgoing t' = outgoing t ++ p) \/
     0 <= r <= len b /\ outgoing t' = outgoing t ++ ztake r b);
}.

Section Tls.
Context {T : Type} `{!EspTls T}.

Definition EAGAIN : Z := 11.
Definition WANT_READ : Z := 0x6900.

Definition tls_read (n : Z) : M T io_error bytes := fun t =>
  let '(t, (r, buf)) := conn_read n t in
  if r <? 0 then
    let esp_err := - r in
    if (esp_err =? EAGAIN) || (esp_err =? WANT_READ) then (t, Err (IoError WouldBlock []))
    else (t, Err (IoError OtherKind (bs "esp_tls_conn_read error: " ++ dec esp_err)))
  else (t, Ok (ztake r buf)).

Definition tls_write (b : bytes) : M T io_error Z := fun t =>
  let '(t, r) := conn_write b t in
  if r <? 0 then (t, Err (IoError OtherKind (bs "esp_tls_conn_write error: " ++ dec (- r))))
  else (t, Ok r).

#[global] Instance tls_reader : Reader T := tls_read.
#[global] Instance tls_raw_writer : RawWriter T := tls_write.

Context `{!EspTlsLaws T}.

Lemma tls_read_keeps n t : outgoing (tls_read n t).1 = outgoing t.
Proof using All.
  rewrite <- (conn_read_keeps n t). unfold tls_read. destruct (conn_read n t) as [t' [r buf]]. destruct (_ <? _); [|done].
  by destruct (_ || _).
Qed.

Lemma tls_read_spec n t : 0 < n -> wp (tls_read n) (fun o t' =>
  match o with
  | Ok [] => incoming t = [] /\ incoming t' = []
  | Ok b => len b <= n /\ incoming t = b ++ incoming t'
  | Err e => incoming t' = incoming t /\ error_kind e <> Interrupted
  end) t.
Proof using All.
  intros Hn. pose proof (conn_read_law n t Hn) as Hr. unfold wp, tls_read. destruct (conn_read n t) as [t' [r buf]].
  destruct (Z.ltb_spec r 0).
  - destruct Hr as [[_ Hi]|[[? _]|[? _]]]; [|lia|lia]. by destruct (_ || _).
  - destruct Hr as [[? _]|[(-> & H1 & H2)|(Hr & Hb & Hi)]]; [lia|done|].
    assert (Hl : len (ztake r buf) = r) by (rewrite len_ztake; lia).
    destruct (ztake r buf) as [|c l] eqn:E; [unfold len in Hl; cbn in Hl; lia|]. split; [lia|done].
Qed.

Lemma tls_write_spec b t : wp (tls_write b) (fun o t' =>
  incoming t' = incoming t /\
  match o with
  | Ok n => 0 <= n <= len b /\ outgoing t' = outgoing t ++ ztake n b
  | Err e => error_kind e <> Interrupted /\ exists p, p `prefix_of` b /\ outgoing t' = outgoing t ++ p
  end) t.
Proof using All.
  pose proof (conn_write_law b t) as Hw. unfold wp, tls_write. destruct (conn_write b t) as [t' r].
  destruct Hw as [Hi Hw]. destruct (Z.ltb_spec r 0).
  - destruct Hw as [[_ Hp]|[? _]]; [|lia]. split; [done|]. by split.
  - destruct Hw as [[? _]|[Hr Ho]]; [lia|]. split; [done|]. by split.
Qed.

#[global] Instance tls_reader_laws : ReaderLaws T.
Proof using All.
  refine (Build_ReaderLaws T _ incoming _). intros n t Hn. eapply wp_mono; [by apply tls_read_spec|].
  intros [[|c l]|e] t' H; [done|done|by destruct H].
Defined.

(** A TLS read is never interrupted. *)
#[global] Instance tls_patient : Patient T.
Proof using EspTls0.
  refine (Build_Patient T _ (fun _ => O) _). intros n t. unfold wp, read, tls_reader, tls_read.
  destruct (conn_read n t) as [t' [r buf]]. destruct (_ <? _); [|done]. by destruct (_ || _).
Defined.

#[global] Instance tls_raw_writer_laws : RawWriterLaws T.
Proof using All.
  refine (Build_RawWriterLaws T _ outgoing (fun _ => O) _). intros b t _. eapply wp_mono; [by apply tls_write_spec|].
  intros [n|e] t' [_ H]; cbn beta iota in *; [by destruct H|]. destruct H as (Hk & p & Hp & Ho). exists p. by split_and!.
Defined.
(** The WebSocket client reads and writes through one connection: neither
    direction disturbs the other. *)
Lemma write_whole_keeps fuel b : forall t, incoming (write_whole fuel b t).1 = incoming t.
Proof using All.
  unfold write_whole. revert b. induction fuel as [|fuel IH]; intros b t; [done|]. cbn [iterate]. unfold bind, write_round at 1.
  destruct b as [|c b]; [done|]. set (b' := c :: b). pose proof (tls_write_spec b' t) as H. unfold wp in H.
  unfold write, tls_raw_writer. destruct (tls_write b' t) as [t' [n|e]]; destruct H as [<- _]; [destruct (n =? 0); [done|]|case_bool_decide; [|done]];
    [specialize (IH (zdrop n b') t')|specialize (IH b' t')]; by destruct (iterate _ _ _) as [[t2 rest] r].
Qed.

#[global] Instance tls_duplex_laws : DuplexLaws T.
Proof using All.
  split.
  - intros n t. apply tls_read_keeps.
  - intros b t. cbn. pose proof (write_whole_keeps (length b + 0 + 1) b t) as H.
    by destruct (write_whole _ b t) as [t' r].
  - done.
Defined.
End Tls.

(** ** The HTTP client's stream: TLS or plain TCP *)

Inductive HttpStream (T S : Type) := Tls (t : T) | Tcp (s : S).
Arguments Tls {T S} t.
Arguments Tcp {T S} s.

Section Http.
Context {T S : Type} `{!EspTls T, !Reader S, !RawWriter S}.

Definition stream_read (n : Z) : M (HttpStream T S) io_error bytes := fun x =>
  match x with
  | Tls t => let '(t, r) := tls_read n t in (Tls t, r)
  | Tcp s => let '(s, r) := read n s in (Tcp s, r)
  end.
Definition stream_write (b : bytes) : M (HttpStream T S) io_error Z := fun x =>
  match x with
  | Tls t => let '(t, r) := tls_write b t in (Tls t, r)
  | Tcp s => let '(s, r) := write b s in (Tcp s, r)
  end.
#[global] Instance stream_reader : Reader (HttpStream T S) := stream_read.
#[global] Instance stream_raw_writer : RawWriter (HttpStream T S) := stream_write.

Context `{!EspTlsLaws T, !ReaderLaws S, !Patient S, !RawWriterLaws S}.

Definition stream_wire (x : HttpStream T S) : bytes := match x with Tls t => incoming t | Tcp s => wire s end.
Definition stream_handed (x : HttpStream T S) : bytes := match x with Tls t => outgoing t | Tcp s => handed s end.

#[global] Instance stream_reader_laws : ReaderLaws (HttpStream T S).
Proof using All.
  refine (Build_ReaderLaws _ _ stream_wire _). intros n [t|s] Hn.
  - pose proof (tls_read_spec n t Hn) as H. unfold wp in *. cbn. destruct (tls_read n t) as [t' [[|c l]|e]];
      [done|done|by destruct H].
  - pose proof (read_law (R := S) n s Hn) as H. unfold wp in *. cbn. by destruct (read n s) as [s' [[|]|]].
Defined.

#[global] Instance stream_patient : Patient (HttpStream T S).
Proof using All.
  refine (Build_Patient _ _ (fun x => match x with Tls _ => O | Tcp s => stalls s end) _). intros n [t|s].
  - pose proof (@stall_law _ tls_reader tls_patient n t) as H. unfold wp, read, tls_reader in H. unfold wp. cbn.
    by destruct (tls_read n t) as [t' []].
  - pose proof (stall_law (R := S) n s) as H. unfold wp in *. cbn. by destruct (read n s) as [s' []].
Defined.

#[global] Instance stream_raw_writer_laws : RawWriterLaws (HttpStream T S).
Proof using All.
  refine (Build_RawWriterLaws _ _ stream_handed (fun x => match x with Tls _ => O | Tcp s => hiccups s end) _). intros b [t|s] Hb.
  - pose proof (tls_write_spec b t) as H. unfold wp in *. cbn. destruct (tls_write b t) as [t' [n|e]]; destruct H as [_ H].
    + destruct H as [H1 H2]. split; [done|]. by split.
    + destruct H as (Hk & p & Hp & Ho). exists p. by split_and!.
  - pose proof (write_law (W := S) b s Hb) as H. unfold wp in *. cbn. by destruct (write b s) as [s' []].
Defined.
End Http.

(** ** Connecting *)

Record tls_cfg := TlsCfg {
  timeout_ms : Z;
  skip_common_name : bool;
  crt_bundle : bool;
}.
Definition i32_max : Z := 2 ^ 31 - 1.

Inductive tls_error := InitFailed | NulInHost (position : Z) | ConnectionFailed (code : Z).

(** [EspTlsStream::connect_with_timeout]: [init] says whether [esp_tls_init]
    gave a handle, [conn_new_sync] is its connection call, and the handles
    that are allocated are counted. *)
Definition connect_with_timeout (init : bool) (conn_new_sync : bytes -> Z -> tls_cfg -> Z) (host : bytes) (port : Z)
    (skip_tls_verify : bool) (timeout : Z) (handles : nat) : nat * result tls_error unit :=
  let cfg := TlsCfg (if timeout <=? i32_max then timeout else i32_max) skip_tls_verify (negb skip_tls_verify) in
  if negb init then (handles, Err InitFailed)
  else
    let handles := S handles in
    match find_byte x00 host with
    | Some position => (handles, Err (NulInHost position))
    | None =>
        let code := conn_new_sync host port cfg in
        if negb (code =? 1) then (pred handles, Err (ConnectionFailed code)) else (handles, Ok tt)
    end.

(** [Drop] *)
Definition drop_stream (handles : nat) : nat := pred handles.

(** The [timeval] of [set_socket_timeout_ms]. *)
Definition timeval (ms : Z) : Z * Z := (ms / 1000, ms mod 1000 * 1000).

Lemma timeval_exact ms : 0 <= ms -> let '(s, us) := timeval ms in s * 1000000 + us = ms * 1000 /\ 0 <= us < 1000000.
Proof. intros Hm. unfold timeval. pose proof (Z.div_mod ms 1000). pose proof (Z.mod_pos_bound ms 1000). lia. Qed.

(** A TLS handle is released exactly once: a connection that succeeds holds
    one more handle, which dropping the stream gives back, and one that fails
    holds none, whether the SDK could not allocate it or could not connect.
    The exception is a host with a NUL byte, which is refused between the two
    and leaves its handle allocated.  A server certificate is verified unless
    the caller said otherwise, and the timeout is never more than asked. *)
Theorem tls_handles_are_released init conn_new_sync host port skip timeout handles :
  let '(handles', r) := connect_with_timeout init conn_new_sync host port skip timeout handles in
  match r with
  | Ok _ =>
      drop_stream handles' = handles /\
      exists cfg, conn_new_sync host port cfg = 1 /\ crt_bundle cfg = negb skip /\ timeout_ms cfg <= timeout
  | Err (NulInHost i) => x00 ∈ host /\ handles' = S handles
  | Err _ => handles' = handles
  end.
Proof.
  unfold connect_with_timeout. destruct init; cbn [negb]; [|done]. destruct (find_byte x00 host) as [i|] eqn:E.
  - split; [|done]. apply find_byte_Some in E as (_ & E & _).
    rewrite <- (ztake_zdrop (i + 1) host), E. set_solver.
  - destruct (Z.eqb_spec (conn_new_sync host port (TlsCfg (if timeout <=? i32_max then timeout else i32_max) skip (negb skip))) 1);
      cbn [negb]; [|done]. split; [done|]. eexists. split; [done|]. split; [done|]. cbn. by destruct (Z.leb_spec timeout i32_max); lia.
Qed.

(** ** The interface is met *)

(** C17. The streams that the clients are given behave as their theorems assume.
    Over any TLS connection with the SDK's documented behaviour, and any
    socket with the operating system's: a read takes at most what fits, off
    the front of what the peer sent, delivers nothing with an error, answers
    an empty read only at the end, and reports a timeout of TLS as one that may
    be repeated; [write_all] ends, and hands over its whole argument, in order,
    or reports an error after some front part of it. *)
Theorem streams_meet_io {T S} `{!EspTls T, !Reader S, !RawWriter S, !EspTlsLaws T, !ReaderLaws S, !Patient S, !RawWriterLaws S}
    (x : HttpStream T S) :
  (forall n, 0 < n -> wp (stream_read n) (fun o x' =>
    match o with
    | Ok [] => stream_wire x = [] /\ stream_wire x' = []
    | Ok b => len b <= n /\ stream_wire x = b ++ stream_wire x'
    | Err _ => stream_wire x' = stream_wire x
    end) x) /\
  (forall n t t' buf, conn_read n t = (t', (- EAGAIN, buf)) \/ conn_read n t = (t', (- WANT_READ, buf)) ->
    tls_read n t = (t', Err (IoError WouldBlock []))) /\
  (forall b fuel, (length b + hiccups x < fuel)%nat ->
    wp (write_whole fuel b) (fun r x' =>
      match r with
      | Ok (Some _) => stream_handed x' = stream_handed x ++ b
      | Ok None => False
      | Err _ => exists p, p `prefix_of` b /\ stream_handed x' = stream_handed x ++ p
      end) x).
Proof.
  split_and!.
  - intros n Hn. exact (@read_law _ stream_reader stream_reader_laws n x Hn).
  - intros n t t' buf [H|H]; unfold tls_read; by rewrite H.
  - intros b fuel Hf. exact (@write_whole_spec _ stream_raw_writer stream_raw_writer_laws fuel b x Hf).
Qed.

(** ** Witness: a connection that stalls once and moves a few bytes at a
    time *)
Record pipe := Pipe { p_in : bytes; p_out : bytes; p_stall : nat }.

#[local] Instance pipe_tls : EspTls pipe := {
  conn_read n t :=
    match p_stall t with
    | S k => (Pipe (p_in t) (p_out t) k, (-11, []))
    | O => let r := Z.min (Z.min 3 n) (len (p_in t)) in (Pipe (zdrop r (p_in t)) (p_out t) 0, (r, ztake r (p_in t)))
    end;
  conn_write b t := let r := Z.min 2 (len b) in (Pipe (p_in t) (p_out t ++ ztake r b) (p_stall t), r);
}.

#[local] Instance pipe_tls_laws : EspTlsLaws pipe.
Proof.
  refine (Build_EspTlsLaws pipe _ p_in p_out _ _ _).
  - intros n t. cbn. by destruct (p_stall t).
  - intros n t Hn. cbn. destruct (p_stall t) as [|k]; [|by left]. cbn. assert (H0 := len_nonneg (p_in t)). right.
    destruct (decide (p_in t = [])) as [E|E].
    + left. rewrite E. unfold zdrop. rewrite drop_nil, len_nil. split_and!; [lia|done|done].
    + right. assert (0 < len (p_in t)) by (unfold len; destruct (p_in t); [done|cbn; lia]).
      assert (Ht : len (ztake (Z.min (Z.min 3 n) (len (p_in t))) (p_in t)) = Z.min (Z.min 3 n) (len (p_in t))) by (rewrite len_ztake; lia).
      split_and!; [lia|lia|lia|]. rewrite (ztake_all _ (ztake _ _)) by lia. by rewrite ztake_zdrop.
  - intros b t. cbn. split; [done|]. right. assert (H0 := len_nonneg b). split; [lia|done].
Defined.

Definition link : HttpStream pipe pipe := Tls (Pipe (bs "hi") [] 1).

Lemma streams_meet_io_witness :
  stream_handed (write_whole 9 (bs "hello") link).1 = bs "hello" /\ stream_wire (stream_read 8 link).1 = bs "hi".
Proof.
  destruct (streams_meet_io link) as (Hr & _ & Hw). specialize (Hr 8 eq_refl). specialize (Hw (bs "hello") 9%nat).
  split; [|exact Hr]. specialize (Hw ltac:(vm_compute; lia)). unfold wp in Hw.
  assert (H : is_ok (write_whole 9 (bs "hello") link).2 = true) by by vm_compute.
  destruct (write_whole 9 (bs "hello") link) as [x' [[u|]|e]]; [exact Hw|done|done].
Defined.
