(* ===== verification/Ws.v ===== *)
(** * The WebSocket frame codec ([src/ws.rs])

    The reader is a state machine over a stream that may block at any byte;
    the writer masks through a 256-byte buffer.  The HTTP upgrade is in
    [WsHandshake]. *)

From S2P Require Import Prelude RustStr Io.
Definition MAX_CONTROL_PAYLOAD : Z := 125.
Definition MASK_CHUNK : Z := 256.
Definition usize_max : Z := 2 ^ 32 - 1.

Definition OP_CONTINUATION : Z := 0.
Definition OP_TEXT : Z := 1.
Definition OP_BINARY : Z := 2.
Definition OP_CLOSE : Z := 8.
Definition OP_PING : Z := 9.
Definition OP_PONG : Z := 10.

Record Limits := {
  max_frame_size : Z;
  max_message_size : Z;
}.

Inductive Frame :=
| Binary (payload : bytes)
| Text (payload : bytes)
| Ping (payload : bytes)
| Pong (payload : bytes)
| Close (reason : option (Z * bytes)).

Definition protocol_error (what : bytes) : io_error :=
  IoError InvalidData (bs "websocket: " ++ what).

(** A frame whose header has been parsed: [payload] is the part
    [payload[..filled]] that has arrived of the [size] bytes allocated. *)
Record Incoming := MkIncoming {
  fin : bool;
  opcode : Z;
  size : Z;
  payload : bytes;
}.

Record Partial := MkPartial {
  p_opcode : Z;
  buf : bytes;
}.

(** [header] is the part [header[..header_len]] of the array. *)
Record WsClient (S : Type) := MkClient {
  stream : S;
  pending : bytes;
  pending_pos : Z;
  header : bytes;
  incoming : option Incoming;
  partial : option Partial;
}.
Arguments MkClient {S}.
Arguments stream {S}.
Arguments pending {S}.
Arguments pending_pos {S}.
Arguments header {S}.
Arguments incoming {S}.
Arguments partial {S}.

Definition set_stream {S} (x : S) (c : WsClient S) : WsClient S :=
  MkClient x (pending c) (pending_pos c) (header c) (incoming c) (partial c).
Definition set_pending_pos {S} (x : Z) (c : WsClient S) : WsClient S :=
  MkClient (stream c) (pending c) x (header c) (incoming c) (partial c).
Definition set_header {S} (x : bytes) (c : WsClient S) : WsClient S :=
  MkClient (stream c) (pending c) (pending_pos c) x (incoming c) (partial c).
Definition set_incoming {S} (x : option Incoming) (c : WsClient S) : WsClient S :=
  MkClient (stream c) (pending c) (pending_pos c) (header c) x (partial c).
Definition set_partial {S} (x : option Partial) (c : WsClient S) : WsClient S :=
  MkClient (stream c) (pending c) (pending_pos c) (header c) (incoming c) x.

Definition is_would_block (e : io_error) : bool :=
  bool_decide (error_kind e = WouldBlock) || bool_decide (error_kind e = TimedOut)
  || bool_decide (error_kind e = Interrupted).

(** An empty body, or a 2-byte code followed by a UTF-8 reason. *)
Definition parse_close (payload : bytes) : result io_error (option (Z * bytes)) :=
  if len payload =? 0 then Ok None
  else if len payload =? 1 then Err (protocol_error (bs "close frame with a 1-byte payload"))
  else
    let code := be_value (ztake 2 payload) in
    let reason := zdrop 2 payload in
    if utf8_valid reason then Ok (Some (code, reason))
    else Err (protocol_error (bs "close reason is not UTF-8")).

(** [usize::saturating_add] *)
Definition saturating_add (a b : Z) : Z := Z.min usize_max (a + b).

(** The [match opcode] of [read_header]: may a frame of this kind and length
    start here? *)
Definition admit_frame (lim : Limits) (p : option Partial) (fin : bool) (opcode n : Z) :
    result io_error unit :=
  if (opcode =? OP_CLOSE) || (opcode =? OP_PING) || (opcode =? OP_PONG) then
    if negb fin then Err (protocol_error (bs "fragmented control frame"))
    else if n >? MAX_CONTROL_PAYLOAD then
      Err (protocol_error (bs "control frame payload over 125 bytes"))
    else Ok tt
  else if opcode =? OP_CONTINUATION then
    match p with
    | None => Err (protocol_error (bs "continuation frame without a message"))
    | Some p =>
        if saturating_add (len (buf p)) n >? max_message_size lim then
          Err (protocol_error (bs "fragmented message over the size limit"))
        else if n >? max_frame_size lim then
          Err (protocol_error (bs "frame over the size limit"))
        else Ok tt
    end
  else if (opcode =? OP_TEXT) || (opcode =? OP_BINARY) then
    match p with
    | Some _ => Err (protocol_error (bs "new data frame inside a fragmented message"))
    | None =>
        if n >? max_frame_size lim then Err (protocol_error (bs "frame over the size limit"))
        else if negb fin && (n >? max_message_size lim) then
          Err (protocol_error (bs "fragmented message over the size limit"))
        else Ok tt
    end
  else Err (protocol_error (bs "reserved opcode")).

(** Turn a complete frame into what the caller sees, or fold it into the
    fragmented message in progress. *)
Definition dispatch (inc : Incoming) : M (option Partial) io_error (option Frame) :=
  let op := opcode inc in
  if op =? OP_PING then ret (Some (Ping (payload inc)))
  else if op =? OP_PONG then ret (Some (Pong (payload inc)))
  else if op =? OP_CLOSE then
    let* reason := lift (parse_close (payload inc)) in
    ret (Some (Close reason))
  else if op =? OP_CONTINUATION then
    let* p := get in
    modify (fun _ => None) ;;;
    match p with
    | None => ret None (* the [expect] of a frame [read_header] refused *)
    | Some p =>
        let data := buf p ++ payload inc in
        if fin inc then
          ret (Some (if p_opcode p =? OP_TEXT then Text data else Binary data))
        else
          modify (fun _ => Some (MkPartial (p_opcode p) data)) ;;;
          ret None
    end
  else if fin inc then
    ret (Some (if op =? OP_TEXT then Text (payload inc) else Binary (payload inc)))
  else
    modify (fun _ => Some (MkPartial op (payload inc))) ;;;
    ret None.

Section Codec.
Context {S : Type} `{!Reader S} (lim : Limits).

Abbreviation C A := (M (WsClient S) io_error A).

(** The handshake leftover first, then the stream. *)
Definition fill (n : Z) : C bytes := fun c =>
  let left := zdrop (pending_pos c) (pending c) in
  if negb (bool_decide (left = [])) then
    let k := Z.min (len left) n in
    (set_pending_pos (pending_pos c + k) c, Ok (ztake k left))
  else
    match read n (stream c) with
    | (s, Ok []) =>
        (set_stream s c, Err (IoError UnexpectedEof (bs "websocket: connection closed")))
    | (s, other) => (set_stream s c, other)
    end.

Definition put_header (b : bytes) (c : WsClient S) : WsClient S := set_header (header c ++ b) c.
Definition put_payload (b : bytes) (c : WsClient S) : WsClient S :=
  match incoming c with
  | Some inc => set_incoming (Some (MkIncoming (fin inc) (opcode inc) (size inc) (payload inc ++ b))) c
  | None => c
  end.

(** [Ok false] when the stream would block. *)
Definition or_block (m : C unit) : C bool :=
  let* r := attempt m in
  match r with
  | Ok _ => ret true
  | Err e => if is_would_block e then ret false else fail e
  end.

Definition fill_header (target : Z) : C bool :=
  let* c := get in
  or_block (fill_to fill put_header target (len (header c))).

(** Accumulate and parse a frame header; [None] means would-block. *)
Definition read_header : C (option Incoming) :=
  let* ready := fill_header 2 in
  if negb ready then ret None else
  let* c := get in
  let b0 := Z_of_byte (byte_at (header c) 0) in
  let b1 := Z_of_byte (byte_at (header c) 1) in
  if negb (Z.land b0 112 =? 0) then fail (protocol_error (bs "reserved bits set")) else
  if negb (Z.land b1 128 =? 0) then fail (protocol_error (bs "server frame is masked")) else
  let len7 := Z.land b1 127 in
  let total := if len7 =? 126 then 4 else if len7 =? 127 then 10 else 2 in
  let* ready := fill_header total in
  if negb ready then ret None else
  let* c := get in
  modify (set_header []) ;;;
  let* n :=
    (if len7 =? 126 then ret (be_value (slice 2 4 (header c)))
     else if len7 =? 127 then
       let v := be_value (slice 2 10 (header c)) in
       if v >? usize_max then fail (protocol_error (bs "frame length overflows usize")) else ret v
     else ret len7) in
  let fin := negb (Z.land b0 128 =? 0) in
  let opcode := Z.land b0 15 in
  lift (admit_frame lim (partial c) fin opcode n) ;;;
  ret (Some (MkIncoming fin opcode n [])).

(** One round of [read_frame]'s loop: [None] goes round again. *)
Definition read_frame_round : C (option (option Frame)) :=
  let* c := get in
  let* started :=
    (match incoming c with
     | Some _ => ret true
     | None =>
         let* h := read_header in
         match h with
         | Some inc => modify (set_incoming (Some inc)) ;;; ret true
         | None => ret false
         end
     end) in
  if negb started then ret (Some None) else
  let* c := get in
  match incoming c with
  | None => ret (Some None)
  | Some inc =>
      let* ready := or_block (fill_to fill put_payload (size inc) (len (payload inc))) in
      if negb ready then ret (Some None) else
      let* c := get in
      modify (set_incoming None) ;;;
      match incoming c with
      | None => ret (Some None)
      | Some inc =>
          let* f := zoom partial set_partial (dispatch inc) in
          ret (option_map Some f)
      end
  end.

(** Make progress on the next frame; the answer [None] of the outer option is
    that the fuel ran out. *)
Definition read_frame (fuel : nat) : C (option (option Frame)) := iterate fuel read_frame_round.
End Codec.

(** ** Sending *)

Definition xor_byte (a b : byte) : byte := byte_of_Z (Z.lxor (Z_of_byte a) (Z_of_byte b)).

(** [block[j] ^ mask[(base + j) & 3]], for [j] from 0. *)
Fixpoint mask_block (mask : bytes) (i : Z) (block : bytes) : bytes :=
  match block with
  | [] => []
  | b :: block => xor_byte b (byte_at mask (Z.land i 3)) :: mask_block mask (i + 1) block
  end.

(** [payload.chunks(n)] *)
Fixpoint chunks_fuel (fuel : nat) (n : Z) (l : bytes) : list bytes :=
  match fuel, l with
  | O, _ | _, [] => []
  | S fuel, _ => ztake n l :: chunks_fuel fuel n (zdrop n l)
  end.
Definition chunks (n : Z) (l : bytes) : list bytes := chunks_fuel (length l) n l.

(** The bytes of [header[..n]] without the mask. *)
Definition frame_header (opcode n : Z) : bytes :=
  byte_of_Z (Z.lor 128 opcode) ::
  (if n <=? 125 then [byte_of_Z (Z.lor 128 n)]
   else if n <=? 65535 then byte_of_Z (Z.lor 128 126) :: be_bytes 2 n
   else byte_of_Z (Z.lor 128 127) :: be_bytes 8 n).

Section Send.
Context {S : Type} `{!Writer S}.

Abbreviation C A := (M (WsClient S) io_error A).

Definition on_stream {A} (m : M S io_error A) : C A := zoom stream set_stream m.

Fixpoint send_blocks (mask : bytes) (i : Z) (blocks : list bytes) : C unit :=
  match blocks with
  | [] => ret tt
  | block :: blocks =>
      on_stream (write_all (mask_block mask (i * MASK_CHUNK) block)) ;;;
      send_blocks mask (i + 1) blocks
  end.

(** [mask] is what [fill_random] writes into the four-byte array. *)
Definition send_frame (mask : bytes) (opcode : Z) (payload : bytes) : C unit :=
  if (opcode >=? OP_CLOSE) && (len payload >? MAX_CONTROL_PAYLOAD) then
    fail (protocol_error (bs "control frame payload over 125 bytes"))
  else
    on_stream (write_all (frame_header opcode (len payload) ++ mask)) ;;;
    send_blocks mask 0 (chunks MASK_CHUNK payload) ;;;
    on_stream flush.

Definition send_binary (mask payload : bytes) : C unit := send_frame mask OP_BINARY payload.
Definition send_pong (mask payload : bytes) : C unit := send_frame mask OP_PONG payload.
Definition send_close (mask : bytes) (code : Z) : C unit := send_frame mask OP_CLOSE (be_bytes 2 code).
End Send.
