(* ===== verification/WsSpec.v ===== *)
(** * What the WebSocket codec implements

    A reference parser of a byte string, with no stream and no resumption,
    and the proof that [read_frame] computes it piece by piece. *)

From S2P Require Import Prelude RustStr Io Ws.
#[local] Set Default Proof Using "Type*".

(** ** The reference parser *)

Inductive parsed :=
| NeedMore
| Bad (e : io_error)
| Whole (inc : Incoming) (rest : bytes).

(** The body of a frame whose header is known. *)
Definition parse_body (fin : bool) (opcode size : Z) (got l : bytes) : parsed :=
  let need := size - len got in
  if len l <? need then NeedMore
  else Whole (MkIncoming fin opcode size (got ++ ztake need l)) (zdrop need l).

(** The length field: how many more bytes it takes and what they say. *)
Definition extension (len7 : Z) : Z := if len7 =? 126 then 2 else if len7 =? 127 then 8 else 0.
Definition declared (len7 : Z) (ext : bytes) : Z := if len7 <? 126 then len7 else be_value ext.

(** One frame at the head of [l], inside the fragmented message [p]. *)
Definition parse_frame (lim : Limits) (p : option Partial) (l : bytes) : parsed :=
  match l with
  | b0 :: b1 :: l =>
      let b0 := Z_of_byte b0 in
      let b1 := Z_of_byte b1 in
      if negb (Z.land b0 112 =? 0) then Bad (protocol_error (bs "reserved bits set"))
      else if negb (Z.land b1 128 =? 0) then Bad (protocol_error (bs "server frame is masked"))
      else
        let len7 := Z.land b1 127 in
        let k := extension len7 in
        if len l <? k then NeedMore
        else
          let n := declared len7 (ztake k l) in
          if n >? usize_max then Bad (protocol_error (bs "frame length overflows usize"))
          else
            let fin := negb (Z.land b0 128 =? 0) in
            let opcode := Z.land b0 15 in
            match admit_frame lim p fin opcode n with
            | Err e => Bad e
            | Ok _ => parse_body fin opcode n [] (zdrop k l)
            end
  | _ => NeedMore
  end.

(** The next message: complete frames are folded into [p] until one of them
    is a message. *)
Inductive outcome :=
| Wait
| Broken (e : io_error)
| Got (f : Frame) (p : option Partial) (rest : bytes).

Fixpoint next_fuel (fuel : nat) (lim : Limits) (p : option Partial) (l : bytes) : outcome :=
  match fuel with
  | O => Wait
  | S fuel =>
      match parse_frame lim p l with
      | NeedMore => Wait
      | Bad e => Broken e
      | Whole inc rest =>
          match dispatch inc p with
          | (_, Err e) => Broken e
          | (p', Ok (Some f)) => Got f p' rest
          | (p', Ok None) => next_fuel fuel lim p' rest
          end
      end
  end.
Definition next (lim : Limits) (p : option Partial) (l : bytes) : outcome :=
  next_fuel (S (length l)) lim p l.

(** The whole of a byte string: its messages, and the error it ends in. *)
Fixpoint messages_fuel (fuel : nat) (lim : Limits) (p : option Partial) (l : bytes) :
    list Frame * option io_error :=
  match fuel with
  | O => ([], None)
  | S fuel =>
      match next lim p l with
      | Wait => ([], None)
      | Broken e => ([], Some e)
      | Got f p' rest => let '(fs, e) := messages_fuel fuel lim p' rest in (f :: fs, e)
      end
  end.
Definition messages (lim : Limits) (p : option Partial) (l : bytes) : list Frame * option io_error :=
  messages_fuel (S (length l)) lim p l.

(** ** The parser consumes *)

Lemma parse_body_length fin opcode size got l inc rest :
  parse_body fin opcode size got l = Whole inc rest -> (length rest <= length l)%nat.
Proof.
  unfold parse_body. zcase; [done|]. intros [= _ <-]. unfold zdrop. rewrite length_drop. lia.
Qed.

Lemma parse_frame_length lim p l inc rest :
  parse_frame lim p l = Whole inc rest -> (2 + length rest <= length l)%nat.
Proof.
  unfold parse_frame. destruct l as [|b0 [|b1 l]]; try done. intros H.
  repeat (case_match; try done). apply parse_body_length in H.
  unfold zdrop in H. rewrite length_drop in H. cbn [length]. lia.
Qed.

Lemma next_fuel_enough lim f1 : forall f2 p l,
  (length l < f1)%nat -> (length l < f2)%nat -> next_fuel f1 lim p l = next_fuel f2 lim p l.
Proof.
  induction f1 as [|f1 IH]; intros [|f2] p l H1 H2; try lia. cbn [next_fuel].
  destruct (parse_frame lim p l) as [|e|inc rest] eqn:E; try done.
  apply parse_frame_length in E.
  destruct (dispatch inc p) as [p' [[f|]|e]]; try done. apply IH; lia.
Qed.

(** The reference, unfolded once. *)
Definition after_frame (lim : Limits) (p : option Partial) (r : parsed) : outcome :=
  match r with
  | NeedMore => Wait
  | Bad e => Broken e
  | Whole inc rest =>
      match dispatch inc p with
      | (_, Err e) => Broken e
      | (p', Ok (Some f)) => Got f p' rest
      | (p', Ok None) => next lim p' rest
      end
  end.

Lemma next_eq lim p l : next lim p l = after_frame lim p (parse_frame lim p l).
Proof.
  unfold next at 1. cbn [next_fuel]. unfold after_frame.
  destruct (parse_frame lim p l) as [|e|inc rest] eqn:E; try done.
  apply parse_frame_length in E.
  destruct (dispatch inc p) as [p' [[f|]|e]]; try done. apply next_fuel_enough; lia.
Qed.

Lemma next_length lim p l f p' rest : next lim p l = Got f p' rest -> (2 + length rest <= length l)%nat.
Proof.
  remember (length l) as n eqn:Hn. revert p l Hn.
  induction n as [n IH] using lt_wf_ind. intros p l -> H. rewrite next_eq in H.
  destruct (parse_frame lim p l) as [|e|inc r] eqn:E; try done. cbn in H.
  apply parse_frame_length in E.
  destruct (dispatch inc p) as [p1 [[f1|]|e]]; try done.
  - injection H as _ _ ->. done.
  - apply (IH (length r)) in H; lia.
Qed.

Lemma messages_fuel_enough lim f1 : forall f2 p l,
  (length l < f1)%nat -> (length l < f2)%nat -> messages_fuel f1 lim p l = messages_fuel f2 lim p l.
Proof.
  induction f1 as [|f1 IH]; intros [|f2] p l H1 H2; try lia. cbn [messages_fuel].
  destruct (next lim p l) as [|e|f p' rest] eqn:E; try done.
  apply next_length in E. rewrite (IH f2) by lia. done.
Qed.

(** The messages that follow an outlook. *)
Definition rest_of (lim : Limits) (o : outcome) : list Frame * option io_error :=
  match o with
  | Wait => ([], None)
  | Broken e => ([], Some e)
  | Got f p rest => let '(fs, e) := messages lim p rest in (f :: fs, e)
  end.

Lemma messages_eq lim p l : messages lim p l = rest_of lim (next lim p l).
Proof.
  unfold messages at 1. cbn [messages_fuel]. unfold rest_of.
  destruct (next lim p l) as [|e|f p' rest] eqn:E; try done.
  apply next_length in E. unfold messages. rewrite (messages_fuel_enough lim _ (S (length rest))) by lia.
  done.
Qed.

(** ** The state machine against the reference *)

Definition closed : io_error := IoError UnexpectedEof (bs "websocket: connection closed").

Section Machine.
Context {S : Type} `{!Reader S, lawsR : !ReaderLaws S} (lim : Limits).
Implicit Types c d : WsClient S.

(** The bytes the client has not looked at. *)
Definition unread c : bytes := zdrop (pending_pos c) (pending c) ++ wire (stream c).

(** The header's own length, once its two first bytes are there. *)
Definition header_target (h : bytes) : Z :=
  2 + (if len h <? 2 then 0 else extension (Z.land (Z_of_byte (byte_at h 1)) 127)).

Record cwf c : Prop := {
  cwf_pos : 0 <= pending_pos c <= len (pending c);
  cwf_header : len (header c) <= header_target (header c);
  cwf_incoming : forall inc, incoming c = Some inc ->
    header c = [] /\ len (payload inc) <= size inc;
}.

(** What the client will say next. *)
Definition outlook c : outcome :=
  match incoming c with
  | None => next lim (partial c) (header c ++ unread c)
  | Some inc =>
      after_frame lim (partial c)
        (parse_body (fin inc) (opcode inc) (size inc) (payload inc) (unread c))
  end.

Definition pos_ok c : Prop := 0 <= pending_pos c <= len (pending c).

(** An error of the transport: an error of a read, or its end. *)
Definition transport (e : io_error) c : Prop :=
  (e = closed /\ unread c = []) \/ exists n s, (read n s).2 = Err e.

(** The stream had nothing to give for now. *)
Definition blocked : Prop := exists n s e, (read n s).2 = Err e /\ is_would_block e = true.

Lemma transport_blocked e c : transport e c -> is_would_block e = true -> blocked.
Proof using Type. intros [[-> _]|(n & s & He)] Hb; [done|]. by exists n, s, e. Qed.

(** Same client but for the bytes taken. *)
Definition took (b : bytes) c d : Prop :=
  unread c = b ++ unread d /\ pos_ok d /\ pending d = pending c.

Lemma fill_spec n c : 0 < n -> pos_ok c ->
  wp (fill n) (fun o d =>
    header d = header c /\ incoming d = incoming c /\ partial d = partial c /\ pos_ok d /\
    match o with
    | Ok b => 0 < len b <= n /\ unread c = b ++ unread d
    | Err e => unread d = unread c /\ transport e d
    end) c.
Proof.
  intros Hn Hp. unfold wp, fill, pos_ok in *. case_bool_decide as E; cbn [negb].
  - pose proof (read_law n (stream c) Hn) as Hr. unfold wp in Hr.
    destruct (read n (stream c)) as [s' [[|x b]|e]] eqn:Er; cbn.
    + destruct Hr as [Hw Hw']. split_and!; try done; try lia.
      * unfold unread. cbn. by rewrite Hw, Hw'.
      * left. split; [done|]. unfold unread. cbn. by rewrite E, Hw'.
    + destruct Hr as [Hl Hw]. assert (0 < len (x :: b)) by (rewrite len_cons; pose proof (len_nonneg b); lia).
      split_and!; try done; try lia.
      * unfold unread. cbn. rewrite E. done.
    + split_and!; try done; try lia.
      * unfold unread. cbn. by rewrite Hr.
      * right. exists n, (stream c). by rewrite Er.
  - assert (Hl : 0 < len (zdrop (pending_pos c) (pending c))).
    { pose proof (len_nonneg (zdrop (pending_pos c) (pending c))).
      destruct (decide (len (zdrop (pending_pos c) (pending c)) = 0)) as [H0|]; [|lia].
      by apply len_0_nil in H0. }
    assert (Hd := Hl). rewrite len_zdrop in Hd. cbn. split_and!; try done; try (rewrite ?len_zdrop; lia).
    + rewrite len_ztake. lia.
    + rewrite len_ztake. lia.
    + unfold unread. cbn. rewrite (assoc_L (++)). f_equal.
      rewrite <- zdrop_zdrop by lia. symmetry. apply ztake_zdrop.
Qed.

Lemma fill_header_spec target c : pos_ok c ->
  wp (fill_header target) (fun o d =>
    exists b, header d = header c ++ b /\ unread c = b ++ unread d /\
    incoming d = incoming c /\ partial d = partial c /\ pos_ok d /\
    match o with
    | Ok true => len b = Z.max 0 (target - len (header c))
    | Ok false => len b < target - len (header c) /\ blocked
    | Err e => len b < target - len (header c) /\ transport e d
    end) c.
Proof.
  intros Hp. unfold fill_header, or_block. wp_steps.
  eapply wp_mono; [eapply (fill_loop_spec fill put_header pos_ok unread
    (fun c b d => header d = header c ++ b /\ incoming d = incoming c /\ partial d = partial c) transport)|].
  - intros d. by rewrite app_nil_r.
  - intros n d Hn Hd. wp_use (fill_spec n d Hn Hd).
    intros [b|e] d' (H1 & H2 & H3 & H4 & H5).
    + destruct H5 as [Hl Hu]. split_and!; try done; try lia. cbn. by rewrite H1.
    + destruct H5 as [Hl Hu]. rewrite app_nil_r. done.
  - intros d b d' b' d'' (-> & -> & ->) (-> & -> & ->). by rewrite (assoc_L (++)).
  - done.
  - unfold len. lia.
  - cbn beta. intros [u|e] d (b & Hu & (H1 & H2 & H3) & H4 & H5).
    + wp_steps. exists b. done.
    + destruct H5 as [Hl Ht]. destruct (is_would_block e) eqn:Eb; wp_steps; exists b; [|done].
      pose proof (transport_blocked e d Ht Eb). done.
Qed.

Lemma fill_payload_spec inc c : pos_ok c -> incoming c = Some inc ->
  wp (or_block (fill_to fill put_payload (size inc) (len (payload inc)))) (fun o d =>
    exists b, unread c = b ++ unread d /\ header d = header c /\ partial d = partial c /\ pos_ok d /\
    incoming d = Some (MkIncoming (fin inc) (opcode inc) (size inc) (payload inc ++ b)) /\
    match o with
    | Ok true => len b = Z.max 0 (size inc - len (payload inc))
    | Ok false => len b < size inc - len (payload inc) /\ blocked
    | Err e => len b < size inc - len (payload inc) /\ transport e d
    end) c.
Proof.
  intros Hp Hinc. unfold or_block. wp_steps.
  eapply wp_mono; [eapply (fill_loop_spec fill put_payload pos_ok unread
    (fun c b d => header d = header c /\ partial d = partial c /\
       forall i, incoming c = Some i ->
         incoming d = Some (MkIncoming (fin i) (opcode i) (size i) (payload i ++ b))) transport)|].
  - intros d. split_and!; try done. intros [] Hi. cbn. by rewrite app_nil_r.
  - intros n d Hn Hd. wp_use (fill_spec n d Hn Hd).
    intros [b|e] d' (H1 & H2 & H3 & H4 & H5).
    + destruct H5 as [Hl Hu]. unfold put_payload. destruct (incoming d') as [i|] eqn:Hi;
        split_and!; try done; try lia; rewrite <- H2; try done. by intros j [= <-].
    + destruct H5 as [Hl Hu]. split_and!; try done. rewrite H2.
      intros [] Hi. cbn. by rewrite app_nil_r.
  - intros d b d' b' d'' (-> & -> & H1) (-> & -> & H2). split_and!; try done.
    intros i Hi. rewrite (H2 _ (H1 i Hi)). cbn. by rewrite (assoc_L (++)).
  - done.
  - lia.
  - cbn beta. intros [u|e] d (b & Hu & (H1 & H2 & H3) & H4 & H5).
    + wp_steps. exists b. split_and!; try done. by apply H3.
    + destruct H5 as [Hl Ht]. specialize (H3 inc Hinc). destruct (is_would_block e) eqn:Eb; wp_steps; exists b; [|done].
      pose proof (transport_blocked e d Ht Eb). done.
Qed.

(** The header's fields, once all of it is there. *)
Lemma parse_frame_header p b0 b1 ext u :
  let v0 := Z_of_byte b0 in
  let v1 := Z_of_byte b1 in
  let len7 := Z.land v1 127 in
  let n := declared len7 ext in
  Z.land v0 112 = 0 -> Z.land v1 128 = 0 -> len ext = extension len7 ->
  parse_frame lim p (b0 :: b1 :: ext ++ u) =
    if n >? usize_max then Bad (protocol_error (bs "frame length overflows usize"))
    else match admit_frame lim p (negb (Z.land v0 128 =? 0)) (Z.land v0 15) n with
         | Err e => Bad e
         | Ok _ => parse_body (negb (Z.land v0 128 =? 0)) (Z.land v0 15) n [] u
         end.
Proof using Type.
  intros v0 v1 len7 n H0 H1 He. cbn [parse_frame].
  fold v0 v1. rewrite H0, H1. cbn [Z.eqb negb]. fold len7.
  rewrite <- He, ztake_app, zdrop_app by done. zcase. done.
Qed.

Lemma extension_range n : 0 <= extension n <= 8.
Proof using Type. unfold extension. repeat zcase; lia. Qed.

Lemma fill_header_two c b d :
  cwf c -> header d = header c ++ b -> len b = Z.max 0 (2 - len (header c)) ->
  exists b0 b1 ext, header d = b0 :: b1 :: ext /\
    len ext <= extension (Z.land (Z_of_byte b1) 127).
Proof using Type.
  intros [_ Hh _] E Hb. unfold header_target in Hh.
  assert (Hl : len (header d) = len (header c) + len b) by by rewrite E, len_app.
  pose proof (len_nonneg (header c)) as Hc.
  destruct (header d) as [|b0 [|b1 ext]]; rewrite ?len_cons, ?len_nil in Hl; try lia.
  exists b0, b1, ext. split; [done|]. pose proof (extension_range (Z.land (Z_of_byte b1) 127)).
  destruct (Z.ltb_spec (len (header c)) 2); [lia|].
  assert (Hbn : b = []) by (apply len_0_nil; lia). subst b. rewrite app_nil_r in E. rewrite <- E in Hh.
  change (byte_at (b0 :: b1 :: ext) 1) with b1 in Hh. rewrite !len_cons in Hh. lia.
Qed.

Lemma header_target_ext b0 b1 ext b :
  len ext + len b <= extension (Z.land (Z_of_byte b1) 127) ->
  len ((b0 :: b1 :: ext) ++ b) <= header_target ((b0 :: b1 :: ext) ++ b).
Proof using Type.
  intros H. unfold header_target. change (byte_at ((b0 :: b1 :: ext) ++ b) 1) with b1.
  rewrite len_app, !len_cons. pose proof (len_nonneg ext). pose proof (len_nonneg b).
  zcase. lia.
Qed.

(** The bytes left, and the frame in progress. *)
Definition measure c : nat :=
  (length (header c) + length (unread c) + match incoming c with Some _ => 1 | None => 0 end)%nat.

(** Nothing was lost: the client is where it was, some bytes further. *)
Definition resumes c d : Prop :=
  cwf d /\ outlook d = outlook c /\ (measure d <= measure c)%nat.

(** An error of the codec, or of the transport with nothing lost. *)
Definition fails e c d : Prop :=
  outlook c = Broken e \/
  (transport e d /\ resumes c d /\ (unread d = [] -> outlook d = Wait)).

Lemma header_resumes c d b :
  incoming c = None -> incoming d = incoming c -> partial d = partial c ->
  header d = header c ++ b -> unread c = b ++ unread d -> outlook d = outlook c.
Proof using Type.
  intros Hi H1 H2 H3 H4. unfold outlook. rewrite H1, Hi, H2, H3, H4. by rewrite (assoc_L (++)).
Qed.

(** Without the rest of its header or payload, a frame waits. *)
Lemma two_waits d : incoming d = None -> len (header d) < 2 -> unread d = [] -> outlook d = Wait.
Proof using Type.
  intros Hi Hl Hu. unfold outlook. rewrite Hi, Hu, app_nil_r, next_eq.
  destruct (header d) as [|b0 [|b1 ext]]; [done..|]. rewrite !len_cons in Hl.
  pose proof (len_nonneg ext). lia.
Qed.

Lemma ext_waits d b0 b1 ext :
  Z.land (Z_of_byte b0) 112 = 0 -> Z.land (Z_of_byte b1) 128 = 0 ->
  incoming d = None -> header d = b0 :: b1 :: ext ->
  len ext < extension (Z.land (Z_of_byte b1) 127) -> unread d = [] -> outlook d = Wait.
Proof using Type.
  intros E0 E1 Hi Hh Hl Hu. unfold outlook. rewrite Hi, Hu, app_nil_r, Hh, next_eq.
  cbn [parse_frame]. rewrite E0, E1. cbn [Z.eqb negb]. by zcase.
Qed.

Lemma short_resumes c d b :
  incoming c = None -> header d = header c ++ b -> unread c = b ++ unread d ->
  incoming d = incoming c -> partial d = partial c -> pos_ok d ->
  len (header d) <= header_target (header d) -> resumes c d.
Proof using Type.
  intros Hi H1 H2 H3 H4 Hp Hl. split; [|split; [by eapply header_resumes|]].
  2: { unfold measure. rewrite H3, Hi, H1, H2, !length_app. lia. }
  split; [done|done|]. intros inc Hinc. rewrite H3, Hi in Hinc. done.
Qed.

(** The length the two bytes declare, with what follows them. *)
Lemma declared_range len7 ext : 0 <= len7 < 128 -> len ext = extension len7 ->
  0 <= declared len7 ext /\ (len7 <> 127 -> declared len7 ext <= usize_max).
Proof.
  intros H7 Hext. unfold declared. pose proof (be_value_range ext) as Hr. rewrite Hext in Hr. unfold extension in Hr.
  unfold usize_max. destruct (Z.ltb_spec len7 126); [lia|].
  destruct (Z.eqb_spec len7 126); [change (256 ^ 2) with 65536 in Hr; lia|lia].
Qed.

Lemma declared_spec len7 ext (c : WsClient S) : 0 <= len7 < 128 -> len ext = extension len7 ->
  wp (E := io_error) (if len7 =? 126 then ret (be_value (ztake 2 ext))
      else if len7 =? 127 then
        if be_value (ztake 8 ext) >? usize_max
        then fail (protocol_error (bs "frame length overflows usize"))
        else ret (be_value (ztake 8 ext))
      else ret len7)
    (fun o t => t = c /\
      o = if declared len7 ext >? usize_max then Err (protocol_error (bs "frame length overflows usize")) else Ok (declared len7 ext)) c.
Proof.
  intros H7 Hext. destruct (declared_range len7 ext H7 Hext) as [_ Hn]. unfold declared in *. unfold extension in Hext.
  destruct (Z.eqb_spec len7 126); [|destruct (Z.eqb_spec len7 127)]; cbn zeta.
  - rewrite (proj2 (Z.ltb_ge len7 126)) in * by lia. rewrite ztake_all by lia. apply wp_ret. zcase; done.
  - rewrite (proj2 (Z.ltb_ge len7 126)) in * by lia.
    destruct (Z.eqb_spec len7 127) in Hext; [|lia]. rewrite ztake_all by lia. zcase; [apply wp_fail|apply wp_ret]; done.
  - rewrite (proj2 (Z.ltb_lt len7 126)) in * by lia. apply wp_ret. zcase; done.
Qed.

(** The end of [read_header], once all of the header is there. *)
Definition header_fields (v0 len7 : Z) : M (WsClient S) io_error (option Incoming) :=
  let* c := get in
  modify (set_header []) ;;;
  let* n :=
    (if len7 =? 126 then ret (be_value (slice 2 4 (header c)))
     else if len7 =? 127 then
       let v := be_value (slice 2 10 (header c)) in
       if v >? usize_max then fail (protocol_error (bs "frame length overflows usize")) else ret v
     else ret len7) in
  lift (admit_frame lim (partial c) (negb (Z.land v0 128 =? 0)) (Z.land v0 15) n) ;;;
  ret (Some (MkIncoming (negb (Z.land v0 128 =? 0)) (Z.land v0 15) n [])).

Lemma header_fields_spec v0 len7 b0 b1 ext (c : WsClient S) :
  0 <= len7 < 128 -> header c = b0 :: b1 :: ext -> len ext = extension len7 ->
  let n := declared len7 ext in
  wp (header_fields v0 len7) (fun o d => d = set_header [] c /\
    o = if n >? usize_max then Err (protocol_error (bs "frame length overflows usize"))
        else match admit_frame lim (partial c) (negb (Z.land v0 128 =? 0)) (Z.land v0 15) n with
             | Err e => Err e
             | Ok _ => Ok (Some (MkIncoming (negb (Z.land v0 128 =? 0)) (Z.land v0 15) n []))
             end) c.
Proof.
  intros H7 Hh Hext. cbn zeta. unfold header_fields. repeat wp_step. rewrite Hh.
  change (slice 2 4 (b0 :: b1 :: ext)) with (ztake 2 ext).
  change (slice 2 10 (b0 :: b1 :: ext)) with (ztake 8 ext).
  eapply wp_mono; [apply (declared_spec len7 ext (set_header [] c) H7 Hext)|].
  cbn beta. intros o t [-> ->]. destruct (declared len7 ext >? usize_max); [done|].
  wp_steps. destruct (admit_frame _ _ _ _ _); by wp_steps.
Qed.

Lemma land_127 b : 0 <= Z.land (Z_of_byte b) 127 < 128.
Proof. change 127 with (Z.ones 7). rewrite Z.land_ones by lia. exact (Z.mod_pos_bound (Z_of_byte b) (2 ^ 7) eq_refl). Qed.

Lemma read_header_spec c : cwf c -> incoming c = None ->
  wp (read_header lim) (fun o d => (incoming d = None /\ partial d = partial c) /\
    match o with
    | Ok None => resumes c d /\ blocked
    | Ok (Some inc) =>
        pos_ok d /\ header d = [] /\ payload inc = [] /\ 0 <= size inc /\
        admit_frame lim (partial c) (fin inc) (opcode inc) (size inc) = Ok tt /\
        len (unread d) + 2 <= len (header c) + len (unread c) /\
        outlook c = after_frame lim (partial c)
          (parse_body (fin inc) (opcode inc) (size inc) [] (unread d))
    | Err e => fails e c d
    end) c.
Proof.
  intros Hc Hi. unfold read_header. apply wp_bind.
  wp_use (fill_header_spec 2 c (cwf_pos c Hc)). intros [[|]|e] d (b & H1 & H2 & H3 & H4 & Hp & H5).
  2: { destruct H5 as [H5 Hblk]. wp_steps. cbn. wp_steps. split; [split; cbn; congruence|]. split; [|done]. eapply short_resumes; eauto. unfold header_target. zcase; [lia|].
       rewrite H1, len_app in *. lia. }
  2: { split; [split; cbn; congruence|]. destruct H5 as [H5 Ht]. right. assert (len (header d) < 2) by (rewrite H1, len_app; lia).
       split; [done|split; [|apply two_waits; (done || congruence)]]. eapply short_resumes; eauto.
       unfold header_target. zcase. lia. }
  cbn [negb]. destruct (fill_header_two c b d Hc H1 H5) as (b0 & b1 & ext & Hh & He).
  assert (Hu : header c ++ unread c = b0 :: b1 :: ext ++ unread d).
  { rewrite H2, (assoc_L (++)), <- H1, Hh. done. }
  assert (Ho : outlook c = after_frame lim (partial c) (parse_frame lim (partial c) (b0 :: b1 :: ext ++ unread d))).
  { unfold outlook. by rewrite Hi, Hu, next_eq. }
  wp_step. wp_step. rewrite Hh. change (byte_at (b0 :: b1 :: ext) 0) with b0.
  change (byte_at (b0 :: b1 :: ext) 1) with b1.
  destruct (Z.eqb_spec (Z.land (Z_of_byte b0) 112) 0) as [E0|E0]; cbn [negb].
  2: { wp_steps. split; [split; cbn; congruence|]. left. rewrite Ho. cbn [parse_frame]. by rewrite (proj2 (Z.eqb_neq _ _) E0). }
  destruct (Z.eqb_spec (Z.land (Z_of_byte b1) 128) 0) as [E1|E1]; cbn [negb].
  2: { wp_steps. split; [split; cbn; congruence|]. left. rewrite Ho. cbn [parse_frame].
       by rewrite E0, (proj2 (Z.eqb_neq _ _) E1). }
  set (len7 := Z.land (Z_of_byte b1) 127) in *.
  set (total := if len7 =? 126 then 4 else if len7 =? 127 then 10 else 2).
  assert (Ht : total = 2 + extension len7).
  { subst total. unfold extension. repeat case_match; lia. }
  apply wp_bind. wp_use (fill_header_spec total d Hp).
  intros [[|]|e] d' (b' & H1' & H2' & H3' & H4' & Hp' & H5').
  all: assert (Hres : len (header d) + len b' <= total -> resumes c d') by (intros Hle;
    apply (short_resumes c d' (b ++ b')); [done|by rewrite H1', H1, (assoc_L (++))|by rewrite H2, H2', (assoc_L (++))|congruence|congruence|done|];
    rewrite H1', Hh; apply header_target_ext; rewrite Hh, !len_cons in Hle; fold len7; lia).
  2: { destruct H5' as [H5' Hblk]. wp_steps. cbn. wp_steps. split; [split; cbn; congruence|]. split; [apply Hres; lia|done]. }
  2: { split; [split; cbn; congruence|]. destruct H5' as [H5' Htr]. right.
       split; [done|split; [apply Hres; lia|]]. rewrite Hh, !len_cons in H5'.
       apply (ext_waits d' b0 b1 (ext ++ b')); (done || congruence || (by rewrite H1', Hh) || (rewrite len_app; fold len7; lia)). }
  cbn [negb]. set (ext' := ext ++ b').
  assert (Hext : len ext' = extension len7).
  { subst ext'. rewrite Hh, !len_cons in H5'. rewrite len_app. lia. }
  rewrite H2', (assoc_L (++)) in Ho. fold ext' in Ho. rewrite parse_frame_header in Ho by done.
  change (wp (header_fields (Z_of_byte b0) len7) ?Q d') with (wp (header_fields (Z_of_byte b0) len7) Q d').
  eapply wp_mono; [apply (header_fields_spec (Z_of_byte b0) len7 b0 b1 ext' d'); [apply land_127|by rewrite H1', Hh|done]|].
  cbn beta. fold len7 in Ho. set (n := declared len7 ext') in *. intros o t [-> ->]. rewrite H4', H4.
  destruct (n >? usize_max); [split; [split; cbn; congruence|by left]|].
  destruct (admit_frame lim (partial c) _ _ n) as [[]|e] eqn:Ea; [|split; [split; cbn; congruence|by left]].
  assert (Hlen : len (header c ++ unread c) = 2 + (len ext + (len b' + len (unread d')))).
  { by rewrite Hu, !len_cons, len_app, H2', len_app, Z.add_assoc. }
  rewrite len_app in Hlen. pose proof (len_nonneg ext). pose proof (len_nonneg b').
  destruct (declared_range len7 ext' (land_127 b1) Hext) as [Hn0 _].
  change (unread (set_header [] d')) with (unread d').
  split; [split; cbn; congruence|]. split_and!; (done || lia).
Qed.

(** The rest of the round, once the frame has a header. *)
Definition finish_round : M (WsClient S) io_error (option (option Frame)) :=
  let* c := get in
  match incoming c with
  | None => ret (Some None)
  | Some inc =>
      let* ready := or_block (fill_to fill put_payload (size inc) (len (payload inc))) in
      if negb ready then ret (Some None) else
      let* c := get in
      modify (set_incoming None) ;;;
      match incoming c with
      | None => ret (Some None)
      | Some inc =>
          let* f := zoom partial set_partial (dispatch inc) in
          ret (option_map Some f)
      end
  end.

Definition round_post c (o : result io_error (option (option Frame))) d : Prop :=
  match o with
  | Ok None => resumes c d /\ (measure d < measure c)%nat
  | Ok (Some None) => resumes c d /\ blocked
  | Ok (Some (Some f)) =>
      cwf d /\ outlook c = Got f (partial d) (unread d) /\ header d = [] /\ incoming d = None /\
      (measure d <= measure c)%nat
  | Err e => fails e c d
  end.

Lemma finish_round_spec c inc : cwf c -> incoming c = Some inc -> wp finish_round (round_post c) c.
Proof.
  intros [Hp Hh Hi] Hinc. destruct (Hi _ Hinc) as [Hh0 Hs]. unfold finish_round.
  wp_steps. rewrite Hinc. apply wp_bind. wp_use (fill_payload_spec inc c Hp Hinc).
  intros o d (b & Hu & H1 & H2 & Hp' & H3 & H4).
  assert (Hpart : len b <= size inc - len (payload inc) -> resumes c d).
  { intros Hb. split; [split; [done|by rewrite H1|]|split].
    - intros i Hi'. rewrite H3 in Hi'. injection Hi' as <-. rewrite H1. cbn. rewrite len_app. split; [done|lia].
    - unfold outlook. rewrite Hinc, H3, H2. cbn. f_equal. unfold parse_body. rewrite Hu, !len_app.
      pose proof (len_nonneg b). repeat zcase; [done|].
      rewrite ztake_app_r, zdrop_app_r by lia.
      replace (size inc - (len (payload inc) + len b)) with (size inc - len (payload inc) - len b) by lia.
      by rewrite (assoc_L (++)).
    - unfold measure. rewrite Hinc, H3, H1, Hu, length_app. lia. }
  destruct o as [[|]|e].
  - cbn [negb]. wp_steps. rewrite H3. wp_steps.
    set (inc' := MkIncoming (fin inc) (opcode inc) (size inc) (payload inc ++ b)).
    assert (Ho : outlook c = after_frame lim (partial c) (Whole inc' (unread d))).
    { unfold outlook. rewrite Hinc. f_equal. unfold parse_body. rewrite Hu, len_app.
      pose proof (len_nonneg (unread d)). zcase. rewrite ztake_app, zdrop_app by lia. done. }
    assert (Hm : forall p, (measure (set_partial p (set_incoming None d)) < measure c)%nat).
    { intros p. unfold measure. cbn. rewrite Hinc, H1.
      change (unread (set_partial p (set_incoming None d))) with (unread d).
      rewrite Hu, length_app. lia. }
    unfold wp. cbn [partial set_incoming]. rewrite H2.
    cbn [after_frame] in Ho. destruct (dispatch inc' (partial c)) as [p' [[f|]|e]]; cbn.
    + split_and!; [split; cbn; [done|by rewrite H1|done]|done|cbn; congruence|done|by apply Nat.lt_le_incl, Hm].
    + split; [split; [split; cbn; [done|by rewrite H1|done]|split]|].
      * rewrite Ho. unfold outlook. cbn. by rewrite H1, Hh0.
      * by apply Nat.lt_le_incl, Hm.
      * apply Hm.
    + by left.
  - destruct H4 as [H4 Hblk]. cbn [negb]. wp_steps. cbn. split; [apply Hpart; lia|done].
  - right. destruct H4 as [H4 Ht]. split; [done|split; [apply Hpart; lia|]]. intros Hu0.
    unfold outlook. rewrite H3, Hu0. cbn. unfold parse_body. rewrite len_app, len_nil. by zcase.
Qed.

Lemma read_frame_round_spec c : cwf c -> wp (read_frame_round lim) (round_post c) c.
Proof.
  intros Hc. unfold read_frame_round. apply wp_bind, wp_get. cbn beta iota.
  destruct (incoming c) as [inc|] eqn:Hi.
  { apply wp_bind, wp_ret. cbn beta iota. cbn [negb]. by eapply finish_round_spec. }
  apply wp_bind, wp_bind. wp_use (read_header_spec c Hc Hi).
  intros [[inc|]|e] d [[Hd0 Hpa] Hd]; [|by wp_steps|done].
  destruct Hd as (Hp & Hh & Hpl & Hs & _ & Hlen & Ho). wp_steps. cbn [negb].
  set (d' := set_incoming (Some inc) d).
  assert (Hd' : cwf d').
  { split; [done|by cbn; rewrite Hh|]. cbn. intros i [= <-]. by rewrite Hpl. }
  eapply wp_mono; [by apply (finish_round_spec d' inc)|].
  assert (Hoo : outlook c = outlook d').
  { unfold outlook at 2. cbn. rewrite Hpa, Hpl. done. }
  assert (Hm : (measure d' <= measure c)%nat).
  { unfold measure. rewrite Hi. cbn. change (unread d') with (unread d). rewrite Hh. unfold len in Hlen. cbn. lia. }
  unfold round_post, fails, resumes. rewrite Hoo. intros [[[f|]|]|e] e' H.
  - destruct H as (H1 & H2 & H3 & H4 & H5). split_and!; (done || lia).
  - destruct H as ((H1 & H2 & H3) & H4). split_and!; (done || lia).
  - destruct H as ((H1 & H2 & H3) & H4). split_and!; (done || lia).
  - destruct H as [H|(H1 & (H2 & H3 & H4) & H5)]; [by left|right]. split_and!; (done || lia).
Qed.

(** [read_frame], with fuel for a round per byte and one more. *)
Definition frame_post c (o : result io_error (option (option Frame))) d : Prop :=
  match o with
  | Ok None => False
  | Ok (Some None) => resumes c d /\ blocked
  | Ok (Some (Some f)) =>
      cwf d /\ outlook c = Got f (partial d) (unread d) /\ header d = [] /\ incoming d = None /\
      (measure d <= measure c)%nat
  | Err e => fails e c d
  end.

Lemma read_frame_spec fuel c : cwf c -> (measure c < fuel)%nat ->
  wp (read_frame lim fuel) (frame_post c) c.
Proof.
  intros Hc Hf. eapply wp_mono; [eapply (iterate_spec (read_frame_round lim)
    (resumes c) measure
    (fun o d => frame_post c (match o with Ok f => Ok (Some f) | Err e => Err e end) d));
    [|by split|done]|].
  - intros d (Hd & Ho & Hm). wp_use (read_frame_round_spec d Hd).
    unfold round_post, frame_post, fails, resumes. rewrite Ho. intros [[[f|]|]|e] d' H.
    + destruct H as (H1 & H2 & H3 & H4 & H5). split_and!; (done || lia).
    + destruct H as ((H1 & H2 & H3) & H4). split_and!; (done || lia).
    + destruct H as ((H1 & H2 & H3) & H4). split_and!; (done || lia).
    + destruct H as [H|(H1 & (H2 & H3 & H4) & H5)]; [by left|right]. split_and!; (done || lia).
  - cbn beta. intros [[[f|]|]|e] d H; done.
Qed.
End Machine.
