(* ===== verification/WsReference.v ===== *)
(** * What a server's byte string means, by RFC 6455

    A reading of the protocol that shares no function with the codec: the
    fields of a header as quotients and remainders, the opcodes as a table, a
    fragmented message as the list of its fragments, and what a frame is
    worth.  [Ws.admit_frame] and [Ws.dispatch] are proved to decide the same,
    so the reference parser of [WsSpec], which is built on them, reads what
    this one reads. *)

From S2P Require Import Prelude RustStr Io Ws WsSpec.
#[local] Set Default Proof Using "Type*".

(** ** The protocol *)

(** Section 5.2: the opcodes. *)
Inductive kind := ContinuationFrame | TextFrame | BinaryFrame | CloseFrame | PingFrame | PongFrame.
Definition kinds : list (Z * kind) :=
  [(0, ContinuationFrame); (1, TextFrame); (2, BinaryFrame); (8, CloseFrame); (9, PingFrame); (10, PongFrame)].
Definition kind_of (code : Z) : option kind :=
  snd <$> List.find (fun p => p.1 =? code) kinds.
Definition is_control (k : kind) : bool := match k with CloseFrame | PingFrame | PongFrame => true | _ => false end.

(** The message being put together: whether it is text, and its fragments so
    far, in order. *)
Definition unfinished : Type := option (bool * list bytes).

Definition violation (what : string) : io_error := IoError InvalidData (bs "websocket: " ++ bs what).

(** Sections 5.4 and 5.5, and the limits: what is wrong with a frame of this
    opcode and length here, if anything.  A size is counted in 32 bits and
    saturates. *)
Definition complaint (lim : Limits) (m : unfinished) (fin : bool) (code n : Z) : option string :=
  match kind_of code with
  | None => Some "reserved opcode"%string
  | Some k =>
      if is_control k then
        if fin then if n <=? 125 then None else Some "control frame payload over 125 bytes"%string
        else Some "fragmented control frame"%string
      else
        match k, m with
        | ContinuationFrame, None => Some "continuation frame without a message"%string
        | ContinuationFrame, Some (_, fragments) =>
            if max_message_size lim <? Z.min (2 ^ 32 - 1) (len (concat fragments) + n) then
              Some "fragmented message over the size limit"%string
            else if max_frame_size lim <? n then Some "frame over the size limit"%string
            else None
        | _, Some _ => Some "new data frame inside a fragmented message"%string
        | _, None =>
            if max_frame_size lim <? n then Some "frame over the size limit"%string
            else if fin || (n <=? max_message_size lim) then None
            else Some "fragmented message over the size limit"%string
        end
  end.

Definition message (is_text : bool) (data : bytes) : Frame := if is_text then Text data else Binary data.

(** Section 5.5.1: the body of a close frame. *)
Definition close_frame (payload : bytes) : Frame + string :=
  match payload with
  | [] => inl (Close None)
  | [_] => inr "close frame with a 1-byte payload"%string
  | high :: low :: reason =>
      if utf8_valid reason then inl (Close (Some (Z_of_byte high * 256 + Z_of_byte low, reason)))
      else inr "close reason is not UTF-8"%string
  end.

(** What a complete frame gives: something for the reader, nothing yet, or an
    error; and what is unfinished after it. *)
Definition deliver (m : unfinished) (fin : bool) (k : kind) (payload : bytes) : unfinished * (option Frame + string) :=
  match k with
  | PingFrame => (m, inl (Some (Ping payload)))
  | PongFrame => (m, inl (Some (Pong payload)))
  | CloseFrame => (m, match close_frame payload with inl f => inl (Some f) | inr what => inr what end)
  | TextFrame | BinaryFrame =>
      let is_text := match k with TextFrame => true | _ => false end in
      if fin then (None, inl (Some (message is_text payload))) else (Some (is_text, [payload]), inl None)
  | ContinuationFrame =>
      match m with
      | None => (None, inl None)
      | Some (is_text, fragments) =>
          let fragments := fragments ++ [payload] in
          if fin then (None, inl (Some (message is_text (concat fragments)))) else (Some (is_text, fragments), inl None)
      end
  end.

(** The frames of [l], one after the other, and the error that ends them. *)
Fixpoint read_fuel (fuel : nat) (lim : Limits) (m : unfinished) (l : bytes) : list Frame * option io_error :=
  match fuel, l with
  | S fuel, b0 :: b1 :: l =>
      let b0 := Z_of_byte b0 in
      let b1 := Z_of_byte b1 in
      if negb (b0 / 16 mod 8 =? 0) then ([], Some (violation "reserved bits set"))
      else if 128 <=? b1 then ([], Some (violation "server frame is masked"))
      else
        let k := extension b1 in
        if len l <? k then ([], None)
        else
          let n := declared b1 (ztake k l) in
          let l := zdrop k l in
          if 2 ^ 32 <=? n then ([], Some (violation "frame length overflows usize"))
          else
            match complaint lim m (128 <=? b0) (b0 mod 16) n, kind_of (b0 mod 16) with
            | Some what, _ => ([], Some (violation what))
            | None, None => ([], None)
            | None, Some k =>
                if len l <? n then ([], None)
                else
                  match deliver m (128 <=? b0) k (ztake n l) with
                  | (_, inr what) => ([], Some (violation what))
                  | (m, inl None) => read_fuel fuel lim m (zdrop n l)
                  | (m, inl (Some f)) => let '(fs, e) := read_fuel fuel lim m (zdrop n l) in (f :: fs, e)
                  end
            end
  | _, _ => ([], None)
  end.
Definition meaning (lim : Limits) (l : bytes) : list Frame * option io_error := read_fuel (S (length l)) lim None l.

(** ** The codec decides the same *)

(** The codec keeps one buffer for the fragments. *)
Definition joined (m : unfinished) : option Partial :=
  option_map (fun m => MkPartial (if (m.1 : bool) then OP_TEXT else OP_BINARY) (concat m.2)) m.

Lemma byte_fields b :
  (Z.land (Z_of_byte b) 112 =? 0) = (Z_of_byte b / 16 mod 8 =? 0) /\
  (Z.land (Z_of_byte b) 128 =? 0) = negb (128 <=? Z_of_byte b) /\
  Z.land (Z_of_byte b) 15 = Z_of_byte b mod 16 /\
  (Z_of_byte b < 128 -> Z.land (Z_of_byte b) 127 = Z_of_byte b).
Proof. destruct b; vm_compute; by split_and!. Qed.

(** The six opcodes, and the others. *)
Lemma kind_of_cases code :
  match kind_of code with
  | Some ContinuationFrame => code = OP_CONTINUATION
  | Some TextFrame => code = OP_TEXT
  | Some BinaryFrame => code = OP_BINARY
  | Some CloseFrame => code = OP_CLOSE
  | Some PingFrame => code = OP_PING
  | Some PongFrame => code = OP_PONG
  | None => code ∉ [OP_CONTINUATION; OP_TEXT; OP_BINARY; OP_CLOSE; OP_PING; OP_PONG]
  end.
Proof.
  unfold kind_of, kinds. cbn [List.find fst].
  destruct (Z.eqb_spec 0 code); [done|]. destruct (Z.eqb_spec 1 code); [done|]. destruct (Z.eqb_spec 2 code); [done|].
  destruct (Z.eqb_spec 8 code); [done|]. destruct (Z.eqb_spec 9 code); [done|]. destruct (Z.eqb_spec 10 code); [done|].
  cbn. rewrite !not_elem_of_cons. unfold OP_CONTINUATION, OP_TEXT, OP_BINARY, OP_CLOSE, OP_PING, OP_PONG.
  split_and!; try done. apply not_elem_of_nil.
Qed.

Lemma admit_frame_complaint lim m fin code n :
  admit_frame lim (joined m) fin code n =
    match complaint lim m fin code n with Some what => Err (violation what) | None => Ok tt end.
Proof.
  unfold complaint, admit_frame, MAX_CONTROL_PAYLOAD, saturating_add, usize_max.
  pose proof (kind_of_cases code) as Hk. destruct (kind_of code) as [[]|]; subst; cbn [is_control].
  - destruct m as [[t fr]|]; cbn; [|done]. by repeat zcase.
  - destruct m as [[t fr]|]; cbn; [done|]. by repeat zcase; destruct fin.
  - destruct m as [[t fr]|]; cbn; [done|]. by repeat zcase; destruct fin.
  - cbn. destruct fin; cbn; [|done]. by repeat zcase.
  - cbn. destruct fin; cbn; [|done]. by repeat zcase.
  - cbn. destruct fin; cbn; [|done]. by repeat zcase.
  - rewrite !not_elem_of_cons in Hk. destruct Hk as (H1 & H2 & H3 & H4 & H5 & H6 & _).
    rewrite !(proj2 (Z.eqb_neq code _)) by done. done.
Qed.

Lemma parse_close_frame payload :
  parse_close payload =
    match close_frame payload with
    | inl (Close r) => Ok r
    | inl _ => Ok None
    | inr what => Err (violation what)
    end.
Proof.
  unfold parse_close. destruct payload as [|a [|b reason]]; try done. cbn [close_frame].
  pose proof (len_nonneg reason). rewrite !len_cons. repeat zcase.
  change (zdrop 2 (a :: b :: reason)) with reason. change (ztake 2 (a :: b :: reason)) with [a; b].
  destruct (utf8_valid reason); [|done]. do 3 f_equal. unfold be_value. cbn. lia.
Qed.

Lemma dispatch_deliver lim m fin code n k payload :
  kind_of code = Some k -> complaint lim m fin code n = None ->
  dispatch (MkIncoming fin code n payload) (joined m) =
    let '(m', r) := deliver m fin k payload in
    match r with
    | inl f => (joined m', Ok f)
    | inr what => (joined m', Err (violation what))
    end.
Proof.
  unfold complaint. intros Hk Hc. rewrite Hk in Hc. pose proof (kind_of_cases code) as Hcode. rewrite Hk in Hcode.
  unfold dispatch. destruct k; subst; cbn [opcode Ws.payload Ws.fin].
  - destruct m as [[t fr]|]; [|done].
    destruct fin, t; cbn; unfold joined; cbn; rewrite concat_app; cbn; by rewrite app_nil_r.
  - destruct m; [done|]. by destruct fin; cbn; rewrite ?app_nil_r.
  - destruct m; [done|]. by destruct fin; cbn; rewrite ?app_nil_r.
  - cbn. unfold bind, lift, ret. rewrite parse_close_frame.
    destruct payload as [|a [|b reason]]; cbn; [done|done|]. by destruct (utf8_valid reason).
  - done.
  - done.
Qed.

(** ** So the reference parser of [WsSpec] reads the same *)

Lemma parse_frame_fields lim m b0 b1 l :
  let v0 := Z_of_byte b0 in
  let v1 := Z_of_byte b1 in
  parse_frame lim (joined m) (b0 :: b1 :: l) =
    if negb (v0 / 16 mod 8 =? 0) then Bad (violation "reserved bits set")
    else if 128 <=? v1 then Bad (violation "server frame is masked")
    else if len l <? extension v1 then NeedMore
    else
      let n := declared v1 (ztake (extension v1) l) in
      if 2 ^ 32 <=? n then Bad (violation "frame length overflows usize")
      else match complaint lim m (128 <=? v0) (v0 mod 16) n with
           | Some what => Bad (violation what)
           | None => parse_body (128 <=? v0) (v0 mod 16) n [] (zdrop (extension v1) l)
           end.
Proof.
  intros v0 v1. cbn [parse_frame]. fold v0 v1.
  destruct (byte_fields b0) as (Er & E0 & E1 & _). destruct (byte_fields b1) as (_ & E2 & _ & E3).
  fold v0 in Er, E0, E1. fold v1 in E2, E3.
  rewrite Er, E0, E1, E2. destruct (negb (_ =? 0)); [done|]. destruct (Z.leb_spec 128 v1) as [H|H]; [done|]. rewrite (E3 H).
  cbn [negb]. destruct (len l <? extension v1); [done|]. cbn zeta. unfold usize_max. rewrite Z.gtb_ltb.
  assert ((2 ^ 32 - 1 <? declared v1 (ztake (extension v1) l)) = (2 ^ 32 <=? declared v1 (ztake (extension v1) l))) as ->.
  { apply eq_true_iff_eq. rewrite Z.ltb_lt, Z.leb_le. lia. }
  destruct (2 ^ 32 <=? _); [done|]. rewrite negb_involutive, admit_frame_complaint. by destruct (complaint _ _ _ _ _).
Qed.

Lemma messages_read lim fuel : forall m l, (length l < fuel)%nat -> messages lim (joined m) l = read_fuel fuel lim m l.
Proof.
  induction fuel as [|fuel IH]; intros m l Hl; [lia|]. rewrite messages_eq, next_eq.
  destruct l as [|b0 [|b1 l]]; [done..|]. rewrite parse_frame_fields. cbn [read_fuel].
  destruct (negb _); [done|]. destruct (128 <=? Z_of_byte b1); [done|]. destruct (len l <? extension _); [done|]. cbn zeta.
  set (n := declared _ _). set (l' := zdrop (extension _) l). destruct (2 ^ 32 <=? n); [done|].
  destruct (complaint _ _ _ _ _) as [what|] eqn:Ec; [done|].
  destruct (kind_of _) as [k|] eqn:Ek; [|unfold complaint in Ec; by rewrite Ek in Ec].
  unfold parse_body. rewrite len_nil, Z.sub_0_r. destruct (len l' <? n); [done|]. cbn [app after_frame].
  rewrite (dispatch_deliver lim m _ _ n k) by done.
  assert (Hr : (length (zdrop n l') < fuel)%nat).
  { subst l'. unfold zdrop. rewrite !length_drop. cbn [length] in Hl. lia. }
  destruct (deliver m _ k _) as [m' [[f|]|what]]; [| |done].
  - cbn [rest_of]. by rewrite IH.
  - rewrite <- messages_eq. by apply IH.
Qed.

(** From the start of a connection. *)
Lemma messages_meaning lim l : messages lim None l = meaning lim l.
Proof. apply (messages_read lim _ None). lia. Qed.
