(* ===== verification/WsTheorems.v ===== *)
(** * What the WebSocket codec guarantees *)

From S2P Require Import Prelude RustStr Io Ws WsSpec WsReference.
#[local] Set Default Proof Using "Type*".

(** ** Delivery *)

(** A client just after its handshake. *)
Definition fresh_client {S} (s : S) (pending : bytes) : WsClient S :=
  MkClient s pending 0 [] None None.

Section Delivery.
Context {S : Type} `{!Reader S, lawsR : !ReaderLaws S} (lim : Limits).
Implicit Types (c d : WsClient S) (s : S) (pending : bytes).

(** How a caller's loop ended: every call was made, one failed, or one ran out
    of the fuel its model is given. *)
Inductive ending := Polled | Failed (e : io_error) | OutOfFuel.

(** The caller's loop: [n] calls of [read_frame], the frames they gave and
    how it ended. *)
Fixpoint poll (fuel n : nat) c : list Frame * ending * WsClient S :=
  match n with
  | O => ([], Polled, c)
  | Datatypes.S n =>
      match read_frame lim fuel c with
      | (d, Ok (Some (Some f))) => let '(fs, e, d) := poll fuel n d in (f :: fs, e, d)
      | (d, Ok (Some None)) => poll fuel n d
      | (d, Ok None) => ([], OutOfFuel, d)
      | (d, Err e) => ([], Failed e, d)
      end
  end.

Definition to_come c : list Frame * option io_error := rest_of lim (outlook lim c).

Lemma fresh_cwf s pending : cwf (fresh_client s pending).
Proof using Type.
  split; cbn; [split; [done|apply len_nonneg]|done|done].
Qed.

Lemma fresh_to_come s pending :
  to_come (fresh_client s pending) = messages lim None (pending ++ wire s).
Proof using Type. rewrite messages_eq. unfold to_come, outlook, unread. cbn -[next]. by rewrite zdrop_0 by lia. Qed.

Lemma after_got c d f :
  outlook lim c = Got f (partial d) (unread d) -> header d = [] -> incoming d = None ->
  to_come c = (f :: (to_come d).1, (to_come d).2).
Proof using Type.
  intros Ho Hh Hi. unfold to_come. rewrite Ho. cbn [rest_of]. rewrite messages_eq.
  unfold outlook. rewrite Hi, Hh. cbn [app]. by destruct (rest_of lim _).
Qed.

(** What [poll] gives is the front of what the client has to say, and all the
    calls give a frame unless the stream blocked. *)
Lemma poll_spec fuel n : forall c,
  cwf c -> (measure c < fuel)%nat ->
  let '(fs, e, d) := poll fuel n c in
  match e with
  | Polled => to_come c = (fs ++ (to_come d).1, (to_come d).2) /\ (length fs = n \/ blocked (S := S))
  | OutOfFuel => False
  | Failed e =>
      to_come c = (fs, Some e) \/
      (transport e d /\ to_come c = (fs ++ (to_come d).1, (to_come d).2) /\
       (unread d = [] -> to_come d = ([], None)))
  end.
Proof.
  induction n as [|n IH]; intros c Hc Hm; cbn [poll].
  { split; [by destruct (to_come c)|by left]. }
  pose proof (read_frame_spec lim fuel c Hc Hm) as H. unfold wp in H.
  destruct (read_frame lim fuel c) as [d [[[f|]|]|e]]; cbn in H.
  - destruct H as (H1 & H2 & H3 & H4 & H5).
    specialize (IH d H1 ltac:(lia)). destruct (poll fuel n d) as [[fs e] d'].
    rewrite (after_got c d f H2 H3 H4). destruct e as [|e|]; [| |done].
    + destruct IH as [-> [<-|Hb]]; (split; [done|]); [by left|by right].
    + destruct IH as [IH|(IH1 & IH2 & IH3)]; [left; by rewrite IH|right].
      split_and!; [done|by rewrite IH2|done].
  - destruct H as ((H1 & H2 & H3) & Hb). specialize (IH d H1 ltac:(lia)).
    unfold to_come in *. rewrite H2 in IH. destruct (poll fuel n d) as [[fs e] d']. destruct e; [|done..].
    split; [apply IH|by right].
  - done.
  - destruct H as [H|(H1 & (H2 & H3 & H4) & H5)].
    + left. unfold to_come. by rewrite H.
    + right. unfold to_come. rewrite H3. split_and!; [done|by destruct (rest_of lim _)|].
      intros Hu. rewrite <- H3, H5 by done. done.
Qed.

(** Enough fuel for any wait: a round per byte, and one. *)
Definition plenty (pending : bytes) (s : S) (fuel : nat) : Prop :=
  (length (pending ++ wire s) < fuel)%nat.

Lemma fresh_measure s pending fuel : plenty pending s fuel -> (measure (fresh_client s pending) < fuel)%nat.
Proof using Type.
  unfold plenty, measure, unread. cbn. rewrite zdrop_0 by lia. lia.
Qed.

(** C10. Frames are delivered exactly, whatever the chunking.  Poll a fresh
    client any number of times over a stream that may cut its bytes anywhere
    and block anywhere in between.  The frames handed over are the front of
    those that the bytes of the connection (the handshake leftover and the
    wire) mean by RFC 6455 ([WsReference.meaning], which shares no function
    with the codec), in order, none twice.  If polling ended in a protocol
    error, they are all the frames before that error, and it is the error the
    bytes mean; if it ended because the peer closed, they are all the frames
    there are; any other error is one of the stream's.  If it did not end,
    every call gave a frame, unless the stream had nothing to give for a
    while.  The loop of [read_frame] never runs out of fuel. *)
Theorem ws_delivery_exact fuel n s pending :
  plenty pending s fuel ->
  let '(fs, ended, _) := poll fuel n (fresh_client s pending) in
  let whole := meaning lim (pending ++ wire s) in
  fs `prefix_of` whole.1 /\
  match ended with
  | Polled => length fs = n \/ exists m t e, (read m t).2 = Err e /\ is_would_block e = true
  | Failed e =>
      whole = (fs, Some e) \/
      (e = closed /\ whole = (fs, None)) \/
      exists m t, (read m t).2 = Err e
  | OutOfFuel => False
  end.
Proof.
  intros Hf. pose proof (poll_spec fuel n _ (fresh_cwf s pending) (fresh_measure s pending fuel Hf)) as H.
  rewrite fresh_to_come, messages_meaning in H.
  destruct (poll fuel n _) as [[fs e] d]. destruct (meaning lim _) as [whole err]. cbn in *.
  destruct e as [|e|]; [| |done].
  - destruct H as [[= -> _] H]. split; [by eexists|done].
  - destruct H as [[= -> ->]|(Ht & [= -> ->] & Hu)]; [split; [done|by left]|].
    split; [by eexists|]. right. destruct Ht as [[-> Ht]|Ht]; [left|by right].
    rewrite (Hu Ht). cbn. by rewrite app_nil_r.
Qed.
End Delivery.

(** A peer that cuts two frames badly. *)
Definition choppy : script :=
  Script [Data [x82]; Fault WouldBlock; Data [x03; x61]; Fault TimedOut; Data [x62; x63; x89];
          Data [x01]; Fault Interrupted; Data [x21; x02]; Data [x01; x7a; x80; x01; x7a]] [] None.
Definition small : Limits := {| max_frame_size := 100; max_message_size := 100 |}.

Lemma ws_delivery_exact_witness :
  plenty [] choppy 30 /\
  (poll small 30 9 (fresh_client choppy [])).1 = ([Binary (bs "abc"); Ping (bs "!"); Binary (bs "zz")], Failed closed) /\
  meaning small (wire choppy) = ([Binary (bs "abc"); Ping (bs "!"); Binary (bs "zz")], None).
Proof.
  assert (Hp : plenty [] choppy 30) by (unfold plenty; vm_compute; lia).
  pose proof (ws_delivery_exact small 30 9 choppy [] Hp) as H.
  assert (E : (poll small 30 9 (fresh_client choppy [])).1 =
    ([Binary (bs "abc"); Ping (bs "!"); Binary (bs "zz")], Failed closed)) by by vm_compute.
  split; [exact Hp|]. split; [exact E|].
  destruct (poll small 30 9 (fresh_client choppy [])) as [[fs e] d]. cbn in E.
  injection E as -> ->. destruct H as [_ [H|[[_ H]|(m & t & H)]]].
  - exfalso. vm_compute in H. discriminate.
  - exact H.
  - by vm_compute.
Defined.

(** ** What a server sends *)

Definition length_field (n : Z) : bytes :=
  if n <=? 125 then [byte_of_Z n]
  else if n <=? 65535 then byte_of_Z 126 :: be_bytes 2 n
  else byte_of_Z 127 :: be_bytes 8 n.
Definition server_frame (fin : bool) (op : Z) (p : bytes) : bytes :=
  byte_of_Z ((if fin then 128 else 0) + op) :: length_field (len p) ++ p.

Inductive control := CPing (p : bytes) | CPong (p : bytes) | CClose (reason : option (Z * bytes)).
Definition control_op (c : control) : Z :=
  match c with CPing _ => OP_PING | CPong _ => OP_PONG | CClose _ => OP_CLOSE end.
Definition control_payload (c : control) : bytes :=
  match c with
  | CPing p | CPong p => p
  | CClose None => []
  | CClose (Some (code, reason)) => be_bytes 2 code ++ reason
  end.
Definition control_frame (c : control) : Frame :=
  match c with CPing p => Ping p | CPong p => Pong p | CClose r => Close r end.
Definition control_ok (c : control) : Prop :=
  len (control_payload c) <= 125 /\
  match c with
  | CClose (Some (code, reason)) => 0 <= code < 65536 /\ utf8_valid reason = true
  | _ => True
  end.
Definition encode_control (c : control) : bytes := server_frame true (control_op c) (control_payload c).

(** A control frame, or a message in one or more fragments with control
    frames between them. *)
Inductive item :=
| Control (c : control)
| Message (text : bool) (first : bytes) (more : list (list control * bytes)).

Definition data_op (text : bool) : Z := if text then OP_TEXT else OP_BINARY.
Definition is_nil {A} (l : list A) : bool := match l with [] => true | _ => false end.
Fixpoint encode_more (more : list (list control * bytes)) : bytes :=
  match more with
  | [] => []
  | (cs, frag) :: more =>
      concat (map encode_control cs) ++ server_frame (is_nil more) OP_CONTINUATION frag ++ encode_more more
  end.
Definition encode_item (i : item) : bytes :=
  match i with
  | Control c => encode_control c
  | Message text first more => server_frame (is_nil more) (data_op text) first ++ encode_more more
  end.
Definition data_frame (text : bool) (data : bytes) : Frame := if text then Text data else Binary data.
Definition frames_of (i : item) : list Frame :=
  match i with
  | Control c => [control_frame c]
  | Message text first more =>
      concat (map (fun x => map control_frame x.1) more) ++
      [data_frame text (first ++ concat (map snd more))]
  end.

(** Within the limits. *)
Definition frag_ok (lim : Limits) (frag : bytes) : Prop :=
  len frag <= max_frame_size lim /\ len frag <= usize_max.
Definition item_ok (lim : Limits) (i : item) : Prop :=
  match i with
  | Control c => control_ok c
  | Message _ first more =>
      frag_ok lim first /\
      Forall (fun x => Forall control_ok x.1 /\ frag_ok lim x.2) more /\
      (more <> [] -> len first + len (concat (map snd more)) <= max_message_size lim)
  end.

Section Roundtrip.
Context (lim : Limits).

Lemma land_low n : 0 <= n < 128 -> Z.land n 127 = n /\ Z.land n 128 = 0.
Proof.
  intros Hn. assert (H : Z.land n 127 = n).
  { change 127 with (Z.ones 7). rewrite Z.land_ones by lia. by apply Z.mod_small. }
  split; [done|]. rewrite <- H, <- Z.land_assoc. apply Z.land_0_r.
Qed.

Definition known_op (op : Z) : Prop := In op [0; 1; 2; 8; 9; 10].

Lemma known_op_bits (fin : bool) op : known_op op ->
  let v := Z_of_byte (byte_of_Z ((if fin then 128 else 0) + op)) in
  Z.land v 112 = 0 /\ Z.land v 15 = op /\ negb (Z.land v 128 =? 0) = fin.
Proof. intros H. repeat (destruct H as [<-|H]; [by destruct fin|]). done. Qed.

Lemma parse_server_frame p fin op pl rest :
  known_op op -> len pl <= usize_max -> admit_frame lim p fin op (len pl) = Ok tt ->
  parse_frame lim p (server_frame fin op pl ++ rest) = Whole (MkIncoming fin op (len pl) pl) rest.
Proof.
  intros Hop Hu Ha. pose proof (len_nonneg pl) as H0.
  assert (Hl : exists b1 ext, length_field (len pl) = b1 :: ext /\ Z.land (Z_of_byte b1) 128 = 0 /\
    len ext = extension (Z.land (Z_of_byte b1) 127) /\ declared (Z.land (Z_of_byte b1) 127) ext = len pl).
  { unfold length_field. repeat zcase.
    - exists (byte_of_Z (len pl)), []. rewrite Z_of_byte_of_Z, (Z.mod_small (len pl)) by lia.
      assert (Hr : 0 <= len pl < 128) by lia. destruct (land_low (len pl) Hr) as [-> ->].
      unfold extension, declared. repeat zcase; done.
    - exists (byte_of_Z 126), (be_bytes 2 (len pl)). change (Z_of_byte (byte_of_Z 126)) with 126. split_and!; [done..|].
      unfold declared. cbn [Z.land]. change (Z.land 126 127 <? 126) with false.
      rewrite be_value_bytes. apply Z.mod_small. change (256 ^ Z.of_nat 2) with 65536. lia.
    - exists (byte_of_Z 127), (be_bytes 8 (len pl)). change (Z_of_byte (byte_of_Z 127)) with 127. split_and!; [done..|].
      unfold declared. change (Z.land 127 127 <? 126) with false. cbn iota.
      rewrite be_value_bytes. apply Z.mod_small. unfold usize_max in Hu.
      change (256 ^ Z.of_nat 8) with (2 ^ 64). lia. }
  destruct Hl as (b1 & ext & El & Hm & He & Hd). destruct (known_op_bits fin op Hop) as (B1 & B2 & B3).
  unfold server_frame. rewrite El. cbn [app]. rewrite <- (assoc_L (++)).
  rewrite parse_frame_header by done. cbn zeta. rewrite B2, B3, Hd, Ha. zcase.
  unfold parse_body. rewrite len_nil, Z.sub_0_r. pose proof (len_nonneg rest). zcase.
  rewrite ztake_app, zdrop_app by done. done.
Qed.

Definition then_frames (fs : list Frame) (r : list Frame * option io_error) :=
  (fs ++ r.1, r.2).

Lemma then_frames_nil r : then_frames [] r = r. Proof. by destruct r. Qed.
Lemma then_frames_app fs gs r : then_frames (fs ++ gs) r = then_frames fs (then_frames gs r).
Proof. unfold then_frames. cbn. by rewrite (assoc_L (++)). Qed.

(** A frame that makes a message, and one that is folded. *)
Lemma messages_frame p fin op pl rest f p' :
  known_op op -> len pl <= usize_max -> admit_frame lim p fin op (len pl) = Ok tt ->
  dispatch (MkIncoming fin op (len pl) pl) p = (p', Ok (Some f)) ->
  messages lim p (server_frame fin op pl ++ rest) = then_frames [f] (messages lim p' rest).
Proof.
  intros Hop Hu Ha Hd. rewrite messages_eq, next_eq, parse_server_frame by done.
  cbn [after_frame]. rewrite Hd. cbn [rest_of]. unfold then_frames. by destruct (messages lim p' rest).
Qed.

Lemma messages_fold p fin op pl rest p' :
  known_op op -> len pl <= usize_max -> admit_frame lim p fin op (len pl) = Ok tt ->
  dispatch (MkIncoming fin op (len pl) pl) p = (p', Ok None) ->
  messages lim p (server_frame fin op pl ++ rest) = messages lim p' rest.
Proof.
  intros Hop Hu Ha Hd. rewrite messages_eq, next_eq, parse_server_frame by done.
  cbn [after_frame]. rewrite Hd. by rewrite messages_eq.
Qed.

Lemma messages_control c p rest : control_ok c ->
  messages lim p (encode_control c ++ rest) = then_frames [control_frame c] (messages lim p rest).
Proof.
  intros [Hl Hc]. apply messages_frame.
  - destruct c; cbn; tauto.
  - unfold usize_max. lia.
  - unfold admit_frame, MAX_CONTROL_PAYLOAD. rewrite (Z.gtb_ltb _ 125), (proj2 (Z.ltb_ge 125 _)) by done.
    by destruct c.
  - destruct c as [q|q|[[code reason]|]]; try done. cbn -[be_bytes utf8_valid].
    unfold parse_close. destruct Hc as [Hcode Hutf]. rewrite len_app, len_be_bytes.
    pose proof (len_nonneg reason). repeat zcase.
    rewrite ztake_app, zdrop_app by by rewrite len_be_bytes.
    rewrite Hutf, be_value_bytes. rewrite Z.mod_small; [done|]. change (256 ^ Z.of_nat 2) with 65536. lia.
Qed.

Lemma messages_controls cs p rest : Forall control_ok cs ->
  messages lim p (concat (map encode_control cs) ++ rest) =
  then_frames (map control_frame cs) (messages lim p rest).
Proof.
  induction 1 as [|c cs Hc _ IH]; cbn [map concat]; [by rewrite then_frames_nil|].
  rewrite <- (assoc_L (++)), messages_control, IH by done. by rewrite <- then_frames_app.
Qed.

Lemma admit_continuation fin op acc frag :
  len acc + len frag <= max_message_size lim -> frag_ok lim frag ->
  admit_frame lim (Some (MkPartial op acc)) fin OP_CONTINUATION (len frag) = Ok tt.
Proof.
  intros Hm [Hf _]. unfold admit_frame, saturating_add. cbn [OP_CONTINUATION Z.eqb orb buf].
  repeat zcase; done.
Qed.

Lemma messages_more more : forall text acc rest,
  more <> [] -> Forall (fun x => Forall control_ok x.1 /\ frag_ok lim x.2) more ->
  len acc + len (concat (map snd more)) <= max_message_size lim ->
  messages lim (Some (MkPartial (data_op text) acc)) (encode_more more ++ rest) =
  then_frames (concat (map (fun x => map control_frame x.1) more) ++
               [data_frame text (acc ++ concat (map snd more))])
    (messages lim None rest).
Proof.
  induction more as [|[cs frag] more IH]; intros text acc rest Hne Hall Hmax; [done|].
  apply Forall_cons in Hall as [[Hcs Hfrag] Hall]. cbn [map concat encode_more fst snd] in *.
  rewrite len_app in Hmax. pose proof (len_nonneg (concat (map snd more))) as H0.
  rewrite <- !(assoc_L (++)), then_frames_app, messages_controls by done. f_equal.
  assert (Ha : forall b, admit_frame lim (Some (MkPartial (data_op text) acc)) b OP_CONTINUATION (len frag) = Ok tt).
  { intros b. apply admit_continuation; [lia|done]. }
  assert (Hop : known_op OP_CONTINUATION) by by left.
  destruct more as [|m more]; cbn [is_nil].
  - cbn [map concat encode_more app]. rewrite app_nil_r.
    apply messages_frame; [done|apply Hfrag|apply Ha|]. by destruct text.
  - rewrite (messages_fold _ _ _ _ _ (Some (MkPartial (data_op text) (acc ++ frag))));
      [|done|apply Hfrag|apply Ha|by destruct text].
    rewrite IH; [by rewrite <- (assoc_L (++))|done|done|rewrite len_app; lia].
Qed.

Lemma messages_item i rest : item_ok lim i ->
  messages lim None (encode_item i ++ rest) = then_frames (frames_of i) (messages lim None rest).
Proof.
  destruct i as [c|text first more]; [by apply messages_control|]. intros (Hf & Hall & Hmax).
  assert (Hop : known_op (data_op text)) by (destruct text; cbn; tauto).
  cbn [encode_item frames_of]. rewrite <- (assoc_L (++)).
  assert (Hg : (max_frame_size lim <? len first) = false) by (apply Z.ltb_ge, Hf).
  destruct more as [|m more]; cbn [is_nil].
  - cbn [map concat encode_more app]. rewrite app_nil_r. apply messages_frame; [done|apply Hf| |by destruct text].
    unfold admit_frame. rewrite !Z.gtb_ltb, Hg. by destruct text.
  - specialize (Hmax ltac:(done)). set (others := m :: more) in *.
    pose proof (len_nonneg (concat (map snd others))) as H0.
    rewrite (messages_fold _ _ _ _ _ (Some (MkPartial (data_op text) first))).
    + by rewrite messages_more.
    + done.
    + apply Hf.
    + unfold admit_frame. rewrite !Z.gtb_ltb, Hg.
      rewrite (proj2 (Z.ltb_ge (max_message_size lim) _)) by lia. by destruct text.
    + by destruct text.
Qed.

(** What a server sends is what the client gets.  Encode any sequence of
    messages, whole or cut into fragments with control frames between them,
    each fragment and each message within the limits, and close frames with
    a UTF-8 reason: the messages found in the bytes are exactly those sent,
    the control frames of a fragmented message coming before it, and no
    byte is left over. *)
Theorem server_messages_roundtrip items :
  Forall (item_ok lim) items ->
  messages lim None (concat (map encode_item items)) = (concat (map frames_of items), None).
Proof.
  induction 1 as [|i items Hi _ IH]; cbn [map concat]; [done|].
  by rewrite messages_item, IH.
Qed.
End Roundtrip.

Definition greeting : list item :=
  [Message false (bs "whole") []; Control (CPing (bs "p"));
   Message true (bs "frag") [([CPong []; CPing (bs "q")], bs "men"); ([], bs "ted")];
   Control (CClose (Some (1000, bs "bye")))].

Lemma server_messages_roundtrip_witness :
  messages small None (concat (map encode_item greeting)) =
    ([Binary (bs "whole"); Ping (bs "p"); Pong []; Ping (bs "q"); Text (bs "fragmented");
      Close (Some (1000, bs "bye"))], None).
Proof.
  refine (eq_trans (server_messages_roundtrip small greeting _) _); [|by vm_compute].
  unfold greeting. repeat apply Forall_cons_2; try apply Forall_nil_2; cbn [item_ok];
    unfold frag_ok, control_ok; split_and!; try done; repeat constructor; try done.
Defined.

(** ** What a client sends *)

(** Unmasking, as RFC 6455 (5.3) puts it: octet i of what was sent is octet i
    of what was received XOR octet i MOD 4 of the masking key. *)
Definition unmask (key l : bytes) : bytes :=
  imap (fun i b => byte_of_Z (Z.lxor (Z_of_byte b) (Z_of_byte (nth (i mod 4) key x00)))) l.

(** The server's side of RFC 6455: a masked frame at the head of the bytes,
    its reserved bits clear, unmasked: FIN, opcode, masking key, payload, and the
    bytes after it. *)
Definition server_decode (l : bytes) : option (bool * Z * bytes * bytes * bytes) :=
  match l with
  | b0 :: b1 :: l =>
      let b0 := Z_of_byte b0 in
      let b1 := Z_of_byte b1 in
      if negb (b0 / 16 mod 8 =? 0) || (b1 <? 128) then None
      else
        let k := extension (b1 mod 128) in
        let n := declared (b1 mod 128) (ztake k l) in
        let l := zdrop k l in
        let key := ztake 4 l in
        let l := zdrop 4 l in
        if (len key <? 4) || (len l <? n) then None
        else Some (128 <=? b0, b0 mod 16, key, unmask key (ztake n l), zdrop n l)
  | _ => None
  end.

Definition client_frame (mask : bytes) (op : Z) (payload : bytes) : bytes :=
  frame_header op (len payload) ++ mask ++ mask_block mask 0 payload.

Lemma xor_byte_twice b m : xor_byte (xor_byte b m) m = b.
Proof.
  unfold xor_byte. apply Z_of_byte_inj. rewrite !Z_of_byte_of_Z.
  change 256 with (2 ^ 8). rewrite <- !Z.land_ones by lia.
  assert (H : forall x, Z.land (Z_of_byte x) (Z.ones 8) = Z_of_byte x).
  { intros x. rewrite Z.land_ones by lia. apply Z.mod_small, Z_of_byte_range. }
  rewrite <- (H b), <- (H m). apply Z.bits_inj'. intros n Hn.
  rewrite !Z.land_spec, !Z.lxor_spec, !Z.land_spec, !Z.lxor_spec, !Z.land_spec.
  by destruct (Z.testbit (Z_of_byte b) n), (Z.testbit (Z_of_byte m) n), (Z.testbit (Z.ones 8) n).
Qed.

Lemma unmask_mask_block key l : unmask key (mask_block key 0 l) = l.
Proof.
  assert (H : forall k, imap (fun i b => byte_of_Z (Z.lxor (Z_of_byte b) (Z_of_byte (nth ((k + i) mod 4) key x00))))
    (mask_block key (Z.of_nat k) l) = l); [|exact (H O)].
  induction l as [|b l IH]; intros k; [done|]. cbn [mask_block imap]. rewrite Nat.add_0_r.
  assert (E : byte_at key (Z.land (Z.of_nat k) 3) = nth (k mod 4) key x00).
  { change 3 with (Z.ones 2). rewrite Z.land_ones by lia. unfold byte_at. f_equal. change (2 ^ 2) with (Z.of_nat 4).
    by rewrite <- Nat2Z.inj_mod, Nat2Z.id. }
  rewrite E. f_equal; [apply xor_byte_twice|].
  replace (Z.of_nat k + 1) with (Z.of_nat (S k)) by lia. etrans; [|apply (IH (S k))].
  apply imap_ext. intros i x _. cbn. by rewrite Nat.add_succ_r.
Qed.

Lemma len_mask_block mask i l : len (mask_block mask i l) = len l.
Proof. revert i. induction l as [|b l IH]; intros i; cbn; [done|]. by rewrite !len_cons, IH. Qed.

Lemma mask_block_app mask i l k :
  mask_block mask i (l ++ k) = mask_block mask i l ++ mask_block mask (i + len l) k.
Proof.
  revert i. induction l as [|b l IH]; intros i; cbn; [by rewrite Z.add_0_r|].
  rewrite IH, len_cons. do 3 f_equal. lia.
Qed.

Lemma frame_header_decodes op n : 0 <= op < 16 -> 0 <= n < 2 ^ 64 ->
  exists b0 b1 ext, frame_header op n = b0 :: b1 :: ext /\ Z_of_byte b0 = 128 + op /\ 128 <= Z_of_byte b1 /\
    len ext = extension (Z_of_byte b1 mod 128) /\ declared (Z_of_byte b1 mod 128) ext = n.
Proof.
  intros Hop Hn. unfold frame_header.
  assert (H0 : forall m, 0 <= m < 128 -> Z_of_byte (byte_of_Z (Z.lor 128 m)) = 128 + m).
  { intros m Hm. rewrite Z_of_byte_of_Z.
    assert (E : Z.lor 128 m = 128 + m).
    { destruct (land_low m Hm) as [_ E]. rewrite Z.land_comm in E. rewrite <- Z.lxor_lor by done.
      by rewrite Z.add_nocarry_lxor. }
    rewrite E. apply Z.mod_small. lia. }
  assert (H1 : forall m, 0 <= m < 128 -> (128 + m) mod 128 = m) by (intros m Hm; Z.div_mod_to_equations; lia).
  repeat zcase; eexists _, _, _; (split; [done|]); rewrite !H0, !H1 by lia; (split_and!; [done|lia|..]);
    unfold extension, declared; repeat zcase; rewrite ?be_value_bytes; try apply Z.mod_small; try done.
  - change (256 ^ Z.of_nat 2) with 65536. lia.
Qed.

Lemma client_frame_decodes mask op payload rest :
  len mask = 4 -> 0 <= op < 16 -> len payload < 2 ^ 64 ->
  server_decode (client_frame mask op payload ++ rest) = Some (true, op, mask, payload, rest).
Proof.
  intros Hm Hop Hp. pose proof (len_nonneg payload).
  destruct (frame_header_decodes op (len payload) Hop ltac:(lia)) as (b0 & b1 & ext & E & B0 & B1 & B2 & B3).
  unfold client_frame. rewrite E. cbn [app server_decode]. rewrite B0, <- !(assoc_L (++)).
  assert (Eop : (128 + op) / 16 mod 8 = 0 /\ (128 + op) mod 16 = op) by (Z.div_mod_to_equations; lia).
  destruct Eop as [-> ->]. cbn [Z.eqb negb orb]. rewrite (proj2 (Z.ltb_ge _ 128)) by done.
  rewrite ztake_app, zdrop_app by done. rewrite B3, ztake_app, zdrop_app by done.
  rewrite len_app, len_mask_block, Hm. pose proof (len_nonneg rest). change (4 <? 4) with false.
  rewrite (proj2 (Z.ltb_ge (len payload + len rest) _)) by lia. cbn [orb].
  rewrite ztake_app, zdrop_app by by rewrite len_mask_block. rewrite unmask_mask_block.
  by rewrite (proj2 (Z.leb_le 128 _)) by lia.
Qed.

Section Sending.
Context {S : Type} `{!Reader S, !Writer S, lawsR : !ReaderLaws S, lawsW : !WriterLaws S}.
Implicit Types (c d : WsClient S).

(** Only the stream's outgoing side moved, by [b]. *)
Definition sent_more (b : bytes) c d : Prop :=
  d = set_stream (stream d) c /\ sent (stream d) = sent (stream c) ++ b.

(** The stream failed so. *)
Definition refused (e : io_error) : Prop := exists (t : S), (exists b, (write_all b t).2 = Err e) \/ (flush t).2 = Err e.

Lemma on_stream_write b c :
  wp (on_stream (write_all b)) (fun o d =>
    match o with Ok _ => sent_more b c d | Err e => refused e /\ exists p, p `prefix_of` b /\ sent_more p c d end) c.
Proof.
  unfold on_stream. apply wp_zoom. pose proof (write_all_law b (stream c)) as H. unfold wp in *.
  destruct (write_all b (stream c)) as [t [u|e]] eqn:E; [done|]. destruct H as (p & Hp & H). split; [|by exists p].
  exists (stream c). left. exists b. by rewrite E.
Qed.

Lemma on_stream_flush c :
  wp (on_stream flush) (fun o d => sent_more [] c d /\ match o with Ok _ => True | Err e => refused e end) c.
Proof.
  unfold on_stream. apply wp_zoom. pose proof (flush_law (stream c)) as H. unfold wp in *.
  destruct (flush (stream c)) as [t [u|e]] eqn:E; (split; [split; [done|]; cbn; by rewrite app_nil_r|]); [done|].
  exists (stream c). right. by rewrite E.
Qed.

Lemma sent_more_trans a b c d e : sent_more a c d -> sent_more b d e -> sent_more (a ++ b) c e.
Proof using Type*.
  intros [H1 H2] [H3 H4]. split; [|by rewrite H4, H2, (assoc_L (++))].
  rewrite H3, H1. by destruct c.
Qed.

Lemma send_blocks_spec mask l : forall fuel i c, 0 <= i -> (length l <= fuel)%nat ->
  wp (send_blocks mask i (chunks_fuel fuel MASK_CHUNK l)) (fun o d =>
    match o with
    | Ok _ => sent_more (mask_block mask (i * MASK_CHUNK) l) c d
    | Err e => refused e /\ exists p, p `prefix_of` mask_block mask (i * MASK_CHUNK) l /\ sent_more p c d
    end) c.
Proof.
  intros fuel. revert l. induction fuel as [|fuel IH]; intros l i c Hi Hf.
  { destruct l; [|cbn in Hf; lia]. cbn. split; [by destruct c|]. by rewrite app_nil_r. }
  destruct l as [|x l]; [cbn; split; [by destruct c|by rewrite app_nil_r]|].
  set (all := x :: l) in *. cbn [chunks_fuel send_blocks].
  assert (E : mask_block mask (i * MASK_CHUNK) all =
    mask_block mask (i * MASK_CHUNK) (ztake MASK_CHUNK all) ++
    mask_block mask ((i + 1) * MASK_CHUNK) (zdrop MASK_CHUNK all)).
  { rewrite <- (ztake_zdrop MASK_CHUNK all) at 1. rewrite mask_block_app. f_equal.
    destruct (Z.le_gt_cases (len all) MASK_CHUNK).
    - by rewrite zdrop_all by done.
    - f_equal. rewrite len_ztake. unfold MASK_CHUNK in *. lia. }
  change (chunks_fuel (Datatypes.S fuel) MASK_CHUNK all)
    with (ztake MASK_CHUNK all :: chunks_fuel fuel MASK_CHUNK (zdrop MASK_CHUNK all)).
  cbn [send_blocks]. apply wp_bind. wp_use on_stream_write. intros [u|e] d Hd.
  - eapply wp_mono; [apply IH; [lia|]|].
    { unfold zdrop. rewrite length_drop. unfold MASK_CHUNK. subst all. cbn [length] in *. lia. }
    cbn beta. rewrite E. intros [v|e] d' Hd'; [by eapply sent_more_trans|].
    destruct Hd' as (Hr & p & Hp & Hd'). split; [done|]. eexists. split; [by apply prefix_app|]. by eapply sent_more_trans.
  - destruct Hd as (Hr & p & Hp & Hd). split; [done|]. exists p. split; [|done]. rewrite E. by apply prefix_app_r.
Qed.

Lemma send_frame_decodes_at mask op payload c :
  len mask = 4 -> 0 <= op < 16 -> len payload < 2 ^ 64 ->
  wp (send_frame mask op payload) (fun o d =>
    exists frame,
      (forall rest, server_decode (frame ++ rest) = Some (true, op, mask, payload, rest)) /\
      if (8 <=? op) && (125 <? len payload)
      then o = Err (protocol_error (bs "control frame payload over 125 bytes")) /\ d = c
      else match o with
           | Ok _ => sent_more frame c d
           | Err e => refused e /\ exists p, p `prefix_of` frame /\ sent_more p c d
           end) c.
Proof.
  intros Hm Hop Hp.
  assert (Hex : forall P : bytes -> Prop, P (client_frame mask op payload) -> exists frame,
    (forall rest, server_decode (frame ++ rest) = Some (true, op, mask, payload, rest)) /\ P frame).
  { intros P H. exists (client_frame mask op payload). split; [|done].
    intros rest. by apply client_frame_decodes. }
  unfold send_frame, MAX_CONTROL_PAYLOAD, OP_CLOSE. rewrite Z.geb_leb, Z.gtb_ltb. destruct ((8 <=? op) && (125 <? len payload)).
  { apply wp_fail. by apply Hex. }
  unfold client_frame in Hex. apply wp_bind. wp_use on_stream_write. intros [u|e] d Hd.
  2: { apply Hex. destruct Hd as (Hr & p & Hpre & Hd). split; [done|]. exists p. split; [|done].
       rewrite (assoc_L (++)). by apply prefix_app_r. }
  apply wp_bind. eapply wp_mono; [by apply (send_blocks_spec mask payload (length payload) 0)|].
  cbn beta. intros [v|e] d' Hd'.
  2: { apply Hex. destruct Hd' as (Hr & p & Hpre & Hd'). split; [done|]. eexists. split; [|by eapply sent_more_trans].
       rewrite (assoc_L (++)). by apply prefix_app. }
  wp_use on_stream_flush. intros o d'' [Hd'' Ho]. apply Hex. rewrite (assoc_L (++)).
  pose proof (sent_more_trans _ _ _ _ _ (sent_more_trans _ _ _ _ _ Hd Hd') Hd'') as H.
  rewrite app_nil_r in H. destruct o; [done|]. split; [done|]. eexists. by split.
Qed.

(** C36. A server unmasks what the client sends.  For any opcode, payload and
    four mask bytes: a control frame over 125 bytes is refused, and nothing is
    sent; otherwise a send that succeeds hands the peer exactly one frame
    more, which the server's side of the protocol decodes to a final frame
    with this opcode, this masking key and this payload, and nothing left
    over; a send fails only when the stream does, and has then handed over a
    part of that frame.  The server's side is written from RFC 6455: octet i
    is unmasked with octet i mod 4 of the key.  The reading side is not
    touched. *)
Theorem send_frame_decodes mask op payload c :
  len mask = 4 -> 0 <= op < 16 -> len payload < 2 ^ 64 ->
  wp (send_frame mask op payload) (fun o d =>
    exists frame,
      (forall rest, server_decode (frame ++ rest) = Some (true, op, mask, payload, rest)) /\
      if (8 <=? op) && (125 <? len payload)
      then o = Err (protocol_error (bs "control frame payload over 125 bytes")) /\ d = c
      else match o with
           | Ok _ => sent_more frame c d
           | Err e => refused e /\ exists p, p `prefix_of` frame /\ sent_more p c d
           end) c.
Proof. apply send_frame_decodes_at. Qed.
End Sending.

Lemma send_frame_decodes_witness :
  let c := fresh_client (Script [] [] None) [] in
  let mask := [x01; x02; x03; x04] in
  outbound (stream (send_frame mask OP_BINARY (bs "hi!") c).1) = [x82; x83; x01; x02; x03; x04; x69; x6b; x22] /\
  exists frame, server_decode (frame ++ []) = Some (true, OP_BINARY, mask, bs "hi!", []) /\
    outbound (stream (send_frame mask OP_BINARY (bs "hi!") c).1) = frame.
Proof.
  intros c mask. split; [by vm_compute|].
  destruct (wp_result _ _ _ (send_frame_decodes mask OP_BINARY (bs "hi!") c eq_refl
    ltac:(unfold OP_BINARY; lia) ltac:(done))) as (frame & Hd & Hs).
  exists frame. split; [apply Hd|]. cbn in Hs. by destruct Hs as [_ Hs].
Defined.

(** ** Memory *)

Section Memory.
Context {S : Type} `{!Reader S, lawsR : !ReaderLaws S} (lim : Limits).
Context (message_limit : max_message_size lim < usize_max).
Implicit Types c d : WsClient S.

(** What the client holds was admitted. *)
Record bounded c : Prop := {
  bounded_partial : forall p, partial c = Some p -> len (buf p) <= max_message_size lim;
  bounded_incoming : forall inc, incoming c = Some inc ->
    admit_frame lim (partial c) (fin inc) (opcode inc) (size inc) = Ok tt;
}.

Lemma admit_size p fin op n :
  admit_frame lim p fin op n = Ok tt -> n <= Z.max 125 (max_frame_size lim).
Proof using Type.
  unfold admit_frame, MAX_CONTROL_PAYLOAD. intros H.
  repeat (case_match; try done; try (rewrite Z.gtb_ltb, Z.ltb_ge in *; lia)).
Qed.

Lemma dispatch_bounded inc p :
  (forall q, p = Some q -> len (buf q) <= max_message_size lim) ->
  admit_frame lim p (fin inc) (opcode inc) (len (payload inc)) = Ok tt ->
  forall q, (dispatch inc p).1 = Some q -> len (buf q) <= max_message_size lim.
Proof.
  intros Hp Ha q. unfold dispatch, admit_frame in *.
  destruct (Z.eqb_spec (opcode inc) OP_PING); [rewrite orb_true_r in Ha; by apply Hp|].
  destruct (Z.eqb_spec (opcode inc) OP_PONG); [by apply Hp|].
  destruct (Z.eqb_spec (opcode inc) OP_CLOSE).
  { unfold bind, lift, ret. destruct (parse_close (payload inc)); by apply Hp. }
  cbn [orb] in Ha. destruct (Z.eqb_spec (opcode inc) OP_CONTINUATION).
  - destruct p as [p|]; [|done]. cbn. destruct (fin inc); [done|]. cbn. intros [= <-]. cbn.
    unfold saturating_add in Ha. rewrite len_app.
    destruct (Z.min usize_max _ >? max_message_size lim) eqn:E; [done|].
    rewrite Z.gtb_ltb, Z.ltb_ge in E. lia.
  - destruct (_ || _); [|done]. destruct p as [p|]; [done|]. destruct (fin inc); [done|].
    cbn. intros [= <-]. cbn. cbn [negb andb] in Ha.
    repeat (case_match; try done). rewrite Z.gtb_ltb, Z.ltb_ge in *. lia.
Qed.

Lemma finish_bounded c : cwf c -> bounded c -> wp (finish_round) (fun _ d => bounded d) c.
Proof.
  intros Hc [Hb1 Hb2]. unfold finish_round. wp_steps.
  destruct (incoming c) as [inc|] eqn:Hi; [|by split; [done|rewrite Hi]].
  apply wp_bind. wp_use (fill_payload_spec inc c (cwf_pos c Hc) Hi).
  intros o d (b & Hu & H1 & H2 & Hp & H3 & H4).
  assert (Hd : bounded d).
  { split; [by rewrite H2|]. intros i Hi'. rewrite H3 in Hi'. injection Hi' as <-. cbn. rewrite H2. by apply Hb2. }
  destruct o as [[|]|e]; [|by wp_steps|done]. cbn [negb]. wp_steps. rewrite H3. wp_steps.
  destruct (cwf_incoming c Hc inc Hi) as [_ Hs].
  set (inc' := MkIncoming _ _ _ _). unfold wp. cbn [partial set_incoming].
  assert (Hdb := dispatch_bounded inc' (partial d) (bounded_partial d Hd)).
  destruct (dispatch inc' (partial d)) as [p' r]; cbn in Hdb.
  assert (Hr : bounded (set_partial p' (set_incoming None d))).
  { split; [|done]. cbn. apply Hdb. rewrite len_app, H2.
    replace (len (payload inc) + len b) with (size inc) by lia. by apply Hb2. }
  by destruct r.
Qed.

Lemma round_bounded c : cwf c -> bounded c -> wp (read_frame_round lim) (fun _ d => bounded d) c.
Proof.
  intros Hc Hb. unfold read_frame_round. apply wp_bind, wp_get. cbn beta iota.
  destruct (incoming c) as [inc|] eqn:Hi.
  { apply wp_bind, wp_ret. cbn beta iota. cbn [negb]. by apply finish_bounded. }
  apply wp_bind, wp_bind. wp_use (read_header_spec lim c Hc Hi).
  intros o d [[Hd0 Hpa] Hd].
  assert (Hbd : bounded d) by (split; [rewrite Hpa; apply Hb|by rewrite Hd0]).
  destruct o as [[inc|]|e]; [|by wp_steps|done]. wp_steps. cbn [negb].
  destruct Hd as (Hp & Hh & Hpl & Hs & Ha & _). apply finish_bounded.
  - split; [done|by cbn; rewrite Hh|]. cbn. intros i [= <-]. by rewrite Hpl.
  - split; [apply Hbd|]. cbn. intros i [= <-]. by rewrite Hpa.
Qed.

Lemma read_frame_bounded fuel : forall c, cwf c -> bounded c ->
  wp (read_frame lim fuel) (fun _ d => bounded d) c.
Proof.
  unfold read_frame. induction fuel as [|fuel IH]; intros c Hc Hb; [done|]. cbn [iterate].
  apply wp_bind. eapply wp_mono; [apply wp_and; [by apply read_frame_round_spec|by apply round_bounded]|].
  cbn beta. intros [[f|]|e] d [H1 H2]; [by apply wp_ret| |done]. apply IH; [apply H1|done].
Qed.

(** C33. A peer cannot make the client allocate more than its limits.  However
    the bytes arrive and whatever they say, after any number of calls, even
    one that fails, the payload allocated for the frame in progress is at
    most the frame limit (or 125 bytes, for a control frame), and the
    fragmented message being put together at most the message limit.  The
    limits are checked on the declared length, before the allocation. *)
Theorem ws_memory_bounded fuel n s pending :
  plenty pending s fuel ->
  let d := (poll lim fuel n (fresh_client s pending)).2 in
  (forall inc, incoming d = Some inc -> size inc <= Z.max 125 (max_frame_size lim)) /\
  (forall p, partial d = Some p -> len (buf p) <= max_message_size lim).
Proof.
  intros Hf d.
  assert (Hd : bounded d).
  { subst d. pose proof (fresh_cwf s pending) as Hc. pose proof (fresh_measure s pending fuel Hf) as Hm.
    assert (Hb : bounded (fresh_client s pending)) by by split.
    revert Hc Hm Hb. generalize (fresh_client s pending). clear s pending Hf.
    induction n as [|n IH]; intros c Hc Hm Hb; [done|]. cbn [poll].
    pose proof (read_frame_spec lim fuel c Hc Hm) as H1. pose proof (read_frame_bounded fuel c Hc Hb) as H2.
    unfold wp in H1, H2. destruct (read_frame lim fuel c) as [d [[[f|]|]|e]]; cbn in H1; [| |done..].
    - destruct H1 as (H1 & _ & _ & _ & H3). specialize (IH d H1 ltac:(lia) H2).
      by destruct (poll lim fuel n d) as [[fs e] d'].
    - destruct H1 as ((H1 & _ & H3) & _). by apply IH; [|lia|]. }
  split; [|apply Hd]. intros inc Hi. eapply admit_size. by apply Hd.
Qed.
End Memory.

(** A server that announces a frame of two gigabytes. *)
Lemma ws_memory_bounded_witness :
  let greedy := Script [Data [x82; x7f; x00; x00; x00; x00; x7f; xff; xff; xff; x00]] [] None in
  let d := (poll small 30 3 (fresh_client greedy [])).2 in
  plenty [] greedy 30 /\
  (poll small 30 3 (fresh_client greedy [])).1.2 = Failed (protocol_error (bs "frame over the size limit")) /\
  forall inc, incoming d = Some inc -> size inc <= 125.
Proof.
  intros greedy d. assert (Hp : plenty [] greedy 30) by (unfold plenty; vm_compute; lia).
  split; [exact Hp|]. split; [by vm_compute|].
  refine (proj1 (ws_memory_bounded small _ 30 3 greedy [] Hp)). unfold usize_max. cbn. lia.
Defined.
