(* ===== verification/WsHandshake.v ===== *)
(** * The WebSocket upgrade ([WsClient::connect] of [src/ws.rs])

    The SHA-1 and base64 crates are parameters, and so are the clock and the
    bytes of the random nonce. *)

From S2P Require Import Prelude RustStr RustStrLemmas Io Ws WsSpec WsTheorems.
#[local] Set Default Proof Using "Type*".

(** [sha1] and [base64]'s standard engine. *)
Class Crypto := {
  sha1 : bytes -> bytes;
  base64 : bytes -> bytes;
}.

Definition ACCEPT_GUID : bytes := bs "258EAFA5-E914-47DA-95CA-C5AB0DC85B11".
Definition MAX_HANDSHAKE_BYTES : Z := 4 * 1024.
Definition CRLF : bytes := [x0d; x0a].

(** [rest.get(..n)] *)
Definition get_to (n : Z) (l : bytes) : option bytes :=
  if is_char_boundary l n then Some (ztake n l) else None.

Section Verify.
Context `{crypto : Crypto}.

Definition expected_accept (key : bytes) : bytes := base64 (sha1 (key ++ ACCEPT_GUID)).

Definition status_code (status : bytes) : option bytes :=
  rest ← match strip_prefix (bs "HTTP/1.1 ") status with
         | Some rest => Some rest
         | None => strip_prefix (bs "HTTP/1.0 ") status
         end;
  get_to 3 rest.

(** [upgrade_ok], [connection_ok], [accept]. *)
Definition checks : Type := bool * bool * option bytes.

Definition check_line (st : checks) (line : bytes) : checks :=
  let '(upgrade_ok, connection_ok, accept) := st in
  match split_once x3a line with
  | None => st
  | Some (name, value) =>
      let value := trim value in
      if eq_ignore_case name (bs "upgrade") then
        (eq_ignore_case value (bs "websocket"), connection_ok, accept)
      else if eq_ignore_case name (bs "connection") then
        (upgrade_ok,
         existsb (fun token => eq_ignore_case (trim token) (bs "upgrade")) (split_byte x2c value),
         accept)
      else if eq_ignore_case name (bs "sec-websocket-accept") then
        (upgrade_ok, connection_ok, Some value)
      else st
  end.

Definition verify_upgrade (head key : bytes) : result io_error unit :=
  let lines := split_crlf head in
  let status := default [] (hd_error lines) in
  match status_code status with
  | None => Err (protocol_error (bs "malformed status line"))
  | Some code =>
      if negb (bool_decide (code = bs "101")) then
        Err (protocol_error (bs "upgrade refused: " ++ status))
      else
        let '(upgrade_ok, connection_ok, accept) := foldl check_line (false, false, None) (tl lines) in
        if negb upgrade_ok then Err (protocol_error (bs "missing `Upgrade: websocket`"))
        else if negb connection_ok then Err (protocol_error (bs "missing `Connection: Upgrade`"))
        else
          match accept with
          | Some got =>
              if bool_decide (got = expected_accept key) then Ok tt
              else Err (protocol_error (bs "Sec-WebSocket-Accept does not match"))
          | None => Err (protocol_error (bs "missing Sec-WebSocket-Accept"))
          end
  end.

Definition upgrade_request (host path origin key : bytes) : bytes :=
  bs "GET " ++ path ++ bs " HTTP/1.1" ++ CRLF ++
  bs "Host: " ++ host ++ CRLF ++
  bs "Upgrade: websocket" ++ CRLF ++
  bs "Connection: Upgrade" ++ CRLF ++
  bs "Sec-WebSocket-Key: " ++ key ++ CRLF ++
  bs "Sec-WebSocket-Version: 13" ++ CRLF ++
  bs "Origin: " ++ origin ++ CRLF ++
  CRLF.
End Verify.

(** ** Waiting for the response *)

(** [ticks] counts the readings of the clock. *)
Record Shake (S : Type) := MkShake {
  sh_stream : S;
  response : bytes;
  ticks : nat;
}.
Arguments MkShake {S}.
Arguments sh_stream {S}.
Arguments response {S}.
Arguments ticks {S}.

Definition set_sh_stream {S} (x : S) (h : Shake S) : Shake S := MkShake x (response h) (ticks h).
Definition set_response {S} (x : bytes) (h : Shake S) : Shake S := MkShake (sh_stream h) x (ticks h).
Definition tick {S} (h : Shake S) : Shake S := MkShake (sh_stream h) (response h) (Datatypes.S (ticks h)).

Section Connect.
Context {S : Type} `{!Reader S, !Writer S, crypto : Crypto}.
(** [Instant::now() >= deadline] at the k-th reading. *)
Context (late : nat -> bool).

(** One round of the loop that reads the response. *)
Definition response_round : M (Shake S) io_error (option Z) :=
  let* h := get in
  match find_header_end (response h) with
  | Some e => ret (Some e)
  | None =>
      if len (response h) >=? MAX_HANDSHAKE_BYTES then
        fail (protocol_error (bs "handshake response too large"))
      else
        let* r := attempt (zoom sh_stream set_sh_stream (read 256)) in
        match r with
        | Ok [] =>
            fail (IoError UnexpectedEof (bs "websocket: connection closed during handshake"))
        | Ok chunk => modify (set_response (response h ++ chunk)) ;;; ret None
        | Err e =>
            if is_would_block e then
              modify tick ;;;
              if late (ticks h) then fail (IoError TimedOut (bs "websocket: handshake timed out"))
              else ret None
            else fail e
        end
  end.

(** The client, once the server has switched protocols; the answer [None] is
    that the fuel ran out. *)
Definition connect (fuel : nat) (nonce host path origin : bytes) : M S io_error (option (WsClient S)) :=
  let key := base64 nonce in
  write_all (upgrade_request host path origin key) ;;;
  flush ;;;
  let* s := get in
  let '(h, r) := iterate fuel response_round (MkShake s [] 0) in
  modify (fun _ => sh_stream h) ;;;
  let* header_end := lift r in
  match header_end with
  | None => ret None
  | Some header_end =>
      let head := ztake header_end (response h) in
      if negb (utf8_valid head) then
        fail (protocol_error (bs "handshake response is not ASCII"))
      else
        lift (verify_upgrade head key) ;;;
        ret (Some (MkClient (sh_stream h) (zdrop (header_end + 4) (response h)) 0 [] None None))
  end.
End Connect.

(** ** What the upgrade guarantees *)

Section ConnectSpec.
Context {S : Type} `{!Reader S, !Writer S, lawsR : !ReaderLaws S, lawsW : !WriterLaws S,
  lawsD : !DuplexLaws S, crypto : Crypto}.
Context (late : nat -> bool) (deadline : nat) (late_law : forall k, (deadline <= k)%nat -> late k = true).
Implicit Types (s : S) (h : Shake S).

(** What the response holds and what is still on the wire. *)
Record shaking s h : Prop := {
  sh_bytes : response h ++ wire (sh_stream h) = wire s;
  sh_sent : sent (sh_stream h) = sent s;
  sh_len : len (response h) <= MAX_HANDSHAKE_BYTES + 255;
}.

(** A tick or a byte, each a finite number of times. *)
Definition patience h : nat :=
  (Z.to_nat (MAX_HANDSHAKE_BYTES + 256 - len (response h)) + (deadline - ticks h))%nat.

Lemma response_round_spec s h : shaking s h ->
  wp (response_round late) (fun o h' =>
    match o with
    | Ok (Some e) => h' = h /\ find_header_end (response h) = Some e
    | Ok None => shaking s h' /\ (patience h' < patience h)%nat
    | Err _ => True
    end) h.
Proof.
  intros [Hb Hs Hl]. unfold response_round. wp_steps.
  destruct (find_header_end (response h)) as [e|]; [by wp_steps|].
  zcase; [by wp_steps|]. wp_steps.
  pose proof (read_keeps_sent 256 (sh_stream h)) as Hk.
  pose proof (read_law 256 (sh_stream h) ltac:(lia)) as Hr. unfold wp in Hr |- *.
  destruct (read 256 (sh_stream h)) as [s' [[|x b]|e]]; cbn in Hk.
  - done.
  - destruct Hr as [Hlen Hw].
    change (wp (E := io_error) (modify (set_response (response h ++ x :: b)) ;;; ret None) (fun o h' =>
      match o with
      | Ok (Some e) => h' = h /\ find_header_end (response h) = Some e
      | Ok None => shaking s h' /\ (patience h' < patience h)%nat
      | Err _ => True
      end) (set_sh_stream s' h)).
    wp_steps. pose proof (len_nonneg b). rewrite len_cons in Hlen. split; [split; cbn|].
    + by rewrite <- Hb, Hw, <- (assoc_L (++)).
    + by rewrite Hk.
    + rewrite len_app, len_cons. lia.
    + unfold patience. cbn. rewrite len_app, len_cons. lia.
  - destruct (is_would_block e); [|done]. cbn.
    destruct (late (ticks h)) eqn:El; [done|]. split; [split; cbn; congruence|].
    unfold patience. cbn. destruct (le_lt_dec deadline (ticks h)) as [Hd|Hd]; [by rewrite late_law in El|lia].
Qed.

(** C37. The upgrade ends where the frames begin.  [connect] answers, whatever
    the chunks of the response (the deadline bounds the wait): a client it
    returns has sent exactly the upgrade request, and the peer's bytes up to
    the first blank line are a UTF-8 response that [verify_upgrade] accepts
    for this nonce; every byte after the blank line is still to be read,
    those of the same chunks first, so that the first frame loses nothing;
    and the leftover kept is bounded. *)
Theorem connect_splits_at_blank_line fuel nonce host path origin s :
  (Z.to_nat (MAX_HANDSHAKE_BYTES + 256) + deadline < fuel)%nat ->
  wp (connect late fuel nonce host path origin) (fun o _ =>
    match o with
    | Ok (Some c) => exists e,
        find_header_end (wire s) = Some e /\
        utf8_valid (ztake e (wire s)) = true /\
        verify_upgrade (ztake e (wire s)) (base64 nonce) = Ok tt /\
        c = fresh_client (stream c) (pending c) /\
        pending c ++ wire (stream c) = zdrop (e + 4) (wire s) /\
        len (pending c) <= MAX_HANDSHAKE_BYTES + 251 /\
        sent (stream c) = sent s ++ upgrade_request host path origin (base64 nonce)
    | Ok None => False
    | Err _ => True
    end) s.
Proof.
  intros Hf. unfold connect. set (req := upgrade_request _ _ _ _).
  apply wp_bind. eapply wp_mono; [apply wp_and; [apply write_all_law|apply (keeps_wp (fun a b => wire b = wire a)); intros t; apply write_keeps_wire]|].
  cbn beta. intros [u|e] s1 [Hs1 Hw1]; [|done].
  apply wp_bind. eapply wp_mono; [apply wp_and; [apply flush_law|apply (keeps_wp (fun a b => wire b = wire a)); intros t; apply flush_keeps_wire]|].
  cbn beta. intros [v|e] s2 [Hs2 Hw2]; [|done]. apply wp_bind, wp_get. cbn beta iota.
  assert (Hsh : shaking s2 (MkShake s2 [] 0)) by by split.
  pose proof (iterate_spec (response_round late) (shaking s2) patience
    (fun o h => match o with
      | Ok e => shaking s2 h /\ find_header_end (response h) = Some e
      | Err _ => True end)) as Hit.
  assert (Hpat : (patience (MkShake s2 [] 0) < fuel)%nat).
  { unfold patience. cbn [response ticks]. rewrite len_nil. lia. }
  specialize (Hit ltac:(intros h Hh; wp_use (response_round_spec s2 h Hh); intros [[e|]|e] h' H; [by destruct H as [-> ?]|done..])
    fuel _ Hsh Hpat). unfold wp in Hit.
  destruct (iterate fuel (response_round late) _) as [h [[e|]|err]]; [|done|done].
  destruct Hit as [[Hb Hs Hl] He]. wp_steps.
  destruct (utf8_valid (ztake e (response h))) eqn:Eu; cbn [negb]; [|by wp_steps].
  wp_steps. destruct (verify_upgrade _ _) as [[]|er] eqn:Ev; [|done]. wp_steps. exists e.
  pose proof (find_header_end_bounds _ _ He) as Hbd. rewrite <- Hw1, <- Hw2, <- Hb.
  cbn [stream pending fresh_client]. rewrite ztake_app_l, zdrop_app_l by lia.
  split_and!; try done.
  - by apply find_header_end_more.
  - rewrite len_zdrop. lia.
  - by rewrite Hs, Hs2, Hs1.
Qed.
End ConnectSpec.

(** A hash and an encoding that copy their input. *)
Definition plain_crypto : Crypto := {| sha1 b := b; base64 b := b |}.

Definition switching : bytes :=
  bs "HTTP/1.1 101 Switching Protocols" ++ CRLF ++ bs "UPGRADE: websocket" ++ CRLF ++
  bs "Connection: keep-alive, Upgrade" ++ CRLF ++
  bs "Sec-WebSocket-Accept: nonce258EAFA5-E914-47DA-95CA-C5AB0DC85B11" ++ CRLF ++ CRLF.
Definition server : script :=
  Script [Data (ztake 40 switching); Fault WouldBlock; Data (zdrop 40 switching ++ [x82; x02; x68])] [] None.

Lemma connect_splits_at_blank_line_witness :
  match @connect script _ _ plain_crypto (fun k => (3 <=? k)%nat) 5000 (bs "nonce") (bs "host") (bs "/ws") (bs "me") server with
  | (_, Ok (Some c)) => pending c ++ wire (stream c) = [x82; x02; x68]
  | _ => False
  end.
Proof.
  assert (Hl : forall k, (3 <= k)%nat -> (3 <=? k)%nat = true) by (intros k; apply Nat.leb_le).
  assert (Hf : (Z.to_nat (MAX_HANDSHAKE_BYTES + 256) + 3 < 5000)%nat) by (unfold MAX_HANDSHAKE_BYTES; lia).
  pose proof (wp_result _ _ _ (@connect_splits_at_blank_line script _ _ _ _ _ plain_crypto
    (fun k => (3 <=? k)%nat) 3 Hl 5000 (bs "nonce") (bs "host") (bs "/ws") (bs "me") server Hf)) as H.
  assert (Hs : exists c, (@connect script _ _ plain_crypto (fun k => (3 <=? k)%nat) 5000 (bs "nonce") (bs "host")
    (bs "/ws") (bs "me") server).2 = Ok (Some c)) by (eexists; vm_compute; reflexivity).
  destruct Hs as [c Hs]. destruct (connect _ _ _ _ _ _ server) as [s' r]. cbn in Hs. subst r.
  destruct H as (e & He & _ & _ & _ & -> & _). vm_compute in He. injection He as <-. by vm_compute.
Defined.

(** ** Which responses are accepted *)

Section Accept.
Context `{crypto : Crypto}.

(** The trimmed values of the header [name], in order. *)
Definition values (name : bytes) (lines : list bytes) : list bytes :=
  omap (fun line =>
    match split_once x3a line with
    | Some (n, v) => if eq_ignore_case n name then Some (trim v) else None
    | None => None
    end) lines.

Definition has_token (token value : bytes) : bool :=
  existsb (fun t => eq_ignore_case (trim t) token) (split_byte x2c value).

(** Three names no two of which are equal, whatever the case. *)
Lemma names_disjoint n :
  (eq_ignore_case n (bs "upgrade") = true -> eq_ignore_case n (bs "connection") = false /\
     eq_ignore_case n (bs "sec-websocket-accept") = false) /\
  (eq_ignore_case n (bs "connection") = true -> eq_ignore_case n (bs "sec-websocket-accept") = false).
Proof using Type.
  unfold eq_ignore_case. split; intros H; apply bool_decide_eq_true in H; rewrite H; by vm_compute.
Qed.

Definition last_or {A} (d : A) (l : list A) : A := default d (last l).

Lemma last_or_cons {A} (d x : A) l : last_or d (x :: l) = last_or x l.
Proof using Type. unfold last_or. rewrite last_cons. by destruct (last l). Qed.

(** The three checks are those of the last header of each name. *)
Lemma check_lines ls u c a :
  foldl check_line (u, c, a) ls =
  (last_or u (map (fun v => eq_ignore_case v (bs "websocket")) (values (bs "upgrade") ls)),
   last_or c (map (has_token (bs "upgrade")) (values (bs "connection") ls)),
   last_or a (map Some (values (bs "sec-websocket-accept") ls))).
Proof using Type.
  revert u c a. induction ls as [|l ls IH]; intros u c a; [done|]. cbn [foldl].
  unfold values, check_line. cbn [omap list_omap].
  fold (values (bs "upgrade") ls) (values (bs "connection") ls) (values (bs "sec-websocket-accept") ls).
  destruct (split_once x3a l) as [[n v]|]; [|apply IH].
  destruct (names_disjoint n) as [H1 H2].
  destruct (eq_ignore_case n (bs "upgrade")) eqn:E1; [destruct (H1 eq_refl) as [-> ->]|
    destruct (eq_ignore_case n (bs "connection")) eqn:E2; [rewrite (H2 eq_refl)|
      destruct (eq_ignore_case n (bs "sec-websocket-accept")) eqn:E3]];
    rewrite IH; cbn [map]; by rewrite ?last_or_cons.
Qed.

Lemma last_map {A B} (f : A -> B) l : last (map f l) = f <$> last l.
Proof using Type.
  induction l as [|x l IH]; [done|]. cbn [map]. rewrite !last_cons, IH. by destruct (last l).
Qed.

(** The upgrade is accepted exactly when it should be: the status line
    says 101 under HTTP/1.0 or 1.1, the last [Upgrade] header is
    [websocket], the last [Connection] header lists [upgrade] (names and
    both values in any case), and the last [Sec-WebSocket-Accept] is the
    hash this client's key calls for. *)
Theorem upgrade_accepted_iff head key :
  verify_upgrade head key = Ok tt <->
  let lines := split_crlf head in
  (exists status rest, hd_error lines = Some status /\ status_code status = Some (bs "101") /\
     (status = bs "HTTP/1.1 101" ++ rest \/ status = bs "HTTP/1.0 101" ++ rest)) /\
  (exists v, last (values (bs "upgrade") (tl lines)) = Some v /\ eq_ignore_case v (bs "websocket") = true) /\
  (exists v, last (values (bs "connection") (tl lines)) = Some v /\ has_token (bs "upgrade") v = true) /\
  last (values (bs "sec-websocket-accept") (tl lines)) = Some (expected_accept key).
Proof using Type.
  cbn zeta. unfold verify_upgrade. rewrite check_lines. unfold last_or. rewrite !last_map.
  set (ls := split_crlf head).
  assert (Hst : status_code (default [] (hd_error ls)) = Some (bs "101") <->
    exists status rest, hd_error ls = Some status /\ status_code status = Some (bs "101") /\
      (status = bs "HTTP/1.1 101" ++ rest \/ status = bs "HTTP/1.0 101" ++ rest)).
  { split; [|by intros (st & rest & -> & H & _)]. destruct (hd_error ls) as [st|]; [|done]. cbn [default].
    intros H0. change (status_code st = Some (bs "101")) in H0. pose proof H0 as H. exists st.
    unfold status_code in H.
    assert (Hg : forall p r, get_to 3 r = Some (bs "101") -> st = p ++ r ->
      exists rest, st = (p ++ bs "101") ++ rest).
    { intros p r Hr Hst. unfold get_to in Hr. destruct (is_char_boundary r 3); [|done].
      injection Hr as Hr. exists (zdrop 3 r). rewrite <- (assoc_L (++)), Hst. f_equal. rewrite <- Hr at 1.
      symmetry. apply ztake_zdrop. }
    destruct (strip_prefix (bs "HTTP/1.1 ") st) as [r|] eqn:E1.
    { apply strip_prefix_Some in E1. destruct (Hg _ _ H E1) as [rest Hrest]. exists rest.
      split_and!; [done|done|left; exact Hrest]. }
    destruct (strip_prefix (bs "HTTP/1.0 ") st) as [r|] eqn:E2; [|discriminate H].
    apply strip_prefix_Some in E2. destruct (Hg _ _ H E2) as [rest Hrest]. exists rest.
    split_and!; [done|done|right; exact Hrest]. }
  rewrite <- Hst. clear Hst.
  destruct (status_code _) as [code|]; [|split; [done|by intros ([=] & _)]].
  case_bool_decide as Hc; cbn [negb]; [subst code|split; [done|intros ([= ->] & _); done]].
  destruct (last (values (bs "upgrade") (tl ls))) as [v1|]; cbn [fmap option_fmap option_map default from_option id negb];
    [|split; [done|by intros (_ & (v & [=] & _) & _)]].
  destruct (eq_ignore_case v1 (bs "websocket")) eqn:E1; cbn [fmap option_fmap option_map default from_option id negb];
    [|split; [done|intros (_ & (v & [= <-] & H) & _); congruence]].
  destruct (last (values (bs "connection") (tl ls))) as [v2|]; cbn [fmap option_fmap option_map default from_option id negb];
    [|split; [done|by intros (_ & _ & (v & [=] & _) & _)]].
  destruct (has_token (bs "upgrade") v2) eqn:E2; cbn [fmap option_fmap option_map default from_option id negb];
    [|split; [done|intros (_ & _ & (v & [= <-] & H) & _); congruence]].
  destruct (last (values (bs "sec-websocket-accept") (tl ls))) as [v3|]; cbn [fmap option_fmap option_map default from_option id negb];
    [|split; [done|by intros (_ & _ & _ & [=])]].
  case_bool_decide as E3; [subst v3; split; [intros _; eauto 10|done]|].
  split; [done|intros (_ & _ & _ & [= ->]); done].
Qed.
End Accept.
