(* ===== verification/HttpChunked.v ===== *)
(** * Chunked transfer decoding ([src/http_chunked.rs])

    [ChunkedReader] over a [BufReader] of 512 bytes, with the [std::io]
    combinators it uses written out: [BufReader::read], [read_exact] and
    [take(limit).read_until].  The loops of the standard library that retry an
    interrupted read carry fuel; the ones of the source do not need any but
    for that. *)

From S2P Require Import Prelude RustStr Io.
Definition MAX_METADATA_BYTES : Z := 8 * 1024.
Definition BUF_CAPACITY : Z := 512.

(** More rounds than the trailers' budget has lines. *)
Definition TRAILER_ROUNDS : nat := Z.to_nat (MAX_METADATA_BYTES + 1).

Definition invalid (what : bytes) : io_error := IoError InvalidData what.

(** [BufReader]: the bytes read ahead, and the reader under it. *)
Record BufReader (R : Type) := MkBuf {
  ahead : bytes;
  under : R;
}.
Arguments MkBuf {R}.
Arguments ahead {R}.
Arguments under {R}.

Record ChunkedReader (R : Type) := MkChunked {
  inner : BufReader R;
  remaining : Z;
  needs_crlf : bool;
  finished : bool;
}.
Arguments MkChunked {R}.
Arguments inner {R}.
Arguments remaining {R}.
Arguments needs_crlf {R}.
Arguments finished {R}.

Definition new {R} (r : R) : ChunkedReader R := MkChunked (MkBuf [] r) 0 false false.

Definition set_inner {R} (x : BufReader R) (c : ChunkedReader R) : ChunkedReader R :=
  MkChunked x (remaining c) (needs_crlf c) (finished c).
Definition set_remaining {R} (x : Z) (c : ChunkedReader R) : ChunkedReader R :=
  MkChunked (inner c) x (needs_crlf c) (finished c).
Definition set_needs_crlf {R} (x : bool) (c : ChunkedReader R) : ChunkedReader R :=
  MkChunked (inner c) (remaining c) x (finished c).
Definition set_finished {R} (x : bool) (c : ChunkedReader R) : ChunkedReader R :=
  MkChunked (inner c) (remaining c) (needs_crlf c) x.

(** How a sequence of reads ended: more may come, the end of the body, an
    error, or the fuel of one of them. *)
Inductive drained := Open | Ended | Failed (e : io_error) | OutOfFuel.

Section Chunked.
Context {R : Type} `{!Reader R}.

Abbreviation B A := (M (BufReader R) io_error A).
Abbreviation C A := (M (ChunkedReader R) io_error A).

(** [BufRead::fill_buf]: what is buffered, read anew when there is nothing. *)
Definition fill_buf : B bytes := fun b =>
  match ahead b with
  | [] =>
      match read BUF_CAPACITY (under b) with
      | (r, Ok l) => (MkBuf l r, Ok l)
      | (r, Err e) => (MkBuf [] r, Err e)
      end
  | l => (b, Ok l)
  end.
Definition consume (n : Z) : B unit := modify (fun b => MkBuf (zdrop n (ahead b)) (under b)).

(** [BufReader::read]: a request as large as the buffer goes past it when it
    is empty. *)
Definition buf_read (n : Z) : B bytes := fun b =>
  if bool_decide (ahead b = []) && (n >=? BUF_CAPACITY) then
    let '(r, o) := read n (under b) in (MkBuf [] r, o)
  else
    (let* l := fill_buf in
     let taken := ztake n l in
     consume (len taken) ;;;
     ret taken) b.

(** [Read::read_exact]: retries interruptions; the end before [n] bytes is
    an error. *)
Fixpoint read_exact (fuel : nat) (n : Z) : B (option bytes) :=
  match fuel with
  | O => ret None
  | S fuel =>
      if n <=? 0 then ret (Some [])
      else
        let* r := attempt (buf_read n) in
        match r with
        | Ok [] => fail (IoError UnexpectedEof (bs "failed to fill whole buffer"))
        | Ok l =>
            let* more := read_exact fuel (n - len l) in
            ret (option_map (app l) more)
        | Err e =>
            if bool_decide (error_kind e = Interrupted) then read_exact fuel n else fail e
        end
  end.

(** [take(limit).read_until(b'\n')]: up to and including the newline, to the
    limit or to the end, whichever comes first. *)
Fixpoint read_until (fuel : nat) (limit : Z) : B (option bytes) :=
  match fuel with
  | O => ret None
  | S fuel =>
      if limit <=? 0 then ret (Some [])
      else
        let* r := attempt fill_buf in
        match r with
        | Ok available =>
            let available := ztake limit available in
            match find_byte x0a available with
            | Some i => consume (i + 1) ;;; ret (Some (ztake (i + 1) available))
            | None =>
                consume (len available) ;;;
                if len available =? 0 then ret (Some [])
                else
                  let* more := read_until fuel (limit - len available) in
                  ret (option_map (app available) more)
            end
        | Err e =>
            if bool_decide (error_kind e = Interrupted) then read_until fuel limit else fail e
        end
  end.

(** [ChunkedReader::line] *)
Definition line (fuel : nat) (limit : Z) : C (option bytes) :=
  let* l := zoom inner set_inner (read_until fuel limit) in
  match l with
  | None => ret None
  | Some l =>
      if ends_with [x0d; x0a] l then ret (Some l)
      else fail (invalid (bs "Truncated or oversized HTTP chunk metadata"))
  end.

(** The loop over the trailers, to the empty line; [false] is out of fuel. *)
Fixpoint trailers (rounds fuel : nat) (budget : Z) : C bool :=
  match rounds with
  | O => ret false
  | S rounds =>
      let* trailer := line fuel budget in
      match trailer with
      | None => ret false
      | Some trailer =>
          if bool_decide (trailer = [x0d; x0a]) then modify (set_finished true) ;;; ret true
          else if existsb (fun b => bool_decide (b = x3a)) (ztake (len trailer - 2) trailer) then
            trailers rounds fuel (budget - len trailer)
          else fail (invalid (bs "Invalid HTTP trailer"))
      end
  end.

(** The size on a chunk's first line. *)
Definition chunk_size (l : bytes) : result io_error Z :=
  let size := default [] (hd_error (split_byte x3b (ztake (len l - 2) l))) in
  if bool_decide (size = []) || negb (forallb is_hexdigit size) then
    Err (invalid (bs "Invalid HTTP chunk size"))
  else
    match parse_hex 64 size with
    | Some n => Ok n
    | None => Err (invalid (bs "number too large to fit in target type"))
    end.

(** What [read] does at a chunk boundary: [Some true] when a chunk begins,
    [Some false] at the end of the body, [None] out of fuel. *)
Definition next_chunk (fuel : nat) : C (option bool) :=
  let* c := get in
  let* terminated :=
    (if needs_crlf c then
       let* crlf := zoom inner set_inner (read_exact fuel 2) in
       match crlf with
       | None => ret false
       | Some crlf =>
           if bool_decide (crlf = [x0d; x0a]) then ret true
           else fail (invalid (bs "Invalid chunk terminator"))
       end
     else ret true) in
  if negb terminated then ret None else
  let* l := line fuel MAX_METADATA_BYTES in
  match l with
  | None => ret None
  | Some l =>
      let* n := lift (chunk_size l) in
      modify (set_remaining n) ;;;
      if n =? 0 then
        let* done := trailers TRAILER_ROUNDS fuel MAX_METADATA_BYTES in
        ret (if done then Some false else None)
      else
        modify (set_needs_crlf true) ;;;
        ret (Some true)
  end.

(** [<ChunkedReader as Read>::read] into a buffer of [n] bytes. *)
Definition chunked_read (fuel : nat) (n : Z) : C (option bytes) :=
  let* c := get in
  if (n =? 0) || finished c then ret (Some []) else
  let* started := (if remaining c =? 0 then next_chunk fuel else ret (Some true)) in
  match started with
  | None => ret None
  | Some false => ret (Some [])
  | Some true =>
      let* c := get in
      let count := Z.min (remaining c) n in
      let* l := zoom inner set_inner (buf_read count) in
      if len l =? 0 then fail (IoError UnexpectedEof (bs "Truncated HTTP chunk"))
      else
        modify (set_remaining (remaining c - len l)) ;;;
        ret (Some l)
  end.

(** Reads with buffers of the given sizes, to the end of the body or the
    first error. *)
Fixpoint drain (fuel : nat) (sizes : list Z) (c : ChunkedReader R) : bytes * drained :=
  match sizes with
  | [] => ([], Open)
  | n :: sizes =>
      match chunked_read fuel n c with
      | (_, Ok None) => ([], OutOfFuel)
      | (_, Ok (Some [])) => ([], Ended)
      | (c, Ok (Some l)) => let '(b, st) := drain fuel sizes c in (l ++ b, st)
      | (_, Err e) => ([], Failed e)
      end
  end.
End Chunked.
