(* ===== verification/HttpChunkedSpec.v ===== *)
(** * What the chunked reader decodes

    A reference decoder of a byte string, and the proof that
    [ChunkedReader::read] gives its body out piece by piece. *)

From S2P Require Import Prelude RustStr RustStrLemmas Io HttpChunked.
#[local] Set Default Proof Using "Type*".

(** ** The reference decoder *)

(** The line at the head of [w]: to the newline, the limit or the end. *)
Definition take_line (limit : Z) (w : bytes) : bytes :=
  let cand := ztake limit w in
  match find_byte x0a cand with
  | Some i => ztake (i + 1) cand
  | None => cand
  end.

Fixpoint skip_trailers (rounds : nat) (budget : Z) (w : bytes) : option bytes :=
  match rounds with
  | O => None
  | S rounds =>
      let l := take_line budget w in
      if negb (ends_with [x0d; x0a] l) then None
      else if bool_decide (l = [x0d; x0a]) then Some (zdrop (len l) w)
      else if existsb (fun b => bool_decide (b = x3a)) (ztake (len l - 2) l) then
        skip_trailers rounds (budget - len l) (zdrop (len l) w)
      else None
  end.

(** The chunk terminator, if one is due, and the size line. *)
Definition boundary (needs : bool) (w : bytes) : option (Z * bytes) :=
  if needs && negb (bool_decide (ztake 2 w = [x0d; x0a])) then None
  else
    let w := if needs then zdrop 2 w else w in
    let l := take_line MAX_METADATA_BYTES w in
    if ends_with [x0d; x0a] l then
      match chunk_size l with
      | Ok n => Some (n, zdrop (len l) w)
      | Err _ => None
      end
    else None.

(** The body decoded, and what follows it: [None] when the encoding is cut
    short or malformed. *)
Definition decoded : Type := bytes * option bytes.

(** The rest of a chunk of [n] bytes, before what [k] finds after it. *)
Definition in_chunk (k : bytes -> decoded) (n : Z) (w : bytes) : decoded :=
  if len w <? n then (w, None)
  else let '(b, e) := k (zdrop n w) in (ztake n w ++ b, e).

Fixpoint decode_fuel (fuel : nat) (needs : bool) (w : bytes) : decoded :=
  match fuel with
  | O => ([], None)
  | S fuel =>
      match boundary needs w with
      | None => ([], None)
      | Some (n, w) =>
          if n =? 0 then ([], skip_trailers TRAILER_ROUNDS MAX_METADATA_BYTES w)
          else in_chunk (decode_fuel fuel true) n w
      end
  end.
Definition decode (needs : bool) (w : bytes) : decoded := decode_fuel (S (length w)) needs w.

Lemma trailer_rounds : Z.of_nat TRAILER_ROUNDS = MAX_METADATA_BYTES + 1.
Proof. unfold TRAILER_ROUNDS. apply Z2Nat.id. done. Qed.

(** ** Lines *)

Lemma len_take_line limit w : len (take_line limit w) <= Z.max 0 limit /\ len (take_line limit w) <= len w.
Proof.
  unfold take_line. pose proof (len_nonneg w). destruct (find_byte x0a _) as [i|] eqn:E; rewrite !len_ztake; lia.
Qed.

Lemma take_line_split limit w : w = take_line limit w ++ zdrop (len (take_line limit w)) w.
Proof.
  assert (H : take_line limit w = ztake (len (take_line limit w)) w).
  { unfold take_line. pose proof (len_nonneg w).
    assert (Htt : forall a b, ztake a (ztake b w) = ztake (Z.min a b) w).
    { intros a b. unfold ztake. rewrite take_take. f_equal. lia. }
    destruct (find_byte x0a _) as [i|] eqn:E.
    - apply find_byte_Some in E as [E _]. rewrite len_ztake in E.
      rewrite Htt, len_ztake. unfold ztake, len in *. f_equal. lia.
    - rewrite len_ztake. destruct (Z.le_gt_cases limit (len w)).
      + destruct (Z.le_gt_cases 0 limit); [by rewrite Z.min_l, Z.max_r by lia|].
        rewrite !ztake_nil by lia. done.
      + rewrite !ztake_all by lia. done. }
  rewrite H at 1. by rewrite ztake_zdrop.
Qed.

(** A line found in pieces. *)
Lemma take_line_here limit a w i : 0 < limit ->
  find_byte x0a (ztake limit a) = Some i ->
  take_line limit (a ++ w) = ztake (i + 1) (ztake limit a).
Proof.
  intros Hl E. unfold take_line. destruct (Z.le_gt_cases limit (len a)).
  - rewrite ztake_app_l by done. by rewrite E.
  - rewrite ztake_app_r by lia. rewrite (ztake_all limit a) in E |- * by lia.
    apply find_byte_split in E as (pre & post & -> & <- & Hn).
    rewrite <- (assoc_L (++)). cbn [app]. rewrite find_byte_first by done.
    rewrite !ztake_app_r by lia. f_equal. by replace (len pre + 1 - len pre) with 1 by lia.
Qed.

Lemma take_line_more limit a w : 0 < limit ->
  find_byte x0a (ztake limit a) = None ->
  take_line limit (a ++ w) =
    ztake limit a ++ take_line (limit - len (ztake limit a)) (zdrop (len (ztake limit a)) (a ++ w)).
Proof.
  intros Hl E. apply find_byte_None in E.
  destruct (Z.le_gt_cases limit (len a)) as [H|H].
  - unfold take_line. pose proof (len_nonneg a). rewrite ztake_app_l, len_ztake, Z.max_r, Z.min_l, Z.sub_diag by lia.
    rewrite (proj2 (find_byte_None _ _) E). rewrite (ztake_nil 0) by lia. cbn. by rewrite app_nil_r.
  - rewrite (ztake_all limit a) in E |- * by lia. rewrite zdrop_app by done.
    unfold take_line. rewrite ztake_app_r by lia.
    destruct (find_byte x0a (ztake (limit - len a) w)) as [i|] eqn:F.
    + pose proof (find_byte_Some _ _ _ F) as (Hi & Ht & Hn).
      assert (G : find_byte x0a (a ++ ztake (limit - len a) w) = Some (len a + i)).
      { rewrite <- (ztake_zdrop (i + 1) (ztake (limit - len a) w)), Ht, <- (assoc_L (++)). cbn [app].
        rewrite (assoc_L (++)), find_byte_first by (rewrite elem_of_app; tauto).
        rewrite len_app, len_ztake. f_equal. lia. }
      rewrite G. rewrite ztake_app_r by lia. f_equal. f_equal. lia.
    + rewrite (proj2 (find_byte_None _ _)); [done|]. rewrite elem_of_app. apply find_byte_None in F. tauto.
Qed.

Lemma take_line_nil limit : take_line limit [] = [].
Proof. unfold take_line, ztake. by rewrite take_nil. Qed.

Lemma take_line_0 limit w : limit <= 0 -> take_line limit w = [].
Proof. intros H. unfold take_line. by rewrite ztake_nil by done. Qed.

(** ** The decoder consumes *)

Lemma ends_with_crlf l : ends_with [x0d; x0a] l = true -> 2 <= len l.
Proof. unfold ends_with. rewrite andb_true_iff, Z.leb_le. by intros [_ H]. Qed.

Lemma boundary_length needs w n w' : boundary needs w = Some (n, w') -> (length w' < length w)%nat.
Proof.
  unfold boundary. destruct (_ && _); [done|].
  set (v := if needs then zdrop 2 w else w). set (l := take_line _ v).
  destruct (ends_with _ l) eqn:E; [|done]. apply ends_with_crlf in E.
  destruct (chunk_size l); [|done]. intros [= _ <-].
  pose proof (len_take_line MAX_METADATA_BYTES v) as [_ Hl]. fold l in Hl.
  assert (Hv : (length v <= length w)%nat).
  { subst v. destruct needs; [|done]. unfold zdrop. rewrite length_drop. lia. }
  unfold zdrop. rewrite length_drop. unfold len in *. lia.
Qed.

Lemma decode_fuel_enough f1 : forall f2 needs w,
  (length w < f1)%nat -> (length w < f2)%nat -> decode_fuel f1 needs w = decode_fuel f2 needs w.
Proof.
  induction f1 as [|f1 IH]; intros [|f2] needs w H1 H2; try lia. cbn [decode_fuel].
  destruct (boundary needs w) as [[n w']|] eqn:E; [|done]. apply boundary_length in E.
  destruct (n =? 0); [done|]. unfold in_chunk. destruct (len w' <? n); [done|].
  rewrite (IH f2); [done|..]; unfold zdrop; rewrite length_drop; lia.
Qed.

Lemma decode_eq needs w : decode needs w =
  match boundary needs w with
  | None => ([], None)
  | Some (n, w) =>
      if n =? 0 then ([], skip_trailers TRAILER_ROUNDS MAX_METADATA_BYTES w)
      else in_chunk (decode true) n w
  end.
Proof.
  unfold decode at 1. cbn [decode_fuel]. destruct (boundary needs w) as [[n w']|] eqn:E; [|done].
  apply boundary_length in E. destruct (n =? 0); [done|]. unfold in_chunk, decode.
  destruct (len w' <? n); [done|].
  rewrite (decode_fuel_enough _ (S (length (zdrop n w')))); [done|..]; unfold zdrop; rewrite length_drop; lia.
Qed.

Lemma chunk_size_nonneg l n : chunk_size l = Ok n -> 0 <= n.
Proof.
  unfold chunk_size. destruct (_ || _); [done|]. destruct (parse_hex 64 _) as [v|] eqn:E; [|done].
  intros [= <-]. unfold parse_hex, parse_radix in E.
  destruct (match default _ _ with x2b :: (_ :: _) as rest => tail _ | _ => _ end); [done|].
  by apply digits_value_range in E.
Qed.

(** ** The reader against the decoder *)

Section Machine.
Context {R : Type} `{!Reader R, lawsR : !ReaderLaws R, patient : !Patient R}.
Implicit Types (b : BufReader R) (c : ChunkedReader R).

(** The bytes not given out yet. *)
Definition unread b : bytes := ahead b ++ wire (under b).
Definition waits b : nat := stalls (under b).
Definition transport (e : io_error) : Prop := exists n r, (read n r).2 = Err e.

(** A step that takes [l] off the front. *)
Definition takes (l : bytes) b b' : Prop := unread b = l ++ unread b' /\ (waits b' <= waits b)%nat.

Lemma takes_nil b : takes [] b b.
Proof. by split. Qed.

Lemma takes_app l k b1 b2 b3 : takes l b1 b2 -> takes k b2 b3 -> takes (l ++ k) b1 b3.
Proof. intros [H1 H2] [H3 H4]. split; [by rewrite H1, H3, (assoc_L (++))|lia]. Qed.

Lemma read_both n r : 0 < n ->
  wp (read n) (fun o r' =>
    match o with
    | Ok l => len l <= n /\ wire r = l ++ wire r' /\ (stalls r' <= stalls r)%nat /\ (l = [] -> wire r = [])
    | Err e => wire r' = wire r /\ transport e /\
               (error_kind e = Interrupted -> (stalls r' < stalls r)%nat)
    end) r.
Proof.
  intros Hn. pose proof (read_law n r Hn) as H. pose proof (stall_law n r) as H'. unfold wp in *.
  destruct (read n r) as [r' [[|x l]|e]] eqn:E.
  - destruct H as [-> ->]. rewrite len_nil. split_and!; (done || lia).
  - destruct H as [H1 H2]. split_and!; (done || lia).
  - split_and!; [done| |done]. exists n, r. by rewrite E.
Qed.

(** An error of the reader underneath; an interruption loses nothing. *)
Definition stalled (e : io_error) b b' : Prop :=
  transport e /\ (error_kind e = Interrupted -> unread b' = unread b /\ (waits b' < waits b)%nat).

Lemma fill_buf_spec b :
  wp fill_buf (fun o b' =>
    match o with
    | Ok l => ahead b' = l /\ takes [] b b' /\ (l = [] -> unread b = [])
    | Err e => stalled e b b'
    end) b.
Proof.
  unfold fill_buf, wp. destruct b as [[|x a] r]; cbn [ahead under]; [|by split_and!].
  pose proof (read_both BUF_CAPACITY r ltac:(done)) as H. unfold wp in H.
  unfold stalled, takes, unread, waits.
  destruct (read BUF_CAPACITY r) as [r' [l|e]]; cbn; [by destruct H as (H1 & H2 & H3 & H4)|].
  destruct H as (H1 & H2 & H3). auto.
Qed.

Lemma consume_takes l b : ahead b = l ++ zdrop (len l) (ahead b) ->
  takes l b (MkBuf (zdrop (len l) (ahead b)) (under b)).
Proof. intros E. split; [|done]. unfold unread. cbn. by rewrite (assoc_L (++)), <- E. Qed.

Lemma buf_read_spec n b : 0 < n ->
  wp (buf_read n) (fun o b' =>
    match o with
    | Ok l => len l <= n /\ takes l b b' /\ (l = [] -> unread b = [])
    | Err e => stalled e b b'
    end) b.
Proof.
  intros Hn. unfold buf_read.
  destruct (bool_decide (ahead b = []) && (n >=? BUF_CAPACITY)) eqn:E; unfold wp; rewrite E.
  - apply andb_true_iff in E as [Ea%bool_decide_eq_true _].
    destruct b as [a r]. cbn in Ea. subst a. cbn [under].
    pose proof (read_both n r Hn) as H. unfold wp in *. unfold stalled, takes, unread, waits.
    destruct (read n r) as [r' [l|e]]; cbn; destruct H as (H1 & H2 & H3).
    + destruct H3 as [H3 H4]. done.
    + split; [done|]. intros Ei. split; [done|by apply H3].
  - change (wp (let* l := fill_buf in consume (len (ztake n l)) ;;; ret (ztake n l)) (fun o b' =>
      match o with
      | Ok l => len l <= n /\ takes l b b' /\ (l = [] -> unread b = [])
      | Err e => stalled e b b'
      end) b).
    apply wp_bind. wp_use fill_buf_spec. intros [l|e] b1 H; [|done]. destruct H as (Ha & Ht & Hl).
    unfold consume. wp_steps. split_and!.
    + rewrite len_ztake. lia.
    + change (ztake n l) with ([] ++ ztake n l) at 1. eapply takes_app; [done|]. apply consume_takes.
      rewrite Ha. rewrite <- (ztake_zdrop n l) at 1. f_equal. unfold zdrop, ztake, len.
      rewrite length_take, Nat2Z.id. destruct (Nat.le_gt_cases (Z.to_nat n) (length l)); [f_equal; lia|].
      by rewrite !drop_ge by lia.
    + intros E0. apply Hl. destruct l as [|x l]; [done|]. exfalso.
      assert (H0 : len (ztake n (x :: l)) = 0) by by rewrite E0.
      rewrite len_ztake, len_cons in H0. pose proof (len_nonneg l). lia.
Qed.

Lemma read_exact_spec fuel : forall n b, (Z.to_nat n + waits b < fuel)%nat ->
  wp (read_exact fuel n) (fun o b' =>
    match o with
    | Ok (Some l) => len l = Z.max 0 n /\ takes l b b'
    | Ok None => False
    | Err e => transport e \/ len (unread b) < n
    end) b.
Proof.
  induction fuel as [|fuel IH]; intros n b Hf; [lia|]. cbn [read_exact].
  zcase; [apply wp_ret; split; [rewrite len_nil; lia|apply takes_nil]|].
  apply wp_bind, wp_attempt. wp_use (buf_read_spec n b ltac:(lia)). intros [[|x l]|e] b1 H0.
  - destruct H0 as (_ & _ & H0). right. rewrite (H0 eq_refl), len_nil. lia.
  - destruct H0 as (H0 & H1 & _). set (l' := x :: l) in *. assert (Hl : 0 < len l').
    { subst l'. rewrite len_cons. pose proof (len_nonneg l). lia. }
    change (wp (let* more := read_exact fuel (n - len l') in ret (option_map (app l') more)) (fun o b' =>
      match o with
      | Ok (Some l) => len l = Z.max 0 n /\ takes l b b'
      | Ok None => False
      | Err e => transport e \/ len (unread b) < n
      end) b1).
    apply wp_bind. eapply wp_mono; [apply IH; destruct H1; lia|]. cbn beta.
    intros [[more|]|e] b2 H2; [|done|].
    + apply wp_ret. cbn [option_map]. destruct H2 as [H2 H3]. split; [rewrite len_app; lia|by eapply takes_app].
    + destruct H2 as [H2|H2]; [by left|right]. destruct H1 as [Hu _]. rewrite Hu, len_app. lia.
  - destruct H0 as [Ht Hi]. case_bool_decide as Ei; [|by left]. destruct (Hi Ei) as [Hu Hw].
    eapply wp_mono; [apply IH; lia|]. cbn beta. unfold takes. rewrite Hu.
    intros [[more|]|e'] b2 H2; [|done|done]. split_and!; try apply H2. destruct H2 as (_ & _ & H2). lia.
Qed.

Lemma read_until_spec fuel : forall limit b, (Z.to_nat limit + waits b < fuel)%nat ->
  wp (read_until fuel limit) (fun o b' =>
    match o with
    | Ok (Some l) => l = take_line limit (unread b) /\ takes l b b'
    | Ok None => False
    | Err e => transport e
    end) b.
Proof.
  induction fuel as [|fuel IH]; intros limit b Hf; [lia|]. cbn [read_until].
  zcase; [apply wp_ret; split; [by rewrite take_line_0|apply takes_nil]|].
  apply wp_bind, wp_attempt. wp_use fill_buf_spec. intros [l|e] b1 H0.
  2: { destruct H0 as [Ht Hi]. case_bool_decide as Ei; [|done]. destruct (Hi Ei) as [Hu Hw].
       eapply wp_mono; [apply IH; lia|]. cbn beta. unfold takes. rewrite Hu.
       intros [[more|]|e'] b2 H2; [|done|done]. split_and!; try apply H2. destruct H2 as (_ & _ & H2). lia. }
  destruct H0 as (Ha & [Hu Hw] & Hl). cbn [app] in Hu.
  assert (Hub : unread b1 = l ++ wire (under b1)) by (unfold unread; by rewrite Ha).
  destruct (find_byte x0a (ztake limit l)) as [i|] eqn:E.
  - unfold consume. wp_steps. pose proof (find_byte_Some _ _ _ E) as (Hi & _).
    rewrite len_ztake in Hi. pose proof (len_nonneg l).
    assert (El : ztake (i + 1) (ztake limit l) = ztake (i + 1) l).
    { unfold ztake. rewrite take_take. f_equal. lia. }
    split; [rewrite Hu, Hub; symmetry; by apply take_line_here|].
    split; [|done]. rewrite Hu. unfold unread. cbn. rewrite Ha, (assoc_L (++)), El. by rewrite ztake_zdrop.
  - assert (Hlen : len (ztake limit l) = Z.min limit (len l)).
    { rewrite len_ztake. pose proof (len_nonneg l). lia. }
    unfold consume. wp_steps. set (b2 := MkBuf _ _).
    assert (Ht2 : takes (ztake limit l) b b2).
    { split; [|done]. rewrite Hu. unfold unread, b2. cbn. rewrite Ha, (assoc_L (++)). f_equal.
      rewrite <- (ztake_zdrop limit l) at 1. f_equal. rewrite Hlen. unfold zdrop, len.
      destruct (Z.le_gt_cases limit (len l)); unfold len in *; [f_equal; lia|by rewrite !drop_ge by lia]. }
    zcase.
    + wp_steps. assert (Hn : l = []) by (apply len_0_nil; pose proof (len_nonneg l); lia).
      split; [by rewrite (Hl Hn), take_line_nil|].
      rewrite Hn in Ht2. unfold ztake in Ht2. by rewrite take_nil in Ht2.
    + apply wp_bind. eapply wp_mono; [apply IH; destruct Ht2; pose proof (len_nonneg l); unfold waits in *; lia|]. cbn beta.
      intros [[more|]|e'] b3 H2; [|done|done]. wp_steps. cbn [option_map]. destruct H2 as [-> H2].
      split; [|by eapply takes_app]. rewrite Hu, Hub, (take_line_more limit l) by (done || lia).
      do 2 f_equal. destruct Ht2 as [Ht2 _]. rewrite <- Hub, <- Hu, Ht2. by rewrite zdrop_app.
Qed.

(** The bytes and the interruptions ahead of a chunked reader. *)
Definition rest c : bytes := unread (inner c).
Definition delays c : nat := waits (inner c).

Lemma line_spec fuel limit c : (Z.to_nat limit + delays c < fuel)%nat ->
  wp (line fuel limit) (fun o c' =>
    match o with
    | Ok (Some l) =>
        l = take_line limit (rest c) /\ ends_with [x0d; x0a] l = true /\
        takes l (inner c) (inner c') /\ c' = set_inner (inner c') c
    | Ok None => False
    | Err e => transport e \/ ends_with [x0d; x0a] (take_line limit (rest c)) = false
    end) c.
Proof.
  intros Hf. unfold line. apply wp_bind, wp_zoom. wp_use (read_until_spec fuel limit (inner c) Hf).
  intros [[l|]|e] b H; [|done|by left]. destruct H as [-> Ht].
  destruct (ends_with _ _) eqn:E; wp_steps; [done|by right].
Qed.

Lemma takes_rest l c c' : takes l (inner c) (inner c') -> rest c' = zdrop (len l) (rest c).
Proof. intros [H _]. unfold rest. rewrite H. by rewrite zdrop_app. Qed.

Lemma trailers_spec fuel rounds : forall budget c,
  0 <= budget < Z.of_nat rounds -> (Z.to_nat budget + delays c < fuel)%nat ->
  wp (trailers rounds fuel budget) (fun o c' =>
    match o with
    | Ok true =>
        skip_trailers rounds budget (rest c) = Some (rest c') /\ (delays c' <= delays c)%nat /\
        finished c' = true
    | Ok false => False
    | Err e => transport e \/ skip_trailers rounds budget (rest c) = None
    end) c.
Proof.
  induction rounds as [|rounds IH]; intros budget c Hb Hf; [lia|]. cbn [trailers skip_trailers].
  apply wp_bind. wp_use (line_spec fuel budget c Hf). intros [[l|]|e] c1 H; [|done|].
  2: { destruct H as [H|H]; [by left|right]. by rewrite H. }
  destruct H as (-> & He & Ht & Hc). set (l := take_line budget (rest c)) in *. rewrite He. cbn [negb].
  pose proof (takes_rest _ _ _ Ht) as Hr. destruct Ht as [_ Hw].
  case_bool_decide.
  { wp_steps. change (rest (set_finished true c1)) with (rest c1). by rewrite Hr. }
  destruct (existsb _ _); [|by right].
  pose proof (ends_with_crlf l He). pose proof (len_take_line budget (rest c)) as [Hl _]. fold l in Hl.
  eapply wp_mono; [apply IH; unfold delays in *; lia|]. cbn beta. rewrite Hr.
  intros [[|]|e] c2 H2; try done. destruct H2 as (H2 & H3 & H4). unfold delays in *. split_and!; (done || lia).
Qed.

Record cwf c : Prop := {
  cwf_remaining : 0 <= remaining c;
  cwf_needs : 0 < remaining c -> needs_crlf c = true;
}.

(** The body still to come. *)
Definition outlook c : decoded :=
  if finished c then ([], Some (rest c))
  else if remaining c =? 0 then decode (needs_crlf c) (rest c)
  else in_chunk (decode true) (remaining c) (rest c).

Definition enough (fuel : nat) c : Prop := (Z.to_nat MAX_METADATA_BYTES + delays c < fuel)%nat.

Lemma terminator_spec fuel c : enough fuel c ->
  wp (if needs_crlf c then
        let* crlf := zoom inner set_inner (read_exact fuel 2) in
        match crlf with
        | None => ret false
        | Some crlf =>
            if bool_decide (crlf = [x0d; x0a]) then ret true
            else fail (invalid (bs "Invalid chunk terminator"))
        end
      else ret true) (fun o c' =>
    match o with
    | Ok true =>
        needs_crlf c && negb (bool_decide (ztake 2 (rest c) = [x0d; x0a])) = false /\
        rest c' = (if needs_crlf c then zdrop 2 (rest c) else rest c) /\
        (delays c' <= delays c)%nat /\ c' = set_inner (inner c') c
    | Ok false => False
    | Err e => transport e \/ needs_crlf c && negb (bool_decide (ztake 2 (rest c) = [x0d; x0a])) = true
    end) c.
Proof.
  unfold enough, delays. intros Hf. destruct (needs_crlf c); cbn [andb]; [|wp_steps; by destruct c].
  apply wp_bind, wp_zoom. wp_use (read_exact_spec fuel 2 (inner c)); [unfold MAX_METADATA_BYTES in Hf; lia|].
  intros [[l|]|e] b H; [|done|].
  - destruct H as [Hl [Hu Hw]]. change (0 `max` 2) with 2 in Hl.
    unfold rest. rewrite Hu, ztake_app, zdrop_app by done.
    case_bool_decide; cbn [negb]; wp_steps; [|by right]. done.
  - destruct H as [H|H]; [by left|right]. rewrite bool_decide_false; [done|]. intros E.
    apply (f_equal len) in E. rewrite len_ztake in E. change (len [x0d; x0a]) with 2 in E.
    unfold rest in E. lia.
Qed.

Lemma next_chunk_spec fuel c : enough fuel c -> finished c = false ->
  wp (next_chunk fuel) (fun o c' =>
    match o with
    | Ok (Some true) =>
        boundary (needs_crlf c) (rest c) = Some (remaining c', rest c') /\ 0 < remaining c' /\
        needs_crlf c' = true /\ finished c' = false /\ (delays c' <= delays c)%nat
    | Ok (Some false) =>
        decode (needs_crlf c) (rest c) = ([], Some (rest c')) /\ finished c' = true /\
        (delays c' <= delays c)%nat
    | Ok None => False
    | Err e => transport e \/ decode (needs_crlf c) (rest c) = ([], None)
    end) c.
Proof.
  intros Hf Hfin. unfold next_chunk. apply wp_bind, wp_get. cbn beta iota.
  apply wp_bind. wp_use (terminator_spec fuel c Hf). rewrite decode_eq. unfold boundary.
  intros [[|]|e] c1 H; [|done|destruct H as [H|H]; [by left|right; by rewrite H]].
  destruct H as (-> & Hr & Hw & Hc1). rewrite <- Hr. cbn [negb].
  apply wp_bind. wp_use (line_spec fuel MAX_METADATA_BYTES c1); [unfold enough in Hf; lia|].
  intros [[l|]|e] c2 H; [|done|destruct H as [H|H]; [by left|right; by rewrite H]].
  destruct H as (-> & -> & Ht & Hc2). set (l := take_line _ _) in *.
  pose proof (takes_rest _ _ _ Ht) as Hr2. rewrite <- Hr2. destruct Ht as [_ Hw2].
  apply wp_bind, wp_lift. destruct (chunk_size l) as [n|e] eqn:En; [|by right].
  apply chunk_size_nonneg in En. wp_steps. destruct (Z.eqb_spec n 0) as [->|Hn].
  - apply wp_bind. wp_use (trailers_spec fuel TRAILER_ROUNDS MAX_METADATA_BYTES (set_remaining 0 c2)).
    + done.
    + unfold enough, delays in *. cbn. lia.
    + change (rest (set_remaining 0 c2)) with (rest c2). intros [[|]|e] c3 H; [|done|].
      * destruct H as (-> & H & H'). wp_steps. unfold delays in *. cbn in H. split_and!; (done || lia).
      * destruct H as [H|H]; [by left|right]. by rewrite H.
  - wp_steps. cbn. unfold delays in *. rewrite Hc2, Hc1 in *. cbn in *. split_and!; (done || lia).
Qed.

Lemma in_chunk_take k r l w : len l <= r ->
  in_chunk k r (l ++ w) = (l ++ (in_chunk k (r - len l) w).1, (in_chunk k (r - len l) w).2).
Proof using Type.
  intros Hl. unfold in_chunk. rewrite len_app. repeat zcase; [done|].
  rewrite ztake_app_r, zdrop_app_r by lia.
  destruct (k _) as [b e]. cbn. by rewrite (assoc_L (++)).
Qed.

Lemma in_chunk_0 k w : in_chunk k 0 w = k w.
Proof using Type.
  unfold in_chunk. pose proof (len_nonneg w). zcase. rewrite ztake_nil, zdrop_0 by lia. by destruct (k w).
Qed.

Lemma outlook_in_chunk c : finished c = false -> (remaining c = 0 -> needs_crlf c = true) ->
  outlook c = in_chunk (decode true) (remaining c) (rest c).
Proof using Type.
  intros Hf Hn. unfold outlook. rewrite Hf. destruct (Z.eqb_spec (remaining c) 0) as [E|E]; [|done].
  by rewrite E, in_chunk_0, Hn.
Qed.

(** The rest of [read], inside a chunk. *)
Lemma give_spec n c : 0 < n -> 0 < remaining c -> needs_crlf c = true -> finished c = false ->
  wp (let count := Z.min (remaining c) n in
      let* l := zoom inner set_inner (buf_read count) in
      if len l =? 0 then fail (IoError UnexpectedEof (bs "Truncated HTTP chunk"))
      else modify (set_remaining (remaining c - len l)) ;;; ret (Some l)) (fun o c' =>
    match o with
    | Ok (Some l) =>
        0 < len l <= n /\ outlook c = (l ++ (outlook c').1, (outlook c').2) /\ cwf c' /\
        (delays c' <= delays c)%nat
    | Ok None => False
    | Err e => transport e \/ outlook c = ([], None)
    end) c.
Proof.
  intros Hn Hr Hc Hf. cbn zeta. apply wp_bind, wp_zoom.
  wp_use (buf_read_spec (Z.min (remaining c) n) (inner c)); [lia|].
  intros [l|e] b H; [|left; apply H]. destruct H as (Hl & [Hu Hw] & H0).
  rewrite outlook_in_chunk by done. unfold rest.
  destruct (Z.eqb_spec (len l) 0) as [E|E].
  - apply len_0_nil in E. wp_steps. right. rewrite (H0 E). unfold in_chunk. rewrite len_nil. by zcase.
  - wp_steps. pose proof (len_nonneg l). split; [lia|]. rewrite Hu, in_chunk_take by lia.
    set (c' := set_remaining _ _).
    assert (Ho : outlook c' = in_chunk (decode true) (remaining c - len l) (unread b)).
    { by rewrite outlook_in_chunk. }
    rewrite Ho. split_and!; [done| |done]. split; cbn; [lia|done].
Qed.

(** [read] into a buffer of [n > 0] bytes. *)
Lemma chunked_read_spec fuel n c : 0 < n -> enough fuel c -> cwf c ->
  wp (chunked_read fuel n) (fun o c' =>
    match o with
    | Ok (Some []) => outlook c = ([], Some (rest c'))
    | Ok (Some l) =>
        len l <= n /\ outlook c = (l ++ (outlook c').1, (outlook c').2) /\ cwf c' /\
        (delays c' <= delays c)%nat
    | Ok None => False
    | Err e => transport e \/ outlook c = ([], None)
    end) c.
Proof.
  intros Hn Hf [Hr Hc]. unfold chunked_read. apply wp_bind, wp_get. cbn beta iota.
  rewrite (proj2 (Z.eqb_neq n 0)) by lia. cbn [orb].
  destruct (finished c) eqn:Hfin.
  { wp_steps. unfold outlook. by rewrite Hfin. }
  assert (Hgive : forall c1, 0 < remaining c1 -> needs_crlf c1 = true -> finished c1 = false ->
    outlook c = outlook c1 -> (delays c1 <= delays c)%nat ->
    wp (let count := Z.min (remaining c1) n in
        let* l := zoom inner set_inner (buf_read count) in
        if len l =? 0 then fail (IoError UnexpectedEof (bs "Truncated HTTP chunk"))
        else modify (set_remaining (remaining c1 - len l)) ;;; ret (Some l)) (fun o c' =>
      match o with
      | Ok (Some []) => outlook c = ([], Some (rest c'))
      | Ok (Some l) =>
          len l <= n /\ outlook c = (l ++ (outlook c').1, (outlook c').2) /\ cwf c' /\
          (delays c' <= delays c)%nat
      | Ok None => False
      | Err e => transport e \/ outlook c = ([], None)
      end) c1).
  { intros c1 H1 H2 H3 Ho Hd. eapply wp_mono; [by apply give_spec|]. cbn beta. rewrite Ho.
    intros [[[|x l]|]|e] c' H; try done.
    { destruct H as [H _]. rewrite len_nil in H. lia. }
    destruct H as (H4 & H5 & H6 & H7). split_and!; (done || lia). }
  apply wp_bind. destruct (Z.eqb_spec (remaining c) 0) as [E|E].
  - wp_use (next_chunk_spec fuel c Hf Hfin).
    assert (Ho : outlook c = decode (needs_crlf c) (rest c)) by (unfold outlook; by rewrite Hfin, E).
    intros [[[|]|]|e] c1 H; [| |done|by rewrite Ho].
    + destruct H as (Hb & H1 & H2 & H3 & H4). apply wp_bind, wp_get. cbn beta iota.
      apply Hgive; try done. rewrite Ho, decode_eq, Hb, outlook_in_chunk by done.
      by rewrite (proj2 (Z.eqb_neq _ _)) by lia.
    + wp_steps. by rewrite Ho, (proj1 H).
  - apply wp_ret. cbn beta iota. apply wp_bind, wp_get. cbn beta iota.
    assert (0 < remaining c) by lia. apply Hgive; (done || lia || by apply Hc).
Qed.
End Machine.
