(* ===== verification/HttpChunkedTheorems.v ===== *)
(** * What the chunked reader guarantees *)

From S2P Require Import Prelude RustStr RustStrLemmas Io HttpChunked HttpChunkedSpec.
#[local] Set Default Proof Using "Type*".
#[local] Opaque decode TRAILER_ROUNDS.

(** ** Reading *)

Section Drain.
Context {R : Type} `{!Reader R, lawsR : !ReaderLaws R, patient : !Patient R}.
Implicit Types (c : ChunkedReader R) (r : R).

Lemma drain_spec fuel sizes : forall c,
  enough fuel c -> cwf c -> Forall (fun n => 0 < n) sizes ->
  let '(b, st) := drain fuel sizes c in
  exists more ending, outlook c = (b ++ more, ending) /\
  match st with
  | Open => len sizes <= len b
  | Ended => more = [] /\ is_Some ending
  | Failed e => transport (R := R) e \/ (more = [] /\ ending = None)
  | OutOfFuel => False
  end.
Proof.
  induction sizes as [|n sizes IH]; intros c Hf Hc Hs; cbn [drain].
  { destruct (outlook c) as [b e]. by exists b, e. }
  apply Forall_cons in Hs as [Hn Hs].
  pose proof (chunked_read_spec fuel n c Hn Hf Hc) as H. unfold wp in H.
  destruct (chunked_read fuel n c) as [c1 [[[|x l]|]|e]].
  - exists [], (Some (rest c1)). split; [done|]. by split.
  - destruct H as (_ & Ho & Hc1 & Hd). specialize (IH c1 ltac:(unfold enough in *; lia) Hc1 Hs).
    destruct (drain fuel sizes c1) as [b st]. destruct IH as (more & ending & E & IH).
    rewrite E in Ho. cbn [fst snd] in Ho. exists more, ending.
    split; [by rewrite Ho, (assoc_L (++))|]. destruct st; try done.
    rewrite len_app, !len_cons. pose proof (len_nonneg l). lia.
  - done.
  - destruct (outlook c) as [b ending]. exists b, ending. split; [done|].
    destruct H as [H|[= -> ->]]; [by left|by right].
Qed.

Lemma outlook_new r : outlook (new r) = decode false (wire r).
Proof using Type.
  unfold outlook. cbn [finished remaining new needs_crlf Z.eqb]. f_equal.
Qed.

(** C21. A chunked body is given out exactly, and a truncated one is never
    taken for complete.  Over any reader, in whatever pieces it delivers,
    and with buffers of any sizes: the bytes read are the front of the body
    the reference decoder finds; the end of the body (a read of zero bytes)
    is reported only when the encoding was complete, terminating chunk and
    trailers included, and then the whole body was read; an encoding that is
    cut short or malformed ends in an error after the whole of what could be
    decoded.  No wait runs out of fuel, and more reads than bytes end. *)
Theorem chunked_body_exact fuel sizes r :
  (Z.to_nat MAX_METADATA_BYTES + stalls r < fuel)%nat -> Forall (fun n => 0 < n) sizes ->
  let '(b, st) := drain fuel sizes (new r) in
  let '(body, ending) := decode false (wire r) in
  b `prefix_of` body /\
  match st with
  | Open => len sizes <= len b
  | Ended => b = body /\ is_Some ending
  | Failed e => transport (R := R) e \/ (b = body /\ ending = None)
  | OutOfFuel => False
  end.
Proof.
  intros Hf Hs. assert (Hc : cwf (new r)) by (split; cbn; [done|lia]).
  assert (He : enough fuel (new r)) by (unfold enough, delays, waits; cbn [new inner under]; exact Hf).
  pose proof (drain_spec fuel sizes (new r) He Hc Hs) as H.
  destruct (drain fuel sizes (new r)) as [b st]. destruct H as (more & ending & E & H).
  rewrite outlook_new in E. rewrite E.
  split; [by eexists|]. destruct st; try done.
  - destruct H as [-> H]. by rewrite app_nil_r.
  - destruct H as [H|[-> H]]; [by left|right]. by rewrite app_nil_r.
Qed.
End Drain.

(** ** Encoding *)

Definition hex_char (d : Z) : byte := byte_of_Z (if d <? 10 then 48 + d else 87 + d).
Fixpoint hex_fuel (fuel : nat) (n : Z) : bytes :=
  match fuel with
  | O => []
  | S fuel => (if n <? 16 then [] else hex_fuel fuel (n / 16)) ++ [hex_char (n mod 16)]
  end.
Definition hex (n : Z) : bytes := hex_fuel 16 n.

(** A chunk with its extension, and the whole body with its trailers. *)
Definition encode_chunk (ext data : bytes) : bytes :=
  hex (len data) ++ ext ++ [x0d; x0a] ++ data ++ [x0d; x0a].
Definition encode_trailers (ts : list bytes) : bytes :=
  concat (map (fun t => t ++ [x0d; x0a]) ts) ++ [x0d; x0a].
Definition encode (chunks : list (bytes * bytes)) (ts : list bytes) : bytes :=
  concat (map (fun x => encode_chunk x.1 x.2) chunks) ++ bs "0" ++ [x0d; x0a] ++ encode_trailers ts.

Lemma hex_char_ok d : 0 <= d < 16 ->
  hex_digit (hex_char d) = Some d /\ is_hexdigit (hex_char d) = true /\
  bool_decide (hex_char d = x2b) = false /\ bool_decide (hex_char d = x3b) = false.
Proof.
  intros Hd.
  assert (H : forallb (fun d => bool_decide (hex_digit (hex_char (Z.of_nat d)) = Some (Z.of_nat d)) &&
    is_hexdigit (hex_char (Z.of_nat d)) && negb (bool_decide (hex_char (Z.of_nat d) = x2b)) &&
    negb (bool_decide (hex_char (Z.of_nat d) = x3b))) (seq 0 16) = true) by by vm_compute.
  rewrite forallb_forall in H. specialize (H (Z.to_nat d)).
  rewrite Z2Nat.id, !andb_true_iff, !negb_true_iff, bool_decide_eq_true in H by lia.
  destruct H as [[[H1 H2] H3] H4]; [apply in_seq; lia|done].
Qed.

Lemma hex_fuel_value fuel : forall n, 0 <= n < 16 ^ Z.of_nat fuel -> n < 2 ^ 64 ->
  digits_value 64 16 hex_digit (hex_fuel fuel n) 0 = Some n /\ forallb is_hexdigit (hex_fuel fuel n) = true /\
  Forall (fun b => b <> x2b /\ b <> x3b) (hex_fuel fuel n).
Proof.
  induction fuel as [|fuel IH]; intros n Hn Hw; [cbn in *; assert (n = 0) as -> by lia; done|].
  cbn [hex_fuel]. rewrite Nat2Z.inj_succ, Z.pow_succ_r in Hn by lia.
  pose proof (Z.mod_pos_bound n 16 ltac:(lia)) as Hm.
  destruct (hex_char_ok (n mod 16) Hm) as (H1 & H2 & H3%bool_decide_eq_false & H4%bool_decide_eq_false).
  pose proof (Z.div_mod n 16 ltac:(lia)) as Hd.
  rewrite digits_value_snoc, forallb_app, Forall_app. cbn [forallb]. rewrite H1, H2, andb_true_r.
  assert (Hfit : fits 64 n = true) by (unfold fits; rewrite andb_true_iff, Z.leb_le, Z.ltb_lt; lia).
  zcase.
  - rewrite Z.mod_small in * by lia. cbn [digits_value]. rewrite Z.add_0_l, Hfit.
    split_and!; try done. by repeat constructor.
  - destruct (IH (n / 16)) as (I1 & I2 & I3).
    + split; [apply Z.div_pos; lia|apply Z.div_lt_upper_bound; lia].
    + apply Z.div_lt_upper_bound; lia.
    + rewrite I1, I2. replace (n / 16 * 16 + n mod 16) with n by lia. rewrite Hfit.
      split_and!; try done. by repeat constructor.
Qed.

Lemma len_hex n : len (hex n) <= 16.
Proof.
  assert (H : forall fuel n, len (hex_fuel fuel n) <= Z.of_nat fuel).
  { clear n. induction fuel as [|fuel IH]; intros n; [done|]. cbn [hex_fuel].
    rewrite len_app. change (len [hex_char (n mod 16)]) with 1. specialize (IH (n / 16)).
    zcase; rewrite ?len_nil; lia. }
  apply (H 16%nat).
Qed.

(** A line of its own. *)
Lemma take_line_line limit l w : ~ x0a ∈ l -> len l + 2 <= limit ->
  take_line limit (l ++ [x0d; x0a] ++ w) = l ++ [x0d; x0a].
Proof.
  intros Hl Hlim. unfold take_line. pose proof (len_nonneg l). rewrite ztake_app_r by lia.
  assert (E : ztake (limit - len l) ([x0d; x0a] ++ w) = [x0d; x0a] ++ ztake (limit - len l - 2) w).
  { rewrite ztake_app_r; [done|]. change (len [x0d; x0a]) with 2. lia. }
  rewrite E. cbn [app]. rewrite (cons_middle x0d), (assoc_L (++)).
  rewrite find_byte_first by (rewrite elem_of_app, elem_of_cons, elem_of_nil; intuition congruence).
  change (l ++ [x0d; x0a]) with (l ++ [x0d] ++ [x0a]). rewrite (cons_middle x0a).
  rewrite !(assoc_L (++)), ztake_app_l by (rewrite !len_app; change (len [x0d]) with 1; change (len [x0a]) with 1; lia).
  apply ztake_all. rewrite !len_app. change (len [x0d]) with 1; change (len [x0a]) with 1. lia.
Qed.

Lemma ends_with_app l : ends_with [x0d; x0a] (l ++ [x0d; x0a]) = true.
Proof.
  unfold ends_with. rewrite len_app. change (len [x0d; x0a]) with 2. pose proof (len_nonneg l).
  rewrite zdrop_app by lia. rewrite bool_decide_true by done. cbn [andb]. apply Z.leb_le. lia.
Qed.

Lemma line_body l : ztake (len (l ++ [x0d; x0a]) - 2) (l ++ [x0d; x0a]) = l.
Proof. apply ztake_app. rewrite len_app. change (len [x0d; x0a]) with 2. lia. Qed.

(** A chunk extension: nothing, or a semicolon and more, on the same line. *)
Definition ext_ok (ext : bytes) : Prop :=
  ~ x0a ∈ ext /\ len ext <= 8174 /\ (ext = [] \/ exists e, ext = x3b :: e).
Definition chunk_ok (x : bytes * bytes) : Prop := ext_ok x.1 /\ 0 < len x.2 < 2 ^ 64.
Definition trailer_ok (t : bytes) : Prop := ~ x0a ∈ t /\ x3a ∈ t.

Lemma chunk_size_line n ext : 0 <= n < 2 ^ 64 -> ext_ok ext ->
  chunk_size (hex n ++ ext ++ [x0d; x0a]) = Ok n.
Proof.
  intros Hn (_ & _ & He). unfold chunk_size.
  rewrite (assoc_L (++)), line_body.
  destruct (hex_fuel_value 16 n) as (H1 & H2 & H3); [change (16 ^ Z.of_nat 16) with (2 ^ 64); lia|lia|].
  fold (hex n) in H1, H2, H3. rewrite Forall_forall in H3.
  rewrite split_byte_first by (done || intros H; by destruct (H3 _ H)). cbn [from_option id].
  change (id (hex n)) with (hex n).
  assert (Hne : hex n <> []).
  { unfold hex. cbn [hex_fuel]. intros E. by apply app_eq_nil in E as [_ E]. }
  rewrite bool_decide_false, H2 by done. cbn [orb negb].
  assert (Hp : parse_hex 64 (hex n) = Some n); [|by rewrite Hp].
  unfold parse_hex, parse_radix. destruct (hex n) as [|b l] eqn:E; [done|].
  assert (Hb : b <> x2b) by (apply H3; by left).
  destruct b; try done; by rewrite H1.
Qed.

Lemma decode_terminator w : decode true ([x0d; x0a] ++ w) = decode false w.
Proof.
  rewrite !decode_eq. unfold boundary. rewrite ztake_app, zdrop_app by done.
  rewrite bool_decide_true by done. cbn [andb negb]. reflexivity.
Qed.

Lemma decode_chunk ext data w : chunk_ok (ext, data) ->
  decode false (encode_chunk ext data ++ w) = (data ++ (decode false w).1, (decode false w).2).
Proof.
  intros [He Hd]. cbn [fst snd] in *. rewrite decode_eq. unfold boundary, encode_chunk. cbn [andb].
  rewrite <- !(assoc_L (++)). rewrite (assoc_L (++) (hex _)).
  destruct (hex_fuel_value 16 (len data)) as (_ & _ & H3); [change (16 ^ Z.of_nat 16) with (2 ^ 64); lia|lia|].
  fold (hex (len data)) in H3. rewrite Forall_forall in H3.
  assert (Hnl : ~ x0a ∈ hex (len data)).
  { assert (H2 : forallb is_hexdigit (hex (len data)) = true).
    { apply (hex_fuel_value 16 (len data)); [change (16 ^ Z.of_nat 16) with (2 ^ 64); lia|lia]. }
    rewrite forallb_forall in H2. intros H%list_elem_of_In. by apply H2 in H. }
  rewrite take_line_line.
  2: { rewrite elem_of_app. destruct He. tauto. }
  2: { rewrite len_app. pose proof (len_hex (len data)). destruct He as (_ & He & _). unfold MAX_METADATA_BYTES. lia. }
  rewrite ends_with_app. rewrite <- !(assoc_L (++)), chunk_size_line by (done || lia).
  rewrite (proj2 (Z.eqb_neq (len data) 0)) by lia.
  rewrite (assoc_L (++) ext), (assoc_L (++) (hex (len data)) (ext ++ _)), zdrop_app by done.
  unfold in_chunk. rewrite len_app. pose proof (len_nonneg ([x0d; x0a] ++ w)). zcase.
  rewrite ztake_app, zdrop_app, decode_terminator by done. by destruct (decode false w).
Qed.

Lemma skip_trailers_ok ts : forall rounds budget w,
  Forall trailer_ok ts -> len (encode_trailers ts) <= budget < Z.of_nat rounds ->
  skip_trailers rounds budget (encode_trailers ts ++ w) = Some w.
Proof.
  induction ts as [|t ts IH]; intros rounds budget w Ht Hb;
    (destruct rounds as [|rounds];
      [match type of Hb with len ?l <= _ < _ => pose proof (len_nonneg l); lia end|]);
    cbn [skip_trailers]; unfold encode_trailers in *; cbn [map concat app] in *.
  - change (len [x0d; x0a]) with 2 in Hb.
    assert (E : take_line budget (x0d :: x0a :: w) = [x0d; x0a]).
    { apply (take_line_line budget [] w); [set_solver|]. rewrite len_nil. lia. }
    rewrite E.
    change (ends_with [x0d; x0a] [x0d; x0a]) with true. cbn [negb].
    by rewrite bool_decide_true by done.
  - apply Forall_cons in Ht as [[Hnl Hc] Ht]. rewrite <- !(assoc_L (++)) in *. rewrite !len_app in Hb.
    change (len [x0d; x0a]) with 2 in Hb.
    pose proof (len_nonneg (concat (map (fun t => t ++ [x0d; x0a]) ts))).
    rewrite take_line_line by (done || lia). rewrite ends_with_app. cbn [negb].
    rewrite bool_decide_false.
    2: { intros E. apply (f_equal len) in E. rewrite len_app in E. destruct t; [set_solver|].
         rewrite len_cons in E. pose proof (len_nonneg t). lia. }
    rewrite line_body. rewrite (proj2 (existsb_exists _ _)).
    2: { exists x3a. split; [by apply list_elem_of_In|by apply bool_decide_eq_true]. }
    rewrite (assoc_L (++) t), zdrop_app by done. rewrite (assoc_L (++)). apply IH; [done|].
    rewrite !len_app. change (len [x0d; x0a]) with 2. pose proof (len_nonneg t). lia.
Qed.

Lemma decode_last ts w : Forall trailer_ok ts -> len (encode_trailers ts) <= MAX_METADATA_BYTES ->
  decode false (bs "0" ++ [x0d; x0a] ++ encode_trailers ts ++ w) = ([], Some w).
Proof.
  intros Ht Hl. rewrite decode_eq. unfold boundary. cbn [andb].
  rewrite take_line_line; [|by apply (bool_decide_unpack _)|done].
  rewrite ends_with_app. change (chunk_size (bs "0" ++ [x0d; x0a])) with (@Ok io_error Z 0). cbn iota.
  rewrite (assoc_L (++) (bs "0")), zdrop_app by done. cbn [Z.eqb].
  rewrite skip_trailers_ok; [done|done|]. rewrite trailer_rounds. lia.
Qed.

Lemma decode_chunks chunks v : Forall chunk_ok chunks ->
  decode false (concat (map (fun x => encode_chunk x.1 x.2) chunks) ++ v) =
  (concat (map snd chunks) ++ (decode false v).1, (decode false v).2).
Proof.
  induction 1 as [|[ext data] chunks Hx _ IH].
  - cbn [map concat app]. by destruct (decode false v).
  - cbn [map concat fst snd]. rewrite <- (assoc_L (++)), (decode_chunk ext data _ Hx), IH.
    destruct (decode false v) as [a b]. cbn [fst snd]. by rewrite (assoc_L (++)).
Qed.

Lemma decode_encode chunks ts w :
  Forall chunk_ok chunks -> Forall trailer_ok ts -> len (encode_trailers ts) <= MAX_METADATA_BYTES ->
  decode false (encode chunks ts ++ w) = (concat (map snd chunks), Some w).
Proof.
  intros Hc Ht Hl. unfold encode. rewrite <- !(assoc_L (++)), decode_chunks, decode_last by done.
  cbn [fst snd]. by rewrite app_nil_r.
Qed.

(** Any chunked encoding decodes to what was encoded: chunks of any sizes
    below 2^64, in hexadecimal, with extensions on their size lines, and
    trailers within the metadata budget.  What follows the body is left
    alone. *)
Theorem chunked_roundtrip chunks ts w :
  Forall chunk_ok chunks -> Forall trailer_ok ts -> len (encode_trailers ts) <= MAX_METADATA_BYTES ->
  decode false (encode chunks ts ++ w) = (concat (map snd chunks), Some w).
Proof. apply decode_encode. Qed.

Definition wiki : list (bytes * bytes) := [([], bs "Wiki"); (bs ";q=1", bs "pedia")].
Lemma wiki_ok : Forall chunk_ok wiki.
Proof.
  apply Forall_cons_2; [|apply Forall_cons_2; [|apply Forall_nil_2]]; (split; [|done]); split_and!.
  all: try (by apply (bool_decide_unpack _)). all: try done.
  - by left.
  - right. by eexists.
Qed.
Lemma one_trailer_ok : Forall trailer_ok [bs "A: b"].
Proof. apply Forall_cons_2; [|apply Forall_nil_2]. split; by apply (bool_decide_unpack _). Qed.

Lemma chunked_roundtrip_witness :
  decode false (encode wiki [bs "A: b"] ++ bs "next") = (bs "Wikipedia", Some (bs "next")).
Proof. exact (chunked_roundtrip wiki [bs "A: b"] (bs "next") wiki_ok one_trailer_ok ltac:(done)). Defined.

(** ** Truncation *)

Lemma ends_with_newline l : ends_with [x0d; x0a] l = true -> x0a ∈ l.
Proof.
  unfold ends_with. intros [H%bool_decide_eq_true Hl%Z.leb_le]%andb_true_iff.
  rewrite <- (ztake_zdrop (len l - len [x0d; x0a]) l), H. set_solver.
Qed.

Lemma take_line_stable limit p k : x0a ∈ take_line limit p -> take_line limit (p ++ k) = take_line limit p.
Proof.
  intros Hin. unfold take_line in Hin. destruct (Z.le_gt_cases limit 0) as [Hl|Hl].
  { rewrite !take_line_0 by lia. done. }
  destruct (find_byte x0a (ztake limit p)) as [i|] eqn:E.
  - rewrite (take_line_here _ _ _ _ Hl E). unfold take_line. by rewrite E.
  - apply find_byte_None in E. done.
Qed.

Lemma boundary_stable needs p k n p' : boundary needs p = Some (n, p') -> boundary needs (p ++ k) = Some (n, p' ++ k).
Proof.
  unfold boundary. destruct (needs && _) eqn:E1; [done|].
  set (v := if needs then zdrop 2 p else p).
  assert (Hk : (if needs then zdrop 2 (p ++ k) else p ++ k) = v ++ k /\
    needs && negb (bool_decide (ztake 2 (p ++ k) = [x0d; x0a])) = false).
  { subst v. destruct needs; [|done]. cbn [andb] in *. apply negb_false_iff, bool_decide_eq_true in E1.
    assert (H2 : 2 <= len p).
    { apply (f_equal len) in E1. rewrite len_ztake in E1. change (len [x0d; x0a]) with 2 in E1.
      pose proof (len_nonneg p). lia. }
    rewrite zdrop_app_l, ztake_app_l, E1 by lia. by rewrite bool_decide_true. }
  destruct Hk as [-> ->]. destruct (ends_with _ (take_line _ v)) eqn:E; [|done].
  rewrite take_line_stable by by apply ends_with_newline. rewrite E.
  destruct (chunk_size _); [|done]. intros [= <- <-].
  pose proof (len_take_line MAX_METADATA_BYTES v). by rewrite zdrop_app_l by lia.
Qed.

Lemma skip_trailers_stable rounds : forall budget p k r,
  skip_trailers rounds budget p = Some r -> skip_trailers rounds budget (p ++ k) = Some (r ++ k).
Proof.
  induction rounds as [|rounds IH]; intros budget p k r; [done|]. cbn [skip_trailers].
  destruct (ends_with _ (take_line budget p)) eqn:E; cbn [negb]; [|done].
  rewrite take_line_stable by by apply ends_with_newline. rewrite E. cbn [negb].
  pose proof (len_take_line budget p) as [_ Hl]. rewrite zdrop_app_l by done.
  case_bool_decide; [by intros [= <-]|]. destruct (existsb _ _); [apply IH|done].
Qed.

Lemma decode_stable p : forall needs k b r,
  decode needs p = (b, Some r) -> decode needs (p ++ k) = (b, Some (r ++ k)).
Proof.
  remember (length p) as n eqn:En. revert p En. induction n as [n IH] using lt_wf_ind.
  intros p -> needs k b r. rewrite !decode_eq.
  destruct (boundary needs p) as [[m p']|] eqn:E; [|done].
  rewrite (boundary_stable _ _ _ _ _ E). apply boundary_length in E.
  destruct (Z.eqb_spec m 0).
  { destruct (skip_trailers _ _ p') as [r'|] eqn:H; [|done].
    rewrite (skip_trailers_stable _ _ _ _ _ H). by intros [= <- <-]. }
  unfold in_chunk. rewrite len_app. pose proof (len_nonneg k). destruct (Z.ltb_spec (len p') m); [done|].
  zcase. rewrite ztake_app_l, zdrop_app_l by lia.
  destruct (decode true (zdrop m p')) as [b' e'] eqn:Ed. intros [= <- ->].
  rewrite (IH (length (zdrop m p'))) with (r := r) (b := b'); [done| |done|done].
  unfold zdrop. rewrite length_drop. lia.
Qed.

(** No strict prefix of a chunked body is a chunked body: a connection
    that drops at any byte before the last, between chunks and inside the
    trailers as well, is seen as an error and never as the end. *)
Theorem chunked_truncation_detected chunks ts p k :
  Forall chunk_ok chunks -> Forall trailer_ok ts -> len (encode_trailers ts) <= MAX_METADATA_BYTES ->
  encode chunks ts = p ++ k -> k <> [] -> (decode false p).2 = None.
Proof.
  intros Hc Ht Hl E Hk. destruct (decode false p) as [b [r|]] eqn:Ed; [exfalso|done].
  apply (decode_stable _ _ k) in Ed. rewrite <- E in Ed.
  assert (Hw : decode false (encode chunks ts ++ []) = (concat (map snd chunks), Some [])).
  { by apply decode_encode. }
  rewrite app_nil_r, Ed in Hw. injection Hw as _ Hw. by apply app_eq_nil in Hw as [_ Hw].
Qed.

Lemma chunked_truncation_detected_witness :
  (decode false (ztake 30 (encode wiki [bs "A: b"]))).2 = None /\ len (encode wiki [bs "A: b"]) = 34.
Proof.
  split; [|by vm_compute].
  exact (chunked_truncation_detected wiki [bs "A: b"] (ztake 30 (encode wiki [bs "A: b"])) (zdrop 30 (encode wiki [bs "A: b"])) wiki_ok one_trailer_ok
    ltac:(done) ltac:(by vm_compute) ltac:(by vm_compute)).
Defined.

(** Fuel enough for a body with few interruptions. *)
Definition ample : nat := Z.to_nat 9000.

(** A body in two chunks, delivered badly. *)
Lemma chunked_body_exact_witness :
  let r := Script [Data (bs "4" ++ [x0d]); Fault Interrupted; Data ([x0a] ++ bs "Wi");
                   Data (bs "ki" ++ [x0d; x0a] ++ bs "0"); Data ([x0d; x0a; x0d; x0a] ++ bs "x")] [] None in
  drain ample [3; 1; 5; 5] (new r) = (bs "Wiki", Ended) /\ bs "Wiki" = (decode false (wire r)).1.
Proof.
  intros r. assert (E : drain ample [3; 1; 5; 5] (new r) = (bs "Wiki", Ended)) by by vm_compute.
  split; [exact E|].
  assert (Hf : (Z.to_nat MAX_METADATA_BYTES + stalls r < ample)%nat).
  { change (stalls r) with 1%nat. unfold MAX_METADATA_BYTES, ample. lia. }
  assert (Hs : Forall (fun n => 0 < n) [3; 1; 5; 5]) by repeat constructor.
  pose proof (chunked_body_exact ample [3; 1; 5; 5] r Hf Hs) as H. rewrite E in H.
  destruct (decode false (wire r)) as [body ending]. destruct H as (_ & H & _). exact H.
Defined.
