(* ===== verification/HttpClient.v ===== *)
(** * The HTTP client ([src/http_client.rs])

    URL parsing, the hand-built request, the response's status and framing,
    the buffered and the streaming exchange.  The sockets (TLS and TCP) and the
    resolver are parameters; a header map is the list of its entries in the
    order its iterator gives them. *)

From S2P Require Import Prelude RustStr Io HttpChunked.
Definition MAX_RESPONSE_HEADER_BYTES : Z := 8 * 1024.
Definition MAX_RESPONSE_BODY_BYTES : Z := 1024 * 1024.
Definition MIN_HEAP_FOR_BUFFERED_FETCH : Z := 32 * 1024.
Definition usize_max : Z := 2 ^ 32 - 1.
Definition CRLF : bytes := [x0d; x0a].

(** [anyhow::Error]: a message, or the error it was made from. *)
Inductive anyhow :=
| Bail (what : bytes)
| FromIo (e : io_error)
| ParseInt
| Utf8.

Abbreviation R A := (result anyhow A).

Definition of_option {A} (e : anyhow) (o : option A) : R A :=
  match o with Some a => Ok a | None => Err e end.

(** ** URLs *)

Definition split_scheme (url : bytes) : option (bytes * bool) :=
  match strip_prefix (bs "https://") url with
  | Some s => Some (s, true)
  | None =>
      match strip_prefix (bs "wss://") url with
      | Some s => Some (s, true)
      | None =>
          match strip_prefix (bs "http://") url with
          | Some s => Some (s, false)
          | None =>
              match strip_prefix (bs "ws://") url with
              | Some s => Some (s, false)
              | None => None
              end
          end
      end
  end.

(** Host, port, path and whether to use TLS. *)
Definition parse_url (url : bytes) : R (bytes * Z * bytes * bool) :=
  let? (without_scheme, use_tls) :=
    of_option (Bail (bs "Invalid URL scheme: " ++ url)) (split_scheme url) in
  let '(host_port, path) :=
    match find_byte x2f without_scheme with
    | Some i => (ztake i without_scheme, zdrop i without_scheme)
    | None => (without_scheme, bs "/")
    end in
  let? (host, port) :=
    match find_byte x3a host_port with
    | Some i =>
        let? port := of_option ParseInt (parse_uint 16 (zdrop (i + 1) host_port)) in
        Ok (ztake i host_port, port)
    | None => Ok (host_port, if use_tls then 443 else 80)
    end in
  Ok (host, port, path, use_tls).

(** The [qemu] feature of the build. *)
Class Features := qemu : bool.

Definition qemu_host `{Features} (host : bytes) : bytes :=
  if qemu then
    if bool_decide (host = bs "127.0.0.1") || bool_decide (host = bs "localhost")
    then bs "10.0.2.2" else host
  else host.

(** ** Requests *)

Definition is_http_token_byte (b : byte) : bool :=
  is_alphanumeric b || existsb (fun c => bool_decide (c = b)) (bs "!#$%&'*+-.^_`|~").

Definition bad_value_byte (b : byte) : bool :=
  bool_decide (b = x0d) || bool_decide (b = x0a) || bool_decide (b = x00).

Definition header_ok (h : bytes * bytes) : bool :=
  negb (bool_decide (h.1 = [])) && forallb is_http_token_byte h.1 && negb (existsb bad_value_byte h.2).

(** The loop over the headers, on the text built so far. *)
Fixpoint push_headers (headers : list (bytes * bytes)) (has_body : bool) (raw : bytes) : R bytes :=
  match headers with
  | [] => Ok raw
  | (key, value) :: headers =>
      if negb (header_ok (key, value)) then Err (Bail (bs "Invalid HTTP header"))
      else if has_body && eq_ignore_case key (bs "content-length") then push_headers headers has_body raw
      else push_headers headers has_body (raw ++ key ++ bs ": " ++ value ++ CRLF)
  end.

Definition build_raw_request (method path host : bytes) (headers : list (bytes * bytes))
    (body : option bytes) : R bytes :=
  if bool_decide (method = []) || negb (forallb is_http_token_byte method) then
    Err (Bail (bs "Invalid HTTP method"))
  else if negb (starts_with (bs "/") path) || existsb (fun b => is_control b || bool_decide (b = x20)) path then
    Err (Bail (bs "Invalid HTTP request target"))
  else if bool_decide (host = []) || existsb (fun b => is_control b || is_ascii_whitespace b) host then
    Err (Bail (bs "Invalid HTTP host"))
  else
    let raw := method ++ bs " " ++ path ++ bs " HTTP/1.1" ++ CRLF ++
               bs "Host: " ++ host ++ CRLF ++ bs "Connection: close" ++ CRLF in
    let has_body := bool_decide (is_Some body) in
    let? raw := push_headers headers has_body raw in
    let raw := match body with
               | Some body => raw ++ bs "Content-Length: " ++ dec (len body) ++ CRLF
               | None => raw
               end in
    Ok (raw ++ CRLF).

(** ** Responses *)

Inductive BodyFraming := Close | Length (n : Z) | Chunked.

(** [content_length] and [chunked], one header line at a time. *)
Definition framing_line (st : option Z * bool) (line : bytes) : R (option Z * bool) :=
  let '(content_length, chunked) := st in
  match split_once x3a line with
  | None => Ok st
  | Some (name, value) =>
      let? chunked :=
        (if eq_ignore_case (trim name) (bs "transfer-encoding") then
           if chunked || negb (eq_ignore_case (trim value) (bs "chunked")) then
             Err (Bail (bs "Unsupported HTTP transfer encoding: " ++ trim value))
           else Ok true
         else Ok chunked) in
      if eq_ignore_case (trim name) (bs "content-length") then
        let? parsed := of_option ParseInt (parse_uint 64 (trim value)) in
        match content_length with
        | Some _ => Err (Bail (bs "Duplicate HTTP Content-Length header"))
        | None => Ok (Some parsed, chunked)
        end
      else Ok (content_length, chunked)
  end.

Fixpoint framing_lines (st : option Z * bool) (lines : list bytes) : R (option Z * bool) :=
  match lines with
  | [] => Ok st
  | line :: lines => let? st := framing_line st line in framing_lines st lines
  end.

Definition parse_body_framing (header : bytes) : R BodyFraming :=
  if negb (utf8_valid header) then Err Utf8
  else
    let? (content_length, chunked) := framing_lines (None, false) (tl (lines header)) in
    match chunked, content_length with
    | true, Some _ => Err (Bail (bs "Conflicting HTTP Transfer-Encoding and Content-Length"))
    | true, None => Ok Chunked
    | false, Some n => Ok (Length n)
    | false, None => Ok Close
    end.

Definition parse_status_code (header : bytes) : R Z :=
  match lines (utf8_lossy header) with
  | [] => Err (Bail (bs "No status line"))
  | status_line :: _ =>
      of_option (Bail (bs "Malformed status line: " ++ status_line))
        (token ← nth_error (split_whitespace status_line) 1; parse_uint 16 token)
  end.

(** [read_to_end] of a chunked body held in memory, with buffers of the given
    sizes; it answers [None] when they do not suffice. *)
Definition read_chunked_body (fuel : nat) (sizes : list Z) (body : bytes) : option (R bytes) :=
  match drain fuel sizes (new body) with
  | (b, Ended) => Some (Ok b)
  | (_, Failed e) => Some (Err (FromIo e))
  | (_, Open) | (_, OutOfFuel) => None
  end.

Definition parse_http_response (fuel : nat) (sizes : list Z) (response : bytes) :
    option (R (Z * bytes)) :=
  match find_header_end response with
  | None => Some (Err (Bail (bs "Malformed HTTP response")))
  | Some header_end =>
      let head := ztake header_end response in
      let body := zdrop (header_end + 4) response in
      match parse_status_code head, parse_body_framing head with
      | Err e, _ => Some (Err e)
      | _, Err e => Some (Err e)
      | Ok status, Ok Chunked =>
          match read_chunked_body fuel sizes body with
          | Some (Ok b) => Some (Ok (status, b))
          | Some (Err e) => Some (Err e)
          | None => None
          end
      | Ok status, Ok (Length n) =>
          if n >? usize_max then Some (Err (Bail (bs "Content-Length exceeds address space")))
          else if len body <? n then Some (Err (Bail (bs "HTTP response truncated")))
          else Some (Ok (status, ztake n body))
      | Ok status, Ok Close => Some (Ok (status, body))
      end
  end.

(** ** The exchange *)

Section Exchange.
Context {S : Type} `{!Reader S, !Writer S}.

Abbreviation X A := (M S anyhow A).

Definition is_timeout (e : io_error) : bool :=
  bool_decide (error_kind e = WouldBlock) || bool_decide (error_kind e = TimedOut).

(** One round of [do_request]'s loop, on the stream and the response so
    far: [Some] at the end of the stream. *)
Definition response_round : M (S * bytes) anyhow (option bytes) := fun '(s, buf) =>
  match read 4096 s with
  | (s, Ok []) => ((s, buf), Ok (Some buf))
  | (s, Ok l) =>
      if len buf + len l >? MAX_RESPONSE_BODY_BYTES then
        ((s, buf), Err (Bail (bs "HTTP response body exceeds size limit")))
      else ((s, buf ++ l), Ok None)
  | (s, Err e) =>
      if is_timeout e then ((s, buf), Err (Bail (bs "HTTP response timed out")))
      else ((s, buf), Err (FromIo e))
  end.

Definition send_request (raw : bytes) (body : option bytes) : X unit :=
  map_err FromIo
    (write_all raw ;;;
     (match body with Some body => write_all body | None => ret tt end) ;;;
     flush).

(** The answer [None] is that the fuel, or the buffers of [read_to_end], ran
    out. *)
Definition do_request (fuel : nat) (sizes : list Z) (raw : bytes) (body : option bytes) :
    X (option (Z * bytes)) :=
  send_request raw body ;;;
  let* s := get in
  let '((s, _), r) := iterate fuel response_round (s, []) in
  modify (fun _ => s) ;;;
  let* response := lift r in
  match response with
  | None => ret None
  | Some response =>
      match parse_http_response fuel sizes response with
      | None => ret None
      | Some r => let* r := lift r in ret (Some r)
      end
  end.

(** One round of the header loop of [do_streaming_request]. *)
Definition header_round : M (S * bytes) anyhow (option Z) := fun '(s, buf) =>
  match read 512 s with
  | (s, Ok []) => ((s, buf), Err (Bail (bs "Connection closed before headers complete")))
  | (s, Ok l) =>
      let buf := buf ++ l in
      match find_header_end buf with
      | Some pos => ((s, buf), Ok (Some (pos + 4)))
      | None =>
          if len buf >? MAX_RESPONSE_HEADER_BYTES then
            ((s, buf), Err (Bail (bs "HTTP response headers exceed size limit")))
          else ((s, buf), Ok None)
      end
  | (s, Err e) => ((s, buf), Err (FromIo e))
  end.
End Exchange.

(** [Cursor::new(overflow).chain(stream)] *)
Record Chain (S : Type) := MkChain {
  overflow : bytes;
  second : S;
}.
Arguments MkChain {S}.
Arguments overflow {S}.
Arguments second {S}.

#[global] Instance chain_reader {S} `{!Reader S} : Reader (Chain S) := fun n c =>
  match ztake n (overflow c) with
  | [] => let '(s, r) := read n (second c) in (MkChain [] s, r)
  | l => (MkChain (zdrop n (overflow c)) (second c), Ok l)
  end.

(** [ExactLengthReader] *)
Record ExactLengthReader (R : Type) := MkExact {
  exact_inner : R;
  exact_remaining : Z;
}.
Arguments MkExact {R}.
Arguments exact_inner {R}.
Arguments exact_remaining {R}.

Definition exact_read {R} `{!Reader R} (n : Z) : M (ExactLengthReader R) io_error bytes := fun x =>
  if (n =? 0) || (exact_remaining x =? 0) then (x, Ok [])
  else
    let max_to_read := Z.min (exact_remaining x) n in
    match read max_to_read (exact_inner x) with
    | (r, Ok []) =>
        (MkExact r (exact_remaining x), Err (IoError UnexpectedEof (bs "Connection closed prematurely")))
    | (r, Ok l) => (MkExact r (exact_remaining x - len l), Ok l)
    | (r, Err e) => (MkExact r (exact_remaining x), Err e)
    end.

(** [Box<dyn Read>] of a streaming response. *)
Inductive Body (S : Type) :=
| ToClose (c : Chain S)
| Exactly (x : ExactLengthReader (Chain S))
| InChunks (c : ChunkedReader (Chain S)).
Arguments ToClose {S}.
Arguments Exactly {S}.
Arguments InChunks {S}.

Section Streaming.
Context {S : Type} `{!Reader S, !Writer S}.

Definition do_streaming_request (fuel : nat) (raw : bytes) : M S anyhow (option (Z * Body S)) :=
  send_request raw None ;;;
  let* s := get in
  let '((s, header_buf), r) := iterate fuel header_round (s, []) in
  modify (fun _ => s) ;;;
  let* header_end := lift r in
  match header_end with
  | None => ret None
  | Some header_end =>
      let head := ztake header_end header_buf in
      let* status := lift (parse_status_code head) in
      let* framing := lift (parse_body_framing head) in
      let rest := MkChain (zdrop header_end header_buf) s in
      ret (Some (status,
        match framing with
        | Length n => Exactly (MkExact rest n)
        | Close => ToClose rest
        | Chunked => InChunks (new rest)
        end))
  end.
End Streaming.

(** ** Connecting *)

(** The resolver, the TCP stack and the TLS stack. *)
Class Net (W S : Type) := {
  Address : Type;
  (** [format!("{host}:{port}").to_socket_addrs()] *)
  to_socket_addrs : bytes -> M W anyhow (list Address);
  (** [TcpStream::connect_timeout] *)
  tcp_connect : Address -> M W anyhow S;
  (** [EspTlsStream::connect_with_timeout] *)
  tls_connect : bytes -> Z -> bool -> M W anyhow S;
  (** [HttpStream::set_timeouts] *)
  set_timeouts : S -> M W anyhow unit;
}.

Section Client.
Context {W S : Type} `{!Net W S, !Reader S, !Writer S, !Features}.

(** The loop over the addresses: the first that answers, or the last
    error. *)
Fixpoint try_addresses (addrs : list Address) (last_err : option anyhow) :
    M W anyhow (option S * option anyhow) :=
  match addrs with
  | [] => ret (None, last_err)
  | address :: addrs =>
      let* r := attempt (tcp_connect address) in
      match r with
      | Ok s => ret (Some s, last_err)
      | Err e => try_addresses addrs (Some e)
      end
  end.

Definition connect_stream (host : bytes) (port : Z) (use_tls skip_tls_verify : bool) : M W anyhow S :=
  let* stream :=
    (if use_tls then tls_connect host port skip_tls_verify
     else
       let* addrs := to_socket_addrs (host ++ bs ":" ++ dec port) in
       let* r := try_addresses addrs None in
       match r with
       | (Some s, _) => ret s
       | (None, Some e) => fail e
       | (None, None) => fail (Bail (host ++ bs ":" ++ dec port ++ bs " did not resolve to any addresses"))
       end) in
  set_timeouts stream ;;;
  ret stream.

(** [HttpRequest] *)
Record HttpRequest := {
  url : bytes;
  method : bytes;
  headers : list (bytes * bytes);
  body : option bytes;
}.

(** [execute], past the memory gate: [free] is the heap it finds. *)
Definition execute (skip_tls_verify : bool) (fuel : nat) (sizes : list Z) (free : Z) (request : HttpRequest) :
    M W anyhow (option (Z * bytes)) :=
  if free <? MIN_HEAP_FOR_BUFFERED_FETCH then
    fail (Bail (bs "refusing buffered fetch of " ++ url request))
  else
    let* (host, port, path, use_tls) := lift (parse_url (url request)) in
    let* raw := lift (build_raw_request (method request) path host (headers request) (body request)) in
    let* stream := connect_stream (qemu_host host) port use_tls skip_tls_verify in
    lift (do_request fuel sizes raw (body request) stream).2.

Definition execute_streaming (skip_tls_verify : bool) (fuel : nat) (request : HttpRequest) :
    M W anyhow (option (Z * Body S)) :=
  let* (host, port, path, use_tls) := lift (parse_url (url request)) in
  let* raw := lift (build_raw_request (method request) path host (headers request) None) in
  let* stream := connect_stream (qemu_host host) port use_tls skip_tls_verify in
  lift (do_streaming_request fuel raw stream).2.
End Client.
