(* ===== verification/HttpTheorems.v ===== *)
(** * What the HTTP client guarantees *)

From S2P Require Import Prelude RustStr RustStrLemmas Io HttpChunked HttpChunkedSpec HttpChunkedTheorems HttpClient.
#[local] Set Default Proof Using "Type*".
#[local] Opaque decode TRAILER_ROUNDS.

(** ** Requests *)

(** Bytes that cannot leave a header line, nor the part they are in. *)
Definition line_safe (l : bytes) : Prop := ~ x0d ∈ l /\ ~ x0a ∈ l.

Lemma forallb_not_in (f : byte -> bool) b l : f b = false -> forallb f l = true -> ~ b ∈ l.
Proof.
  intros Hb Hf Hin. rewrite forallb_forall in Hf. apply list_elem_of_In in Hin.
  apply Hf in Hin. congruence.
Qed.

Lemma existsb_not_in (f : byte -> bool) b l : f b = true -> existsb f l = false -> ~ b ∈ l.
Proof.
  intros Hb Hf Hin. assert (existsb f l = true); [|congruence].
  apply existsb_exists. exists b. split; [by apply list_elem_of_In|done].
Qed.

Lemma token_safe l : forallb is_http_token_byte l = true ->
  line_safe l /\ ~ x20 ∈ l /\ ~ x3a ∈ l.
Proof. intros H. unfold line_safe. split_and!; by (eapply forallb_not_in; [|exact H]). Qed.

Lemma value_safe l : existsb bad_value_byte l = false -> line_safe l.
Proof. intros H. split; by (eapply existsb_not_in; [|exact H]). Qed.

Lemma path_safe l : existsb (fun b => is_control b || bool_decide (b = x20)) l = false ->
  line_safe l /\ ~ x20 ∈ l.
Proof. intros H. unfold line_safe. split_and!; by (eapply existsb_not_in; [|exact H]). Qed.

Lemma host_safe l : existsb (fun b => is_control b || is_ascii_whitespace b) l = false -> line_safe l.
Proof. intros H. split; by (eapply existsb_not_in; [|exact H]). Qed.

Lemma digits_safe z : 0 <= z < 10 ^ 40 -> line_safe (dec z).
Proof. intros Hz. pose proof (dec_digits z Hz) as H. split; by (eapply forallb_not_in; [|exact H]). Qed.

Lemma line_safe_app l k : line_safe l -> line_safe k -> line_safe (l ++ k).
Proof. unfold line_safe. rewrite !elem_of_app. tauto. Qed.

(** The lines of a head, with the empty line that ends it. *)
Definition head_of (ls : list bytes) : bytes := concat (map (fun l => l ++ CRLF) ls) ++ CRLF.

Definition header_line (h : bytes * bytes) : bytes := h.1 ++ bs ": " ++ h.2.
Definition sent_headers (has_body : bool) (hs : list (bytes * bytes)) : list (bytes * bytes) :=
  filter (fun h => has_body && eq_ignore_case h.1 (bs "content-length") = false) hs.
Definition length_line (body : option bytes) : list bytes :=
  match body with Some b => [bs "Content-Length: " ++ dec (len b)] | None => [] end.
Definition request_lines (method path host : bytes) (hs : list (bytes * bytes)) (body : option bytes) : list bytes :=
  [method ++ bs " " ++ path ++ bs " HTTP/1.1"; bs "Host: " ++ host; bs "Connection: close"] ++
  map header_line (sent_headers (bool_decide (is_Some body)) hs) ++ length_line body.

Lemma push_headers_lines hs has_body : forall raw raw',
  push_headers hs has_body raw = Ok raw' ->
  raw' = raw ++ concat (map (fun l => l ++ CRLF) (map header_line (sent_headers has_body hs))) /\
  Forall (fun h => header_ok h = true) hs.
Proof.
  unfold sent_headers. induction hs as [|[k v] hs IH]; intros raw raw'; cbn [push_headers].
  - intros [= <-]. split; [by rewrite app_nil_r|done].
  - destruct (header_ok (k, v)) eqn:Hok; cbn [negb]; [|done].
    destruct (has_body && eq_ignore_case k (bs "content-length")) eqn:E; intros H;
      apply IH in H as [-> Hall]; (split; [|by constructor]).
    + rewrite filter_cons_False by (cbn [fst]; congruence). done.
    + rewrite filter_cons_True by done. cbn [map concat]. unfold header_line at 2. cbn [fst snd].
      by rewrite <- !(assoc_L (++)).
Qed.

Lemma split_crlf_head ls : Forall line_safe ls -> split_crlf (head_of ls) = ls ++ [[]; []].
Proof.
  unfold head_of. induction 1 as [|l ls Hl _ IH]; [done|]. cbn [map concat app].
  rewrite <- !(assoc_L (++)). unfold CRLF at 1. rewrite split_crlf_app by apply Hl. by rewrite IH.
Qed.

Lemma head_of_cons l ls : head_of (l :: ls) = l ++ [x0d; x0a] ++ head_of ls.
Proof. unfold head_of. cbn [map concat]. by rewrite <- !(assoc_L (++)). Qed.

Lemma head_end ls : Forall (fun l => line_safe l /\ l <> []) ls -> ls <> [] ->
  find_header_end (head_of ls) = Some (len (head_of ls) - 4).
Proof.
  induction 1 as [|l ls [[Hl _] Hne] Hls IH]; intros Hn; [done|]. rewrite head_of_cons.
  destruct ls as [|[|b k] ls].
  - change ([x0d; x0a] ++ head_of []) with ([x0d; x0a; x0d; x0a] ++ []).
    rewrite find_header_end_last, !len_app by done. f_equal. change (len [x0d; x0a; x0d; x0a]) with 4.
    rewrite len_nil. lia.
  - apply Forall_cons in Hls as [[_ ?] _]. done.
  - specialize (IH ltac:(done)). apply Forall_cons in Hls as [[[Hb _] _] _].
    assert (E : exists w, head_of ((b :: k) :: ls) = b :: w) by (rewrite head_of_cons; by eexists).
    destruct E as [w E]. rewrite E in *. rewrite find_header_end_line by (done || intros ->; apply Hb; by left).
    rewrite IH. cbn [option_map]. f_equal. rewrite !len_app. change (len [x0d; x0a]) with 2. lia.
Qed.

Lemma length_line_bytes body : concat (map (fun l => l ++ CRLF) (length_line body)) =
  match body with Some b => bs "Content-Length: " ++ dec (len b) ++ CRLF | None => [] end.
Proof.
  unfold length_line. destruct body as [b|]; [|done]. generalize (bs "Content-Length: "). intros cl.
  cbn [map concat]. by rewrite app_nil_r, <- (assoc_L (++)).
Qed.

(** A header that is accepted makes one line, cut at its colon. *)
Lemma header_line_safe h : header_ok h = true ->
  line_safe (header_line h) /\ header_line h <> [] /\ split_once x3a (header_line h) = Some (h.1, x20 :: h.2).
Proof.
  destruct h as [k v]. unfold header_ok. cbn [fst snd]. rewrite !andb_true_iff, !negb_true_iff.
  intros [[Hk Ht] Hv]. apply bool_decide_eq_false in Hk. apply value_safe in Hv.
  apply token_safe in Ht as (T1 & T2 & T3). unfold header_line. cbn [fst snd]. split_and!.
  - apply line_safe_app; [done|]. apply line_safe_app; [by apply (bool_decide_unpack _)|done].
  - by destruct k.
  - by apply (split_once_app x3a k (x20 :: v)).
Qed.

(** Lines none of which breaks or is empty: the blank line after them is the
    only one. *)
Lemma head_of_lines ls : ls <> [] -> Forall (fun l => line_safe l /\ l <> []) ls ->
  find_header_end (head_of ls) = Some (len (head_of ls) - 4) /\ split_crlf (head_of ls) = ls ++ [[]; []].
Proof.
  intros Hn Hls. split; [by apply head_end|]. apply split_crlf_head. eapply Forall_impl; [done|]. by intros l [? _].
Qed.

Lemma request_lines_safe method path host hs body :
  (forall b, body = Some b -> len b < 2 ^ 32) -> method <> [] ->
  line_safe method -> line_safe path -> line_safe host -> Forall (fun h => header_ok h = true) hs ->
  Forall (fun l => line_safe l /\ l <> []) (request_lines method path host hs body).
Proof.
  intros Hbody Hm Ms Ps Hs Hhs. unfold request_lines. rewrite !Forall_app. split_and!.
  - repeat apply Forall_cons_2; try apply Forall_nil_2; split; try done; try (by destruct method).
    + repeat (apply line_safe_app; [by (done || apply (bool_decide_unpack _))|]). by apply (bool_decide_unpack _).
    + apply line_safe_app; [by apply (bool_decide_unpack _)|done].
    + by apply (bool_decide_unpack _).
  - apply Forall_map, Forall_forall. intros h [_ Hin]%list_elem_of_filter.
    rewrite Forall_forall in Hhs. by destruct (header_line_safe h (Hhs h Hin)) as (? & ? & _).
  - unfold length_line. destruct body as [b|]; [|done]. apply Forall_cons_2; [|done]. split; [|done].
    apply line_safe_app; [by apply (bool_decide_unpack _)|]. apply digits_safe.
    pose proof (len_nonneg b). specialize (Hbody b eq_refl). split; [done|]. etrans; [done|]. done.
Qed.

(** C24. A request cannot be split.  A request that is built is one head and
    nothing more: its first blank line is its end, and its lines are the
    request line, the host, [Connection: close], one line per header that was
    given (but for a caller's content length when there is a body, whose real
    length is written), in order.  The request line splits at its spaces into
    the method, the target and the version, and each header line at its first
    colon into the header it was made from: no part given by the caller can
    add a line, a field or a second request. *)
Theorem request_is_unambiguous method path host hs body raw :
  (forall b, body = Some b -> len b < 2 ^ 32) ->
  build_raw_request method path host hs body = Ok raw ->
  find_header_end raw = Some (len raw - 4) /\
  split_crlf raw = request_lines method path host hs body ++ [[]; []] /\
  split_byte x20 (method ++ bs " " ++ path ++ bs " HTTP/1.1") = [method; path; bs "HTTP/1.1"] /\
  Forall (fun h => split_once x3a (header_line h) = Some (h.1, x20 :: h.2)) hs.
Proof.
  intros Hbody. unfold build_raw_request.
  destruct (bool_decide (method = [])) eqn:E1; [done|]. apply bool_decide_eq_false in E1.
  destruct (forallb is_http_token_byte method) eqn:E2; [|done]. cbn [orb negb].
  destruct (starts_with (bs "/") path) eqn:E3; [|done].
  destruct (existsb _ path) eqn:E4; [done|]. cbn [orb negb].
  destruct (bool_decide (host = [])) eqn:E5; [done|]. apply bool_decide_eq_false in E5.
  destruct (existsb _ host) eqn:E6; [done|]. cbn [orb].
  destruct (push_headers hs _ _) as [raw1|] eqn:E7; [|done]. cbn [bind_res]. intros Hr.
  apply (f_equal (fun r => match r with Ok x => x | Err _ => [] end)) in Hr. cbv beta iota in Hr. subst raw.
  apply push_headers_lines in E7 as [-> Hhs].
  apply token_safe in E2 as (M1 & M2 & M3). apply path_safe in E4 as [P1 P2]. apply host_safe in E6.
  assert (Hh : Forall (fun h => header_ok h = true) hs) by done.
  assert (Hx : forall x, x = head_of (request_lines method path host hs body) ->
    find_header_end x = Some (len x - 4) /\ split_crlf x = request_lines method path host hs body ++ [[]; []] /\
    split_byte x20 (method ++ bs " " ++ path ++ bs " HTTP/1.1") = [method; path; bs "HTTP/1.1"] /\
    Forall (fun h => split_once x3a (header_line h) = Some (h.1, x20 :: h.2)) hs).
  { intros x ->. destruct (head_of_lines (request_lines method path host hs body)) as [H1 H2];
      [by unfold request_lines|by apply request_lines_safe|]. split_and!; try done.
    - change (bs " " ++ ?l) with (x20 :: l). rewrite split_byte_app by done.
      change (bs " HTTP/1.1") with (x20 :: bs "HTTP/1.1"). rewrite split_byte_app by done. done.
    - eapply Forall_impl; [exact Hh|]. intros h Hok. apply (header_line_safe h Hok). }
  apply Hx. clear. unfold head_of, request_lines. rewrite !map_app, !concat_app, length_line_bytes.
  destruct body; cbn [map concat]; rewrite ?app_nil_r, <- ?(assoc_L (++)); reflexivity.
Qed.

Lemma request_is_unambiguous_witness :
  exists raw,
    build_raw_request (bs "POST") (bs "/up?x=1") (bs "mmg.whatsapp.net")
      [(bs "Accept", bs "*/*"); (bs "content-length", bs "999")] (Some (bs "body")) = Ok raw /\
    split_crlf raw = [bs "POST /up?x=1 HTTP/1.1"; bs "Host: mmg.whatsapp.net"; bs "Connection: close";
                      bs "Accept: */*"; bs "Content-Length: 4"; []; []] /\
    build_raw_request (bs "GET") (bs "/") (bs "h") [(bs "A", bs "b" ++ CRLF ++ bs "Evil: 1")] None =
      Err (Bail (bs "Invalid HTTP header")).
Proof.
  eexists. split; [vm_compute; reflexivity|]. split; [|by vm_compute].
  refine (eq_trans (proj1 (proj2 (request_is_unambiguous (bs "POST") (bs "/up?x=1") (bs "mmg.whatsapp.net")
    [(bs "Accept", bs "*/*"); (bs "content-length", bs "999")] (Some (bs "body")) _ _ _))) _).
  - by intros b [= <-].
  - by vm_compute.
  - by vm_compute.
Defined.

(** ** URLs *)

Definition scheme_of (use_tls ws : bool) : bytes :=
  match use_tls, ws with
  | true, false => bs "https://"
  | true, true => bs "wss://"
  | false, false => bs "http://"
  | false, true => bs "ws://"
  end.
Definition port_text (port : option Z) : bytes :=
  match port with Some p => bs ":" ++ dec p | None => [] end.
Definition default_port (use_tls : bool) : Z := if use_tls then 443 else 80.

Lemma split_scheme_of use_tls ws rest : split_scheme (scheme_of use_tls ws ++ rest) = Some (rest, use_tls).
Proof. by destruct use_tls, ws. Qed.

Lemma find_byte_absent b l : ~ b ∈ l -> find_byte b l = None.
Proof. apply find_byte_None. Qed.

(** A URL parses to its parts: scheme, host, port when it is written, path
    when there is one (the root otherwise), with the scheme's port as the
    default.  Anything after the first slash is path, colons included; a port
    that is no 16-bit number is an error. *)
Theorem parse_url_parts use_tls ws host port path :
  ~ x2f ∈ host -> ~ x3a ∈ host -> (path = [] \/ starts_with (bs "/") path = true) ->
  (forall p, port = Some p -> 0 <= p < 10 ^ 40) ->
  parse_url (scheme_of use_tls ws ++ host ++ port_text port ++ path) =
    let path := match path with [] => bs "/" | _ => path end in
    match port with
    | Some p => if p <? 65536 then Ok (host, p, path, use_tls) else Err ParseInt
    | None => Ok (host, default_port use_tls, path, use_tls)
    end.
Proof.
  intros Hs Hc Hp Hport. unfold parse_url. rewrite split_scheme_of. cbn [of_option bind_res].
  set (hp := host ++ port_text port).
  assert (Hhp : ~ x2f ∈ hp).
  { unfold hp, port_text. rewrite elem_of_app. intros [H|H]; [done|]. destruct port as [p|]; [|by apply not_elem_of_nil in H].
    rewrite elem_of_app in H. destruct H as [H|H]; [revert H; by apply (bool_decide_unpack _)|].
    revert H. eapply forallb_not_in; [|by apply dec_digits, Hport]. done. }
  assert (E : (match find_byte x2f (host ++ port_text port ++ path) with
    | Some i => (ztake i (host ++ port_text port ++ path), zdrop i (host ++ port_text port ++ path))
    | None => (host ++ port_text port ++ path, bs "/") end) =
    (hp, match path with [] => bs "/" | _ => path end)).
  { rewrite (assoc_L (++)). fold hp. destruct Hp as [->|Hp].
    - rewrite app_nil_r. by rewrite find_byte_absent.
    - apply starts_with_head in Hp as [rest ->]. rewrite find_byte_first by done.
      by rewrite ztake_app, zdrop_app. }
  rewrite E. clear E. cbn zeta. unfold hp, port_text. destruct port as [p|].
  - specialize (Hport p eq_refl). change (bs ":" ++ dec p) with (x3a :: dec p).
    rewrite find_byte_first by done. rewrite ztake_app by done.
    rewrite (cons_middle x3a), (assoc_L (++)), zdrop_app by by rewrite len_app.
    zcase; [by rewrite parse_uint_dec by (lia || done)|].
    assert (Hn : parse_uint 16 (dec p) = None); [|by rewrite Hn].
    destruct (parse_uint 16 (dec p)) as [v|] eqn:Ev; [|done]. exfalso.
    assert (Hw : forall l acc v, digits_value 16 10 dec_digit l acc = Some v -> digits_value 160 10 dec_digit l acc = Some v).
    { clear. induction l as [|b l IH]; intros acc v; cbn [digits_value]; [done|].
      destruct (dec_digit b) as [d|]; [|done].
      destruct (fits 16 (acc * 10 + d)) eqn:F; [|done].
      assert (F' : fits 160 (acc * 10 + d) = true).
      { unfold fits in *. rewrite andb_true_iff, Z.leb_le, Z.ltb_lt in *. split; [lia|].
        transitivity (2 ^ 16); [lia|done]. }
      rewrite F'. apply IH. }
    assert (Hbig : p < 2 ^ 160) by (transitivity (10 ^ 40); [lia|done]).
    pose proof (parse_uint_dec 160 p ltac:(lia) Hbig) as Hp160.
    unfold parse_uint, parse_radix in *.
    destruct (match dec p with x2b :: (_ :: _) as r => tail _ | _ => _ end) eqn:Ed; [done|].
    pose proof (digits_value_fits 16 _ _ _ 0 v ltac:(lia) Ev). apply Hw in Ev. rewrite Ev in Hp160. injection Hp160 as ->. lia.
  - rewrite app_nil_r. by rewrite find_byte_absent.
Qed.

Lemma parse_url_parts_witness :
  parse_url (bs "https://mmg.whatsapp.net:8443/d/f?u=a:b/c") =
    Ok (bs "mmg.whatsapp.net", 8443, bs "/d/f?u=a:b/c", true) /\
  parse_url (bs "ftp://x") = Err (Bail (bs "Invalid URL scheme: ftp://x")).
Proof.
  split; [|by vm_compute].
  refine (parse_url_parts true false (bs "mmg.whatsapp.net") (Some 8443) (bs "/d/f?u=a:b/c") _ _ _ _).
  - by apply (bool_decide_unpack _).
  - by apply (bool_decide_unpack _).
  - by right.
  - intros p [= <-]. done.
Defined.
