(* ===== verification/HttpExchange.v ===== *)
(** * The HTTP exchange: what a response that is reported was

    [do_request] and [do_streaming_request] against a reference of what a
    response is: a head up to the first blank line, and the body its framing
    calls for in the bytes behind it. *)

From S2P Require Import Prelude RustStr RustStrLemmas Io HttpChunked HttpChunkedSpec HttpChunkedTheorems HttpClient.

#[local] Set Default Proof Using "Type*".
#[local] Opaque decode TRAILER_ROUNDS parse_status_code parse_body_framing.

(** ** The reference *)

(** The body in the bytes behind the head. *)
Definition framed (framing : BodyFraming) (rest body : bytes) : Prop :=
  match framing with
  | Close => body = rest
  | Length n => n <= len rest /\ body = ztake n rest
  | Chunked => exists after, decode false rest = (body, Some after)
  end.

Definition response_of (whole : bytes) (status : Z) (body : bytes) : Prop :=
  exists e framing,
    find_header_end whole = Some e /\
    parse_status_code (ztake e whole) = Ok status /\
    parse_body_framing (ztake e whole) = Ok framing /\
    framed framing (zdrop (e + 4) whole) body.

Lemma framed_unique framing rest b b' : framed framing rest b -> framed framing rest b' -> b = b'.
Proof.
  destruct framing; cbn [framed]; [by intros -> ->|by intros [_ ->] [_ ->]|].
  intros (a & Ha) (a' & Ha'). congruence.
Qed.

(** ** Decoded bodies are no longer than their encodings *)

Lemma boundary_rest needs p n p' : boundary needs p = Some (n, p') -> len p' <= len p.
Proof. intros H%boundary_length. unfold len. lia. Qed.

Lemma decode_length p : forall needs, len (decode needs p).1 <= len p.
Proof.
  remember (length p) as n eqn:En. revert p En. induction n as [n IH] using lt_wf_ind.
  intros p -> needs. pose proof (len_nonneg p). rewrite decode_eq.
  destruct (boundary needs p) as [[m p']|] eqn:E; [|done].
  pose proof (boundary_rest _ _ _ _ E) as Hl. apply boundary_length in E.
  destruct (Z.eqb_spec m 0); [by destruct (skip_trailers _ _ p')|].
  unfold in_chunk. zcase; [cbn [fst]; lia|].
  destruct (decode true (zdrop m p')) as [b e] eqn:Ed. cbn [fst]. rewrite len_app, len_ztake.
  assert (Hd : (length (zdrop m p') < length p)%nat) by (unfold zdrop; rewrite length_drop; lia).
  pose proof (IH _ Hd (zdrop m p') eq_refl true) as Hb. rewrite Ed in Hb. cbn [fst] in Hb.
  rewrite len_zdrop in Hb. pose proof (len_nonneg b). lia.
Qed.

(** A chunked body held in memory, with buffers enough for it. *)
Lemma read_chunked_body_spec fuel sizes body :
  (Z.to_nat MAX_METADATA_BYTES < fuel)%nat -> Forall (fun n => 0 < n) sizes -> len body < len sizes ->
  match read_chunked_body fuel sizes body with
  | Some (Ok b) => framed Chunked body b
  | Some (Err _) => forall b, ~ framed Chunked body b
  | None => False
  end.
Proof.
  intros Hf Hs Hl. unfold read_chunked_body.
  assert (He : enough fuel (new body)).
  { unfold enough, delays, waits. cbn [new inner under]. change (stalls body) with O. lia. }
  assert (Hc : cwf (new body)) by (split; cbn; [done|lia]).
  pose proof (drain_spec fuel sizes (new body) He Hc Hs) as H. rewrite outlook_new in H.
  change (wire body) with body in H. pose proof (decode_length body false) as Hb.
  destruct (drain fuel sizes (new body)) as [b st]. destruct H as (more & ending & E & H).
  rewrite E in Hb. cbn [fst] in Hb. rewrite len_app in Hb. pose proof (len_nonneg more).
  destruct st; [lia| | |done]; cbn [framed].
  - destruct H as [-> [after ->]]. exists after. by rewrite E, app_nil_r.
  - intros b' [after Hd]. destruct H as [(n & t & H)|[_ ->]]; [done|congruence].
Qed.

Lemma parse_http_response_spec fuel sizes whole :
  (Z.to_nat MAX_METADATA_BYTES < fuel)%nat -> Forall (fun n => 0 < n) sizes -> len whole < len sizes ->
  len whole <= usize_max ->
  match parse_http_response fuel sizes whole with
  | Some (Ok (status, b)) => response_of whole status b
  | Some (Err _) => forall status b, ~ response_of whole status b
  | None => False
  end.
Proof.
  intros Hf Hs Hl Hu. unfold parse_http_response, response_of.
  destruct (find_header_end whole) as [e|] eqn:E; [|by intros ? ? (? & ? & ? & _)].
  pose proof (find_header_end_bounds _ _ E) as He.
  destruct (parse_status_code (ztake e whole)) as [status|] eqn:Es;
    [|by intros ? ? (? & ? & [= <-] & Hst & _); rewrite Es in Hst].
  destruct (parse_body_framing (ztake e whole)) as [framing|] eqn:Ef;
    [|by intros ? ? (? & ? & [= <-] & _ & Hfr & _); rewrite Ef in Hfr].
  assert (Hno : (forall b, ~ framed framing (zdrop (e + 4) whole) b) -> forall st b, ~ exists e' framing',
    Some e = Some e' /\ parse_status_code (ztake e' whole) = Ok st /\
    parse_body_framing (ztake e' whole) = Ok framing' /\ framed framing' (zdrop (e' + 4) whole) b).
  { intros Hn st b (? & ? & [= <-] & _ & Hfr & Hb). rewrite Ef in Hfr.
    apply (f_equal (fun r => match r with Ok x => x | Err _ => Close end)) in Hfr. cbn in Hfr. subst.
    by apply (Hn b). }
  assert (Hyes : forall b, framed framing (zdrop (e + 4) whole) b -> exists e' framing',
    Some e = Some e' /\ parse_status_code (ztake e' whole) = Ok status /\
    parse_body_framing (ztake e' whole) = Ok framing' /\ framed framing' (zdrop (e' + 4) whole) b).
  { intros b Hb. by exists e, framing. }
  assert (Hrest : len (zdrop (e + 4) whole) <= len whole) by (rewrite len_zdrop; pose proof (len_nonneg whole); lia).
  destruct framing as [|n|]; cbn [framed] in *.
  - by apply Hyes.
  - rewrite Z.gtb_ltb. destruct (Z.ltb_spec usize_max n); [apply Hno; intros b [? _]; lia|].
    zcase; [apply Hno; intros b [? _]; lia|]. by apply Hyes.
  - pose proof (read_chunked_body_spec fuel sizes (zdrop (e + 4) whole) Hf Hs ltac:(lia)) as H.
    destruct (read_chunked_body _ _ _) as [[b|x]|]; [by apply Hyes|by apply Hno|done].
Qed.

(** ** The buffered exchange *)

Section Exchange.
Context {S : Type} `{!Reader S, !Writer S, !ReaderLaws S, !WriterLaws S, !DuplexLaws S}.
Implicit Types (s t : S).

(** An error of the stream, as the client reports it. *)
Definition stream_error (e : anyhow) : Prop :=
  exists x,
    ((exists n t, (read n t).2 = Err x) \/ (exists b t, (write_all b t).2 = Err x) \/ exists t, (flush t).2 = Err x) /\
    (e = FromIo x \/ is_timeout x = true /\ e = Bail (bs "HTTP response timed out")).

(** What is written is the request and then the body, and nothing of the
    response is lost. *)
Definition requested (all : bytes) s t : Prop := sent t = sent s ++ all /\ wire t = wire s.

Lemma requested_refl s : requested [] s s.
Proof using Type. split; [by rewrite app_nil_r|done]. Qed.

Lemma write_spec b s :
  wp (write_all b) (fun o t => wire t = wire s /\
    match o with
    | Ok _ => requested b s t
    | Err x => exists b' t', (write_all b' t').2 = Err x
    end) s.
Proof.
  pose proof (write_all_law b s) as H. pose proof (write_keeps_wire b s) as Hw. unfold wp in *.
  destruct (write_all b s) as [t [[]|x]] eqn:E; cbn [fst] in Hw; (split; [done|]); [by split|].
  exists b, s. by rewrite E.
Qed.

Lemma flush_spec s :
  wp flush (fun o t => requested [] s t /\
    match o with Ok _ => True | Err x => exists t', (flush t').2 = Err x end) s.
Proof.
  pose proof (flush_law s) as H. pose proof (flush_keeps_wire s) as Hw. unfold wp in *.
  destruct (flush s) as [t [[]|x]] eqn:E; cbn [fst] in Hw;
    (split; [split; [by rewrite app_nil_r|done]|]); [done|]. exists s. by rewrite E.
Qed.

Lemma send_request_spec raw body s :
  wp (send_request raw body) (fun o t =>
    match o with
    | Ok _ => requested (raw ++ default [] body) s t
    | Err e => stream_error e
    end) s.
Proof.
  unfold send_request. wp_step. wp_step. eapply wp_mono; [apply write_spec|]. cbn beta.
  intros [u|x] s1 [_ H1].
  2: { exists x. split; [right; by left|by left]. }
  apply wp_bind. assert (Hb : wp (match body with Some body => write_all body | None => ret tt end)
    (fun o t => match o with
       | Ok _ => requested (default [] body) s1 t
       | Err x => exists b' t', (write_all b' t').2 = Err x end) s1).
  { destruct body as [b|]; cbn [default]; [|apply wp_ret; apply requested_refl].
    eapply wp_mono; [apply write_spec|]. by intros o t [_ H]. }
  eapply wp_mono; [exact Hb|]. cbn beta. intros [u'|x] s2 H2.
  2: { exists x. split; [right; by left|by left]. }
  eapply wp_mono; [apply flush_spec|]. cbn beta. intros [u''|x] s3 [[H3 H3'] Hx].
  - destruct H1 as [H1 H1'], H2 as [H2 H2']. split; [|congruence].
    by rewrite H3, H2, H1, app_nil_r, <- (assoc_L (++)).
  - exists x. split; [right; by right|by left].
Qed.

(** The loop that reads to the end, from the bytes [whole] there are. *)
Definition reading (whole : bytes) s (x : S * bytes) : Prop :=
  x.2 ++ wire x.1 = whole /\ len x.2 <= MAX_RESPONSE_BODY_BYTES /\ sent x.1 = sent s.

Lemma fetch_round_spec whole s x : reading whole s x ->
  wp response_round (fun o y =>
    match o with
    | Ok (Some b) => b = whole /\ len whole <= MAX_RESPONSE_BODY_BYTES /\ wire y.1 = [] /\ sent y.1 = sent s
    | Ok None => reading whole s y /\ len x.2 < len y.2
    | Err e => stream_error e \/ MAX_RESPONSE_BODY_BYTES < len whole
    end) x.
Proof.
  destruct x as [t buf]. intros (Hw & Hl & Hs). cbn [fst snd] in *. unfold response_round, wp.
  pose proof (read_law 4096 t ltac:(lia)) as H. pose proof (read_keeps_sent 4096 t) as Hk. unfold wp in H.
  destruct (read 4096 t) as [t' [[|b l]|e]] eqn:E; cbn [fst] in Hk.
  - destruct H as [H1 H2]. rewrite H1, app_nil_r in Hw. subst. cbn [fst]. split_and!; congruence.
  - destruct H as [H1 H2]. rewrite Z.gtb_ltb.
    destruct (Z.ltb_spec MAX_RESPONSE_BODY_BYTES (len buf + len (b :: l))) as [Hlt|Hle].
    { right. rewrite <- Hw, H2, !len_app. pose proof (len_nonneg (wire t')). lia. }
    cbn [fst snd]. rewrite len_app in *. rewrite len_cons in *. pose proof (len_nonneg l).
    split; [|lia]. split_and!; cbn [fst snd]; [by rewrite <- Hw, H2, <- (assoc_L (++))|rewrite len_app, len_cons; lia|congruence].
  - destruct (is_timeout e) eqn:Et; left; exists e; (split; [left; exists 4096, t; by rewrite E|]); [by right|by left].
Qed.

Lemma fetch_loop_spec fuel whole s : wire s = whole -> (Z.to_nat (MAX_RESPONSE_BODY_BYTES + 1) < fuel)%nat ->
  wp (iterate fuel response_round) (fun o y =>
    match o with
    | Ok (Some b) => b = whole /\ len whole <= MAX_RESPONSE_BODY_BYTES /\ wire y.1 = [] /\ sent y.1 = sent s
    | Ok None => False
    | Err e => stream_error e \/ MAX_RESPONSE_BODY_BYTES < len whole
    end) (s, []).
Proof.
  intros Hw Hf.
  eapply wp_mono; [apply (iterate_spec _ (reading whole s) (fun x => Z.to_nat (MAX_RESPONSE_BODY_BYTES + 1 - len x.2))
    (fun o y => match o with
     | Ok b => b = whole /\ len whole <= MAX_RESPONSE_BODY_BYTES /\ wire y.1 = [] /\ sent y.1 = sent s
     | Err e => stream_error e \/ MAX_RESPONSE_BODY_BYTES < len whole end))|].
  - intros x Hx. eapply wp_mono; [by apply fetch_round_spec|]. cbn beta.
    intros [[b|]|e] y H; [done| |done]. destruct H as ((? & ? & ?) & ?). split; [by split_and!|lia].
  - split_and!; cbn [fst snd]; [done|by rewrite len_nil|done].
  - cbn [snd]. rewrite len_nil. by rewrite Z.sub_0_r.
  - intros [[b|]|e] y H; done.
Qed.

(** C22. A buffered response is reported only when it is whole.  Over any
    socket, in whatever pieces it delivers: [do_request] reports a status and
    a body exactly when the request was written in full, the peer closed the
    connection, at most 1 MiB arrived, and these bytes are a response with that
    status and that body: as much as the length announced, all of a chunked
    encoding, or everything up to the end.  Otherwise it reports an error, for
    which there is a reason: the stream failed or timed out, there was more
    than 1 MiB, or what arrived is no response at all.  It always returns. *)
Theorem response_is_whole fuel sizes raw body s :
  (Z.to_nat (MAX_RESPONSE_BODY_BYTES + 1) < fuel)%nat ->
  Forall (fun n => 0 < n) sizes -> MAX_RESPONSE_BODY_BYTES < len sizes ->
  wp (do_request fuel sizes raw body) (fun o t =>
    match o with
    | Ok (Some (status, b)) =>
        sent t = sent s ++ raw ++ default [] body /\ wire t = [] /\
        len (wire s) <= MAX_RESPONSE_BODY_BYTES /\ response_of (wire s) status b
    | Ok None => False
    | Err e =>
        stream_error e \/ MAX_RESPONSE_BODY_BYTES < len (wire s) \/
        forall status b, ~ response_of (wire s) status b
    end) s.
Proof.
  intros Hf Hs Hl. unfold do_request. apply wp_bind.
  eapply wp_mono; [apply send_request_spec|]. cbn beta. intros [u|e] s1 H1; [|by left].
  destruct H1 as [H1 Hw1]. wp_step. wp_step.
  pose proof (fetch_loop_spec fuel (wire s) s1 Hw1 Hf) as H. unfold wp in H.
  destruct (iterate fuel response_round (s1, [])) as [[s2 b2] [[b|]|e]]; cbn [fst] in H; [|done|].
  2: { wp_steps. destruct H; [by left|by right; left]. }
  destruct H as (-> & Hlen & Hw2 & Hs2). wp_steps.
  pose proof (parse_http_response_spec fuel sizes (wire s)) as Hp.
  specialize (Hp ltac:(unfold MAX_METADATA_BYTES, MAX_RESPONSE_BODY_BYTES in *; lia) Hs ltac:(lia)).
  specialize (Hp ltac:(unfold usize_max, MAX_RESPONSE_BODY_BYTES in *; lia)).
  destruct (parse_http_response fuel sizes (wire s)) as [[[status b]|e]|]; [| |done]; wp_steps.
  - split_and!; congruence.
  - by right; right.
Qed.
End Exchange.

(** A response in pieces, with its length announced, to a request with a
    body; and one that is cut short. *)
Definition plenty : nat := Z.to_nat (MAX_RESPONSE_BODY_BYTES + 9000).
Definition buffers : list Z := replicate (Z.to_nat (MAX_RESPONSE_BODY_BYTES + 1)) 32.
Definition answering (es : list event) : script := Script es [] None.
Definition ok_head : bytes := bs "HTTP/1.1 200 OK" ++ CRLF ++ bs "Content-Length: 4" ++ CRLF ++ CRLF.

Lemma buffers_ok : Forall (fun n => 0 < n) buffers /\ MAX_RESPONSE_BODY_BYTES < len buffers.
Proof.
  unfold buffers. split; [by apply Forall_replicate|]. rewrite len_replicate. unfold MAX_RESPONSE_BODY_BYTES. lia.
Qed.
Lemma plenty_ok : (Z.to_nat (MAX_RESPONSE_BODY_BYTES + 1) < plenty)%nat.
Proof. unfold plenty. apply Z2Nat.inj_lt; unfold MAX_RESPONSE_BODY_BYTES; lia. Qed.

Lemma response_is_whole_witness :
  response_of (ok_head ++ bs "body") 200 (bs "body") /\
  forall status b,
    (do_request plenty buffers (bs "GET") None (answering [Data ok_head; Data (bs "bo")])).2 <> Ok (Some (status, b)).
Proof.
  split.
  - exists (len ok_head - 4), (Length 4). split_and!; by vm_compute.
  - intros status b E.
    pose proof (wp_result _ _ _ (response_is_whole plenty buffers (bs "GET") None (answering [Data ok_head; Data (bs "bo")])
      plenty_ok (proj1 buffers_ok) (proj2 buffers_ok))) as H.
    rewrite E in H. destruct H as (_ & _ & _ & e & framing & He & _ & Hf & Hb).
    vm_compute in He. injection He as <-. vm_compute in Hf. injection Hf as <-.
    destruct Hb as [Hb _]. by vm_compute in Hb.
Defined.
