(* ===== verification/HttpStreaming.v ===== *)
(** * The streaming exchange ([do_streaming_request])

    The head is read first; what was read past it is chained in front of the
    stream, and the body is read through the reader its framing calls for. *)

From S2P Require Import Prelude RustStr RustStrLemmas Io HttpChunked HttpChunkedSpec HttpChunkedTheorems HttpClient HttpExchange.

#[local] Set Default Proof Using "Type*".
#[local] Opaque decode TRAILER_ROUNDS parse_status_code parse_body_framing.

(** ** The chain is a reader *)

#[global] Program Instance chain_laws {S} `{!Reader S, lawsS : !ReaderLaws S} : ReaderLaws (Chain S) := {
  wire c := overflow c ++ wire (second c);
}.
Next Obligation.
  intros S R lawsS n [o s] Hn. unfold wp, read, chain_reader. cbn [overflow second].
  destruct (ztake n o) as [|b l] eqn:E.
  - assert (o = []) as ->.
    { apply len_0_nil. apply (f_equal len) in E. rewrite len_ztake, len_nil in E. pose proof (len_nonneg o). lia. }
    pose proof (read_law n s Hn) as H. unfold wp in H. cbn [app].
    by destruct (read n s) as [s' [[|b l]|e]].
  - cbn [overflow second]. rewrite <- E, (assoc_L (++)), ztake_zdrop. split; [rewrite len_ztake; pose proof (len_nonneg o); lia|done].
Qed.

#[global] Program Instance chain_patient {S} `{!Reader S, patientS : !Patient S} : Patient (Chain S) := {
  stalls c := stalls (second c);
}.
Next Obligation.
  intros S R patientS n [o s]. unfold wp, read, chain_reader. cbn [overflow second].
  destruct (ztake n o) as [|b l]; [|cbn; lia].
  pose proof (stall_law n s) as H. unfold wp in H. by destruct (read n s) as [s' [b|e]].
Qed.

Section Streaming.
Context {S : Type} `{!Reader S, !Writer S, lawsR : !ReaderLaws S, !WriterLaws S, !DuplexLaws S, patient : !Patient S}.
Implicit Types (s t : S) (c : Chain S).

(** ** Reading a body *)

(** [body.read(&mut buf[..n])] *)
Definition body_read (fuel : nat) (n : Z) (x : Body S) : Body S * result io_error (option bytes) :=
  match x with
  | ToClose c => let '(c, r) := read n c in (ToClose c, match r with Ok l => Ok (Some l) | Err e => Err e end)
  | Exactly x =>
      let '(x, r) := exact_read n x in (Exactly x, match r with Ok l => Ok (Some l) | Err e => Err e end)
  | InChunks c => let '(c, r) := chunked_read fuel n c in (InChunks c, r)
  end.

(** Reads with buffers of the given sizes, to the end of the body or the
    first error. *)
Fixpoint drain_body (fuel : nat) (sizes : list Z) (x : Body S) : bytes * drained :=
  match sizes with
  | [] => ([], Open)
  | n :: sizes =>
      match body_read fuel n x with
      | (_, Err e) => ([], Failed e)
      | (_, Ok None) => ([], OutOfFuel)
      | (_, Ok (Some [])) => ([], Ended)
      | (x, Ok (Some l)) => let '(b, st) := drain_body fuel sizes x in (l ++ b, st)
      end
  end.

Lemma drain_chunks fuel sizes : forall (c : ChunkedReader (Chain S)),
  drain_body fuel sizes (InChunks c) = drain fuel sizes c.
Proof using Type.
  induction sizes as [|n sizes IH]; intros c; [done|]. cbn [drain_body drain body_read].
  destruct (chunked_read fuel n c) as [c' [[[|b l]|]|e]]; try done. by rewrite IH.
Qed.

(** How reading a body of [whole] (complete or not) may end. *)
Definition drains (whole : bytes) (complete : Prop) (sizes : list Z) (r : bytes * drained) : Prop :=
  r.1 `prefix_of` whole /\
  match r.2 with
  | Open => len sizes <= len r.1
  | Ended => r.1 = whole /\ complete
  | Failed e => (exists n t, (read n t).2 = Err e) \/ (r.1 = whole /\ ~ complete)
  | OutOfFuel => False
  end.

Lemma drains_more l whole complete n sizes b st : l <> [] ->
  drains whole complete sizes (b, st) -> drains (l ++ whole) complete (n :: sizes) (l ++ b, st).
Proof using Type.
  intros Hl [Hp H]. cbn [fst snd] in *. split; cbn [fst snd]; [by apply prefix_app|].
  destruct st as [| |e|]; [|by destruct H as [-> ?]| |done].
  - destruct l as [|x l]; [done|]. rewrite len_app, !len_cons. pose proof (len_nonneg l). lia.
  - destruct H as [H|[-> H]]; [by left|by right].
Qed.

Lemma chain_error n c e : (read n c).2 = Err e -> exists n t, (read n t).2 = Err e.
Proof using Type.
  unfold read at 1, chain_reader. destruct (ztake n (overflow c)); [|done].
  destruct (read n (second c)) as [s r] eqn:E. cbn. intros ->. exists n, (second c). by rewrite E.
Qed.

Lemma drain_to_close fuel sizes : Forall (fun n => 0 < n) sizes -> forall c,
  drains (wire c) True sizes (drain_body fuel sizes (ToClose c)).
Proof.
  induction 1 as [|n sizes Hn _ IH]; intros c; cbn [drain_body body_read].
  { split; cbn [fst snd]; [apply prefix_nil|done]. }
  pose proof (read_law n c Hn) as H. unfold wp in H. destruct (read n c) as [c' [[|b l]|e]] eqn:E.
  - destruct H as [-> _]. by split.
  - destruct H as [_ ->]. specialize (IH c'). destruct (drain_body fuel sizes (ToClose c')) as [d st].
    by apply drains_more.
  - split; cbn [fst snd]; [apply prefix_nil|]. left. apply (chain_error n c). by rewrite E.
Qed.

Lemma exact_read_spec n c m : 0 < n -> 0 <= m ->
  wp (exact_read n) (fun o x' =>
    match o with
    | Ok [] => m = 0
    | Ok l => wire c = l ++ wire (exact_inner x') /\ exact_remaining x' = m - len l /\ len l <= m
    | Err e => (exists n t, (read n t).2 = Err e) \/ (wire c = [] /\ 0 < m)
    end) (MkExact c m).
Proof.
  intros Hn Hm. unfold exact_read, wp. cbn [exact_remaining exact_inner].
  rewrite (proj2 (Z.eqb_neq n 0)) by lia. cbn [orb]. destruct (Z.eqb_spec m 0) as [->|Hm']; [done|].
  pose proof (read_law (Z.min m n) c ltac:(lia)) as H. unfold wp in H.
  destruct (read (Z.min m n) c) as [c' [[|b l]|e]] eqn:E.
  - destruct H as [H _]. right. split; [done|lia].
  - cbn [exact_inner exact_remaining]. destruct H as [Hl H]. split_and!; [done|done|lia].
  - left. apply (chain_error (Z.min m n) c). by rewrite E.
Qed.

Lemma drain_exactly fuel sizes : Forall (fun n => 0 < n) sizes -> forall c m, 0 <= m ->
  drains (ztake m (wire c)) (m <= len (wire c)) sizes (drain_body fuel sizes (Exactly (MkExact c m))).
Proof.
  induction 1 as [|n sizes Hn _ IH]; intros c m Hm; cbn [drain_body body_read].
  { split; cbn [fst snd]; [apply prefix_nil|done]. }
  pose proof (exact_read_spec n c m Hn Hm) as H. unfold wp in H.
  destruct (exact_read n (MkExact c m)) as [[c' m'] [[|b l]|e]].
  - subst m. rewrite ztake_nil by done. pose proof (len_nonneg (wire c)). by split.
  - destruct H as (-> & H & Hl). cbn [exact_inner exact_remaining] in *. subst m'.
    specialize (IH c' (m - len (b :: l)) ltac:(lia)).
    destruct (drain_body fuel sizes (Exactly (MkExact c' (m - len (b :: l))))) as [d st].
    rewrite ztake_app_r by done. apply (drains_more (b :: l) _ _ n) in IH; [|done].
    destruct IH as [IH1 IH2]. split; [done|]. rewrite len_app. cbn [fst snd] in *.
    destruct st; [done|..|done]; rewrite ?len_cons in *; intuition lia.
  - split; cbn [fst snd]; [apply prefix_nil|]. destruct H as [H|[-> H]]; [by left|right].
    unfold ztake. rewrite take_nil. split; [done|]. rewrite len_nil. lia.
Qed.

Lemma drain_in_chunks fuel sizes c :
  (Z.to_nat MAX_METADATA_BYTES + stalls c < fuel)%nat -> Forall (fun n => 0 < n) sizes ->
  drains (decode false (wire c)).1 (is_Some (decode false (wire c)).2) sizes
    (drain_body fuel sizes (InChunks (new c))).
Proof.
  intros Hf Hs. rewrite drain_chunks.
  assert (He : enough fuel (new c)) by (unfold enough, delays, waits; cbn [new inner under]; exact Hf).
  assert (Hc : cwf (new c)) by (split; cbn; [done|lia]).
  pose proof (drain_spec fuel sizes (new c) He Hc Hs) as H. rewrite outlook_new in H.
  destruct (drain fuel sizes (new c)) as [b st]. destruct H as (more & ending & -> & H). cbn [fst snd].
  split; cbn [fst snd]; [by exists more|]. destruct st as [| |e|]; [done| | |done].
  - destruct H as [-> H]. by rewrite app_nil_r.
  - destruct H as [(n & t & H)|[-> ->]]; [left; by apply (chain_error n t)|].
    right. rewrite app_nil_r. split; [done|]. by intros [? ?].
Qed.

(** ** The head *)

(** The header loop: nothing of the bytes [whole] is lost, and the blank line
    is not among those read. *)
Definition heading (whole : bytes) (x : S * bytes) : Prop :=
  x.2 ++ wire x.1 = whole /\ len x.2 <= MAX_RESPONSE_HEADER_BYTES /\ find_header_end x.2 = None.

(** A round looks for the blank line before it looks at the limit, so a head
    may end in the last 512 bytes that were read past it. *)
Definition MAX_HEAD : Z := MAX_RESPONSE_HEADER_BYTES + 512.

(** The head has no end, or none within the limit. *)
Definition no_head (whole : bytes) : Prop :=
  forall e, find_header_end whole = Some e -> MAX_RESPONSE_HEADER_BYTES < e + 4.

Lemma header_round_spec whole x : heading whole x ->
  wp header_round (fun o y =>
    match o with
    | Ok (Some h) => exists e, h = e + 4 /\ find_header_end whole = Some e /\ h <= len y.2 /\ h <= MAX_HEAD /\
        y.2 ++ wire y.1 = whole /\ (stalls y.1 <= stalls x.1)%nat
    | Ok None => heading whole y /\ len x.2 < len y.2 /\ (stalls y.1 <= stalls x.1)%nat
    | Err e => stream_error (S := S) e \/ no_head whole
    end) x.
Proof.
  destruct x as [t buf]. intros (Hw & Hl & Hn). cbn [fst snd] in *. unfold header_round, wp.
  pose proof (read_law 512 t ltac:(lia)) as H. pose proof (stall_law 512 t) as Hk. unfold wp in H, Hk.
  destruct (read 512 t) as [t' [[|b l]|e]] eqn:E.
  - right. intros e He. destruct H as [H _]. rewrite H, app_nil_r in Hw. congruence.
  - destruct H as [Hlen H]. rewrite H in Hw.
    destruct (find_header_end (buf ++ b :: l)) as [pos|] eqn:Ep.
    + exists pos. cbn [fst snd]. pose proof (find_header_end_bounds _ _ Ep) as [_ Hb].
      split_and!; [done| |lia|rewrite len_app in Hb; unfold MAX_HEAD; lia|by rewrite <- (assoc_L (++))|done].
      rewrite <- Hw, (assoc_L (++)). by apply find_header_end_more.
    + rewrite Z.gtb_ltb. destruct (Z.ltb_spec MAX_RESPONSE_HEADER_BYTES (len (buf ++ b :: l))) as [Hover|Hin].
      * right. intros e He. destruct (Z.le_gt_cases (e + 4) (len (buf ++ b :: l))) as [Hle|]; [|lia].
        rewrite <- Hw, (assoc_L (++)) in He. apply find_header_end_fewer in He; [congruence|done].
      * cbn [fst snd]. split_and!; [|rewrite len_app, len_cons; pose proof (len_nonneg l); lia|done].
        split_and!; cbn [fst snd]; [by rewrite <- (assoc_L (++))|done|done].
  - left. exists e. split; [left; exists 512, t; by rewrite E|by left].
Qed.

Lemma header_loop_spec fuel s : (Z.to_nat (MAX_RESPONSE_HEADER_BYTES + 1) < fuel)%nat ->
  wp (iterate fuel header_round) (fun o y =>
    match o with
    | Ok (Some h) => exists e, h = e + 4 /\ find_header_end (wire s) = Some e /\ h <= len y.2 /\ h <= MAX_HEAD /\
        y.2 ++ wire y.1 = wire s /\ (stalls y.1 <= stalls s)%nat
    | Ok None => False
    | Err e => stream_error (S := S) e \/ no_head (wire s)
    end) (s, []).
Proof.
  intros Hf.
  eapply wp_mono; [apply (iterate_spec _ (fun x => heading (wire s) x /\ (stalls x.1 <= stalls s)%nat)
    (fun x => Z.to_nat (MAX_RESPONSE_HEADER_BYTES + 1 - len x.2))
    (fun o y => match o with
     | Ok h => exists e, h = e + 4 /\ find_header_end (wire s) = Some e /\ h <= len y.2 /\ h <= MAX_HEAD /\
         y.2 ++ wire y.1 = wire s /\ (stalls y.1 <= stalls s)%nat
     | Err e => stream_error (S := S) e \/ no_head (wire s) end))|].
  - intros x [Hx Hk]. eapply wp_mono; [by apply header_round_spec|]. cbn beta.
    intros [[h|]|e] y H; [| |done].
    + destruct H as (e & ? & ? & ? & ? & ? & ?). exists e. split_and!; by (done || lia).
    + destruct H as ((H1 & H2 & H3) & ? & ?). split; [split; [done|lia]|lia].
  - cbn [fst snd]. split; [|done]. split_and!; cbn [fst snd]; [done|by rewrite len_nil|done].
  - cbn [snd]. rewrite len_nil. by rewrite Z.sub_0_r.
  - intros [[b|]|e] y H; done.
Qed.

(** What a framing makes of the bytes behind the head, and whether they are a
    whole body. *)
Definition body_of (framing : BodyFraming) (rest : bytes) : bytes :=
  match framing with
  | Close => rest
  | Length n => ztake n rest
  | Chunked => (decode false rest).1
  end.
Definition whole_body (framing : BodyFraming) (rest : bytes) : Prop :=
  match framing with
  | Close => True
  | Length n => n <= len rest
  | Chunked => is_Some (decode false rest).2
  end.
End Streaming.

Lemma framed_iff framing rest b : framed framing rest b <-> whole_body framing rest /\ b = body_of framing rest.
Proof.
  destruct framing; cbn [framed whole_body body_of]; [tauto|tauto|].
  destruct (decode false rest) as [d o]. cbn [fst snd]. split.
  - intros [after [= -> ->]]. by split.
  - intros [[after ->] ->]. by exists after.
Qed.

Lemma framing_line_nonneg st line st' :
  (forall n, st.1 = Some n -> 0 <= n) -> framing_line st line = Ok st' -> forall n, st'.1 = Some n -> 0 <= n.
Proof.
  destruct st as [cl ch]. cbn [fst]. intros Hst. unfold framing_line.
  destruct (split_once x3a line) as [[name value]|]; [|by intros [= <-]].
  destruct (if eq_ignore_case (trim name) _ then _ else _) as [ch'|]; [|done]. cbn [bind_res].
  destruct (eq_ignore_case (trim name) _); [|by intros [= <-]].
  destruct (parse_uint 64 (trim value)) as [v|] eqn:E; [|done]. cbn [of_option bind_res].
  destruct cl; [done|]. intros [= <-] n [= <-].
  unfold parse_uint, parse_radix in E. destruct (match trim value with x2b :: (_ :: _) as r => _ | _ => _ end); [done|].
  by apply digits_value_range in E.
Qed.

Lemma framing_nonneg head n : parse_body_framing head = Ok (Length n) -> 0 <= n.
Proof.
  Transparent parse_body_framing. unfold parse_body_framing. destruct (negb (utf8_valid head)); [done|].
  assert (H : forall ls st st', (forall n, st.1 = Some n -> 0 <= n) -> framing_lines st ls = Ok st' ->
    forall n, st'.1 = Some n -> 0 <= n).
  { induction ls as [|l ls IH]; intros st st' Hst; cbn [framing_lines]; [by intros [= <-]|].
    destruct (framing_line st l) as [st1|] eqn:E; [|done]. cbn [bind_res]. apply IH.
    by eapply framing_line_nonneg. }
  destruct (framing_lines _ _) as [[cl ch]|] eqn:E; [|done]. cbn [bind_res].
  pose proof (fun H0 => H _ _ _ H0 E) as Hn. specialize (Hn ltac:(done)). destruct ch, cl; intros [= <-]. by apply Hn.
Qed.
#[local] Opaque parse_body_framing.

Section Exchange.
Context {S : Type} `{!Reader S, !Writer S, lawsR : !ReaderLaws S, !WriterLaws S, !DuplexLaws S, patient : !Patient S}.

Lemma drain_framed fuel sizes framing (c : Chain S) :
  (Z.to_nat MAX_METADATA_BYTES + stalls c < fuel)%nat -> Forall (fun n => 0 < n) sizes ->
  (forall n, framing = Length n -> 0 <= n) ->
  drains (S := S) (body_of framing (wire c)) (whole_body framing (wire c)) sizes
    (drain_body fuel sizes
      match framing with Length n => Exactly (MkExact c n) | Close => ToClose c | Chunked => InChunks (new c) end).
Proof.
  intros Hf Hs Hn. destruct framing as [|n|]; cbn [body_of whole_body].
  - by apply drain_to_close.
  - apply drain_exactly; [done|]. by apply Hn.
  - by apply drain_in_chunks.
Qed.

(** C23. A streamed body is never cut short unnoticed.  Over any socket, in
    whatever pieces it delivers: when [do_streaming_request] answers, the head
    it parsed is everything up to the first blank line, at most 512 bytes over
    the header limit, and reading the body it returns, with buffers of any
    sizes, gives the front of the body that the framing calls for in the bytes
    behind the blank line, those of the head's last chunk first.  A read of
    zero bytes ends it only when the body was whole and read to its end; a
    body that the connection cut short ends in an error after all of it that
    arrived.  When it fails there is a reason: the stream failed, no blank
    line came within the limit, or the head has no status or no framing that
    can be read.  Neither the head nor a read of the body waits forever. *)
Theorem streamed_body_is_whole fuel sizes raw s :
  (Z.to_nat (MAX_RESPONSE_HEADER_BYTES + 1) + stalls s < fuel)%nat -> Forall (fun n => 0 < n) sizes ->
  (forall all t, (stalls (write_all all t).1 <= stalls t)%nat /\ (stalls (flush t).1 <= stalls t)%nat) ->
  wp (do_streaming_request fuel raw) (fun o _ =>
    match o with
    | Ok (Some (status, x)) =>
        exists e framing,
          find_header_end (wire s) = Some e /\ e + 4 <= 8 * 1024 + 512 /\
          parse_status_code (ztake (e + 4) (wire s)) = Ok status /\
          parse_body_framing (ztake (e + 4) (wire s)) = Ok framing /\
          let rest := zdrop (e + 4) (wire s) in
          drains (S := S) (body_of framing rest) (whole_body framing rest) sizes (drain_body fuel sizes x)
    | Ok None => False
    | Err e =>
        stream_error (S := S) e \/
        forall h, find_header_end (wire s) = Some h -> 8 * 1024 < h + 4 \/
          parse_status_code (ztake (h + 4) (wire s)) = Err e \/ parse_body_framing (ztake (h + 4) (wire s)) = Err e
    end) s.
Proof.
  intros Hf Hs Hw. unfold do_streaming_request. apply wp_bind.
  assert (Hsend : wp (send_request raw None) (fun o t =>
    match o with Ok _ => wire t = wire s /\ (stalls t <= stalls s)%nat | Err e => stream_error (S := S) e end) s).
  { pose proof (send_request_spec raw None s) as H. unfold wp in *.
    destruct (send_request raw None s) as [t [u|e]] eqn:E; [|done]. destruct H as [_ H]. split; [done|].
    unfold send_request, map_err, bind, ret in E.
    pose proof (Hw raw s) as [H1 _]. destruct (write_all raw s) as [s1 [[]|]]; [|done]. cbn [fst] in H1.
    pose proof (Hw raw s1) as [_ H2]. destruct (flush s1) as [s2 [[]|]]; [|done]. cbn [fst] in H2.
    injection E as <- _. lia. }
  eapply wp_mono; [exact Hsend|]. cbn beta. intros [u|e] s1; [|by left]. intros [Hw1 Hk1].
  wp_step. wp_step.
  pose proof (header_loop_spec fuel s1 ltac:(lia)) as H. unfold wp in H. rewrite Hw1 in H.
  destruct (iterate fuel header_round (s1, [])) as [[s2 buf] [[h|]|e]]; cbn [fst snd] in H; [|done|].
  2: { wp_steps. destruct H as [H|H]; [by left|]. right. intros h Hh. left. by apply H. }
  destruct H as (e & -> & He & Hlen & Hmax & Hbuf & Hk2). wp_steps.
  assert (Hhead : ztake (e + 4) buf = ztake (e + 4) (wire s)) by (rewrite <- Hbuf; symmetry; by apply ztake_app_l).
  rewrite Hhead. destruct (parse_status_code _) as [status|x] eqn:Es; wp_steps.
  2: { right. intros h Hh. right; left. congruence. }
  destruct (parse_body_framing _) as [framing|x] eqn:Ef; wp_steps.
  2: { right. intros h Hh. right; right. congruence. }
  exists e, framing. split_and!; [done..|]. cbn zeta.
  assert (Hrest : zdrop (e + 4) (wire s) = wire (MkChain (zdrop (e + 4) buf) s2)).
  { rewrite <- Hbuf. by apply zdrop_app_l. }
  rewrite Hrest. apply drain_framed; [|done|intros n ->; by eapply framing_nonneg].
  change (stalls (MkChain (zdrop (e + 4) buf) s2)) with (stalls s2).
  unfold MAX_RESPONSE_HEADER_BYTES, MAX_METADATA_BYTES in *. lia.
Qed.
End Exchange.

(** A chunked response whose head and first chunk arrive together. *)
Definition chunked_head : bytes :=
  bs "HTTP/1.1 200 OK" ++ CRLF ++ bs "Transfer-Encoding: chunked" ++ CRLF ++ CRLF.
Definition chunked_answer : script :=
  answering [Data (chunked_head ++ bs "4" ++ CRLF ++ bs "Wi"); Data (bs "ki" ++ CRLF); Data (bs "0" ++ CRLF ++ CRLF)].

Lemma script_writes_stall all (t : script) :
  (stalls (write_all all t).1 <= stalls t)%nat /\ (stalls (flush t).1 <= stalls t)%nat.
Proof. by destruct t as [es out [k|]]. Qed.

Lemma streamed_body_is_whole_witness :
  exists x, (do_streaming_request ample (bs "GET") chunked_answer).2 = Ok (Some (200, x)) /\
    drain_body ample [3; 5; 5] x = (bs "Wiki", Ended) /\
    (drain_body ample [3; 5; 5] x).1 `prefix_of` bs "Wiki".
Proof.
  pose proof (streamed_body_is_whole ample [3; 5; 5] (bs "GET") chunked_answer) as H.
  specialize (H ltac:(change (stalls chunked_answer) with O; unfold ample, MAX_RESPONSE_HEADER_BYTES; lia)
    ltac:(repeat constructor) script_writes_stall).
  destruct (do_streaming_request ample (bs "GET") chunked_answer) as [t r] eqn:E.
  unfold wp in H. rewrite E in H.
  vm_compute in E. injection E as <- <-. eexists. split; [reflexivity|]. split; [by vm_compute|].
  destruct H as (e & framing & He & _ & _ & Hf & Hd & _). vm_compute in He. injection He as <-.
  vm_compute in Hf. injection Hf as <-. etrans; [exact Hd|]. apply (bool_decide_unpack _). by vm_compute.
Defined.

(** A head of more than 8 KiB whose blank line is in the last read. *)
Definition long_head : bytes :=
  bs "HTTP/1.1 200 OK" ++ CRLF ++ bs "X: " ++ replicate (Z.to_nat 8300) x61 ++ CRLF ++ CRLF.
Example a_head_over_the_limit_is_accepted :
  MAX_RESPONSE_HEADER_BYTES < len long_head /\
  match (do_streaming_request ample (bs "GET") (answering [Data (long_head ++ bs "body")])).2 with
  | Ok (Some (200, x)) => drain_body ample [8; 8] x = (bs "body", Ended)
  | _ => False
  end.
Proof. split; [done|by vm_compute]. Qed.
