(* ===== verification/WsDuplex.v ===== *)
(** * The two directions of a WebSocket client

    Reading a frame hands nothing to the peer, and sending one leaves the
    reader where it was, whatever either of them ends in. *)

From S2P Require Import Prelude Io Ws WsSpec WsTheorems.
#[local] Set Default Proof Using "Type*".

(** ** Reading *)

Create HintDb silent discriminated.

Section Reading.
Context {S : Type} `{!Reader S, !Writer S, !ReaderLaws S, !WriterLaws S, !DuplexLaws S} (lim : Limits).
Implicit Types (c d : WsClient S).

Definition same_sent c d : Prop := sent (stream d) = sent (stream c).
#[global] Instance same_sent_refl : Reflexive same_sent.
Proof. by intros c. Qed.
#[global] Instance same_sent_trans : Transitive same_sent.
Proof. intros c d e H1 H2. unfold same_sent in *. congruence. Qed.

Abbreviation silent m := (keeps same_sent m).

Lemma silent_get {E} : silent (get (E := E)).
Proof. by intros c. Qed.
Lemma silent_modify {E} f : (forall c, stream (f c) = stream c) -> silent (modify (E := E) f).
Proof. intros H c. unfold same_sent. cbn. by rewrite H. Qed.
Lemma silent_attempt {E E' A} (m : M (WsClient S) E A) : silent m -> silent (attempt (E' := E') m).
Proof. intros H c. specialize (H c). unfold attempt. by destruct (m c). Qed.
Lemma silent_partial {E A} (m : M (option Partial) E A) : silent (zoom partial set_partial m).
Proof. intros c. unfold zoom. by destruct (m (partial c)). Qed.

Lemma silent_fill n : silent (fill n).
Proof.
  intros c. unfold fill. destruct (negb _); [done|].
  pose proof (read_keeps_sent n (stream c)) as H. unfold same_sent. by destruct (read n (stream c)) as [s [[|x b]|e]].
Qed.

#[local] Hint Resolve silent_get silent_modify silent_attempt silent_partial silent_fill keeps_bind
  keeps_ret keeps_fail keeps_lift same_sent_refl same_sent_trans : silent.

Lemma silent_fill_to put target have :
  (forall b c, stream (put b c) = stream c) -> silent (fill_to fill put target have).
Proof.
  intros Hp. unfold fill_to. generalize (Z.to_nat (target - have)) as fuel. intros fuel. revert have.
  induction fuel as [|fuel IH]; intros have; cbn [fill_loop]; [auto with silent|].
  zcase; auto 8 with silent.
Qed.

Lemma silent_or_block (m : M (WsClient S) io_error unit) : silent m -> silent (or_block m).
Proof.
  intros H. unfold or_block. apply keeps_bind; [auto with silent..|]. intros [u|e]; [auto with silent|].
  destruct (is_would_block e); auto with silent.
Qed.

Lemma silent_header : silent (read_header lim).
Proof.
  assert (Hf : forall t, silent (fill_header t)).
  { intros t. unfold fill_header. apply keeps_bind; [auto with silent..|]. intros c.
    apply silent_or_block, silent_fill_to. done. }
  unfold read_header. repeat (lazymatch goal with
    | |- keeps _ (bind _ _) => apply keeps_bind; [auto with silent|solve [auto with silent]|intros ?]
    | |- keeps _ (if ?b then _ else _) => destruct b
    | |- keeps _ _ => solve [auto with silent]
    end || (apply keeps_bind; [auto with silent| |intros ?])).
Qed.

Lemma silent_read_frame fuel : silent (read_frame lim fuel).
Proof.
  unfold read_frame. induction fuel as [|fuel IH]; cbn [iterate]; [auto with silent|].
  apply keeps_bind; [auto with silent| |intros [f|]; auto with silent].
  unfold read_frame_round. apply keeps_bind; [auto with silent..|]. intros c.
  apply keeps_bind; [auto with silent| |].
  { destruct (incoming c); [auto with silent|]. apply keeps_bind; [auto with silent|apply silent_header|].
    intros [i|]; auto with silent. }
  intros [|]; cbn [negb]; [|auto with silent]. apply keeps_bind; [auto with silent..|]. intros d.
  destruct (incoming d) as [i|]; [|auto with silent]. apply keeps_bind; [auto with silent| |].
  { apply silent_or_block, silent_fill_to. intros b e. unfold put_payload. by destruct (incoming e). }
  intros [|]; cbn [negb]; [|auto with silent]. apply keeps_bind; [auto with silent..|]. intros e.
  apply keeps_bind; [auto with silent..|]. intros _. destruct (incoming e); auto with silent.
Qed.
End Reading.

(** ** Sending *)

Section Sending.
Context {S : Type} `{!Reader S, !Writer S, !ReaderLaws S, lawsW : !WriterLaws S, !DuplexLaws S} (lim : Limits).
Implicit Types (c d : WsClient S).

(** The reader's side is as it was. *)
Definition same_reader c d : Prop := d = set_stream (stream d) c /\ wire (stream d) = wire (stream c).

#[global] Instance same_reader_refl : Reflexive same_reader.
Proof. intros c. split; [by destruct c|done]. Qed.
#[global] Instance same_reader_trans : Transitive same_reader.
Proof.
  intros c d e [H1 H2] [H3 H4]. split; [|congruence]. rewrite H3, H1. by destruct c.
Qed.

Lemma on_stream_same_reader {A} (m : M S io_error A) :
  keeps (fun s t => wire t = wire s) m -> keeps same_reader (on_stream m).
Proof.
  intros H c. specialize (H (stream c)). unfold on_stream, zoom.
  destruct (m (stream c)) as [s r]. by split.
Qed.

Lemma write_same_reader b : keeps same_reader (on_stream (write_all b)).
Proof. apply on_stream_same_reader. intros s. apply write_keeps_wire. Qed.

Lemma send_frame_same_reader mask op payload : keeps same_reader (send_frame mask op payload).
Proof.
  unfold send_frame. destruct (_ && _); [apply keeps_fail, _|].
  apply keeps_bind; [apply _|apply write_same_reader|]. intros _. apply keeps_bind; [apply _| |].
  - generalize 0 as i, (chunks MASK_CHUNK payload) as blocks. intros i blocks. revert i.
    induction blocks as [|b blocks IH]; intros i; cbn [send_blocks]; [apply keeps_ret, _|].
    apply keeps_bind; [apply _|apply write_same_reader|auto].
  - intros _. apply on_stream_same_reader. intros s. apply flush_keeps_wire.
Qed.

Lemma same_reader_cwf c d : same_reader c d -> cwf c -> cwf d.
Proof. intros [-> _] []. by split. Qed.
Lemma same_reader_unread c d : same_reader c d -> unread d = unread c.
Proof. intros [-> H]. unfold unread. cbn in *. by rewrite H. Qed.
Lemma same_reader_measure c d : same_reader c d -> measure d = measure c.
Proof. intros H. unfold measure. rewrite (same_reader_unread _ _ H). by destruct H as [-> _]. Qed.
Lemma same_reader_to_come c d : same_reader c d -> to_come lim d = to_come lim c.
Proof.
  intros H. unfold to_come, outlook. rewrite (same_reader_unread _ _ H). by destruct H as [-> _].
Qed.

(** One call of [send_frame]: what it was asked to send, the bytes it handed
    over, and whether it succeeded. *)
Record attempt := Attempt {
  a_op : Z;
  a_payload : bytes;
  a_bytes : bytes;
  a_whole : bool;
}.

(** A server decodes what a success handed over to the frame that was asked
    for; a failure handed over nothing, or the front of such a frame. *)
Definition decodes_to (frame : bytes) (op : Z) (payload : bytes) : Prop :=
  exists key, forall rest, server_decode (frame ++ rest) = Some (true, op, key, payload, rest).
Definition attempt_ok (a : attempt) : Prop :=
  if a_whole a then decodes_to (a_bytes a) (a_op a) (a_payload a)
  else a_bytes a = [] \/ exists frame, decodes_to frame (a_op a) (a_payload a) /\ a_bytes a `prefix_of` frame.

Lemma send_frame_attempt mask op payload c :
  len mask = 4 -> 0 <= op < 16 -> len payload < 2 ^ 64 \/ op >= OP_CLOSE ->
  wp (send_frame mask op payload) (fun o d => exists a,
    attempt_ok a /\ a_op a = op /\ a_payload a = payload /\ a_whole a = is_ok o /\
    sent (stream d) = sent (stream c) ++ a_bytes a) c.
Proof.
  intros Hm Hop Hp. destruct (Z.lt_ge_cases (len payload) (2 ^ 64)) as [Hl|Hl].
  - eapply wp_mono; [by apply (send_frame_decodes_at mask op payload c)|]. cbn beta. intros o d (frame & Hd & Ho).
    destruct (_ && _).
    { destruct Ho as [-> ->]. exists (Attempt op payload [] false). cbn. rewrite app_nil_r. by split_and!; [left|..]. }
    assert (Hdec : decodes_to frame op payload) by by exists mask.
    destruct o as [u|e].
    { destruct Ho as [_ Hs]. exists (Attempt op payload frame true). by split_and!. }
    destruct Ho as (_ & p & Hpre & _ & Hs). exists (Attempt op payload p false). cbn.
    split_and!; [right; by exists frame|done..].
  - destruct Hp as [Hp|Hp]; [lia|]. unfold send_frame. unfold OP_CLOSE, MAX_CONTROL_PAYLOAD in *.
    assert (((op >=? 8) && (len payload >? 125)) = true) as ->.
    { rewrite Z.geb_leb, Z.gtb_ltb, andb_true_iff, Z.leb_le, Z.ltb_lt. lia. }
    apply wp_fail. exists (Attempt op payload [] false). cbn. rewrite app_nil_r. by split_and!; [left|..].
Qed.
End Sending.
