(* ===== verification/Transport.v ===== *)
(** * The transport ([src/transport.rs], [src/transport/write_completion.rs])

    The socket thread [ws_thread] owns the WebSocket client and meets the rest
    of the program in three places: the bounded queue of write jobs, the event
    channel, and the shutdown flag.  It is a machine that makes one access to
    one of them per step, or one call of the WebSocket client, so that the
    steps of its users can come between any two of its own. *)

From S2P Require Import Prelude Platform RustStr HttpClient Io Ws WsHandshake.

Section Data.
Context `{board : Board}.

Definition SEND_QUEUE_CAP : Z := if has_psram then 64 else 1.

(** The capacity of the event channel; [None] is an unbounded one. *)
Definition event_capacity : option Z := if has_psram then None else Some 1.

Definition ws_limits : Limits := {|
  max_frame_size := by_ram (Z.shiftl 16 20) (32 * 1024);
  max_message_size := by_ram (Z.shiftl 64 20) (32 * 1024);
|}.
End Data.

(** The SDK's events, as far as the thread makes them. *)
Inductive DisconnectReason :=
| ServerClose (code : option Z) (reason : bytes)
| ReadError (what : bytes)
| Unknown.

Inductive TransportEvent :=
| Connected
| DataReceived (data : bytes)
| Disconnected (reason : DisconnectReason).

(** A job's [completed] is known by the number of the [send] that made it. *)
Record WriteJob := Job {
  completed : nat;
  data : bytes;
}.

(** What the waiter of a job is told: the outcome of the write, or that the
    job was dropped. *)
Inductive completion := Wrote (r : result bytes unit) | Canceled.

Record shared := Shared {
  queue : list WriteJob;
  queue_open : bool;
  events : list TransportEvent;
  listening : bool;
  shutdown : bool;
  completions : list (nat * completion);
}.

Definition set_queue (x : list WriteJob) (s : shared) : shared :=
  Shared x (queue_open s) (events s) (listening s) (shutdown s) (completions s).
Definition set_events (x : list TransportEvent) (s : shared) : shared :=
  Shared (queue s) (queue_open s) x (listening s) (shutdown s) (completions s).
Definition set_listening (x : bool) (s : shared) : shared :=
  Shared (queue s) (queue_open s) (events s) x (shutdown s) (completions s).
Definition set_shutdown (x : bool) (s : shared) : shared :=
  Shared (queue s) (queue_open s) (events s) (listening s) x (completions s).
Definition complete (i : nat) (c : completion) (s : shared) : shared :=
  Shared (queue s) (queue_open s) (events s) (listening s) (shutdown s) (completions s ++ [(i, c)]).

(** [drop(data_rx)]: later sends are refused, and every job still queued is
    dropped with its completion. *)
Definition drop_queue (s : shared) : shared :=
  Shared [] false (events s) (listening s) (shutdown s)
    (completions s ++ map (fun job => (completed job, Canceled)) (queue s)).

(** The answer of the event channel's [try_send]. *)
Inductive try_sent := Sent | Full | Closed.

Section Events.
Context `{board : Board}.

Definition events_full (s : shared) : bool :=
  match event_capacity with Some n => n <=? len (events s) | None => false end.

Definition try_send_event (e : TransportEvent) (s : shared) : shared * try_sent :=
  if negb (listening s) then (s, Closed)
  else if events_full s then (s, Full)
  else (set_events (events s ++ [e]) s, Sent).

Inductive ForwardProgress := Ready | Blocked | ChannelClosed.

Definition forward_pending (pending : option TransportEvent) (s : shared) :
    shared * option TransportEvent * ForwardProgress :=
  match pending with
  | None => (s, None, Ready)
  | Some event =>
      match try_send_event event s with
      | (s, Sent) => (s, None, Ready)
      | (s, Full) => (s, Some event, Blocked)
      | (s, Closed) => (s, None, ChannelClosed)
      end
  end.

(** [Transport::send], up to the wait for the completion: the queue takes the
    job, or the error that [send] returns. *)
Inductive send_refused := QueueFull | QueueClosed.
Definition try_send_job (job : WriteJob) (s : shared) : shared * result send_refused unit :=
  if negb (queue_open s) then (s, Err QueueClosed)
  else if SEND_QUEUE_CAP <=? len (queue s) then (s, Err QueueFull)
  else (set_queue (queue s ++ [job]) s, Ok tt).
End Events.

(** ** The socket thread *)

Section Thread.
Context {S : Type} `{!Reader S, !Writer S, board : Board}.
(** What [fill_random] writes for the k-th frame, and the rounds that
    [read_frame] is run for at a time. *)
Context (mask : nat -> bytes) (fuel : nat).

(** Where the thread is.  [tried] counts the frames it has tried to send;
    [pending] is [pending_event]. *)
Inductive thread :=
| Announcing (ws : WsClient S)
| Top (ws : WsClient S) (tried : nat) (pending : option TransportEvent)
| Draining (ws : WsClient S) (tried : nat) (pending : option TransportEvent)
| Writing (ws : WsClient S) (tried : nat) (pending : option TransportEvent) (job : WriteJob)
| Forwarding (ws : WsClient S) (tried : nat) (pending : option TransportEvent)
| Reading (ws : WsClient S) (tried : nat)
| Leaving (ws : WsClient S) (reason : DisconnectReason)
| Finishing (ws : option (WsClient S)) (reason : DisconnectReason)
| Exited (ws : option (WsClient S)).

(** [WriteJob::perform]: the write, then the completion, then the failure
    that the thread goes by. *)
Definition perform (mask : bytes) (job : WriteJob) (ws : WsClient S) (s : shared) :
    WsClient S * shared * option bytes :=
  match send_binary mask (data job) ws with
  | (ws, Ok _) => (ws, complete (completed job) (Wrote (Ok tt)) s, None)
  | (ws, Err e) => (ws, complete (completed job) (Wrote (Err (error_text e))) s, Some (error_text e))
  end.

(** The reason a close frame gives. *)
Definition close_reason (frame : option (Z * bytes)) : DisconnectReason :=
  match frame with
  | Some (code, reason) => ServerClose (Some code) reason
  | None => ServerClose None []
  end.

Definition ws_step (s : shared) (t : thread) : shared * thread :=
  match t with
  | Announcing ws =>
      (* [send_blocking]: a closed channel is no error here *)
      match try_send_event Connected s with
      | (s, Full) => (s, Announcing ws)
      | (s, _) => (s, Top ws 0 None)
      end
  | Top ws tried pending =>
      if shutdown s then (s, Leaving (send_close (mask tried) 1000 ws).1 Unknown)
      else (s, Draining ws tried pending)
  | Draining ws tried pending =>
      match queue s with
      | [] => (s, Forwarding ws tried pending)
      | job :: rest => (set_queue rest s, Writing ws tried pending job)
      end
  | Writing ws tried pending job =>
      match perform (mask tried) job ws s with
      | (ws, s, None) => (s, Draining ws (Datatypes.S tried) pending)
      | (ws, s, Some e) => (s, Leaving ws (ReadError (bs "WS send error: " ++ e)))
      end
  | Forwarding ws tried pending =>
      match forward_pending pending s with
      | (s, _, Ready) => (s, Reading ws tried)
      | (s, pending, Blocked) => (s, Top ws tried pending)
      | (s, _, ChannelClosed) => (s, Leaving ws Unknown)
      end
  | Reading ws tried =>
      match read_frame ws_limits fuel ws with
      | (ws, Ok None) => (s, Reading ws tried)
      | (ws, Ok (Some None)) => (s, Top ws tried None)
      | (ws, Ok (Some (Some (Binary data)))) => (s, Top ws tried (Some (DataReceived data)))
      | (ws, Ok (Some (Some (Ping payload)))) =>
          (s, Top (send_pong (mask tried) payload ws).1 (Datatypes.S tried) None)
      | (ws, Ok (Some (Some (Pong _)))) | (ws, Ok (Some (Some (Text _)))) => (s, Top ws tried None)
      | (ws, Ok (Some (Some (Close frame)))) =>
          (s, Leaving (send_close (mask tried) 1000 ws).1 (close_reason frame))
      | (ws, Err e) => (s, Leaving ws (ReadError (bs "WS read error: " ++ error_text e)))
      end
  | Leaving ws reason => (drop_queue s, Finishing (Some ws) reason)
  | Finishing ws reason =>
      match try_send_event (Disconnected reason) s with
      | (s, Full) => (s, Finishing ws reason)
      | (s, _) => (drop_queue s, Exited ws)
      end
  | Exited ws => (s, Exited ws)
  end.

(** ** Connecting

    [display] is the text of an error. *)
Definition establish {W} `{!Net W S, crypto : Crypto} (display : anyhow -> bytes) (late : nat -> bool)
    (rounds : nat) (nonce ws_url : bytes) (skip_tls_verify : bool) :
    M W DisconnectReason (option (WsClient S)) :=
  let* (host, port, path, _) :=
    map_err (fun e => ReadError (bs "invalid WS URL: " ++ display e)) (lift (parse_url ws_url)) in
  let* stream :=
    map_err (fun e => ReadError (bs "TLS connect failed: " ++ display e)) (tls_connect host port skip_tls_verify) in
  lift
    match (connect late rounds nonce host path (bs "https://" ++ host) stream).2 with
    | Ok ws => Ok ws
    | Err e => Err (ReadError (bs "WebSocket handshake failed: " ++ error_text e))
    end.

(** What the thread goes on with. *)
Definition ws_thread (r : result DisconnectReason (WsClient S)) : thread :=
  match r with
  | Ok ws => Announcing ws
  | Err reason => Finishing None reason
  end.

(** ** The users of the transport *)

Inductive user :=
| Send (payload : bytes)
| Disconnect
| DropTransport
| Receive
| DropReceiver.

(** The thread among its users, with what they have done: the jobs that were
    accepted and the events that were received. *)
Record config := Config {
  sh : shared;
  at_ : thread;
  accepted : list WriteJob;
  received : list TransportEvent;
}.

Definition user_step (u : user) (c : config) : config :=
  let s := sh c in
  match u with
  | Send payload =>
      let job := Job (length (accepted c)) payload in
      match try_send_job job s with
      | (s, Ok _) => Config s (at_ c) (accepted c ++ [job]) (received c)
      | (s, Err _) => Config s (at_ c) (accepted c) (received c)
      end
  | Disconnect | DropTransport => Config (set_shutdown true s) (at_ c) (accepted c) (received c)
  | Receive =>
      match events s with
      | e :: rest => Config (set_events rest s) (at_ c) (accepted c) (received c ++ [e])
      | [] => c
      end
  | DropReceiver => Config (set_listening false s) (at_ c) (accepted c) (received c)
  end.

Definition thread_step (c : config) : config :=
  let '(s, t) := ws_step (sh c) (at_ c) in
  Config s t (accepted c) (received c).

Inductive move := Own | User (u : user).
Definition move_step (c : config) (m : move) : config :=
  match m with Own => thread_step c | User u => user_step u c end.
Definition play (ms : list move) (c : config) : config := foldl move_step c ms.
Definition own_steps (ms : list move) : nat :=
  list_sum (map (fun m => match m with Own => 1 | User _ => 0 end) ms)%nat.

(** [create_transport]: the channels, and the thread started on them. *)
Definition create_transport (r : result DisconnectReason (WsClient S)) : config :=
  Config (Shared [] true [] true false []) (ws_thread r) [] [].
End Thread.
