(* ===== verification/TransportEvents.v ===== *)
(** * What the transport delivers

    The events of a connection against the bytes of its wire, for every
    interleaving of the socket thread with the transport's users. *)

From S2P Require Import Prelude Platform RustStr HttpClient Io Ws WsSpec WsReference WsTheorems WsDuplex WsHandshake Transport.
#[local] Set Default Proof Using "All".

(** The payloads of the binary messages. *)
Definition binaries (fs : list Frame) : list bytes :=
  omap (fun f => match f with Binary b => Some b | _ => None end) fs.

Lemma binaries_app fs gs : binaries (fs ++ gs) = binaries fs ++ binaries gs.
Proof. apply omap_app. Qed.
Lemma binaries_prefix fs gs : fs `prefix_of` gs -> binaries fs `prefix_of` binaries gs.
Proof. intros [k ->]. rewrite binaries_app. by exists (binaries k). Qed.

Section Channel.
Context `{board : Board}.

Lemma try_send_event_cases e s :
  (try_send_event e s = (s, Closed) /\ listening s = false) \/
  (try_send_event e s = (s, Full) /\ listening s = true /\ events_full s = true) \/
  (try_send_event e s = (set_events (events s ++ [e]) s, Sent) /\ listening s = true).
Proof.
  unfold try_send_event. destruct (listening s); cbn [negb]; [|by left]. right.
  destruct (events_full s); [by left|by right].
Qed.
End Channel.

Section Events.
Context {S : Type} `{!Reader S, !Writer S, lawsR : !ReaderLaws S, lawsW : !WriterLaws S,
  lawsD : !DuplexLaws S, board : Board}.
Context (mask : nat -> bytes) (fuel : nat) (s0 : S) (leftover : bytes).
Implicit Types (c : config (S := S)) (ws : WsClient S).

(** The thread after a handshake that left [leftover] behind. *)
Definition start : config := create_transport (Ok (fresh_client s0 leftover)).

(** What the peer's bytes mean, by RFC 6455. *)
Definition whole : list Frame * option io_error := meaning ws_limits (leftover ++ wire s0).

(** All that was ever put into the event channel. *)
Definition pushed c : list TransportEvent := received c ++ events (sh c).

(** Why a connection ended, and what was delivered before: all the messages
    before a close frame, before a protocol error, or before the end of the
    stream; when the thread gave up for a reason of its own, at most the
    message it was holding is missing. *)
Inductive ending (ds : list bytes) : DisconnectReason -> Prop :=
| by_close fs frame rest :
    whole.1 = fs ++ Close frame :: rest -> (forall x, Close x ∉ fs) -> ds = binaries fs ->
    ending ds (close_reason frame)
| by_protocol fs e :
    whole = (fs, Some e) -> ds = binaries fs ->
    ending ds (ReadError (bs "WS read error: " ++ error_text e))
| by_end :
    ds = binaries whole.1 -> ending ds (ReadError (bs "WS read error: " ++ error_text closed))
| by_fault fs e n s :
    (read n s).2 = Err e -> fs `prefix_of` whole.1 -> ds = binaries fs ->
    ending ds (ReadError (bs "WS read error: " ++ error_text e))
| by_write fs e lost :
    fs `prefix_of` whole.1 -> binaries fs = ds ++ lost -> (length lost <= 1)%nat ->
    ending ds (ReadError (bs "WS send error: " ++ e))
| by_choice fs lost :
    fs `prefix_of` whole.1 -> binaries fs = ds ++ lost -> (length lost <= 1)%nat ->
    ending ds Unknown.

Lemma ending_prefix ds reason : ending ds reason -> ds `prefix_of` binaries whole.1.
Proof.
  intros [fs frame rest H _ -> | fs e H -> | -> | fs e n s _ H -> | fs e lost H E _|fs lost H E _].
  - apply binaries_prefix. rewrite H. by exists (Close frame :: rest).
  - by rewrite H.
  - done.
  - by apply binaries_prefix.
  - apply binaries_prefix in H. etrans; [|exact H]. rewrite E. by exists lost.
  - apply binaries_prefix in H. etrans; [|exact H]. rewrite E. by exists lost.
Qed.

(** ** The invariant *)

(** The client has read the frames [fs], none of them a close frame. *)
Record reads ws (fs : list Frame) : Prop := {
  rd_wf : cwf ws;
  rd_fuel : (measure ws < fuel)%nat;
  rd_rest : whole = (fs ++ (to_come ws_limits ws).1, (to_come ws_limits ws).2);
  rd_open x : Close x ∉ fs;
}.

(** The receiver was fed [ds], or was gone from the start. *)
Definition feed c (ds : list bytes) : Prop :=
  pushed c = Connected :: map DataReceived ds \/ (listening (sh c) = false /\ pushed c = []).

Definition held (fs : list Frame) (ds : list bytes) (pending : option TransportEvent) : Prop :=
  match pending with
  | None => binaries fs = ds
  | Some (DataReceived d) => binaries fs = ds ++ [d]
  | Some _ => False
  end.

Definition looping c ws pending : Prop :=
  exists fs ds, reads ws fs /\ feed c ds /\ held fs ds pending.

Definition ev_inv c : Prop :=
  match at_ c with
  | Announcing ws => reads ws [] /\ pushed c = []
  | Top ws _ p | Draining ws _ p | Writing ws _ p _ | Forwarding ws _ p => looping c ws p
  | Reading ws _ => looping c ws None
  | Leaving _ reason | Finishing (Some _) reason => exists ds, feed c ds /\ ending ds reason
  | Exited (Some _) => exists ds reason, ending ds reason /\
      ((feed c ds /\ listening (sh c) = false) \/ pushed c = Connected :: map DataReceived ds ++ [Disconnected reason])
  | Finishing None _ | Exited None => False
  end.

Lemma reads_prefix ws fs : reads ws fs -> fs `prefix_of` whole.1.
Proof. intros [_ _ H _]. rewrite H. cbn [fst]. by exists (to_come ws_limits ws).1. Qed.

Lemma reads_same ws ws' fs : same_reader ws ws' -> reads ws fs -> reads ws' fs.
Proof.
  intros H [H1 H2 H3 H4]. split; [by eapply same_reader_cwf| | |done].
  - by rewrite (same_reader_measure _ _ H).
  - by rewrite (same_reader_to_come _ _ _ H).
Qed.

Lemma held_lost fs ds p : held fs ds p -> exists lost, binaries fs = ds ++ lost /\ (length lost <= 1)%nat.
Proof.
  destruct p as [[|d|]|]; cbn; [done| |done|].
  - intros H. by exists [d].
  - intros H. exists []. rewrite app_nil_r. split; [done|cbn; lia].
Qed.

Lemma feed_keeps c c' ds :
  pushed c' = pushed c -> (listening (sh c) = false -> listening (sh c') = false) -> feed c ds -> feed c' ds.
Proof. intros E Hl. unfold feed. rewrite E. intuition. Qed.

(** A step that leaves the channel alone. *)
Lemma looping_keeps c c' ws ws' p :
  pushed c' = pushed c -> (listening (sh c) = false -> listening (sh c') = false) -> same_reader ws ws' ->
  looping c ws p -> looping c' ws' p.
Proof.
  intros E Hl Hs (fs & ds & H1 & H2 & H3). exists fs, ds.
  split_and!; [by eapply reads_same|by eapply feed_keeps|done].
Qed.

Lemma user_pushed u c : pushed (user_step u c) = pushed c /\ at_ (user_step u c) = at_ c /\
  (listening (sh c) = false -> listening (sh (user_step u c)) = false).
Proof.
  unfold pushed. destruct u as [payload| | | |]; cbn [user_step]; try done.
  - unfold try_send_job. destruct (queue_open (sh c)); cbn [negb]; [|done].
    by destruct (SEND_QUEUE_CAP <=? _).
  - destruct (events (sh c)) as [|e rest] eqn:E; cbn; [by rewrite E|]. by rewrite <- (assoc_L (++)).
Qed.

Lemma ev_user u c : ev_inv c -> ev_inv (user_step u c).
Proof.
  destruct (user_pushed u c) as (E & Et & Hl). unfold ev_inv. rewrite Et. destruct (at_ c) as [ws|ws n p|ws n p|ws n p j|ws n p|ws n|ws r|[ws|] r|[ws|]]; try done.
  - by rewrite E.
  - intros H. by eapply looping_keeps.
  - intros H. by eapply looping_keeps.
  - intros H. by eapply looping_keeps.
  - intros H. by eapply looping_keeps.
  - intros H. by eapply looping_keeps.
  - intros (ds & H1 & H2). exists ds. split; [by eapply feed_keeps|done].
  - intros (ds & H1 & H2). exists ds. split; [by eapply feed_keeps|done].
  - intros (ds & r & H1 & [[H2 H3]|H2]); exists ds, r; (split; [done|]).
    + left. split; [by eapply feed_keeps|auto].
    + right. by rewrite E.
Qed.

(** ** The thread's own steps *)

Abbreviation step := (thread_step mask fuel).

Lemma sends_same_reader (m : bytes) op payload ws ws' o :
  send_frame m op payload ws = (ws', o) -> same_reader ws ws'.
Proof. intros E. pose proof (send_frame_same_reader m op payload ws) as H. by rewrite E in H. Qed.

(** The thread gives up for a reason of its own. *)
Lemma looping_ends c ws p : looping c ws p ->
  exists ds, feed c ds /\ ending ds Unknown /\ forall e, ending ds (ReadError (bs "WS send error: " ++ e)).
Proof.
  intros (fs & ds & H1 & H2 & H3). apply reads_prefix in H1. apply held_lost in H3 as (lost & H3 & H4).
  exists ds. split_and!; [done|by eapply by_choice|]. intros e. by eapply by_write.
Qed.

Lemma ev_announcing c ws : at_ c = Announcing ws -> ev_inv c -> ev_inv (step c).
Proof.
  intros Et. unfold ev_inv at 1. rewrite Et. intros [H1 H2]. unfold thread_step. rewrite Et. cbn [ws_step].
  destruct (try_send_event_cases Connected (sh c)) as [[-> Hl]|[(-> & _)|[-> Hl]]]; unfold ev_inv; cbn [at_].
  - exists [], []. split_and!; [done| |done]. right. by split.
  - by split.
  - exists [], []. split_and!; [done| |done]. left. unfold pushed in *. cbn. by rewrite (assoc_L (++)), H2.
Qed.

Lemma ev_writing c ws n p job : at_ c = Writing ws n p job -> ev_inv c -> ev_inv (step c).
Proof.
  intros Et. unfold ev_inv at 1. rewrite Et. intros H. unfold thread_step. rewrite Et. cbn [ws_step].
  unfold perform, send_binary. destruct (send_frame (mask n) OP_BINARY (data job) ws) as [ws' [u|e]] eqn:Es;
    apply sends_same_reader in Es; unfold ev_inv; cbn [at_].
  - by eapply looping_keeps.
  - destruct (looping_ends _ _ _ H) as (ds & H1 & _ & H2). exists ds. split; [|done]. by eapply feed_keeps.
Qed.

Lemma ev_forwarding c ws n p : at_ c = Forwarding ws n p -> ev_inv c -> ev_inv (step c).
Proof.
  intros Et. unfold ev_inv at 1. rewrite Et. intros H. unfold thread_step. rewrite Et. cbn [ws_step].
  unfold forward_pending. destruct p as [e|]; [|done].
  destruct (try_send_event_cases e (sh c)) as [[-> Hl]|[(-> & _)|[-> Hl]]]; unfold ev_inv; cbn [at_]; [|done|].
  - destruct (looping_ends _ _ _ H) as (ds & H1 & H2 & _). by exists ds.
  - destruct H as (fs & ds & H1 & [H2|[H2 _]] & H3); [|congruence]. destruct e as [|d|]; [done| |done].
    exists fs, (ds ++ [d]). split_and!; [done| |done]. left. unfold pushed in *. cbn.
    by rewrite (assoc_L (++)), H2, map_app.
Qed.

(** What one call of [read_frame] does to the reading. *)
Lemma reads_more ws ws' fs f : reads ws fs -> (forall x, f <> Close x) ->
  outlook ws_limits ws = Got f (partial ws') (unread ws') -> header ws' = [] -> incoming ws' = None ->
  cwf ws' -> (measure ws' <= measure ws)%nat -> reads ws' (fs ++ [f]).
Proof.
  intros [H1 H2 H3 H4] Hf Ho Hh Hi Hw Hm. split; [done|lia| |].
  - rewrite H3, (after_got ws_limits ws ws' f Ho Hh Hi). cbn [fst snd]. by rewrite <- (assoc_L (++)).
  - intros x [Hx|Hx]%elem_of_app; [by destruct (H4 x)|]. apply list_elem_of_singleton in Hx. by destruct (Hf x).
Qed.

Lemma reads_error ws ws' fs ds e : reads ws fs -> binaries fs = ds ->
  fails ws_limits e ws ws' -> ending ds (ReadError (bs "WS read error: " ++ error_text e)).
Proof.
  intros [H1 H2 H3 H4] Hd [Hb|(Ht & (_ & Ho & _) & Hu)].
  - eapply by_protocol; [|done]. rewrite H3. unfold to_come. rewrite Hb. cbn. by rewrite app_nil_r.
  - destruct Ht as [[-> Ht]|(n & s & Ht)].
    + apply by_end. rewrite <- Hd, H3. unfold to_come. rewrite <- Ho, (Hu Ht). cbn. by rewrite app_nil_r.
    + eapply by_fault; [done| |done]. rewrite H3. by exists (to_come ws_limits ws).1.
Qed.

Lemma ev_reading c ws n : at_ c = Reading ws n -> ev_inv c -> ev_inv (step c).
Proof.
  intros Et. unfold ev_inv at 1. rewrite Et. intros (fs & ds & H1 & H2 & H3). cbn [held] in H3.
  unfold thread_step. rewrite Et. cbn [ws_step].
  pose proof (read_frame_spec ws_limits fuel ws (rd_wf _ _ H1) (rd_fuel _ _ H1)) as Hr. unfold wp in Hr.
  assert (Hmore : forall f ws', (forall x, f <> Close x) -> frame_post ws_limits ws (Ok (Some (Some f))) ws' -> reads ws' (fs ++ [f])).
  { intros f ws' Hf (Ha & Hb & Hc & Hd & He). by eapply reads_more. }
  assert (Hplain : forall f ws', frame_post ws_limits ws (Ok (Some (Some f))) ws' -> (forall x, f <> Close x) ->
    binaries [f] = [] -> looping c ws' None).
  { intros f ws' Hf Hn Hb. exists (fs ++ [f]), ds. split_and!; [by apply Hmore|done|].
    cbn [held]. by rewrite binaries_app, Hb, app_nil_r. }
  destruct (read_frame ws_limits fuel ws) as [ws' [[[f|]|]|e]]; [destruct f as [b|b|b|b|x]| | |]; unfold ev_inv; cbn [at_].
  - exists (fs ++ [Binary b]), ds. split_and!; [by apply Hmore|done|]. cbn [held]. by rewrite binaries_app, H3.
  - by eapply Hplain.
  - unfold send_pong. destruct (send_frame (mask n) OP_PONG b ws') as [ws'' o] eqn:Es.
    eapply (looping_keeps c); [done|done|by eapply sends_same_reader|by eapply Hplain].
  - by eapply Hplain.
  - exists ds. split; [done|]. destruct Hr as (_ & Ho & Hh & Hi & _).
    eapply (by_close _ fs x (to_come ws_limits ws').1); [|by apply H1|done].
    rewrite (rd_rest _ _ H1), (after_got ws_limits ws ws' _ Ho Hh Hi). done.
  - destruct Hr as ((Ha & Hb & Hc) & _). exists fs, ds. split_and!; [|done|done].
    destruct H1 as [_ Hf Hw Ho]. split; [done|lia| |done]. unfold to_come in *. by rewrite Hb.
  - done.
  - exists ds. split; [done|]. by eapply reads_error.
Qed.

Lemma ev_finishing c w r : at_ c = Finishing w r -> ev_inv c -> ev_inv (step c).
Proof.
  intros Et. unfold ev_inv at 1. rewrite Et. destruct w as [ws|]; [|done]. intros (ds & H1 & H2).
  unfold thread_step. rewrite Et. cbn [ws_step].
  destruct (try_send_event_cases (Disconnected r) (sh c)) as [[-> Hl]|[(-> & _)|[-> Hl]]]; unfold ev_inv; cbn [at_].
  - exists ds, r. split; [done|]. by left.
  - by exists ds.
  - exists ds, r. split; [done|]. right. destruct H1 as [H1|[H1 _]]; [|congruence].
    unfold pushed in *. cbn. by rewrite (assoc_L (++)), H1.
Qed.

Lemma ev_own c : ev_inv c -> ev_inv (step c).
Proof.
  intros Hi. destruct (at_ c) as [ws|ws n p|ws n p|ws n p j|ws n p|ws n|ws r|ws r|ws] eqn:Et;
    [by eapply ev_announcing| | |by eapply ev_writing|by eapply ev_forwarding|by eapply ev_reading| |by eapply ev_finishing|];
    revert Hi; unfold ev_inv at 1; rewrite Et; intros Hi; unfold thread_step; rewrite Et; cbn [ws_step].
  - destruct (shutdown (sh c)); [|done]. destruct (looping_ends _ _ _ Hi) as (ds & H1 & H2 & _). by exists ds.
  - by destruct (queue (sh c)).
  - done.
  - by destruct ws.
Qed.

Lemma ev_play ms : forall c, ev_inv c -> ev_inv (play mask fuel ms c).
Proof.
  induction ms as [|m ms IH]; intros c Hi; [done|]. apply IH. destruct m; [by apply ev_own|by apply ev_user].
Qed.

Lemma ev_start : plenty leftover s0 fuel -> ev_inv start.
Proof using Type.
  intros Hf. split; [|done]. split; [apply fresh_cwf|by apply fresh_measure| |by intros x ?%not_elem_of_nil].
  unfold whole. rewrite <- messages_meaning, <- fresh_to_come. by destruct (to_come _ _).
Qed.

(** C7. The events of a connection are what its wire says.  Whatever the
    users do in between (sends, receives, disconnects, dropping either end)
    and however the peer's bytes are cut: the event channel is given
    [Connected], then the payloads of the connection's binary messages in
    order, none lost and none twice, then at most one [Disconnected], the
    last event.  The reason it gives is true: after a server's close or a
    protocol error every binary message before it was delivered, after the
    end of the stream all of them, and when the thread gives up itself at
    most the one message it was holding is missing.  A thread that exits
    while someone is listening has told so. *)
Theorem transport_events_are_the_wire ms :
  plenty leftover s0 fuel ->
  let c := play mask fuel ms start in
  exists ds, ds `prefix_of` binaries whole.1 /\
    (pushed c = [] \/ pushed c = Connected :: map DataReceived ds \/
     exists reason, pushed c = Connected :: map DataReceived ds ++ [Disconnected reason] /\ ending ds reason) /\
    (forall w, at_ c = Exited w -> listening (sh c) = true -> exists reason, last (pushed c) = Some (Disconnected reason)).
Proof.
  intros Hf c. assert (Hi : ev_inv c) by by apply ev_play, ev_start.
  assert (Hfeed : forall ds, feed c ds -> pushed c = [] \/ pushed c = Connected :: map DataReceived ds \/
    exists reason, pushed c = Connected :: map DataReceived ds ++ [Disconnected reason] /\ ending ds reason)
    by (unfold feed; naive_solver).
  assert (Hloop : forall ws p, looping c ws p -> exists ds, feed c ds /\ ds `prefix_of` binaries whole.1).
  { intros ws p (ds & H1 & H2 & _)%looping_ends. exists ds. split; [done|by eapply ending_prefix]. }
  revert Hi. unfold ev_inv. destruct (at_ c) as [ws|ws n p|ws n p|ws n p j|ws n p|ws n|ws r|[ws|] r|[ws|]] eqn:Et; try done.
  { intros [_ H]. exists []. split_and!; [apply prefix_nil|by left|done]. }
  1-5: intros (ds & H1 & H2)%Hloop; exists ds; by split_and!; [|apply Hfeed|].
  1-2: intros (ds & H1 & H2); exists ds; by split_and!; [eapply ending_prefix|apply Hfeed|].
  intros (ds & r & H1 & H2). exists ds. split; [by eapply ending_prefix|]. destruct H2 as [[H2 H3]|H2].
  - split; [by apply Hfeed|]. intros _ _. congruence.
  - split; [right; right; by exists r|]. intros _ _ _. exists r. rewrite H2, app_comm_cons. apply last_snoc.
Qed.
End Events.
