(* ===== verification/TransportWrites.v ===== *)
(** * What the transport writes

    The jobs of [send] against the bytes handed to the peer, and how soon a
    job is answered. *)

From S2P Require Import Prelude Platform RustStr HttpClient Io Ws WsSpec WsTheorems WsDuplex WsHandshake Transport TransportEvents.
#[local] Set Default Proof Using "All".

Section Writes.
Context {S : Type} `{!Reader S, !Writer S, lawsR : !ReaderLaws S, lawsW : !WriterLaws S,
  lawsD : !DuplexLaws S, board : Board}.
Context (mask : nat -> bytes) (mask_len : forall k, len (mask k) = 4) (fuel : nat) (s0 : S) (leftover : bytes).
Implicit Types (c : config (S := S)) (ws : WsClient S).

Abbreviation start := (start s0 leftover).

(** ** Jobs *)

(** The job that is out of the queue and not yet answered. *)
Definition in_flight (t : thread (S := S)) : list WriteJob :=
  match t with Writing _ _ _ job => [job] | _ => [] end.
Definition client (t : thread (S := S)) : option (WsClient S) :=
  match t with
  | Announcing ws | Top ws _ _ | Draining ws _ _ | Writing ws _ _ _ | Forwarding ws _ _
  | Reading ws _ | Leaving ws _ => Some ws
  | Finishing ws _ | Exited ws => ws
  end.
(** The receiving end of the queue is dropped. *)
Definition retired (t : thread (S := S)) : bool :=
  match t with Finishing (Some _) _ | Exited _ => true | _ => false end.

(** The payloads of the jobs that were answered with a success. *)
Definition written (done : list WriteJob) (cs : list (nat * completion)) : list bytes :=
  omap (fun '(job, (_, r)) => match r with Wrote (Ok _) => Some (data job) | _ => None end) (zip done cs).

(** The payloads of the binary frames that went out whole. *)
Definition sent_binaries (outs : list attempt) : list bytes :=
  omap (fun a => if a_whole a && (a_op a =? OP_BINARY) then Some (a_payload a) else None) outs.

(** The accepted jobs are numbered in order; those answered are at the
    front, each with one answer, then the one in flight, then the queue. *)
Record jobs_ok c (done : list WriteJob) : Prop := {
  jo_accepted : accepted c = done ++ in_flight (at_ c) ++ queue (sh c);
  jo_answers : map fst (completions (sh c)) = map completed done;
  jo_numbers : map completed (accepted c) = seq 0 (length (accepted c));
  jo_sizes : Forall (fun job => len (data job) < 2 ^ 64) (accepted c);
  jo_cap : len (queue (sh c)) <= SEND_QUEUE_CAP;
  jo_open : queue_open (sh c) = negb (retired (at_ c));
  jo_retired : retired (at_ c) = true -> queue (sh c) = [];
}.

(** The outgoing bytes are those of the attempts made so far. *)
Definition wire_ok c (done : list WriteJob) (outs : list attempt) : Prop :=
  Forall attempt_ok outs /\ sent_binaries outs = written done (completions (sh c)) /\
  forall ws, client (at_ c) = Some ws -> sent (stream ws) = sent s0 ++ concat (map a_bytes outs).

Definition wr_inv c : Prop := exists done outs, jobs_ok c done /\ wire_ok c done outs.

Definition user_ok (u : user) : Prop :=
  match u with Send payload => len payload < 2 ^ 64 | _ => True end.
Definition move_ok (m : move) : Prop := match m with Own => True | User u => user_ok u end.

Lemma written_snoc done cs job r : length done = length cs ->
  written (done ++ [job]) (cs ++ [r]) = written done cs ++ written [job] [r].
Proof. intros H. unfold written. by rewrite zip_with_app, omap_app. Qed.

Lemma written_canceled q : forall cs done, length done = length cs ->
  written (done ++ q) (cs ++ map (fun job => (completed job, Canceled)) q) = written done cs.
Proof.
  intros cs done H. unfold written. rewrite zip_with_app, omap_app by done.
  replace (omap _ (zip q _)) with (@nil bytes); [by rewrite app_nil_r|].
  clear H. induction q as [|j q IH]; [done|]. cbn. apply IH.
Qed.

Lemma answers_length c done : jobs_ok c done -> length done = length (completions (sh c)).
Proof. intros [_ H _ _ _ _ _]. apply (f_equal length) in H. by rewrite !length_map in H. Qed.

Lemma sent_binaries_snoc outs a : sent_binaries (outs ++ [a]) = sent_binaries outs ++ sent_binaries [a].
Proof. apply omap_app. Qed.
Lemma concat_bytes_snoc outs a :
  concat (map a_bytes (outs ++ [a])) = concat (map a_bytes outs) ++ a_bytes a.
Proof. rewrite map_app, concat_app. cbn. by rewrite app_nil_r. Qed.

(** ** The users *)

Lemma wr_user u c : user_ok u -> wr_inv c -> wr_inv (user_step u c).
Proof.
  intros Hu (done & outs & Hj & Hw). exists done, outs.
  destruct u as [payload| | | |]; cbn [user_step]; try by (split; [destruct Hj; split|]).
  - unfold try_send_job. rewrite (jo_open _ _ Hj). destruct (retired (at_ c)) eqn:Er; cbn [negb].
    { split; [by destruct Hj; split|done]. }
    destruct (Z.leb_spec SEND_QUEUE_CAP (len (queue (sh c)))) as [Hf|Hf].
    { split; [by destruct Hj; split|done]. }
    split; [|done]. destruct Hj as [H1 H2 H3 H4 H5 H6 H7]. split; cbn.
    + by rewrite H1, <- !(assoc_L (++)).
    + done.
    + rewrite map_app, H3, length_app, seq_app. done.
    + by apply Forall_app; split; [|apply Forall_singleton].
    + len_lia.
    + done.
    + by rewrite Er.
  - destruct (events (sh c)); (split; [destruct Hj; split|]); done.
Qed.

(** ** The thread *)

(** A step of the thread that answers nothing and sends nothing. *)
Lemma wr_quiet c s' t' : wr_inv c ->
  completions s' = completions (sh c) -> queue_open s' = queue_open (sh c) ->
  in_flight t' ++ queue s' = in_flight (at_ c) ++ queue (sh c) -> len (queue s') <= len (queue (sh c)) ->
  retired t' = retired (at_ c) ->
  (forall ws', client t' = Some ws' -> exists ws, client (at_ c) = Some ws /\ same_sent ws ws') ->
  wr_inv (Config s' t' (accepted c) (received c)).
Proof.
  intros (done & outs & [H1 H2 H3 H4 H5 H6 H7] & (W1 & W2 & W3)) Ec Eo Eq El Er Hc. exists done, outs.
  split; [split; cbn; rewrite ?Ec, ?Eo, ?Er; try done|split_and!; cbn; rewrite ?Ec; try done].
  - by rewrite H1, Eq.
  - lia.
  - intros Hr. specialize (H7 Hr). rewrite H7 in El. unfold len in El. destruct (queue s'); [done|cbn in El; lia].
  - intros ws' Hw. destruct (Hc ws' Hw) as (ws & Hw1 & Hw2). rewrite <- (W3 ws Hw1). apply Hw2.
Qed.

(** A control frame goes out, or a part of it. *)
Lemma wr_control c s' t' n op payload ws ws' : wr_inv c -> OP_CLOSE <= op < 16 ->
  completions s' = completions (sh c) -> queue_open s' = queue_open (sh c) ->
  in_flight t' ++ queue s' = in_flight (at_ c) ++ queue (sh c) -> len (queue s') <= len (queue (sh c)) ->
  retired t' = retired (at_ c) ->
  client (at_ c) = Some ws -> same_sent ws ws' ->
  client t' = Some (send_frame (mask n) op payload ws').1 ->
  wr_inv (Config s' t' (accepted c) (received c)).
Proof.
  intros (done & outs & Hj & (W1 & W2 & W3)) Hop Ec Eo Eq El Er Hc Hs Ht.
  assert (Hat := send_frame_attempt (mask n) op payload ws' (mask_len n)
    ltac:(unfold OP_CLOSE in *; lia) ltac:(right; lia)).
  unfold wp in Hat. destruct (send_frame (mask n) op payload ws') as [ws'' o]. cbn [fst] in Ht.
  destruct Hat as (a & Ha & Hb & Hp & _ & Hsent). exists done, (outs ++ [a]).
  destruct Hj as [H1 H2 H3 H4 H5 H6 H7].
  split; [split; cbn; rewrite ?Ec, ?Eo, ?Er; try done|split_and!; cbn; rewrite ?Ec; try done].
  - by rewrite H1, Eq.
  - lia.
  - intros Hr. specialize (H7 Hr). rewrite H7 in El. unfold len in El. destruct (queue s'); [done|cbn in El; lia].
  - by apply Forall_app; split; [|apply Forall_singleton].
  - rewrite sent_binaries_snoc, W2. cbn. rewrite Hb. unfold OP_BINARY, OP_CLOSE in *.
    destruct (Z.eqb_spec op 2); [lia|]. rewrite andb_false_r. by rewrite app_nil_r.
  - intros w Hw. rewrite Ht in Hw. injection Hw as <-. rewrite concat_bytes_snoc, (assoc_L (++)), <- (W3 ws Hc), Hsent.
    by rewrite Hs.
Qed.

Abbreviation step := (thread_step mask fuel).

Lemma wr_writing c ws n p job : at_ c = Writing ws n p job -> wr_inv c -> wr_inv (step c).
Proof.
  intros Et (done & outs & Hj & (W1 & W2 & W3)). assert (Hl := answers_length _ _ Hj).
  destruct Hj as [H1 H2 H3 H4 H5 H6 H7]. rewrite Et in *.
  assert (Hsize : len (data job) < 2 ^ 64).
  { rewrite H1 in H4. apply Forall_app in H4 as [_ H4]. by apply Forall_cons in H4 as [H4 _]. }
  unfold thread_step. rewrite Et. cbn [ws_step]. unfold perform, send_binary.
  assert (Hat := send_frame_attempt (mask n) OP_BINARY (data job) ws (mask_len n)
    ltac:(unfold OP_BINARY; lia) ltac:(by left)).
  unfold wp in Hat. destruct (send_frame (mask n) OP_BINARY (data job) ws) as [ws' o].
  destruct Hat as (a & Ha & Hb & Hp & Hwh & Hsent).
  assert (Hout : forall s' t' r, t' = Draining ws' (Datatypes.S n) p \/ (exists e, t' = Leaving ws' e) ->
    s' = complete (completed job) (Wrote r) (sh c) -> is_ok r = is_ok o ->
    wr_inv (Config s' t' (accepted c) (received c))).
  { intros s' t' r Ht -> Hr. exists (done ++ [job]), (outs ++ [a]).
    assert (Hret : retired t' = false /\ in_flight t' = [] /\ client t' = Some ws').
    { destruct Ht as [->|[e ->]]; by split_and!. }
    destruct Hret as (Hr1 & Hr2 & Hr3).
    split; [split; cbn; rewrite ?Hr1, ?Hr2; try done|split_and!; cbn].
    - by rewrite H1, <- (assoc_L (++)).
    - by rewrite !map_app, H2.
    - by apply Forall_app; split; [|apply Forall_singleton].
    - rewrite sent_binaries_snoc, W2, written_snoc by done. f_equal. cbn. rewrite Hb, Hwh, <- Hr, Hp. by destruct r.
    - intros w Hw. rewrite Hr3 in Hw. injection Hw as <-. by rewrite concat_bytes_snoc, (assoc_L (++)), <- (W3 ws eq_refl), Hsent. }
  destruct o as [u|e]; (eapply Hout; [|done|done]); [by left|right; by eexists].
Qed.

Lemma wr_drop c t' : client t' = client (at_ c) -> in_flight (at_ c) = [] -> in_flight t' = [] ->
  retired t' = true -> forall s', queue s' = queue (sh c) -> completions s' = completions (sh c) ->
  wr_inv c -> wr_inv (Config (drop_queue s') t' (accepted c) (received c)).
Proof.
  intros Ht Hf Hf' Hr s' Eq Ec (done & outs & Hj & (W1 & W2 & W3)). assert (Hl := answers_length _ _ Hj).
  destruct Hj as [H1 H2 H3 H4 H5 H6 H7]. rewrite Hf in H1. exists (done ++ queue (sh c)), outs.
  split; [split; cbn; rewrite ?Hr, ?Hf', ?Eq, ?Ec; try done|split_and!; cbn; rewrite ?Eq, ?Ec; try done].
  - by rewrite H1, app_nil_r.
  - rewrite !map_app, H2. f_equal. by rewrite map_map.
  - rewrite len_nil. etrans; [apply (len_nonneg (queue (sh c)))|done].
  - by rewrite written_canceled.
  - intros w Hw. apply W3. by rewrite <- Ht.
Qed.

Lemma wr_reading c ws n : at_ c = Reading ws n -> wr_inv c -> wr_inv (step c).
Proof.
  intros Et Hi. unfold thread_step. rewrite Et. cbn [ws_step].
  assert (Hs := silent_read_frame ws_limits fuel ws).
  destruct (read_frame ws_limits fuel ws) as [ws' [[[f|]|]|e]]; [destruct f as [b|b|b|b|x]| | |]; cbn [fst] in Hs;
    try (eapply wr_quiet; rewrite ?Et; try done; intros w [= <-]; by exists ws).
  - by eapply (wr_control c _ _ n OP_PONG b ws ws'); rewrite ?Et.
  - by eapply (wr_control c _ _ n OP_CLOSE (be_bytes 2 1000) ws ws'); rewrite ?Et.
Qed.

Lemma try_send_event_jobs e s s' r : try_send_event e s = (s', r) ->
  completions s' = completions s /\ queue_open s' = queue_open s /\ queue s' = queue s.
Proof.
  intros E. destruct (try_send_event_cases e s) as [[H _]|[(H & _)|[H _]]]; rewrite H in E; by injection E as <- _.
Qed.

Lemma wr_own c : wr_inv c -> wr_inv (step c).
Proof.
  intros Hi. destruct (at_ c) as [ws|ws n p|ws n p|ws n p j|ws n p|ws n|ws r|w r|w] eqn:Et;
    [| | |by eapply wr_writing| |by eapply wr_reading| | |]; unfold thread_step; rewrite Et; cbn [ws_step].
  - destruct (try_send_event Connected (sh c)) as [s' r] eqn:Es. apply try_send_event_jobs in Es as (E1 & E2 & E3).
    destruct r; (eapply wr_quiet; rewrite ?Et, ?E3; try done; intros w [= <-]; by exists ws).
  - destruct (shutdown (sh c)).
    + by eapply (wr_control c _ _ n OP_CLOSE (be_bytes 2 1000) ws ws); rewrite ?Et.
    + eapply wr_quiet; rewrite ?Et; try done. intros w [= <-]. by exists ws.
  - destruct (queue (sh c)) as [|job rest] eqn:Eq.
    + eapply wr_quiet; rewrite ?Et; try done. intros w [= <-]. by exists ws.
    + eapply wr_quiet; rewrite ?Et, ?Eq; try done; [cbn; len_lia|]. intros w [= <-]. by exists ws.
  - unfold forward_pending. destruct p as [e|].
    2: { eapply wr_quiet; rewrite ?Et; try done. intros w [= <-]. by exists ws. }
    destruct (try_send_event e (sh c)) as [s' r] eqn:Es. apply try_send_event_jobs in Es as (E1 & E2 & E3).
    destruct r; (eapply wr_quiet; rewrite ?Et, ?E3; try done; intros w [= <-]; by exists ws).
  - eapply wr_drop; rewrite ?Et; try done.
  - destruct (try_send_event (Disconnected r) (sh c)) as [s' o] eqn:Es. apply try_send_event_jobs in Es as (E1 & E2 & E3).
    destruct o; [by eapply wr_drop; rewrite ?Et| |by eapply wr_drop; rewrite ?Et].
    eapply wr_quiet; rewrite ?Et, ?E3; try done. intros w' Hw. by exists w'.
  - eapply wr_quiet; rewrite ?Et; try done. intros w' Hw. by exists w'.
Qed.

Lemma wr_play ms : forall c, Forall move_ok ms -> wr_inv c -> wr_inv (play mask fuel ms c).
Proof.
  induction ms as [|m ms IH]; intros c Hm Hi; [done|]. apply Forall_cons in Hm as [Hm Hms]. apply IH; [done|].
  destruct m; [by apply wr_own|by apply wr_user].
Qed.

Lemma wr_start : wr_inv start.
Proof.
  exists [], []. split; [split; cbn; try done|split_and!; cbn; try done].
  - unfold SEND_QUEUE_CAP. by destruct has_psram.
  - intros ws [= <-]. by rewrite app_nil_r.
Qed.

(** C8. Every accepted send is written and answered once, in order.  Whatever
    the interleaving: the jobs that were answered are the first that were
    accepted, in the order they were accepted, one answer each; a job
    answered with a success went out as one whole masked binary frame with
    its payload, and these frames go out in that order, among nothing but
    pongs and closes; the queue never holds more than its capacity; and when
    the thread has exited every job that was accepted has its answer, a
    cancellation if it was not written. *)
Theorem sends_are_written_in_order ms :
  Forall move_ok ms ->
  let c := play mask fuel ms start in
  exists done outs,
    accepted c = done ++ in_flight (at_ c) ++ queue (sh c) /\
    map fst (completions (sh c)) = map completed done /\
    map completed (accepted c) = seq 0 (length (accepted c)) /\
    len (queue (sh c)) <= SEND_QUEUE_CAP /\
    Forall attempt_ok outs /\
    sent_binaries outs = written done (completions (sh c)) /\
    (forall ws, client (at_ c) = Some ws -> sent (stream ws) = sent s0 ++ concat (map a_bytes outs)) /\
    (retired (at_ c) = true -> done = accepted c).
Proof.
  intros Hm c. destruct (wr_play ms start Hm wr_start) as (done & outs & [H1 H2 H3 H4 H5 H6 H7] & (W1 & W2 & W3)).
  fold c in H1, H2, H3, H4, H5, H6, H7, W2, W3. exists done, outs. split_and!; try done.
  intros Hr. rewrite H1, (H7 Hr). destruct (at_ c); try done; by rewrite app_nil_r.
Qed.
(** ** Progress *)

Definition answered (i : nat) c : Prop := (i < length (completions (sh c)))%nat.

(** The thread's steps until it answers the job that [k] others are ahead
    of. *)
Definition wait (t : thread (S := S)) (k : nat) : nat :=
  match t with
  | Announcing _ | Reading _ _ => 2 * k + 4
  | Top _ _ _ => 2 * k + 3
  | Draining _ _ _ => 2 * k + 2
  | Writing _ _ _ _ => 2 * k + 1
  | Forwarding _ _ _ => 2 * k + 5
  | Leaving _ _ => 1
  | Finishing _ _ | Exited _ => 0
  end%nat.
Definition left_of (i : nat) c : nat := wait (at_ c) (i - length (completions (sh c))).

Lemma accepted_length c : wr_inv c ->
  length (accepted c) = (length (completions (sh c)) + length (in_flight (at_ c)) + length (queue (sh c)))%nat.
Proof.
  intros (done & outs & Hj & _). rewrite <- (answers_length _ _ Hj), (jo_accepted _ _ Hj), !length_app. lia.
Qed.

Lemma answered_in c i : wr_inv c -> answered i c -> i ∈ map fst (completions (sh c)).
Proof.
  intros (done & outs & Hj & _) Hi. unfold answered in Hi. rewrite <- (answers_length _ _ Hj) in Hi.
  destruct Hj as [H1 H2 H3 _ _ _ _]. rewrite H2. apply (f_equal (lookup i)) in H3. revert H3.
  rewrite H1, map_app, lookup_app_l by by rewrite length_map.
  rewrite lookup_seq_lt by (rewrite length_app; lia). apply list_elem_of_lookup_2.
Qed.

(** The channel is empty when [Connected] is sent. *)
Lemma announcing_room c ws : at_ c = Announcing ws -> ev_inv fuel s0 leftover c -> events_full (sh c) = false.
Proof.
  intros Et. unfold ev_inv. rewrite Et. intros [_ Hp]. unfold pushed in Hp. apply app_eq_nil in Hp as [_ Hp].
  unfold events_full, event_capacity. destruct has_psram; [done|]. by rewrite Hp.
Qed.

Lemma own_progress c i : ev_inv fuel s0 leftover c -> wr_inv c -> (i < length (accepted c))%nat -> ~ answered i c ->
  answered i (step c) \/ (left_of i (step c) < left_of i c)%nat.
Proof.
  intros He Hw Hi Hn. rewrite (accepted_length c Hw) in Hi. unfold answered, left_of in *.
  destruct (at_ c) as [ws|ws n p|ws n p|ws n p j|ws n p|ws n|ws r|w r|w] eqn:Et; unfold thread_step; rewrite Et; cbn [ws_step].
  - assert (Hf := announcing_room c ws Et He).
    destruct (try_send_event_cases Connected (sh c)) as [[-> _]|[(_ & _ & Hf')|[-> _]]]; [|congruence|];
      right; cbn [at_ wait sh set_events completions]; lia.
  - destruct (shutdown (sh c)); right; cbn [at_ wait sh]; lia.
  - destruct (queue (sh c)) as [|job rest] eqn:Eq; [cbn in Hi; lia|]. right. cbn [at_ wait sh set_queue completions]. lia.
  - unfold perform. destruct (send_binary (mask n) (data j) ws) as [ws' [u|e]]; cbn [at_ wait sh complete completions];
      rewrite length_app; cbn [length]; lia.
  - unfold forward_pending. destruct p as [e|]; [|right; cbn [at_ wait sh]; lia].
    destruct (try_send_event_cases e (sh c)) as [[-> _]|[(-> & _)|[-> _]]];
      right; cbn [at_ wait sh set_events completions]; lia.
  - revert He. unfold ev_inv. rewrite Et. intros (fs & ds & Hr & _).
    pose proof (read_frame_spec ws_limits fuel ws (rd_wf _ _ _ _ _ Hr) (rd_fuel _ _ _ _ _ Hr)) as Hp. unfold wp in Hp.
    destruct (read_frame ws_limits fuel ws) as [ws' [[[f|]|]|e]]; [destruct f| |done|];
      right; cbn [at_ wait sh]; lia.
  - left. cbn [sh drop_queue completions in_flight length] in *. rewrite length_app, length_map. lia.
  - destruct w as [ws|]; [|by (revert He; unfold ev_inv; rewrite Et)].
    destruct Hw as (done & outs & Hj & _). assert (Hq := jo_retired _ _ Hj). rewrite Et in Hq.
    rewrite (Hq eq_refl) in Hi. cbn in Hi. lia.
  - destruct Hw as (done & outs & Hj & _). assert (Hq := jo_retired _ _ Hj). rewrite Et in Hq.
    rewrite (Hq eq_refl) in Hi. cbn in Hi. lia.
Qed.

(** The users neither answer nor delay. *)
Lemma user_progress u c i : (i < length (accepted c))%nat ->
  (i < length (accepted (user_step u c)))%nat /\ left_of i (user_step u c) = left_of i c /\
  (answered i (user_step u c) <-> answered i c).
Proof.
  intros Hi. unfold left_of, answered. destruct u as [payload| | | |]; cbn [user_step]; try done.
  - unfold try_send_job. destruct (queue_open (sh c)); cbn [negb]; [|done].
    destruct (SEND_QUEUE_CAP <=? _); [done|]. cbn. rewrite length_app. split_and!; [lia|done..].
  - by destruct (events (sh c)).
Qed.

Lemma step_accepted c : accepted (step c) = accepted c.
Proof. unfold thread_step. by destruct (ws_step _ _ _ _). Qed.
Lemma answered_step c i : wr_inv c -> answered i c -> answered i (step c).
Proof.
  intros (done & outs & Hj & _) Hi. unfold answered in *. unfold thread_step.
  destruct (at_ c) as [ws|ws n p|ws n p|ws n p j|ws n p|ws n|ws r|w r|w]; cbn [ws_step].
  - destruct (try_send_event_cases Connected (sh c)) as [[-> _]|[(-> & _)|[-> _]]]; done.
  - by destruct (shutdown (sh c)).
  - by destruct (queue (sh c)).
  - unfold perform. destruct (send_binary (mask n) (data j) ws) as [ws' [u|e]]; cbn; rewrite length_app; lia.
  - unfold forward_pending. destruct p as [e|]; [|done].
    by destruct (try_send_event_cases e (sh c)) as [[-> _]|[(-> & _)|[-> _]]].
  - by destruct (read_frame ws_limits fuel ws) as [ws' [[[[]|]|]|e]].
  - cbn. rewrite length_app. lia.
  - destruct (try_send_event_cases (Disconnected r) (sh c)) as [[-> _]|[(-> & _)|[-> _]]]; cbn; rewrite ?length_app; lia.
  - done.
Qed.

Lemma play_keeps_answer i ms : forall c,
  wr_inv c -> Forall move_ok ms -> answered i c -> answered i (play mask fuel ms c).
Proof.
  induction ms as [|m ms IH]; intros c Hw Hm Ha; [done|]. apply Forall_cons in Hm as [Hm Hms].
  destruct m as [|u]; apply IH; cbn [move_step]; try done; [by apply wr_own|by apply answered_step|by apply wr_user|].
  unfold answered in *. destruct u as [payload| | | |]; cbn [user_step]; try done.
  - unfold try_send_job. destruct (queue_open (sh c)); cbn [negb]; [|done]. by destruct (SEND_QUEUE_CAP <=? _).
  - by destruct (events (sh c)).
Qed.

Lemma play_answers ms i : forall c, ev_inv fuel s0 leftover c -> wr_inv c -> Forall move_ok ms ->
  (i < length (accepted c))%nat ->
  answered i (play mask fuel ms c) \/ (left_of i (play mask fuel ms c) + own_steps ms <= left_of i c)%nat.
Proof.
  induction ms as [|m ms IH]; intros c He Hw Hm Hi; [right; cbn; lia|].
  apply Forall_cons in Hm as [Hm Hms]. change (play mask fuel (m :: ms) c) with (play mask fuel ms (move_step mask fuel c m)).
  destruct m as [|u]; cbn [move_step].
  - change (own_steps (Own :: ms)) with (Datatypes.S (own_steps ms)).
    destruct (decide (i < length (completions (sh c)))%nat) as [Ha|Ha]; [left; apply play_keeps_answer; [by apply wr_own|done|by apply answered_step]|].
    destruct (own_progress c i He Hw Hi Ha) as [Ha'|Hl]; [left; apply play_keeps_answer; [by apply wr_own|done|done]|].
    destruct (IH (step c)) as [H|H]; [by apply ev_own|by apply wr_own|done|by rewrite step_accepted|by left|right; lia].
  - change (own_steps (User u :: ms)) with (own_steps ms). destruct (user_progress u c i Hi) as (H1 & H2 & H3).
    destruct (IH (user_step u c)) as [H|H]; [by apply ev_user|by apply wr_user|done|done|by left|right; lia].
Qed.

(** C9. A full event channel never holds up a write.  However the receiver
    delays, and whatever the users do meanwhile: a job that was accepted is
    answered within twice the queue's length, at most twice its capacity, and
    a few more steps of the thread.  So a receiver that waits for its own
    write to complete before it takes the next event is never waited for in
    turn. *)
Theorem sends_are_answered ms more i :
  plenty leftover s0 fuel -> Forall move_ok ms -> Forall move_ok more ->
  let c := play mask fuel ms start in
  let d := play mask fuel more c in
  (i < length (accepted c))%nat -> (2 * length (queue (sh c)) + 4 <= own_steps more)%nat ->
  i ∈ map fst (completions (sh d)).
Proof.
  intros Hf Hms Hmore c d Hi Hn. assert (He : ev_inv fuel s0 leftover c) by by apply ev_play, ev_start.
  assert (Hw : wr_inv c) by by apply wr_play; [|apply wr_start].
  apply answered_in; [by apply wr_play|].
  destruct (decide (i < length (completions (sh c)))%nat) as [Ha|Ha]; [by apply play_keeps_answer|].
  destruct (play_answers more i c He Hw Hmore Hi) as [H|H]; [done|].
  exfalso. rewrite (accepted_length c Hw) in Hi. unfold left_of in H. destruct (at_ c); cbn [wait in_flight length] in *; lia.
Qed.
End Writes.
