(* ===== verification/TransportWitness.v ===== *)
(** * The transport on a board without external RAM

    A peer that sends two binary messages and a ping, cut badly, and then
    closes; a user that sends twice and is slow to receive. *)

From S2P Require Import Prelude Platform RustStr HttpClient Io Ws WsSpec WsReference WsTheorems WsDuplex WsHandshake Transport TransportEvents TransportWrites.

#[local] Instance internal_ram : Board := false.

Definition talkative : script :=
  Script [Data [x82]; Fault WouldBlock; Data [x01; x61; x89; x01; x21; x82; x02]; Fault TimedOut; Data [x62; x63];
          Data [x88; x02; x03; xe8]] [] None.
Definition fixed_mask (k : nat) : bytes := [x01; x02; x03; x04].
Definition slow : list move :=
  [Own; User (Send (bs "hi"))] ++ replicate 12 Own ++ [User Receive; User (Send (bs "again"))] ++ replicate 20 Own.
Definition patient : list move := slow ++ [User Receive] ++ replicate 20 Own ++ [User Receive] ++ replicate 20 Own.

Lemma fixed_mask_len k : len (fixed_mask k) = 4.
Proof. done. Qed.
Lemma slow_ok : Forall move_ok slow.
Proof. repeat constructor. Qed.
Lemma talkative_plenty : plenty [] talkative 40.
Proof. unfold plenty. apply Nat.ltb_lt. by vm_compute. Qed.

Lemma transport_events_are_the_wire_witness :
  let c := play fixed_mask 40 patient (start talkative []) in
  pushed c = [Connected; DataReceived (bs "a"); DataReceived (bs "bc"); Disconnected (ServerClose (Some 1000) [])] /\
  exists ds, ds `prefix_of` [bs "a"; bs "bc"] /\ exists reason, last (pushed c) = Some (Disconnected reason).
Proof.
  intros c. split; [by vm_compute|].
  destruct (transport_events_are_the_wire fixed_mask 40 talkative [] patient talkative_plenty) as (ds & H1 & _ & H2).
  exists ds. split; [by vm_compute in H1|].
  assert (E : exists w, at_ c = Exited w) by (eexists; by vm_compute).
  destruct E as [w E]. apply (H2 w E). by vm_compute.
Defined.

Lemma sends_are_written_in_order_witness :
  let c := play fixed_mask 40 slow (start talkative []) in
  completions (sh c) = [(0%nat, Wrote (Ok tt)); (1%nat, Wrote (Ok tt))] /\
  exists done outs, accepted c = done ++ in_flight (at_ c) ++ queue (sh c) /\
    sent_binaries outs = written done (completions (sh c)).
Proof.
  intros c. split; [by vm_compute|].
  destruct (sends_are_written_in_order fixed_mask fixed_mask_len 40 talkative [] slow slow_ok)
    as (done & outs & H1 & _ & _ & _ & _ & H2 & _).
  exists done, outs. split; [exact H1|exact H2].
Defined.

Lemma sends_are_answered_witness :
  let more := [User (Send (bs "third"))] ++ replicate 8 Own in
  let c := play fixed_mask 40 (slow ++ [User (Send (bs "third"))]) (start talkative []) in
  0%nat ∈ map fst (completions (sh (play fixed_mask 40 more c))).
Proof.
  intros more c. apply (sends_are_answered fixed_mask fixed_mask_len 40 talkative []).
  - exact talkative_plenty.
  - apply Forall_app. split; [exact slow_ok|repeat constructor].
  - repeat constructor.
  - apply Nat.ltb_lt. by vm_compute.
  - apply Nat.leb_le. by vm_compute.
Defined.
