(* ===== verification/Json.v ===== *)
(** * JSON values ([serde_json::Value])

    What the source builds with [json!] and takes apart with [get] and
    [as_str].  The text of a value is the library's; a map keeps the order the
    source writes its keys in, which no reader of it depends on. *)

From S2P Require Import Prelude.

Inductive json :=
| Null
| JBool (b : bool)
| JNumber (z : Z)
| JString (s : bytes)
| JArray (l : list json)
| JObject (fields : list (string * json)).

(** [serde_json::from_slice] and [to_string]. *)
Class SerdeJson := {
  json_text : json -> bytes;
  json_parse : bytes -> option json;
}.

(** [value.get(key)]: of anything but an object, nothing. *)
Definition get_field (key : string) (v : json) : option json :=
  match v with
  | JObject fields => snd <$> find (fun f => bool_decide (f.1 = key)) fields
  | _ => None
  end.
(** [value.as_str()] *)
Definition as_str (v : json) : option bytes :=
  match v with JString s => Some s | _ => None end.

(** [Option<String>] as a JSON value. *)
Definition opt_string (o : option bytes) : json :=
  match o with Some s => JString s | None => Null end.
