(* ===== verification/Runtime.v ===== *)
(** * The runtime ([src/runtime.rs])

    The blocking worker with its one-slot queue, as a machine whose events are
    those of the callers of [execute] and of the worker thread; and the two
    futures of the executor.  The executor itself and the timer are third
    party. *)

From stdpp Require Import functions.
From S2P Require Import Prelude.

(** ** The blocking worker *)

(** A call of [execute], by its number.  [Dropped]: the future was dropped
    while it waited. *)
Inductive caller := Fresh | Sending | Waiting | Completed | Refused | Lost | Dropped.
#[global] Instance caller_eq_dec : EqDecision caller.
Proof. solve_decision. Defined.

(** The thread of [BlockingWorker::start_with].  [Checked]: it has found that
    the call still waits, and is about to enter the closure. *)
Inductive worker := Idle | Received (j : nat) | Checked (j : nat) | Running (j : nat) | Notifying (j : nat) | Gone.
#[global] Instance worker_eq_dec : EqDecision worker.
Proof. solve_decision. Defined.

(** [queue] is the one-slot channel; [completions] the [done] channels that
    hold their message.  The rest is history: the jobs sent, those whose
    closure was entered, and those whose closure returned. *)
Record world := World {
  callers : nat -> caller;
  queue : option nat;
  thread : worker;
  completions : list nat;
  sent : list nat;
  started : list nat;
  finished : list nat;
}.

Definition boot : world := World (fun _ => Fresh) None Idle [] [] [] [].

Definition set_caller (j : nat) (c : caller) (w : world) : world :=
  World (<[j := c]> (callers w)) (queue w) (thread w) (completions w) (sent w) (started w) (finished w).
Definition set_thread (t : worker) (w : world) : world :=
  World (callers w) (queue w) t (completions w) (sent w) (started w) (finished w).

(** [job.done.is_closed()]: the call no longer waits for it. *)
Definition is_closed (j : nat) (w : world) : bool := negb (bool_decide (callers w j = Waiting)).

(** Someone still holds the job, and with it the sender of its [done]. *)
Definition held (j : nat) (w : world) : bool :=
  bool_decide (queue w = Some j) ||
  match thread w with Received i | Checked i | Running i | Notifying i => Nat.eqb i j | Idle | Gone => false end.

Inductive event :=
| Call (j : nat) | Send (j : nat) | Complete (j : nat) | Drop (j : nat)
| Work | Die.

(** [execute] *)
Definition execute_step (e : event) (w : world) : option world :=
  match e with
  | Call j => if decide (callers w j = Fresh) then Some (set_caller j Sending w) else None
  | Send j =>
      if decide (callers w j = Sending) then
        match thread w, queue w with
        | Gone, _ => Some (set_caller j Refused w)
        | _, None =>
            Some (World (<[j := Waiting]> (callers w)) (Some j) (thread w) (completions w) (sent w ++ [j]) (started w) (finished w))
        | _, Some _ => None
        end
      else None
  | Complete j =>
      if decide (callers w j = Waiting) then
        if decide (j ∈ completions w) then Some (set_caller j Completed w)
        else if held j w then None
        else Some (set_caller j Lost w)
      else None
  | Drop j => if decide (callers w j = Sending \/ callers w j = Waiting) then Some (set_caller j Dropped w) else None
  | Work | Die => None
  end.

(** The loop of the worker thread. *)
Definition work (w : world) : option world :=
  match thread w with
  | Idle =>
      match queue w with
      | None => None
      | Some j => Some (World (callers w) None (Received j) (completions w) (sent w) (started w) (finished w))
      end
  | Received j => Some (set_thread (if is_closed j w then Idle else Checked j) w)
  | Checked j => Some (World (callers w) (queue w) (Running j) (completions w) (sent w) (started w ++ [j]) (finished w))
  | Running j =>
      Some (World (callers w) (queue w) (Notifying j) (completions w) (sent w) (started w) (finished w ++ [j]))
  | Notifying j =>
      Some (World (callers w) (queue w) Idle (if is_closed j w then completions w else j :: completions w)
        (sent w) (started w) (finished w))
  | Gone => None
  end.

(** [Die]: a closure panics, where that does not end the process; the thread
    drops the job and its end of the queue. *)
Definition wstep (e : event) (w : world) : option world :=
  match e with
  | Work => work w
  | Die =>
      match thread w with
      | Running _ => Some (World (callers w) None Gone (completions w) (sent w) (started w) (finished w))
      | _ => None
      end
  | _ => execute_step e w
  end.

Inductive steps : world -> world -> Prop :=
| steps_refl w : steps w w
| steps_next w e w1 w2 : wstep e w = Some w1 -> steps w1 w2 -> steps w w2.
Definition reachable (w : world) : Prop := steps boot w.

(** ** The futures of the executor *)

(** [AbortableFuture::poll], over what polling the inner future does: its new
    state, and whether it is ready. *)
Definition abortable_poll {F} (poll : F -> F * bool) (aborted : bool) (inner : F) : F * bool :=
  if aborted then (inner, true) else poll inner.

(** [YieldNow::poll]: the flag, whether it is ready, and whether it woke
    itself. *)
Definition yield_poll (yielded : bool) : bool * bool * bool :=
  if yielded then (true, true, false) else (true, false, true).

(** ** The invariant *)

(** Taken from the queue, or still in it, and not entered. *)
Definition pending (w : world) : list nat :=
  match thread w with Received j | Checked j => [j] | _ => [] end ++ option_list (queue w).
(** Entered, and not returned. *)
Definition in_closure (w : world) : list nat := match thread w with Running j => [j] | _ => [] end.
Definition sends (c : caller) : bool := match c with Fresh | Sending | Refused => false | _ => true end.

Record inv (w : world) : Prop := {
  i_sent j : j ∈ sent w -> callers w j <> Fresh /\ callers w j <> Sending;
  i_once : NoDup (sent w);
  i_order : sublist (started w ++ pending w) (sent w);
  i_finished : sublist (finished w ++ in_closure w) (started w);
  i_notifying j : thread w = Notifying j -> j ∈ finished w;
  i_completions : Forall (.∈ finished w) (completions w);
  i_waiting j : callers w j = Waiting -> j ∈ completions w \/ held j w = true \/ thread w = Gone;
  i_completed j : callers w j = Completed -> j ∈ finished w;
  i_gone : thread w = Gone -> queue w = None;
  i_alive j : callers w j = Lost \/ callers w j = Refused -> thread w = Gone;
}.

Lemma inv_boot : inv boot.
Proof. split; cbn; try done; [set_solver|constructor|intros ? [?|?]; done]. Qed.

Ltac caller_case j i :=
  destruct (decide (i = j)) as [->|]; [rewrite ?fn_lookup_insert in *|rewrite ?fn_lookup_insert_ne in * by done].

(** A call that moves on without sending or finishing. *)
Lemma inv_set_caller j c w : inv w ->
  (j ∈ sent w -> c <> Fresh /\ c <> Sending) -> c <> Waiting ->
  (c = Completed -> j ∈ finished w) -> (c = Lost \/ c = Refused -> thread w = Gone) -> inv (set_caller j c w).
Proof.
  intros [H1 H2 H3 H4 H5 H6 H7 H8 H9 H10] Hs Hw Hc Hl. split; cbn; try done.
  - intros i Hi. caller_case j i; auto.
  - intros i Hi. caller_case j i; [done|]. by apply H7.
  - intros i Hi. caller_case j i; auto.
  - intros i Hi. caller_case j i; eauto.
Qed.

Lemma inv_send j w : inv w -> callers w j = Sending -> queue w = None -> thread w <> Gone ->
  inv (World (<[j := Waiting]> (callers w)) (Some j) (thread w) (completions w) (sent w ++ [j]) (started w) (finished w)).
Proof.
  intros [H1 H2 H3 H4 H5 H6 H7 H8 H9 H10] Hc Hq Ht. unfold pending in H3. rewrite Hq in H3. cbn in H3. rewrite app_nil_r in H3.
  assert (Hns : j ∉ sent w) by (intros Hj; by apply H1 in Hj as [_ ?]).
  split; cbn; try done.
  - intros i Hi. caller_case j i; [done|]. apply elem_of_app in Hi as [Hi|Hi]; [auto|]. by apply list_elem_of_singleton in Hi.
  - apply NoDup_app. split_and!; [done| |apply NoDup_singleton]. intros i Hi Hin. apply list_elem_of_singleton in Hin. by subst.
  - unfold pending. cbn. rewrite (assoc_L (++)). by apply sublist_app.
  - intros i Hi. unfold held. cbn. caller_case j i; [right; left; by rewrite bool_decide_true|].
    destruct (H7 i Hi) as [?|[Hh|?]]; [by left| |done]. right. left. unfold held in Hh.
    rewrite Hq, bool_decide_false in Hh by done. cbn in Hh. rewrite Hh. apply orb_true_r.
  - intros i Hi. caller_case j i; [done|eauto].
  - intros i Hi. caller_case j i; [by destruct Hi|eauto].
Qed.

Lemma inv_execute e w w' : inv w -> execute_step e w = Some w' -> inv w'.
Proof.
  intros Hi. destruct e as [j|j|j|j| |]; cbn [execute_step]; try done.
  - case_decide as Hc; [|done]. intros [= <-]. apply inv_set_caller; [done| |done|done|by intros [?|?]].
    intros Hj. by apply (i_sent w Hi) in Hj as [? _].
  - case_decide as Hc; [|done]. destruct (decide (thread w = Gone)) as [Ht|Ht].
    + rewrite Ht. intros [= <-]. by apply inv_set_caller.
    + intros Hs. destruct (queue w) eqn:Eq; [by destruct (thread w)|].
      assert (w' = World (<[j := Waiting]> (callers w)) (Some j) (thread w) (completions w) (sent w ++ [j]) (started w) (finished w))
        as -> by (destruct (thread w); by simplify_eq).
      by apply inv_send.
  - case_decide as Hc; [|done]. case_decide as Hd.
    + intros [= <-]. apply inv_set_caller; [done|done|done| |by intros [?|?]]. intros _.
      by apply (proj1 (Forall_forall _ _) (i_completions w Hi)).
    + destruct (held j w) eqn:Eh; [done|]. intros [= <-]. apply inv_set_caller; [done|done|done|done|]. intros _.
      destruct (i_waiting w Hi j Hc) as [?|[?|?]]; [done|congruence|done].
  - case_decide as Hc; [|done]. intros [= <-]. apply inv_set_caller; [done|done|done|done|by intros [?|?]].
Qed.

Lemma inv_work w w' : inv w -> work w = Some w' -> inv w'.
Proof.
  intros [H1 H2 H3 H4 H5 H6 H7 H8 H9 H10]. unfold work, is_closed, pending, in_closure, held in *.
  destruct (thread w) as [|j|j|j|j|] eqn:Et; [destruct (queue w) as [j|] eqn:Eq| | | | |]; try done.
  - intros [= <-]. split; cbn; unfold pending, in_closure, held; cbn; try done; try (by intros i Hi; apply H10 in Hi).
    intros i Hi. destruct (H7 i Hi) as [?|[Hh|?]]; [by left| |done]. right. left. rewrite bool_decide_false by done. cbn.
    rewrite orb_false_r in Hh. apply bool_decide_eq_true in Hh. injection Hh as ->. apply Nat.eqb_refl.
  - case_bool_decide as Hc; cbn [negb]; intros [= <-]; (split; cbn; unfold pending, in_closure, held; cbn; try done; try (by intros i Hi; apply H10 in Hi)).
    + intros i Hi. destruct (H7 i Hi) as [?|[Hh|?]]; [by left| |done]. by right; left.
    + etrans; [|exact H3]. apply sublist_app; [done|]. by apply sublist_cons.
    + intros i Hi. destruct (H7 i Hi) as [?|[Hh|?]]; [by left| |done]. right. left.
      destruct (Nat.eqb_spec j i) as [->|]; [done|]. by rewrite orb_false_r in *.
  - intros [= <-]. split; cbn; unfold pending, in_closure, held; cbn; try done; try (by intros i Hi; apply H10 in Hi).
    + by rewrite <- (assoc_L (++)).
    + rewrite app_nil_r in H4. by apply sublist_app.
    + intros i Hi. destruct (H7 i Hi) as [?|[Hh|?]]; [by left| |done]. by right; left.
  - intros [= <-]. split; cbn; unfold pending, in_closure, held; cbn; try done; try (by intros i Hi; apply H10 in Hi).
    + by rewrite app_nil_r.
    + intros i [= ->]. apply elem_of_app. right. by apply list_elem_of_singleton.
    + eapply Forall_impl; [exact H6|]. intros i Hi. apply elem_of_app. by left.
    + intros i Hi. destruct (H7 i Hi) as [?|[?|?]]; [by left|by right; left|done].
    + intros i Hi. apply elem_of_app. left. auto.
  - assert (Hj : j ∈ finished w) by by apply H5. intros [= <-]. split; cbn; unfold pending, in_closure, held; cbn; try done; try (by intros i Hi; apply H10 in Hi).
    + case_bool_decide; cbn; [by constructor|done].
    + intros i Hi. destruct (decide (i = j)) as [->|Hn]; [left; rewrite bool_decide_true by done; by left|].
      destruct (H7 i Hi) as [Hc|[Hh|?]]; [left; case_bool_decide; cbn; [by right|done]| |done].
      right. left. destruct (Nat.eqb_spec j i); [congruence|]. by rewrite orb_false_r in *.
Qed.

Lemma inv_die w w' : inv w -> wstep Die w = Some w' -> inv w'.
Proof.
  intros [H1 H2 H3 H4 H5 H6 H7 H8 H9 H10]. cbn. unfold pending, in_closure in *. destruct (thread w) as [| | |j| |] eqn:Et; try done.
  intros [= <-]. split; cbn; unfold pending, in_closure; cbn; try done.
  - etrans; [|exact H3]. by apply sublist_app; [|apply sublist_nil_l].
  - rewrite app_nil_r. etrans; [|exact H4]. by apply sublist_inserts_r.
  - intros i Hi. auto.
Qed.

Lemma inv_wstep e w w' : inv w -> wstep e w = Some w' -> inv w'.
Proof.
  intros Hi. destruct e; try by apply inv_execute.
  - by apply inv_work.
  - by apply inv_die.
Qed.
Lemma inv_steps w w' : steps w w' -> inv w -> inv w'.
Proof. induction 1 as [|w e w1 w2 Hw _ IH]; intros Hi; [done|]. eapply IH, inv_wstep, Hw. exact Hi. Qed.
Lemma inv_reachable w : reachable w -> inv w.
Proof. intros Hr. eapply inv_steps, inv_boot. exact Hr. Qed.

(** A call that was dropped, and that the worker has not found waiting. *)
Definition abandoned (j : nat) (w : world) : Prop :=
  callers w j = Dropped /\ thread w <> Checked j /\ j ∉ started w.

Lemma dropped_step e w w' j : wstep e w = Some w' -> abandoned j w -> abandoned j w'.
Proof.
  intros Hw (Hd & Ht & Hn). destruct e as [i|i|i|i| |]; cbn in Hw.
  1-4: case_decide as Hc; [|done]; assert (i <> j) by (intros ->; rewrite Hd in Hc; naive_solver);
    repeat (case_match || case_decide); simplify_eq; unfold abandoned; cbn; rewrite fn_lookup_insert_ne by done; split_and!; congruence.
  - unfold work, is_closed in Hw. unfold abandoned.
    destruct (thread w) as [|i|i|i|i|] eqn:Et; [destruct (queue w)| | | | |]; simplify_eq; cbn; try by split_and!.
    + split_and!; [done| |done]. case_bool_decide as Hc; cbn; [|done]. intros [= ->]. congruence.
    + split_and!; [done|done|]. intros Hj. apply elem_of_app in Hj as [?|Hj]; [done|].
      apply list_elem_of_singleton in Hj. congruence.
  - unfold abandoned. by destruct (thread w); simplify_eq.
Qed.

Lemma dropped_steps w w' j : steps w w' -> abandoned j w -> j ∉ started w'.
Proof. induction 1 as [|w e w1 w2 Hw _ IH]; intros Ha; [apply Ha|]. apply IH. by eapply dropped_step. Qed.

Lemma reachable_order w : reachable w -> sublist (started w) (sent w).
Proof. intros Hr. etrans; [|apply (i_order w (inv_reachable w Hr))]. by apply sublist_inserts_r. Qed.

(** C18. Blocking jobs run one at a time, in the order of their calls, and once.
    However calls are made, dropped and resumed: the closures that were
    entered are, in order, among the jobs sent, none twice, and they return in
    that order; a call reports its job done only when the closure has
    returned; a call that is dropped before the worker has looked whether it
    still waits never runs its closure, and of all the calls dropped since, one
    at most still does, the one the worker had just looked at; and a call
    comes back without its job done only if the worker is gone. *)
Theorem blocking_jobs_run_once w w' : reachable w -> steps w w' ->
  NoDup (started w) /\ sublist (started w) (sent w) /\ sublist (finished w) (started w) /\
  (forall j, callers w j = Completed -> j ∈ finished w) /\
  (forall j, callers w j = Dropped -> thread w <> Checked j -> j ∉ started w -> j ∉ started w') /\
  (forall i j, callers w i = Dropped -> callers w j = Dropped -> i ∉ started w -> j ∉ started w ->
     i ∈ started w' -> j ∈ started w' -> i = j) /\
  (forall j, callers w j = Lost \/ callers w j = Refused -> thread w = Gone).
Proof.
  intros Hr Hs. assert (Hi := inv_reachable w Hr). split_and!.
  - eapply sublist_NoDup; [apply (i_once w Hi)|by apply reachable_order].
  - by apply reachable_order.
  - etrans; [|apply (i_finished w Hi)]. by apply sublist_inserts_r.
  - apply (i_completed w Hi).
  - intros j Hd Ht Hn. by apply (dropped_steps w).
  - intros i j Hdi Hdj Hni Hnj Hi' Hj'. destruct (decide (thread w = Checked i)) as [Ei|Ei].
    + destruct (decide (thread w = Checked j)) as [Ej|Ej]; [congruence|]. by destruct (dropped_steps w w' j Hs).
    + by destruct (dropped_steps w w' i Hs).
  - apply (i_alive w Hi).
Qed.

(** ** A call is answered *)

(** A turn of the worker thread, which parks when there is nothing to do. *)
Definition turn (w : world) : world := default w (work w).

Definition remaining (w : world) : nat :=
  (5 * length (option_list (queue w)) + match thread w with Received _ => 4 | Checked _ => 3 | Running _ => 2 | Notifying _ => 1 | _ => 0 end)%nat.

Lemma turn_progress w : thread w <> Gone ->
  thread (turn w) <> Gone /\ callers (turn w) = callers w /\ (remaining (turn w) <= remaining w - 1)%nat.
Proof.
  unfold turn, work, remaining. destruct (thread w) as [|j|j|j|j|] eqn:Et; [destruct (queue w) eqn:Eq| | | | |]; intros Ht; try done.
  all: try destruct (is_closed j w); cbn; rewrite ?Et, ?Eq; cbn; (split_and!; [done|done|lia]).
Qed.

Lemma turns_progress n w : thread w <> Gone ->
  thread (Nat.iter n turn w) <> Gone /\ callers (Nat.iter n turn w) = callers w /\
  (remaining (Nat.iter n turn w) <= remaining w - n)%nat.
Proof.
  intros Ht. induction n as [|n (H1 & H2 & H3)]; [split_and!; [done|done|cbn; lia]|]. cbn [Nat.iter nat_rect].
  destruct (turn_progress _ H1) as (G1 & G2 & G3). unfold Nat.iter in *. split_and!; [done|congruence|lia].
Qed.

Lemma turns_steps n w : steps w (Nat.iter n turn w).
Proof.
  revert w. induction n as [|n IH]; intros w; [apply steps_refl|]. rewrite Nat.iter_succ_r.
  unfold turn at 2. destruct (work w) as [w1|] eqn:E; [|apply IH]. by apply (steps_next w Work w1).
Qed.

Lemma steps_trans w1 w2 w3 : steps w1 w2 -> steps w2 w3 -> steps w1 w3.
Proof. induction 1; [done|]. intros. eapply steps_next; eauto. Qed.

(** A worker with nothing left to do has answered. *)
Lemma drained_answers w : inv w -> thread w <> Gone -> remaining w = 0%nat ->
  queue w = None /\
  forall j,
    (callers w j = Sending -> exists w2, wstep (Send j) w = Some w2 /\ callers w2 j = Waiting) /\
    (callers w j = Waiting -> exists w2, wstep (Complete j) w = Some w2 /\ callers w2 j = Completed /\ j ∈ finished w2).
Proof.
  intros Hi Ht H0. unfold remaining in H0. assert (Hq : queue w = None) by by destruct (queue w).
  assert (Hl : thread w = Idle) by (rewrite Hq in H0; by destruct (thread w)).
  split; [done|]. intros j. split; intros Hj; cbn; rewrite decide_True by done.
  - rewrite Hl, Hq. eexists. split; [done|]. cbn. apply fn_lookup_insert.
  - assert (Hh : held j w = false) by (unfold held; rewrite Hq, Hl, bool_decide_false; done).
    destruct (i_waiting w Hi j Hj) as [Hc|[?|?]]; [|congruence|congruence]. rewrite decide_True by done.
    eexists. split; [done|]. cbn. rewrite fn_lookup_insert. split; [done|].
    by apply (proj1 (Forall_forall _ _) (i_completions w Hi)).
Qed.

(** What the worker still has to do takes nine turns at most. *)
Lemma remaining_bound w : (remaining w <= 9)%nat.
Proof. unfold remaining. destruct (queue w), (thread w); cbn; lia. Qed.

(** C19. Every call of the blocking worker is answered.  In any reachable state
    of a live worker, after nine of its turns the queue has room, so a call
    that is sending gets its job in; and a call that waits finds its job done,
    its closure returned. *)
Theorem blocking_calls_are_answered w : reachable w -> thread w <> Gone ->
  exists w', w' = Nat.iter 9 turn w /\ steps w w' /\ queue w' = None /\
  forall j,
    (callers w j = Sending -> exists w2, wstep (Send j) w' = Some w2 /\ callers w2 j = Waiting) /\
    (callers w j = Waiting -> exists w2, wstep (Complete j) w' = Some w2 /\ callers w2 j = Completed /\ j ∈ finished w2).
Proof.
  intros Hr Ht. exists (Nat.iter 9 turn w). split; [done|]. assert (Hs := turns_steps 9 w). split; [done|].
  destruct (turns_progress 9 w Ht) as (H1 & H2 & H3). rewrite <- H2.
  assert (Hi : inv (Nat.iter 9 turn w)) by (apply inv_reachable; eapply steps_trans; [exact Hr|exact Hs]).
  assert (Hb := remaining_bound w). apply drained_answers; [done|done|lia].
Qed.

(** ** Witnesses: two calls, the second dropped while its job is queued. *)
Fixpoint run (es : list event) (w : world) : option world :=
  match es with [] => Some w | e :: es => match wstep e w with Some w => run es w | None => None end end.
Lemma run_steps es : forall w w', run es w = Some w' -> steps w w'.
Proof.
  induction es as [|e es IH]; intros w w'; cbn; [intros [= <-]; apply steps_refl|].
  destruct (wstep e w) eqn:E; [|done]. intros Hr. eapply steps_next; [exact E|by apply IH].
Qed.

Definition two_calls : list event := [Call 0; Call 1; Send 0; Work; Send 1; Work; Work; Drop 1].
Definition after_two : world := default boot (run two_calls boot).

Lemma blocking_jobs_run_once_witness :
  started after_two = [0%nat] /\ callers after_two 1 = Dropped /\ 1%nat ∉ started (Nat.iter 9 turn after_two).
Proof.
  assert (Hr : reachable after_two) by by apply (run_steps two_calls boot).
  split_and!; [done|done|]. apply (blocking_jobs_run_once after_two _ Hr (turns_steps 9 after_two)); [done|done|].
  change (1%nat ∉ [0%nat]). by rewrite list_elem_of_singleton.
Defined.
(** A call dropped between the worker's look and its entry runs all the same. *)
Example dropped_after_the_look :
  match run [Call 0; Send 0; Work; Work; Drop 0; Work] boot with
  | Some w => callers w 0%nat = Dropped /\ started w = [0%nat]
  | None => False
  end.
Proof. by vm_compute. Qed.

Lemma blocking_calls_are_answered_witness :
  exists w' w2, steps after_two w' /\ wstep (Complete 0) w' = Some w2 /\ callers w2 0%nat = Completed /\ 0%nat ∈ finished w2.
Proof.
  assert (Hr : reachable after_two) by by apply (run_steps two_calls boot).
  destruct (blocking_calls_are_answered after_two Hr) as (w' & _ & Hs & _ & H); [done|].
  destruct (H 0%nat) as [_ Hw]. destruct (Hw eq_refl) as (w2 & ? & ? & ?). by exists w', w2.
Defined.
