(* ===== verification/Executor.v ===== *)
(** * Threads and the executor ([src/runtime.rs])

    [spawn_thread] over the calling thread's sticky configuration; and the
    executor as a machine of one shared access or poll a step: the queue that
    [Esp32Runtime::spawn] pushes onto, the root future of
    [Esp32Executor::block_on], which races [main] against the pump that
    empties the queue, and the tasks.  Which task is polled when is the
    choice of the third-party executor, here of the sequence of events. *)

From S2P Require Import Prelude Platform Runtime.

(** ** Threads *)

Inductive malloc_cap := MALLOC_CAP_INTERNAL | MALLOC_CAP_8BIT | MALLOC_CAP_SPIRAM.

Record ThreadSpawnConfiguration := MkThreadSpawnConfiguration {
  thread_name : option bytes;
  stack_size : Z;
  priority : Z;
  inherits : bool;
  pin_to_core : option Z;
  stack_alloc_caps : list malloc_cap;
}.

Section Threads.
Context `{board : Board}.

Definition stack_caps : list malloc_cap := if has_psram then [MALLOC_CAP_SPIRAM; MALLOC_CAP_8BIT] else [MALLOC_CAP_INTERNAL; MALLOC_CAP_8BIT].

(** [BlockingWorker::default_thread_config] and that of [Esp32Executor]. *)
Definition blocking_thread_config : ThreadSpawnConfiguration :=
  MkThreadSpawnConfiguration (Some (bs "wa-blocking")) (by_ram (32 * 1024) (16 * 1024)) 1 false (Some 0) stack_caps.
Definition executor_thread_config : ThreadSpawnConfiguration :=
  MkThreadSpawnConfiguration (Some (bs "wa-main")) (by_ram (256 * 1024) (48 * 1024)) 5 false (Some 0) stack_caps.
End Threads.

Section SpawnThread.
(** [ThreadSpawnConfiguration::default()] *)
Context (default_config : ThreadSpawnConfiguration).

(** What the SDK answers, in the order it is asked: a configuration is set, the
    thread is created, and a configuration is set. *)
Record thread_answers := ThreadAnswers { set_ok : bool; spawn_ok : bool; restore_ok : bool }.

(** The calling thread's configuration afterwards, and the one the new thread
    was created with, if it was. *)
Definition spawn_thread (config : ThreadSpawnConfiguration) (a : thread_answers)
    (current : option ThreadSpawnConfiguration) :
    option ThreadSpawnConfiguration * option ThreadSpawnConfiguration :=
  let previous := current in
  if negb (set_ok a) then (current, None)
  else
    let current := Some config in
    if negb (spawn_ok a) then (current, None)
    else if restore_ok a then (Some (default default_config previous), current)
    else (current, current).

(** A thread is created with the configuration asked for, and the caller's own
    is put back. *)
Lemma spawn_thread_restores config a current started : (spawn_thread config a current).2 = Some started ->
  started = config /\ (restore_ok a = true -> (spawn_thread config a current).1 = Some (default default_config current)).
Proof. unfold spawn_thread. destruct (set_ok a), (spawn_ok a), (restore_ok a); cbn; intros [= <-]; by split. Qed.

(** A thread that could not be created leaves the worker's configuration with
    the caller. *)
Lemma failed_spawn_keeps_configuration config current r :
  spawn_thread config (ThreadAnswers true false r) current = (Some config, None).
Proof. done. Qed.
End SpawnThread.

(** ** The futures of the runtime *)

(** [Esp32Runtime::sleep]: the timer may not have been created. *)
Inductive sleep_future := Immediate | AfterTimer.
Definition sleep (timer_created : bool) : sleep_future := if timer_created then AfterTimer else Immediate.
(** Whether it is ready, given what [timer.after] polls to: an error of it is
    logged. *)
Definition sleep_poll (after : option (result unit unit)) (f : sleep_future) : bool :=
  match f with Immediate => true | AfterTimer => match after with Some _ => true | None => false end end.

(** ** The executor *)

(** The root future of [block_on]: [select] polls [main], then the pump; with
    the pump over, [main] alone.  [Leaving]: it is ready, and nothing is
    dropped yet. *)
Inductive root {T} := AtMain | AtPump | AtTail | Leaving (v : T) | Left (v : T).
Arguments root : clear implicits.

Section Executor.
Context {T : Type}.

(** Tasks are numbered in the order of the calls that spawn them.  [senders]
    counts the runtimes and the spawners; [abort_flags] the flags that are
    set.  The rest is history: the tasks the queue accepted and those the pump
    took, the polls of their futures, in order, and the tasks that are over,
    by themselves or because they were aborted. *)
Record estate := EState {
  stage : root T;
  senders : nat;
  next_task : nat;
  spawn_queue : list nat;
  tasks : list nat;
  abort_flags : list nat;
  accepted : list nat;
  pumped : list nat;
  polls : list nat;
  over : list nat;
}.

Definition set_stage (r : root T) (w : estate) : estate :=
  EState r (senders w) (next_task w) (spawn_queue w) (tasks w) (abort_flags w) (accepted w) (pumped w) (polls w) (over w).
Definition set_senders (n : nat) (w : estate) : estate :=
  EState (stage w) n (next_task w) (spawn_queue w) (tasks w) (abort_flags w) (accepted w) (pumped w) (polls w) (over w).

(** [create_default] and the start of [block_on]. *)
Definition eboot : estate := EState AtMain 1 0 [] [] [] [] [] [] [].

Inductive eevent :=
| Spawn | Abort_ (j : nat) | CloneSender | DropSender
| PollMain (o : option T) | Pump | PollTask (j : nat) (ready : bool) | DropExecutor.

(** [Runtime::spawn] and [spawner().try_send]: refused once the receiver is
    gone. *)
Definition spawn_task (w : estate) : estate :=
  let j := next_task w in
  match stage w with
  | Left _ => EState (stage w) (senders w) (S j) (spawn_queue w) (tasks w) (abort_flags w) (accepted w) (pumped w) (polls w) (over w)
  | _ =>
      EState (stage w) (senders w) (S j) (spawn_queue w ++ [j]) (tasks w) (abort_flags w) (accepted w ++ [j])
        (pumped w) (polls w) (over w)
  end.

(** [main] is polled. *)
Definition poll_main (o : option T) (w : estate) : option estate :=
  match stage w, o with
  | AtMain, None => Some (set_stage AtPump w)
  | AtTail, None => Some w
  | AtMain, Some v | AtTail, Some v => Some (set_stage (Leaving v) w)
  | _, _ => None
  end.

(** The pump receives, spawns what it got, and receives again; or waits; or
    ends, when nothing can be sent any more. *)
Definition pump (w : estate) : option estate :=
  match stage w with
  | AtPump =>
      match spawn_queue w with
      | j :: queue =>
          Some (EState (stage w) (senders w) (next_task w) queue (tasks w ++ [j]) (abort_flags w) (accepted w)
            (pumped w ++ [j]) (polls w) (over w))
      | [] => Some (set_stage (if decide (senders w = 0%nat) then AtTail else AtMain) w)
      end
  | _ => None
  end.

(** The executor polls a task: [AbortableFuture::poll], the polls of the inner
    futures being the state it acts on. *)
Definition poll_task (j : nat) (ready : bool) (w : estate) : option estate :=
  match stage w with
  | AtMain | AtTail =>
      if decide (j ∈ tasks w) then
        let '(polls, ready) := abortable_poll (fun ps => (ps ++ [j], ready)) (bool_decide (j ∈ abort_flags w)) (polls w) in
        Some (EState (stage w) (senders w) (next_task w) (spawn_queue w)
          (if ready then List.filter (fun i => negb (Nat.eqb i j)) (tasks w) else tasks w) (abort_flags w) (accepted w) (pumped w)
          polls (if ready then over w ++ [j] else over w))
      else None
  | _ => None
  end.

Definition estep (e : eevent) (w : estate) : option estate :=
  match e with
  | Spawn => if decide (senders w = 0%nat) then None else Some (spawn_task w)
  | Abort_ j =>
      if decide (j < next_task w)%nat then
        Some (EState (stage w) (senders w) (next_task w) (spawn_queue w) (tasks w) (j :: abort_flags w) (accepted w)
          (pumped w) (polls w) (over w))
      else None
  | CloneSender => if decide (senders w = 0%nat) then None else Some (set_senders (S (senders w)) w)
  | DropSender => if decide (senders w = 0%nat) then None else Some (set_senders (senders w - 1)%nat w)
  | PollMain o => poll_main o w
  | Pump => pump w
  | PollTask j ready => poll_task j ready w
  | DropExecutor =>
      match stage w with
      | Leaving v =>
          Some (EState (Left v) (senders w) (next_task w) [] [] (abort_flags w) (accepted w) (pumped w) (polls w) (over w))
      | _ => None
      end
  end.

Inductive esteps : estate -> estate -> Prop :=
| esteps_refl w : esteps w w
| esteps_next w e w1 w2 : estep e w = Some w1 -> esteps w1 w2 -> esteps w w2.
Definition ereachable (w : estate) : Prop := esteps eboot w.

(** The tasks that were taken are held by the executor or over, unless it was
    dropped. *)
Definition has_left (w : estate) : bool := match stage w with Left _ => true | _ => false end.
End Executor.
Arguments estate : clear implicits.
Arguments eevent : clear implicits.

(** ** The invariant *)

Section Invariant.
Context {T : Type}.
Implicit Types w : estate T.

Record einv w : Prop := {
  e_fifo : has_left w = false -> accepted w = pumped w ++ spawn_queue w;
  e_pumped j : j ∈ pumped w -> j ∈ accepted w;
  e_once : NoDup (accepted w);
  e_fresh : Forall (fun j => j < next_task w)%nat (accepted w);
  e_taken : NoDup (pumped w);
  e_held : has_left w = false -> pumped w ≡ₚ tasks w ++ over w;
  e_polls : Forall (.∈ pumped w) (polls w);
  e_tail : stage w = AtTail -> senders w = 0%nat /\ spawn_queue w = [];
}.

Lemma einv_boot : einv eboot.
Proof. split; cbn; try done; try constructor. Qed.

Lemma spawn_task_open w : has_left w = false ->
  spawn_task w = EState (stage w) (senders w) (S (next_task w)) (spawn_queue w ++ [next_task w]) (tasks w) (abort_flags w)
    (accepted w ++ [next_task w]) (pumped w) (polls w) (over w).
Proof. unfold has_left, spawn_task. by destruct (stage w). Qed.

Lemma einv_spawn w : einv w -> senders w <> 0%nat -> einv (spawn_task w).
Proof.
  intros [H1 H2 H3 H4 H5 H6 H7 H8] Hs.
  assert (Hw : Forall (fun j => j < S (next_task w))%nat (accepted w)) by (eapply Forall_impl; [exact H4|cbn; lia]).
  destruct (has_left w) eqn:E.
  { unfold has_left in *. unfold spawn_task. destruct (stage w) eqn:Es; try done; split; cbn; done. }
  rewrite spawn_task_open by done. split; cbn; try done.
  - intros _. rewrite H1 by done. by rewrite (assoc_L (++)).
  - intros j Hj. apply elem_of_app. left. auto.
  - apply NoDup_app. split_and!; [done| |apply NoDup_singleton]. intros j Hj Hn. apply list_elem_of_singleton in Hn as ->.
    apply (proj1 (Forall_forall _ _) H4) in Hj. lia.
  - apply Forall_app. split; [done|]. constructor; [lia|done].
  - auto.
  - intros Ht. by destruct (H8 Ht).
Qed.

(** The task is taken out of the executor's. *)
Lemma filter_out j (l : list nat) : NoDup l -> j ∈ l ->
  l ≡ₚ j :: List.filter (fun i => negb (Nat.eqb i j)) l.
Proof.
  induction 1 as [|i l Hi Hl IH]; intros Hj; [by apply elem_of_nil in Hj|]. cbn [List.filter].
  destruct (Nat.eqb_spec i j) as [->|Hn]; cbn [negb].
  - f_equiv. clear -Hi. induction l as [|k l IH]; [done|]. apply not_elem_of_cons in Hi as [Hk Hi]. cbn [List.filter].
    destruct (Nat.eqb_spec k j); [congruence|]. cbn [negb]. f_equiv. auto.
  - apply elem_of_cons in Hj as [?|Hj]; [congruence|]. rewrite (IH Hj) at 1. apply Permutation_swap.
Qed.

Lemma einv_poll j ready w w' : einv w -> poll_task j ready w = Some w' -> einv w'.
Proof.
  intros [H1 H2 H3 H4 H5 H6 H7 H8]. unfold poll_task, abortable_poll. intros Hp.
  assert (Hl : has_left w = false) by (unfold has_left; by destruct (stage w)).
  specialize (H6 Hl). specialize (H1 Hl).
  assert (Hw : forall d ps, j ∈ tasks w -> Forall (.∈ pumped w) ps ->
    einv (EState (stage w) (senders w) (next_task w) (spawn_queue w)
      (if d : bool then List.filter (fun i => negb (Nat.eqb i j)) (tasks w) else tasks w) (abort_flags w) (accepted w)
      (pumped w) ps (if d then over w ++ [j] else over w))).
  { intros d ps Hj Hps. split; cbn; try done. intros _. destruct d; [|done].
    assert (Hn : NoDup (tasks w)) by (rewrite H6 in H5; by apply NoDup_app in H5 as (? & _ & _)).
    rewrite H6, (filter_out j (tasks w)) at 1 by done. cbn [app].
    rewrite (assoc_L (++)), (comm (++) _ [j]). done. }
  destruct (decide (j ∈ tasks w)) as [Hj|]; [|by destruct (stage w)].
  assert (Hps : Forall (.∈ pumped w) (polls w ++ [j])).
  { apply Forall_app. split; [done|]. constructor; [|done]. rewrite H6. apply elem_of_app. by left. }
  destruct (stage w) eqn:E; try done; rewrite <- E in *; destruct (bool_decide _); simplify_eq; by apply (Hw true) || by apply Hw.
Qed.

Lemma einv_pump w w' : einv w -> pump w = Some w' -> einv w'.
Proof.
  intros [H1 H2 H3 H4 H5 H6 H7 H8]. unfold pump. destruct (stage w) eqn:E; try done.
  assert (Hl : has_left w = false) by (unfold has_left; by rewrite E). specialize (H1 Hl). specialize (H6 Hl).
  destruct (spawn_queue w) as [|j queue] eqn:Eq; intros [= <-].
  - split; unfold set_stage; cbn; try done; try (by intros _; rewrite Eq). case_decide; [by rewrite Eq|done].
  - assert (Hn : NoDup (pumped w ++ [j])) by (rewrite H1, cons_middle, (assoc_L (++)) in H3; by apply NoDup_app in H3 as (? & _ & _)).
    split; cbn; try done.
    + intros _. by rewrite <- (assoc_L (++)).
    + intros i. rewrite H1. clear. set_solver.
    + intros _. rewrite H6, <- !(assoc_L (++)). f_equiv. apply (comm (++)).
    + eapply Forall_impl; [exact H7|]. intros i Hi. apply elem_of_app. by left.
Qed.

Lemma einv_step e w w' : einv w -> estep e w = Some w' -> einv w'.
Proof.
  intros Hi. destruct e as [|j| | |o| |j ready|]; cbn [estep].
  - case_decide; intros [= <-]. by apply einv_spawn.
  - case_decide; intros [= <-]. by destruct Hi; split.
  - case_decide as Hs; intros [= <-]. destruct Hi as [H1 H2 H3 H4 H5 H6 H7 H8]; split; cbn; try done. intros Ht. by destruct (H8 Ht).
  - case_decide as Hs; intros [= <-]. destruct Hi as [H1 H2 H3 H4 H5 H6 H7 H8]; split; cbn; try done. intros Ht. by destruct (H8 Ht).
  - unfold poll_main. destruct Hi as [H1 H2 H3 H4 H5 H6 H7 H8], (stage w) eqn:E, o; intros [= <-];
      split; cbn; try done; unfold has_left in *; rewrite ?E in *; auto.
  - by apply einv_pump.
  - by apply einv_poll.
  - destruct Hi as [H1 H2 H3 H4 H5 H6 H7 H8], (stage w) eqn:E; intros [= <-]; by split.
Qed.

Lemma einv_steps w w' : esteps w w' -> einv w -> einv w'.
Proof. induction 1 as [|w e w1 w2 Hw _ IH]; intros Hi; [done|]. eapply IH, einv_step, Hw. exact Hi. Qed.
Lemma einv_reachable w : ereachable w -> einv w.
Proof. intros Hr. eapply einv_steps, einv_boot. exact Hr. Qed.
End Invariant.

(** ** What a step leaves as it was *)

Section Steps.
Context {T : Type}.
Implicit Types w : estate T.

(** Aborted, or over: the executor polls such a task's future no more. *)
Definition quiet (j : nat) w : Prop := j ∈ abort_flags w \/ j ∈ over w.
Definition polls_of (j : nat) w : list nat := List.filter (Nat.eqb j) (polls w).

Lemma over_not_held j w : einv w -> has_left w = false -> j ∈ over w -> j ∉ tasks w.
Proof.
  intros Hi Hl Ho Ht. assert (Hn := e_taken w Hi). rewrite (e_held w Hi Hl) in Hn.
  apply NoDup_app in Hn as (_ & Hn & _). by eapply Hn.
Qed.

Lemma quiet_step e j w w' : einv w -> estep e w = Some w' -> quiet j w -> quiet j w' /\ polls_of j w' = polls_of j w.
Proof.
  intros Hi Hs Hq. unfold quiet, polls_of in *. destruct e as [|i| | |o| |i ready|]; cbn [estep] in Hs.
  - case_decide; simplify_eq. unfold spawn_task. by destruct (stage w).
  - case_decide; simplify_eq. cbn. rewrite elem_of_cons. tauto.
  - by case_decide; simplify_eq.
  - by case_decide; simplify_eq.
  - unfold poll_main in Hs. by destruct (stage w), o; simplify_eq.
  - unfold pump in Hs. by destruct (stage w), (spawn_queue w); simplify_eq.
  - assert (Hl : has_left w = false) by (unfold has_left; unfold poll_task in Hs; by destruct (stage w)).
    assert (Hw : i ∈ tasks w -> j = i -> i ∈ abort_flags w).
    { intros Ht ->. destruct Hq as [?|Ho]; [done|]. by apply over_not_held in Ho. }
    unfold poll_task, abortable_poll in Hs.
    destruct (stage w); try done; (case_decide as Ht; [|done]); case_bool_decide as Ha; simplify_eq; cbn.
    all: split; [destruct Hq; [by left|right]; destruct ready; try done; apply elem_of_app; by left|try done].
    all: rewrite List.filter_app; cbn; destruct (Nat.eqb_spec j i); [naive_solver|by rewrite app_nil_r].
  - destruct (stage w); by simplify_eq.
Qed.

Lemma quiet_steps j w w' : esteps w w' -> einv w -> quiet j w -> polls_of j w' = polls_of j w.
Proof.
  induction 1 as [|w e w1 w2 Hw _ IH]; intros Hi Hq; [done|].
  destruct (quiet_step _ _ _ _ Hi Hw Hq) as [Hq1 <-]. apply IH; [|done]. by eapply einv_step.
Qed.

(** [main] is done, with this value. *)
Definition ended (v : T) w : Prop := stage w = Leaving v \/ stage w = Left v.

Lemma ended_step e v w w' : ended v w -> estep e w = Some w' -> ended v w' /\ polls w' = polls w.
Proof.
  unfold ended. intros He Hs. destruct e as [|i| | |o| |i ready|]; cbn [estep] in Hs.
  - case_decide; simplify_eq. unfold spawn_task. destruct He as [E|E]; rewrite E; cbn; tauto.
  - by case_decide; simplify_eq.
  - by case_decide; simplify_eq.
  - by case_decide; simplify_eq.
  - unfold poll_main in Hs. by destruct He as [E|E]; rewrite E in Hs.
  - unfold pump in Hs. by destruct He as [E|E]; rewrite E in Hs.
  - unfold poll_task in Hs. by destruct He as [E|E]; rewrite E in Hs.
  - destruct He as [E|E]; rewrite E in Hs; simplify_eq. cbn. tauto.
Qed.

Lemma ended_steps v w w' : esteps w w' -> ended v w -> ended v w' /\ polls w' = polls w.
Proof.
  induction 1 as [|w e w1 w2 Hw _ IH]; intros He; [done|].
  destruct (ended_step _ _ _ _ He Hw) as [H1 <-]. auto.
Qed.

(** ** A spawned task is taken *)

Fixpoint erun (es : list (eevent T)) w : option (estate T) :=
  match es with [] => Some w | e :: es => match estep e w with Some w => erun es w | None => None end end.

Lemma erun_esteps es : forall w w', erun es w = Some w' -> esteps w w'.
Proof.
  induction es as [|e es IH]; intros w w'; cbn; [intros [= <-]; apply esteps_refl|].
  destruct (estep e w) eqn:E; [|done]. intros Hr. eapply esteps_next; [exact E|by apply IH].
Qed.

(** The pump, once polled, empties the queue before it waits. *)
Lemma pump_empties n : forall w, stage w = AtPump -> length (spawn_queue w) = n ->
  exists w', erun (repeat Pump (S n)) w = Some w' /\ spawn_queue w' = [] /\ pumped w' = pumped w ++ spawn_queue w /\
    tasks w' = tasks w ++ spawn_queue w /\ (stage w' = AtMain \/ stage w' = AtTail).
Proof.
  induction n as [|n IH]; intros w Hs Hn; cbn [repeat erun estep]; unfold pump at 1; rewrite Hs;
    destruct (spawn_queue w) as [|j queue] eqn:E; try done.
  - eexists. split; [done|]. rewrite !app_nil_r. cbn. split_and!; try done. case_decide; [by right|by left].
  - destruct (IH (EState AtPump (senders w) (next_task w) queue (tasks w ++ [j]) (abort_flags w) (accepted w)
      (pumped w ++ [j]) (polls w) (over w))) as (w' & H1 & H2 & H3 & H4 & H5); [done|cbn in *; lia|].
    exists w'. split; [exact H1|]. cbn in H3, H4. rewrite <- (assoc_L (++)) in H3, H4. by split_and!.
Qed.

Lemma polled_when_held j ready w : stage w = AtMain \/ stage w = AtTail -> j ∈ tasks w -> is_Some (poll_task j ready w).
Proof.
  intros Hs Hj. unfold poll_task. destruct (abortable_poll _ _ _) as [ps d].
  destruct Hs as [-> | ->]; rewrite decide_True by done; by eexists.
Qed.
End Steps.

(** C39. The executor runs what was spawned, and nothing else.  However spawns,
    aborts, polls and the runtimes' drops interleave: until it is dropped,
    the tasks it took are the first that the queue accepted, in order, and
    each of them is held or over, once; only tasks that were taken are polled,
    a task that is over or was aborted is never polled again, and nothing is
    polled once [main] has its value, which does not change.  The pump stops
    only when nothing can be spawned any more and nothing waits to be; and
    whenever [main] is found pending, the queue is empty before the executor
    turns to its tasks again, all of which it can poll. *)
Theorem executor_runs_what_was_spawned {T} (w w' : estate T) : ereachable w -> esteps w w' ->
  (has_left w = false -> accepted w = pumped w ++ spawn_queue w /\ pumped w ≡ₚ tasks w ++ over w) /\
  NoDup (accepted w) /\ (forall j, j ∈ polls w -> j ∈ pumped w) /\
  (forall j, j ∈ abort_flags w \/ j ∈ over w -> polls_of j w' = polls_of j w) /\
  (forall v, ended v w -> ended v w' /\ polls w' = polls w) /\
  (stage w = AtTail -> senders w = 0%nat /\ spawn_queue w = []) /\
  (stage w = AtMain -> exists w2, erun (PollMain None :: repeat Pump (S (length (spawn_queue w)))) w = Some w2 /\
    pumped w2 = accepted w /\ spawn_queue w2 = [] /\ forall j ready, j ∈ tasks w2 -> is_Some (poll_task j ready w2)).
Proof.
  intros Hr Hs. assert (Hi := einv_reachable w Hr). split_and!.
  - intros Hl. split; [by apply e_fifo|by apply e_held].
  - apply (e_once w Hi).
  - intros j. apply (proj1 (Forall_forall _ _) (e_polls w Hi)).
  - intros j. by apply quiet_steps.
  - intros v. by apply ended_steps.
  - apply (e_tail w Hi).
  - intros Hm. cbn [erun estep]. unfold poll_main. rewrite Hm.
    destruct (pump_empties (length (spawn_queue w)) (set_stage AtPump w)) as (w2 & H1 & H2 & H3 & H4 & H5); [done|done|].
    exists w2. split_and!; [exact H1| |done|].
    + rewrite (e_fifo w Hi) by (unfold has_left; by rewrite Hm). exact H3.
    + intros j ready. by apply polled_when_held.
Qed.

(** Two tasks, the first aborted after a poll; [main] ends with 7. *)
Definition two_tasks : list (eevent Z) :=
  [Spawn; Spawn; PollMain None; Pump; Pump; Pump; PollTask 0 false; PollTask 1 true; Abort_ 0].
Definition after_tasks : estate Z := default eboot (erun two_tasks eboot).
Definition after_main : estate Z := default eboot (erun [PollTask 0 false; PollMain (Some 7); DropExecutor] after_tasks).

Lemma executor_runs_what_was_spawned_witness :
  accepted after_tasks = [0; 1]%nat /\ polls_of 0 after_tasks = [0%nat] /\ polls_of 0 after_main = [0%nat] /\
  ended 7 after_main /\ tasks after_main = [].
Proof.
  assert (Hr : ereachable after_tasks) by by apply (erun_esteps two_tasks eboot).
  assert (Hs : esteps after_tasks after_main) by by apply (erun_esteps [PollTask 0 false; PollMain (Some 7); DropExecutor] after_tasks).
  destruct (executor_runs_what_was_spawned _ _ Hr Hs) as (_ & _ & _ & H & _).
  split_and!; [done|done|rewrite (H 0%nat); [done|left; by left]|by right|done].
Defined.
