(* ===== verification/Crash.v ===== *)
(** * Crash diagnostics ([src/crash.rs])

    The panic message in RTC memory, which survives a reset but not a power
    cut: the hook is the sequence of its stores, so that a reset can come
    between any two of them.  And the core dump's summary, whose fields are
    the SDK's. *)

From S2P Require Import Prelude RustStr Utf8.

Definition CRASH_MAGIC : Z := 0xC0DEDEAD.
Definition MSG_CAP : Z := 256.

(** [CrashLog]: whatever the memory held before the first boot. *)
Record CrashLog := MkCrashLog {
  magic : Z;
  log_len : Z;
  internal_free : Z;
  internal_largest : Z;
  msg : bytes;
}.

(** ** The formatter *)

Record FixedBuf := MkFixedBuf {
  buf : bytes;
  buf_len : Z;
}.

(** [copy_from_slice] at an offset. *)
Definition overwrite (at_ : Z) (b l : bytes) : bytes := ztake at_ l ++ b ++ zdrop (at_ + len b) l.

Definition write_str (s : bytes) (f : FixedBuf) : FixedBuf :=
  let n := Z.min (len s) (MSG_CAP - buf_len f) in
  MkFixedBuf (overwrite (buf_len f) (ztake n s) (buf f)) (buf_len f + n).

(** [write!(fb, "{info}")]: what the message's [Display] writes, piece by
    piece. *)
Definition write_pieces (pieces : list bytes) : FixedBuf :=
  foldl (fun f s => write_str s f) (MkFixedBuf (repeat x00 (Z.to_nat MSG_CAP)) 0) pieces.

(** ** The hook *)

(** A store to the log. *)
Inductive rtc_store :=
| StoreByte (i : nat) (b : byte)
| StoreLen (n : Z)
| StoreFree (n : Z)
| StoreLargest (n : Z)
| StoreMagic (n : Z).

Definition rtc_apply (m : CrashLog) (s : rtc_store) : CrashLog :=
  match s with
  | StoreByte i b => MkCrashLog (magic m) (log_len m) (internal_free m) (internal_largest m) (<[i := b]> (msg m))
  | StoreLen n => MkCrashLog (magic m) n (internal_free m) (internal_largest m) (msg m)
  | StoreFree n => MkCrashLog (magic m) (log_len m) n (internal_largest m) (msg m)
  | StoreLargest n => MkCrashLog (magic m) (log_len m) (internal_free m) n (msg m)
  | StoreMagic n => MkCrashLog n (log_len m) (internal_free m) (internal_largest m) (msg m)
  end.

(** [copy_nonoverlapping] to the start of [msg], a byte at a time. *)
Fixpoint copy_from (i : nat) (l : bytes) : list rtc_store :=
  match l with
  | [] => []
  | b :: l => StoreByte i b :: copy_from (S i) l
  end.

(** [record_panic], given the heap's counters. *)
Definition record_panic (pieces : list bytes) (free largest : Z) : list rtc_store :=
  let fb := write_pieces pieces in
  copy_from 0 (ztake (buf_len fb) (buf fb)) ++
  [StoreLen (wrap 16 (buf_len fb)); StoreFree free; StoreLargest largest; StoreMagic CRASH_MAGIC].

(** ** The report *)

Definition take_last_panic (m : CrashLog) : CrashLog * option bytes :=
  if negb (magic m =? CRASH_MAGIC) then (m, None)
  else
    let n := Z.min (log_len m) MSG_CAP in
    let text := utf8_lossy (ztake n (msg m)) in
    let text := text ++ bs " | internal-DRAM @panic: free=" ++ dec (internal_free m) ++
      bs " B, largest_block=" ++ dec (internal_largest m) ++ bs " B" in
    (rtc_apply m (StoreMagic 0), Some text).

(** ** The core dump *)

(** What the SDK's summary holds, for either architecture. *)
Inductive exception :=
| Xtensa (exc_cause exc_vaddr : Z) (depth : Z) (bt : list Z) (corrupted : bool)
| RiscV (mcause mtval ra : Z).

Record dump_summary := DumpSummary {
  raw_task : bytes;
  raw_pc : Z;
  raw_exception : exception;
}.

Record CoredumpSummary := MkCoredumpSummary {
  task : bytes;
  exc_pc : Z;
  exc_cause : Z;
  fault_addr : Z;
  backtrace : list Z;
  bt_corrupted : bool;
}.

(** [CStr::from_bytes_until_nul], or the whole array. *)
Definition task_name (raw : bytes) : bytes :=
  match find_byte x00 raw with
  | Some i => utf8_lossy (ztake i raw)
  | None => utf8_lossy raw
  end.

Definition summarise (s : dump_summary) : CoredumpSummary :=
  let '(cause, addr, bt, corrupted) :=
    match raw_exception s with
    | Xtensa cause vaddr depth bt corrupted => (cause, vaddr, ztake (Z.min depth (len bt)) bt, corrupted)
    | RiscV mcause mtval ra =>
        let backtrace := [raw_pc s] in
        let backtrace := if negb (ra =? 0) && negb (ra =? raw_pc s) then backtrace ++ [ra] else backtrace in
        (mcause, mtval, backtrace, false)
    end in
  MkCoredumpSummary (task_name (raw_task s)) (raw_pc s) cause addr bt corrupted.

(** [take_coredump_summary] over the partition: an image, whose summary may
    not be readable.  [erased]: the erasure went through. *)
Definition take_coredump_summary (erased : bool) (image : option (option dump_summary)) :
    option (option dump_summary) * option CoredumpSummary :=
  match image with
  | None => (None, None)
  | Some summary => (if erased then None else image, option_map summarise summary)
  end.

(** ** The buffer *)

Definition buffered (f : FixedBuf) (text : bytes) : Prop :=
  len (buf f) = MSG_CAP /\ buf_len f = len (ztake MSG_CAP text) /\ ztake (buf_len f) (buf f) = ztake MSG_CAP text.

Lemma len_cut {A} (n : Z) (l : list A) : 0 <= n -> len (ztake n l) = Z.min n (len l).
Proof. intros Hn. rewrite len_ztake. unfold len. lia. Qed.

Lemma ztake_app_grow (text s : bytes) :
  ztake MSG_CAP (text ++ s) = ztake MSG_CAP text ++ ztake (Z.min (len s) (MSG_CAP - len (ztake MSG_CAP text))) s.
Proof.
  rewrite len_cut by (unfold MSG_CAP; lia). unfold ztake, len, MSG_CAP. rewrite take_app. f_equal.
  destruct (decide (length text <= 256)%nat) as [Hs|Hs].
  - destruct (decide (length s <= 256 - length text)%nat); [rewrite !take_ge by lia; done|f_equal; lia].
  - replace (Z.to_nat 256 - length text)%nat with 0%nat by lia. f_equal. lia.
Qed.

Lemma write_str_buffered s f text : buffered f text -> buffered (write_str s f) (text ++ s).
Proof.
  intros (H1 & H2 & H3). unfold buffered, write_str. cbn [buf buf_len].
  rewrite ztake_app_grow, <- H2. set (n := Z.min _ _).
  assert (Hb : 0 <= buf_len f <= MSG_CAP) by (rewrite H2, len_cut; unfold len, MSG_CAP; lia).
  assert (Hn : 0 <= n <= MSG_CAP - buf_len f) by (subst n; unfold len in *; lia).
  assert (Hl : len (ztake n s) = n) by (rewrite len_cut by lia; subst n; lia).
  split_and!.
  - unfold overwrite. rewrite Hl. unfold len in *. rewrite !length_app. unfold ztake, zdrop in *.
    rewrite !length_take, length_drop in *. lia.
  - unfold len in *. rewrite length_app. lia.
  - unfold overwrite. rewrite Hl, H3. unfold ztake at 1. rewrite (assoc_L (++)). apply take_app_length'.
    rewrite length_app. unfold len in *. lia.
Qed.

Lemma write_pieces_buffered pieces : buffered (write_pieces pieces) (concat pieces).
Proof.
  induction pieces as [|s pieces IH] using rev_ind.
  - by compute.
  - rewrite concat_app. cbn. rewrite app_nil_r. unfold write_pieces in *. rewrite foldl_app. by apply write_str_buffered.
Qed.

(** ** The stores *)

Definition record_all (stores : list rtc_store) (m : CrashLog) : CrashLog := foldl rtc_apply m stores.

Lemma copy_from_frame l : forall i m,
  magic (record_all (copy_from i l) m) = magic m /\ log_len (record_all (copy_from i l) m) = log_len m /\
  length (msg (record_all (copy_from i l) m)) = length (msg m).
Proof.
  induction l as [|b l IH]; intros i m; [done|]. cbn [copy_from]. unfold record_all in *. cbn [foldl].
  destruct (IH (S i) (rtc_apply m (StoreByte i b))) as (-> & -> & ->). cbn. by rewrite length_insert.
Qed.

Lemma copy_from_msg l : forall i m, (i + length l <= length (msg m))%nat ->
  msg (record_all (copy_from i l) m) = take i (msg m) ++ l ++ drop (i + length l) (msg m).
Proof.
  induction l as [|b l IH]; intros i m Hl; [cbn; by rewrite Nat.add_0_r, take_drop|].
  unfold record_all in *. cbn [copy_from foldl length] in *. rewrite IH by (cbn [msg rtc_apply]; rewrite length_insert; lia). cbn [msg rtc_apply].
  rewrite (take_S_r _ _ b) by (apply list_lookup_insert_eq; lia).
  rewrite take_insert by lia. rewrite drop_insert_lt by lia. rewrite <- (assoc_L (++)).
  rewrite decide_False by lia. by replace (S i + length l)%nat with (i + S (length l))%nat by lia.
Qed.

Lemma copied_magic l : forall i k m, magic (foldl rtc_apply m (take k (copy_from i l))) = magic m.
Proof. induction l as [|b l IH]; intros i [|k] m; try done. cbn [copy_from take foldl]. by rewrite IH. Qed.

(** An interrupted hook: some of its stores, without the last. *)
Lemma interrupted_magic pieces free largest n m : (n < length (record_panic pieces free largest))%nat ->
  magic (record_all (take n (record_panic pieces free largest)) m) = magic m.
Proof.
  unfold record_panic. set (c := copy_from 0 _). intros Hn. rewrite length_app in Hn. cbn in Hn.
  rewrite take_app. unfold record_all. rewrite foldl_app.
  assert (Hc : forall k m, magic (foldl rtc_apply m (take k c)) = magic m) by (intros; apply copied_magic).
  destruct (n - length c)%nat as [|[|[|[|]]]] eqn:E; cbn [take foldl]; try (cbn; by rewrite Hc). lia.
Qed.

(** The hook that ran to its end. *)
Lemma recorded pieces free largest m : len (msg m) = MSG_CAP ->
  let m' := record_all (record_panic pieces free largest) m in
  let text := ztake MSG_CAP (concat pieces) in
  magic m' = CRASH_MAGIC /\ log_len m' = len text /\ internal_free m' = free /\ internal_largest m' = largest /\
  ztake (len text) (msg m') = text.
Proof.
  intros Hm. cbn. destruct (write_pieces_buffered pieces) as (H1 & H2 & H3). unfold record_panic. rewrite H2 in *. rewrite H3.
  set (text := ztake MSG_CAP (concat pieces)). unfold record_all. rewrite foldl_app. cbn [foldl rtc_apply magic log_len internal_free internal_largest msg].
  assert (Ht : 0 <= len text <= MSG_CAP) by (subst text; rewrite len_cut; unfold len, MSG_CAP; lia).
  split_and!; [done| |done|done|].
  - unfold wrap. apply Z.mod_small. unfold MSG_CAP in Ht. lia.
  - change (foldl rtc_apply m (copy_from 0 text)) with (record_all (copy_from 0 text) m).
    rewrite copy_from_msg by (unfold len in *; lia). rewrite take_0. cbn [app]. unfold ztake. apply take_app_length'. unfold len. lia.
Qed.

(** ** The text of a report *)

Lemma utf8_bad_pos l : (1 <= utf8_bad l)%nat.
Proof. unfold utf8_bad. destruct l as [|? [|? []]]; repeat case_match; lia. Qed.

Lemma utf8_lossy_fuel_valid fuel : forall l, utf8_valid (utf8_lossy_fuel fuel l) = true.
Proof.
  induction fuel as [|fuel IH]; intros [|b l]; try done. cbn [utf8_lossy_fuel].
  destruct (utf8_head (b :: l)) as [|n] eqn:E; [by apply utf8_valid_app|].
  rewrite utf8_valid_step by done. rewrite (utf8_head_take _ _ _ E).
  pose proof (utf8_head_length (b :: l)) as Hn. rewrite E in Hn.
  rewrite drop_app_length'; [apply IH|]. rewrite length_take. lia.
Qed.

Lemma utf8_lossy_fuel_id fuel : forall l, (length l <= fuel)%nat -> utf8_valid l = true -> utf8_lossy_fuel fuel l = l.
Proof.
  induction fuel as [|fuel IH]; intros [|b l] Hl Hv; try done; [cbn in Hl; lia|]. rewrite utf8_valid_step in Hv by done.
  cbn [utf8_lossy_fuel]. destruct (utf8_head (b :: l)) as [|n] eqn:E; [done|].
  rewrite IH; [apply take_drop| |done]. rewrite length_drop. cbn [length] in *. lia.
Qed.

Lemma utf8_lossy_valid l : utf8_valid (utf8_lossy l) = true.
Proof. apply utf8_lossy_fuel_valid. Qed.
Lemma utf8_lossy_id l : utf8_valid l = true -> utf8_lossy l = l.
Proof. by apply utf8_lossy_fuel_id. Qed.

(** What [take_last_panic] adds to the message. *)
Definition heap_note (free largest : Z) : bytes :=
  bs " | internal-DRAM @panic: free=" ++ dec free ++ bs " B, largest_block=" ++ dec largest ++ bs " B".

(** C30. A panic is reported, whole and once.  Whatever the memory held: after
    the hook has run, the next boot reports the first 256 bytes of the
    message, exactly when they are valid UTF-8 and otherwise with each broken
    character replaced, followed by the two heap counters; and the boot after
    that reports nothing.  If the device resets before the hook's last store,
    and no earlier panic is still unreported, nothing is reported at all. *)
Theorem panic_is_reported_once pieces free largest m n : len (msg m) = MSG_CAP ->
  let text := ztake MSG_CAP (concat pieces) in
  let '(m', report) := take_last_panic (record_all (record_panic pieces free largest) m) in
  report = Some (utf8_lossy text ++ heap_note free largest) /\
  (utf8_valid text = true -> report = Some (text ++ heap_note free largest)) /\
  (take_last_panic m').2 = None /\
  ((n < length (record_panic pieces free largest))%nat -> magic m <> CRASH_MAGIC ->
    (take_last_panic (record_all (take n (record_panic pieces free largest)) m)).2 = None).
Proof.
  intros Hm. destruct (recorded pieces free largest m Hm) as (H1 & H2 & H3 & H4 & H5). cbn zeta.
  unfold take_last_panic at 1. rewrite H1, Z.eqb_refl, H2, H3, H4. cbn [negb].
  rewrite Z.min_l by (rewrite len_cut; unfold len, MSG_CAP; lia). rewrite H5. split_and!.
  - done.
  - intros Hv. by rewrite utf8_lossy_id.
  - done.
  - intros Hn Hg. unfold take_last_panic. rewrite interrupted_magic by done. by destruct (Z.eqb_spec (magic m) CRASH_MAGIC).
Qed.

Definition power_on : CrashLog := MkCrashLog 7 9 0 0 (repeat xff 256).
Lemma panic_is_reported_once_witness :
  (take_last_panic (record_all (record_panic [bs "main.rs:1: "; bs "boom"] 1024 512) power_on)).2 =
  Some (bs "main.rs:1: boom" ++ heap_note 1024 512).
Proof.
  assert (H := panic_is_reported_once [bs "main.rs:1: "; bs "boom"] 1024 512 power_on 3 eq_refl). cbn zeta in H.
  destruct (take_last_panic _) as [m' report]. destruct H as (_ & H & _). by apply H.
Defined.

(** The magic is not cleared first: over a panic that was never reported, a
    hook that is cut short shows the old length and counters with the new
    text's beginning. *)
Example torn_over_an_unreported_panic :
  let m := record_all (record_panic [bs "first panic"] 10 20) power_on in
  (take_last_panic (record_all (take 6 (record_panic [bs "SECOND"] 1 2)) m)).2 = Some (bs "SECONDpanic" ++ heap_note 10 20).
Proof. by vm_compute. Qed.

(** ** The core dump is reported once *)

(** The task's name: no NUL byte, and valid text. *)
Lemma task_name_valid raw : utf8_valid (task_name raw) = true.
Proof. unfold task_name. case_match; apply utf8_lossy_valid. Qed.

(** A readable image is summarised, and gone once the erasure goes through;
    an unreadable one is dropped without a report. *)
Lemma coredump_taken_once image erased :
  let '(after, report) := take_coredump_summary erased image in
  (forall s, image = Some (Some s) -> exists c, report = Some c /\ exc_pc c = raw_pc s) /\
  (erased = true -> (take_coredump_summary true after).2 = None) /\
  (image = None \/ image = Some None -> report = None).
Proof.
  destruct image as [[s|]|], erased; cbn; split_and!; try done; try naive_solver.
  all: intros s' [= <-]; eexists; split; [done|]; unfold summarise; by destruct (raw_exception s).
Qed.
