(* ===== verification/Metrics.v ===== *)
(** * Metrics ([src/metrics.rs])

    What the dashboard's [/metrics] and the log say of the device: the
    counters are the SDK's, gathered in [readings]; why the last run ended is
    kept in three cells that are set once at boot. *)

From S2P Require Import Prelude RustStr RustStrLemmas Platform Json Crash Runtime Executor.

(** ** The last run *)

(** [ResetReason], by the variants the source tells apart. *)
Inductive ResetReason :=
| PowerOn | Software | Panic | TaskWatchdog | InterruptWatchdog | Watchdog_ | Brownout | DeepSleep | ExternalPin | JTAG
| USBPeripheral | OtherReason.

(** The three [OnceLock]s. *)
Record last_run := LastRun {
  LAST_RESET : option ResetReason;
  LAST_PANIC : option (option bytes);
  LAST_COREDUMP : option (option CoredumpSummary);
}.
Definition no_last_run : last_run := LastRun None None None.

(** [OnceLock::set] *)
Definition once {A} (a : A) (cell : option A) : option A := match cell with Some b => Some b | None => Some a end.

Definition set_last_reset (r : ResetReason) (l : last_run) : last_run :=
  LastRun (once r (LAST_RESET l)) (LAST_PANIC l) (LAST_COREDUMP l).
Definition set_last_panic (msg : option bytes) (l : last_run) : last_run :=
  LastRun (LAST_RESET l) (once msg (LAST_PANIC l)) (LAST_COREDUMP l).
Definition set_last_coredump (c : option CoredumpSummary) (l : last_run) : last_run :=
  LastRun (LAST_RESET l) (LAST_PANIC l) (once c (LAST_COREDUMP l)).

(** What [main] does with them. *)
Definition record_last_run (r : ResetReason) (m : CrashLog) (erased : bool) (image : option (option dump_summary))
    (l : last_run) : CrashLog * option (option dump_summary) * last_run :=
  let l := set_last_reset r l in
  let '(m, panic) := take_last_panic m in
  let l := set_last_panic panic l in
  let '(image, dump) := take_coredump_summary erased image in
  (m, image, set_last_coredump dump l).

Definition last_panic (l : last_run) : option bytes := default None (LAST_PANIC l).

Definition last_panic_str (l : last_run) : bytes :=
  match last_panic l with Some m => bs " | panic: " ++ m | None => [] end.

Definition last_reset_str (l : last_run) : bytes :=
  bs match LAST_RESET l with
     | Some PowerOn => "PowerOn"
     | Some Software => "Software (esp_restart)"
     | Some Panic => "Panic / exception (crash)"
     | Some TaskWatchdog => "TaskWatchdog"
     | Some InterruptWatchdog => "InterruptWatchdog"
     | Some Watchdog_ => "Watchdog"
     | Some Brownout => "Brownout (power dip)"
     | Some DeepSleep => "DeepSleep"
     | Some ExternalPin => "ExternalPin"
     | Some JTAG => "JTAG"
     | Some USBPeripheral => "USBPeripheral"
     | Some OtherReason => "Other"
     | None => "Unknown"
     end.

(** [format!("{:08x}")] of a [u32], which has eight digits at most. *)
Definition hex_char (d : Z) : byte := byte_of_Z (if d <? 10 then 48 + d else 87 + d).
Fixpoint hex_digits (n : nat) (z : Z) : bytes :=
  match n with O => [] | S n => hex_digits n (z / 16) ++ [hex_char (z mod 16)] end.
Definition hex_word (z : Z) : bytes := bs "0x" ++ hex_digits 8 z.

Definition coredump_value (c : CoredumpSummary) : json :=
  JObject [
    ("task", JString (task c));
    ("exc_pc", JString (hex_word (exc_pc c)));
    ("exc_cause", JNumber (exc_cause c));
    ("fault_addr", JString (hex_word (fault_addr c)));
    ("backtrace", JArray (map (fun p => JString (hex_word p)) (backtrace c)));
    ("bt_corrupted", JBool (bt_corrupted c))].
Definition coredump_json (l : last_run) : option json := coredump_value <$> default None (LAST_COREDUMP l).

(** ** The counters *)

(** What the SDK's accessors answer.  [high_water]: the stack a task of that
    name never used, if there is one. *)
Record readings := Readings {
  esp_free_heap : Z;
  esp_free_internal : Z;
  esp_minimum_free : Z;
  caps_free : list malloc_cap -> Z;
  caps_largest : list malloc_cap -> Z;
  caps_minimum_free : list malloc_cap -> Z;
  timer_us : Z;
  high_water : string -> option Z;
  sta_rssi : option Z;
}.

Section Counters.
Context `{board : Board} (qemu : bool) (x : readings).

Definition internal_8bit : list malloc_cap := [MALLOC_CAP_INTERNAL; MALLOC_CAP_8BIT].

Definition stack_free_min (name : string) : option Z :=
  match high_water x name with
  | Some n => Some (wrap 32 n)
  | None => if bool_decide (name = "wa-main"%string) then wrap 32 <$> high_water x "main" else None
  end.

Definition heap_now : Z * Z := (caps_free x internal_8bit, caps_largest x internal_8bit).

(** [Note::fmt] *)
Definition heap_note : bytes :=
  if has_psram then [] else bs " heap=" ++ dec (caps_free x internal_8bit) ++ bs "/" ++ dec (caps_largest x internal_8bit).

Definition opt_display (o : option Z) : bytes := match o with Some v => dec v | None => bs "-" end.

Definition stack_line : bytes :=
  bs "wa-main=" ++ opt_display (stack_free_min "wa-main") ++ bs " wa-blocking=" ++ opt_display (stack_free_min "wa-blocking") ++
  bs " ws-transport=" ++ opt_display (stack_free_min "ws-transport") ++ bs " wa-nvs=" ++ opt_display (stack_free_min "wa-nvs").

(** [log_memory_profile]: the lines it logs. *)
Definition log_memory_profile (at_ : bytes) : list bytes :=
  let '(free, largest) := heap_now in
  (if qemu then [bs "stack before heap at " ++ at_ ++ bs ": " ++ stack_line] else []) ++
  [bs "memory at " ++ at_ ++ bs ": internal heap " ++ dec free ++ bs " free, largest block " ++ dec largest ++
   bs "; stack never-used " ++ stack_line].

Definition opt_number (o : option Z) : json := match o with Some v => JNumber v | None => Null end.

(** [system_metrics_json], before it is made text. *)
Definition system_metrics_json (l : last_run) : json :=
  JObject [
    ("reset_reason", JString (last_reset_str l));
    ("uptime_s", JNumber (Z.quot (timer_us x) 1000000));
    ("heap_free", JNumber (esp_free_heap x));
    ("heap_internal_free", JNumber (esp_free_internal x));
    ("heap_min_free", JNumber (esp_minimum_free x));
    ("internal_largest_block", JNumber (caps_largest x [MALLOC_CAP_INTERNAL]));
    ("internal_min_free", JNumber (caps_minimum_free x [MALLOC_CAP_INTERNAL]));
    ("internal_8bit_largest_block", JNumber (caps_largest x internal_8bit));
    ("internal_8bit_min_free", JNumber (caps_minimum_free x internal_8bit));
    ("psram_free", JNumber (caps_free x [MALLOC_CAP_SPIRAM]));
    ("psram_largest_block", JNumber (caps_largest x [MALLOC_CAP_SPIRAM]));
    ("stack_wa_main_min", opt_number (stack_free_min "wa-main"));
    ("stack_wa_blocking_min", opt_number (stack_free_min "wa-blocking"));
    ("stack_wa_nvs_min", opt_number (stack_free_min "wa-nvs"));
    ("stack_ws_transport_min", opt_number (stack_free_min "ws-transport"));
    ("rssi_dbm", opt_number (if qemu then None else sta_rssi x));
    ("last_panic", opt_string (last_panic l));
    ("coredump", default Null (coredump_json l))].
End Counters.

(** ** Reading a report back *)

Definition word_of_hex (l : bytes) : option Z := if starts_with (bs "0x") l then parse_hex 32 (drop 2 l) else None.
Definition as_hex (v : json) : option Z := s ← as_str v; word_of_hex s.
Definition as_number (v : json) : option Z := match v with JNumber z => Some z | _ => None end.
Definition as_bool (v : json) : option bool := match v with JBool b => Some b | _ => None end.
Definition as_array (v : json) : option (list json) := match v with JArray l => Some l | _ => None end.

Definition coredump_of (v : json) : option CoredumpSummary :=
  task ← get_field "task" v ≫= as_str;
  pc ← get_field "exc_pc" v ≫= as_hex;
  cause ← get_field "exc_cause" v ≫= as_number;
  addr ← get_field "fault_addr" v ≫= as_hex;
  trace ← get_field "backtrace" v ≫= as_array;
  trace ← mapM as_hex trace;
  corrupted ← get_field "bt_corrupted" v ≫= as_bool;
  Some (MkCoredumpSummary task pc cause addr trace corrupted).

(** A value that may be [null]. *)
Definition nullable {A} (read : json -> option A) (v : json) : option (option A) :=
  match v with Null => Some None | _ => Some <$> read v end.

Definition report_of (v : json) : option (bytes * option bytes * option CoredumpSummary) :=
  reset ← get_field "reset_reason" v ≫= as_str;
  panic ← get_field "last_panic" v ≫= nullable as_str;
  dump ← get_field "coredump" v ≫= nullable coredump_of;
  Some (reset, panic, dump).

Lemma hex_char_digit d : 0 <= d < 16 -> hex_digit (hex_char d) = Some d /\ hex_char d <> x2b.
Proof.
  intros Hd.
  assert (H : forallb (fun d => bool_decide (hex_digit (hex_char (Z.of_nat d)) = Some (Z.of_nat d) /\
    hex_char (Z.of_nat d) <> x2b)) (seq 0 16) = true) by by vm_compute.
  rewrite forallb_forall in H. specialize (H (Z.to_nat d)). rewrite Z2Nat.id, bool_decide_eq_true in H by lia.
  apply H, in_seq. lia.
Qed.

Lemma hex_digits_value n : forall z, 0 <= z < 16 ^ Z.of_nat n -> z < 2 ^ 32 ->
  digits_value 32 16 hex_digit (hex_digits n z) 0 = Some z.
Proof.
  induction n as [|n IH]; intros z Hz Hw; [cbn in *; by assert (z = 0) as -> by lia|].
  rewrite Nat2Z.inj_succ, Z.pow_succ_r in Hz by lia. cbn [hex_digits].
  pose proof (Z.mod_pos_bound z 16 ltac:(lia)) as Hm. pose proof (Z.div_mod z 16 ltac:(lia)) as Hd.
  rewrite digits_value_snoc, IH; [|split; [apply Z.div_pos; lia|apply Z.div_lt_upper_bound; lia]|lia].
  destruct (hex_char_digit (z mod 16) Hm) as [-> _]. replace (z / 16 * 16 + z mod 16) with z by lia.
  assert (fits 32 z = true) as -> by (unfold fits; rewrite andb_true_iff, Z.leb_le, Z.ltb_lt; lia). done.
Qed.

Lemma hex_digits_head n z : exists d l, hex_digits (S n) z = hex_char (d mod 16) :: l.
Proof.
  revert z. induction n as [|n IH]; intros z; [by exists z, []|]. cbn [hex_digits] in *.
  destruct (IH (z / 16)) as (d & l & ->). by eexists d, _.
Qed.

(** A word that is printed is read back. *)
Lemma word_of_hex_word z : 0 <= z < 2 ^ 32 -> word_of_hex (hex_word z) = Some z.
Proof.
  intros Hz. unfold word_of_hex, hex_word.
  change (starts_with (bs "0x") (bs "0x" ++ hex_digits 8 z)) with true.
  change (drop 2 (bs "0x" ++ hex_digits 8 z)) with (hex_digits 8 z).
  assert (Hv := hex_digits_value 8 z ltac:(lia) ltac:(lia)).
  destruct (hex_digits_head 7 z) as (d & l & E). rewrite E in *. unfold parse_hex, parse_radix.
  destruct (hex_char_digit (d mod 16)) as [_ Hp]; [apply Z.mod_pos_bound; lia|].
  by destruct (hex_char (d mod 16)).
Qed.

(** Looks a field up by its name. *)
Ltac fields :=
  cbn;
  repeat match goal with
  | |- context [bool_decide (?a = ?b :> string)] =>
      let r := eval vm_compute in (bool_decide (a = b)) in
      change (bool_decide (a = b)) with r; cbn
  end.

#[local] Arguments hex_word : simpl never.
#[local] Arguments word_of_hex : simpl never.

Lemma hex_words ps : Forall (fun p => 0 <= p < 2 ^ 32) ps -> mapM as_hex (map (fun p => JString (hex_word p)) ps) = Some ps.
Proof.
  induction 1 as [|p ps Hp _ IH]; [done|]. cbn. rewrite word_of_hex_word by done. cbn. by rewrite IH.
Qed.

(** The words of a summary fit their type. *)
Record dump_fits (c : CoredumpSummary) : Prop := {
  pc_fits : 0 <= exc_pc c < 2 ^ 32;
  addr_fits : 0 <= fault_addr c < 2 ^ 32;
  trace_fits : Forall (fun p => 0 <= p < 2 ^ 32) (backtrace c);
}.

Lemma coredump_read_back c : dump_fits c -> coredump_of (coredump_value c) = Some c.
Proof.
  intros [H1 H2 H3]. unfold coredump_of, coredump_value. fields. rewrite !word_of_hex_word by done. cbn.
  rewrite hex_words by done. by destruct c.
Qed.

Lemma nullable_read_back c : dump_fits c -> nullable coredump_of (coredump_value c) = Some (Some c).
Proof. intros Hc. change (Some <$> coredump_of (coredump_value c) = Some (Some c)). by rewrite coredump_read_back. Qed.
#[local] Arguments coredump_value : simpl never.
#[local] Arguments nullable : simpl nomatch.

(** What the SDK's summary is made of. *)
Definition summary_fits (s : dump_summary) : Prop :=
  0 <= raw_pc s < 2 ^ 32 /\
  match raw_exception s with
  | Xtensa _ vaddr _ bt _ => 0 <= vaddr < 2 ^ 32 /\ Forall (fun p => 0 <= p < 2 ^ 32) bt
  | RiscV _ mtval ra => 0 <= mtval < 2 ^ 32 /\ 0 <= ra < 2 ^ 32
  end.

Lemma summarise_fits s : summary_fits s -> dump_fits (summarise s).
Proof.
  intros [Hp He]. unfold summarise. destruct (raw_exception s) as [c v d bt k|c v ra]; destruct He as [Hv He]; split; cbn; try done.
  - by apply Forall_take.
  - destruct (_ && _); repeat constructor; lia.
Qed.

(** The reasons have different names. *)
Lemma last_reset_str_inj l l' : last_reset_str l = last_reset_str l' -> LAST_RESET l = LAST_RESET l'.
Proof. unfold last_reset_str. by destruct (LAST_RESET l) as [[]|], (LAST_RESET l') as [[]|]. Qed.

(** Setting the cells again changes nothing. *)
Inductive setter := SetReset (r : ResetReason) | SetPanic (m : option bytes) | SetCoredump (c : option CoredumpSummary).
Definition set_cell (l : last_run) (s : setter) : last_run :=
  match s with
  | SetReset r => set_last_reset r l
  | SetPanic m => set_last_panic m l
  | SetCoredump c => set_last_coredump c l
  end.

Lemma cells_are_set_once again : forall r p c, foldl set_cell (LastRun (Some r) (Some p) (Some c)) again = LastRun (Some r) (Some p) (Some c).
Proof. induction again as [|[] again IH]; intros; [done|..]; apply IH. Qed.

(** C40. [/metrics] tells the whole of how the last run ended, for as long as
    the device is up.  Whatever the counters read and whatever is set after
    the boot: the snapshot reads back as the reset reason, whose names differ,
    the panic message that the RTC memory held, and the core dump the flash
    held, every word of it; and the next boot, with the dump erased, reports
    neither again. *)
Theorem metrics_tell_the_last_run qemu x r m erased image again :
  (forall s, image = Some (Some s) -> summary_fits s) ->
  let '(m', image', l) := record_last_run r m erased image no_last_run in
  report_of (system_metrics_json qemu x (foldl set_cell l again)) =
    Some (last_reset_str (LastRun (Some r) None None), (take_last_panic m).2, summarise <$> (image ≫= id)) /\
  (forall r', last_reset_str (LastRun (Some r') None None) = last_reset_str (LastRun (Some r) None None) -> r' = r) /\
  (erased = true -> forall r', exists reset,
    report_of (system_metrics_json qemu x (record_last_run r' m' true image' no_last_run).2) = Some (reset, None, None)).
Proof.
  intros Hf. unfold record_last_run. destruct (take_last_panic m) as [m' panic] eqn:Ep.
  assert (Hp : (take_last_panic m').2 = None).
  { unfold take_last_panic in *. destruct (Z.eqb_spec (magic m) CRASH_MAGIC) as [E|E]; simplify_eq/=; [done|].
    by destruct (Z.eqb_spec (magic m') CRASH_MAGIC). }
  destruct (take_coredump_summary erased image) as [image' dump] eqn:Ed.
  assert (dump = summarise <$> (image ≫= id)) as -> by (unfold take_coredump_summary in Ed; by destruct image as [[]|]; simplify_eq/=).
  unfold set_last_reset, set_last_panic, set_last_coredump.
  cbn [once no_last_run LAST_RESET LAST_PANIC LAST_COREDUMP snd].
  rewrite cells_are_set_once. split_and!.
  - unfold report_of, system_metrics_json. fields. destruct panic, image as [[s|]|]; cbn; try done.
    all: rewrite ?nullable_read_back by (by apply summarise_fits, Hf); done.
  - intros r' E. by apply last_reset_str_inj in E as [= ->].
  - intros ->. assert (image' = None) as -> by (unfold take_coredump_summary in Ed; by destruct image; simplify_eq/=).
    intros r'. destruct (take_last_panic m') as [m2 p2]. cbn in Hp. subst p2. by eexists.
Qed.

(** A panic and a RISC-V dump, on a board without PSRAM. *)
Definition quiet_board : readings := Readings 0 0 0 (fun _ => 0) (fun _ => 0) (fun _ => 0) 5000000 (fun _ => None) None.
Definition c3_dump : dump_summary := DumpSummary (bs "wa-main") 0x42001234 (RiscV 5 0 0x4200abcd).

Lemma metrics_tell_the_last_run_witness :
  let m := record_all (record_panic [bs "boom"] 1024 512) power_on in
  report_of (system_metrics_json false quiet_board
    (record_last_run Panic m true (Some (Some c3_dump)) no_last_run).2) =
  Some (bs "Panic / exception (crash)", Some (bs "boom" ++ Crash.heap_note 1024 512),
    Some (MkCoredumpSummary (bs "wa-main") 0x42001234 5 0 [0x42001234; 0x4200abcd] false)).
Proof.
  cbn zeta. pose proof (metrics_tell_the_last_run false quiet_board Panic (record_all (record_panic [bs "boom"] 1024 512) power_on)
    true (Some (Some c3_dump)) []) as H.
  destruct (record_last_run _ _ _ _ _) as [[m' image'] l] eqn:E. cbn [snd foldl] in *.
  destruct H as [-> _]; [|by vm_compute]. intros s [= <-]. by vm_compute; split_and!.
Defined.
