(* ===== verification/DeviceStatus.v ===== *)
(** * The status the dashboard shows ([DeviceStatus] of [src/supervisor.rs])

    The state behind the mutex, one function per method; a time is an
    [Instant] in nanoseconds, read by the caller of a method.  The message log
    is [src/supervisor/message_log.rs]. *)

From S2P Require Import Prelude RustStr RustStrLemmas Utf8 Json.

Definition MAX_LOGGED_TEXT_BYTES : Z := 256.
Definition MESSAGE_LOG_CAPACITY : Z := 16.
(** The UTF-8 bytes of the ellipsis character. *)
Definition ELLIPSIS : bytes := [xe2; x80; xa6].
Definition NANOS : Z := 10 ^ 9.

Record MessageLogEntry := {
  id : bytes;
  chat : bytes;
  sender : bytes;
  text : option bytes;
  timestamp : Z;
  from_me : bool;
}.

Inductive PairCodeState :=
| Idle
| Pending (request_id : Z)
| Ready (code : bytes) (expires_at : Z)
| Error (message : bytes).
#[global] Instance PairCodeState_eq_dec : EqDecision PairCodeState.
Proof. solve_decision. Defined.

(** [DeviceStatusInner] *)
Record DeviceStatus := Status {
  qr_code : option bytes;
  connected : bool;
  pn : option bytes;
  lid : option bytes;
  pair_code : PairCodeState;
  next_pair_code_request : Z;
  messages : list MessageLogEntry;
}.

Definition new : DeviceStatus := Status None false None None Idle 1 [].

Definition set_pair_code (x : PairCodeState) (s : DeviceStatus) : DeviceStatus :=
  Status (qr_code s) (connected s) (pn s) (lid s) x (next_pair_code_request s) (messages s).
Definition set_messages (x : list MessageLogEntry) (s : DeviceStatus) : DeviceStatus :=
  Status (qr_code s) (connected s) (pn s) (lid s) (pair_code s) (next_pair_code_request s) x.

Definition is_connected (s : DeviceStatus) : bool := connected s.

Definition set_qr_code (code : bytes) (s : DeviceStatus) : DeviceStatus :=
  Status (Some code) false (pn s) (lid s) (pair_code s) (next_pair_code_request s) (messages s).
Definition clear_qr_code (s : DeviceStatus) : DeviceStatus :=
  Status None (connected s) (pn s) (lid s) (pair_code s) (next_pair_code_request s) (messages s).
Definition set_connected (pn lid : option bytes) (s : DeviceStatus) : DeviceStatus :=
  Status None true pn lid Idle (next_pair_code_request s) (messages s).
Definition set_disconnected (s : DeviceStatus) : DeviceStatus :=
  Status (qr_code s) false (pn s) (lid s) (pair_code s) (next_pair_code_request s) (messages s).
Definition set_logged_out (s : DeviceStatus) : DeviceStatus :=
  Status (qr_code s) false None None (pair_code s) (next_pair_code_request s) [].

(** ** Pairing by code *)

Definition begin_pair_code (now : Z) (s : DeviceStatus) : DeviceStatus * result bytes Z :=
  let reserve :=
    let request_id := next_pair_code_request s in
    (Status (qr_code s) (connected s) (pn s) (lid s) (Pending request_id) (wrap 32 (request_id + 1)) (messages s),
     Ok request_id) in
  match pair_code s with
  | Pending _ => (s, Err (bs "A linking code is being generated"))
  | Ready _ expires_at =>
      if expires_at >? now then (s, Err (bs "A linking code is already active")) else reserve
  | _ => reserve
  end.

Definition pair_code_request_is (state : PairCodeState) (wanted : Z) : bool :=
  match state with Pending request_id => request_id =? wanted | _ => false end.

Definition complete_pair_code (now request_id : Z) (code : bytes) (valid_for : Z) (s : DeviceStatus) : DeviceStatus :=
  if pair_code_request_is (pair_code s) request_id then set_pair_code (Ready code (now + valid_for)) s else s.

Definition fail_pair_code (request_id : Z) (message : bytes) (s : DeviceStatus) : DeviceStatus :=
  if pair_code_request_is (pair_code s) request_id then set_pair_code (Error message) s else s.

(** ** Messages *)

(** [(0..=n).rev().find(|&i| text.is_char_boundary(i)).unwrap_or(0)] *)
Fixpoint last_boundary (n : nat) (l : bytes) : nat :=
  if is_char_boundary l (Z.of_nat n) then n
  else match n with O => O | S n => last_boundary n l end.

(** The text as it is logged. *)
Definition preview (t : bytes) : bytes :=
  if len t >? MAX_LOGGED_TEXT_BYTES then
    let budget := MAX_LOGGED_TEXT_BYTES - len ELLIPSIS in
    let end_ := last_boundary (Z.to_nat budget) t in
    take end_ t ++ ELLIPSIS
  else t.

Definition preview_entry (e : MessageLogEntry) : MessageLogEntry :=
  Build_MessageLogEntry (id e) (chat e) (sender e) (option_map preview (text e)) (timestamp e) (from_me e).

Definition record_message (e : MessageLogEntry) (s : DeviceStatus) : DeviceStatus :=
  let log := messages s in
  let log := if len log =? MESSAGE_LOG_CAPACITY then tail log else log in
  set_messages (log ++ [preview_entry e]) s.

(** ** What the routes answer *)

Definition pair_code_json (now : Z) (state : PairCodeState) : json :=
  match state with
  | Idle => JObject [("state", JString (bs "idle"))]
  | Pending _ => JObject [("state", JString (bs "pending"))]
  | Ready code expires_at =>
      let remaining := Z.max 0 (expires_at - now) in
      if remaining =? 0 then JObject [("state", JString (bs "expired"))]
      else JObject [("state", JString (bs "ready")); ("code", JString code);
                    ("expires_in_seconds", JNumber (remaining / NANOS))]
  | Error message => JObject [("state", JString (bs "error")); ("message", JString message)]
  end.

(** The value [to_json_authenticated] prints. *)
Definition status_json (now : Z) (authenticated : bool) (s : DeviceStatus) : json :=
  let pair_code :=
    if negb authenticated then JObject [("state", JString (bs "redacted"))]
    else pair_code_json now (pair_code s) in
  JObject [
    ("qr_code", opt_string (if authenticated then qr_code s else None));
    ("connected", JBool (connected s));
    ("pn", opt_string (if authenticated then pn s else None));
    ("lid", opt_string (if authenticated then lid s else None));
    ("pair_code", pair_code)].

Definition entry_json (e : MessageLogEntry) : json :=
  JObject [("id", JString (id e)); ("chat", JString (chat e)); ("sender", JString (sender e));
           ("text", opt_string (text e)); ("timestamp", JNumber (timestamp e)); ("from_me", JBool (from_me e))].
(** The value [message_log::to_json] prints. *)
Definition messages_value (l : list MessageLogEntry) : json :=
  JObject [("count", JNumber (len l)); ("messages", JArray (map entry_json l))].

Section Text.
Context `{SerdeJson}.

Definition to_json_authenticated (now : Z) (authenticated : bool) (s : DeviceStatus) : bytes :=
  json_text (status_json now authenticated s).
Definition messages_json (s : DeviceStatus) : bytes := json_text (messages_value (messages s)).
End Text.

(** ** Lemmas *)

Lemma last_boundary_spec n l :
  is_char_boundary l (Z.of_nat (last_boundary n l)) = true /\ (last_boundary n l <= n)%nat /\
  forall i, (i <= n)%nat -> is_char_boundary l (Z.of_nat i) = true -> (i <= last_boundary n l)%nat.
Proof.
  induction n as [|n IH]; cbn [last_boundary].
  - split_and!; [done|done|]. intros i Hi _. by destruct (is_char_boundary l (Z.of_nat 0)).
  - destruct (is_char_boundary l (Z.of_nat (S n))) eqn:E; [split_and!; [done|done|lia]|].
    destruct IH as (H1 & H2 & H3). split_and!; [done|lia|].
    intros i Hi Hb. destruct (decide (i = S n)) as [->|Hne]; [congruence|]. apply H3; [lia|done].
Qed.

(** The preview of a text: all of it, or the longest front that leaves room
    for the ellipsis and ends between characters. *)
Lemma preview_spec t : utf8_valid t = true ->
  utf8_valid (preview t) = true /\ len (preview t) <= MAX_LOGGED_TEXT_BYTES /\
  (len t <= MAX_LOGGED_TEXT_BYTES -> preview t = t) /\
  (MAX_LOGGED_TEXT_BYTES < len t -> exists p, p `prefix_of` t /\ preview t = p ++ ELLIPSIS /\ 250 <= len p <= 253).
Proof.
  intros Ht. unfold preview, MAX_LOGGED_TEXT_BYTES. zcase; [|split_and!; [done|lia|done|lia]].
  set (n := Z.to_nat (256 - len ELLIPSIS)). assert (En : n = 253%nat) by done.
  destruct (last_boundary_spec n t) as (H1 & H2 & H3). unfold len in *.
  assert (Hv : utf8_valid (take (last_boundary n t) t) = true) by (apply utf8_valid_boundary; [done|lia|done]).
  assert (Hl : Z.of_nat (length (take (last_boundary n t) t)) = Z.of_nat (last_boundary n t)) by (rewrite length_take; lia).
  destruct (boundary_near t Ht n) as (i & Hi & Hb); [lia|]. apply H3 in Hb; [|lia].
  change (length ELLIPSIS) with 3%nat. rewrite length_app. change (length ELLIPSIS) with 3%nat.
  split_and!; [by apply utf8_valid_app|lia|lia|].
  intros _. eexists. split_and!; [by apply prefix_take|done|lia|lia].
Qed.

(** ** Histories *)

Inductive status_op :=
| SetQrCode (code : bytes) | ClearQrCode
| SetConnected (pn lid : option bytes) | SetDisconnected | SetLoggedOut
| BeginPairCode (now : Z) | CompletePairCode (now request_id : Z) (code : bytes) (valid_for : Z)
| FailPairCode (request_id : Z) (message : bytes)
| RecordMessage (e : MessageLogEntry).

Definition apply (o : status_op) (s : DeviceStatus) : DeviceStatus :=
  match o with
  | SetQrCode code => set_qr_code code s
  | ClearQrCode => clear_qr_code s
  | SetConnected pn lid => set_connected pn lid s
  | SetDisconnected => set_disconnected s
  | SetLoggedOut => set_logged_out s
  | BeginPairCode now => (begin_pair_code now s).1
  | CompletePairCode now request_id code valid_for => complete_pair_code now request_id code valid_for s
  | FailPairCode request_id message => fail_pair_code request_id message s
  | RecordMessage e => record_message e s
  end.
Definition history (os : list status_op) (s : DeviceStatus) : DeviceStatus := foldl (fun s o => apply o s) s os.

(** The messages since the last logout. *)
Definition recorded (os : list status_op) : list MessageLogEntry :=
  foldl (fun l o => match o with RecordMessage e => l ++ [e] | SetLoggedOut => [] | _ => l end) [] os.
Definition last_n {A} (n : nat) (l : list A) : list A := drop (length l - n) l.

(** The ids the successful [begin_pair_code]s of a history handed out. *)
Fixpoint issued (os : list status_op) (s : DeviceStatus) : list Z :=
  match os with
  | [] => []
  | o :: os =>
      match o with
      | BeginPairCode now => match (begin_pair_code now s).2 with Ok r => [r] | Err _ => [] end
      | _ => []
      end ++ issued os (apply o s)
  end.

Lemma history_snoc os o s : history (os ++ [o]) s = apply o (history os s).
Proof. unfold history. by rewrite foldl_app. Qed.

Lemma apply_messages o s : messages (apply o s) =
  match o with
  | RecordMessage e => messages (record_message e s)
  | SetLoggedOut => []
  | _ => messages s
  end.
Proof.
  destruct o; try done; cbn [apply].
  - unfold begin_pair_code. destruct (pair_code s); try done. by zcase.
  - unfold complete_pair_code. by destruct (pair_code_request_is _ _).
  - unfold fail_pair_code. by destruct (pair_code_request_is _ _).
Qed.

Lemma last_n_snoc {A} n (l : list A) x : (0 < n)%nat ->
  last_n n (l ++ [x]) = (if decide (length (last_n n l) = n) then tail (last_n n l) else last_n n l) ++ [x].
Proof.
  intros Hn. unfold last_n. rewrite length_app, length_drop. cbn [length].
  rewrite drop_app_le by lia. f_equal.
  case_decide as E.
  - assert (Ed : (length l + 1 - n = S (length l - n))%nat) by lia. rewrite Ed.
    rewrite <- Nat.add_1_r, <- drop_drop. by destruct (drop (length l - n) l).
  - f_equal. lia.
Qed.

Lemma messages_history os :
  messages (history os new) = last_n (Z.to_nat MESSAGE_LOG_CAPACITY) (map preview_entry (recorded os)).
Proof.
  induction os as [|o os IH] using rev_ind; [done|]. rewrite history_snoc, apply_messages.
  unfold recorded in *. rewrite foldl_app. cbn [foldl].
  destruct o; try exact IH; [done|]. unfold record_message. cbn [messages set_messages]. rewrite IH.
  rewrite map_app. cbn [map]. rewrite last_n_snoc by (unfold MESSAGE_LOG_CAPACITY; lia).
  f_equal. unfold len. case_decide as E; [rewrite (proj2 (Z.eqb_eq _ _)); [done|rewrite E; done]|].
  rewrite (proj2 (Z.eqb_neq _ _)); [done|]. intros H. apply E.
  unfold MESSAGE_LOG_CAPACITY in *. lia.
Qed.

Lemma issued_snoc os : forall o s, issued (os ++ [o]) s = issued os s ++ issued [o] (history os s).
Proof.
  induction os as [|o' os IH]; intros o s; [done|]. cbn [app issued]. rewrite IH. by rewrite (assoc_L (++)).
Qed.

Lemma begin_next now s : next_pair_code_request (begin_pair_code now s).1 =
  match (begin_pair_code now s).2 with
  | Ok _ => wrap 32 (next_pair_code_request s + 1)
  | Err _ => next_pair_code_request s
  end /\ forall r, (begin_pair_code now s).2 = Ok r -> r = next_pair_code_request s.
Proof.
  unfold begin_pair_code. destruct (pair_code s); try (split; [done|by intros r [= <-]]); try done.
  zcase; (split; [done|]); [done|by intros r [= <-]].
Qed.

(** The ids handed out count up from 1, and wrap. *)
Lemma issued_ids os :
  issued os new = map (fun i => wrap 32 (Z.of_nat i)) (seq 1 (length (issued os new))) /\
  next_pair_code_request (history os new) = wrap 32 (1 + len (issued os new)).
Proof.
  induction os as [|o os IH] using rev_ind; [done|]. destruct IH as [IH1 IH2].
  rewrite issued_snoc, history_snoc. cbn [issued]. rewrite app_nil_r.
  assert (Hother : next_pair_code_request (apply o (history os new)) = next_pair_code_request (history os new) \/
    exists now, o = BeginPairCode now).
  { destruct o; try (by left); [right; by eexists|left..]; cbn [apply].
    - unfold complete_pair_code. by destruct (pair_code_request_is _ _).
    - unfold fail_pair_code. by destruct (pair_code_request_is _ _). }
  destruct o; cbn [apply] in *; try (rewrite app_nil_r; split; [done|]; destruct Hother as [->|[? [=]]]; done).
  destruct (begin_next now (history os new)) as [Hn Hr]. destruct (begin_pair_code now (history os new)).2 as [r|e].
  - specialize (Hr r eq_refl). rewrite Hn, Hr, IH2, length_app. cbn [length]. rewrite seq_app, map_app, <- IH1.
    split; [f_equal; cbn [seq map]; do 2 f_equal; unfold len; lia|].
    rewrite len_app. change (len [_]) with 1. unfold wrap. rewrite Zplus_mod_idemp_l. f_equal. lia.
  - rewrite app_nil_r, Hn. done.
Qed.

(** The message log is bounded and honest.  After any history the log
    is the last sixteen messages since the last logout, in order, each as
    it came but for its text: a text of up to 256 bytes is kept whole, a
    longer one becomes its longest front between characters that leaves room
    for the ellipsis, so what is kept is at most 256 bytes of valid UTF-8. *)
Theorem message_log_is_last_sixteen os :
  messages (history os new) = last_n 16 (map preview_entry (recorded os)) /\
  forall t, utf8_valid t = true ->
    utf8_valid (preview t) = true /\ len (preview t) <= 256 /\
    (len t <= 256 -> preview t = t) /\
    (256 < len t -> exists p, p `prefix_of` t /\ preview t = p ++ ELLIPSIS /\ 250 <= len p <= 253).
Proof. split; [apply messages_history|apply preview_spec]. Qed.

Definition said (n : nat) : MessageLogEntry :=
  Build_MessageLogEntry (dec (Z.of_nat n)) [] [] (Some (replicate 300 x61)) 0 false.
Lemma message_log_is_last_sixteen_witness :
  let s := history (map (fun n => RecordMessage (said n)) (seq 0 20)) new in
  map id (messages s) = map (fun n => dec (Z.of_nat n)) (seq 4 16) /\
  utf8_valid (preview (replicate 300 x61)) = true.
Proof.
  cbn zeta. split; [|exact (proj1 (proj2 (message_log_is_last_sixteen []) (replicate 300 x61) eq_refl))].
  rewrite (proj1 (message_log_is_last_sixteen (map (fun n => RecordMessage (said n)) (seq 0 20)))).
  by vm_compute.
Defined.

(** An attempt stands in the way of another: it is pending, or its code has
    not expired. *)
Definition engaged (now : Z) (state : PairCodeState) : Prop :=
  match state with Pending _ => True | Ready _ expires_at => now < expires_at | _ => False end.

Lemma begin_pair_code_spec now s :
  match (begin_pair_code now s).2 with
  | Ok r => ~ engaged now (pair_code s) /\ r = next_pair_code_request s /\
      (begin_pair_code now s).1 =
        Status (qr_code s) (connected s) (pn s) (lid s) (Pending r) (wrap 32 (r + 1)) (messages s)
  | Err e => engaged now (pair_code s) /\ (begin_pair_code now s).1 = s /\
      (e = bs "A linking code is being generated" <-> exists p, pair_code s = Pending p)
  end.
Proof.
  unfold begin_pair_code. destruct (pair_code s) as [|p|code e|m] eqn:E; cbn [engaged]; try (by split_and!; [intros []| |]).
  - split_and!; [done|done|]. split; [by eexists|done].
  - zcase; cbn [fst snd]; (split_and!; [lia|done|]); [|done]. split; [done|by intros [? ?]].
Qed.

(** Only the pending attempt's answer counts. *)
Lemma answer_spec now p code valid_for message s :
  complete_pair_code now p code valid_for s =
    (if decide (pair_code s = Pending p) then set_pair_code (Ready code (now + valid_for)) s else s) /\
  fail_pair_code p message s = (if decide (pair_code s = Pending p) then set_pair_code (Error message) s else s).
Proof.
  unfold complete_pair_code, fail_pair_code, pair_code_request_is.
  destruct (pair_code s) as [|q| |]; try (by rewrite decide_False).
  destruct (Z.eqb_spec q p) as [->|]; [by rewrite !decide_True|]. rewrite !decide_False by (intros [= ?]; done). done.
Qed.

(** C38. One pairing attempt at a time, and no late answer is taken for a
    newer one.  After any history of fewer than 2^32 - 1 attempts: a new one
    is admitted exactly when none is pending and no code is unexpired; one
    that is refused changes nothing, and is told which of the two it was; one
    that is admitted becomes the pending one, under an id that no earlier
    attempt had, and changes nothing else; and the answer to an attempt, code
    or failure, is taken when it is the pending one's, and otherwise changes
    nothing. *)
Theorem pair_code_attempts_are_exclusive os now :
  len (issued os new) < 2 ^ 32 - 1 ->
  let s := history os new in
  let '(t, r) := begin_pair_code now s in
  (is_ok r = true <-> ~ engaged now (pair_code s)) /\
  match r with
  | Ok request_id => t = Status (qr_code s) (connected s) (pn s) (lid s) (Pending request_id) (wrap 32 (request_id + 1)) (messages s) /\
      request_id ∉ issued os new
  | Err e => t = s /\ (e = bs "A linking code is being generated" <-> exists p, pair_code s = Pending p)
  end /\
  (forall p u code valid_for message, pair_code s = Pending p ->
     complete_pair_code u p code valid_for s = set_pair_code (Ready code (u + valid_for)) s /\
     fail_pair_code p message s = set_pair_code (Error message) s) /\
  (forall p u code valid_for message, pair_code s <> Pending p ->
     complete_pair_code u p code valid_for s = s /\ fail_pair_code p message s = s).
Proof.
  intros Hlt s. destruct (issued_ids os) as [Hids Hnext]. fold s in Hnext.
  assert (Hfresh : next_pair_code_request s ∉ issued os new).
  { rewrite Hnext. unfold len in *. remember (length (issued os new)) as n eqn:En. rewrite Hids.
    intros (i & E & Hi)%list_elem_of_fmap. apply elem_of_seq in Hi.
    unfold wrap in *. rewrite !Z.mod_small in E by lia. lia. }
  pose proof (begin_pair_code_spec now s) as Hb. destruct (begin_pair_code now s) as [t r]. cbn [fst snd] in Hb.
  split; [|split; [|split]].
  - destruct r as [r|e]; cbn [is_ok]; [tauto|]. split; [done|]. intros Hn. by destruct Hn, Hb.
  - destruct r as [r|e]; [|tauto]. destruct Hb as (_ & -> & ->). by split.
  - intros p u code v m Hp. destruct (answer_spec u p code v m s) as [-> ->]. by rewrite !decide_True.
  - intros p u code v m Hp. destruct (answer_spec u p code v m s) as [-> ->]. by rewrite !decide_False.
Qed.

Lemma pair_code_attempts_are_exclusive_witness :
  let s := history [BeginPairCode 0; FailPairCode 1 []; BeginPairCode 5] new in
  pair_code s = Pending 2 /\ complete_pair_code 6 1 (bs "ABCD") 10 s = s.
Proof.
  split; [done|].
  pose proof (pair_code_attempts_are_exclusive [BeginPairCode 0; FailPairCode 1 []; BeginPairCode 5] 7 ltac:(done)) as H.
  destruct H as (_ & _ & _ & H). apply (H 1 6 (bs "ABCD") 10 []). by intros [=].
Defined.
