(* ===== verification/Coordinator.v ===== *)
(** * The maintenance coordinator and the active client ([src/supervisor.rs])

    [MaintenanceCoordinator] arbitrates every operation that ends in a reboot;
    [ActiveClient] says which client is live.  Each method is one critical
    section of its mutex, so one function on the state behind it. *)

From S2P Require Import Prelude.

Inductive MaintenanceAction := Reboot | ClearSessions | Reset.
#[global] Instance action_eq_dec : EqDecision MaintenanceAction.
Proof. solve_decision. Defined.

(** The derived order: by how much an action destroys. *)
Definition rank (a : MaintenanceAction) : Z :=
  match a with Reboot => 0 | ClearSessions => 1 | Reset => 2 end.
Definition action_max (a b : MaintenanceAction) : MaintenanceAction := if rank b <? rank a then a else b.

Inductive MaintenanceRequest := Start | Queued | Rejected.
#[global] Instance request_eq_dec : EqDecision MaintenanceRequest.
Proof. solve_decision. Defined.

Record MaintenanceState := Coordinator {
  requested_action : option MaintenanceAction;
  running : bool;
  accepting : bool;
}.

Definition new : MaintenanceState := Coordinator None false true.

Definition request (action : MaintenanceAction) (state : MaintenanceState) : MaintenanceState * MaintenanceRequest :=
  if negb (accepting state) then (state, Rejected)
  else
    let requested :=
      match requested_action state with None => action | Some current => action_max current action end in
    if running state then (Coordinator (Some requested) true true, Queued)
    else (Coordinator (Some requested) true true, Start).

Definition requested (state : MaintenanceState) : MaintenanceAction := default Reboot (requested_action state).

Definition begin_reboot (applied : MaintenanceAction) (state : MaintenanceState) : MaintenanceState * bool :=
  match requested_action state with
  | Some requested =>
      if rank applied <? rank requested then (state, false)
      else (Coordinator (requested_action state) (running state) false, true)
  | None => (Coordinator (requested_action state) (running state) false, true)
  end.

Definition is_idle (state : MaintenanceState) : bool := accepting state && negb (running state).

Definition cancel_start (state : MaintenanceState) : MaintenanceState :=
  Coordinator None false (accepting state).

Lemma rank_inj a b : rank a = rank b -> a = b.
Proof. by destruct a, b. Qed.
Lemma rank_range a : 0 <= rank a <= 2.
Proof. by destruct a. Qed.
Lemma rank_action_max a b : rank (action_max a b) = Z.max (rank a) (rank b).
Proof. by destruct a, b. Qed.

(** ** The active client

    A client is known by its allocation: [Arc::ptr_eq]. *)

Section Active.
Context {Client : Type} `{EqDecision Client}.

Definition set (client : Client) (active : option Client) : option Client := Some client.
Definition is_current (client : Client) (active : option Client) : bool :=
  match active with Some current => bool_decide (current = client) | None => false end.
Definition clear_if (client : Client) (active : option Client) : option Client :=
  if is_current client active then None else active.
End Active.
