(* ===== verification/Maintenance.v ===== *)
(** * The maintenance task ([run_maintenance] of [src/supervisor.rs])

    The task is a machine that makes one access to the shared state per step,
    so that the other threads' steps can come between any two of its own:
    requests to the coordinator, methods of the store, the client that is
    live, the status.  A client's [logout] and [shutdown] are the SDK's; what
    the task asks of it is the machine's output. *)

From S2P Require Import Prelude RustStr Nvs Record SessionSlots Lru Flash Platform StoreInner Store StoreRam StoreSpec StoreHistory DeviceStatus Coordinator.

Section Maintenance.
Context {W Client : Type} `{nvsW : !Nvs W, shaW : !Sha256, wacore : Wacore, board : Board, !EqDecision Client}.

Record system := System {
  coordinator : MaintenanceState;
  nvs_store : store W;
  device_status : DeviceStatus;
  active_client : option Client;
}.

Definition set_coordinator (x : MaintenanceState) (s : system) : system :=
  System x (nvs_store s) (device_status s) (active_client s).
Definition set_store (x : store W) (s : system) : system :=
  System (coordinator s) x (device_status s) (active_client s).
Definition set_status (x : DeviceStatus) (s : system) : system :=
  System (coordinator s) (nvs_store s) x (active_client s).
Definition set_active (x : option Client) (s : system) : system :=
  System (coordinator s) (nvs_store s) (device_status s) x.

(** Where the task is, with its local variables. *)
Inductive task :=
| ReadRequest
| ReadClient (initial : MaintenanceAction)
| Stopping (initial : MaintenanceAction) (client : Client)
| ClearActive (logout_attempted : bool) (client : Client)
| Loop (client : option Client) (logout_attempted : bool) (applied : MaintenanceAction)
| ResetLogout (client : option Client) (logout_attempted : bool) (applied : MaintenanceAction)
| ForgetAccount (client : option Client) (applied : MaintenanceAction)
| Sealing (client : option Client) (logout_attempted : bool) (applied action : MaintenanceAction)
| Erasing (client : option Client) (logout_attempted : bool) (applied action : MaintenanceAction)
| Closing (client : option Client) (logout_attempted : bool) (applied : MaintenanceAction)
| Restarting (applied : MaintenanceAction)
| Stuck (applied : MaintenanceAction)
| Rebooted (applied : MaintenanceAction).

(** What a step does that the other threads can see. *)
Inductive call := Logout (client : Client) | Shutdown (client : Client) | Erase (action : MaintenanceAction).

(** [store.reset()] or [store.clear_sessions()]: whether it succeeded. *)
Definition erase (action : MaintenanceAction) (s : store W) : store W * bool :=
  match action with
  | Reset => let '(s, r) := reset s in (s, is_ok r)
  | ClearSessions => let '(s, r) := clear_sessions s in (s, is_ok r)
  | Reboot => (s, true)
  end.

(** One step of the task. *)
Definition advance (s : system) (t : task) : system * task * list call :=
  match t with
  | ReadRequest => (s, ReadClient (requested (coordinator s)), [])
  | ReadClient initial =>
      match active_client s with
      | Some client => (s, Stopping initial client, [])
      | None => (s, Loop None false Reboot, [])
      end
  | Stopping initial client =>
      match initial with
      | Reset => (s, ClearActive true client, [Logout client])
      | ClearSessions | Reboot => (s, ClearActive false client, [Shutdown client])
      end
  | ClearActive logout_attempted client =>
      (set_active (clear_if client (active_client s)) s, Loop (Some client) logout_attempted Reboot, [])
  | Loop client logout_attempted applied =>
      let requested := requested (coordinator s) in
      if rank applied <? rank requested then
        match requested with
        | Reset => (s, ResetLogout client logout_attempted applied, [])
        | ClearSessions => (s, Sealing client logout_attempted applied ClearSessions, [])
        | Reboot => (s, Closing client logout_attempted Reboot, [])
        end
      else (s, Closing client logout_attempted applied, [])
  | ResetLogout client logout_attempted applied =>
      (s, ForgetAccount client applied,
       if logout_attempted then [] else match client with Some client => [Logout client] | None => [] end)
  | ForgetAccount client applied =>
      (set_status (set_logged_out (device_status s)) s, Sealing client true applied Reset, [])
  | Sealing client logout_attempted applied action =>
      (set_store (seal_writes (nvs_store s)).1 s, Erasing client logout_attempted applied action, [])
  | Erasing client logout_attempted applied action =>
      let '(store, succeeded) := erase action (nvs_store s) in
      let s := set_store store s in
      (* a failed erasure sleeps a second and goes round *)
      if succeeded then (s, Closing client logout_attempted action, [Erase action])
      else (s, Loop client logout_attempted applied, [Erase action])
  | Closing client logout_attempted applied =>
      let '(c, closed) := begin_reboot applied (coordinator s) in
      let s := set_coordinator c s in
      if closed then (s, Restarting applied, []) else (s, Loop client logout_attempted applied, [])
  | Restarting applied =>
      (* [store.restart()] runs on the worker, or fails without it *)
      if worker (nvs_store s) then (s, Rebooted applied, []) else (s, Stuck applied, [])
  | Stuck applied => (s, Stuck applied, [])
  | Rebooted applied => (s, Rebooted applied, [])
  end.

(** ** The other threads *)

(** A step of theirs.  They never run the two maintenance operations, which
    are the task's. *)
Inductive other :=
| RequestAction (action : MaintenanceAction)
| StoreMethod (o : op)
| StatusMethod (o : status_op)
| SetClient (client : Client)
| ClearClient (client : Client).

Definition other_ok (e : other) : Prop :=
  match e with
  | StoreMethod o => op_ok o /\ maintenance o = false
  | _ => True
  end.

(** The task in its surroundings, with the requests that were accepted so
    far, the number of erasures that failed, and the task's calls. *)
Record config := Config {
  sys : system;
  at_ : task;
  accepted : list MaintenanceAction;
  failures : nat;
  calls : list call;
}.

Definition other_step (e : other) (c : config) : config :=
  let s := sys c in
  match e with
  | RequestAction a =>
      let '(m, answer) := request a (coordinator s) in
      Config (set_coordinator m s) (at_ c)
        (if bool_decide (answer = Rejected) then accepted c else a :: accepted c) (failures c) (calls c)
  | StoreMethod o => Config (set_store (step (nvs_store s) o) s) (at_ c) (accepted c) (failures c) (calls c)
  | StatusMethod o => Config (set_status (apply o (device_status s)) s) (at_ c) (accepted c) (failures c) (calls c)
  | SetClient client => Config (set_active (set client (active_client s)) s) (at_ c) (accepted c) (failures c) (calls c)
  | ClearClient client =>
      Config (set_active (clear_if client (active_client s)) s) (at_ c) (accepted c) (failures c) (calls c)
  end.

Definition erase_fails (s : system) (t : task) : bool :=
  match t with
  | Erasing _ _ _ action => negb (erase action (nvs_store s)).2
  | _ => false
  end.

Definition task_step (c : config) : config :=
  let '(s, t, out) := advance (sys c) (at_ c) in
  Config s t (accepted c) (if erase_fails (sys c) (at_ c) then S (failures c) else failures c) (calls c ++ out).

Inductive move := Own | Other (e : other).
Definition move_step (c : config) (m : move) : config :=
  match m with Own => task_step c | Other e => other_step e c end.
Definition play (ms : list move) (c : config) : config := foldl move_step c ms.
Definition own_steps (ms : list move) : nat :=
  list_sum (map (fun m => match m with Own => 1 | Other _ => 0 end) ms)%nat.
End Maintenance.
