(* ===== verification/MaintenanceTheorems.v ===== *)
(** * What maintenance guarantees

    The task of [Maintenance] against any interleaving with the other
    threads: no accepted request is lost, nothing is erased that was not
    asked for, and the task comes to its reboot. *)

From S2P Require Import Prelude RustStr Nvs NvsMem Record SessionSlots Lru Flash FlashSpec FlashRecords FlashReset Platform StoreInner Store StoreRam StoreInv StoreOps StoreSpec StoreHistory DeviceStatus Coordinator Maintenance Concrete.
#[local] Set Default Proof Using "Type*".

Lemma sessions_reset : NsSessions ∈ reset_namespaces.
Proof. by apply (bool_decide_unpack _). Qed.

Section Safety.
Context {W Client : Type} `{nvsW : !Nvs W, lawsW : !NvsLaws W, shaW : !Sha256, wacore : Wacore,
  lawsC : !WacoreLaws, board : Board, eqC : !EqDecision Client}.
Implicit Types (c : config (W := W) (Client := Client)) (t : task (Client := Client)).

(** The highest of the accepted requests. *)
Definition top (h : list MaintenanceAction) : MaintenanceAction := foldr action_max Reboot h.

Lemma top_cons a h : top (a :: h) = action_max a (top h).
Proof using Type. done. Qed.
Lemma top_max h a : a ∈ h -> rank a <= rank (top h).
Proof using Type.
  induction h as [|b h IH]; [by intros ?%not_elem_of_nil|]. rewrite top_cons, rank_action_max.
  intros [->|H]%elem_of_cons; [lia|]. apply IH in H. lia.
Qed.
Lemma top_in h : h <> [] -> top h ∈ h.
Proof using Type.
  induction h as [|b h IH]; [done|]. intros _. rewrite top_cons. destruct h as [|b' h]; [destruct b; by left|].
  destruct (decide (rank (top (b' :: h)) <= rank b)).
  - assert (action_max b (top (b' :: h)) = b) as ->; [apply rank_inj; rewrite rank_action_max; lia|by left].
  - assert (action_max b (top (b' :: h)) = top (b' :: h)) as ->; [apply rank_inj; rewrite rank_action_max; lia|].
    right. by apply IH.
Qed.

(** What the task has applied so far. *)
Definition applied_by t : MaintenanceAction :=
  match t with
  | ReadRequest | ReadClient _ | Stopping _ _ | ClearActive _ _ => Reboot
  | Loop _ _ a | ResetLogout _ _ a | ForgetAccount _ a | Sealing _ _ a _ | Erasing _ _ a _ | Closing _ _ a => a
  | Restarting a | Stuck a | Rebooted a => a
  end.
(** What it is about to apply. *)
Definition pending_action t : option MaintenanceAction :=
  match t with
  | ResetLogout _ _ _ | ForgetAccount _ _ => Some Reset
  | Sealing _ _ _ a | Erasing _ _ _ a => Some a
  | _ => None
  end.
(** The request window is closed. *)
Definition closed t : bool :=
  match t with Restarting _ | Stuck _ | Rebooted _ => true | _ => false end.
Definition erasing t : bool := match t with Erasing _ _ _ _ => true | _ => false end.
Definition blank_ns (n : ns) (s : store W) : Prop := flv s n = ∅ /\ duv s n = ∅.

(** What an applied action has left. *)
Definition effect (a : MaintenanceAction) (s : store W) : Prop :=
  match a with
  | Reboot => True
  | ClearSessions => blank_ns NsSessions s
  | Reset => forall n, n ∈ reset_namespaces -> blank_ns n s
  end.

Record inv c : Prop := {
  i_store : sinv (nvs_store (sys c));
  i_some : accepted c <> [];
  i_coordinator : coordinator (sys c) = Coordinator (Some (top (accepted c))) true (negb (closed (at_ c)));
  i_applied : rank (applied_by (at_ c)) <= rank (top (accepted c));
  i_pending a : pending_action (at_ c) = Some a ->
    a ∈ accepted c /\ rank (applied_by (at_ c)) < rank a;
  i_sealed : applied_by (at_ c) <> Reboot \/ erasing (at_ c) = true ->
    accepting_writes (nvs_store (sys c)) = false;
  i_effect : applied_by (at_ c) = top (accepted c) -> effect (applied_by (at_ c)) (nvs_store (sys c));
  i_closed : closed (at_ c) = true -> applied_by (at_ c) = top (accepted c);
  i_erased a : Erase a ∈ calls c -> a ∈ accepted c;
}.

Lemma effect_unchanged a (s u : store W) : unchanged (flash_state s) (flash_state u) -> effect a s -> effect a u.
Proof using Type.
  intros Hu. assert (Hb : forall n, blank_ns n s -> blank_ns n u).
  { intros n [H1 H2]. unfold blank_ns, flv, duv in *.
    by rewrite (unchanged_flash n _ _ Hu), (unchanged_durable n _ _ Hu). }
  destruct a; cbn [effect]; auto.
Qed.

Lemma clear_sessions_blank (s : store W) :
  wp clear_sessions (fun r u => is_ok r = true -> blank_ns NsSessions u) s.
Proof.
  unfold clear_sessions. wp_step. apply wp_run; [done|]. wp_step. wp_use record_count_spec.
  intros [n|e] f _; [|done]. unfold set_slots. do 3 wp_step. wp_use (erase_namespace_spec NsSessions [NsSessions]); [by left|].
  intros [u|e] g (_ & _ & Hb & _); [|done]. do 2 wp_step. apply wp_update. wp_step. intros _. destruct u. by apply Hb.
Qed.

Lemma discard_state {S E A} (m : M S E A) s : (discard m s).1 = (m s).1.
Proof using Type. unfold discard, bind, ret. by destruct (m s) as [u []]. Qed.

Lemma erase_spec a (s : store W) : sinv s ->
  sinv (erase a s).1 /\ accepting_writes (erase a s).1 = accepting_writes s /\
  ((erase a s).2 = true -> effect a (erase a s).1).
Proof.
  intros Hi. unfold erase. destruct a.
  - done.
  - pose proof (step_post StoreSpec.ClearSessions s Hi I) as [H1 _ _]. unfold step in H1. cbn [exec] in H1.
    pose proof (exec_gate StoreSpec.ClearSessions ltac:(done) s) as H2. cbn [exec] in H2. rewrite discard_state in H1, H2.
    pose proof (clear_sessions_blank s) as H3. unfold wp in H3.
    by destruct (clear_sessions s) as [u r].
  - pose proof (step_post ResetOp s Hi I) as [H1 _ _]. unfold step in H1. cbn [exec] in H1.
    pose proof (exec_gate ResetOp ltac:(done) s) as H2. cbn [exec] in H2.
    pose proof (reset_spec s Hi) as H3. unfold wp in H3.
    destruct (reset s) as [u [[]|e]]; [|done]. destruct H3 as (_ & H3). cbn in *. split_and!; [done|done|].
    intros _ n Hn. by apply H3.
Qed.

(** ** The invariant is kept *)

Lemma inv_request a c : inv c -> inv (other_step (RequestAction a) c).
Proof using Type.
  intros [H1 H2 H3 H4 H5 H6 H7 H8 H9]. unfold other_step. rewrite H3. unfold request. cbn [accepting].
  destruct (closed (at_ c)) eqn:Ec; cbn [negb].
  { rewrite bool_decide_true by done. split; cbn [sys at_ accepted calls set_coordinator nvs_store coordinator]; try done.
    all: by rewrite Ec. }
  cbn [running requested_action]. rewrite bool_decide_false by done.
  pose proof (rank_action_max a (top (accepted c))) as Hr.
  assert (Hm : action_max (top (accepted c)) a = top (a :: accepted c)).
  { apply rank_inj. rewrite top_cons, !rank_action_max. lia. }
  rewrite Hm. split; cbn [sys at_ accepted calls set_coordinator nvs_store coordinator]; try done.
  - by rewrite Ec.
  - rewrite top_cons, rank_action_max. lia.
  - intros b Hb. destruct (H5 b Hb). split; [by right|done].
  - intros E. apply H7, rank_inj. apply (f_equal rank) in E. rewrite top_cons, rank_action_max in E. lia.
  - by rewrite Ec.
  - intros b Hb. right. auto.
Qed.

(** A step that leaves the coordinator and the task alone and keeps what the
    store promised. *)
Lemma inv_store c (u : store W) : inv c -> sinv u ->
  (accepting_writes (nvs_store (sys c)) = false -> accepting_writes u = false) ->
  (accepting_writes (nvs_store (sys c)) = false -> unchanged (flash_state (nvs_store (sys c))) (flash_state u)) ->
  inv (Config (set_store u (sys c)) (at_ c) (accepted c) (failures c) (calls c)).
Proof using Type.
  intros [H1 H2 H3 H4 H5 H6 H7 H8 H9] Hu Hg Hf.
  split; cbn [sys at_ accepted calls set_store nvs_store coordinator]; try done; [auto|].
  intros E. destruct (decide (applied_by (at_ c) = Reboot)) as [->|Hne]; [done|].
  eapply effect_unchanged; [apply Hf, H6; by left|by apply H7].
Qed.

Lemma inv_other e c : other_ok e -> inv c -> inv (other_step e c).
Proof.
  intros Ho Hi. destruct e as [a|o|o|client|client]; [by apply inv_request| | | |].
  - destruct Ho as [Ho Hm]. apply inv_store; [done| | |].
    + by eapply op_inv, step_post; [apply Hi|].
    + intros Ha. by apply step_frozen; [apply Hi|..].
    + intros Ha. by apply step_frozen; [apply Hi|..].
  - by destruct Hi; split.
  - by destruct Hi; split.
  - by destruct Hi; split.
Qed.

(** A step that only moves the task on. *)
Lemma inv_move c s' t' out fails :
  inv c -> nvs_store s' = nvs_store (sys c) -> coordinator s' = coordinator (sys c) ->
  closed t' = closed (at_ c) -> applied_by t' = applied_by (at_ c) ->
  (forall a, pending_action t' = Some a -> a ∈ accepted c /\ rank (applied_by t') < rank a) ->
  (erasing t' = true -> accepting_writes (nvs_store (sys c)) = false) ->
  (forall a, Erase a ∉ out) ->
  inv (Config s' t' (accepted c) fails (calls c ++ out)).
Proof using Type.
  intros [H1 H2 H3 H4 H5 H6 H7 H8 H9] Es Ec Hc Ha Hp He Ho.
  split; cbn [sys at_ accepted calls]; rewrite ?Es, ?Ec, ?Hc, ?Ha; try done.
  - by rewrite <- Ha.
  - intros [Hr|Hr]; auto.
  - intros a [Hin|Hin]%elem_of_app; [auto|by destruct (Ho a)].
Qed.

Lemma no_erase (a : MaintenanceAction) : Erase a ∉ @nil (call (Client := Client)).
Proof using Type. apply not_elem_of_nil. Qed.

(** The erasure, for better or worse. *)
Lemma inv_erasing c client la applied action :
  at_ c = Erasing client la applied action -> inv c -> inv (task_step c).
Proof.
  intros Et [H1 H2 H3 H4 H5 H6 H7 H8 H9]. unfold task_step. rewrite Et in *.
  cbn [advance applied_by pending_action closed erasing] in *.
  destruct (erase_spec action _ H1) as (E1 & E2 & E3).
  destruct (erase action (nvs_store (sys c))) as [u ok]. cbn [fst snd] in *.
  destruct (H5 action eq_refl) as [Hin Hlt]. pose proof (top_max _ _ Hin).
  assert (Hs : accepting_writes u = false) by (rewrite E2; apply H6; by right).
  assert (He : forall a, Erase a ∈ calls c ++ [Erase action] -> a ∈ accepted c).
  { intros a [Ha|Ha]%elem_of_app; [auto|]. apply list_elem_of_singleton in Ha. by injection Ha as ->. }
  destruct ok; split; cbn [sys at_ accepted calls set_store nvs_store coordinator applied_by closed pending_action erasing]; try done.
  - auto.
  - intros Ea. apply (f_equal rank) in Ea. lia.
Qed.

(** Closing the window, when nothing higher was accepted meanwhile. *)
Lemma inv_closing c client la applied :
  at_ c = Closing client la applied -> inv c -> inv (task_step c).
Proof using Type.
  intros Et [H1 H2 H3 H4 H5 H6 H7 H8 H9]. unfold task_step. rewrite Et in *.
  cbn [advance applied_by pending_action closed erasing erase_fails] in *. rewrite H3. unfold begin_reboot.
  cbn [requested_action running negb]. destruct (Z.ltb_spec (rank applied) (rank (top (accepted c)))) as [Hlt|Hge];
    split; cbn [sys at_ accepted calls set_coordinator nvs_store coordinator applied_by closed pending_action erasing negb];
    rewrite ?app_nil_r; try done.
  intros _. apply rank_inj. lia.
Qed.

Lemma inv_own c : inv c -> inv (task_step c).
Proof.
  intros Hi. destruct (at_ c) as [|initial|initial client|la client|client la applied|client la applied|client applied
    |client la applied action|client la applied action|client la applied|applied|applied|applied] eqn:Et;
    try (by eapply inv_erasing); try (by eapply inv_closing);
    assert (Hp := i_pending _ Hi); assert (Hs := i_sealed _ Hi);
    rewrite Et in Hp, Hs; cbn [pending_action applied_by erasing] in Hp, Hs;
    unfold task_step; rewrite Et; cbn [advance erase_fails].
  - by apply inv_move; rewrite ?Et; auto using no_erase.
  - destruct (active_client (sys c)); by apply inv_move; rewrite ?Et; auto using no_erase.
  - destruct initial; apply inv_move; rewrite ?Et; try done; intros a Ha%list_elem_of_singleton; done.
  - by apply inv_move; rewrite ?Et; auto using no_erase.
  - assert (Hr : requested (coordinator (sys c)) = top (accepted c)) by by rewrite (i_coordinator _ Hi).
    rewrite Hr.
    destruct (Z.ltb_spec (rank applied) (rank (top (accepted c)))) as [Hlt|Hge].
    2: { by apply inv_move; rewrite ?Et; auto using no_erase. }
    pose proof (top_in _ (i_some _ Hi)) as Hin.
    destruct (top (accepted c)); [pose proof (rank_range applied); cbn in Hlt; lia|..];
      (apply inv_move; rewrite ?Et; auto using no_erase; try done; by intros a [= <-]).
  - apply inv_move; rewrite ?Et; auto using no_erase; try done.
    destruct la; [apply no_erase|]. destruct client; [|apply no_erase].
    intros a Ha%list_elem_of_singleton. done.
  - by apply inv_move; rewrite ?Et; auto using no_erase.
  - assert (H := inv_store c (seal_writes (nvs_store (sys c))).1 Hi). rewrite app_nil_r.
    destruct H as [H1 H2 H3 H4 H5 H6 H7 H8 H9]; [by destruct Hi as [[] _]; split|done|done|].
    rewrite Et in *. by split.
  - destruct (worker (nvs_store (sys c))); by apply inv_move; rewrite ?Et; auto using no_erase.
  - by apply inv_move; rewrite ?Et; auto using no_erase.
  - by apply inv_move; rewrite ?Et; auto using no_erase.
Qed.

Definition move_ok (m : move (Client := Client)) : Prop := match m with Own => True | Other e => other_ok e end.

Lemma inv_play ms : forall c, Forall move_ok ms -> inv c -> inv (play ms c).
Proof.
  induction ms as [|m ms IH]; intros c Hm Hi; [done|]. apply Forall_cons in Hm as [Hm Hms]. apply IH; [done|].
  destruct m; [by apply inv_own|by apply inv_other].
Qed.

(** The task as the [Start] answer to a request launches it. *)
Definition launch (a : MaintenanceAction) (s : system (W := W) (Client := Client)) : config :=
  Config (set_coordinator (request a (coordinator s)).1 s) ReadRequest [a] 0 [].

Lemma inv_launch a s : sinv (nvs_store s) -> coordinator s = Coordinator.new -> inv (launch a s).
Proof using Type.
  intros Hs Hc. unfold launch. rewrite Hc.
  split; cbn [sys at_ accepted calls set_coordinator nvs_store coordinator request Coordinator.new accepting negb
    requested_action running closed applied_by pending_action erasing fst]; try done.
  - by destruct a.
  - change (rank Reboot) with 0. apply rank_range.
  - by intros [?|?].
  - by intros b ?%not_elem_of_nil.
Qed.

(** ** Progress *)

Definition local_measure (t : task (Client := Client)) (T : MaintenanceAction) : Z :=
  match t with
  | ReadRequest => 15 | ReadClient _ => 14 | Stopping _ _ => 13 | ClearActive _ _ => 12
  | Loop _ _ a => if rank a <? rank T then 8 else 3
  | ResetLogout _ _ _ => 7 | ForgetAccount _ _ => 6 | Sealing _ _ _ _ => 5 | Erasing _ _ _ _ => 4
  | Closing _ _ a => if rank a <? rank T then 9 else 2
  | Restarting _ => 1
  | Stuck _ | Rebooted _ => 0
  end.
Definition measure c : Z :=
  let T := top (accepted c) in
  100 * (2 - rank T) + 20 * (2 - rank (applied_by (at_ c))) + local_measure (at_ c) T.
Definition ended t : bool := match t with Stuck _ | Rebooted _ => true | _ => false end.
(** A failed erasure sends the task back a few steps. *)
Definition budget c : Z := measure c - 5 * Z.of_nat (failures c).

Lemma local_range t T : 0 <= local_measure t T <= 15.
Proof using Type. destruct t; cbn [local_measure]; try lia; destruct (_ <? _); lia. Qed.

Lemma measure_range c : 0 <= measure c <= 255.
Proof using Type.
  unfold measure. pose proof (rank_range (top (accepted c))). pose proof (rank_range (applied_by (at_ c))).
  pose proof (local_range (at_ c) (top (accepted c))). lia.
Qed.

(** The other threads can set the task back, but only by asking for more. *)
Lemma other_measure e c : measure (other_step e c) <= measure c /\ failures (other_step e c) = failures c /\
  at_ (other_step e c) = at_ c.
Proof using Type.
  destruct e as [a|o|o|client|client]; try done. unfold other_step.
  destruct (request a (coordinator (sys c))) as [m answer]. cbn [failures at_]. split_and!; [|done|done].
  unfold measure. cbn [accepted at_]. case_bool_decide; [done|]. rewrite top_cons.
  pose proof (rank_action_max a (top (accepted c))) as Hr. pose proof (rank_range (action_max a (top (accepted c)))).
  destruct (decide (rank a <= rank (top (accepted c)))) as [Hle|Hgt].
  - assert (action_max a (top (accepted c)) = top (accepted c)) as -> by (apply rank_inj; lia). done.
  - pose proof (local_range (at_ c) (top (accepted c))).
    pose proof (local_range (at_ c) (action_max a (top (accepted c)))). lia.
Qed.

Ltac red_measure := cbn [accepted at_ applied_by failures local_measure].

Lemma own_measure c : inv c -> ended (at_ c) = false -> budget (task_step c) + 1 <= budget c.
Proof using Type.
  intros Hi He. assert (Hp := i_pending _ Hi). assert (Ha := i_applied _ Hi).
  assert (Hr : requested (coordinator (sys c)) = top (accepted c)) by by rewrite (i_coordinator _ Hi).
  assert (Hco := i_coordinator _ Hi). unfold budget, measure, task_step.
  destruct (at_ c) as [|initial|initial client|la client|client la applied|client la applied|client applied
    |client la applied action|client la applied action|client la applied|applied|applied|applied] eqn:Et;
    cbn [advance erase_fails applied_by pending_action ended] in *; try done.
  - red_measure. lia.
  - destruct (active_client (sys c)); cbn [accepted at_ applied_by failures local_measure]; [lia|].
    destruct (_ <? _); lia.
  - destruct initial; red_measure; lia.
  - cbn [accepted at_ applied_by failures local_measure]. destruct (_ <? _); lia.
  - rewrite Hr. cbn [local_measure]. destruct (Z.ltb_spec (rank applied) (rank (top (accepted c)))) as [Hlt|Hge].
    + destruct (top (accepted c)) eqn:ET; [pose proof (rank_range applied); cbn in Hlt; lia|..];
        cbn [accepted at_ applied_by failures local_measure]; rewrite ?ET; lia.
    + cbn [accepted at_ applied_by failures local_measure].
      destruct (Z.ltb_spec (rank applied) (rank (top (accepted c)))); lia.
  - red_measure. lia.
  - red_measure. lia.
  - red_measure. lia.
  - destruct (Hp action eq_refl) as [Hin Hlt]. pose proof (top_max _ _ Hin).
    destruct (erase action (nvs_store (sys c))) as [u [|]]; cbn [negb snd accepted at_ applied_by failures local_measure].
    + destruct (_ <? _); lia.
    + destruct (_ <? _); lia.
  - rewrite Hco. unfold begin_reboot. cbn [requested_action]. cbn [local_measure].
    destruct (Z.ltb_spec (rank applied) (rank (top (accepted c)))) as [Hlt|Hge];
      cbn [accepted at_ applied_by failures local_measure]; [|lia].
    destruct (Z.ltb_spec (rank applied) (rank (top (accepted c)))); lia.
  - destruct (worker (nvs_store (sys c))); red_measure; lia.
Qed.

Lemma play_budget ms : forall c, Forall move_ok ms -> inv c ->
  ended (at_ (play ms c)) = true \/ budget (play ms c) + Z.of_nat (own_steps ms) <= budget c.
Proof.
  assert (Hend : forall ms c, ended (at_ c) = true -> ended (at_ (play ms c)) = true).
  { clear ms. induction ms as [|m ms IH]; intros c Hc; [done|]. apply IH. destruct m as [|e].
    - unfold move_step, task_step. by destruct (at_ c).
    - cbn [move_step]. by destruct (other_measure e c) as (_ & _ & ->). }
  induction ms as [|m ms IH]; intros c Hm Hi; [right; cbn; lia|].
  apply Forall_cons in Hm as [Hm Hms]. change (play (m :: ms) c) with (play ms (move_step c m)).
  destruct m as [|e]; cbn [move_step].
  - destruct (ended (at_ c)) eqn:He.
    { left. apply Hend. unfold task_step. by destruct (at_ c). }
    pose proof (own_measure c Hi He). change (own_steps (Own :: ms)) with (S (own_steps ms)).
    destruct (IH (task_step c) Hms (inv_own _ Hi)) as [H'|H']; [by left|right; lia].
  - destruct (other_measure e c) as (H1 & H2 & H3). change (own_steps (Other e :: ms)) with (own_steps ms).
    destruct (IH (other_step e c) Hms (inv_other _ _ Hm Hi)) as [H'|H']; [by left|right].
    unfold budget in *. rewrite H2 in H'. lia.
Qed.

(** C5. No accepted maintenance request is lost, and none destroys more than
    was asked.  Whatever the other threads do in between (more requests, any
    method of the store, clients coming and going): an erasure is only ever of
    a kind that was requested and accepted, and when the task has closed the
    request window, what it applied is the highest request accepted so far, in
    effect.  If a factory reset was accepted, no credential and no Signal
    record is left, for readers or for the next boot; if clearing the sessions
    was, no session is; anything erased stays erased, because the store is
    sealed; and any later request is rejected. *)
Theorem maintenance_applies_highest a ms s :
  sinv (nvs_store s) -> coordinator s = Coordinator.new -> Forall move_ok ms ->
  let c := play ms (launch a s) in
  (forall b, Erase b ∈ calls c -> b ∈ accepted c) /\
  (closed (at_ c) = true ->
    let applied := applied_by (at_ c) in
    applied ∈ accepted c /\ (forall b, b ∈ accepted c -> rank b <= rank applied) /\
    (Reset ∈ accepted c -> forall n, n ∈ reset_namespaces -> blank_ns n (nvs_store (sys c))) /\
    (ClearSessions ∈ accepted c -> blank_ns NsSessions (nvs_store (sys c))) /\
    (applied <> Reboot -> accepting_writes (nvs_store (sys c)) = false) /\
    forall b, (request b (coordinator (sys c))).2 = Rejected).
Proof.
  intros Hs Hc Hm c. assert (Hi : inv c) by (apply inv_play; [done|by apply inv_launch]).
  destruct Hi as [H1 H2 H3 H4 H5 H6 H7 H8 H9]. split; [done|]. intros Hcl. cbn zeta.
  rewrite (H8 Hcl) in *. pose proof (top_in _ H2) as Hin. specialize (H7 eq_refl).
  split_and!; [done|by intros; apply top_max| | |by intros; apply H6; left|].
  - intros Hr%top_max n Hn. destruct (top (accepted c)); [done..|]. by apply H7.
  - intros Hr%top_max. destruct (top (accepted c)); [done|done|]. apply H7, sessions_reset.
  - intros b. unfold request. by rewrite H3, Hcl.
Qed.

(** C6. Maintenance comes to its end.  Whatever the other threads do in
    between, the task reboots (or, when the worker thread is gone, stops with
    the restart it could not schedule) within 255 steps of its own and five
    more for every erasure that failed: no interleaving of requests makes it
    go round forever. *)
Theorem maintenance_ends a ms s :
  sinv (nvs_store s) -> coordinator s = Coordinator.new -> Forall move_ok ms ->
  let c := play ms (launch a s) in
  (255 + 5 * failures c < own_steps ms)%nat -> exists applied, at_ c = Rebooted applied \/ at_ c = Stuck applied.
Proof.
  intros Hs Hc Hm c Hn. pose proof (inv_launch a s Hs Hc) as Hi.
  destruct (play_budget ms (launch a s) Hm Hi) as [He|Hb]; fold c in He || fold c in Hb.
  - destruct (at_ c) as [| | | | | | | | | | |applied|applied]; try done; exists applied; auto.
  - exfalso. pose proof (measure_range c). pose proof (measure_range (launch a s)).
    unfold budget in Hb. change (failures (launch a s)) with O in Hb. lia.
Qed.
End Safety.

(** ** Witnesses: a linked board that is told to reboot and, while its client
    shuts down, to reset; the first erasure fails. *)

Section Witnesses.
#[local] Existing Instance pad_sha.
#[local] Existing Instance plain_wacore.
#[local] Existing Instance plain_laws.
#[local] Instance no_psram : Board := false.

Definition pairing : list op := [SaveDevice (bs "device"); PutSession (bs "alice@s") (bs "ratchet")].
Lemma pairing_ok : Forall op_ok pairing.
Proof. repeat constructor. Qed.
Definition linked : store mem := run_ops pairing (blank_store [] Works).
Definition linked_system : system (W := mem) (Client := nat) :=
  System Coordinator.new linked DeviceStatus.new (Some 1%nat).
Definition interleaved : list (move (Client := nat)) :=
  [Own; Own; Other (RequestAction Reset); Own; Own; Own; Own; Own; Own;
   Other (StoreMethod (PutSession (bs "bob@s") (bs "late")))] ++ replicate 300 Own.

Lemma linked_sinv : sinv linked.
Proof. apply run_ops_sinv; [exact pairing_ok|apply blank_sinv]. Qed.
Lemma interleaved_ok : Forall move_ok interleaved.
Proof.
  unfold interleaved. apply Forall_app. split; [by repeat (apply Forall_cons; split; [done|])|]. by apply Forall_replicate.
Qed.

Lemma maintenance_applies_highest_witness :
  let c := play interleaved (launch Reboot linked_system) in
  at_ c = Rebooted Reset /\ size (flv linked NsSessions) = 1%nat /\ flv (nvs_store (sys c)) NsSessions = ∅.
Proof.
  cbn zeta. assert (E : at_ (play interleaved (launch Reboot linked_system)) = Rebooted Reset) by by vm_compute.
  split_and!; [exact E|by vm_compute|].
  destruct (maintenance_applies_highest Reboot interleaved linked_system linked_sinv eq_refl interleaved_ok) as [_ H].
  rewrite E in H. destruct (H eq_refl) as (Hin & _ & Hr & _).
  exact (proj1 (Hr Hin NsSessions sessions_reset)).
Defined.

Lemma maintenance_ends_witness :
  exists applied, at_ (play interleaved (launch Reboot linked_system)) = Rebooted applied \/
    at_ (play interleaved (launch Reboot linked_system)) = Stuck applied.
Proof.
  apply (maintenance_ends Reboot interleaved linked_system linked_sinv eq_refl interleaved_ok).
  apply Nat.ltb_lt. by vm_compute.
Defined.
End Witnesses.
