(* ===== verification/SendAdmission.v ===== *)
(** * Admission of dashboard sends ([src/admin/send_admission.rs] and the task
      of [POST /send] in [src/admin.rs])

    The quiet period, the cancellable wait for the memory permit, and the task
    a [POST /send] hands to the executor, against the HTTP handler that waits
    for its outcome.  Times are [Instant]s in nanoseconds.  What the task
    reads around it (the clock, the SDK's answers, the permit's turn) comes
    with each of its steps. *)

From S2P Require Import Prelude.

Definition SECOND : Z := 10 ^ 9.

(** ** The quiet period *)

Record QuietPeriod := Quiet {
  started : Z;
  quiet_since : option Z;
}.

Definition new (started : Z) : QuietPeriod := Quiet started None.

(** [Instant::duration_since], which saturates. *)
Definition duration_since (now earlier : Z) : Z := Z.max 0 (now - earlier).

Definition ready (now : Z) (quiet : bool) (p : QuietPeriod) : QuietPeriod * bool :=
  if duration_since now (started p) >=? 5 * SECOND then (p, true)
  else if quiet then
    let since := default now (quiet_since p) in
    (Quiet (started p) (Some since), duration_since now since >=? SECOND)
  else (Quiet (started p) None, false).

(** ** The task and the handler *)

(** What a step of the task finds. *)
Record env := Env {
  e_now : Z;
  e_logged_in : bool;
  e_quiet : bool;
  e_timer : result bytes unit;
  e_granted : bool;
  e_current : bool;
  e_sdk : result bytes bytes;
}.

(** The admission the handler captured: none with external RAM, otherwise the
    gate with its timer, if that could be allocated. *)
Inductive admission := Ungated | NoTimer | Gated.

Inductive task :=
| Entering
| Locking
| Polling (q : QuietPeriod)
| Judging (q : QuietPeriod)
| Pausing (q : QuietPeriod)
| Acquiring
| Granted
| Starting
| Asking
| Calling
| Awaiting
| Reporting (r : result bytes bytes)
| Over.

(** The handler's answer, before it is put into words. *)
Inductive outcome := SentAs (message_id : bytes) | SendFailed (error : bytes) | TimedOut.

Record config := Config {
  at_ : task;
  abandoned : bool;
  channel : option (result bytes bytes);
  answer : option outcome;
  (** the calls of [send_message], and the answers the SDK gave *)
  calls : nat;
  sdk_answers : list (result bytes bytes);
  (** the handler's wait is over, and it is about to say so *)
  expired : bool;
}.

Definition CANCELLED : bytes := bs "send cancelled while waiting for transient-memory admission".

Definition spawn : config := Config Entering false None None 0 [] false.

(** [abandoned.load(..) || !client.is_logged_in()] *)
Definition cancelled (e : env) (c : config) : bool := abandoned c || negb (e_logged_in e).

(** The rounds of [acquire_cancellable], with [cancelled] as it reads before
    the round: [None] goes round again. *)
Definition acquire_round (cancelled granted : bool) (tick : result bytes unit) :
    option (result bytes (option unit)) :=
  if cancelled then Some (Ok None)
  else if granted then Some (Ok (Some tt))
  else match tick with Ok _ => None | Err e => Some (Err e) end.

Definition go (t : task) (c : config) : config :=
  Config t (abandoned c) (channel c) (answer c) (calls c) (sdk_answers c) (expired c).

(** A step of [wait_for_send_admission]. *)
Definition admission_step (adm : admission) (e : env) (c : config) : config :=
  match at_ c with
  | Entering =>
      match adm with
      | Ungated => go Starting c
      | NoTimer => go (Reporting (Err (bs "send admission unavailable"))) c
      | Gated => go Locking c
      end
  | Locking => go (Polling (new (e_now e))) c
  | Polling q => if cancelled e c then go (Reporting (Err CANCELLED)) c else go (Judging q) c
  | Judging q =>
      let '(q, ok) := ready (e_now e) (e_quiet e) q in
      if ok then go Acquiring c else go (Pausing q) c
  | Pausing q =>
      match e_timer e with
      | Ok _ => go (Polling q) c
      | Err error => go (Reporting (Err error)) c
      end
  | Acquiring =>
      match acquire_round (cancelled e c) (e_granted e) (e_timer e) with
      | None => go Acquiring c
      | Some (Ok (Some _)) => go Granted c
      | Some (Ok None) => go (Reporting (Err CANCELLED)) c
      | Some (Err error) => go (Reporting (Err error)) c
      end
  | Granted =>
      (* [(!cancelled()).then_some(permit)] *)
      if cancelled e c then go (Reporting (Err CANCELLED)) c else go Starting c
  | _ => c
  end.

(** One step of the task. *)
Definition task_step (adm : admission) (e : env) (c : config) : config :=
  match at_ c with
  | Starting => if abandoned c then go Over c else go Asking c
  | Asking =>
      if e_current e then go Calling c
      else go (Reporting (Err (bs "WhatsApp client reconnected; try again"))) c
  | Calling => Config Awaiting (abandoned c) (channel c) (answer c) (S (calls c)) (sdk_answers c) (expired c)
  | Awaiting => Config (Reporting (e_sdk e)) (abandoned c) (channel c) (answer c) (calls c) (sdk_answers c ++ [e_sdk e]) (expired c)
  | Reporting r =>
      (* the receiver is dropped with the handler *)
      Config Over (abandoned c) (match answer c with None => Some r | Some _ => channel c end) (answer c) (calls c) (sdk_answers c) (expired c)
  | Over => c
  | _ => admission_step adm e c
  end.

(** [result_rx.recv_timeout(SEND_TIMEOUT)]: the result, or none in time; then
    [abandoned.store(true)], before the answer. *)
Definition receive (c : config) : config :=
  match answer c, channel c with
  | None, Some r =>
      if expired c then c else
      Config (at_ c) (abandoned c) None (Some (match r with Ok id => SentAs id | Err e => SendFailed e end)) (calls c) (sdk_answers c) false
  | _, _ => c
  end.
Definition time_out (c : config) : config :=
  match answer c, channel c with
  | None, None => Config (at_ c) (abandoned c) None None (calls c) (sdk_answers c) true
  | _, _ => c
  end.
Definition abandon (c : config) : config :=
  match answer c with
  | None => if expired c then Config (at_ c) true None (Some TimedOut) (calls c) (sdk_answers c) true else c
  | Some _ => c
  end.

Inductive move := Task (e : env) | Receive | TimeOut | GiveUp.
Definition move_step (adm : admission) (c : config) (m : move) : config :=
  match m with
  | Task e => task_step adm e c
  | Receive => receive c
  | TimeOut => time_out c
  | GiveUp => abandon c
  end.
Definition play (adm : admission) (ms : list move) (c : config) : config := foldl (move_step adm) c ms.

(** ** The quiet period is exact *)

(** A history of polls, latest first: when the quiet stretch that reaches to
    the latest one began. *)
Fixpoint stretch (polls : list (Z * bool)) : option Z :=
  match polls with
  | (t, true) :: polls => Some (default t (stretch polls))
  | _ => None
  end.

(** The same polls put to [ready], oldest first. *)
Definition poll (p : QuietPeriod) (polls : list (Z * bool)) : QuietPeriod :=
  foldl (fun p '(t, quiet) => (ready t quiet p).1) p polls.

Lemma started_poll polls : forall p, started (poll p polls) = started p.
Proof.
  induction polls as [|[t q] polls IH]; intros p; [done|]. cbn. rewrite IH. unfold ready.
  destruct (_ >=? _); [done|]. by destruct q.
Qed.

Lemma poll_snoc p polls t q : poll p (polls ++ [(t, q)]) = (ready t q (poll p polls)).1.
Proof. unfold poll. by rewrite foldl_app. Qed.

Lemma stretch_poll begun polls :
  Forall (fun '(t, _) => t < begun + 5 * SECOND) polls ->
  quiet_since (poll (new begun) polls) = stretch (rev polls).
Proof.
  induction polls as [|[t q] polls IH] using rev_ind; intros Hp; [done|].
  apply Forall_app in Hp as [Hp Ht]. apply Forall_cons in Ht as [Ht _]. specialize (IH Hp).
  rewrite poll_snoc, rev_app_distr. cbn [rev app stretch].
  pose proof (started_poll polls (new begun)) as Hs. cbn [started new] in Hs.
  unfold ready. rewrite Hs. unfold duration_since, SECOND in *.
  rewrite Z.geb_leb. destruct (Z.leb_spec (5 * 10 ^ 9) (Z.max 0 (t - begun))); [lia|].
  destruct q; [|done]. cbn. by rewrite IH.
Qed.

(** The quiet period is what it says.  For any history of polls, a send is
    ready exactly when five seconds have passed since the wait began, or the
    client has been quiet at every poll of a stretch that is now a full second
    long: activity starts the second anew and never extends the five. *)
Theorem quiet_period_is_exact begun polls now quiet :
  Forall (fun '(t, _) => t < begun + 5 * SECOND) polls ->
  (ready now quiet (poll (new begun) polls)).2 = true <->
  begun + 5 * SECOND <= now \/
  exists since, stretch ((now, quiet) :: rev polls) = Some since /\ since + SECOND <= now.
Proof.
  intros Hp. assert (Hs := stretch_poll begun polls Hp). assert (Hb := started_poll polls (new begun)).
  cbn [started new] in Hb. unfold ready. rewrite Hb. cbn [stretch]. unfold duration_since, SECOND in *.
  rewrite Z.geb_leb. destruct (Z.leb_spec (5 * 10 ^ 9) (Z.max 0 (now - begun))); cbn [snd].
  { split; [left; lia|done]. }
  destruct quiet; cbn [snd]; rewrite <- ?Hs.
  - rewrite Z.geb_leb, Z.leb_le. split.
    + intros Hd. right. eexists. split; [done|]. lia.
    + intros [Hd|(since & [= <-] & Hd)]; lia.
  - split; [done|]. intros [Hd|(since & Hd & _)]; [lia|done].
Qed.

Lemma quiet_period_is_exact_witness :
  (ready (2 * SECOND) true (poll (new 0) [(0, true); (900000000, false); (SECOND, true); (1999000000, true)])).2 = true.
Proof.
  apply (quiet_period_is_exact 0 [(0, true); (900000000, false); (SECOND, true); (1999000000, true)] (2 * SECOND) true).
  - repeat constructor.
  - right. exists SECOND. split; [done|]. unfold SECOND. lia.
Defined.

(** ** What the handler answers is true *)

Section Answers.
Context (adm : admission).

(** The task may still be turned away. *)
Definition unstarted (t : task) : bool :=
  match t with
  | Entering | Locking | Polling _ | Judging _ | Pausing _ | Acquiring | Granted | Starting => true
  | _ => false
  end.
(** A result that the SDK did not give. *)
Definition turned_away (r : result bytes bytes) : Prop := exists e, r = Err e.

(** A result the task hands over: the SDK's, or a refusal without a call. *)
Definition honest (c : config) (r : result bytes bytes) : Prop :=
  (calls c = 1%nat /\ sdk_answers c = [r]) \/ (calls c = 0%nat /\ sdk_answers c = [] /\ turned_away r).

Record inv (c : config) : Prop := {
  i_calls : (calls c <= 1)%nat;
  i_before : match at_ c with Awaiting | Reporting _ | Over => True | _ => calls c = 0%nat end;
  i_awaiting : at_ c = Awaiting -> calls c = 1%nat;
  i_sdk : match at_ c with Reporting r => honest c r | Over => True | _ => sdk_answers c = [] end;
  i_channel r : channel c = Some r -> at_ c = Over /\ honest c r;
  i_answer : match answer c with
    | Some (SentAs id) => at_ c = Over /\ honest c (Ok id)
    | Some (SendFailed e) => at_ c = Over /\ honest c (Err e)
    | Some TimedOut => abandoned c = true
    | None => True
    end;
}.

Lemma inv_spawn : inv spawn.
Proof. split; cbn; try done. lia. Qed.

Lemma inv_go t c : inv c -> unstarted (at_ c) = true \/ at_ c = Asking ->
  match t with Awaiting => False | Reporting r => turned_away r | Over => True | _ => True end -> inv (go t c).
Proof.
  intros [H1 H2 H3 H4 H5 H6] Hu Ht.
  assert (Hc : calls c = 0%nat /\ sdk_answers c = []) by (destruct (at_ c); try done; by destruct Hu).
  assert (Hno : at_ c <> Over) by (destruct (at_ c); try done; by destruct Hu). destruct Hc as [Hc Hs].
  split; cbn [go calls at_ sdk_answers channel answer abandoned]; rewrite ?Hc, ?Hs; try done.
  - lia.
  - by destruct t.
  - by intros ->.
  - destruct t; try done. right. split_and!; [done..|]. exact Ht.
  - intros r Hr. by apply H5 in Hr as [? _].
  - destruct (answer c) as [[]|]; try done; by destruct H6.
Qed.

Lemma inv_task e c : inv c -> inv (task_step adm e c).
Proof.
  intros Hi. unfold task_step, admission_step, admission_step.
  destruct (at_ c) as [| |q|q|q| | | | | | |r|] eqn:Et; try (assert (Hu : unstarted (at_ c) = true \/ at_ c = Asking) by (rewrite Et; auto));
    try by apply inv_go.
  - destruct adm; apply inv_go; try done. by eexists.
  - destruct (cancelled e c); apply inv_go; try done. by eexists.
  - destruct (ready _ _ _) as [q' []]; by apply inv_go.
  - destruct (e_timer e); apply inv_go; try done. by eexists.
  - destruct (acquire_round _ _ _) as [[[[]|]|]|]; apply inv_go; try done; by eexists.
  - destruct (cancelled e c); apply inv_go; try done. by eexists.
  - destruct (abandoned c); by apply inv_go.
  - destruct (e_current e); apply inv_go; try done. by eexists.
  - destruct Hi as [H1 H2 H3 H4 H5 H6]. rewrite Et in *. split; cbn; try done; [lia|by rewrite H2| |].
    + intros r Hr. by apply H5 in Hr as [? _].
    + destruct (answer c) as [[]|]; try done; by destruct H6.
  - destruct Hi as [H1 H2 H3 H4 H5 H6]. rewrite Et in *. split; cbn; try done.
    + left. rewrite H4. by split; [apply H3|].
    + intros r Hr. by apply H5 in Hr as [? _].
    + destruct (answer c) as [[]|]; try done; by destruct H6.
  - destruct Hi as [H1 H2 H3 H4 H5 H6]. rewrite Et in *. split; cbn; try done.
    + intros r' Hr. destruct (answer c) as [o|].
      * by apply H5 in Hr as [? _].
      * by injection Hr as <-.
    + destruct (answer c) as [[]|]; try done; by destruct H6.
  - done.
Qed.

Lemma adm_inv_move m c : inv c -> inv (move_step adm c m).
Proof.
  destruct m as [e| | |]; cbn [move_step]; [apply inv_task| | |]; intros [H1 H2 H3 H4 H5 H6].
  - unfold receive. destruct (answer c) eqn:Ea; [split; rewrite ?Ea; done|].
    destruct (channel c) as [r|] eqn:Ec; [|split; rewrite ?Ea, ?Ec; done].
    destruct (expired c); [split; rewrite ?Ea, ?Ec; done|].
    destruct (H5 r eq_refl) as [Ho Hh]. split; cbn; try done. by destruct r.
  - unfold time_out. destruct (answer c) eqn:Ea; [split; rewrite ?Ea; done|].
    destruct (channel c) as [r|] eqn:Ec; [split; rewrite ?Ea, ?Ec; done|]. by split.
  - unfold abandon. destruct (answer c) eqn:Ea; [split; rewrite ?Ea; done|].
    destruct (expired c); [by split|split; rewrite ?Ea; done].
Qed.

Lemma adm_inv_play ms : forall c, inv c -> inv (play adm ms c).
Proof. induction ms as [|m ms IH]; intros c Hi; [done|]. by apply IH, adm_inv_move. Qed.

(** Abandoned before it started: the task is on its way out without a
    call. *)
Definition doomed (c : config) : Prop :=
  abandoned c = true /\ calls c = 0%nat /\
  (unstarted (at_ c) = true \/ match at_ c with Reporting _ | Over => True | _ => False end).

Lemma doomed_go t c : doomed c -> unstarted t = true \/ match t with Reporting _ | Over => True | _ => False end ->
  doomed (go t c).
Proof. by intros (H1 & H2 & _). Qed.

Lemma doomed_task e c : doomed c -> doomed (task_step adm e c).
Proof.
  intros Hd. assert (Ha : abandoned c = true) by apply Hd. assert (Hc : cancelled e c = true) by (unfold cancelled; by rewrite Ha).
  unfold task_step, admission_step, admission_step. rewrite Hc. cbn [acquire_round]. destruct (at_ c) as [| |q|q|q| | | | | | |r|] eqn:Et;
    try (by apply doomed_go; auto); try (by (destruct Hd as (_ & _ & [H|H]); rewrite Et in H)).
  - destruct adm; apply doomed_go; auto.
  - destruct (ready _ _ _) as [q' []]; apply doomed_go; auto.
  - destruct (e_timer e); apply doomed_go; auto.
  - rewrite Ha. apply doomed_go; auto.
  - done.
Qed.

Lemma doomed_move m c : doomed c -> doomed (move_step adm c m).
Proof.
  intros Hd. destruct m as [e| | |]; cbn [move_step]; [by apply doomed_task| | |].
  - unfold receive. by destruct (answer c), (channel c), (expired c).
  - unfold time_out. destruct (answer c), (channel c); try done.
  - unfold abandon. destruct (answer c), (expired c); try done. by destruct Hd as (_ & H).
Qed.

Lemma doomed_play ms : forall c, doomed c -> doomed (play adm ms c).
Proof. induction ms as [|m ms IH]; intros c Hd; [done|]. by apply IH, doomed_move. Qed.

(** After the end nothing more is called. *)
Lemma over_play ms : forall c, at_ c = Over -> calls (play adm ms c) = calls c /\ sdk_answers (play adm ms c) = sdk_answers c.
Proof.
  induction ms as [|m ms IH]; intros c Hc; [done|].
  assert (Hm : at_ (move_step adm c m) = Over /\ calls (move_step adm c m) = calls c /\
    sdk_answers (move_step adm c m) = sdk_answers c).
  { destruct m as [e| | |]; cbn [move_step]; unfold task_step, admission_step, receive, time_out, abandon; rewrite ?Hc; try done;
      by destruct (answer c), (channel c), (expired c). }
  destruct Hm as (H1 & H2 & H3). change (play adm (m :: ms) c) with (play adm ms (move_step adm c m)).
  destruct (IH _ H1) as [-> ->]. by split.
Qed.

(** C27. What [POST /send] answers is true, and a send is made at most once.
    Whatever the interleaving of the task with the handler's timeout: the
    SDK's [send_message] is called at most once for the request; an answer
    that the message was sent carries the id that this call returned; an
    answer that it failed carries this call's error, or the call was never
    made and never will be; and when the handler gave up while the task was
    still waiting for its admission, no message is sent later on. *)
Theorem send_answers_are_true ms more :
  let c := play adm ms spawn in
  let d := play adm more c in
  (calls d <= 1)%nat /\
  match answer c with
  | Some (SentAs id) => calls d = 1%nat /\ sdk_answers d = [Ok id]
  | Some (SendFailed e) =>
      (calls d = 1%nat /\ sdk_answers d = [Err e]) \/ calls d = 0%nat
  | Some TimedOut => unstarted (at_ c) = true -> calls d = 0%nat
  | None => True
  end.
Proof.
  intros c d. assert (Hc : inv c) by by apply adm_inv_play, inv_spawn.
  assert (Hd : inv d) by by apply adm_inv_play. split; [by apply i_calls|].
  assert (Hover := over_play more c). fold d in Hover.
  assert (Ha := i_answer _ Hc). destruct (answer c) as [[id|e|]|] eqn:Ea; [| | |done].
  - destruct Ha as [Ho [[H1 H2]|(_ & _ & e & He)]]; [|done]. destruct (Hover Ho) as [-> ->]. by split.
  - destruct Ha as [Ho [[H1 H2]|(H1 & _ & _)]]; destruct (Hover Ho) as [-> ->]; [by left|by right].
  - intros Hu. assert (Hb : doomed c).
    { split_and!; [done| |by left]. destruct Hc as [_ H _ _ _ _]. by destruct (at_ c). }
    by apply (doomed_play more) in Hb as (_ & H & _).
Qed.
End Answers.
