(* ===== verification/Admin.v ===== *)
(** * The admin server ([src/admin.rs])

    One function per route: the device and a request in, the device and the
    reply out.  A reply is its status and body; the connection it is written
    to is the SDK's.  Jobs that a route hands to the executor are data here;
    what they do is in [Maintenance], [SendAdmission] and below. *)

From S2P Require Import Prelude RustStr Crash Executor Metrics Nvs Record SessionSlots Lru Flash Platform StoreInner Store Json DeviceStatus Coordinator Maintenance SendAdmission.

(** JSON text, written with ['] for the quote character. *)
Definition q (s : string) : bytes :=
  map (fun b => if bool_decide (b = x27) then x22 else b) (bs s).

Definition TOKEN_HEADER : string := "x-admin-token".

(** What the routes see of a request: its headers by name, the length it
    declares, and what its body gives. *)
Record Request := MkRequest {
  header : string -> option bytes;
  content_len : option Z;
  incoming : bytes;
}.

Inductive reply :=
| Reply (status : Z) (body : bytes)
| WaitsFor (job : nat)
| Panics.

(** ** Authentication *)

(** [AdminAuth::check], for the token the device was given. *)
Definition check (token : option bytes) (req : Request) : result (Z * bytes) unit :=
  match token with
  | None => Ok tt
  | Some expected =>
      let provided := default [] (header req TOKEN_HEADER) in
      let matches :=
        (len provided =? len expected) &&
        (foldl (fun acc ab => Z.lor acc (Z.lxor (Z_of_byte ab.1) (Z_of_byte ab.2))) 0 (zip provided expected) =? 0) in
      if matches then Ok tt
      else Err (401, q "{'error':'A valid X-Admin-Token header is required'}")
  end.

(** ** Bodies *)

Section Bodies.
Context `{serde : SerdeJson}.

Definition error_body (message : bytes) : bytes := json_text (JObject [("error", JString message)]).

Definition read_json_body (req : Request) (max_len : Z) : result (Z * bytes) json :=
  if negb (match header req "content-type" with Some value => starts_with (bs "application/json") value | None => false end) then
    Err (415, q "{'error':'Content-Type must be application/json'}")
  else
    match content_len req with
    | Some n =>
        if fits 32 n then
          if (n =? 0) || (n >? max_len) then Err (413, q "{'error':'Invalid request size'}")
          else if len (incoming req) <? n then Err (400, q "{'error':'Could not read the request body'}")
          else
            match json_parse (ztake n (incoming req)) with
            | Some value => Ok value
            | None => Err (400, q "{'error':'Invalid JSON'}")
            end
        else Err (411, q "{'error':'Content-Length required'}")
    | None => Err (411, q "{'error':'Content-Length required'}")
    end.

(** [value.get(key).and_then(|value| value.as_str())] *)
Definition str_field (key : string) (v : json) : option bytes := v ← get_field key v; as_str v.
End Bodies.

(** ** Routes *)

Section Routes.
Context {W Client Jid : Type} `{nvsW : !Nvs W, shaW : !Sha256, wacore : Wacore, board : Board, !EqDecision Client,
  serde : SerdeJson}.

(** A job handed to the executor. *)
Inductive job :=
| RunMaintenance
| SendText (client : Client) (to : Jid) (text : bytes)
| PairWithCode (client : Client) (request_id : Z) (phone_number : bytes).

(** What the routes share; [executor]: the task queue is open; [up]: the
    device has not crashed. *)
Record admin := Admin {
  device : system (W := W) (Client := Client);
  spawned : list job;
  executor : bool;
  up : bool;
}.
Definition set_device (x : system) (w : admin) : admin := Admin x (spawned w) (executor w) (up w).

(** A handler panics: the process aborts and the device restarts.  What it had
    in RAM is lost with it; the files are left as they are. *)
Definition crash (w : admin) : admin := Admin (device w) (spawned w) (executor w) false.

(** [task_tx.try_send(task)] *)
Definition spawn_job (j : job) (w : admin) : option admin :=
  if executor w then Some (Admin (device w) (spawned w ++ [j]) true (up w)) else None.

(** [store.stats()], which always has an answer. *)
Definition read_stats (s : store W) : store W * StoreStats :=
  let '(t, r) := stats s in (t, match r with Ok st => st | Err _ => Stats 0 0 0 0 false end).

(** What the handlers are given: the token, the clock, the SDK's answers and
    counters, the report of the last run and the build's constant bodies. *)
Record setting := Setting {
  token : option bytes;
  now : Z;
  logged_in : Client -> bool;
  parse_jid : bytes -> option Jid;
  send_admission : admission;
  dashboard_html : bytes;
  qrcode_js : bytes;
  qemu_build : bool;
  counters : readings;
  last : last_run;
  heap_free : Z;
  heap_internal : Z;
  display : StoreError -> bytes;
}.
Context (st : setting).

Definition EXECUTOR_UNAVAILABLE : bytes := q "{'error':'WhatsApp executor is unavailable'}".
Definition CLIENT_STARTING : bytes := q "{'error':'WhatsApp client is starting'}".

Definition queue_maintenance (action : MaintenanceAction) (accepted : bytes) (req : Request) (w : admin) : admin * reply :=
  match check (token st) req with
  | Err (status, body) => (w, Reply status body)
  | Ok _ =>
      let s := device w in
      let '(m, answer) := request action (coordinator s) in
      let w := set_device (set_coordinator m s) w in
      match answer with
      | Rejected => (w, Reply 409 (q "{'error':'Device is already rebooting'}"))
      | Queued => (w, Reply 202 accepted)
      | Start =>
          match spawn_job RunMaintenance w with
          | Some w => (w, Reply 202 accepted)
          | None => (set_device (set_coordinator (cancel_start m) s) w, Reply 503 EXECUTOR_UNAVAILABLE)
          end
      end
  end.

(** [GET /] *)
Definition get_root (w : admin) : admin * reply :=
  let s := device w in
  let '(store, n) := read_stats (nvs_store s) in
  (set_device (set_store store s) w,
   Reply 200 (json_text (JObject [
     ("status", JString (bs "running")); ("heap_free", JNumber (heap_free st));
     ("heap_internal", JNumber (heap_internal st)); ("sessions", JNumber (stats_sessions n));
     ("identities", JNumber (stats_identities n)); ("prekeys", JNumber (stats_prekeys n));
     ("sender_keys", JNumber (stats_sender_keys n)); ("device_paired", JBool (stats_device_exists n))]))).

(** [GET /device] *)
Definition get_device (req : Request) (w : admin) : admin * reply :=
  let authenticated := is_ok (check (token st) req) in
  (w, Reply 200 (to_json_authenticated (now st) authenticated (device_status (device w)))).

(** [GET /messages] *)
Definition get_messages (req : Request) (w : admin) : admin * reply :=
  match check (token st) req with
  | Ok _ => (w, Reply 200 (messages_json (device_status (device w))))
  | Err (status, body) => (w, Reply status body)
  end.

(** [POST /send], up to the wait for the job's outcome. *)
Definition post_send (req : Request) (w : admin) : admin * reply :=
  match check (token st) req with
  | Err (status, body) => (w, Reply status body)
  | Ok _ =>
      if match send_admission st with NoTimer => true | _ => false end then
        (w, Reply 503 (q "{'error':'Send admission unavailable; reboot to retry'}"))
      else
        match read_json_body req 2048 with
        | Err (status, body) => (w, Reply status body)
        | Ok value =>
            match str_field "to" value with
            | None => (w, Reply 400 (q "{'error':'to is required'}"))
            | Some to =>
                match str_field "text" value with
                | None => (w, Reply 400 (q "{'error':'text is required'}"))
                | Some text =>
                    if bool_decide (text = []) then (w, Reply 400 (q "{'error':'text is empty'}"))
                    else
                      match parse_jid st to with
                      | None => (w, Reply 400 (q "{'error':'to is not a JID'}"))
                      | Some jid =>
                          match active_client (device w) with
                          | None => (w, Reply 503 CLIENT_STARTING)
                          | Some client =>
                              if negb (logged_in st client) then (w, Reply 503 (q "{'error':'Not connected'}"))
                              else
                                match spawn_job (SendText client jid text) w with
                                | None => (w, Reply 503 EXECUTOR_UNAVAILABLE)
                                | Some w => (w, WaitsFor (length (spawned w) - 1))
                                end
                          end
                      end
                end
            end
        end
  end.

(** The words for the outcome of a send. *)
Definition send_reply (to : bytes) (o : outcome) : reply :=
  match o with
  | SentAs message_id =>
      Reply 200 (json_text (JObject [("result", JString (bs "sent")); ("message_id", JString message_id); ("to", JString to)]))
  | SendFailed error => Reply 502 (error_body error)
  | TimedOut => Reply 504 (q "{'error':'Send did not complete in time'}")
  end.

(** The characters a phone number may be typed with. *)
Definition phone_char (b : byte) : bool := is_digit b || bool_decide (b ∈ bs "+ -()").

(** The digits of a phone number, or the body of a refusal. *)
Definition phone_digits (raw_phone : bytes) : result bytes bytes :=
  if negb (forallb phone_char raw_phone) then Err (q "{'error':'Invalid phone number'}")
  else
    let phone_number := List.filter is_digit raw_phone in
    if negb ((7 <=? len phone_number) && (len phone_number <=? 15)) || starts_with (bs "0") phone_number then
      Err (q "{'error':'Use 7-15 international digits without a leading zero'}")
    else Ok phone_number.

(** [POST /pair-code] *)
Definition post_pair_code (req : Request) (w : admin) : admin * reply :=
  match check (token st) req with
  | Err (status, body) => (w, Reply status body)
  | Ok _ =>
      match read_json_body req 128 with
      | Err (status, body) => (w, Reply status body)
      | Ok value =>
          match str_field "phone_number" value with
          | None => (w, Reply 400 (q "{'error':'phone_number is required'}"))
          | Some raw_phone =>
              match phone_digits raw_phone with
              | Err body => (w, Reply 400 body)
              | Ok phone_number =>
                  if negb (is_idle (coordinator (device w))) then
                    (w, Reply 409 (q "{'error':'Device maintenance is in progress'}"))
                  else
                    match active_client (device w) with
                    | None => (w, Reply 503 CLIENT_STARTING)
                    | Some client =>
                        let '(store, n) := read_stats (nvs_store (device w)) in
                        let w := set_device (set_store store (device w)) w in
                        if stats_device_exists n || logged_in st client then
                          (w, Reply 409 (q "{'error':'Device is already paired'}"))
                        else
                          let '(ds, r) := begin_pair_code (now st) (device_status (device w)) in
                          let w := set_device (set_status ds (device w)) w in
                          match r with
                          | Err message => (w, Reply 409 (error_body message))
                          | Ok request_id =>
                              match spawn_job (PairWithCode client request_id phone_number) w with
                              | None =>
                                  let ds := fail_pair_code request_id (bs "WhatsApp executor is unavailable") ds in
                                  (set_device (set_status ds (device w)) w, Reply 503 EXECUTOR_UNAVAILABLE)
                              | Some w => (w, Reply 202 (q "{'result':'pending'}"))
                              end
                          end
                    end
              end
          end
      end
  end.

(** [GET /sessions] *)
Definition get_sessions (req : Request) (w : admin) : admin * reply :=
  match check (token st) req with
  | Err (status, body) => (w, Reply status body)
  | Ok _ =>
      let '(store, r) := list_sessions (nvs_store (device w)) in
      let w := set_device (set_store store (device w)) w in
      match r with
      | Err error => (w, Reply 500 (q "{'error':'session list failed: " ++ display st error ++ q "'}"))
      | Ok sessions =>
          (w, Reply 200 (json_text (JObject [
            ("count", JNumber (len sessions)); ("addresses", JArray (map JString sessions))])))
      end
  end.

Inductive route :=
| GetDashboard | GetQrScript | GetRoot | GetDevice | GetMessages | PostSend | PostPairCode | GetHealth
| PostTestPanic | GetMetrics | PostReset | PostReboot | GetSessions | DeleteSessions.

Definition serve (r : route) (req : Request) (w : admin) : admin * reply :=
  match r with
  | GetDashboard => (w, Reply 200 (dashboard_html st))
  | GetQrScript => (w, Reply 200 (qrcode_js st))
  | GetRoot => get_root w
  | GetDevice => get_device req w
  | GetMessages => get_messages req w
  | PostSend => post_send req w
  | PostPairCode => post_pair_code req w
  | GetHealth => (w, Reply 200 (bs "ok"))
  | PostTestPanic => (crash w, Panics)
  | GetMetrics => (w, Reply 200 (json_text (system_metrics_json (qemu_build st) (counters st) (last st))))
  | PostReset =>
      queue_maintenance Reset
        (q "{'result':'resetting','message':'Logging out, clearing persistent data, and rebooting.'}") req w
  | PostReboot => queue_maintenance Reboot (q "{'result':'rebooting'}") req w
  | GetSessions => get_sessions req w
  | DeleteSessions =>
      queue_maintenance ClearSessions
        (q "{'result':'clearing','message':'Disconnecting, clearing sessions, and rebooting.'}") req w
  end.

(** ** The task of [POST /pair-code] *)

(** Where it is; a step finds the SDK's answers with it. *)
Inductive pairing := WaitSocket | CheckCurrent | CheckPaired | CheckIdle | Pairing | PairingOver.

Definition pair_step (client : Client) (request_id : Z) (now : Z) (socket_ready logged_in : bool)
    (code : option bytes) (t : pairing) (s : system (W := W) (Client := Client)) : system * pairing :=
  let fail_with (message : string) (s : system) :=
    (set_status (fail_pair_code request_id (bs message) (device_status s)) s, PairingOver) in
  match t with
  | WaitSocket => if socket_ready then (s, CheckCurrent) else fail_with "WhatsApp connection is not ready" s
  | CheckCurrent =>
      if is_current client (active_client s) then (s, CheckPaired)
      else fail_with "WhatsApp client restarted; try again" s
  | CheckPaired =>
      let '(store, n) := read_stats (nvs_store s) in
      let s := set_store store s in
      if stats_device_exists n || logged_in then fail_with "Device is already paired" s else (s, CheckIdle)
  | CheckIdle =>
      if is_idle (coordinator s) then (s, Pairing) else fail_with "Device maintenance is in progress" s
  | Pairing =>
      match code with
      | Some code =>
          (set_status (complete_pair_code now request_id code (180 * NANOS) (device_status s)) s, PairingOver)
      | None => fail_with "Could not generate a pairing code; try again later" s
      end
  | PairingOver => (s, PairingOver)
  end.
End Routes.
