(* ===== verification/AdminTheorems.v ===== *)
(** * What the admin server guarantees

    Who learns what without the token, and what a request for a linking code
    does. *)

From S2P Require Import Prelude RustStr RustStrLemmas Crash Executor Metrics Nvs NvsMem Record SessionSlots Lru Flash FlashSpec FlashRecords Platform StoreInner Store StoreInv StoreOps StoreSpec StoreHistory Json DeviceStatus Coordinator Maintenance SendAdmission Admin Concrete.
#[local] Set Default Proof Using "Type".

(** ** The token *)

Lemma fold_xor_zero (l : list (byte * byte)) : forall acc,
  foldl (fun acc ab => Z.lor acc (Z.lxor (Z_of_byte ab.1) (Z_of_byte ab.2))) acc l = 0 <->
  acc = 0 /\ Forall (fun ab => ab.1 = ab.2) l.
Proof.
  induction l as [|[a b] l IH]; intros acc; cbn [foldl fst snd]; [by split; [|intros [-> _]]|].
  rewrite IH, Z.lor_eq_0_iff, Z.lxor_eq_0_iff, Forall_cons. cbn [fst snd]. split.
  - intros [[-> H] Hl]. split_and!; [done|by apply Z_of_byte_inj|done].
  - intros (-> & -> & Hl). by split_and!.
Qed.

Lemma zip_equal (l k : bytes) : length l = length k -> Forall (fun ab => ab.1 = ab.2) (zip l k) -> l = k.
Proof.
  revert k. induction l as [|a l IH]; intros [|b k] Hl Hf; try done.
  cbn in Hf. apply Forall_cons in Hf as [Ha Hf]. cbn in Ha. f_equal; [done|]. apply IH; [by injection Hl|done].
Qed.
Lemma zip_self (l : bytes) : Forall (fun ab => ab.1 = ab.2) (zip l l).
Proof. induction l; cbn; [constructor|]. by constructor. Qed.

(** The comparison in constant time is equality. *)
Lemma check_exact t req : is_ok (check (Some t) req) = true <-> default [] (header req TOKEN_HEADER) = t.
Proof.
  unfold check. set (p := default [] _).
  assert (H : ((len p =? len t) && (foldl (fun acc ab => Z.lor acc (Z.lxor (Z_of_byte ab.1) (Z_of_byte ab.2))) 0 (zip p t) =? 0)) = true
    <-> p = t).
  { rewrite andb_true_iff, !Z.eqb_eq, fold_xor_zero. split.
    - intros (Hl & _ & Hf). apply zip_equal; [unfold len in Hl; lia|done].
    - intros ->. split_and!; [done|done|apply zip_self]. }
  destruct (_ && _); [by rewrite <- H|]. cbn. split; [done|]. intros E. by apply H in E.
Qed.

Section Admin.
Context {W Client Jid : Type} `{nvsW : !Nvs W, lawsW : !NvsLaws W, shaW : !Sha256, wacore : Wacore, lawsC : !WacoreLaws,
  board : Board, eqC : !EqDecision Client, serde : SerdeJson}.
Context (st : setting (Client := Client) (Jid := Jid)).
Implicit Types (w : admin (W := W) (Client := Client) (Jid := Jid)).

Lemma unauthorised t req : token st = Some t -> default [] (header req TOKEN_HEADER) <> t ->
  check (token st) req = Err (401, q "{'error':'A valid X-Admin-Token header is required'}").
Proof.
  intros -> Hn. assert (H := check_exact t req). unfold check in *. destruct (_ && _); [|done].
  exfalso. by apply Hn, H.
Qed.

(** What a device shows to everyone. *)
Definition public w : bool * StoreStats := (connected (device_status (device w)), (read_stats (nvs_store (device w))).2).

(** Nothing happened to the device: its files are as they were, and it will
    answer every later read alike. *)
Definition untouched w w' : Prop :=
  coordinator (device w') = coordinator (device w) /\ device_status (device w') = device_status (device w) /\
  active_client (device w') = active_client (device w) /\ spawned w' = spawned w /\ executor w' = executor w /\ up w' = up w /\
  read_post (nvs_store (device w)) (Ok tt) (nvs_store (device w')).

Lemma untouched_refl w : sinv (nvs_store (device w)) -> untouched w w.
Proof using All. intros Hi. split_and!; try done. by apply read_frame. Qed.

Lemma read_stats_post s : sinv s -> read_post s (Ok tt) (read_stats s).1.
Proof using All.
  intros Hi. pose proof (stats_spec s Hi) as H. unfold wp, discard, bind, ret, read_stats in *.
  destruct (stats s) as [t [x|e]]; [done|]. destruct H as [[H1 H2 _] H3]. apply read_frame; [done| |done].
  intros n k Ha. apply H2; [left; by intros []|done].
Qed.

(** C13. Without the token nobody learns or changes anything.  When a token is
    set, the comparison accepts a request exactly when it carries that token.
    When a request does not, every route answers the same on any two devices
    that agree on whether they are connected and on the counts of the store,
    whatever their messages, account, pairing codes and sessions are; and the
    request changes nothing: no job is spawned, no maintenance is requested,
    and every record is as it was.  The one exception is POST /test-panic,
    which looks at no token: it crashes the device, and touches no record. *)
Theorem unauthenticated_requests_learn_nothing t req r w w' :
  token st = Some t -> default [] (header req TOKEN_HEADER) <> t ->
  sinv (nvs_store (device w)) -> public w = public w' ->
  (forall req', check (token st) req' = Ok tt <-> default [] (header req' TOKEN_HEADER) = t) /\
  (serve st r req w).2 = (serve st r req w').2 /\
  match r with
  | PostTestPanic => (serve st r req w).2 = Panics /\ up (serve st r req w).1 = false /\
      nvs_store (device (serve st r req w).1) = nvs_store (device w) /\ spawned (serve st r req w).1 = spawned w
  | _ => untouched w (serve st r req w).1
  end.
Proof using All.
  intros Ht Hn Hi Hp. split.
  { intros req'. rewrite Ht, <- check_exact. unfold check. by destruct (_ && _). }
  assert (Hc := unauthorised t req Ht Hn). injection Hp as Hp1 Hp2.
  destruct r; cbn [serve]; unfold get_root, get_device, get_messages, post_send, post_pair_code, get_sessions, queue_maintenance;
    rewrite ?Hc; cbn [is_ok]; try (by split; [|apply untouched_refl]); try done.
  - pose proof (read_stats_post _ Hi) as Hr. destruct (read_stats (nvs_store (device w))) as [s1 n1].
    destruct (read_stats (nvs_store (device w'))) as [s2 n2]. cbn in Hp2, Hr |- *. subst n2. by split_and!.
  - split; [|by apply untouched_refl]. unfold to_json_authenticated, status_json. cbn [snd negb]. by rewrite Hp1.
Qed.

(** ** Linking by phone number *)

(** Pairing is possible: nothing stands against it on the device. *)
Definition may_pair w (client : Client) : Prop :=
  is_idle (coordinator (device w)) = true /\ active_client (device w) = Some client /\
  stats_device_exists (read_stats (nvs_store (device w))).2 = false /\ logged_in st client = false.

Definition phone_ok (phone : bytes) : Prop :=
  Forall (fun b => is_digit b = true) phone /\ 7 <= len phone <= 15 /\ hd_error phone <> Some x30.

Lemma phone_digits_ok raw phone : phone_digits raw = Ok phone -> phone = List.filter is_digit raw /\ phone_ok phone.
Proof.
  unfold phone_digits. destruct (forallb phone_char raw); cbn [negb]; [|done].
  set (p := List.filter is_digit raw).
  destruct (Z.leb_spec 7 (len p)); cbn [andb negb orb]; [|done].
  destruct (Z.leb_spec (len p) 15); cbn [andb negb orb]; [|done].
  destruct (starts_with (bs "0") p) eqn:Es; [done|]. intros [= <-]. split; [done|]. split_and!.
  - apply Forall_forall. intros b Hb. apply list_elem_of_In, filter_In in Hb. by destruct Hb.
  - done.
  - done.
  - intros Hd. clearbody p. destruct p as [|b p']; [done|]. assert (b = x30) as -> by (cbn in Hd; congruence). done.
Qed.

(** The request carries the token, if there is one. *)
Definition authorised (req : Request) : Prop :=
  match token st with None => True | Some t => default [] (header req TOKEN_HEADER) = t end.

Lemma authorised_check req : check (token st) req = Ok tt <-> authorised req.
Proof.
  unfold authorised. destruct (token st) as [t|]; [|done]. rewrite <- check_exact. unfold check. by destruct (_ && _).
Qed.

(** The request asks for the linking of [phone]: a JSON body of at most 128
    bytes whose field "phone_number" is typed with digits and with the
    characters people put between them, and has these digits. *)
Definition asks_for (req : Request) (phone : bytes) : Prop :=
  exists ct n value raw,
    header req "content-type" = Some (bs "application/json" ++ ct) /\
    content_len req = Some n /\ 0 < n <= 128 /\ n <= len (incoming req) /\
    json_parse (ztake n (incoming req)) = Some value /\
    get_field "phone_number" value = Some (JString raw) /\
    Forall (fun b => is_digit b = true \/ b ∈ bs "+ -()") raw /\
    phone = List.filter is_digit raw /\ phone_ok phone.

(** No other attempt stands in the way. *)
Definition may_begin w : Prop := ~ engaged (now st) (pair_code (device_status (device w))).

(** What has become of the request for a code. *)
Definition refused w w' : Prop :=
  spawned w' = spawned w /\
  (device_status (device w') = device_status (device w) \/
   (executor w = false /\ exists m, pair_code (device_status (device w')) = Error m)).

(** The body is read and parsed just so. *)
Lemma read_json_body_ok req max value : 0 <= max < 2 ^ 32 ->
  read_json_body req max = Ok value <->
  exists ct n, header req "content-type" = Some (bs "application/json" ++ ct) /\
    content_len req = Some n /\ 0 < n <= max /\ n <= len (incoming req) /\
    json_parse (ztake n (incoming req)) = Some value.
Proof.
  intros Hm. unfold read_json_body. split.
  - destruct (header req "content-type") as [h|]; cbn [negb]; [|done].
    destruct (starts_with (bs "application/json") h) eqn:Eh; cbn [negb]; [|done]. apply starts_with_true in Eh as [ct ->].
    destruct (content_len req) as [n|]; [|done]. destruct (fits 32 n) eqn:Ef; [|done].
    unfold fits in Ef. rewrite andb_true_iff, Z.leb_le, Z.ltb_lt in Ef.
    destruct (Z.eqb_spec n 0); cbn [orb]; [done|]. rewrite Z.gtb_ltb. destruct (Z.ltb_spec max n); [done|].
    destruct (Z.ltb_spec (len (incoming req)) n); [done|]. destruct (json_parse _) as [v|] eqn:Ej; [|done].
    intros [= ->]. exists ct, n. by split_and!; [..|lia|lia|lia|].
  - intros (ct & n & -> & -> & Hn & Hl & Hj). rewrite (proj2 (starts_with_true _ _)) by by eexists.
    assert (fits 32 n = true) as -> by (unfold fits; rewrite andb_true_iff, Z.leb_le, Z.ltb_lt; lia). cbn [negb].
    rewrite (proj2 (Z.eqb_neq n 0)), Z.gtb_ltb, (proj2 (Z.ltb_ge max n)), (proj2 (Z.ltb_ge (len (incoming req)) n)) by lia.
    cbn [orb]. by rewrite Hj.
Qed.

Lemma phone_digits_iff raw phone : phone_digits raw = Ok phone <->
  Forall (fun b => is_digit b = true \/ b ∈ bs "+ -()") raw /\ phone = List.filter is_digit raw /\ phone_ok phone.
Proof.
  split.
  - intros H. destruct (phone_digits_ok _ _ H) as [He Hp]. split; [|done]. unfold phone_digits in H.
    destruct (forallb phone_char raw) eqn:E; [|done]. apply Forall_forall. intros b Hb.
    rewrite forallb_forall in E. apply list_elem_of_In, E in Hb. unfold phone_char in Hb.
    apply orb_true_iff in Hb as [Hb|Hb]; [by left|right]. by apply bool_decide_eq_true in Hb.
  - intros (Hraw & -> & Hd & Hl & Hz). unfold phone_digits. set (p := List.filter is_digit raw) in *.
    assert (forallb phone_char raw = true) as ->.
    { apply forallb_forall. intros b Hb. apply list_elem_of_In in Hb. rewrite Forall_forall in Hraw.
      unfold phone_char. destruct (Hraw b Hb) as [->|Hin]; [done|]. by rewrite bool_decide_true, orb_true_r. }
    cbn [negb]. rewrite (proj2 (Z.leb_le 7 _)), (proj2 (Z.leb_le _ 15)) by lia. cbn [andb negb orb].
    destruct (starts_with (bs "0") p) eqn:Es; [|done]. apply starts_with_true in Es as [rest Er]. by rewrite Er in Hz.
Qed.

(** What [asks_for] says, by the code's steps. *)
Lemma asks_for_steps req phone : asks_for req phone <->
  exists value raw, read_json_body req 128 = Ok value /\ str_field "phone_number" value = Some raw /\ phone_digits raw = Ok phone.
Proof.
  unfold asks_for. split.
  - intros (ct & n & value & raw & H1 & H2 & H3 & H4 & H5 & H6 & H7). exists value, raw. split_and!.
    + apply read_json_body_ok; [lia|]. by exists ct, n.
    + unfold str_field. by rewrite H6.
    + by apply phone_digits_iff.
  - intros (value & raw & H1 & H2 & H3). apply read_json_body_ok in H1 as (ct & n & ? & ? & ? & ? & ?); [|lia].
    exists ct, n, value, raw. apply phone_digits_iff in H3. split_and!; try done; try lia; try apply H3.
    unfold str_field in H2. destruct (get_field _ _) as [[]|]; try done. by injection H2 as ->.
Qed.

(** Everything the answer 202 needs. *)
Definition can_reserve (req : Request) w : Prop :=
  authorised req /\ executor w = true /\ may_begin w /\ (exists phone, asks_for req phone) /\ exists client, may_pair w client.

(** What [post_pair_code] comes to. *)
Definition reserved (req : Request) w (x : admin (W := W) (Client := Client) (Jid := Jid) * reply) : Prop :=
  exists body client id phone, x.2 = Reply 202 body /\ may_pair w client /\ asks_for req phone /\
    (begin_pair_code (now st) (device_status (device w))) = (device_status (device x.1), Ok id) /\
    pair_code (device_status (device x.1)) = Pending id /\
    spawned x.1 = spawned w ++ [PairWithCode client id phone].
Definition concludes (req : Request) w (x : admin (W := W) (Client := Client) (Jid := Jid) * reply) : Prop :=
  (read_post (nvs_store (device w)) (Ok tt) (nvs_store (device x.1)) /\
   coordinator (device x.1) = coordinator (device w) /\ active_client (device x.1) = active_client (device w)) /\
  ((can_reserve req w /\ reserved req w x) \/
   (~ can_reserve req w /\ refused w x.1 /\ exists c body, c <> 202 /\ x.2 = Reply c body)).

Lemma stops req w c body : sinv (nvs_store (device w)) -> c <> 202 -> ~ can_reserve req w -> concludes req w (w, Reply c body).
Proof using All.
  intros Hi Hc Hn. split; [split_and!; [by apply read_frame|done..]|]. right. split_and!; [done|split; [done|by left]|].
  by exists c, body.
Qed.

(** The steps of the code that stand behind [can_reserve]. *)
Lemma can_reserve_steps req w : can_reserve req w ->
  check (token st) req = Ok tt /\ executor w = true /\ may_begin w /\
  exists value raw phone client, read_json_body req 128 = Ok value /\ str_field "phone_number" value = Some raw /\
    phone_digits raw = Ok phone /\ may_pair w client.
Proof.
  intros (Ha & He & Hb & (phone & (value & raw & H1 & H2 & H3)%asks_for_steps) & client & Hm).
  split_and!; [by apply authorised_check|done|done|]. by exists value, raw, phone, client.
Qed.

(** A step that went the other way. *)
Ltac gone := intros (? & ? & ? & ? & ? & ? & ? & ? & ? & ? & ? & ? & ? & ?)%can_reserve_steps; congruence.

Lemma check_refuses req c body : check (token st) req = Err (c, body) -> c = 401.
Proof. unfold check. destruct (token st); [|done]. destruct (_ && _); [done|]. by intros [= <- _]. Qed.
Lemma read_json_body_refuses req max c body : read_json_body req max = Err (c, body) -> c <> 202.
Proof. unfold read_json_body. repeat case_match; intros [= <- _]; done. Qed.

(** Pairing is possible so far: the attempt is reserved, or there is one. *)
Lemma begin_concludes req w client phone s1 n1 :
  sinv (nvs_store (device w)) -> authorised req -> asks_for req phone -> may_pair w client ->
  read_stats (nvs_store (device w)) = (s1, n1) ->
  concludes req w
    (let w1 := set_device (set_store s1 (device w)) w in
     let '(ds, r) := begin_pair_code (now st) (device_status (device w1)) in
     let w2 := set_device (set_status ds (device w1)) w1 in
     match r with
     | Err message => (w2, Reply 409 (error_body message))
     | Ok request_id =>
         match spawn_job (PairWithCode client request_id phone) w2 with
         | None =>
             let ds := fail_pair_code request_id (bs "WhatsApp executor is unavailable") ds in
             (set_device (set_status ds (device w2)) w2, Reply 503 EXECUTOR_UNAVAILABLE)
         | Some w3 => (w3, Reply 202 (q "{'result':'pending'}"))
         end
     end).
Proof using All.
  intros Hi Ha Hp Hm Hs. assert (Hr := read_stats_post _ Hi). rewrite Hs in Hr. cbn [fst] in Hr.
  cbn zeta. cbn [set_device device set_store device_status].
  pose proof (begin_pair_code_spec (now st) (device_status (device w))) as Hb.
  destruct (begin_pair_code (now st) (device_status (device w))) as [ds [id|m]] eqn:Eb; cbn [fst snd] in Hb.
  - destruct Hb as (Hn & _ & Hds). assert (Hpend : pair_code ds = Pending id) by by rewrite Hds.
    unfold spawn_job. cbn [set_device executor]. destruct (executor w) eqn:Ee; (split; [by split_and!|]).
    + left. split; [split_and!; [done|done|exact Hn|by exists phone|by exists client]|].
      eexists _, client, id, phone. by split_and!.
    + right. split; [intros (_ & ? & _); congruence|]. split; [|eexists 503, _; by split].
      split; [done|]. right. split; [done|].
      cbn. unfold fail_pair_code, pair_code_request_is. rewrite Hpend, Z.eqb_refl. by eexists.
  - destruct Hb as (He & -> & _). split; [by split_and!|]. right.
    split; [by intros (_ & _ & Hn & _)|]. split; [split; [done|by left]|eexists 409, _; by split].
Qed.

Lemma post_pair_code_concludes req w : sinv (nvs_store (device w)) -> concludes req w (post_pair_code st req w).
Proof using All.
  intros Hi. unfold post_pair_code. destruct (check (token st) req) as [[]|[c b]] eqn:Ec.
  2: { apply stops; [done|by rewrite (check_refuses _ _ _ Ec)|gone]. }
  destruct (read_json_body req 128) as [value|[c b]] eqn:Ej; [|apply stops; [done|by eapply read_json_body_refuses|gone]].
  destruct (str_field _ value) as [raw|] eqn:Es; [|apply stops; [done|done|gone]].
  destruct (phone_digits raw) as [phone|body] eqn:Ep; [|apply stops; [done|done|gone]].
  assert (Hasks : asks_for req phone) by (apply asks_for_steps; by exists value, raw).
  destruct (is_idle (coordinator (device w))) eqn:Ei; cbn [negb].
  2: { apply stops; [done|done|]. intros (_ & _ & _ & _ & client & Hm & _). congruence. }
  destruct (active_client (device w)) as [client|] eqn:Ea.
  2: { apply stops; [done|done|]. intros (_ & _ & _ & _ & client & _ & Hm & _). congruence. }
  destruct (read_stats (nvs_store (device w))) as [s1 n1] eqn:En.
  destruct (stats_device_exists n1 || logged_in st client) eqn:El.
  - assert (Hr := read_stats_post _ Hi). rewrite En in Hr. split; [by split_and!|]. right.
    split; [|split; [split; [done|by left]|eexists 409, _; by split]].
    intros (_ & _ & _ & _ & client' & _ & Hm & Hd & Hg). rewrite En in Hd. cbn in Hd. rewrite Hd in El. cbn in El. congruence.
  - apply orb_false_iff in El as [El1 El2]. apply (begin_concludes req w client phone s1 n1); try done; [by apply authorised_check|].
    unfold may_pair. by rewrite En.
Qed.

(** C29. A linking code is asked for only when it can be used, and once.  The
    answer 202 is given exactly when the request is authorised and asks for a
    phone number of 7 to 15 digits without a leading zero, no maintenance is
    under way, a client is live and not logged in, no device is stored, no
    other attempt is pending or unexpired and the executor takes the job; then
    exactly one job is spawned, for the live client and the digits the request
    has, and the attempt is pending under its id.  Any other answer spawns
    nothing and leaves the status as it was, or shows the attempt as failed
    when the executor was gone.  The store's records are never touched. *)
Theorem pair_code_is_reserved_once req w :
  sinv (nvs_store (device w)) ->
  let '(w', reply) := serve st PostPairCode req w in
  read_post (nvs_store (device w)) (Ok tt) (nvs_store (device w')) /\
  coordinator (device w') = coordinator (device w) /\ active_client (device w') = active_client (device w) /\
  ((exists body, reply = Reply 202 body) <->
   authorised req /\ executor w = true /\ may_begin w /\ (exists phone, asks_for req phone) /\ exists client, may_pair w client) /\
  match reply with
  | Reply 202 _ =>
      exists client id phone,
        may_pair w client /\ asks_for req phone /\
        (begin_pair_code (now st) (device_status (device w))) = (device_status (device w'), Ok id) /\
        pair_code (device_status (device w')) = Pending id /\
        spawned w' = spawned w ++ [PairWithCode client id phone]
  | _ => refused w w'
  end.
Proof using All.
  intros Hi. cbn [serve]. assert (Hc := post_pair_code_concludes req w Hi). destruct (post_pair_code st req w) as [w' r].
  unfold concludes, reserved in Hc. cbn [fst snd] in Hc.
  destruct Hc as [(H1 & H2 & H3) [[Hcan (body & client & id & phone & -> & Hres)]|(Hcan & Href & c & body & Hc & ->)]]; cbn [fst snd] in *;
    (do 3 (split; [done|])).
  - split; [split; [done|by eexists]|]. by exists client, id, phone.
  - split; [split; [intros [b [= ->]]; done|done]|]. by repeat case_match.
Qed.
End Admin.

(** ** Witnesses *)

Section Witnesses.
#[local] Existing Instance pad_sha.
#[local] Existing Instance plain_wacore.
#[local] Existing Instance plain_laws.
#[local] Instance internal_ram : Board := false.

(** A parser that knows one body. *)
#[local] Instance one_body : SerdeJson := {
  json_text _ := [];
  json_parse b := if bool_decide (b = bs "P") then Some (JObject [("phone_number", JString (bs "+1 (555) 123-4567"))]) else None;
}.
Definition desk : setting (Client := nat) (Jid := bytes) :=
  Setting (Some (bs "secret")) 0 (fun _ => false) Some Gated [] [] false quiet_board no_last_run 0 0 (fun _ => []).
Definition fresh_system (messages : list MessageLogEntry) : system (W := mem) (Client := nat) :=
  System Coordinator.new (blank_store [] Works) (set_messages messages DeviceStatus.new) (Some 1%nat).
Definition fresh_admin (messages : list MessageLogEntry) : admin (W := mem) (Client := nat) (Jid := bytes) :=
  Admin (fresh_system messages) [] true true.
Definition private : MessageLogEntry := Build_MessageLogEntry (bs "1") (bs "c") (bs "s") (Some (bs "hush")) 0 false.
Definition with_token (value : bytes) : Request :=
  MkRequest (fun h => if bool_decide (h = TOKEN_HEADER) then Some value
                      else if bool_decide (h = "content-type"%string) then Some (bs "application/json") else None)
    (Some 1) (bs "P").

Lemma unauthenticated_requests_learn_nothing_witness :
  (serve desk GetMessages (with_token (bs "guess1")) (fresh_admin [private])).2 =
  (serve desk GetMessages (with_token (bs "guess1")) (fresh_admin [])).2.
Proof.
  refine (proj1 (proj2 (unauthenticated_requests_learn_nothing desk (bs "secret") (with_token (bs "guess1")) GetMessages
    (fresh_admin [private]) (fresh_admin []) eq_refl _ (blank_sinv [] Works) _))); [done|by vm_compute].
Defined.

Lemma pair_code_is_reserved_once_witness :
  exists r, serve desk PostPairCode (with_token (bs "secret")) (fresh_admin []) = r /\
    spawned r.1 = [PairWithCode 1%nat 1 (bs "15551234567")] /\
    pair_code (device_status (device r.1)) = Pending 1.
Proof.
  eexists. split; [reflexivity|].
  assert (H := pair_code_is_reserved_once desk (with_token (bs "secret")) (fresh_admin []) (blank_sinv [] Works)).
  destruct (serve _ _ _ _) as [w' reply] eqn:E. cbn [fst].
  assert (Hs : spawned w' = [PairWithCode 1%nat 1 (bs "15551234567")]).
  { change (spawned (w', reply).1 = [PairWithCode 1%nat 1 (bs "15551234567")]). rewrite <- E. by vm_compute. }
  assert (Hr : exists b, reply = Reply 202 b).
  { change (exists b, (w', reply).2 = Reply 202 b). rewrite <- E. eexists. by vm_compute. }
  destruct Hr as [b ->]. destruct H as (_ & _ & _ & _ & client & i & phone & _ & _ & _ & Hp & Hsp).
  split; [exact Hs|]. rewrite Hsp in Hs. injection Hs as -> -> ->. exact Hp.
Defined.
End Witnesses.
