(* ===== verification/AdminReplies.v ===== *)
(** * What the dashboard's answers are made of

    Some bodies are the text of a JSON value, some are written out in the
    source.  For the latter a reader of flat objects of strings, which is
    enough to say that they are JSON and what they hold. *)

From S2P Require Import Prelude RustStr Crash Executor Metrics Nvs NvsMem Record SessionSlots Lru Flash Platform StoreInner Store Json DeviceStatus Coordinator Maintenance SendAdmission Admin AdminTheorems Concrete.
#[local] Set Default Proof Using "Type".

(** ** Flat objects of strings without escapes *)

(** A character that a JSON string holds as it is. *)
Definition plain_byte (b : byte) : bool :=
  negb (bool_decide (b = x22) || bool_decide (b = x5c) || (Z_of_byte b <? 32)).

Fixpoint until_quote (l : bytes) : option (bytes * bytes) :=
  match l with
  | [] => None
  | b :: l =>
      if bool_decide (b = x22) then Some ([], l)
      else if plain_byte b then '(s, rest) ← until_quote l; Some (b :: s, rest)
      else None
  end.

(** ["key":"value"], as often as there is a comma, and the closing brace. *)
Fixpoint members (fuel : nat) (l : bytes) : option (list (bytes * bytes)) :=
  match fuel, l with
  | S fuel, x22 :: l =>
      '(k, l) ← until_quote l;
      match l with
      | x3a :: x22 :: l =>
          '(v, l) ← until_quote l;
          match l with
          | [x7d] => Some [(k, v)]
          | x2c :: l => rest ← members fuel l; Some ((k, v) :: rest)
          | _ => None
          end
      | _ => None
      end
  | _, _ => None
  end.
Definition flat_parse (l : bytes) : option (list (bytes * bytes)) :=
  match l with x7b :: l => members (length l) l | _ => None end.

Lemma until_quote_plain s rest : forallb plain_byte s = true -> until_quote (s ++ x22 :: rest) = Some (s, rest).
Proof.
  induction s as [|b s IH]; cbn; [done|]. intros [Hb Hs]%andb_true_iff. rewrite IH by done.
  case_bool_decide as E; [by subst b|]. by rewrite Hb.
Qed.

(** ** The two kinds of answers *)

Section Replies.
Context {W Client Jid : Type} `{nvsW : !Nvs W, shaW : !Sha256, wacore : Wacore, board : Board, eqC : !EqDecision Client,
  serde : SerdeJson}.

(** An object with the fields [fields], as the library or the source writes
    it; the values of a written one are strings. *)
Definition is_object (body : bytes) (fields : list (string * json)) : Prop :=
  body = json_text (JObject fields) \/
  exists l, flat_parse body = Some l /\ map (fun f => (bs f.1, f.2)) fields = map (fun f => (f.1, JString f.2)) l.

(** A refusal holds its reason and nothing else; an answer is no refusal. *)
Definition typed (status : Z) (body : bytes) : Prop :=
  if 400 <=? status then exists reason, is_object body [("error", JString reason)]
  else exists fields, is_object body fields /\ get_field "error" (JObject fields) = None.

Definition statuses : list Z := [200; 202; 400; 401; 409; 411; 413; 415; 500; 502; 503; 504].
Definition well_typed (r : reply) : Prop :=
  match r with Reply status body => status ∈ statuses /\ typed status body | WaitsFor _ => True | Panics => False end.

(** A status and a body that the source writes out. *)
Definition written (status : Z) (body : bytes) : bool :=
  bool_decide (status ∈ statuses) &&
  match flat_parse body with
  | Some [(k, _)] => bool_decide (k = if 400 <=? status then bs "error" else bs "result")
  | Some [(k, _); (k', _)] => (status <? 400) && bool_decide (k = bs "result") && bool_decide (k' = bs "message")
  | _ => false
  end.

Lemma refusal_typed status reason body : 400 <= status -> status ∈ statuses ->
  is_object body [("error", JString reason)] -> well_typed (Reply status body).
Proof.
  intros H1 H2 H3. split; [done|]. unfold typed. destruct (Z.leb_spec 400 status); [|lia]. by exists reason.
Qed.
Lemma answer_typed status fields body : status < 400 -> status ∈ statuses ->
  is_object body fields -> get_field "error" (JObject fields) = None -> well_typed (Reply status body).
Proof.
  intros H1 H2 H3 H4. split; [done|]. unfold typed. destruct (Z.leb_spec 400 status); [lia|]. by exists fields.
Qed.
Lemma error_body_typed status reason : 400 <= status -> status ∈ statuses -> well_typed (Reply status (error_body reason)).
Proof. intros H1 H2. apply (refusal_typed _ reason); [done|done|by left]. Qed.
Lemma json_text_typed status fields : status < 400 -> status ∈ statuses -> get_field "error" (JObject fields) = None ->
  well_typed (Reply status (json_text (JObject fields))).
Proof. intros H1 H2. apply answer_typed; [done|done|by left]. Qed.

Lemma written_typed status body : written status body = true -> well_typed (Reply status body).
Proof.
  unfold written. rewrite andb_true_iff, bool_decide_eq_true. intros [Hs Hf].
  destruct (flat_parse body) as [[|[k v] [|[k' v'] []]]|] eqn:E; try done.
  - apply bool_decide_eq_true in Hf. destruct (Z.leb_spec 400 status); subst k.
    + apply (refusal_typed _ v); [done|done|]. right. by exists [(bs "error", v)].
    + apply (answer_typed _ [("result", JString v)]); [done|done| |done]. right. by exists [(bs "result", v)].
  - rewrite !andb_true_iff, Z.ltb_lt, !bool_decide_eq_true in Hf. destruct Hf as [[Hl ->] ->].
    apply (answer_typed _ [("result", JString v); ("message", JString v')]); [done|done| |done].
    right. by exists [(bs "result", v); (bs "message", v')].
Qed.

(** ** Every route *)

Lemma check_typed t req status body : check t req = Err (status, body) -> well_typed (Reply status body).
Proof. unfold check. repeat case_match; intros [= <- <-]. by apply written_typed. Qed.
Lemma read_json_body_typed req n status body : read_json_body req n = Err (status, body) -> well_typed (Reply status body).
Proof. unfold read_json_body. repeat case_match; intros [= <- <-]; by apply written_typed. Qed.
Lemma phone_digits_typed raw body : phone_digits raw = Err body -> well_typed (Reply 400 body).
Proof. unfold phone_digits. repeat case_match; intros [= <-]; by apply written_typed. Qed.

Ltac reply_case :=
  first [by apply written_typed
        |by apply error_body_typed; [lia|apply (bool_decide_unpack _)]
        |apply json_text_typed; [lia|by apply (bool_decide_unpack _)|done]
        |by eapply check_typed|by eapply read_json_body_typed|by eapply phone_digits_typed|done].

Lemma queue_maintenance_typed st a accepted req w : written 202 accepted = true ->
  well_typed (queue_maintenance (W := W) (Client := Client) (Jid := Jid) st a accepted req w).2.
Proof.
  intros Ha. unfold queue_maintenance. destruct (check _ _) as [[]|[status body]] eqn:Ec; [|reply_case].
  destruct (request _ _) as [m []]; [|by apply written_typed|reply_case].
  destruct (spawn_job _ _); [by apply written_typed|reply_case].
Qed.

Lemma post_send_typed st req w : well_typed (post_send (W := W) (Client := Client) (Jid := Jid) st req w).2.
Proof. unfold post_send. repeat case_match; cbn [snd]; reply_case. Qed.
Lemma post_pair_code_typed st req w : well_typed (post_pair_code (W := W) (Client := Client) (Jid := Jid) st req w).2.
Proof. unfold post_pair_code. repeat case_match; cbn [snd]; reply_case. Qed.

(** The one body with text from elsewhere in it. *)
Lemma session_error_typed text : forallb plain_byte text = true ->
  well_typed (Reply 500 (q "{'error':'session list failed: " ++ text ++ q "'}")).
Proof.
  intros Hp. apply (refusal_typed _ (bs "session list failed: " ++ text)); [lia|by apply (bool_decide_unpack _)|].
  right. exists [(bs "error", bs "session list failed: " ++ text)]. split; [|done].
  change (q "{'error':'session list failed: " ++ text ++ q "'}") with
    (x7b :: x22 :: bs "error" ++ x22 :: x3a :: x22 :: (bs "session list failed: " ++ text) ++ [x22; x7d]).
  unfold flat_parse. cbn [length members]. rewrite until_quote_plain by done. cbn [mbind option_bind].
  change ((bs "session list failed: " ++ text) ++ [x22; x7d]) with ((bs "session list failed: " ++ text) ++ x22 :: [x7d]).
  rewrite until_quote_plain; [done|]. rewrite forallb_app, Hp. by vm_compute.
Qed.

Lemma get_sessions_typed st req w : (forall e, forallb plain_byte (display st e) = true) ->
  well_typed (get_sessions (W := W) (Client := Client) (Jid := Jid) st req w).2.
Proof.
  intros Hd. unfold get_sessions. destruct (check _ _) as [[]|[status body]] eqn:Ec; [|reply_case].
  destruct (list_sessions _) as [s [l|e]]; [reply_case|]. by apply session_error_typed.
Qed.

(** C28. Every answer of the dashboard's interface is an object of a known
    shape.  Whatever the request, the device and the token: apart from the
    pages, [/health] and the route that panics on purpose, each route answers
    with one of twelve statuses and a JSON object, which holds an [error]
    string and nothing else when the status is one of failure and no [error]
    at all when it is not; only [POST /send] waits for a job, whose outcome is
    answered in the same way.  (The errors of the store, which one route
    copies into its answer as they are, are taken to print without quotes,
    backslashes or control characters.) *)
Theorem replies_are_typed st r req (w : admin (W := W) (Client := Client) (Jid := Jid)) o to :
  (forall e, forallb plain_byte (display st e) = true) ->
  (r ∉ [GetDashboard; GetQrScript; GetHealth; PostTestPanic] -> well_typed (serve st r req w).2) /\
  (forall n, (serve st r req w).2 = WaitsFor n -> r = PostSend) /\
  well_typed (send_reply to o).
Proof.
  intros Hd. split_and!.
  - intros Hr. destruct r; cbn [serve].
    all: try (exfalso; apply Hr; set_solver).
    all: try (by apply queue_maintenance_typed); try (by apply post_send_typed); try (by apply post_pair_code_typed);
      try (by apply get_sessions_typed).
    + unfold get_root. destruct (read_stats _). reply_case.
    + unfold get_device, to_json_authenticated. reply_case.
    + unfold get_messages. destruct (check _ _) as [[]|[status body]] eqn:Ec; reply_case.
    + reply_case.
  - intros n. destruct r; cbn [serve]; try done.
    + unfold get_root. by destruct (read_stats _).
    + unfold get_messages. by destruct (check _ _) as [[]|[]].
    + unfold post_pair_code. by repeat case_match.
    + unfold queue_maintenance. repeat case_match; done.
    + unfold queue_maintenance. repeat case_match; done.
    + unfold get_sessions. repeat case_match; done.
    + unfold queue_maintenance. repeat case_match; done.
  - destruct o; cbn [send_reply]; reply_case.
Qed.
End Replies.

(** ** Witness: a wrong token. *)
Section Witness.
#[local] Existing Instance pad_sha.
#[local] Existing Instance plain_wacore.
#[local] Instance small_board : Board := false.
#[local] Instance blank_json : SerdeJson := { json_text _ := []; json_parse _ := None }.

Definition guarded_setting : setting (Client := nat) (Jid := bytes) :=
  Setting (Some (bs "secret")) 0 (fun _ => true) Some Gated [] [] false quiet_board no_last_run 0 0 (fun _ => bs "NVS worker stopped").
Definition quiet_admin : admin (W := mem) (Client := nat) (Jid := bytes) :=
  Admin (System Coordinator.new (blank_store [] Works) DeviceStatus.new None) [] true true.

Lemma replies_are_typed_witness :
  (serve guarded_setting GetSessions (MkRequest (fun _ => None) None []) quiet_admin).2 =
    Reply 401 (q "{'error':'A valid X-Admin-Token header is required'}") /\
  well_typed (Reply 401 (q "{'error':'A valid X-Admin-Token header is required'}")).
Proof.
  split; [by vm_compute|].
  apply (proj1 (replies_are_typed guarded_setting GetSessions (MkRequest (fun _ => None) None []) quiet_admin TimedOut [] ltac:(done))).
  rewrite !not_elem_of_cons. by split_and!; [..|apply not_elem_of_nil].
Defined.
End Witness.
