(* ===== verification/Firmware.v ===== *)
(** * The firmware's supervisor ([src/main.rs])

    How a client generation ends and what the supervisor loop does about it,
    as a machine over the state it shares with the dashboard; and the choice
    of the admin token.  The client itself is the SDK's: what it answers comes
    with each step. *)

From S2P Require Import Prelude RustStr Nvs Record SessionSlots Lru Flash Platform StoreInner Store DeviceStatus Coordinator Maintenance.

(** ** How a client ends *)

Inductive ClientExit := Restart | TemporaryBan | PreserveCredentials | ResetCredentials.
#[global] Instance client_exit_eq_dec : EqDecision ClientExit.
Proof. solve_decision. Defined.

(** The [repr(u8)] discriminants. *)
Definition as_u8 (x : ClientExit) : Z :=
  match x with Restart => 0 | TemporaryBan => 1 | PreserveCredentials => 2 | ResetCredentials => 3 end.
Definition from_u8 (value : Z) : ClientExit :=
  if value =? 3 then ResetCredentials
  else if value =? 2 then PreserveCredentials
  else if value =? 1 then TemporaryBan
  else Restart.

(** The SDK's lifecycle events, as far as the observer tells them apart:
    whether a logout came from the server ([raw]) and for the logged-out
    reason, how long a ban lasts, whether a failure may be retried. *)
Inductive lifecycle :=
| LoggedOutEvent (raw logged_out : bool)
| TemporaryBanEvent (num_seconds : Z)
| ClientOutdated
| StreamReplaced
| ConnectFailure (should_reconnect : bool)
| OtherEvent.

(** The two atomics of a generation. *)
Record observer := Observer {
  outcome : Z;
  temporary_ban_seconds : Z;
}.

Definition u32_max : Z := 2 ^ 32 - 1.
(** [u32::try_from(num_seconds.max(0)).unwrap_or(u32::MAX)] *)
Definition ban_seconds (num_seconds : Z) : Z := if fits 32 (Z.max num_seconds 0) then Z.max num_seconds 0 else u32_max.

Definition event_exit (e : lifecycle) : option ClientExit :=
  match e with
  | LoggedOutEvent true true => Some ResetCredentials
  | LoggedOutEvent true false => Some PreserveCredentials
  | TemporaryBanEvent _ => Some TemporaryBan
  | ClientOutdated | StreamReplaced => Some PreserveCredentials
  | ConnectFailure false => Some PreserveCredentials
  | _ => None
  end.

Definition handle_event (e : lifecycle) (o : observer) : observer :=
  match event_exit e with
  | None => o
  | Some exit =>
      Observer (Z.max (outcome o) (as_u8 exit))
        (match e with TemporaryBanEvent n => ban_seconds n | _ => temporary_ban_seconds o end)
  end.

(** ** The supervisor *)

Section Supervisor.
Context {W Client : Type} `{nvsW : !Nvs W, shaW : !Sha256, wacore : Wacore, board : Board, !EqDecision Client}.

Definition SECONDS : Z := 10 ^ 9.

(** Where [run_whatsapp] and the generation it runs are. *)
Inductive supervisor :=
| Building
| Activating (client : Client)
| Running (client : Client) (o : observer)
| Clearing (client : Client) (o : observer)
| Concluding (o : observer)
| StoringBan (exit : ClientExit) (o : observer)
| Deciding (exit : option ClientExit)
| BeginWait (exit : option ClientExit) (delay : Z)
| Waiting (exit : option ClientExit) (delay start : Z)
| Maintaining (t : task (Client := Client))
| Parked.

(** What a step finds: the client that the builder returned, the next event
    of the running client ([None]: [bot.run()] returned), the clock. *)
Record finds := Finds {
  f_built : option Client;
  f_event : option lifecycle;
  f_now : Z;
}.

(** A restart: the exit that caused it (none after an error of the builder),
    the events its generation saw, when the wait began and when it was over. *)
Record restart := Restarted {
  r_exit : option ClientExit;
  r_seen : list lifecycle;
  r_start : Z;
  r_resumed : Z;
}.

(** The shared state, [TEMPORARY_BAN_WAIT], and what has happened: the events
    of the current generation and the restarts so far. *)
Record firmware := Firmware {
  shared : system (W := W) (Client := Client);
  ban_wait : Z;
  at_ : supervisor;
  seen : list lifecycle;
  restarts : list restart;
}.

Definition set_shared (x : system) (f : firmware) : firmware := Firmware x (ban_wait f) (at_ f) (seen f) (restarts f).
Definition move_to (t : supervisor) (f : firmware) : firmware := Firmware (shared f) (ban_wait f) t (seen f) (restarts f).
Definition see (l : list lifecycle) (f : firmware) : firmware := Firmware (shared f) (ban_wait f) (at_ f) l (restarts f).
Definition set_ban_wait (x : Z) (f : firmware) : firmware := Firmware (shared f) x (at_ f) (seen f) (restarts f).

(** [run_whatsapp_inner]: one client generation. *)
Definition generation_step (x : finds) (f : firmware) : firmware :=
  match at_ f with
  | Building =>
      match f_built x with
      | None => move_to (Deciding None) (see [] f)
      | Some client => move_to (Activating client) (see [] f)
      end
  | Activating client =>
      move_to (Running client (Observer (as_u8 Restart) 0))
        (set_shared (set_active (set client (active_client (shared f))) (shared f)) f)
  | Running client o =>
      match f_event x with
      | Some e => move_to (Running client (handle_event e o)) (see (seen f ++ [e]) f)
      | None => move_to (Clearing client o) f
      end
  | Clearing client o =>
      move_to (Concluding o) (set_shared (set_active (clear_if client (active_client (shared f))) (shared f)) f)
  | Concluding o =>
      let exit := from_u8 (outcome o) in
      let ds := device_status (shared f) in
      let ds := match exit with ResetCredentials => set_logged_out ds | _ => set_disconnected ds end in
      move_to (StoringBan exit o) (set_shared (set_status ds (shared f)) f)
  | StoringBan exit o =>
      move_to (Deciding (Some exit)) (set_ban_wait (Z.min u32_max (temporary_ban_seconds o + 5)) f)
  | _ => f
  end.

(** [run_whatsapp], around it. *)
Definition sup_step (x : finds) (f : firmware) : firmware :=
  match at_ f with
  | Deciding None => move_to (BeginWait None 5) f
  | Deciding (Some Restart) => move_to (BeginWait (Some Restart) 5) f
  | Deciding (Some TemporaryBan) =>
      let wait := Z.max (ban_wait f) 1 in
      move_to (BeginWait (Some TemporaryBan) wait) (set_ban_wait 0 f)
  | Deciding (Some PreserveCredentials) => move_to Parked f
  | Deciding (Some ResetCredentials) =>
      let '(m, answer) := request Reset (coordinator (shared f)) in
      let f := set_shared (set_coordinator m (shared f)) f in
      match answer with
      | Start => move_to (Maintaining ReadRequest) f
      | Queued | Rejected => move_to Parked f
      end
  | BeginWait exit delay => move_to (Waiting exit (delay * SECONDS) (f_now x)) f
  | Waiting exit delay start =>
      (* [sleep] may return at once: the clock decides *)
      if f_now x - start <? delay then f
      else Firmware (shared f) (ban_wait f) Building (seen f) (restarts f ++ [Restarted exit (seen f) start (f_now x)])
  | Maintaining t =>
      let '(s, t, _) := advance (shared f) t in
      move_to (Maintaining t) (set_shared s f)
  | Parked => f
  | _ => generation_step x f
  end.
End Supervisor.

(** ** The admin token *)

(** An error of the default NVS partition, as far as [nvs_string] looks. *)
Inductive nvs_failure := NotFound | OtherFailure.

(** [nvs_string]: [opened] is the outcome of opening the namespace, [found]
    that of reading the string. *)
Definition nvs_string (opened : result nvs_failure unit) (found : result nvs_failure (option bytes)) :
    result nvs_failure (option bytes) :=
  match opened with
  | Err NotFound => Ok None
  | Err e => Err e
  | Ok _ =>
      match found with
      | Ok (Some value) => if bool_decide (value = []) then Ok None else Ok (Some value)
      | Ok None => Ok None
      | Err NotFound => Ok None
      | Err e => Err e
      end
  end.

(** The token of this boot, or that the startup fails. *)
Definition admin_token (default_token : bytes) (opened : result nvs_failure unit) (found : result nvs_failure (option bytes)) :
    result nvs_failure (option bytes) :=
  match nvs_string opened found with
  | Ok (Some t) => Ok (Some t)
  | Ok None => Ok (if bool_decide (default_token = []) then None else Some default_token)
  | Err e => Err e
  end.
