(* ===== verification/FirmwareTheorems.v ===== *)
(** * What the supervisor guarantees *)

From S2P Require Import Prelude RustStr Crash Executor Metrics Nvs Record SessionSlots Lru Flash Platform StoreInner Store Json DeviceStatus Coordinator Maintenance SendAdmission Admin AdminTheorems Firmware Concrete NvsMem.
#[local] Set Default Proof Using "Type".

(** ** The exit of a generation *)

(** The server unlinked the device; the server rejected the client for good. *)
Definition unlinks (e : lifecycle) : bool := match e with LoggedOutEvent true true => true | _ => false end.
Definition rejects (e : lifecycle) : bool :=
  match e with
  | LoggedOutEvent true false | ClientOutdated | StreamReplaced | ConnectFailure false => true
  | _ => false
  end.
Definition bans (e : lifecycle) : bool := match e with TemporaryBanEvent _ => true | _ => false end.

(** The gravest of what a generation saw, and the last ban's length. *)
Definition worst (l : list lifecycle) : ClientExit :=
  if existsb unlinks l then ResetCredentials
  else if existsb rejects l then PreserveCredentials
  else if existsb bans l then TemporaryBan
  else Restart.
Definition last_ban (l : list lifecycle) : Z :=
  foldl (fun n e => match e with TemporaryBanEvent k => ban_seconds k | _ => n end) 0 l.

Lemma ban_seconds_range n : 0 <= ban_seconds n <= u32_max.
Proof. unfold ban_seconds, fits, u32_max. destruct (Z.leb_spec 0 (Z.max n 0)), (Z.ltb_spec (Z.max n 0) (2 ^ 32)); cbn; lia. Qed.

Lemma last_ban_snoc l e : last_ban (l ++ [e]) = match e with TemporaryBanEvent k => ban_seconds k | _ => last_ban l end.
Proof. unfold last_ban. by rewrite foldl_app. Qed.
Lemma last_ban_range l : 0 <= last_ban l <= u32_max.
Proof.
  induction l as [|e l IH] using rev_ind; [by unfold last_ban, u32_max; cbn|]. rewrite last_ban_snoc.
  destruct e; try done. apply ban_seconds_range.
Qed.

Lemma as_u8_range x : 0 <= as_u8 x <= 3.
Proof. by destruct x. Qed.
Lemma from_as_u8 x : from_u8 (as_u8 x) = x.
Proof. by destruct x. Qed.

Lemma worst_snoc l e : as_u8 (worst (l ++ [e])) =
  match event_exit e with None => as_u8 (worst l) | Some x => Z.max (as_u8 (worst l)) (as_u8 x) end.
Proof.
  unfold worst. rewrite !existsb_app. cbn [existsb]. rewrite !orb_false_r.
  destruct e as [[] []|n| | |[]|]; cbn [unlinks rejects bans event_exit]; rewrite ?orb_false_r, ?orb_true_r; try done;
    by destruct (existsb unlinks l), (existsb rejects l), (existsb bans l).
Qed.

Lemma handle_event_snoc l e :
  handle_event e (Observer (as_u8 (worst l)) (last_ban l)) = Observer (as_u8 (worst (l ++ [e]))) (last_ban (l ++ [e])).
Proof.
  unfold handle_event. rewrite worst_snoc, last_ban_snoc. cbn [outcome temporary_ban_seconds].
  destruct (event_exit e) eqn:E; [done|]. by destruct e as [[] []|n| | |[]|].
Qed.

Section Supervisor.
Context {W Client : Type} `{nvsW : !Nvs W, shaW : !Sha256, wacore : Wacore, board : Board, eqC : !EqDecision Client}.
Implicit Types (f : firmware (W := W) (Client := Client)).

(** The seconds a restart waits for at least. *)
Definition delay_of (exit : option ClientExit) (l : list lifecycle) : Z :=
  match exit with Some TemporaryBan => Z.min u32_max (last_ban l + 5) | _ => 5 end.
Definition restartable (exit : option ClientExit) (l : list lifecycle) : Prop :=
  exit = None \/ (exit = Some (worst l) /\ (worst l = Restart \/ worst l = TemporaryBan)).

Definition restart_ok (r : restart) : Prop :=
  restartable (r_exit r) (r_seen r) /\ r_start r + delay_of (r_exit r) (r_seen r) * SECONDS <= r_resumed r.

Definition sup_inv f : Prop :=
  Forall restart_ok (restarts f) /\
  match at_ f with
  | Building => True
  | Activating _ => seen f = []
  | Running _ o | Clearing _ o | Concluding o => o = Observer (as_u8 (worst (seen f))) (last_ban (seen f))
  | StoringBan exit o => exit = worst (seen f) /\ o = Observer (as_u8 (worst (seen f))) (last_ban (seen f))
  | Deciding None => True
  | Deciding (Some exit) => exit = worst (seen f) /\ ban_wait f = Z.min u32_max (last_ban (seen f) + 5)
  | BeginWait exit delay => restartable exit (seen f) /\ delay = delay_of exit (seen f)
  | Waiting exit delay start => restartable exit (seen f) /\ delay = delay_of exit (seen f) * SECONDS
  | Maintaining _ => worst (seen f) = ResetCredentials
  | Parked => worst (seen f) = PreserveCredentials \/ worst (seen f) = ResetCredentials
  end.

Lemma sup_inv_step x f : sup_inv f -> sup_inv (sup_step x f).
Proof.
  intros [Hr Hi]. unfold sup_step, generation_step. destruct (at_ f) as [|cl|cl o|cl o|o|e o|e|e d|e d s|t|] eqn:Et.
  - by destruct (f_built x).
  - split; [done|]. cbn. by rewrite Hi.
  - destruct (f_event x) as [e|]; [|done]. split; [done|]. cbn. by rewrite Hi, handle_event_snoc.
  - done.
  - split; [done|]. cbn. split; [|done]. rewrite Hi. apply from_as_u8.
  - destruct Hi as [He Ho]. split; [done|]. cbn. by rewrite He, Ho.
  - destruct e as [e|].
    2: { split; [done|]. cbn. split; [by left|done]. }
    destruct Hi as [He Hb]. destruct e.
    + split; [done|]. cbn. split; [right; rewrite <- He; auto|done].
    + split; [done|]. cbn. split; [right; rewrite <- He; auto|]. rewrite Hb.
      pose proof (last_ban_range (seen f)). fold (last_ban (seen f)). unfold u32_max in *. lia.
    + split; [done|]. cbn. auto.
    + destruct (request Reset (coordinator (shared f))) as [m []]; (split; [done|]); cbn; auto.
  - destruct Hi as [He ->]. split; [done|]. by split.
  - destruct Hi as [He Hd]. destruct (Z.ltb_spec (f_now x - s) d); [split; [done|by rewrite Et]|].
    split; [|done]. apply Forall_app. split; [done|]. apply Forall_singleton. split; [done|]. cbn. lia.
  - destruct (advance (shared f) t) as [[s' t'] out]. by split.
  - split; [done|by rewrite Et].
Qed.

(** The supervisor's steps among anything that the rest of the program does
    to the shared state. *)
Inductive sup_move := Sup (x : finds (Client := Client)) | Rest (s : system (W := W) (Client := Client)).
Definition sup_play (ms : list sup_move) f : firmware :=
  foldl (fun f m => match m with Sup x => sup_step x f | Rest s => set_shared s f end) f ms.

Lemma sup_inv_play ms : forall f, sup_inv f -> sup_inv (sup_play ms f).
Proof.
  induction ms as [|m ms IH]; intros f Hi; [done|]. apply IH. destruct m; [by apply sup_inv_step|]. by destruct Hi.
Qed.

Definition boot (s : system (W := W) (Client := Client)) : firmware := Firmware s 0 Building [] [].

Definition halted (t : supervisor (Client := Client)) : bool :=
  match t with Parked | Maintaining _ => true | _ => false end.

Lemma halted_play ms : forall f, halted (at_ f) = true ->
  halted (at_ (sup_play ms f)) = true /\ restarts (sup_play ms f) = restarts f /\ seen (sup_play ms f) = seen f.
Proof.
  induction ms as [|m ms IH]; intros f Hf; [done|].
  set (g := match m with Sup x => sup_step x f | Rest s => set_shared s f end).
  assert (Hg : halted (at_ g) = true /\ restarts g = restarts f /\ seen g = seen f).
  { subst g. destruct m as [x|s]; [|done]. unfold sup_step, generation_step.
    destruct (at_ f) as [| | | | | | | | |t|] eqn:Et; try done; [|by rewrite Et].
    by destruct (advance (shared f) t) as [[s' t'] out]. }
  destruct Hg as (H1 & H2 & H3). change (sup_play (m :: ms) f) with (sup_play ms g).
  destruct (IH g H1) as (E1 & E2 & E3). split_and!; [done|congruence|congruence].
Qed.

(** C16. The supervisor keeps to what the server said.  Whatever the events of
    each generation, in whatever order, and whatever the rest of the program
    does to the shared state: a new client is started only after an error of
    the builder, a plain exit, or a temporary ban, never after a rejection;
    it waits five seconds by the clock, or the length of the last ban and
    five more (up to the largest 32-bit count), even when the timer fails;
    maintenance that erases the credentials is begun only by a generation
    that saw the server unlink the device; and once the supervisor has parked
    or handed over to maintenance it never starts a client again. *)
Theorem supervisor_respects_the_server ms more s :
  let f := sup_play ms (boot s) in
  let g := sup_play more f in
  Forall restart_ok (restarts f) /\
  (forall t, at_ f = Maintaining t -> existsb unlinks (seen f) = true) /\
  (at_ f = Parked -> existsb (fun e => unlinks e || rejects e) (seen f) = true) /\
  (halted (at_ f) = true -> halted (at_ g) = true /\ restarts g = restarts f).
Proof.
  intros f g. assert (Hi : sup_inv f) by by apply sup_inv_play. destruct Hi as [Hr Hi].
  split_and!; [done| | |].
  - intros t Et. rewrite Et in Hi. unfold worst in Hi. destruct (existsb unlinks (seen f)); [done|].
    by destruct (existsb rejects (seen f)), (existsb bans (seen f)).
  - intros Et. rewrite Et in Hi. unfold worst in Hi.
    assert (E : existsb (fun e => unlinks e || rejects e) (seen f) = existsb unlinks (seen f) || existsb rejects (seen f)).
    { clear. induction (seen f) as [|e l IH]; [done|]. cbn. rewrite IH.
      by destruct (unlinks e), (rejects e), (existsb unlinks l), (existsb rejects l). }
    rewrite E. destruct (existsb unlinks (seen f)), (existsb rejects (seen f)); try done.
    destruct Hi as [Hi|Hi]; by destruct (existsb bans (seen f)).
  - intros Ht. destruct (halted_play more f Ht) as (H1 & H2 & _). by split.
Qed.
End Supervisor.

(** ** One task erases and reboots *)

Section OneTask.
Context {W Client Jid : Type} `{nvsW : !Nvs W, shaW : !Sha256, wacore : Wacore, board : Board, eqC : !EqDecision Client,
  serde : SerdeJson}.

(** The supervisor and the dashboard over the same state. *)
Record whole := Whole {
  fw : firmware (W := W) (Client := Client);
  jobs : list (job (Client := Client) (Jid := Jid));
  open_ : bool;
  alive : bool;
}.

(** A request that the dashboard serves, a step of the supervisor, the close
    of the request window by whoever runs the maintenance, any other change
    to the state, and the end of the executor, which is the supervisor's
    too.  Nothing happens to a device that has crashed, until it starts
    again. *)
Inductive happening :=
| Serves (st : setting (Client := Client) (Jid := Jid)) (r : route) (req : Request)
| Supervises (x : finds (Client := Client))
| Commits (applied : MaintenanceAction)
| Touches (store : store W) (ds : DeviceStatus) (active : option Client)
| ExecutorEnds.

Definition happen (x : whole) (h : happening) : whole :=
  if negb (alive x) then x else
  match h with
  | Serves st r req =>
      let w := (serve st r req (Admin (shared (fw x)) (jobs x) (open_ x) (alive x))).1 in
      Whole (set_shared (device w) (fw x)) (spawned w) (executor w) (up w)
  | Supervises y => if open_ x then Whole (sup_step y (fw x)) (jobs x) (open_ x) (alive x) else x
  | Commits applied =>
      let s := shared (fw x) in
      Whole (set_shared (set_coordinator (begin_reboot applied (coordinator s)).1 s) (fw x)) (jobs x) (open_ x) (alive x)
  | Touches store ds active =>
      Whole (set_shared (System (coordinator (shared (fw x))) store ds active) (fw x)) (jobs x) (open_ x) (alive x)
  | ExecutorEnds => Whole (fw x) (jobs x) false (alive x)
  end.

(** The maintenance tasks that were started: the dashboard's and the
    supervisor's own. *)
Definition is_maintenance (j : job (Client := Client) (Jid := Jid)) : bool :=
  match j with RunMaintenance => true | _ => false end.
Definition started_by_supervisor (x : whole) : nat := match at_ (fw x) with Maintaining _ => 1 | _ => 0 end.
Definition tasks (x : whole) : nat := (length (List.filter is_maintenance (jobs x)) + started_by_supervisor x)%nat.
Definition one_task (x : whole) : Prop := tasks x = (if running (coordinator (shared (fw x))) then 1 else 0)%nat.

Lemma filter_snoc l j : List.filter is_maintenance (l ++ [j]) =
  List.filter is_maintenance l ++ (if is_maintenance j then [j] else []).
Proof. rewrite List.filter_app. cbn. by destruct (is_maintenance j). Qed.

(** What a served request does to the coordinator and the jobs. *)
Definition serves_ok (w w' : admin (W := W) (Client := Client) (Jid := Jid)) : Prop :=
  (length (List.filter is_maintenance (spawned w')) + (if running (coordinator (device w)) then 1 else 0) =
   length (List.filter is_maintenance (spawned w)) + (if running (coordinator (device w')) then 1 else 0))%nat.

Lemma queue_maintenance_ok st a msg req w : serves_ok w (queue_maintenance st a msg req w).1.
Proof.
  unfold queue_maintenance, serves_ok. destruct (check _ _) as [[]|[c b]]; [|done].
  unfold request. destruct (accepting (coordinator (device w))); cbn [negb]; [|by destruct w].
  destruct (running (coordinator (device w))) eqn:Er; cbn [fst]; [done|].
  unfold spawn_job. cbn [executor spawned set_device]. destruct (executor w); cbn; [|done].
  rewrite filter_snoc, length_app. cbn. lia.
Qed.

(** A job of another kind is all that was spawned. *)
Ltac spawned_other :=
  unfold spawn_job in *; repeat case_match; simplify_eq; unfold serves_ok; cbn;
  rewrite ?filter_snoc, ?length_app; cbn; lia.

Lemma serve_ok st r req w : serves_ok w (serve st r req w).1.
Proof.
  destruct r; cbn [serve]; try apply queue_maintenance_ok; try done.
  - unfold get_root. by destruct (read_stats _).
  - unfold get_messages. by destruct (check _ _) as [[]|[c b]].
  - unfold post_send. repeat case_match; simplify_eq; try done; spawned_other.
  - unfold post_pair_code. repeat case_match; simplify_eq; try done; spawned_other.
  - unfold get_sessions. destruct (check _ _) as [[]|[c b]]; [|done]. by destruct (list_sessions _) as [s [l|e]].
Qed.

Lemma advance_running s (t : Maintenance.task (Client := Client)) :
  running (coordinator (advance (W := W) s t).1.1) = running (coordinator s).
Proof.
  destruct t; cbn [advance]; try done.
  - by destruct (active_client s).
  - by destruct initial.
  - destruct (_ <? _); [|done]. by destruct (requested (coordinator s)).
  - by destruct (erase action (nvs_store s)) as [u []].
  - unfold begin_reboot. destruct (requested_action (coordinator s)) as [r|]; [|done]. by destruct (_ <? _).
  - by destruct (worker (nvs_store s)).
Qed.

Lemma happen_one_task h x : one_task x -> one_task (happen x h).
Proof.
  unfold one_task, tasks. intros Hi. unfold happen. destruct (alive x) eqn:Ealive; cbn [negb]; [|done]. destruct h as [st r req|y|applied|u ds active|]; cbn [happen].
  - pose proof (serve_ok st r req (Admin (shared (fw x)) (jobs x) (open_ x) true)) as Hs. unfold serves_ok in Hs.
    cbn [device spawned] in Hs. unfold started_by_supervisor in *. cbn [fw jobs shared set_shared at_]. lia.
  - destruct (open_ x); [|done]. unfold started_by_supervisor in *. cbn [fw jobs]. unfold sup_step, generation_step.
    destruct (at_ (fw x)) as [|cl|cl o|cl o|o|e o|e|e d|e d s|t|] eqn:Et; try done.
    + by destruct (f_built y).
    + by destruct (f_event y).
    + destruct e as [[]|]; try done. unfold request. destruct (coordinator (shared (fw x))) as [r [] []]; cbn in *; lia.
    + destruct (_ <? _); [by rewrite Et|done].
    + pose proof (advance_running (shared (fw x)) t) as Ha. destruct (advance (shared (fw x)) t) as [[s' t'] out].
      cbn in *. by rewrite Ha.
    + by rewrite Et.
  - unfold started_by_supervisor in *. cbn. unfold begin_reboot.
    destruct (requested_action (coordinator (shared (fw x)))) as [r|]; [|done]. by destruct (_ <? _).
  - done.
  - done.
Qed.

(** C12. One task erases and reboots, never two.  Whatever the dashboard is
    asked, by whoever and however often, and whatever happens to the clients:
    of the maintenance tasks that the dashboard's requests and the supervisor
    start, there is exactly one as soon as the coordinator says that one is
    running, and none before.  So no accepted request waits for a task that
    does not exist, and two erasures never race. *)
Theorem one_task_erases_and_reboots hs s :
  coordinator s = Coordinator.new ->
  let x := foldl happen (Whole (boot s) [] true true) hs in
  (tasks x <= 1)%nat /\ (tasks x = 1%nat <-> running (coordinator (shared (fw x))) = true).
Proof.
  intros Hs x. assert (Hi : one_task x).
  { subst x. assert (H0 : one_task (Whole (boot s) [] true true)) by (unfold one_task; cbn; by rewrite Hs).
    revert H0. generalize (Whole (boot s) [] true true). induction hs as [|h hs IH]; intros y Hy; [done|].
    by apply IH, happen_one_task. }
  unfold one_task in Hi. rewrite Hi. destruct (running _); split; [lia|done|lia|done].
Qed.
(** ** Nothing is erased without authority *)

(** A request without the device's token, and an event that does not unlink
    the device; the rest is whatever happens. *)
Definition without_authority (h : happening) : Prop :=
  match h with
  | Serves st _ req => exists t, token st = Some t /\ default [] (header req TOKEN_HEADER) <> t
  | Supervises y => forall e, f_event y = Some e -> unlinks e = false
  | _ => True
  end.

(** Nobody has asked for maintenance, and no job was handed out. *)
Definition unasked (x : whole) : Prop :=
  requested_action (coordinator (shared (fw x))) = None /\ running (coordinator (shared (fw x))) = false /\
  jobs x = [] /\ existsb unlinks (seen (fw x)) = false /\ sup_inv (fw x).

Lemma unauthorised_serve st t r req (w : admin (W := W) (Client := Client) (Jid := Jid)) : token st = Some t -> default [] (header req TOKEN_HEADER) <> t ->
  coordinator (device (serve st r req w).1) = coordinator (device w) /\ spawned (serve st r req w).1 = spawned w.
Proof.
  intros Ht Hn. assert (Hc := unauthorised st t req Ht Hn).
  destruct r; cbn [serve]; unfold get_root, get_device, get_messages, post_send, post_pair_code, get_sessions, queue_maintenance;
    rewrite ?Hc; try done. by destruct (read_stats _).
Qed.

Lemma worst_unlinks l : existsb unlinks l = false -> worst l <> ResetCredentials.
Proof. unfold worst. intros ->. by destruct (existsb rejects l), (existsb bans l). Qed.

Lemma unasked_supervises (y : finds (Client := Client)) (f : firmware (W := W) (Client := Client)) : (forall e, f_event y = Some e -> unlinks e = false) ->
  existsb unlinks (seen f) = false -> sup_inv f ->
  coordinator (shared (sup_step y f)) = coordinator (shared f) /\ existsb unlinks (seen (sup_step y f)) = false.
Proof.
  intros He Hs [_ Hi]. assert (Hw := worst_unlinks _ Hs). unfold sup_step, generation_step.
  destruct (at_ f) as [|cl|cl o|cl o|o|e o|e|e d|e d s|t|] eqn:Et; try done.
  - by destruct (f_built y).
  - destruct (f_event y) as [e|] eqn:Ee; [|done]. cbn. rewrite existsb_app, Hs. cbn. by rewrite (He e eq_refl).
  - destruct e as [[]|]; try done. by destruct Hi as [Hi _].
  - by destruct (_ <? _).
Qed.

Lemma happen_unasked h x : without_authority h -> unasked x -> unasked (happen x h).
Proof.
  intros Hh (Hq & Hr & Hj & Hs & Hi). unfold unasked, happen. destruct (alive x) eqn:Ealive; cbn [negb]; [|by split_and!]. destruct h as [st r req|y|applied|u ds active|]; cbn [happen].
  - destruct Hh as (t & Ht & Hn). destruct (unauthorised_serve st t r req (Admin (shared (fw x)) (jobs x) (open_ x) true) Ht Hn) as [Hc Hsp].
    cbn [fw jobs shared set_shared seen]. rewrite Hc, Hsp. by split_and!.
  - destruct (open_ x); [|by split_and!]. cbn [fw jobs].
    destruct (unasked_supervises y (fw x) Hh Hs Hi) as [-> ->]. split_and!; try done. by apply sup_inv_step.
  - cbn [fw jobs shared set_shared seen coordinator set_coordinator]. unfold begin_reboot. rewrite Hq. by split_and!.
  - by split_and!.
  - by split_and!.
Qed.

Lemma unasked_always hs s : coordinator s = Coordinator.new -> Forall without_authority hs ->
  unasked (foldl happen (Whole (boot s) [] true true) hs).
Proof.
  intros Hs Hh. assert (H0 : unasked (Whole (boot s) [] true true)) by (unfold unasked; cbn; rewrite Hs; by split_and!; [..|split]).
  revert H0. generalize (Whole (boot s) [] true true). induction Hh as [|h hs Hh _ IH]; intros y Hy; [done|].
  by apply IH, happen_unasked.
Qed.

Lemma unasked_no_task x : unasked x -> tasks x = 0%nat.
Proof.
  intros (Hq & Hr & Hj & Hsn & [_ Hi]). unfold tasks, started_by_supervisor. rewrite Hj. cbn.
  destruct (at_ (fw x)) as [| | | | | | | | |t|]; try done. by apply worst_unlinks in Hsn.
Qed.

(** Credentials are erased only on authority.  As long as no request
    carries the device's token and the server does not unlink the device:
    whatever the dashboard is asked, however the clients end and are replaced,
    and whatever else happens to the shared state, no maintenance is requested
    of the coordinator, no maintenance task starts, neither the dashboard's nor
    the supervisor's, and no job at all is handed to the executor. *)
Theorem nothing_erased_without_authority hs s :
  coordinator s = Coordinator.new -> Forall without_authority hs ->
  let x := foldl happen (Whole (boot s) [] true true) hs in
  tasks x = 0%nat /\ jobs x = [] /\ requested_action (coordinator (shared (fw x))) = None /\
  running (coordinator (shared (fw x))) = false.
Proof.
  intros Hs Hh x. assert (Hu : unasked x) by by apply unasked_always.
  split; [by apply unasked_no_task|]. destruct Hu as (Hq & Hr & Hj & _). done.
Qed.
End OneTask.

(** ** The token of a boot *)

(** Authentication fails closed.  A boot that goes on without a token is
    one where the partition holds none (or an empty one) and the build has
    none either; a token that is there but cannot be read stops the startup
    instead; and a provisioned token takes precedence over the build's. *)
Theorem token_fails_closed default_token opened found :
  match admin_token default_token opened found with
  | Ok None =>
      default_token = [] /\
      (opened = Err NotFound \/ (opened = Ok tt /\ (found = Ok None \/ found = Ok (Some []) \/ found = Err NotFound)))
  | Ok (Some t) => t <> [] /\ ((opened = Ok tt /\ found = Ok (Some t)) \/ t = default_token)
  | Err e => e = OtherFailure /\ (opened = Err e \/ (opened = Ok tt /\ found = Err e))
  end.
Proof.
  unfold admin_token, nvs_string. destruct opened as [[]|[]]; [|case_bool_decide; naive_solver|naive_solver].
  destruct found as [[v|]|[]]; [case_bool_decide; [subst v|naive_solver]| | |naive_solver]; case_bool_decide; naive_solver.
Qed.

(** ** Witness: the dashboard is told to reboot while the server unlinks the
    device. *)
Section Witness.
#[local] Existing Instance pad_sha.
#[local] Existing Instance plain_wacore.
#[local] Instance internal_ram : Board := false.
#[local] Instance silent_json : SerdeJson := { json_text _ := []; json_parse _ := None }.

Definition unlinked : list (happening (W := mem) (Client := nat) (Jid := bytes)) :=
  let st := Setting None 0 (fun _ => true) Some Gated [] [] false quiet_board no_last_run 0 0 (fun _ => []) in
  let x e := Supervises (Finds (Some 1%nat) e 0) in
  [x None; x None; x (Some (LoggedOutEvent true true)); Serves st PostReboot (MkRequest (fun _ => None) None []);
   x None; x None; x None; x None; x None; Serves st PostReset (MkRequest (fun _ => None) None [])].
Definition idle_system : system (W := mem) (Client := nat) :=
  System Coordinator.new (blank_store [] Works) DeviceStatus.new None.

Lemma one_task_erases_and_reboots_witness :
  let x := foldl happen (Whole (boot idle_system) [] true true) unlinked in
  at_ (fw x) = Parked /\ requested (coordinator (shared (fw x))) = Reset /\ tasks x = 1%nat.
Proof.
  intros x. split_and!; [by vm_compute|by vm_compute|].
  apply (one_task_erases_and_reboots unlinked idle_system eq_refl). by vm_compute.
Defined.

(** Resets are asked for without the token while the server replaces the
    stream. *)
Definition guessed : list (happening (W := mem) (Client := nat) (Jid := bytes)) :=
  let st := Setting (Some (bs "secret")) 0 (fun _ => true) Some Gated [] [] false quiet_board no_last_run 0 0 (fun _ => []) in
  let x e := Supervises (Finds (Some 1%nat) e 0) in
  let reset := Serves st PostReset (MkRequest (fun _ => Some (bs "secreT")) None []) in
  [x None; reset; x None; x (Some StreamReplaced); reset; x None; x None; x None; x None; x None].

Lemma nothing_erased_without_authority_witness :
  let x := foldl happen (Whole (boot idle_system) [] true true) guessed in
  at_ (fw x) = Parked /\ seen (fw x) = [StreamReplaced] /\ tasks x = 0%nat.
Proof.
  intros x. split_and!; [by vm_compute|by vm_compute|].
  refine (proj1 (nothing_erased_without_authority guessed idle_system eq_refl _)).
  repeat constructor; cbn; try (intros e [= <-]; done); by exists (bs "secret").
Defined.
End Witness.
