(* ===== verification/Startup.v ===== *)
(** * From power-on to the supervisor ([main] of [src/main.rs])

    [main] and what it calls, over the board: each call of the SDK is an
    effect of the log, and whether it succeeds is an answer that [main] is
    given.  The panic report and the store are the ones of [Metrics] and
    [StoreOpen]; what [main] hands to the threads it starts is the state that
    [Firmware] and [Admin] begin with. *)

From S2P Require Import Prelude RustStr Nvs Record SessionSlots Lru Flash Platform StoreInner Store Crash Metrics StoreOpen DeviceStatus Coordinator Maintenance Firmware HttpClient.

(** ** The board *)

(** What [main] asks of the SDK, and the steps of its own that last. *)
Inductive effect :=
| SetPanicHook | ReadLastRun | MountEventfs | OpenStore | TakePeripherals | TakeSystemLoop | TakeDefaultPartition
| ReadAdminToken
| NewWifi | ConfigureWifi | StartWifi | ConnectWifi | WaitWifi | DisconnectWifi | WifiAddress
| NewEthernet | StartEthernet | WaitEthernet | EthernetAddress
| StartSntp | TakeMdns | MdnsHostname | MdnsInstance | MdnsService
| CreateRuntime | StartAdminServer (token : option bytes)
| SpawnExecutorThread | RaisePriority
| WatchdogAdd | SpawnFeeder | WarmPool | BlockOnSupervisor
| SleepSeconds (n : Z).
#[global] Instance effect_eq_dec : EqDecision effect.
Proof. solve_decision. Defined.

(** How [main] ends without the supervisor running: it returns, which halts the
    device; it reboots; it panics, which reboots too; or it still tries to
    connect. *)
Inductive stop := Returns | Reboots | Panicked | StillConnecting.

(** The answers: of the calls that either succeed or end [main]; of the worker
    thread's creation; of the default partition; of the attempts to associate,
    each with the wait that follows; of the watchdog. *)
Record answers := Answers {
  succeeds : effect -> bool;
  worker_spawned : bool;
  partition_opened : result nvs_failure unit;
  token_found : result nvs_failure (option bytes);
  attempts : list (bool * bool);
  watchdog_added : bool;
}.

(** What the program was built with. *)
Record build := Build {
  wifi_ssid : bytes;
  wifi_pass : bytes;
  default_token : bytes;
  admin_feature : bool;
}.

Section Startup.
Context {W Client : Type} `{nvsW : !Nvs W, shaW : !Sha256, wacore : Wacore, board : Board, features : Features,
  eqC : !EqDecision Client}.

(** What a boot finds and leaves: the memory that survives a reset, the core
    dump, the partition of the store; and what it has done. *)
Record machine := Machine {
  rtc : CrashLog;
  dump : option (option dump_summary);
  partition : W;
  report : last_run;
  effects : list effect;
}.

Definition Main := M machine stop.

Definition log_effect (e : effect) (m : machine) : machine :=
  Machine (rtc m) (dump m) (partition m) (report m) (effects m ++ [e]).
Definition does (e : effect) : Main unit := modify (log_effect e).

(** [call()?] *)
Definition sdk (x : answers) (e : effect) : Main unit :=
  does e ;;; if succeeds x e then ret tt else fail Returns.

(** The report of the last run; [reset], and whether the dump could be
    erased, are the SDK's. *)
Definition read_last_run (reset : ResetReason) (erased : bool) : Main unit :=
  modify (fun m =>
    let '(log, image, l) := record_last_run reset (rtc m) erased (dump m) (report m) in
    Machine log image (partition m) l (effects m ++ [ReadLastRun])).

(** [NvsStore::open_default()], or a reboot. *)
Definition open_store (x : answers) : Main (store W) := fun m =>
  let m := log_effect OpenStore m in
  let '(w, r) := open (worker_spawned x) (partition m) in
  let m := Machine (rtc m) (dump m) w (report m) (effects m) in
  match r with
  | Ok store => (m, Ok store)
  | Err _ => (log_effect (SleepSeconds 5) m, Err Reboots)
  end.

(** ** The network *)

Fixpoint connect_loop (attempts : list (bool * bool)) : Main unit :=
  match attempts with
  | [] => fail StillConnecting
  | (connected, up) :: attempts =>
      does ConnectWifi ;;;
      (if connected then does WaitWifi else ret tt) ;;;
      if connected && up then ret tt
      else
        does DisconnectWifi ;;;
        does (SleepSeconds 3) ;;;
        connect_loop attempts
  end.

Definition bring_up_wifi (b : build) (x : answers) : Main unit :=
  if bool_decide (wifi_ssid b = []) then fail Returns
  else
    sdk x NewWifi ;;;
    (* [try_into().unwrap()], into the driver's 32 and 64 bytes *)
    (if (32 <? len (wifi_ssid b)) || (64 <? len (wifi_pass b)) then fail Panicked else ret tt) ;;;
    sdk x ConfigureWifi ;;;
    sdk x StartWifi ;;;
    connect_loop (attempts x) ;;;
    sdk x WifiAddress.

Definition bring_up_ethernet (x : answers) : Main unit :=
  sdk x NewEthernet ;;;
  sdk x StartEthernet ;;;
  sdk x WaitEthernet ;;;
  sdk x EthernetAddress.

Definition start_mdns (x : answers) : Main unit :=
  sdk x TakeMdns ;;;
  sdk x MdnsHostname ;;;
  sdk x MdnsInstance ;;;
  sdk x MdnsService.

(** The block that decides the token. *)
Definition read_admin_token (b : build) (x : answers) : Main (option bytes) :=
  if admin_feature b then
    does ReadAdminToken ;;;
    match admin_token (default_token b) (partition_opened x) (token_found x) with
    | Ok token => ret token
    | Err _ => fail Returns
    end
  else ret None.

(** ** The executor's thread *)

(** [run_executor], up to the supervisor. *)
Definition run_executor (x : answers) : Main unit :=
  does WatchdogAdd ;;;
  (if watchdog_added x then does SpawnFeeder else ret tt) ;;;
  (if has_psram then does WarmPool else ret tt) ;;;
  does BlockOnSupervisor.

(** [main]: the shared state, and the token the dashboard was given. *)
Definition main (b : build) (reset : ResetReason) (erased : bool) (x : answers) :
    Main (system (W := W) (Client := Client) * option bytes) :=
  does SetPanicHook ;;;
  read_last_run reset erased ;;;
  sdk x MountEventfs ;;;
  let* store := open_store x in
  sdk x TakePeripherals ;;;
  sdk x TakeSystemLoop ;;;
  sdk x TakeDefaultPartition ;;;
  let* token := read_admin_token b x in
  (if qemu then bring_up_ethernet x else bring_up_wifi b x) ;;;
  sdk x StartSntp ;;;
  does (SleepSeconds 2) ;;;
  (if admin_feature b then start_mdns x else ret tt) ;;;
  let shared := System Coordinator.new store DeviceStatus.new None in
  sdk x CreateRuntime ;;;
  (if admin_feature b then sdk x (StartAdminServer token) else ret tt) ;;;
  (if has_psram then sdk x SpawnExecutorThread else does RaisePriority) ;;;
  run_executor x ;;;
  ret (shared, token).

(** ** What a start-up logs *)

(** The effects of a computation, each of which satisfies [P], and that it
    changes nothing but the log. *)
Definition emits {A} (P : effect -> Prop) (Q : result stop A -> Prop) (c : Main A) : Prop := forall m,
  exists l, (c m).1 = Machine (rtc m) (dump m) (partition m) (report m) (effects m ++ l) /\ Forall P l /\ Q (c m).2.

Lemma emits_does P e : P e -> emits P (fun r => r = Ok tt) (does e).
Proof. intros He m. exists [e]. split_and!; [done|by constructor|done]. Qed.

Lemma emits_ret {A} P (a : A) : emits P (fun r => r = Ok a) (ret a).
Proof. intros m. exists []. rewrite app_nil_r. by destruct m. Qed.
Lemma emits_fail {A} P e : emits P (fun r : result stop A => r = Err e) (fail e).
Proof. intros m. exists []. rewrite app_nil_r. by destruct m. Qed.

Lemma emits_bind {A B} P (Q : result stop A -> Prop) (R : result stop B -> Prop) c (k : A -> Main B) :
  emits P Q c -> (forall a, Q (Ok a) -> emits P R (k a)) -> (forall e, Q (Err e) -> R (Err e)) -> emits P R (bind c k).
Proof.
  intros Hc Hk He m. destruct (Hc m) as (l & Hl & HP & HQ). unfold bind. destruct (c m) as [m1 [a|e]]; cbn in *; subst m1.
  - destruct (Hk a HQ (Machine (rtc m) (dump m) (partition m) (report m) (effects m ++ l))) as (l' & -> & HP' & HR).
    exists (l ++ l'). cbn. rewrite (assoc_L (++)). split_and!; [done|by apply Forall_app|done].
  - exists l. by split_and!; [..|apply He].
Qed.

Lemma emits_mono {A} P (Q R : result stop A -> Prop) c : emits P Q c -> (forall r, Q r -> R r) -> emits P R c.
Proof. intros Hc HR m. destruct (Hc m) as (l & H1 & H2 & H3). exists l. split_and!; auto. Qed.

(** It goes on, or ends [main] otherwise than by a reboot. *)
Definition or_stops {A} (r : result stop A) : Prop := match r with Ok _ => True | Err e => e <> Reboots end.

Lemma emits_sdk P x e : P e -> emits P or_stops (sdk x e).
Proof.
  intros He. unfold sdk. eapply emits_bind; [by apply emits_does| |done]. intros _ _.
  destruct (succeeds x e); eapply emits_mono; [apply emits_ret|by intros _ -> |apply emits_fail|by intros _ ->].
Qed.
Lemma emits_done P e : P e -> emits P or_stops (does e).
Proof. intros He. eapply emits_mono; [by apply emits_does|]. by intros _ ->. Qed.
Lemma emits_ok {A} P (a : A) : emits P or_stops (ret a).
Proof. eapply emits_mono; [apply emits_ret|]. by intros _ ->. Qed.
Lemma emits_stop {A} P e : e <> Reboots -> emits P (or_stops (A := A)) (fail e).
Proof. intros He. eapply emits_mono; [apply emits_fail|]. by intros _ ->. Qed.

(** One after the other. *)
Lemma emits_then {A B} P (c : Main A) (k : A -> Main B) :
  emits P or_stops c -> (forall a, emits P or_stops (k a)) -> emits P or_stops (bind c k).
Proof. intros Hc Hk. by eapply emits_bind. Qed.

Ltac emits := repeat first
  [apply emits_sdk; done|apply emits_done; done|apply emits_ok|by apply emits_stop|apply emits_then; [|intros []]|case_match].

Lemma emits_connect P l : P ConnectWifi -> P WaitWifi -> P DisconnectWifi -> P (SleepSeconds 3) -> emits P or_stops (connect_loop l).
Proof.
  intros H1 H2 H3 H4. induction l as [|[c u] l IH]; cbn [connect_loop]; [by apply emits_stop|]. emits; apply IH.
Qed.

(** ** The services *)

(** What [main] does before the network, and from there to the executor. *)
Definition credentials (b : build) (x : answers) : Main (option bytes) :=
  sdk x TakePeripherals ;;;
  sdk x TakeSystemLoop ;;;
  sdk x TakeDefaultPartition ;;;
  read_admin_token b x.
Definition services (b : build) (x : answers) (token : option bytes) : Main unit :=
  (if qemu then bring_up_ethernet x else bring_up_wifi b x) ;;;
  sdk x StartSntp ;;;
  does (SleepSeconds 2) ;;;
  (if admin_feature b then start_mdns x else ret tt) ;;;
  sdk x CreateRuntime ;;;
  (if admin_feature b then sdk x (StartAdminServer token) else ret tt) ;;;
  (if has_psram then sdk x SpawnExecutorThread else does RaisePriority).

Lemma bind_ext {S E A B} (c : M S E A) (k k' : A -> M S E B) s : (forall a t, k a t = k' a t) -> bind c k s = bind c k' s.
Proof. intros Hk. unfold bind. destruct (c s) as [t [a|e]]; auto. Qed.
Lemma bind_assoc {S E A B C} (c : M S E A) (k : A -> M S E B) (h : B -> M S E C) s :
  bind (bind c k) h s = bind c (fun a => bind (k a) h) s.
Proof. unfold bind. by destruct (c s) as [t [a|e]]. Qed.

Lemma main_eq b reset erased x m :
  main b reset erased x m =
  (does SetPanicHook ;;;
   read_last_run reset erased ;;;
   sdk x MountEventfs ;;;
   let* store := open_store x in
   let* token := credentials b x in
   services b x token ;;;
   run_executor x ;;;
   ret (System Coordinator.new store DeviceStatus.new None, token)) m.
Proof.
  unfold main. do 4 (apply bind_ext; intros ? ?). unfold credentials. repeat (rewrite bind_assoc; apply bind_ext; intros ? ?).
  apply bind_ext. intros token ?. unfold services. repeat (rewrite bind_assoc; apply bind_ext; intros ? ?). by apply bind_ext.
Qed.

(** The token of this boot. *)
Definition token_of (b : build) (x : answers) : result nvs_failure (option bytes) :=
  admin_token (default_token b) (partition_opened x) (token_found x).
Definition tokened (b : build) (x : answers) (token : option bytes) : Prop := admin_feature b = true -> token_of b x = Ok token.

Definition local_effect (e : effect) : Prop :=
  e ∈ [TakePeripherals; TakeSystemLoop; TakeDefaultPartition; ReadAdminToken].
Definition served (token : option bytes) (e : effect) : Prop :=
  match e with
  | StartAdminServer t => t = token
  | SetPanicHook | ReadLastRun | MountEventfs | OpenStore | ReadAdminToken | WatchdogAdd | SpawnFeeder | WarmPool | BlockOnSupervisor => False
  | _ => True
  end.

Lemma credentials_emits b x : emits local_effect (fun r => or_stops r /\ forall token, r = Ok token -> tokened b x token) (credentials b x).
Proof.
  unfold credentials, local_effect. do 3 (eapply emits_bind; [apply emits_sdk; set_solver|intros _ _|intros e He; by split]).
  unfold read_admin_token, tokened, token_of. destruct (admin_feature b).
  - eapply emits_bind; [apply emits_done; set_solver|intros _ _|intros e He; by split].
    destruct (admin_token _ _ _) as [t|e].
    + eapply emits_mono; [apply emits_ret|]. intros _ ->. split; [done|]. by intros ? [= ->].
    + eapply emits_mono; [apply emits_fail|]. by intros _ ->.
  - eapply emits_mono; [apply emits_ret|]. by intros _ ->.
Qed.

Lemma services_emit b x token : emits (served token) or_stops (services b x token).
Proof.
  unfold services, bring_up_ethernet, bring_up_wifi, start_mdns. emits; by apply emits_connect.
Qed.

(** The executor's thread always gets to the supervisor. *)
Lemma run_executor_log x (m : machine) : exists l,
  run_executor x m = (Machine (rtc m) (dump m) (partition m) (report m) (effects m ++ l ++ [BlockOnSupervisor]), Ok tt) /\
  Forall (fun e => e ∈ [WatchdogAdd; SpawnFeeder; WarmPool]) l /\ (SpawnFeeder ∈ l <-> watchdog_added x = true).
Proof.
  exists (WatchdogAdd :: (if watchdog_added x then [SpawnFeeder] else []) ++ (if has_psram then [WarmPool] else [])).
  unfold run_executor, does, log_effect, bind, modify, ret.
  destruct (watchdog_added x), has_psram; cbn; rewrite <- ?(assoc_L (++)); (split_and!; [done| |]); try set_solver.
  all: repeat (constructor; [set_solver|]); constructor.
Qed.

(** ** Associating with the access point *)

Definition associated (a : bool * bool) : bool := a.1 && a.2.
Definition is_attempt (e : effect) : bool := bool_decide (e = ConnectWifi).

(** The loop ends at the first attempt that succeeds, and only there. *)
Lemma connect_at_first_success l (m : machine) :
  match list_find (fun a => associated a = true) l with
  | Some (n, _) => (connect_loop l m).2 = Ok tt /\
      length (List.filter is_attempt (effects (connect_loop l m).1)) = (length (List.filter is_attempt (effects m)) + S n)%nat
  | None => (connect_loop l m).2 = Err StillConnecting
  end.
Proof.
  revert m. induction l as [|[c u] l IH]; intros m; [done|]. cbn [list_find].
  assert (Hf : forall l, List.filter is_attempt (l ++ [ConnectWifi]) = List.filter is_attempt l ++ [ConnectWifi]) by (intros; by rewrite List.filter_app).
  assert (Hn : forall e l, is_attempt e = false -> List.filter is_attempt (l ++ [e]) = List.filter is_attempt l)
    by (intros e l' He; rewrite List.filter_app; cbn; rewrite He; apply app_nil_r).
  case_decide as Ha; unfold associated in Ha; cbn in Ha.
  - apply andb_true_iff in Ha as [-> ->]. cbn. rewrite Hn, Hf, length_app by done. cbn. split; [done|lia].
  - assert (Hm : exists m3, connect_loop ((c, u) :: l) m = connect_loop l m3 /\
      length (List.filter is_attempt (effects m3)) = (length (List.filter is_attempt (effects m)) + 1)%nat).
    { destruct c, u; try done; (eexists; split; [reflexivity|]); cbn; rewrite !Hn, Hf, length_app by done; done. }
    destruct Hm as (m3 & -> & E3). specialize (IH m3).
    destruct (list_find _ l) as [[n a]|]; [|done]. cbn. destruct IH as [-> ->]. split; [done|]. rewrite E3. lia.
Qed.
End Startup.
