(* ===== verification/StartupTheorems.v ===== *)
(** * What a start-up guarantees *)

From S2P Require Import Prelude RustStr Nvs NvsMem Record SessionSlots Lru Flash FlashSpec FlashBoot FlashRecords FlashReset FlashDevice Platform StoreInner Store StoreInv StoreOps StoreOpen StoreBoot Concrete StoreTheorems Crash Metrics Json DeviceStatus Coordinator Maintenance SendAdmission Admin AdminTheorems Firmware FirmwareTheorems HttpClient Startup.
#[local] Set Default Proof Using "Type*".

Section Startup.
Context {W Client : Type} `{nvsW : !Nvs W, lawsW : !NvsLaws W, shaW : !Sha256, wacore : Wacore, lawsC : !WacoreLaws, board : Board,
  features : Features, eqC : !EqDecision Client}.

(** [main], once the file system of events is mounted. *)
Definition mounted (b : build) (x : answers) : Main (W := W) (system (W := W) (Client := Client) * option bytes) :=
  let* store := open_store x in
  let* token := credentials b x in
  services b x token ;;;
  run_executor x ;;;
  ret (System Coordinator.new store DeviceStatus.new None, token).

(** What is logged after the store was opened, when the token is [token]:
    nothing that the network sees before the token is known. *)
Definition guarded (token : option bytes) (l : list effect) : Prop :=
  exists before after, l = before ++ after /\ Forall local_effect before /\ Forall (served token) after.

Definition open_of (x : answers) (m : machine (W := W)) : W * result StoreError (store W) := open (worker_spawned x) (partition m).

Lemma mounted_log b x (m : machine (W := W)) : let '(m', r) := mounted b x m in
  partition m' = (open_of x m).1 /\ rtc m' = rtc m /\ dump m' = dump m /\ report m' = report m /\
  match (open_of x m).2 with
  | Err _ => r = Err Reboots /\ effects m' = effects m ++ [OpenStore; SleepSeconds 5]
  | Ok store => exists token l, effects m' = effects m ++ OpenStore :: l /\
      match r with
      | Ok (s, t) => s = System Coordinator.new store DeviceStatus.new None /\ t = token /\ tokened b x token /\
          exists l1 l2, l = l1 ++ l2 ++ [BlockOnSupervisor] /\ guarded token l1 /\
            Forall (fun e => e ∈ [WatchdogAdd; SpawnFeeder; WarmPool]) l2 /\ (SpawnFeeder ∈ l2 <-> watchdog_added x = true)
      | Err e => e <> Reboots /\ guarded token l /\ (tokened b x token \/ Forall local_effect l)
      end
  end.
Proof using Type.
  unfold mounted, open_of. unfold bind at 1. unfold open_store. cbn [log_effect partition].
  destruct (open (worker_spawned x) (partition m)) as [w [store|e]]; cbn [fst snd].
  2: { cbn. split_and!; try done. by rewrite <- (assoc_L (++)). }
  set (m1 := Machine _ _ _ _ _). destruct (credentials_emits b x m1) as (l1 & H1 & H2 & H3).
  unfold bind at 1. destruct (credentials b x m1) as [m2 [token|e]]; cbn [fst snd] in *; subst m2.
  2: { destruct H3 as [H3 _]. do 4 (split; [done|]). exists None, l1. cbn. rewrite <- (assoc_L (++)).
       split_and!; [done|done| |by right]. exists l1, []. rewrite app_nil_r. by split_and!. }
  destruct H3 as [_ Ht]. specialize (Ht token eq_refl). set (m2 := Machine _ _ _ _ _).
  destruct (services_emit b x token m2) as (l2 & G1 & G2 & G3).
  unfold bind at 1. destruct (services b x token m2) as [m3 [[]|e]]; cbn [fst snd] in *; subst m3.
  2: { do 4 (split; [done|]). exists token, (l1 ++ l2). cbn. rewrite <- !(assoc_L (++)).
       split_and!; [done|done| |by left]. by exists l1, l2. }
  set (m3 := Machine _ _ _ _ _). destruct (run_executor_log x m3) as (l3 & E3 & F1 & F2). unfold bind. rewrite E3. cbn.
  do 4 (split; [done|]). exists token, ((l1 ++ l2) ++ l3 ++ [BlockOnSupervisor]). rewrite <- !(assoc_L (++)). split; [done|].
  split_and!; try done. exists (l1 ++ l2), l3. rewrite <- !(assoc_L (++)). split_and!; try done; try apply F2. by exists l1, l2.
Qed.

(** The machine when the store is opened. *)
Definition reported (reset : ResetReason) (erased : bool) (m : machine (W := W)) : machine :=
  let '(log, image, l) := record_last_run reset (rtc m) erased (dump m) (report m) in
  Machine log image (partition m) l (effects m ++ [SetPanicHook; ReadLastRun; MountEventfs]).

Lemma main_mounted b reset erased x (m : machine (W := W)) :
  main b reset erased x m =
  if succeeds x MountEventfs then mounted b x (reported reset erased m) else (reported reset erased m, Err Returns).
Proof using Type.
  rewrite main_eq. unfold reported, bind at 1 2, does at 1, modify at 1, read_last_run, modify at 1.
  cbn [rtc dump report log_effect effects partition].
  destruct (record_last_run reset (rtc m) erased (dump m) (report m)) as [[log image] rep].
  unfold bind at 1, sdk, bind at 1, does at 1, modify at 1, log_effect. cbn [rtc dump report effects partition].
  rewrite <- !(assoc_L (++)). by destruct (succeeds x MountEventfs).
Qed.

Lemma reported_fields reset erased (m : machine (W := W)) :
  partition (reported reset erased m) = partition m /\
  effects (reported reset erased m) = effects m ++ [SetPanicHook; ReadLastRun; MountEventfs] /\
  (rtc (reported reset erased m), dump (reported reset erased m), report (reported reset erased m)) =
    record_last_run reset (rtc m) erased (dump m) (report m).
Proof using Type. unfold reported. by destruct (record_last_run _ _ _ _ _) as [[log image] rep]. Qed.

(** C14. A start-up does things in an order that is safe to stop at.  Whatever
    the SDK answers: the panic hook is set and the last run reported before
    anything can fail; the store is opened next, and when it cannot be the
    device reboots without having touched anything else; only a device whose
    admin token is decided gets to the network, the dashboard is given that
    token and no other, and an unreadable token stops the start-up there; the
    watchdog is fed exactly when the executor's thread is registered with it;
    and the supervisor starts when everything went well, with the store that
    was opened and a fresh state, and never otherwise. *)
Theorem startup_is_guarded b reset erased x (m : machine (W := W)) :
  let '(m', r) := main (Client := Client) b reset erased x m in
  exists l, effects m' = effects m ++ SetPanicHook :: ReadLastRun :: MountEventfs :: l /\
  (rtc m', dump m', report m') = record_last_run reset (rtc m) erased (dump m) (report m) /\
  if succeeds x MountEventfs then
    partition m' = (open_of x m).1 /\
    match (open_of x m).2 with
    | Err _ => r = Err Reboots /\ l = [OpenStore; SleepSeconds 5]
    | Ok store => exists token l', l = OpenStore :: l' /\
        match r with
        | Ok (s, t) => s = System Coordinator.new store DeviceStatus.new None /\ t = token /\ tokened b x token /\
            exists l1 l2, l' = l1 ++ l2 ++ [BlockOnSupervisor] /\ guarded token l1 /\
              Forall (fun e => e ∈ [WatchdogAdd; SpawnFeeder; WarmPool]) l2 /\ (SpawnFeeder ∈ l2 <-> watchdog_added x = true)
        | Err e => e <> Reboots /\ guarded token l' /\ (tokened b x token \/ Forall local_effect l')
        end
    end
  else l = [] /\ r = Err Returns /\ partition m' = partition m.
Proof using Type.
  rewrite main_mounted. destruct (reported_fields reset erased m) as (Hpart & Heff & Hrep).
  destruct (succeeds x MountEventfs).
  2: { exists []. by split_and!. }
  pose proof (mounted_log b x (reported reset erased m)) as Hm. destruct (mounted _ _ _) as [m' r].
  destruct Hm as (Hp & Hr & Hd & Hl & H). unfold open_of in *. rewrite Hpart in *. rewrite Heff in *.
  destruct (open (worker_spawned x) (partition m)) as [w [store|e]]; cbn [fst snd] in *.
  - destruct H as (token & l & He & H). exists (OpenStore :: l). rewrite He, <- (assoc_L (++)), Hr, Hd, Hl.
    split_and!; [done|done|done|by exists token, l].
  - destruct H as [-> He]. exists [OpenStore; SleepSeconds 5]. rewrite He, <- (assoc_L (++)), Hr, Hd, Hl. by split_and!.
Qed.

(** A request without the token [t], and an event that does not unlink the
    device; the rest is whatever happens. *)
Definition powerless {Jid} (t : bytes) (h : happening (W := W) (Client := Client) (Jid := Jid)) : Prop :=
  match h with
  | Serves st _ req => token st = Some t /\ default [] (header req TOKEN_HEADER) <> t
  | Supervises y => forall e, f_event y = Some e -> unlinks e = false
  | _ => True
  end.

Lemma powerless_without_authority {Jid} t (h : happening (Jid := Jid)) : powerless t h -> without_authority h.
Proof using Type. destruct h; try done. intros [Ht Hn]. by exists t. Qed.

(** C11. From power-on, credentials are erased only on authority.  A device
    that starts from a partition of the shape its own writes have, with a
    linked device and no reset left over, and whose admin token is [t]: it
    starts with everything that was durable; and as long as no request
    carries [t] and the server does not unlink the device, whatever the
    dashboard is asked, however the clients end and are replaced, and
    whatever else happens to the shared state, no maintenance is requested of
    the coordinator, no maintenance task starts, neither the dashboard's nor
    the supervisor's, and no job at all is handed to the executor. *)
Theorem nothing_erased_from_power_on {Jid} `{serde : SerdeJson} b reset erased x (m m' : machine (W := W)) s t
    (hs : list (happening (W := W) (Client := Client) (Jid := Jid))) :
  main b reset erased x m = (m', Ok (s, Some t)) -> admin_feature b = true ->
  image_ok (durable (partition m)) -> durable (partition m) NsControl !! bs "reset" = None ->
  device_of (Device := Device) (durable (partition m) NsDevice) <> None ->
  Forall (powerless t) hs ->
  token_of b x = Ok (Some t) /\ sinv (nvs_store s) /\ (forall n, flv (nvs_store s) n = durable (partition m) n) /\
  let y := foldl happen (Whole (boot s) [] true true) hs in
  tasks y = 0%nat /\ FirmwareTheorems.jobs y = [] /\ requested_action (coordinator (shared (fw y))) = None.
Proof.
  intros Hmain Ha Him Hnr Hdev Hh. rewrite main_mounted in Hmain. destruct (succeeds x MountEventfs); [|done].
  pose proof (mounted_log b x (reported reset erased m)) as Hm. rewrite Hmain in Hm. destruct Hm as (_ & _ & _ & _ & H).
  unfold open_of in H. rewrite (proj1 (reported_fields reset erased m)) in H.
  pose proof (open_flash_spec (partition m) Him) as Ho. unfold open, wp in *.
  destruct (open_flash _) as [g [i|e]]; [destruct (worker_spawned x)|]; cbn [snd] in H; [|by destruct H..].
  destruct H as (token & l & _ & -> & <- & Ht & _). split; [by apply Ht|].
  split; [apply Ho|]. split; [intros n; by apply (on_kept _ _ _ Ho)|].
  assert (Hu : unasked (foldl happen (Whole (boot (System Coordinator.new (Store g i true true) DeviceStatus.new None)) [] true true) hs)).
  { apply unasked_always; [done|]. eapply Forall_impl; [exact Hh|]. apply powerless_without_authority. }
  split; [by apply unasked_no_task|]. by destruct Hu as (Hq & _ & Hj & _).
Qed.
End Startup.

(** ** Witness: a linked device starts at the second try of its access point,
    and is asked for resets without its token. *)
Section Witness.
#[local] Existing Instance pad_sha.
#[local] Existing Instance plain_wacore.
#[local] Existing Instance plain_laws.
#[local] Instance c3 : Board := false.
#[local] Instance real_board : Features := false.
#[local] Instance mute_json : SerdeJson := { json_text _ := []; json_parse _ := None }.

Definition at_home : build := Build (bs "home") (bs "password") [] true.
Definition second_try : answers :=
  Answers (fun _ => true) true (Ok tt) (Ok (Some (bs "secret"))) [(false, false); (true, true)] true.
Definition powered : machine (W := mem) := Machine power_on None (fs_nvs (flash_state used)) no_last_run [].
Abbreviation started := (main (Client := nat) at_home PowerOn true second_try powered).

Lemma guessed_powerless : Forall (powerless (bs "secret")) guessed.
Proof. unfold guessed. repeat (apply Forall_cons; split; [first [by split|by intros e [= <-]]|]). by apply Forall_nil. Qed.

Lemma powered_image : image_ok (durable (partition powered)).
Proof. rewrite (eq_refl : partition powered = fs_nvs (flash_state used)). exact used_image. Qed.

Lemma nothing_erased_from_power_on_witness : exists m' s, started = (m', Ok (s, Some (bs "secret"))) /\
  StoreInner.device (inner (nvs_store s)) = Some (bs "device") /\ tasks (foldl happen (Whole (boot s) [] true true) guessed) = 0%nat /\
  List.filter is_attempt (effects m') = [ConnectWifi; ConnectWifi].
Proof.
  assert (Hk : match started with
    | (m', Ok (s, Some t)) => t = bs "secret" /\ StoreInner.device (inner (nvs_store s)) = Some (bs "device") /\
        List.filter is_attempt (effects m') = [ConnectWifi; ConnectWifi]
    | _ => False end) by (vm_compute; by split_and!).
  destruct started as [m' [[s [t|]]|e]] eqn:E; [|destruct Hk|destruct Hk]. destruct Hk as (-> & Hd & Hf).
  exists m', s. split; [reflexivity|]. split; [exact Hd|]. split; [|exact Hf].
  destruct (nothing_erased_from_power_on at_home PowerOn true second_try powered m' s (bs "secret") guessed E) as (_ & _ & _ & H & _);
    [reflexivity|exact powered_image|by vm_compute|by vm_compute|exact guessed_powerless|exact H].
Defined.
End Witness.
