(* ===== verification/Watchdog.v ===== *)
(** * The task-watchdog feeder ([feed_task_watchdog] of [src/main.rs])

    One round of the loop per step; what the SDK answers in a round comes with
    it.  The feeder's promise is about runs of failures, so its theorem speaks
    of them. *)

From S2P Require Import Prelude.

(** Milliseconds. *)
Definition FEED_INTERVAL : Z := 5000.
Definition ERROR_RETRY_DELAY : Z := 250.
Definition MAX_CONSECUTIVE_FAILURES : Z := 12.

(** The answers of a round: the watchdog's reset, a new timer service, a new
    timer, the wait. *)
Record answers := Answers {
  reset_ok : bool;
  service_ok : bool;
  timer_ok : bool;
  after_ok : bool;
}.

(** [slept] is the time the feeder has waited so far. *)
Record feeder := Feeder {
  timer_service : bool;
  timer : bool;
  failures : Z;
  unregistered : bool;
  slept : Z;
}.

(** A round's own failures: the reset, and the timer or its wait. *)
Definition rearm (a : answers) (f : feeder) : bool * bool :=
  if timer f then (timer_service f, true)
  else
    let service := if timer_service f then true else service_ok a in
    (service, if service then timer_ok a else false).

Definition round (a : answers) (f : feeder) : feeder :=
  let n := if reset_ok a then failures f else failures f + 1 in
  let '(service, armed) := rearm a f in
  let feed_cycle_ok := armed && after_ok a in
  let n := if feed_cycle_ok then n else n + 1 in
  let waited := if feed_cycle_ok then slept f + FEED_INTERVAL else slept f in
  if feed_cycle_ok && reset_ok a then Feeder service armed 0 false waited
  else if MAX_CONSECUTIVE_FAILURES <=? n then Feeder service armed n true waited
  else Feeder service armed n false (waited + ERROR_RETRY_DELAY).

(** The loop; once unregistered the feeder has returned. *)
Definition step (f : feeder) (a : answers) : feeder := if unregistered f then f else round a f.
Definition start (a : answers) : feeder := Feeder (service_ok a) (service_ok a && timer_ok a) 0 false 0.
Definition feed (rs : list answers) (f : feeder) : feeder := foldl step f rs.

(** ** Runs of failures *)

(** The watchdog was fed and the wait went through. *)
Definition good (a : answers) (f : feeder) : bool := (rearm a f).2 && after_ok a && reset_ok a.

(** Rounds that all fail, one after the other. *)
Fixpoint bad_run (rs : list answers) (f : feeder) : Prop :=
  match rs with
  | [] => True
  | a :: rs => unregistered f = false /\ good a f = false /\ bad_run rs (round a f)
  end.

Lemma good_round a f : good a f = true ->
  failures (round a f) = 0 /\ unregistered (round a f) = false /\ slept (round a f) = slept f + FEED_INTERVAL.
Proof.
  unfold good, round. destruct (rearm a f) as [service armed]. cbn [snd].
  by destruct armed, (after_ok a), (reset_ok a).
Qed.

Lemma bad_round a f : good a f = false ->
  failures f + 1 <= failures (round a f) <= failures f + 2 /\
  unregistered (round a f) = (MAX_CONSECUTIVE_FAILURES <=? failures (round a f)).
Proof.
  unfold good, round. destruct (rearm a f) as [service armed]. cbn [snd].
  destruct armed, (after_ok a), (reset_ok a); try done; intros _; cbn [andb];
    destruct (MAX_CONSECUTIVE_FAILURES <=? _) eqn:E; cbn [failures unregistered]; rewrite ?E; (split; [lia|done]).
Qed.

Lemma feed_app rs ts f : feed (rs ++ ts) f = feed ts (feed rs f).
Proof. apply foldl_app. Qed.
Lemma feed_stopped rs : forall f, unregistered f = true -> feed rs f = f.
Proof. induction rs as [|a rs IH]; intros f Hf; [done|]. cbn. unfold step at 2. rewrite Hf. by apply IH. Qed.
Lemma bad_run_snoc rs a : forall f, bad_run rs f -> unregistered (feed rs f) = false -> good a (feed rs f) = false ->
  bad_run (rs ++ [a]) f.
Proof.
  induction rs as [|b rs IH]; intros f Hb Hu Hg; [by split_and!|]. destruct Hb as (H1 & H2 & H3).
  change (feed (b :: rs) f) with (feed rs (step f b)) in *. unfold step in *. rewrite H1 in *. cbn [app bad_run]. auto.
Qed.

(** What the count of failures stands for. *)
Definition counted (rs : list answers) (f : feeder) : Prop :=
  exists pre bad, rs = pre ++ bad /\ bad_run bad (feed pre f) /\ failures (feed rs f) <= 2 * Z.of_nat (length bad).

Lemma counted_feed rs f : failures f = 0 -> unregistered (feed rs f) = false -> counted rs f.
Proof.
  intros Hf. induction rs as [|a rs IH] using rev_ind; intros Hu.
  { exists [], []. split_and!; [done|done|]. cbn. lia. }
  rewrite feed_app in Hu. cbn in Hu. unfold step in Hu. destruct (unregistered (feed rs f)) eqn:E; [congruence|].
  destruct (IH eq_refl) as (pre & bad & -> & Hb & Hn). unfold counted. rewrite feed_app. cbn [feed foldl]. unfold step. rewrite E.
  destruct (good a (feed (pre ++ bad) f)) eqn:Eg.
  - exists ((pre ++ bad) ++ [a]), []. rewrite app_nil_r. split_and!; [done|done|].
    destruct (good_round _ _ Eg) as [-> _]. cbn. lia.
  - exists pre, (bad ++ [a]). rewrite (assoc_L (++)). rewrite feed_app in *. split_and!; [done|by apply bad_run_snoc|].
    destruct (bad_round _ _ Eg) as [? _]. rewrite length_app. cbn [length]. lia.
Qed.

(** A running feeder is below its limit. *)
Definition running (f : feeder) : Prop := unregistered f = false /\ 0 <= failures f < MAX_CONSECUTIVE_FAILURES.

Lemma running_step f a : running f -> unregistered (step f a) = true \/ running (step f a).
Proof.
  intros [Hu Hf]. unfold step. rewrite Hu. destruct (good a f) eqn:E.
  - destruct (good_round _ _ E) as (H1 & H2 & _). right. split; [done|]. rewrite H1. by compute.
  - destruct (bad_round _ _ E) as [H1 H2]. destruct (unregistered (round a f)) eqn:Eu; [by left|right].
    split; [done|]. lia.
Qed.

Lemma running_feed rs : forall f, running f -> unregistered (feed rs f) = true \/ running (feed rs f).
Proof.
  induction rs as [|a rs IH]; intros f Hf; [by right|]. change (feed (a :: rs) f) with (feed rs (step f a)).
  destruct (running_step f a Hf) as [H|H]; [|auto]. left. by rewrite feed_stopped.
Qed.

(** A stretch of rounds ends the feeder, holds a good one, or is counted. *)
Definition good_within (rs : list answers) (f : feeder) : Prop :=
  exists pre b post, rs = pre ++ b :: post /\ unregistered (feed pre f) = false /\ good b (feed pre f) = true.

Lemma stretch_counts rs : forall f, running f ->
  unregistered (feed rs f) = true \/ good_within rs f \/ failures f + Z.of_nat (length rs) <= failures (feed rs f).
Proof.
  induction rs as [|a rs IH]; intros f Hf; [right; right; cbn; lia|].
  change (feed (a :: rs) f) with (feed rs (step f a)).
  destruct (good a f) eqn:Eg; [right; left; exists [], a, rs; split_and!; [done|apply Hf|done]|].
  destruct (running_step f a Hf) as [H|H]; [left; by rewrite feed_stopped|].
  destruct (IH _ H) as [?|[(pre & b & post & -> & Hu & Hb)|Hn]]; [by left|right; left|right; right].
  - by exists (a :: pre), b, post.
  - destruct (bad_round a f Eg) as [Hr _]. unfold step in Hn at 1. rewrite (proj1 Hf) in Hn. cbn [length]. lia.
Qed.

(** The round that ended it. *)
Lemma stopped_at rs : forall f, unregistered f = false -> unregistered (feed rs f) = true ->
  exists pre a post, rs = pre ++ a :: post /\ unregistered (feed pre f) = false /\ unregistered (round a (feed pre f)) = true.
Proof.
  induction rs as [|a rs IH]; intros f Hf Hs; [cbn in Hs; congruence|].
  change (feed (a :: rs) f) with (feed rs (step f a)) in Hs. destruct (unregistered (step f a)) eqn:E.
  - exists [], a, rs. split_and!; [done|done|]. cbn. unfold step in E. by rewrite Hf in E.
  - destruct (IH _ E Hs) as (pre & b & post & -> & H1 & H2). by exists (a :: pre), b, post.
Qed.

Lemma running_start a : running (start a).
Proof. by compute. Qed.

(** The feeder gives the watchdog up only over a run of failures.  From
    its start, whatever the SDK answers: if it has unregistered the thread, six
    rounds or more in a row had gone wrong; out of any twelve rounds either one
    fed the watchdog and waited its five seconds, or the feeder has stopped;
    and a round that does both clears the count. *)
Theorem watchdog_gives_up_on_a_run a rs :
  (unregistered (feed rs (start a)) = true ->
     exists pre bad post, rs = pre ++ bad ++ post /\ (6 <= length bad)%nat /\ bad_run bad (feed pre (start a))) /\
  (forall more, (12 <= length more)%nat ->
     unregistered (feed (rs ++ more) (start a)) = true \/ good_within more (feed rs (start a))) /\
  (forall b, good b (feed rs (start a)) = true ->
     failures (round b (feed rs (start a))) = 0 /\ unregistered (round b (feed rs (start a))) = false).
Proof.
  split_and!.
  - intros Hs. destruct (stopped_at rs (start a) eq_refl Hs) as (ts & b & post & -> & Hu & Hb).
    destruct (counted_feed ts (start a) eq_refl Hu) as (pre & bad & -> & Hr & Hn).
    destruct (good b (feed (pre ++ bad) (start a))) eqn:Eg.
    { destruct (good_round _ _ Eg) as (_ & ? & _). congruence. }
    destruct (bad_round _ _ Eg) as [Hf Hl]. rewrite Hb in Hl. symmetry in Hl. apply Z.leb_le in Hl.
    unfold MAX_CONSECUTIVE_FAILURES in Hl. exists pre, (bad ++ [b]), post. rewrite <- !(assoc_L (++)). split; [done|].
    split; [rewrite length_app; cbn [length]; lia|]. rewrite feed_app in Hu, Eg. by apply bad_run_snoc.
  - intros more Hm. rewrite feed_app. destruct (running_feed rs _ (running_start a)) as [H|H].
    { left. by rewrite feed_stopped. }
    destruct (stretch_counts more _ H) as [?|[?|Hn]]; [by left|by right|].
    destruct (running_feed more _ H) as [?|[_ Hr]]; [by left|].
    destruct H as [_ H]. unfold MAX_CONSECUTIVE_FAILURES in *. lia.
  - intros b Hb. destruct (good_round _ _ Hb) as (? & ? & _). done.
Qed.

(** With neither the watchdog nor the timer answering a round counts twice, and
    the feeder is gone after six of them: a second and a quarter of waiting, not
    the minute the constant's comment gives. *)
Definition dead : answers := Answers false false false false.
Example gives_up_in_seconds :
  unregistered (feed (repeat dead 6) (start dead)) = true /\ slept (feed (repeat dead 6) (start dead)) = 1250.
Proof. by vm_compute. Qed.
