(* ===== verification/Events.v ===== *)
(** * The event closure and the ping demo ([src/main.rs])

    What one event of a client does: to the shared status, and, for a message
    that is a ping, through the client's send calls.  One access to the shared
    state or one awaited call is a step, so that anything else can happen in
    between; the SDK's answers come with each step, which finds an awaited call
    done or waits on.  The development build's
    scan of the pairing code is in [Demo]. *)

From S2P Require Import Prelude RustStr Nvs NvsMem Record SessionSlots Lru Flash Platform StoreInner Store DeviceStatus Coordinator Maintenance Concrete.
#[local] Set Default Proof Using "Type".

(** The emoji in UTF-8. *)
Definition REACTION_EMOJI : bytes := [xf0; x9f; x8f; x93].
Definition PING_TRIGGER : bytes := [xf0; x9f; xa6; x80] ++ bs "ping".
Definition PONG_TEXT : bytes := REACTION_EMOJI ++ bs " Pong!".

(** The events the closure handles, with what it reads of them and of the
    client. *)
Inductive bot_event :=
| PairingQrCode (code : bytes)
| PairingQrCodesExhausted
| ConnectedEvent (pn lid : option bytes)
| DisconnectedEvent
| LoggedOutEvent
| MessagesEvent (batch : list MessageLogEntry)
| OtherEvent.

(** [text == Some(PING_TRIGGER)] *)
Definition is_ping (m : MessageLogEntry) : bool := bool_decide (text m = Some PING_TRIGGER).

(** A call of the client, with its answer. *)
Inductive sdk_call :=
| ForceActiveReceipts
| React (m : MessageLogEntry) (emoji : bytes)
| ReplyQuoting (m : MessageLogEntry) (text : bytes) (message_id : option bytes)
| EditMessage (m : MessageLogEntry) (message_id text : bytes).

(** [prepare_demo_edit]: the text of the edit. *)
Definition demo_edit (duration : bytes) : bytes := PONG_TEXT ++ [x0a] ++ bs "`" ++ duration ++ bs "`".

Section Events.
Context {W Client : Type} `{wacore : Wacore, board : Board, eqC : !EqDecision Client}.

Inductive closure :=
| Entered (e : bot_event)
| Applying (e : bot_event)
| Batch (rest : list MessageLogEntry)
| Acquiring (m : MessageLogEntry) (rest : list MessageLogEntry)
| Permitted (m : MessageLogEntry) (rest : list MessageLogEntry)
| Reacting (m : MessageLogEntry) (rest : list MessageLogEntry)
| Replying (m : MessageLogEntry) (rest : list MessageLogEntry)
| Editing (m : MessageLogEntry) (message_id duration : bytes) (rest : list MessageLogEntry)
| Returned.

(** The state it shares, where it is, the calls it has made, and the messages
    it has recorded. *)
Record handler := Handler {
  shared : system (W := W) (Client := Client);
  at_ : closure;
  calls : list sdk_call;
  logged : list MessageLogEntry;
}.

Definition goto (t : closure) (h : handler) : handler := Handler (shared h) t (calls h) (logged h).
Definition status (f : DeviceStatus -> DeviceStatus) (h : handler) : handler :=
  Handler (set_status (f (device_status (shared h))) (shared h)) (at_ h) (calls h) (logged h).
Definition called (c : sdk_call) (h : handler) : handler := Handler (shared h) (at_ h) (calls h ++ [c]) (logged h).
Definition log (m : MessageLogEntry) (h : handler) : handler := Handler (shared h) (at_ h) (calls h) (logged h ++ [m]).

(** What a step finds: whether it is the permit's turn, whether the call that
    is awaited is done, the id of the reply that was sent, how long that took. *)
Record answers := Answers {
  a_granted : bool;
  a_done : bool;
  a_message_id : option bytes;
  a_duration : bytes;
}.

(** [handle_message]: a failed reaction is only logged, a failed reply ends
    it.  A call that is not done is awaited. *)
Definition handle_message (a : answers) (h : handler) : handler :=
  if negb (a_done a) then h else
  match at_ h with
  | Reacting m rest => goto (Replying m rest) (called (React m REACTION_EMOJI) h)
  | Replying m rest =>
      let h := called (ReplyQuoting m PONG_TEXT (a_message_id a)) h in
      match a_message_id a with
      | Some message_id => goto (Editing m message_id (a_duration a) rest) h
      | None => goto (Batch rest) h
      end
  | Editing m message_id duration rest => goto (Batch rest) (called (EditMessage m message_id (demo_edit duration)) h)
  | _ => h
  end.

(** [prepare_message_task]: with internal RAM only, the reply takes the memory
    permit and looks once more whether the client is current. *)
Definition message_task (client : Client) (a : answers) (h : handler) : handler :=
  match at_ h with
  | Acquiring m rest => if a_granted a then goto (Permitted m rest) h else h
  | Permitted m rest => if is_current client (active_client (shared h)) then goto (Reacting m rest) h else goto (Batch rest) h
  | _ => handle_message a h
  end.

(** The closure of [on_event_for]. *)
Definition on_event (client : Client) (a : answers) (h : handler) : handler :=
  match at_ h with
  | Entered e => if is_current client (active_client (shared h)) then goto (Applying e) h else goto Returned h
  | Applying e =>
      match e with
      | PairingQrCode code => goto Returned (status (set_qr_code code) h)
      | PairingQrCodesExhausted => goto Returned (status clear_qr_code h)
      | ConnectedEvent pn lid => goto Returned (status (set_connected pn lid) (called ForceActiveReceipts h))
      | DisconnectedEvent => goto Returned (status set_disconnected h)
      | LoggedOutEvent => goto Returned (status set_logged_out h)
      | MessagesEvent batch => goto (Batch batch) h
      | OtherEvent => goto Returned h
      end
  | Batch [] => goto Returned h
  | Batch (m :: rest) =>
      let h := log m (status (record_message m) h) in
      if is_ping m then goto (if has_psram then Reacting m rest else Acquiring m rest) h
      else goto (Batch rest) h
  | Returned => h
  | _ => message_task client a h
  end.

(** The closure's steps among whatever the rest of the program does to the
    shared state. *)
Inductive move := Step (a : answers) | Rest (s : system (W := W) (Client := Client)).
Definition play (client : Client) (ms : list move) (h : handler) : handler :=
  foldl (fun h m => match m with Step a => on_event client a h | Rest s => Handler s (at_ h) (calls h) (logged h) end) h ms.

Definition enter (s : system (W := W) (Client := Client)) (e : bot_event) : handler := Handler s (Entered e) [] [].

(** What the closure's own steps found: their answers, and the state each
    began in. *)
Fixpoint steps (client : Client) (ms : list move) (h : handler) : list (answers * handler) :=
  match ms with
  | [] => []
  | Step a :: ms => (a, h) :: steps client ms (on_event client a h)
  | Rest s :: ms => steps client ms (Handler s (at_ h) (calls h) (logged h))
  end.

Section History.
Context (client : Client) (past : list (answers * handler)).

Definition current (h : handler) : bool := is_current client (active_client (shared h)).

(** The closure was entered while the client was ([now = true]) or was not
    the current one. *)
Definition entered (e : bot_event) (now : bool) : Prop :=
  exists a h, (a, h) ∈ past /\ at_ h = Entered e /\ current h = now.
(** The permit for a message was granted, and the client looked at after it. *)
Definition granted (m : MessageLogEntry) (rest : list MessageLogEntry) : Prop :=
  exists a h, (a, h) ∈ past /\ at_ h = Acquiring m rest /\ a_granted a = true.
Definition looked (m : MessageLogEntry) (rest : list MessageLogEntry) (now : bool) : Prop :=
  exists a h, (a, h) ∈ past /\ at_ h = Permitted m rest /\ current h = now.
(** The message before [rest] went into the log of the shared status. *)
Definition recorded (m : MessageLogEntry) (rest : list MessageLogEntry) : Prop :=
  exists a h, (a, h) ∈ past /\ at_ h = Batch (m :: rest) /\
    device_status (shared (on_event client a h)) = record_message m (device_status (shared h)).

(** The calls that answer a ping: a reaction, and a reply that failed or a
    reply and its edit. *)
Definition replied (m : MessageLogEntry) (t : list sdk_call) : Prop :=
  t = [React m REACTION_EMOJI; ReplyQuoting m PONG_TEXT None] \/
  exists i d, t = [React m REACTION_EMOJI; ReplyQuoting m PONG_TEXT (Some i); EditMessage m i (demo_edit d)].

(** The calls for a message that is dealt with, when [rest] comes after it. *)
Definition answered (m : MessageLogEntry) (rest : list MessageLogEntry) (t : list sdk_call) : Prop :=
  if is_ping m then
    if has_psram then replied m t
    else granted m rest /\ exists now, looked m rest now /\ if now then replied m t else t = []
  else t = [].

(** What was found before the calls of a message that is being dealt with. *)
Definition cleared (t : closure) (m : MessageLogEntry) (rest : list MessageLogEntry) : Prop :=
  match t with
  | Acquiring _ _ => True
  | Permitted _ _ => granted m rest
  | _ => has_psram = false -> granted m rest /\ looked m rest true
  end.
End History.

(** ** Pings are answered in order *)

(** The calls for the message that is being dealt with. *)
Definition underway (t : closure) : option (MessageLogEntry * list MessageLogEntry * list sdk_call) :=
  match t with
  | Acquiring m rest | Permitted m rest => if has_psram then None else Some (m, rest, [])
  | Reacting m rest => Some (m, rest, [])
  | Replying m rest => Some (m, rest, [React m REACTION_EMOJI])
  | Editing m i d rest => Some (m, rest, [React m REACTION_EMOJI; ReplyQuoting m PONG_TEXT (Some i)])
  | _ => None
  end.

(** Each message of [dealt], with those of the batch after it. *)
Definition all_answered client past (batch dealt : list MessageLogEntry) (traces : list (list sdk_call)) : Prop :=
  length traces = length dealt /\
  forall k m t, dealt !! k = Some m -> traces !! k = Some t -> answered client past m (drop (S k) batch) t.
Definition all_recorded client past (batch l : list MessageLogEntry) : Prop :=
  forall k m, l !! k = Some m -> recorded client past m (drop (S k) batch).

(** Where a batch stands. *)
Definition stands client past (batch : list MessageLogEntry) (h : handler) dealt traces : Prop :=
  let e := MessagesEvent batch in
  match at_ h with
  | Entered e' => e' = e /\ dealt = [] /\ logged h = [] /\ calls h = []
  | Applying e' => entered client past e true /\ e' = e /\ dealt = [] /\ logged h = [] /\ calls h = []
  | Batch rest => entered client past e true /\ batch = dealt ++ rest /\ logged h = dealt /\ calls h = concat traces
  | Returned =>
      (entered client past e true /\ dealt = batch /\ logged h = batch /\ calls h = concat traces) \/
      (entered client past e false /\ dealt = [] /\ logged h = [] /\ calls h = [])
  | t =>
      exists m rest c, underway t = Some (m, rest, c) /\ is_ping m = true /\ entered client past e true /\
        batch = dealt ++ m :: rest /\ logged h = dealt ++ [m] /\ calls h = concat traces ++ c /\ cleared client past t m rest
  end.
Definition inv client past batch h : Prop :=
  all_recorded client past batch (logged h) /\
  exists dealt traces, all_answered client past batch dealt traces /\ stands client past batch h dealt traces.

(** The past only grows. *)
Section Growing.
Context (client : Client) (past more : list (answers * handler)).
Abbreviation then_ := (past ++ more).

Lemma entered_more e now : entered client past e now -> entered client then_ e now.
Proof. intros (a & h & Hin & H). exists a, h. rewrite elem_of_app. auto. Qed.
Lemma granted_more m rest : granted past m rest -> granted then_ m rest.
Proof. intros (a & h & Hin & H). exists a, h. rewrite elem_of_app. auto. Qed.
Lemma looked_more m rest now : looked client past m rest now -> looked client then_ m rest now.
Proof. intros (a & h & Hin & H). exists a, h. rewrite elem_of_app. auto. Qed.
Lemma recorded_more m rest : recorded client past m rest -> recorded client then_ m rest.
Proof. intros (a & h & Hin & H). exists a, h. rewrite elem_of_app. auto. Qed.
Lemma answered_more m rest t : answered client past m rest t -> answered client then_ m rest t.
Proof.
  unfold answered. destruct (is_ping m), has_psram; try done. intros (Hg & now & Hl & Ht). split; [by apply granted_more|].
  exists now. split; [by apply looked_more|done].
Qed.
Lemma cleared_more t m rest : cleared client past t m rest -> cleared client then_ t m rest.
Proof.
  destruct t; cbn; try (by apply granted_more); try done; intros H Hb; destruct (H Hb); (split; [by apply granted_more|by apply looked_more]).
Qed.
Lemma all_answered_more batch dealt traces : all_answered client past batch dealt traces -> all_answered client then_ batch dealt traces.
Proof. intros [Hl H]. split; [done|]. intros k m t Hm Ht. eapply answered_more, H; eauto. Qed.
Lemma all_recorded_more batch l : all_recorded client past batch l -> all_recorded client then_ batch l.
Proof. intros H k m Hm. by apply recorded_more, H. Qed.
Lemma stands_more batch h dealt traces : stands client past batch h dealt traces -> stands client then_ batch h dealt traces.
Proof.
  unfold stands. intros H. destruct (at_ h).
  1: done.
  1-2: destruct H as [He H]; (split; [by apply entered_more|done]).
  1-5: destruct H as (m' & rest' & c & Hu & Hp & He & Hb & Hl & Hc & Hcl); exists m', rest', c;
    (split_and!; [done|done|by apply entered_more|done|done|done|by apply cleared_more]).
  destruct H as [[He H]|[He H]]; [left|right]; (split; [by apply entered_more|done]).
Qed.
Lemma inv_more batch h : inv client past batch h -> inv client then_ batch h.
Proof.
  intros [Hr (dealt & traces & Ha & Hs)]. split; [by apply all_recorded_more|].
  exists dealt, traces. split; [by apply all_answered_more|by apply stands_more].
Qed.
End Growing.

Lemma drop_dealt {A} (dealt rest : list A) x : drop (S (length dealt)) (dealt ++ x :: rest) = rest.
Proof. rewrite drop_app_ge by lia. replace (S (length dealt) - length dealt)%nat with 1%nat by lia. done. Qed.

Lemma concat_snoc {A} (l : list (list A)) x : concat (l ++ [x]) = concat l ++ x.
Proof. rewrite concat_app. cbn. by rewrite app_nil_r. Qed.

Lemma all_answered_snoc client past batch dealt traces m rest t :
  all_answered client past batch dealt traces -> batch = dealt ++ m :: rest -> answered client past m rest t ->
  all_answered client past batch (dealt ++ [m]) (traces ++ [t]).
Proof.
  intros [Hl H] Hb Ht. split; [rewrite !length_app; cbn; lia|]. intros k m' t' Hm Ht'.
  apply lookup_snoc_Some in Hm as [[Hk Hm]|[-> <-]].
  - rewrite lookup_app_l in Ht' by lia. by eapply H.
  - rewrite <- Hl, list_lookup_middle in Ht' by done. injection Ht' as <-. by rewrite Hb, drop_dealt.
Qed.

Lemma all_recorded_snoc client past batch dealt m rest :
  all_recorded client past batch dealt -> batch = dealt ++ m :: rest -> recorded client past m rest ->
  all_recorded client past batch (dealt ++ [m]).
Proof.
  intros H Hb Hm k m' Hk. apply lookup_snoc_Some in Hk as [[Hk Hm']|[-> <-]]; [by apply H|]. by rewrite Hb, drop_dealt.
Qed.

(** The message is dealt with: the batch goes on. *)
Lemma inv_next client past batch dealt traces m rest t h :
  all_recorded client past batch (logged h) -> all_answered client past batch dealt traces ->
  entered client past (MessagesEvent batch) true -> answered client past m rest t ->
  batch = dealt ++ m :: rest -> logged h = dealt ++ [m] -> calls h = concat traces ++ t -> at_ h = Batch rest ->
  inv client past batch h.
Proof.
  intros Hr Hd He Ha Hb Hl Hc Hat. split; [done|]. exists (dealt ++ [m]), (traces ++ [t]).
  split; [by eapply all_answered_snoc|]. unfold stands. rewrite Hat, concat_snoc.
  split_and!; [done|by rewrite Hb, <- (assoc_L (++))|done|done].
Qed.

(** The message is still being dealt with. *)
Lemma inv_underway client past batch dealt traces m rest c h :
  all_recorded client past batch (logged h) -> all_answered client past batch dealt traces ->
  entered client past (MessagesEvent batch) true -> underway (at_ h) = Some (m, rest, c) -> is_ping m = true ->
  cleared client past (at_ h) m rest ->
  batch = dealt ++ m :: rest -> logged h = dealt ++ [m] -> calls h = concat traces ++ c -> inv client past batch h.
Proof.
  intros Hr Hd He Hu Hp Hcl Hb Hl Hc. split; [done|]. exists dealt, traces. split; [done|]. unfold stands.
  destruct (at_ h); try done; by exists m, rest, c.
Qed.

(** The calls were made: that is an answer. *)
Lemma replied_answers client past m rest t : is_ping m = true ->
  (has_psram = false -> granted past m rest /\ looked client past m rest true) -> replied m t -> answered client past m rest t.
Proof.
  unfold answered. intros -> Hg Ht. destruct has_psram; [done|]. destruct (Hg eq_refl). split; [done|]. by exists true.
Qed.

Lemma inv_handle client a past batch h : (a, h) ∈ past -> inv client past batch h ->
  match at_ h with Reacting _ _ | Replying _ _ | Editing _ _ _ _ => True | _ => False end ->
  inv client past batch (handle_message a h).
Proof.
  intros Hin Hinv Hat. assert (Hi := Hinv). destruct Hi as [Hr (dealt & traces & Hd & Hs)]. unfold handle_message.
  destruct (a_done a); cbn [negb]; [|done]. unfold stands in Hs.
  destruct (at_ h) as [| | | | |m rest|m rest|m i d rest|] eqn:Ea; try done;
    destruct Hs as (m' & rest' & c & Hu & Hp & He & Hb & Hl & Hc & Hcl); cbn in Hu; injection Hu as <- <- <-; cbn [cleared] in Hcl.
  - eapply (inv_underway client past batch dealt traces m rest _); try done; cbn. by rewrite Hc, app_nil_r.
  - destruct (a_message_id a) as [i|].
    + eapply (inv_underway client past batch dealt traces m rest _); try done; cbn. by rewrite Hc, <- (assoc_L (++)).
    + eapply (inv_next client past batch dealt traces m rest); [done|done|done| |done|done|cbn; by rewrite Hc, <- (assoc_L (++))|done].
      apply replied_answers; [done|done|by left].
  - eapply (inv_next client past batch dealt traces m rest); [done|done|done| |done|done|cbn; by rewrite Hc, <- (assoc_L (++))|done].
    apply replied_answers; [done|done|]. right. by exists i, d.
Qed.

Lemma inv_message_task client a past batch h : (a, h) ∈ past -> inv client past batch h ->
  match at_ h with Entered _ | Applying _ | Batch _ | Returned => False | _ => True end ->
  inv client past batch (message_task client a h).
Proof.
  intros Hin Hinv Hat. assert (Hi := Hinv). destruct Hi as [Hr (dealt & traces & Hd & Hs)]. unfold message_task.
  destruct (at_ h) as [| | |m rest|m rest|m rest|m rest|m i d rest|] eqn:Ea; try done;
    try (by apply inv_handle; [| |rewrite Ea]).
  - unfold stands in Hs. rewrite Ea in Hs. cbn in Hs. destruct has_psram eqn:Eb; [by destruct Hs as (? & ? & ? & ? & _)|].
    destruct Hs as (m' & rest' & c & Hu & Hp & He & Hb & Hl & Hc & _). injection Hu as <- <- <-.
    destruct (a_granted a) eqn:Eg; [|done].
    eapply (inv_underway client past batch dealt traces m rest _); try done; cbn; [by rewrite Eb|]. by exists a, h.
  - unfold stands in Hs. rewrite Ea in Hs. cbn in Hs. destruct has_psram eqn:Eb; [by destruct Hs as (? & ? & ? & ? & _)|].
    destruct Hs as (m' & rest' & c & Hu & Hp & He & Hb & Hl & Hc & Hg). injection Hu as <- <- <-.
    assert (Hlk : looked client past m rest (is_current client (active_client (shared h)))) by by exists a, h.
    destruct (is_current _ _).
    + by eapply (inv_underway client past batch dealt traces m rest _).
    + eapply (inv_next client past batch dealt traces m rest []); try done. unfold answered. rewrite Hp, Eb. split; [done|].
      by exists false.
Qed.

Lemma inv_step client a past batch h : (a, h) ∈ past -> inv client past batch h -> inv client past batch (on_event client a h).
Proof.
  intros Hin Hinv. assert (Hi := Hinv). destruct Hi as [Hr (dealt & traces & Hd & Hs)]. unfold on_event.
  destruct (at_ h) as [e|e|[|m rest]|m rest|m rest|m rest|m rest|m i d rest|] eqn:Ea; try (by apply inv_message_task; [| |rewrite Ea]);
    unfold stands in Hs; rewrite Ea in Hs.
  - destruct Hs as (-> & -> & Hl & Hc).
    assert (He : entered client past (MessagesEvent batch) (is_current client (active_client (shared h)))) by by exists a, h.
    destruct (is_current _ _); (split; [done|]); exists [], traces; (split; [done|]); unfold stands; cbn; auto 10.
  - destruct Hs as (He & -> & -> & Hl & Hc). split; [done|]. exists [], traces. split; [done|]. unfold stands. cbn.
    destruct Hd as [Hlen _]. apply nil_length_inv in Hlen as ->. by split_and!.
  - destruct Hs as (He & -> & Hl & Hc). rewrite app_nil_r in *. split; [done|]. exists dealt, traces. split; [done|].
    unfold stands. cbn. left. by split_and!.
  - destruct Hs as (He & Hb & Hl & Hc). cbn zeta.
    assert (Hr' : all_recorded client past batch (logged h ++ [m])).
    { rewrite Hl in *. eapply all_recorded_snoc; [done|exact Hb|]. exists a, h. split; [done|]. split; [done|].
      unfold on_event. rewrite Ea. cbn zeta. by destruct (is_ping m). }
    destruct (is_ping m) eqn:Ep.
    + destruct has_psram eqn:Eb.
      * eapply (inv_underway client past batch dealt traces m rest []); try done; cbn; [by rewrite Eb|by rewrite Hl|by rewrite Hc, app_nil_r].
      * eapply (inv_underway client past batch dealt traces m rest []); try done; cbn; [by rewrite Eb|by rewrite Hl|by rewrite Hc, app_nil_r].
    + eapply (inv_next client past batch dealt traces m rest []); try done; cbn; [|by rewrite Hl|by rewrite Hc, app_nil_r].
      unfold answered. by rewrite Ep.
  - done.
Qed.

Lemma batch_inv_play client batch ms : forall past h, inv client past batch h ->
  inv client (past ++ steps client ms h) batch (play client ms h).
Proof.
  induction ms as [|[a|s] ms IH]; intros past h Hi; cbn [steps].
  - by rewrite app_nil_r.
  - assert (Hi' : inv client (past ++ [(a, h)]) batch (on_event client a h)).
    { apply inv_step; [|by apply inv_more]. apply elem_of_app. right. by left. }
    apply IH in Hi'. by rewrite <- (assoc_L (++)) in Hi'.
  - by apply (IH past (Handler s (at_ h) (calls h) (logged h))).
Qed.

Lemma inv_enter client s batch : inv client [] batch (enter s (MessagesEvent batch)).
Proof. split; [done|]. exists [], []. by split. Qed.

(** C25. A batch of messages is recorded in order and its pings are answered in
    order.  Whatever else happens to the shared state between the closure's
    steps, and whatever the client answers: nothing is done for a client that
    was not the current one when the event came in; for the current one, the
    messages recorded in the shared log are a prefix of the batch, all of it
    once the closure has returned.  The calls made are, message by message,
    nothing for a message that is no ping, and for a ping a reaction, then a
    quoted reply, then one edit of that reply if it was sent, even when the
    reaction failed; with internal RAM only after the permit was granted, and
    then exactly when the client, looked at after that, is still the current
    one: a ping goes unanswered only when it was superseded.  Only the message
    being dealt with may have fewer. *)
Theorem pings_are_answered_in_order client s batch ms :
  let past := steps client ms (enter s (MessagesEvent batch)) in
  let h := play client ms (enter s (MessagesEvent batch)) in
  all_recorded client past batch (logged h) /\
  (exists dealt traces, all_answered client past batch dealt traces /\
   match underway (at_ h) with
   | None => logged h = dealt /\ calls h = concat traces
   | Some (m, rest, c) =>
       is_ping m = true /\ logged h = dealt ++ [m] /\ batch = dealt ++ m :: rest /\ calls h = concat traces ++ c /\
       cleared client past (at_ h) m rest
   end) /\
  match at_ h with
  | Entered _ => logged h = [] /\ calls h = []
  | Returned =>
      (entered client past (MessagesEvent batch) true /\ logged h = batch) \/
      (entered client past (MessagesEvent batch) false /\ logged h = [] /\ calls h = [])
  | _ => entered client past (MessagesEvent batch) true /\ exists rest, batch = logged h ++ rest
  end.
Proof.
  intros past h. destruct (batch_inv_play client batch ms [] _ (inv_enter client s batch)) as [Hr (dealt & traces & Hd & Hs)].
  cbn [app] in *. fold past h in Hr, Hd, Hs. split; [done|]. unfold stands in Hs.
  assert (Hnil : dealt = [] -> concat traces = []).
  { intros ->. destruct Hd as [Hl _]. by apply nil_length_inv in Hl as ->. }
  assert (Hu : (exists m rest c, underway (at_ h) = Some (m, rest, c) /\ is_ping m = true /\ entered client past (MessagesEvent batch) true /\
      batch = dealt ++ m :: rest /\ logged h = dealt ++ [m] /\ calls h = concat traces ++ c /\ cleared client past (at_ h) m rest) ->
    (exists dealt traces, all_answered client past batch dealt traces /\
     match underway (at_ h) with
     | None => logged h = dealt /\ calls h = concat traces
     | Some (m, rest, c) => is_ping m = true /\ logged h = dealt ++ [m] /\ batch = dealt ++ m :: rest /\ calls h = concat traces ++ c /\
         cleared client past (at_ h) m rest
     end) /\ entered client past (MessagesEvent batch) true /\ exists rest, batch = logged h ++ rest).
  { intros (m & rest & c & E & Hp & He & Hb & Hl & Hc & Hcl). split_and!; [exists dealt, traces; rewrite E; by split_and!|done|].
    exists rest. by rewrite Hl, <- (assoc_L (++)). }
  destruct (at_ h) as [e|e|rest|m rest|m rest|m rest|m rest|m i d rest|] eqn:Ea; try (by apply Hu); (split; [exists dealt, traces; split; [done|]; cbn [underway]|]).
  - destruct Hs as (_ & -> & -> & ->). by rewrite Hnil.
  - by destruct Hs as (_ & _ & -> & ->).
  - destruct Hs as (_ & _ & -> & -> & ->). by rewrite Hnil.
  - destruct Hs as (He & _ & _ & -> & _). split; [done|]. by exists batch.
  - by destruct Hs as (_ & _ & -> & ->).
  - destruct Hs as (He & Hb & -> & _). split; [done|]. by exists rest.
  - destruct Hs as [(_ & -> & -> & ->)|(_ & -> & -> & ->)]; [done|]. by rewrite Hnil.
  - destruct Hs as [(He & _ & -> & _)|(He & _ & -> & ->)]; [by left|by right].
Qed.

(** ** It returns *)

(** The steps that are sure to get on: a permit or a call that is awaited is
    there. *)
Definition gets_on (m : move) : bool := match m with Step a => a_granted a && a_done a | Rest _ => false end.
Definition getting_on (ms : list move) : nat := length (List.filter gets_on ms).

(** Such steps to go, at most. *)
Definition togo (t : closure) : nat :=
  match t with
  | Entered (MessagesEvent batch) => 3 + 6 * length batch
  | Entered _ => 2
  | Applying (MessagesEvent batch) => 2 + 6 * length batch
  | Applying _ => 1
  | Batch rest => 1 + 6 * length rest
  | Acquiring _ rest => 6 + 6 * length rest
  | Permitted _ rest => 5 + 6 * length rest
  | Reacting _ rest => 4 + 6 * length rest
  | Replying _ rest => 3 + 6 * length rest
  | Editing _ _ _ rest => 2 + 6 * length rest
  | Returned => 0
  end%nat.

Lemma togo_handle a h : match at_ h with Reacting _ _ | Replying _ _ | Editing _ _ _ _ => True | _ => False end ->
  (togo (at_ (handle_message a h)) + (if a_done a then 1 else 0) <= togo (at_ h))%nat.
Proof.
  unfold handle_message. destruct (a_done a); cbn [negb]; [|lia].
  destruct (at_ h) as [| | | | |m rest|m rest|m i d rest|]; try done; intros _; [cbn; lia| |cbn; lia].
  destruct (a_message_id a); cbn; lia.
Qed.

Lemma togo_step client a h :
  (togo (at_ (on_event client a h)) <= togo (at_ h) - (if gets_on (Step a) then 1 else 0))%nat.
Proof.
  assert (Hb : ((if gets_on (Step a) then 1 else 0) <= 1)%nat) by (destruct (gets_on _); lia).
  assert (Hd : ((if gets_on (Step a) then 1 else 0) <= (if a_done a then 1 else 0))%nat) by (cbn; destruct (a_granted a), (a_done a); cbn; lia).
  assert (Hh := togo_handle a h). unfold on_event, message_task.
  destruct (at_ h) as [e|e|[|m rest]|m rest|m rest|m rest|m rest|m i d rest|] eqn:Ea.
  - destruct (is_current _ _); destruct e; cbn [togo at_ goto]; lia.
  - destruct e; cbn [togo at_ goto]; lia.
  - cbn; lia.
  - destruct (is_ping m), has_psram; cbn [togo at_ goto length]; lia.
  - cbn. destruct (a_granted a); cbn; [destruct (a_done a); lia|rewrite Ea; cbn; lia].
  - destruct (is_current _ _); cbn [togo at_ goto]; lia.
  - specialize (Hh I). lia.
  - specialize (Hh I). lia.
  - specialize (Hh I). lia.
  - rewrite Ea. cbn. lia.
Qed.

Lemma togo_play client ms : forall h, (togo (at_ (play client ms h)) <= togo (at_ h) - getting_on ms)%nat.
Proof.
  induction ms as [|[a|s] ms IH]; intros h; [cbn; lia| |apply (IH (Handler s (at_ h) (calls h) (logged h)))].
  specialize (IH (on_event client a h)). pose proof (togo_step client a h) as Hs.
  change (play client (Step a :: ms) h) with (play client ms (on_event client a h)).
  unfold getting_on in *. cbn [List.filter]. destruct (gets_on (Step a)); cbn [length]; lia.
Qed.

(** The rest of the program leaves the client the current one. *)
Definition keeps (client : Client) (m : move) : Prop :=
  match m with Step _ => True | Rest s => is_current client (active_client s) = true end.

Lemma on_event_client client a h : active_client (shared (on_event client a h)) = active_client (shared h).
Proof.
  unfold on_event, message_task, handle_message.
  destruct (at_ h) as [e|[]|[|m rest]|m rest|m rest|m rest|m rest|m i d rest|]; cbn; try done;
    repeat match goal with |- context [match ?b with _ => _ end] => destruct b; cbn; try done end.
Qed.

Lemma steps_current client ms : forall h, current client h = true -> Forall (keeps client) ms ->
  Forall (fun p => current client p.2 = true) (steps client ms h).
Proof.
  induction ms as [|[a|s] ms IH]; intros h Hc Hk; cbn [steps]; [done| |]; apply Forall_cons in Hk as [Hm Hk].
  - constructor; [done|]. apply IH; [|done]. unfold current. by rewrite on_event_client.
  - by apply IH.
Qed.

(** What the events other than messages do to the status, and what the client
    is told. *)
Definition effect (e : bot_event) : DeviceStatus -> DeviceStatus :=
  match e with
  | PairingQrCode code => set_qr_code code
  | PairingQrCodesExhausted => clear_qr_code
  | ConnectedEvent pn lid => set_connected pn lid
  | DisconnectedEvent => set_disconnected
  | LoggedOutEvent => set_logged_out
  | MessagesEvent _ | OtherEvent => fun d => d
  end.
Definition told (e : bot_event) : list sdk_call := match e with ConnectedEvent _ _ => [ForceActiveReceipts] | _ => [] end.

(** One step of the closure had that effect, and no other step changed
    anything shared. *)
Definition applied (client : Client) (past : list (answers * handler)) (e : bot_event) : Prop :=
  exists before a h after, past = before ++ (a, h) :: after /\
    shared (on_event client a h) = set_status (effect e (device_status (shared h))) (shared h) /\
    Forall (fun p => shared (on_event client p.1 p.2) = shared p.2) (before ++ after).

Definition is_batch (e : bot_event) : bool := match e with MessagesEvent _ => true | _ => false end.

(** Where an event that is no batch stands, for a client that stays current. *)
Definition event_inv client past (e : bot_event) (h : handler) : Prop :=
  logged h = [] /\
  match at_ h with
  | Entered e' => e' = e /\ calls h = [] /\ Forall (fun p => shared (on_event client p.1 p.2) = shared p.2) past
  | Applying e' => e' = e /\ calls h = [] /\ Forall (fun p => shared (on_event client p.1 p.2) = shared p.2) past
  | Returned => calls h = told e /\ applied client past e
  | _ => False
  end.

Lemma event_inv_step client a past e h : is_batch e = false -> current client h = true -> event_inv client past e h ->
  event_inv client (past ++ [(a, h)]) e (on_event client a h).
Proof.
  intros Hb Hc [Hl Hi]. unfold event_inv. destruct (at_ h) as [e'|e'| | | | | | |] eqn:Ea; try done.
  - destruct Hi as (-> & Hca & Hp).
    assert (E : on_event client a h = goto (Applying e) h) by (unfold on_event; rewrite Ea; unfold current in Hc; by rewrite Hc).
    rewrite E. cbn. split_and!; [done|done|done|]. apply Forall_app. split; [done|]. constructor; [|done]. cbn. by rewrite E.
  - destruct Hi as (-> & Hca & Hp).
    assert (E : at_ (on_event client a h) = Returned /\ logged (on_event client a h) = [] /\ calls (on_event client a h) = told e /\
      shared (on_event client a h) = set_status (effect e (device_status (shared h))) (shared h)).
    { unfold on_event. rewrite Ea. destruct e; try done; cbn; rewrite ?Hl, ?Hca; split_and!; try done. by destruct (shared h). }
    destruct E as (E1 & E2 & E3 & E4). rewrite E1. split_and!; [done|done|]. exists past, a, h, []. rewrite app_nil_r. by split_and!.
  - destruct Hi as (Hca & before & a' & h' & after & -> & Hs & Hp).
    assert (E : on_event client a h = h) by (unfold on_event; by rewrite Ea).
    rewrite E, Ea. split_and!; [done|done|]. exists before, a', h', (after ++ [(a, h)]).
    rewrite <- (assoc_L (++)). split_and!; [done|done|]. rewrite (assoc_L (++)). apply Forall_app. split; [done|].
    constructor; [|done]. cbn. by rewrite E.
Qed.

Lemma event_inv_play client e ms : is_batch e = false -> forall past h, current client h = true -> Forall (keeps client) ms ->
  event_inv client past e h -> event_inv client (past ++ steps client ms h) e (play client ms h).
Proof.
  intros Hb. induction ms as [|[a|s] ms IH]; intros past h Hc Hk Hi; cbn [steps]; [by rewrite app_nil_r| |];
    apply Forall_cons in Hk as [Hm Hk].
  - assert (Hi' := event_inv_step client a past e h Hb Hc Hi). apply IH in Hi'; [by rewrite <- (assoc_L (++)) in Hi'| |done].
    unfold current. by rewrite on_event_client.
  - by apply (IH past (Handler s (at_ h) (calls h) (logged h))).
Qed.

(** Each message of a batch got its calls. *)
Definition served (batch : list MessageLogEntry) (made : list sdk_call) : Prop :=
  exists traces, made = concat traces /\ Forall2 (fun m t => if is_ping m then replied m t else t = []) batch traces.

Lemma answered_current client past m rest t : Forall (fun p => current client p.2 = true) past ->
  answered client past m rest t -> if is_ping m then replied m t else t = [].
Proof.
  unfold answered. intros Hp. destruct (is_ping m); [|done]. destruct has_psram; [done|].
  intros (_ & now & (a & h & Hin & _ & Hnow) & Ht). rewrite Forall_forall in Hp. specialize (Hp _ Hin). cbn in Hp.
  rewrite Hp in Hnow. by rewrite <- Hnow in Ht.
Qed.

Lemma batch_served client past batch h : Forall (fun p => current client p.2 = true) past -> inv client past batch h ->
  at_ h = Returned -> logged h = batch /\ served batch (calls h).
Proof.
  intros Hp [_ (dealt & traces & [Hlen Ha] & Hs)] Hat. unfold stands in Hs. rewrite Hat in Hs.
  destruct Hs as [(_ & -> & Hl & Hc)|((a & h' & Hin & _ & Hnow) & _)].
  - split; [done|]. exists traces. split; [done|]. apply Forall2_same_length_lookup_2; [done|]. intros k m t Hm Ht.
    by eapply answered_current, Ha.
  - rewrite Forall_forall in Hp. specialize (Hp _ Hin). cbn in Hp. by rewrite Hp in Hnow.
Qed.

(** C26. The closure of an event gets done what the event asks for.  It waits
    for nothing but the memory permit and the client's own calls: counting
    only the steps that find these there, a batch is through after three steps
    and six a message and any other event after two, whatever the calls
    answer, however many steps find nothing and however the shared state
    changes.  If the client was current and stays so, the closure that has
    returned has then recorded every message of the batch, and each of its
    pings got its reaction and its reply, with the edit of a reply that was
    sent: a call that failed takes nothing from the messages behind it.  Any
    other event was applied to the status in one step, and nothing else that
    is shared was changed; the client was told to send active receipts if it
    had connected, and nothing otherwise. *)
Theorem event_closures_return client s e ms :
  let past := steps client ms (enter s e) in
  let h := play client ms (enter s e) in
  (match e with MessagesEvent batch => 3 + 6 * length batch | _ => 2 end <= getting_on ms)%nat ->
  at_ h = Returned /\
  (is_current client (active_client s) = true -> Forall (keeps client) ms ->
   match e with
   | MessagesEvent batch => logged h = batch /\ served batch (calls h)
   | _ => logged h = [] /\ calls h = told e /\ applied client past e
   end).
Proof.
  intros past h Hn. assert (Hr : at_ h = Returned).
  { pose proof (togo_play client ms (enter s e)) as Ht. fold h in Ht.
    assert (Hz : togo (at_ h) = 0%nat) by (destruct e; cbn in Ht; lia). destruct (at_ h) as [[]|[]| | | | | | |]; cbn in Hz; try lia. done. }
  split; [done|]. intros Hc Hk. destruct (is_batch e) eqn:Eb.
  - destruct e as [| | | | |batch|]; try done. eapply (batch_served client past); [by apply steps_current| |done].
    apply (batch_inv_play client batch ms []), inv_enter.
  - assert (Hi : event_inv client past e h) by by apply (event_inv_play client e ms Eb []).
    destruct Hi as [Hl Hi]. rewrite Hr in Hi. destruct Hi as [Hca Hap]. by destruct e.
Qed.

(** The events of a superseded client change nothing, if it was superseded
    when they came in. *)
Lemma superseded_is_ignored client a s e : is_current client (active_client s) = false ->
  on_event client a (enter s e) = goto Returned (enter s e).
Proof. intros Hc. unfold on_event. cbn. by rewrite Hc. Qed.
End Events.

(** ** Witnesses *)
Section Witnesses.
#[local] Existing Instance plain_wacore.
#[local] Instance internal_ram : Board := false.

Definition message (t : bytes) : MessageLogEntry := Build_MessageLogEntry (bs "1") (bs "c") (bs "s") (Some t) 0 false.
Definition quick : answers := Answers true true (Some (bs "ID")) (bs "1.00ms").
Definition failed : answers := Answers true true None [].
Definition slow : answers := Answers false false None [].
Definition live : system (W := mem) (Client := nat) := System Coordinator.new (blank_store [] Works) DeviceStatus.new (Some 1%nat).
Definition superseded : system (W := mem) (Client := nat) := System Coordinator.new (blank_store [] Works) DeviceStatus.new (Some 2%nat).
Definition two_pings : list MessageLogEntry := [message PING_TRIGGER; message PING_TRIGGER].
(** The first ping's reply fails, the second one's is sent. *)
Definition fifteen : list (move (W := mem) (Client := nat)) :=
  repeat (Step failed) 7 ++ [Step slow; Rest live; Step slow] ++ repeat (Step quick) 8.

Lemma event_closures_return_witness :
  let h := play 1%nat fifteen (enter live (MessagesEvent two_pings)) in
  at_ h = Returned /\ logged h = two_pings /\ served two_pings (calls h) /\ length (calls h) = 5%nat.
Proof.
  intros h. destruct (event_closures_return 1%nat live (MessagesEvent two_pings) fifteen) as [Hr H]; [by vm_compute; lia|].
  split; [exact Hr|]. destruct H as [Hl Hs]; [by vm_compute|by repeat constructor|]. split; [exact Hl|]. split; [exact Hs|by vm_compute].
Defined.

(** The client is looked at once an event, not once a message: one that is
    superseded while a reply is on its way still records what is left of its
    batch. *)
Example superseded_batch_goes_on :
  let ms := repeat (Step quick) 6 ++ [Rest superseded] ++ repeat (Step quick) 5 in
  let h := play 1%nat ms (enter live (MessagesEvent [message PING_TRIGGER; message (bs "late")])) in
  at_ h = Returned /\ active_client (shared h) = Some 2%nat /\ map text (messages (device_status (shared h))) = [Some (bs "late")].
Proof. by vm_compute. Qed.
End Witnesses.
