(* ===== verification/Demo.v ===== *)
(** * How the demo builds its clients ([src/main.rs])

    The configuration of a client generation, the development build's scan of
    the pairing code over HTTP, and how a failed send is printed. *)

From S2P Require Import Prelude RustStr RustStrLemmas Platform Io HttpChunked HttpClient HttpTheorems.

(** ** A client generation *)

(** What [run_whatsapp_inner] gives the builder: the transport's server and
    whether certificates are checked, whether the HTTP client shares the
    memory gate, and the options that differ from the SDK's defaults. *)
Record client_config := ClientConfig {
  websocket_url : bytes;
  skip_tls : bool;
  gated : bool;
  device_os : bytes;
  wanted_pre_key_count : Z;
  ab_props_fetch : bool;
  history_sync : bool;
  pinned_version : option (Z * Z * Z);
  skip_cert_chain : bool;
  cache_limits : option (Z * Z * Z);
  download_window : option (Z * Z);
}.

Section Config.
Context `{board : Board}.

(** [ActiveClient::memory_gate]: there is one, for every generation, on a board
    without PSRAM. *)
Definition memory_gate : bool := negb has_psram.

Definition configure (mock_server : bool) (server : bytes) : client_config :=
  ClientConfig server mock_server memory_gate (bs "whatsapp-esp32") 20 has_psram false
    (if mock_server then Some (2, 3000, 0) else None) mock_server
    (if has_psram then None else Some (16, 16, 8))
    (if has_psram then None else Some (8192, 1)).

(** A board checks certificates unless it is built for the mock server, and
    where memory is scarce everything that can be bounded is. *)
Lemma configure_safe mock_server server :
  let c := configure mock_server server in
  (skip_tls c = true <-> mock_server = true) /\ (skip_cert_chain c = true <-> mock_server = true) /\
  (has_psram = false -> gated c = true /\ ab_props_fetch c = false /\ is_Some (cache_limits c) /\ is_Some (download_window c)).
Proof. cbn. split_and!; [done|done|]. unfold memory_gate. intros ->. by split_and!; try eexists. Qed.
End Config.

(** ** The scan of the pairing code *)

Definition SCAN_PATH : bytes := bs "/admin/mock-phone/scan-qr".

(** The URL that the code is posted to. *)
Definition scan_url (server : bytes) : result anyhow bytes :=
  let? (host, port, _, tls) := parse_url server in
  Ok ((if tls then bs "https" else bs "http") ++ bs "://" ++ host ++ bs ":" ++ dec port ++ SCAN_PATH).

(** What the log says of it. *)
Inductive scan := BadUrl | Accepted (status : Z) | NotAccepted (status : Z) (text : bytes) | PostFailed.

Section Scan.
Context {W : Type} (execute : HttpRequest -> M W anyhow (Z * bytes)).

Definition auto_scan_qr (server code : bytes) : M W anyhow scan :=
  match scan_url server with
  | Err _ => ret BadUrl
  | Ok url =>
      let* r := attempt (execute {| url := url; method := bs "POST"; headers := []; body := Some code |}) in
      ret match r with
          | Ok (status, body) =>
              if (200 <=? status) && (status <? 300) then Accepted status else NotAccepted status (utf8_lossy body)
          | Err _ => PostFailed
          end
  end.

(** It never fails, whatever the server does: pairing goes on. *)
Lemma auto_scan_qr_returns server code w : exists r, (auto_scan_qr server code w).2 = Ok r.
Proof.
  unfold auto_scan_qr. destruct (scan_url server) as [u|e]; [|by eexists].
  unfold bind, attempt. destruct (execute _ w) as [w' r]. by eexists.
Qed.
End Scan.

(** What [parse_url] returns. *)
Lemma parse_url_range server host port path tls : parse_url server = Ok (host, port, path, tls) ->
  ~ x2f ∈ host /\ ~ x3a ∈ host /\ 0 <= port < 2 ^ 16.
Proof.
  unfold parse_url. destruct (split_scheme server) as [[rest t]|]; [|done]. cbn [of_option bind_res].
  set (p := match find_byte x2f rest with Some i => _ | None => _ end).
  assert (Hs : ~ x2f ∈ p.1).
  { subst p. destruct (find_byte x2f rest) as [i|] eqn:E; cbn; [by apply find_byte_Some in E as (_ & _ & ?)|by apply find_byte_None]. }
  destruct p as [hp pt]. cbn [fst] in Hs. destruct (find_byte x3a hp) as [i|] eqn:E.
  - destruct (parse_uint 16 (zdrop (i + 1) hp)) as [v|] eqn:Ev; cbn; [|done]. intros [= <- <- <- <-].
    apply find_byte_Some in E as (_ & _ & Hn). split_and!; [|done|by apply parse_uint_range in Ev as [??]..].
    intros Hin. apply Hs. by eapply elem_of_sublist, sublist_take.
  - cbn. intros [= <- <- <- <-]. split_and!; [done|by apply find_byte_None|by destruct t|by destruct t].
Qed.

(** The scan goes to the server that the clients connect to, over TLS if they
    do: the URL that is posted to reads back as the server's host and port. *)
Lemma scan_reaches_the_server server host port path tls : parse_url server = Ok (host, port, path, tls) ->
  exists url, scan_url server = Ok url /\ parse_url url = Ok (host, port, SCAN_PATH, tls).
Proof.
  intros Hp. destruct (parse_url_range _ _ _ _ _ Hp) as (Hs & Hc & Hr). unfold scan_url. rewrite Hp. cbn [bind_res].
  eexists. split; [done|].
  pose proof (parse_url_parts tls false host (Some port) SCAN_PATH Hs Hc (or_intror eq_refl)) as H.
  cbn zeta iota in H. rewrite (proj2 (Z.ltb_lt port 65536)) in H by lia. etrans; [|apply H; intros p [= <-]; lia].
  f_equal. unfold scheme_of, port_text. by destruct tls; rewrite <- ?(assoc_L (++)).
Qed.

(** ** A failed send *)

(** [SendFailure::fmt]: the error, and each cause after it. *)
Fixpoint causes (chain : list bytes) : bytes :=
  match chain with [] => [] | cause :: chain => bs ": " ++ cause ++ causes chain end.
Definition send_failure (error : bytes) (chain : list bytes) : bytes := error ++ causes chain.

Example causes_follow :
  send_failure (bs "send failed") [bs "encrypt"; bs "ESP NVS error"] = bs "send failed: encrypt: ESP NVS error".
Proof. done. Qed.
