(* ===== verification/PsramAlloc.v ===== *)
(** * The global allocator ([src/psram_alloc.rs])

    [alloc], [dealloc] and [realloc] over the SDK's heap, which is a parameter
    with the laws its documentation gives; an instance shows that they can
    hold. *)

From S2P Require Import Prelude Platform.
#[local] Set Default Proof Using "All".

(** ** The SDK's heap *)

(** What a request asks for: byte-accessible PSRAM, byte-accessible RTC
    memory, or the default heap. *)
Inductive caps := CapSpiram | CapRtcRam | CapDefault.
#[global] Instance caps_eq_dec : EqDecision caps.
Proof. solve_decision. Defined.

(** [heap_caps_aligned_alloc], [heap_caps_realloc], [heap_caps_free] and a
    store to a block; the live blocks by address.  Address 0 is null. *)
Class HeapCaps (H : Type) := {
  aligned_alloc : Z -> Z -> caps -> H -> H * Z;
  heap_realloc : Z -> Z -> caps -> H -> H * Z;
  heap_free : Z -> H -> H;
  store_bytes : Z -> bytes -> H -> H;
  blocks : H -> gmap Z bytes;
}.

(** [b'] starts with what [b] held, as far as both reach. *)
Definition carries (b b' : bytes) : Prop :=
  ztake (Z.min (len b) (len b')) b' = ztake (Z.min (len b) (len b')) b.

(** A reallocation to zero bytes, which frees, is not one of [GlobalAlloc]'s. *)
Class HeapCapsLaws (H : Type) `{HeapCaps H} := {
  aligned_alloc_law align size c h :
    let '(h', p) := aligned_alloc align size c h in
    (p = 0 /\ blocks h' = blocks h) \/
    (p <> 0 /\ p mod align = 0 /\ blocks h !! p = None /\
      exists b, len b = Z.max 0 size /\ blocks h' = <[p := b]> (blocks h));
  heap_realloc_law p size c h b : blocks h !! p = Some b -> 0 < size ->
    let '(h', q) := heap_realloc p size c h in
    (q = 0 /\ blocks h' = blocks h) \/
    (q <> 0 /\ q mod 4 = 0 /\ (q = p \/ blocks h !! q = None) /\
      exists b', len b' = Z.max 0 size /\ carries b b' /\ blocks h' = <[q := b']> (delete p (blocks h)));
  heap_free_law p h : blocks (heap_free p h) = delete p (blocks h);
  store_bytes_law p l h b : blocks h !! p = Some b -> len l <= len b ->
    blocks (store_bytes p l h) = <[p := l ++ zdrop (len l) b]> (blocks h);
}.

Record Layout := MkLayout { align : Z; size : Z }.

Section Alloc.
Context {H : Type} `{heap : HeapCaps H, board : Board}.
(** The build is for a unicore RISC-V chip without atomics. *)
Context (rtc_heap : bool).

Definition preferred_caps : caps :=
  if has_psram then CapSpiram else if rtc_heap then CapRtcRam else CapDefault.

Definition alloc (l : Layout) (h : H) : H * Z :=
  let align := Z.max (align l) 4 in
  let caps := preferred_caps in
  let '(h, p) := aligned_alloc align (size l) caps h in
  if negb (p =? 0) || bool_decide (caps = CapDefault) then (h, p)
  else aligned_alloc align (size l) CapDefault h.

Definition dealloc (ptr : Z) (h : H) : H := heap_free ptr h.

(** [copy_nonoverlapping] of what both blocks have room for. *)
Definition copy (src dst n : Z) (h : H) : H := store_bytes dst (ztake n (default [] (blocks h !! src))) h.

Definition realloc_copy (ptr : Z) (l : Layout) (new_size : Z) (h : H) : H * Z :=
  let '(h, new_ptr) := alloc (MkLayout (align l) new_size) h in
  if negb (new_ptr =? 0) then (dealloc ptr (copy ptr new_ptr (Z.min (size l) new_size) h), new_ptr)
  else (h, new_ptr).

Definition realloc (ptr : Z) (l : Layout) (new_size : Z) (h : H) : H * Z :=
  if align l >? 4 then realloc_copy ptr l new_size h
  else
    let caps := preferred_caps in
    let '(h, p) := heap_realloc ptr new_size caps h in
    if negb (p =? 0) || bool_decide (caps = CapDefault) then (h, p)
    else heap_realloc ptr new_size CapDefault h.

(** ** The contract of a global allocator *)

Context `{laws : !HeapCapsLaws H}.

(** The alignments of a [Layout]: powers of two. *)
Definition aligned (l : Layout) : Prop := exists k, 0 <= k /\ align l = 2 ^ k.

Lemma small_align l p : aligned l -> align l <= 4 -> p mod 4 = 0 -> p mod align l = 0.
Proof.
  intros (k & Hk & ->) Hle Hp. assert (k < 3) by (apply (Z.pow_lt_mono_r_iff 2); [lia|lia|change (2 ^ 3) with 8; lia]).
  assert (Hc : k = 0 \/ k = 1 \/ k = 2) by lia. destruct Hc as [->|[->| ->]].
  - apply Z.mod_1_r.
  - change (2 ^ 1) with 2. apply Z.div_exact in Hp; [|lia]. rewrite Hp. replace (4 * (p / 4)) with ((2 * (p / 4)) * 2) by lia.
    apply Z.mod_mul. lia.
  - exact Hp.
Qed.

(** [alloc] gives a new block of the size and alignment asked for, or null and
    nothing has changed. *)
Definition allocated (l : Layout) (h h' : H) (p : Z) : Prop :=
  (p = 0 /\ blocks h' = blocks h) \/
  (p <> 0 /\ p mod align l = 0 /\ blocks h !! p = None /\
    exists b, len b = Z.max 0 (size l) /\ blocks h' = <[p := b]> (blocks h)).

Lemma aligned_alloc_layout l c h : aligned l ->
  let '(h', p) := aligned_alloc (Z.max (align l) 4) (size l) c h in allocated l h h' p.
Proof.
  intros Ha. pose proof (aligned_alloc_law (Z.max (align l) 4) (size l) c h) as Hl. destruct (aligned_alloc _ _ _ _) as [h' p].
  destruct Hl as [?|(H1 & H2 & H3 & H4)]; [by left|right]. split_and!; [done| |done|done].
  destruct (Z.le_gt_cases (align l) 4); [apply small_align; [done|done|]; by rewrite Z.max_r in H2 by lia|].
  by rewrite Z.max_l in H2 by lia.
Qed.

Lemma alloc_spec l h : aligned l -> let '(h', p) := alloc l h in allocated l h h' p.
Proof.
  intros Ha. unfold alloc. pose proof (aligned_alloc_layout l preferred_caps h Ha) as H1.
  destruct (aligned_alloc _ _ preferred_caps h) as [h1 p]. destruct (_ || _) eqn:E; [done|].
  apply orb_false_iff in E as [E _]. apply negb_false_iff, Z.eqb_eq in E as ->.
  destruct H1 as [[_ H1]|[? _]]; [|done]. pose proof (aligned_alloc_layout l CapDefault h1 Ha) as H2.
  destruct (aligned_alloc _ _ CapDefault h1) as [h2 p]. unfold allocated in *. by rewrite H1 in H2.
Qed.

(** What [realloc] promises for the block [b] at [ptr]. *)
Definition resized (ptr : Z) (l : Layout) (b : bytes) (new_size : Z) (h h' : H) (q : Z) : Prop :=
  (q = 0 /\ blocks h' = blocks h) \/
  (q <> 0 /\ q mod align l = 0 /\ (q = ptr \/ blocks h !! q = None) /\
    exists b', len b' = Z.max 0 new_size /\ carries b b' /\ blocks h' = <[q := b']> (delete ptr (blocks h))).

Lemma heap_realloc_layout ptr l b new_size c h : aligned l -> align l <= 4 -> 0 < new_size -> blocks h !! ptr = Some b ->
  let '(h', q) := heap_realloc ptr new_size c h in resized ptr l b new_size h h' q.
Proof.
  intros Ha Hle Hn Hb. pose proof (heap_realloc_law ptr new_size c h b Hb Hn) as Hl. destruct (heap_realloc _ _ _ _) as [h' q].
  destruct Hl as [?|(H1 & H2 & H3 & H4)]; [by left|right]. split_and!; [done|by apply small_align|done|done].
Qed.

(** The copy reaches as far as both blocks do. *)
Lemma copied_carries (b b' : bytes) n : 0 <= n -> len b' = n ->
  carries b (ztake (Z.min (len b) n) b ++ zdrop (len (ztake (Z.min (len b) n) b)) b') /\
  len (ztake (Z.min (len b) n) b ++ zdrop (len (ztake (Z.min (len b) n) b)) b') = n.
Proof.
  intros Hn Hl. assert (Hb := len_nonneg b). assert (Ht : len (ztake (Z.min (len b) n) b) = Z.min (len b) n) by (rewrite len_ztake; lia).
  assert (Hlen : len (ztake (Z.min (len b) n) b ++ zdrop (len (ztake (Z.min (len b) n) b)) b') = n).
  { rewrite len_app, len_zdrop, Ht. lia. }
  split; [|done]. unfold carries. rewrite Hlen. rewrite ztake_app_l by lia. apply ztake_all. lia.
Qed.

(** C31. [realloc] keeps what a block holds.  For a live block of the layout's
    size and a power-of-two alignment: if it answers null, every block is as
    it was, the old one included; otherwise the new block has the size and the
    alignment asked for, starts with what the old one held as far as both
    reach, the old block is released, no other block has changed, and the new
    one is none of them.  So it is whether the heap resizes in place or the
    allocator copies, and whichever of the two heaps serves. *)
Theorem realloc_keeps_contents ptr l b new_size h :
  aligned l -> 0 < new_size -> blocks h !! ptr = Some b -> len b = size l ->
  let '(h', q) := realloc ptr l new_size h in
  resized ptr l b new_size h h' q /\ (forall p c, p <> ptr -> blocks h !! p = Some c -> blocks h' !! p = Some c).
Proof.
  intros Ha Hn Hb Hs.
  assert (Hframe : forall h' q, resized ptr l b new_size h h' q ->
    resized ptr l b new_size h h' q /\ (forall p c, p <> ptr -> blocks h !! p = Some c -> blocks h' !! p = Some c)).
  { intros h' q Hr. split; [done|]. intros p c Hp Hc. destruct Hr as [[_ ->]|(_ & _ & Hq & b' & _ & _ & ->)]; [done|].
    assert (q <> p) by (intros ->; destruct Hq; congruence). by rewrite lookup_insert_ne, lookup_delete_ne. }
  unfold realloc. destruct (Z.gtb_spec (align l) 4).
  - unfold realloc_copy. pose proof (alloc_spec (MkLayout (align l) new_size) h) as Hal.
    destruct (alloc _ h) as [h1 q]. specialize (Hal Ha). destruct (Z.eqb_spec q 0) as [->|Hq]; cbn [negb].
    { apply Hframe. left. by destruct Hal as [[_ ?]|[? _]]. }
    destruct Hal as [[? _]|(_ & Hm & Hf & c & Hc & Hbl)]; [done|]. cbn in Hm, Hc. apply Hframe. right.
    assert (Hne : q <> ptr) by congruence. unfold dealloc, copy. rewrite heap_free_law, Hbl, lookup_insert_ne, Hb by done. cbn [default].
    rewrite <- Hs. destruct (copied_carries b c new_size) as [Hcar Hlen]; [lia|lia|].
    rewrite (store_bytes_law q _ h1 c); [|rewrite Hbl; apply lookup_insert_eq|rewrite len_ztake; lia].
    split_and!; [done|done|by right|]. eexists. split_and!; [|exact Hcar|]; [rewrite Hlen; lia|].
    by rewrite Hbl, insert_insert_eq, delete_insert_ne by done.
  - pose proof (heap_realloc_layout ptr l b new_size preferred_caps h Ha ltac:(lia) Hn Hb) as H1.
    destruct (heap_realloc _ _ preferred_caps h) as [h1 q]. destruct (_ || _) eqn:E; [by apply Hframe|].
    apply orb_false_iff in E as [E _]. apply negb_false_iff, Z.eqb_eq in E as ->.
    destruct H1 as [[_ H1]|[? _]]; [|done].
    pose proof (heap_realloc_layout ptr l b new_size CapDefault h1 Ha ltac:(lia) Hn) as H2. rewrite H1 in H2. specialize (H2 Hb).
    destruct (heap_realloc _ _ CapDefault h1) as [h2 q]. apply Hframe. unfold resized in *. by rewrite H1 in H2.
Qed.
End Alloc.

(** ** A heap, and a witness

    The preferred heap has [room] for so many more allocations. *)
Record toy := Toy { live : gmap Z bytes; next : Z; room : nat }.

Definition admits (c : caps) (h : toy) : bool := bool_decide (c = CapDefault) || negb (Nat.eqb (room h) 0).
Definition toy_alloc (align size : Z) (c : caps) (h : toy) : toy * Z :=
  let p := (next h / align + 1) * align in
  if negb (admits c h) || (p =? 0) || bool_decide (is_Some (live h !! p)) then (h, 0)
  else (Toy (<[p := repeat x00 (Z.to_nat size)]> (live h)) (p + size) (room h - 1), p).
Definition toy_realloc (p size : Z) (c : caps) (h : toy) : toy * Z :=
  if negb (admits c h) || (p =? 0) || negb (p mod 4 =? 0) then (h, 0)
  else
    let b := default [] (live h !! p) in
    let n := Z.min (len b) (Z.max 0 size) in
    (Toy (<[p := ztake n b ++ repeat x00 (Z.to_nat (size - n))]> (delete p (live h))) (next h) (room h - 1), p).
Definition toy_store (p : Z) (l : bytes) (h : toy) : toy :=
  match live h !! p with
  | Some b => Toy (<[p := l ++ zdrop (len l) b]> (live h)) (next h) (room h)
  | None => h
  end.

#[local] Instance toy_caps : HeapCaps toy := {
  aligned_alloc := toy_alloc;
  heap_realloc := toy_realloc;
  heap_free p h := Toy (delete p (live h)) (next h) (room h);
  store_bytes := toy_store;
  blocks := live;
}.

#[local] Instance toy_laws : HeapCapsLaws toy.
Proof.
  assert (Hr : forall n : Z, len (repeat x00 (Z.to_nat n)) = Z.max 0 n) by (intros n; unfold len; rewrite repeat_length; lia).
  split; cbn.
  - intros al size c h. unfold toy_alloc. set (p := _ * al).
    destruct (negb (admits c h)); [by left|]. destruct (Z.eqb_spec p 0); [by left|].
    case_bool_decide as Hl; cbn; [by left|right]. split_and!; [done|apply Z_mod_mult|by apply eq_None_not_Some|].
    eexists. split; [apply Hr|done].
  - intros p size c h b Hb _. unfold toy_realloc. rewrite Hb. cbn [default].
    destruct (negb (admits c h)); [by left|]. destruct (Z.eqb_spec p 0); [by left|].
    destruct (Z.eqb_spec (p mod 4) 0); cbn; [right|by left]. split_and!; [done|done|by left|].
    set (k := Z.min (len b) (Z.max 0 size)). assert (Hn : 0 <= k) by (pose proof (len_nonneg b); lia).
    assert (Hlen : len (ztake k b ++ repeat x00 (Z.to_nat (size - k))) = Z.max 0 size) by (rewrite len_app, len_ztake, Hr; lia).
    eexists. split_and!; [exact Hlen| |done]. unfold carries. rewrite Hlen.
    change (Z.min (len b) (Z.max 0 size)) with k.
    rewrite ztake_app_l by (rewrite len_ztake; lia). apply ztake_all. rewrite len_ztake. lia.
  - done.
  - intros p l h b Hb _. unfold toy_store. by rewrite Hb.
Qed.

#[local] Instance with_psram : Board := true.
Definition started : toy := Toy {[ 64 := bs "hello" ]} 100 0.

(** An over-aligned block grows while the PSRAM is full. *)
Lemma realloc_keeps_contents_witness :
  realloc false 64 (MkLayout 16 5) 8 started = (Toy {[ 112 := bs "hello" ++ [x00; x00; x00] ]} 120 0, 112) /\
  exists b', blocks (realloc false 64 (MkLayout 16 5) 8 started).1 !! 112 = Some b' /\ carries (bs "hello") b'.
Proof.
  split; [by vm_compute|].
  assert (H := realloc_keeps_contents false 64 (MkLayout 16 5) (bs "hello") 8 started).
  destruct (realloc false 64 (MkLayout 16 5) 8 started) as [h' q] eqn:E.
  assert (q = 112) as -> by (change ((h', q).2 = 112); rewrite <- E; by vm_compute).
  destruct H as [Hr _]; [by exists 4|lia|done|done|].
  destruct Hr as [[? _]|(_ & _ & _ & b' & _ & Hc & Hb)]; [done|]. exists b'. cbn [fst]. rewrite Hb.
  split; [apply lookup_insert_eq|exact Hc].
Defined.
